(* ===== verification/_CoqProject ===== *)
-Q . S2P
Prelude.v
Cxx.v
Charconv.v
Resp.v
RespParser.v
RespParserFacts.v
RespGrammar.v
RespTheorems.v
World.v
KvStore.v
KvStoreFacts.v
Threads.v
ThreadsFacts.v
Command.v
PubSubBroker.v
DoubleFmt.v
GenericCmds.v
StringCmds.v
ListCmds.v
SetCmds.v
HashCmds.v
Dispatcher.v
CmdSpec.v
Demo.v
ThreadsSim.v
ThreadsTheorems.v
Threaded.v
DispatchSpec.v
ListSpec.v
SetSpec.v
HashSpec.v
StringSpec.v
ExpirySpec.v
KeySpec.v
MonitorSpec.v
StoreSim.v
HandlerSim.v
Aof.v
Histories.v
ThreadsCmds.v
HandlerTotal.v
Replies.v
AofTheorems.v
BrokerSpec.v
Mutex.v
MutexLin.v
MutexProgress.v
BrokerThreads.v
AofThreads.v
Connection.v
ConnFacts.v
ConnSteps.v
ConnTheorems.v
ConnProgress.v
ConnServe.v
ClientView.v
Server.v
ThreadsServer.v
ServerFacts.v
ServerTheorems.v
Delivery.v
Utils.v
Config.v
Startup.v
ConfigTheorems.v
StartupTheorems.v
Program.v
ThreadsProgram.v
Durability.v
