(* ===== verification/Prelude.v ===== *)
(** * Vortek: a verification development

    Vortek is an in-memory key-value server that speaks the Redis protocol. This library
    models its C++ sources (src/ of the repository) as executable definitions and proves
    what makes each part correct. Data are the source's structs and variants, one
    definition translates one function, state is passed explicitly, and an outcome of
    type Out says whether a call returned, threw, or did something the language leaves
    undefined.

    ** The program and the files that model it

    - Language and library (Cxx, Charconv, DoubleFmt): outcomes, 64-bit integers (signed
      overflow is undefined, unsigned wraps), std::from_chars, std::to_string for integers
      and doubles. The class CxxRuntime holds what the standard leaves to the
      implementation: texts of exceptions, how much a vector can reserve, the order in
      which unordered containers are walked.
    - RESP2 protocol (src/protocol/): Resp has the values and serialize, RespParser the
      incremental parser with its buffer. RespGrammar states the texts the parser accepts
      (wire), RESP2 itself (resp2) and the read loop; RespParserFacts, RespGrammar and
      RespTheorems hold the proofs.
    - Shared state (World): Value and Entry of src/core/, ServerStats, the broker's
      Subscriber, and the monad M of operations on them. The class Schedule gives the time
      an operation reads from the steady clock at each place of its body and the passes
      the background expiry thread completes in between; a theorem for all schedules
      covers all interleavings of that thread with the operations, which is proved (see
      the store's threads below).
    - Store (src/core/kv_store.cpp): KvStore; KvStoreFacts has its abstract view, the map
      of live keys, equality of stores from a time on (written with a setoid), and an
      equation for every operation.
    - The store's threads (kv_store.cpp again): Threads has every operation as a program
      whose steps take and release the reader-writer lock, read the clock and touch
      data_; the command thread as a client of these operations; run_expiry step by step;
      and machine_step, which interleaves the two threads with time and request_stop().
      ThreadsFacts shows that the programs without interference are the sequential
      operations and states the lock discipline; ThreadsSim is the simulation of every
      interleaving by a schedule; ThreadsTheorems has the absence of races and
      termination. Threaded is the class of computations that reach the store only
      through its operations, with the client each of them is; ThreadsCmds (handlers and
      dispatch), ThreadsServer (replay and connections) and ThreadsProgram (event loop and
      main) give its instances, so that the whole program runs on the machine.
    - Commands (src/commands/): Command (parse_command), GenericCmds, StringCmds,
      ListCmds, SetCmds, HashCmds (one definition per cmd_ function), Dispatcher
      (registration, dispatch, PUBLISH). CmdSpec defines what it means for a handler to
      refine a single-key specification; ListSpec, SetSpec, HashSpec, StringSpec,
      ExpirySpec, KeySpec, MonitorSpec and DispatchSpec give the specifications and the
      refinements. StoreSim states, as type classes, what handlers need of the store;
      HandlerSim, Histories and HandlerTotal prove the handlers against those classes.
      Replies types what handlers answer, with a judgement for postconditions.
    - Persistence (src/persistence/): Aof, with the file's bytes as state and the class
      FileSystem for what the operating system grants; proofs in AofTheorems.
    - Publish/subscribe (src/server/pubsub_broker.cpp): PubSubBroker; proofs in BrokerSpec.
    - Objects under a std::mutex: Mutex has programs that lock, read, write, unlock and call
      callbacks, the class MutexObject of what an object's programs keep to, and the machine
      that interleaves any number of threads, each with a stack of calls, since callbacks
      may call the object again; MutexLin proves linearizability and MutexProgress the
      absence of deadlocks against the class. BrokerThreads (the broker, statement by
      statement) and AofThreads (AofPersistence::log down to the buffer of the stream, and
      the destructor) are its instances: both classes are documented as thread-safe.
    - Connections (src/server/connection.cpp): Connection has the object, asio's side of
      its socket, every member function and every completion handler. ConnSteps makes it a
      transition system whose environment may do anything to the shared state; ConnFacts,
      ConnTheorems, ConnProgress and ConnServe hold the proofs, ClientView what a client
      reads back.
    - Server and start-up (src/server/server.cpp, src/utils/, src/main.cpp): Server,
      with signals, the timer that polls for them, and the event loop as a step relation
      over all connections, in which an object is destroyed when no handler, posted frame
      or callback holds it; Utils, the logger on top of spdlog as a parameter, error codes
      and byte views; Config, the command line and the config file, with toml++ as a
      parameter; Startup, the server's constructor and main, where the class Network says
      which ports can be listened on. Proofs in ServerFacts, ServerTheorems,
      ConfigTheorems and StartupTheorems. Delivery projects the server's steps to those of
      each connection and follows published messages. Program states what holds in every
      state a server started by main reaches. Durability puts start-up, the event loop,
      the connections' handlers, the commands, the file and the replay together.
    - Demo has a concrete runtime, schedule and state; each theorem with hypotheses is
      applied to concrete data in a lemma with the suffix _witness.

    ** What the theorems show

    - Protocol: feed is sound and complete for the texts it accepts, which are RESP2 but for
      two things it does not check (the bytes behind a bulk string, single CRs and LFs in
      lines); it terminates, is independent of chunking, and reads back what serialize
      writes; its recursion depth is unbounded.
    - Store and commands: every list, set, hash and string command refines its
      specification on the live view, whatever the expiry thread does; SET options, times
      to live and their overflow; DEL and EXISTS; METRICS and INFO; routing; which
      outcomes are possible and which replies, with INFO's echo of a section name as the one
      that can break its line; the expiry thread is invisible to all commands but INFO and
      METRICS, which count entries.
    - Threads: the store's data is never raced for; once stop is requested both threads
      finish in every interleaving, without waiting for each other for ever; commands,
      and the whole program from main on, give on two threads what the sequential model
      gives under some schedule, so the other theorems hold of the program as it runs.
    - Persistence: crash consistency for a file cut at any byte, equality of data after a
      restart, completeness of the list of logged commands; times to live restart.
    - Logging from several threads: entries are whole and in the order of the mutex, and a
      crash at any moment loses none whose call has returned.
    - Broker: refinement of a table of subscriber lists, its invariant, delivery; on any
      number of threads its operations are linearizable, callbacks run without the mutex,
      and nobody deadlocks.
    - Connections: bounds on buffers and on operations in flight, first-in first-out
      output, replies to pipelines as the handlers give them and as a client parses them,
      authentication, termination unless a received command overflows, the answer to an
      oversized request and the closing after it, no connection that hangs; confirmations that overtake replies.
    - Server and program: for every command line, each connection of the server is one of
      the transition system above; the client limit and the bytes held for all clients,
      delivery of messages, readiness and shutdown, recovery at start-up, every outcome of
      main (exit codes, a server on the replayed world, the exception of the port, an
      overflow in the replay), the range of every setting; subscribers that are never released, limits that wrap around, replies a client
      can forge.
    - End to end: in every state the server can reach from an empty file, whatever its
      clients do, a restart from the file restores the store (deadlines excepted).

    ** Fuel and bounds

    Recursion that is not structural takes fuel, and running out is the outcome NoFuel,
    which theorems exclude: the parser gets three more than the length of its buffer
    (each nested call consumes a byte), the loops that drain a buffer one more than its
    length (each round consumes at least three bytes), LRANGE the length of the list.
    Buffers are assumed shorter than 2^62 bytes (addressable), which no machine exceeds,
    so that offsets do not wrap. The idle timer is modelled for timeouts whose nanoseconds
    fit in 64 bits (idle_timeout_ns), which the theorems about connections and the program
    assume; ConnProgress says which do not. The machines of threads need no fuel: clients and
    programs are finite trees.

    ** What is not modelled

    The log lines the parts write besides the first (the logger itself is modelled); asio,
    spdlog, toml++ and the operating system, which appear as events and parameters;
    failures of memory allocation other than a reserve whose size a client chooses; device
    errors in the middle of a write; fairness of std::shared_mutex, so that it is not shown
    that a thread gets the lock while the other one keeps taking it. In the program all
    users of the broker, of the log and of the metrics run on one thread, so the server's
    theorems use their sequential operations; the atomics of the metrics are counters
    there. *)

(** Shared notations, list lemmas and automation. *)

From stdpp Require Export base tactics option list strings gmap sets.
From Stdlib Require Export ZArith Ascii.
Export Lia.

Set Default Goal Selector "!".

(** * Byte strings

    [std::string] and [std::string_view] are sequences of arbitrary bytes; the
    model uses lists of 8-bit characters, so that stdpp's list library applies.
    String literals in the scope [%b] denote such lists. *)

Abbreviation bytes := (list ascii).

Inductive lit_bytes := lit_nil | lit_cons (a : ascii) (l : lit_bytes).

Fixpoint lit_of_list_byte (l : list Byte.byte) : lit_bytes :=
  match l with
  | [] => lit_nil
  | b :: l => lit_cons (ascii_of_byte b) (lit_of_list_byte l)
  end.

Fixpoint list_byte_of_lit (l : lit_bytes) : list Byte.byte :=
  match l with
  | lit_nil => []
  | lit_cons a l => byte_of_ascii a :: list_byte_of_lit l
  end.

Definition byte_string := list ascii.

Declare Scope bytes_scope.
Delimit Scope bytes_scope with b.

#[warnings="-via-type-remapping,-via-type-mismatch"]
String Notation byte_string lit_of_list_byte list_byte_of_lit
  (via lit_bytes mapping [[nil] => lit_nil, [cons] => lit_cons]) : bytes_scope.

Definition CR : ascii := "013"%char.
Definition LF : ascii := "010"%char.
Definition crlf : bytes := [CR; LF].

(** [std::string::size] as the integer the code compares and adds. *)
Definition zlen {A} (l : list A) : Z := Z.of_nat (length l).

(** [contains_crlf s]: the two bytes CR LF occur next to each other in [s]. *)
Fixpoint contains_crlf (s : bytes) : bool :=
  match s with
  | [] => false
  | c1 :: t =>
      match t with
      | [] => false
      | c2 :: _ => (Ascii.eqb c1 CR && Ascii.eqb c2 LF) || contains_crlf t
      end
  end.

Lemma zlen_app {A} (l k : list A) : zlen (l ++ k) = (zlen l + zlen k)%Z.
Proof. unfold zlen. rewrite length_app. lia. Qed.

Lemma zlen_nonneg {A} (l : list A) : (0 <= zlen l)%Z.
Proof. unfold zlen. lia. Qed.

Lemma zlen_nil {A} : zlen (@nil A) = 0%Z.
Proof. done. Qed.

Lemma zlen_cons {A} (x : A) l : zlen (x :: l) = (1 + zlen l)%Z.
Proof. unfold zlen. cbn [length]. lia. Qed.

Lemma zlen_map {A B} (f : A -> B) l : zlen (map f l) = zlen l.
Proof. unfold zlen. by rewrite length_map. Qed.

(** * Lists *)

Lemma NoDup_map_filter {A B} (f : A -> B) (P : A -> Prop) `{!forall x, Decision (P x)} l :
  NoDup (map f l) -> NoDup (map f (filter P l)).
Proof.
  induction l as [|x l IH]; [done|]. cbn [map]. rewrite NoDup_cons, filter_cons.
  intros [Hx Hl]. case_decide; [|auto]. cbn [map]. apply NoDup_cons. split; [|auto].
  intros (y & Hy & [_ Hin]%list_elem_of_filter)%list_elem_of_fmap. apply Hx. rewrite Hy.
  apply list_elem_of_fmap. by exists y.
Qed.

Lemma omap_cons {A B} (f : A -> option B) x l :
  omap f (x :: l) = match f x with Some y => y :: omap f l | None => omap f l end.
Proof. done. Qed.

(** * Automation

    Lengths of concatenations are rewritten with the database [zlen]; [zlen_lia] closes
    the linear goals that remain. *)
Create HintDb zlen.
#[export] Hint Rewrite @zlen_app @zlen_nil @zlen_cons @zlen_map : zlen.

(** Decidable facts on closed data. *)
Ltac by_evaluation := apply (bool_decide_unpack _); vm_compute; exact I.

Ltac zlen_lia :=
  autorewrite with zlen in *;
  repeat match goal with
  | |- context [zlen ?l] => lazymatch goal with
                            | _ : (0 <= zlen l)%Z |- _ => fail
                            | _ => pose proof (zlen_nonneg l)
                            end
  end; lia.
