(* ===== verification/Cxx.v ===== *)
(** The part of the C++ language and its standard library every component uses:
    outcomes of a call (value, exception, undefined behaviour), machine-width
    integers, and the behaviour the standard leaves to the implementation. *)

From S2P Require Import Prelude.

Open Scope Z_scope.

(** * Exceptions and outcomes *)

(** The exceptions the sources throw or let through. *)
Inductive exn :=
  | runtime_error (msg : bytes)      (* throw std::runtime_error(msg) *)
  | bad_variant_access               (* std::get on the wrong alternative *)
  | length_error                     (* vector::reserve beyond max_size() *)
  | bad_alloc                        (* allocation failure *)
  | invalid_argument (msg : bytes)   (* std::stoi / std::stoull: no digits *)
  | out_of_range (msg : bytes).      (* std::stoi / std::stoull: too large *)

(** [Ret] is a normal return, [Exn] an exception that propagates, [UB] a step the
    language gives no meaning to (signed overflow, an index out of bounds), and
    [NoFuel] marks a recursion the model cut short; theorems rule it out. *)
Inductive Out (A : Type) :=
  | Ret (a : A)
  | Exn (e : exn)
  | UB
  | NoFuel.
Arguments Ret {A} a.
Arguments Exn {A} e.
Arguments UB {A}.
Arguments NoFuel {A}.

Definition out_bind {A B} (m : Out A) (f : A -> Out B) : Out B :=
  match m with
  | Ret a => f a
  | Exn e => Exn e
  | UB => UB
  | NoFuel => NoFuel
  end.

Lemma out_bind_assoc {A B C} (m : Out A) (f : A -> Out B) (g : B -> Out C) :
  out_bind (out_bind m f) g = out_bind m (fun a => out_bind (f a) g).
Proof. by destruct m. Qed.

#[global] Instance exn_eq_dec : EqDecision exn.
Proof. solve_decision. Defined.

#[global] Instance Out_eq_dec {A} `{EqDecision A} : EqDecision (Out A).
Proof. solve_decision. Defined.

(** * Implementation-defined behaviour

    [what_*] are the texts [std::exception::what] returns for exceptions whose
    message the standard leaves open; [vector_max_size] and [alloc_limit] bound
    what [vector::reserve] can serve; [iter_set] and [iter_map] give the order in
    which an unordered container is walked. *)
Class CxxRuntime := {
  what_bad_variant : bytes;
  what_length_error : bytes;
  what_bad_alloc : bytes;
  vector_max_size : Z;
  alloc_limit : Z;
  iter_set : gset bytes -> list bytes;
  iter_map : forall V, gmap bytes V -> list (bytes * V);
}.
Arguments iter_map {_} V m.

(** What the standard guarantees of these: an unordered container is walked once
    over each element, and the exception texts are single lines. *)
Class CxxRuntimeOk (R : CxxRuntime) : Prop := {
  iter_set_perm : forall s, iter_set s ≡ₚ elements s;
  iter_map_perm : forall V (m : gmap bytes V), iter_map V m ≡ₚ map_to_list m;
  what_one_line :
    contains_crlf what_bad_variant = false /\
    contains_crlf what_length_error = false /\
    contains_crlf what_bad_alloc = false;
}.

(** [std::exception::what]. *)
Definition what `{CxxRuntime} (e : exn) : bytes :=
  match e with
  | runtime_error msg => msg
  | bad_variant_access => what_bad_variant
  | length_error => what_length_error
  | bad_alloc => what_bad_alloc
  | invalid_argument msg => msg
  | out_of_range msg => msg
  end.

(** [std::vector::reserve(n)]: [length_error] beyond [max_size()], [bad_alloc] when
    the allocator cannot serve the request. *)
Definition reserve `{CxxRuntime} (n : Z) : Out unit :=
  if vector_max_size <? n then Exn length_error
  else if alloc_limit <? n then Exn bad_alloc
  else Ret tt.

(** A concrete runtime: the texts of libstdc++, 40-byte elements, and the walk
    order of the model's own containers. *)
Definition demo_runtime : CxxRuntime := {|
  what_bad_variant := "std::get: wrong index for variant"%b;
  what_length_error := "vector::reserve"%b;
  what_bad_alloc := "std::bad_alloc"%b;
  vector_max_size := 230584300921369395;
  alloc_limit := 100000000;
  iter_set := elements;
  iter_map := fun V => map_to_list;
|}.

#[global] Instance demo_runtime_ok : CxxRuntimeOk demo_runtime.
Proof. split; intros; done || (split_and!; reflexivity). Qed.

(** * Machine integers *)

Definition INT64_MIN : Z := - 2 ^ 63.
Definition INT64_MAX : Z := 2 ^ 63 - 1.
Definition in_int64 (z : Z) : bool := (INT64_MIN <=? z) && (z <=? INT64_MAX).

(** Unsigned 64-bit arithmetic wraps around. *)
Definition wrap64 (z : Z) : Z := z mod 2 ^ 64.

(** Signed 64-bit arithmetic that leaves the range is undefined. *)
Definition int64 (z : Z) : Out Z := if in_int64 z then Ret z else UB.

(** [static_cast<int64_t>] of a 64-bit pattern. *)
Definition to_int64 (z : Z) : Z :=
  let u := z mod 2 ^ 64 in if u <=? INT64_MAX then u else u - 2 ^ 64.

Lemma in_int64_spec z : in_int64 z = true <-> INT64_MIN <= z <= INT64_MAX.
Proof. unfold in_int64. rewrite andb_true_iff, !Z.leb_le. done. Qed.

Lemma wrap64_small z : 0 <= z < 2 ^ 64 -> wrap64 z = z.
Proof. apply Z.mod_small. Qed.

Lemma to_int64_range z : to_int64 z <= INT64_MAX.
Proof.
  unfold to_int64, INT64_MAX. pose proof (Z.mod_pos_bound z (2 ^ 64)).
  destruct (Z.leb_spec (z mod 2 ^ 64) (2 ^ 63 - 1)); lia.
Qed.

Lemma to_int64_small z : 0 <= z <= INT64_MAX -> to_int64 z = z.
Proof.
  unfold to_int64, INT64_MAX. intros ?. rewrite Z.mod_small by lia.
  destruct (Z.leb_spec z (2 ^ 63 - 1)); lia.
Qed.
