(* ===== verification/Charconv.v ===== *)
(** <charconv> and <string> conversions between integers and decimal text:
    [std::from_chars] on [int64_t], and [std::to_string]. *)

From S2P Require Import Prelude Cxx.

Open Scope Z_scope.

Definition is_digit (c : ascii) : bool :=
  let n := N_of_ascii c in ((48 <=? n) && (n <=? 57))%N.

Definition digit_val (c : ascii) : Z := Z.of_N (N_of_ascii c) - 48.

Definition digit_char (d : Z) : ascii := ascii_of_N (Z.to_N (d + 48)).

Fixpoint take_digits (s : bytes) : bytes :=
  match s with
  | c :: s => if is_digit c then c :: take_digits s else []
  | [] => []
  end.

Definition digits_val_from (acc : Z) (s : bytes) : Z :=
  fold_left (fun acc c => acc * 10 + digit_val c) s acc.
Abbreviation digits_val := (digits_val_from 0).

(** * [std::from_chars] (base 10, [int64_t])

    An optional minus sign and then as many digits as there are. The result is the
    new value of the output variable (its old value when the conversion fails),
    the number of characters consumed and the error code. *)

Inductive errc := errc_ok | errc_invalid_argument | errc_result_out_of_range.

#[global] Instance errc_eq_dec : EqDecision errc.
Proof. solve_decision. Defined.

Record from_chars_result := FromChars { fc_value : Z; fc_ptr : nat; fc_ec : errc }.

Definition strip_sign (s : bytes) : bool * bytes :=
  match s with
  | c :: r => if Ascii.eqb c "-"%char then (true, r) else (false, s)
  | [] => (false, [])
  end.

Definition from_chars (s : bytes) (old : Z) : from_chars_result :=
  let '(neg, r) := strip_sign s in
  let ds := take_digits r in
  match ds with
  | [] => FromChars old 0 errc_invalid_argument
  | _ =>
      let v := if neg then - digits_val ds else digits_val ds in
      let ptr := ((if neg then 1 else 0) + length ds)%nat in
      if in_int64 v then FromChars v ptr errc_ok
      else FromChars old ptr errc_result_out_of_range
  end.

(** The test every caller makes: [ec == std::errc{} && ptr == end]; the value is
    the one the output variable holds after an accepted conversion. *)
Definition parse_int64 (s : bytes) : option Z :=
  let r := from_chars s 0 in
  if bool_decide (fc_ec r = errc_ok) && (fc_ptr r =? length s)%nat
  then Some (fc_value r) else None.

(** * [std::to_string] *)

Fixpoint digits_loop (fuel : nat) (n : Z) (acc : bytes) : bytes :=
  match fuel with
  | O => acc
  | S fuel =>
      let acc := digit_char (n mod 10) :: acc in
      if n <? 10 then acc else digits_loop fuel (n / 10) acc
  end.

Definition digits_of (n : Z) : bytes := digits_loop (S (Z.to_nat (Z.log2 n))) n [].

Definition to_string (z : Z) : bytes :=
  if z <? 0 then "-"%char :: digits_of (- z) else digits_of z.

(** * Facts *)

Lemma digit_char_val d : 0 <= d < 10 -> digit_val (digit_char d) = d.
Proof.
  intros ?. unfold digit_val, digit_char.
  rewrite N_ascii_embedding by lia. lia.
Qed.

Lemma digit_char_is_digit d : 0 <= d < 10 -> is_digit (digit_char d) = true.
Proof.
  intros ?. unfold is_digit, digit_char.
  rewrite N_ascii_embedding by lia. apply andb_true_iff. rewrite !N.leb_le. lia.
Qed.

Lemma digits_val_from_cons acc c s :
  digits_val_from acc (c :: s) = digits_val_from (acc * 10 + digit_val c) s.
Proof. done. Qed.

(** Peeling the last digits off [n] keeps the value read so far. *)
Lemma digits_loop_val fuel n acc k :
  0 <= n < 2 ^ Z.of_nat fuel -> 0 <= k ->
  (forall a, digits_val_from a acc = a * 10 ^ k + digits_val acc) ->
  digits_val (digits_loop fuel n acc) = n * 10 ^ k + digits_val acc.
Proof.
  revert n acc k. induction fuel as [|fuel IH]; intros n acc k Hn Hk Hacc; simpl.
  { replace n with 0 by (change (2 ^ Z.of_nat 0) with 1 in Hn; lia). lia. }
  assert (0 <= n mod 10 < 10) by (apply Z.mod_pos_bound; lia).
  destruct (Z.ltb_spec n 10).
  - rewrite digits_val_from_cons, Hacc, digit_char_val by done.
    rewrite Z.mod_small by lia. lia.
  - assert (n = 10 * (n / 10) + n mod 10) as Hdm by (apply Z.div_mod; lia).
    rewrite (IH _ _ (k + 1)).
    + rewrite digits_val_from_cons, Hacc, digit_char_val, Z.pow_add_r by lia. nia.
    + rewrite Nat2Z.inj_succ, Z.pow_succ_r in Hn by lia. lia.
    + lia.
    + intros a. rewrite !digits_val_from_cons, Hacc, (Hacc (0 * 10 + _)).
      rewrite Z.pow_add_r by lia. nia.
Qed.

Lemma digits_of_val n : 0 <= n -> digits_val (digits_of n) = n.
Proof.
  intros Hn. unfold digits_of. rewrite (digits_loop_val _ _ _ 0).
  - unfold digits_val_from. simpl. lia.
  - split; [done|]. rewrite Nat2Z.inj_succ, Z2Nat.id by apply Z.log2_nonneg.
    destruct (decide (n = 0)) as [->|]; [done|].
    apply Z.log2_spec. lia.
  - lia.
  - intros a. unfold digits_val_from. simpl. lia.
Qed.

Lemma digits_loop_digits fuel n acc :
  0 <= n -> Forall (fun c => is_digit c = true) acc ->
  Forall (fun c => is_digit c = true) (digits_loop fuel n acc).
Proof.
  revert n acc. induction fuel as [|fuel IH]; intros n acc Hn Hacc; simpl; [done|].
  assert (Forall (fun c => is_digit c = true) (digit_char (n mod 10) :: acc)).
  { constructor; [|done]. apply digit_char_is_digit, Z.mod_pos_bound. lia. }
  destruct (n <? 10); [done|]. apply IH; [|done]. apply Z.div_pos; lia.
Qed.

Lemma digits_of_digits n : 0 <= n -> Forall (fun c => is_digit c = true) (digits_of n).
Proof. intros. by apply digits_loop_digits. Qed.

Lemma digits_loop_nonempty fuel n acc : acc <> [] -> digits_loop fuel n acc <> [].
Proof.
  revert n acc. induction fuel as [|fuel IH]; intros n acc Hacc; simpl; [done|].
  destruct (n <? 10); [done|]. by apply IH.
Qed.

Lemma digits_of_nonempty n : digits_of n <> [].
Proof.
  unfold digits_of. simpl. destruct (n <? 10); [done|]. by apply digits_loop_nonempty.
Qed.

Lemma take_digits_all s : Forall (fun c => is_digit c = true) s -> take_digits s = s.
Proof. induction 1 as [|c s Hc _ IH]; simpl; [done|]. by rewrite Hc, IH. Qed.

Lemma is_digit_not_minus c : is_digit c = true -> Ascii.eqb c "-"%char = false.
Proof. intros Hc. apply Ascii.eqb_neq. by intros ->. Qed.

Lemma is_digit_not_CR c : is_digit c = true -> c <> CR.
Proof. by intros Hc ->. Qed.

Lemma strip_sign_digits s :
  Forall (fun c => is_digit c = true) s -> strip_sign s = (false, s).
Proof.
  destruct 1 as [|c s Hc _]; [done|]. simpl. by rewrite is_digit_not_minus.
Qed.

(** Reading back what [to_string] printed, for every [int64_t]. *)
Lemma parse_int64_to_string z :
  INT64_MIN <= z <= INT64_MAX -> parse_int64 (to_string z) = Some z.
Proof.
  intros Hz. unfold parse_int64, to_string.
  assert (forall neg n, 0 <= n -> z = (if neg : bool then - n else n) ->
    from_chars ((if neg then ["-"%char] else []) ++ digits_of n) 0
      = FromChars z (length ((if neg then ["-"%char] else []) ++ digits_of n)) errc_ok)
    as Hfc.
  { intros neg n Hn Hzn. unfold from_chars.
    replace (strip_sign _) with (neg, digits_of n)
      by (destruct neg; simpl; [done|by rewrite strip_sign_digits by by apply digits_of_digits]).
    rewrite take_digits_all by by apply digits_of_digits.
    rewrite digits_of_val, <- Hzn by done.
    rewrite (proj2 (in_int64_spec z)) by done.
    pose proof (digits_of_nonempty n). destruct (digits_of n); [done|]. by destruct neg. }
  destruct (Z.ltb_spec z 0).
  - specialize (Hfc true (- z)). cbn [app] in Hfc. rewrite Hfc by lia.
    cbn [fc_ec fc_ptr fc_value]. by rewrite Nat.eqb_refl.
  - specialize (Hfc false z). cbn [app] in Hfc. rewrite Hfc by lia.
    cbn [fc_ec fc_ptr fc_value]. by rewrite Nat.eqb_refl.
Qed.

Lemma parse_int64_range s z : parse_int64 s = Some z -> INT64_MIN <= z <= INT64_MAX.
Proof.
  unfold parse_int64, from_chars. destruct (strip_sign s) as [neg r].
  destruct (take_digits r); [done|].
  destruct (in_int64 _) eqn:Hin; simpl; [|done].
  destruct (_ =? _)%nat; [|done]. intros [= <-]. by apply in_int64_spec.
Qed.

(** Decimal text holds no carriage return, so it stays on one line. *)
Lemma digits_no_crlf s : Forall (fun c => is_digit c = true) s -> contains_crlf s = false.
Proof.
  induction 1 as [|c s Hc _ IH]; simpl; [done|]. destruct s; [done|].
  rewrite IH, orb_false_r. apply andb_false_iff; left.
  apply Ascii.eqb_neq. by apply is_digit_not_CR.
Qed.

Lemma to_string_no_crlf z : contains_crlf (to_string z) = false.
Proof.
  unfold to_string. destruct (Z.ltb_spec z 0).
  - assert (contains_crlf (digits_of (- z)) = false)
      by (apply digits_no_crlf, digits_of_digits; lia).
    simpl. by destruct (digits_of (- z)).
  - by apply digits_no_crlf, digits_of_digits.
Qed.
