(* ===== verification/Resp.v ===== *)
(** RESP2 values (src/protocol/resp_types.hpp) and their wire form
    (src/protocol/resp_serializer.hpp). *)

From S2P Require Import Prelude Cxx Charconv.

Open Scope Z_scope.

(** The alternatives of [RespValue::Variant]. *)
Inductive RespValue :=
  | RespNull
  | RespSimpleString (value : bytes)
  | RespError (message : bytes)
  | RespInteger (value : Z)
  | RespBulkString (value : bytes)
  | RespArray (elements : list RespValue).

(** [serialize]: one overload per alternative, the array recursing on its elements. *)
Fixpoint serialize (v : RespValue) : bytes :=
  match v with
  | RespNull => "$-1"%b ++ crlf
  | RespSimpleString s => "+"%b ++ s ++ crlf
  | RespError m => "-"%b ++ m ++ crlf
  | RespInteger i => ":"%b ++ to_string i ++ crlf
  | RespBulkString b => "$"%b ++ to_string (zlen b) ++ crlf ++ b ++ crlf
  | RespArray l => "*"%b ++ to_string (zlen l) ++ crlf ++ flat_map serialize l
  end.

(** Induction with a hypothesis for every element of an array. *)
Section RespValue_ind_nested.
Variable P : RespValue -> Prop.
Hypothesis Hnull : P RespNull.
Hypothesis Hsimple : forall s, P (RespSimpleString s).
Hypothesis Herror : forall m, P (RespError m).
Hypothesis Hint : forall i, P (RespInteger i).
Hypothesis Hbulk : forall b, P (RespBulkString b).
Hypothesis Harray : forall l, Forall P l -> P (RespArray l).

Fixpoint RespValue_ind' (v : RespValue) : P v :=
  match v with
  | RespNull => Hnull
  | RespSimpleString s => Hsimple s
  | RespError m => Herror m
  | RespInteger i => Hint i
  | RespBulkString b => Hbulk b
  | RespArray l =>
      Harray l ((fix go (l : list RespValue) : Forall P l :=
                   match l with
                   | [] => Forall_nil_2 P
                   | v :: l => Forall_cons_2 P v l (RespValue_ind' v) (go l)
                   end) l)
  end.
End RespValue_ind_nested.

#[global] Instance RespValue_eq_dec : EqDecision RespValue.
Proof.
  refine (fix go (v w : RespValue) : Decision (v = w) :=
    match v, w with
    | RespNull, RespNull => left eq_refl
    | RespSimpleString s, RespSimpleString t => cast_if (decide (s = t))
    | RespError s, RespError t => cast_if (decide (s = t))
    | RespInteger i, RespInteger j => cast_if (decide (i = j))
    | RespBulkString s, RespBulkString t => cast_if (decide (s = t))
    | RespArray l, RespArray k =>
        cast_if (@list_eq_dec RespValue go l k)
    | _, _ => right _
    end); abstract congruence.
Defined.

(** Values the wire format can carry: line-based alternatives hold no CR LF, integers
    and lengths are 64-bit, and arrays can be allocated by the reader. *)
Fixpoint resp_wf `{CxxRuntime} (v : RespValue) : bool :=
  match v with
  | RespNull => true
  | RespSimpleString s => negb (contains_crlf s)
  | RespError m => negb (contains_crlf m)
  | RespInteger i => in_int64 i
  | RespBulkString b => zlen b <=? INT64_MAX
  | RespArray l =>
      (zlen l <=? INT64_MAX) && (zlen l <=? vector_max_size) && (zlen l <=? alloc_limit)
      && forallb resp_wf l
  end.
