(* ===== verification/RespParser.v ===== *)
(** The incremental RESP2 parser (src/protocol/resp_parser.hpp, resp_parser.cpp).

    [buf_] is the accumulated input; every [parse_*] function works on it from an
    absolute offset and returns, as the code does, the value (or nothing when more
    input is needed) with the offset behind it. *)

From S2P Require Import Prelude Cxx Charconv Resp.

Open Scope Z_scope.

(** * Position of the next CR LF *)

Fixpoint find_crlf_from (s : bytes) (pos : nat) : option nat :=
  match s with
  | [] => None
  | c1 :: t =>
      match t with
      | [] => None
      | c2 :: _ =>
          if Ascii.eqb c1 CR && Ascii.eqb c2 LF then Some pos
          else find_crlf_from t (S pos)
      end
  end.

Section Parse.
Context `{CxxRuntime}.
Variable buf_ : bytes.

(** [buf_.find("\r\n", offset)]; [None] is [npos]. *)
Definition find_crlf (offset : nat) : option nat :=
  find_crlf_from (drop offset buf_) offset.

Definition substr (offset len : nat) : bytes := take len (drop offset buf_).

Definition read_line (offset : nat) : option bytes * nat :=
  match find_crlf offset with
  | None => (None, 0%nat)
  | Some pos => (Some (substr offset (pos - offset)), (pos + 2)%nat)
  end.

Definition ParseResult : Type := option RespValue * nat.
Definition need_more : Out ParseResult := Ret (None, 0%nat).

(** * Type parsers *)

Definition parse_simple_string (offset : nat) : Out ParseResult :=
  match read_line offset with
  | (None, _) => need_more
  | (Some line, e) => Ret (Some (RespSimpleString line), e)
  end.

Definition parse_error (offset : nat) : Out ParseResult :=
  match read_line offset with
  | (None, _) => need_more
  | (Some line, e) => Ret (Some (RespError line), e)
  end.

Definition parse_integer (offset : nat) : Out ParseResult :=
  match read_line offset with
  | (None, _) => need_more
  | (Some line, e) =>
      match parse_int64 line with
      | None => Exn (runtime_error ("RESP: invalid integer '"%b ++ line ++ "'"%b))
      | Some val => Ret (Some (RespInteger val), e)
      end
  end.

Definition parse_bulk_string (offset : nat) : Out ParseResult :=
  match read_line offset with
  | (None, _) => need_more
  | (Some line, after_len) =>
      match parse_int64 line with
      | None =>
          Exn (runtime_error ("RESP: invalid bulk string length '"%b ++ line ++ "'"%b))
      | Some len =>
          if len =? -1 then Ret (Some RespNull, after_len)
          else if len <? 0 then
            Exn (runtime_error "RESP: negative bulk string length"%b)
          else
            (* size_t arithmetic: data_len bytes and the trailing CR LF *)
            if zlen buf_ <? wrap64 (Z.of_nat after_len + len + 2) then need_more
            else
              Ret (Some (RespBulkString (substr after_len (Z.to_nat len))),
                   (after_len + Z.to_nat len + 2)%nat)
      end
  end.

(** * Top-level dispatch and arrays

    [parse] and [parse_array] are mutually recursive in the source; the loop over
    the elements is [parse_elements], [count] being the iterations left. The fuel
    bounds the nesting of calls. *)
Fixpoint parse (fuel : nat) (offset : nat) {struct fuel} : Out ParseResult :=
  match fuel with
  | O => NoFuel
  | S fuel =>
      match drop offset buf_ with
      | [] => need_more
      | c :: _ =>
          if Ascii.eqb c "+"%char then parse_simple_string (offset + 1)
          else if Ascii.eqb c "-"%char then parse_error (offset + 1)
          else if Ascii.eqb c ":"%char then parse_integer (offset + 1)
          else if Ascii.eqb c "$"%char then parse_bulk_string (offset + 1)
          else if Ascii.eqb c "*"%char then parse_array fuel (offset + 1)
          else Exn (runtime_error ("RESP: unknown type byte '"%b ++ [c] ++ "'"%b))
      end
  end
with parse_array (fuel : nat) (offset : nat) {struct fuel} : Out ParseResult :=
  match fuel with
  | O => NoFuel
  | S fuel =>
      match read_line offset with
      | (None, _) => need_more
      | (Some line, after_count) =>
          match parse_int64 line with
          | None => Exn (runtime_error ("RESP: invalid array count '"%b ++ line ++ "'"%b))
          | Some count =>
              if count =? -1 then Ret (Some RespNull, after_count)
              else if count <? 0 then
                Exn (runtime_error "RESP: negative array count"%b)
              else
                out_bind (reserve count) (fun _ =>
                parse_elements fuel count after_count [])
          end
      end
  end
with parse_elements (fuel : nat) (count : Z) (cur : nat) (elements : list RespValue)
    {struct fuel} : Out ParseResult :=
  match fuel with
  | O => NoFuel
  | S fuel =>
      if count <=? 0 then Ret (Some (RespArray elements), cur)
      else
        match parse fuel cur with
        | Ret (Some elem, e) => parse_elements fuel (count - 1) e (elements ++ [elem])
        | Ret (None, _) => need_more
        | Exn e => Exn e
        | UB => UB
        | NoFuel => NoFuel
        end
  end.
End Parse.

(** A call never nests deeper than the input is long; see [parse_fuel_enough]. *)
Definition parse_fuel (buf : bytes) : nat := length buf + 3.

(** * Public API *)

Record RespParser := MkParser { buf_ : bytes }.

Definition RespParser_new : RespParser := MkParser [].

Definition RespParser_feed `{CxxRuntime} (p : RespParser) (chunk : bytes)
    : Out (option RespValue) * RespParser :=
  let buf := buf_ p ++ chunk in
  match parse buf (parse_fuel buf) 0 with
  | Ret (Some val, end_pos) => (Ret (Some val), MkParser (drop end_pos buf))
  | Ret (None, _) => (Ret None, MkParser buf)
  | Exn e => (Exn e, MkParser buf)
  | UB => (UB, MkParser buf)
  | NoFuel => (NoFuel, MkParser buf)
  end.

Definition RespParser_reset (_ : RespParser) : RespParser := MkParser [].

Definition RespParser_buffered_size (p : RespParser) : Z := zlen (buf_ p).
