(* ===== verification/RespParserFacts.v ===== *)
(** Facts about the parser: lines, progress, enough fuel, and stability of a result
    when more input arrives. *)

From S2P Require Import Prelude Cxx Charconv Resp RespParser.

Open Scope Z_scope.

(** Sizes a [std::string] can have; below this bound the parser's [size_t] additions
    do not wrap around. *)
Definition addressable (buf : bytes) : Prop := zlen buf < 2 ^ 62.

(** * Lines *)

Lemma find_crlf_from_Some s pos q :
  find_crlf_from s pos = Some q ->
  exists l r, s = l ++ crlf ++ r /\ q = (pos + length l)%nat /\ contains_crlf l = false.
Proof.
  revert pos. induction s as [|c1 s IH]; intros pos; simpl; [done|].
  destruct s as [|c2 s]; [done|].
  destruct (Ascii.eqb c1 CR && Ascii.eqb c2 LF) eqn:E.
  - apply andb_true_iff in E as [->%Ascii.eqb_eq ->%Ascii.eqb_eq]. intros [= <-].
    exists [], s. split_and!; [done|simpl; lia|done].
  - intros (l & r & Hs & -> & Hl)%IH. exists (c1 :: l), r.
    split_and!; [by rewrite Hs|simpl; lia|].
    simpl. destruct l as [|c l]; [done|]. injection Hs as <- _. by rewrite E.
Qed.

Lemma find_crlf_from_cons c1 c2 t pos :
  find_crlf_from (c1 :: c2 :: t) pos =
  if Ascii.eqb c1 CR && Ascii.eqb c2 LF then Some pos else find_crlf_from (c2 :: t) (S pos).
Proof. done. Qed.

Lemma find_crlf_from_line l r pos :
  contains_crlf l = false -> find_crlf_from (l ++ crlf ++ r) pos = Some (pos + length l)%nat.
Proof.
  revert pos. induction l as [|c1 l IH]; intros pos Hl.
  { simpl. f_equal; lia. }
  destruct l as [|c2 l].
  - simpl. destruct (Ascii.eqb c1 CR); simpl; f_equal; lia.
  - simpl in Hl. apply orb_false_iff in Hl as [E Hl].
    cbn [app]. rewrite find_crlf_from_cons, E.
    change (c2 :: l ++ crlf ++ r) with ((c2 :: l) ++ crlf ++ r).
    rewrite (IH (S pos) Hl). f_equal; simpl; lia.
Qed.

Lemma drop_decomp (buf : bytes) off s t :
  drop off buf = s ++ t -> s ++ t <> [] -> drop (off + length s) buf = t.
Proof. intros Hd _. by rewrite <- drop_drop, Hd, drop_app_length. Qed.

Lemma drop_nonempty_lt (buf : bytes) off s :
  drop off buf = s -> s <> [] -> (off + length s = length buf)%nat.
Proof.
  intros Hd Hs. assert (length s = length buf - off)%nat by by rewrite <- Hd, length_drop.
  destruct s; [done|]. simpl in *. lia.
Qed.

(** A line the parser reads is the text up to the first CR LF. *)
Lemma read_line_Some buf off line e :
  read_line buf off = (Some line, e) ->
  drop off buf = line ++ crlf ++ drop e buf /\ contains_crlf line = false /\
  e = (off + length line + 2)%nat /\ (e <= length buf)%nat.
Proof.
  unfold read_line, find_crlf, substr.
  destruct (find_crlf_from _ _) as [pos|] eqn:Hf; [|done]. intros [= <- <-].
  apply find_crlf_from_Some in Hf as (l & r & Hd & -> & Hl).
  replace (off + length l - off)%nat with (length l) by lia.
  rewrite Hd, take_app_length. split_and!; [|done|done|].
  - do 2 f_equal. change (l ++ crlf ++ r) with (l ++ (crlf ++ r)) in Hd.
    rewrite app_assoc in Hd. apply drop_decomp in Hd; [|by destruct l].
    rewrite length_app in Hd. simpl in Hd. rewrite <- Hd. f_equal; lia.
  - apply drop_nonempty_lt in Hd; [|by destruct l].
    rewrite !length_app in Hd. simpl in Hd. lia.
Qed.

Lemma read_line_line buf off line rest :
  drop off buf = line ++ crlf ++ rest -> contains_crlf line = false ->
  read_line buf off = (Some line, (off + length line + 2)%nat).
Proof.
  intros Hd Hl. unfold read_line, find_crlf, substr.
  rewrite Hd, find_crlf_from_line by done.
  by replace (off + length line - off)%nat with (length line) by lia; rewrite take_app_length.
Qed.

Lemma read_line_None buf off e : read_line buf off = (None, e) -> e = 0%nat.
Proof. unfold read_line. destruct (find_crlf _ _); congruence. Qed.

Lemma drop_app_nonempty (buf more : bytes) off s :
  drop off buf = s -> s <> [] -> drop off (buf ++ more) = s ++ more.
Proof.
  intros Hd Hs. pose proof (drop_nonempty_lt _ _ _ Hd Hs) as Hlen.
  assert (length s <> 0%nat) by by destruct s.
  rewrite drop_app_le by lia. by rewrite Hd.
Qed.

Lemma read_line_extend buf more off line e :
  read_line buf off = (Some line, e) -> read_line (buf ++ more) off = (Some line, e).
Proof.
  intros (Hd & Hl & -> & _)%read_line_Some.
  apply (read_line_line _ _ _ (drop (off + length line + 2) buf ++ more)); [|done].
  rewrite (drop_app_nonempty _ _ _ _ Hd) by by destruct line.
  by rewrite <- !app_assoc.
Qed.

(** The bound on the buffer keeps [after_len + data_len + 2] below 2^64. *)
Lemma bulk_end_no_wrap buf after len :
  addressable buf -> (after <= length buf)%nat -> 0 <= len <= INT64_MAX ->
  wrap64 (Z.of_nat after + len + 2) = Z.of_nat after + len + 2.
Proof.
  unfold addressable, zlen, INT64_MAX. intros. apply wrap64_small. lia.
Qed.

(** * Progress and bounds *)

Section Facts.
Context `{CxxRuntime}.

(** Case analysis over one call of a type parser. *)
Ltac destruct_parse :=
  repeat (case_match; simplify_eq/=);
  repeat match goal with
  | E : read_line _ _ = (Some _, _) |- _ =>
      apply read_line_Some in E as (? & ? & ? & ?)
  end.

(** The defining equations of the mutual recursion. *)
Lemma parse_S buf fuel off :
  parse buf (S fuel) off =
  match drop off buf with
  | [] => need_more
  | c :: _ =>
      if Ascii.eqb c "+"%char then parse_simple_string buf (off + 1)
      else if Ascii.eqb c "-"%char then parse_error buf (off + 1)
      else if Ascii.eqb c ":"%char then parse_integer buf (off + 1)
      else if Ascii.eqb c "$"%char then parse_bulk_string buf (off + 1)
      else if Ascii.eqb c "*"%char then parse_array buf fuel (off + 1)
      else Exn (runtime_error ("RESP: unknown type byte '"%b ++ [c] ++ "'"%b))
  end.
Proof. done. Qed.

Lemma parse_array_S buf fuel off :
  parse_array buf (S fuel) off =
  match read_line buf off with
  | (None, _) => need_more
  | (Some line, after_count) =>
      match parse_int64 line with
      | None => Exn (runtime_error ("RESP: invalid array count '"%b ++ line ++ "'"%b))
      | Some count =>
          if count =? -1 then Ret (Some RespNull, after_count)
          else if count <? 0 then Exn (runtime_error "RESP: negative array count"%b)
          else out_bind (reserve count) (fun _ => parse_elements buf fuel count after_count [])
      end
  end.
Proof. done. Qed.

Lemma parse_elements_S buf fuel count cur els :
  parse_elements buf (S fuel) count cur els =
  if count <=? 0 then Ret (Some (RespArray els), cur)
  else
    match parse buf fuel cur with
    | Ret (Some elem, e) => parse_elements buf fuel (count - 1) e (els ++ [elem])
    | Ret (None, _) => need_more
    | Exn e => Exn e
    | UB => UB
    | NoFuel => NoFuel
    end.
Proof. done. Qed.

Definition ends_within (buf : bytes) (lo : nat) (r : Out ParseResult) : Prop :=
  forall v e, r = Ret (Some v, e) -> (lo <= e <= length buf)%nat.

Lemma simple_ends buf off : ends_within buf (off + 2) (parse_simple_string buf off).
Proof. unfold parse_simple_string, need_more. intros v e ?. destruct_parse. lia. Qed.

Lemma error_ends buf off : ends_within buf (off + 2) (parse_error buf off).
Proof. unfold parse_error, need_more. intros v e ?. destruct_parse. lia. Qed.

Lemma integer_ends buf off : ends_within buf (off + 2) (parse_integer buf off).
Proof. unfold parse_integer, need_more. intros v e ?. destruct_parse. lia. Qed.

Lemma bulk_ends buf off :
  addressable buf -> ends_within buf (off + 2) (parse_bulk_string buf off).
Proof.
  unfold parse_bulk_string, need_more. intros Ha v e ?.
  repeat (case_match; simplify_eq/=);
    match goal with E : read_line _ _ = _ |- _ =>
      apply read_line_Some in E as (? & ? & ? & ?) end; [lia|].
  match goal with E : parse_int64 _ = _ |- _ => apply parse_int64_range in E end.
  rewrite (bulk_end_no_wrap buf) in * by (done || lia).
  unfold zlen in *. lia.
Qed.

(** Every value the parser returns ends inside the buffer, behind at least three
    bytes of its own. *)
Lemma parse_ends_all buf fuel :
  addressable buf ->
  (forall off, ends_within buf (off + 3) (parse buf fuel off)) /\
  (forall off, ends_within buf (off + 2) (parse_array buf fuel off)) /\
  (forall count cur els, (cur <= length buf)%nat ->
     ends_within buf cur (parse_elements buf fuel count cur els)).
Proof.
  intros Ha. induction fuel as [|fuel (IHp & IHa & IHe)]; [done|]. split_and!.
  - intros off v e. rewrite parse_S. unfold need_more.
    destruct (drop off buf) as [|c t]; [done|].
    intros Hr.
    assert (off + 1 + 2 <= e <= length buf)%nat; [|lia].
    repeat case_match;
      first [ discriminate Hr | by eapply simple_ends | by eapply error_ends | by eapply integer_ends
            | by eapply bulk_ends | by eapply IHa ].
  - intros off v e. rewrite parse_array_S. unfold need_more, reserve, out_bind. intros Hr. destruct_parse; try lia.
    apply IHe in Hr; lia.
  - intros count cur els Hcur v e. rewrite parse_elements_S. unfold need_more.
    destruct (count <=? 0); [intros [= <- <-]; lia|].
    destruct (parse buf fuel cur) as [[[el|] e']| | |] eqn:Hp; try done.
    apply IHp in Hp. intros Hr. apply IHe in Hr; lia.
Qed.

Lemma parse_ends buf fuel off v e :
  addressable buf -> parse buf fuel off = Ret (Some v, e) -> (off + 3 <= e <= length buf)%nat.
Proof. intros Ha. by apply (proj1 (parse_ends_all buf fuel Ha)). Qed.

(** * Enough fuel

    A type parser returns or throws; it has no undefined step. *)
Definition settles (r : Out ParseResult) : Prop := r <> NoFuel /\ r <> UB.

Lemma leaf_settles buf off :
  settles (parse_simple_string buf off) /\ settles (parse_error buf off) /\
  settles (parse_integer buf off) /\ settles (parse_bulk_string buf off).
Proof.
  unfold settles, parse_simple_string, parse_error, parse_integer, parse_bulk_string,
    need_more.
  by split_and!; repeat case_match.
Qed.

(** Each nested call starts at least three bytes further on, so the nesting is bounded
    by what is left of the buffer, whatever counts the input announces. *)
Lemma parse_settles_all buf fuel :
  addressable buf ->
  (forall off, (length buf - off + 2 <= fuel)%nat -> settles (parse buf fuel off)) /\
  (forall off, (length buf - off + 2 <= fuel)%nat -> settles (parse_array buf fuel off)) /\
  (forall count cur els, (length buf - cur + 3 <= fuel)%nat ->
     settles (parse_elements buf fuel count cur els)).
Proof.
  intros Ha. induction fuel as [|fuel (IHp & IHa & IHe)]; [split_and!; intros; lia|].
  split_and!.
  - intros off Hf. rewrite parse_S. destruct (drop off buf) as [|c t] eqn:Hd; [done|].
    apply drop_nonempty_lt in Hd; [|done]. simpl in Hd.
    destruct (leaf_settles buf (off + 1)) as (? & ? & ? & ?).
    repeat case_match; first [done | apply IHa; lia].
  - intros off Hf. rewrite parse_array_S. unfold need_more, reserve, out_bind.
    repeat case_match; try done.
    all: match goal with E : read_line _ _ = _ |- _ =>
      apply read_line_Some in E as (? & ? & ? & ?) end.
    all: simpl; try done; apply IHe; lia.
  - intros count cur els Hf. rewrite parse_elements_S.
    destruct (count <=? 0); [done|].
    assert (settles (parse buf fuel cur)) as Hs by (apply IHp; lia).
    destruct (parse buf fuel cur) as [[[el|] e']| | |] eqn:Hp; try by destruct Hs.
    apply parse_ends in Hp; [|done]. apply IHe. lia.
Qed.

Lemma parse_settles buf off :
  addressable buf -> settles (parse buf (parse_fuel buf) off).
Proof.
  intros Ha. apply (parse_settles_all buf _ Ha). unfold parse_fuel. lia.
Qed.

(** * Stability

    An answer (a value or a protocol error) does not change when more bytes arrive. *)
Definition answered (r : Out ParseResult) : Prop :=
  r <> NoFuel /\ forall e, r <> Ret (None, e).

Lemma leaf_extend (f : bytes -> nat -> Out ParseResult) buf more off :
  f = parse_simple_string \/ f = parse_error \/ f = parse_integer ->
  answered (f buf off) -> f (buf ++ more) off = f buf off.
Proof.
  unfold parse_simple_string, parse_error, parse_integer, need_more, answered.
  intros [-> |[-> | ->]] [_ Hans]; destruct (read_line buf off) as [[line|] e] eqn:E;
    first [ by rewrite (read_line_extend _ _ _ _ _ E) | by destruct (Hans 0%nat) ].
Qed.

Lemma bulk_extend buf more off :
  addressable (buf ++ more) -> answered (parse_bulk_string buf off) ->
  parse_bulk_string (buf ++ more) off = parse_bulk_string buf off.
Proof.
  intros Ha [_ Hans]. unfold parse_bulk_string, need_more in *.
  destruct (read_line buf off) as [[line|] e] eqn:E; [|by destruct (Hans 0%nat)].
  rewrite (read_line_extend _ _ _ _ _ E).
  apply read_line_Some in E as (_ & _ & _ & He).
  destruct (parse_int64 line) as [len|] eqn:Hlen; [|done].
  apply parse_int64_range in Hlen.
  destruct (len =? -1); [done|]. destruct (Z.ltb_spec len 0); [done|].
  rewrite (bulk_end_no_wrap (buf ++ more)) in * by (done || rewrite ?length_app; lia).
  unfold zlen in *. rewrite length_app.
  destruct (Z.ltb_spec (Z.of_nat (length buf)) (Z.of_nat e + len + 2));
    [by destruct (Hans 0%nat)|].
  destruct (Z.ltb_spec (Z.of_nat (length buf + length more)) (Z.of_nat e + len + 2)); [lia|].
  do 3 f_equal. unfold substr. f_equal.
  rewrite drop_app_le by lia. rewrite take_app_le; [done|]. rewrite length_drop. lia.
Qed.

Lemma parse_extend_all buf more fuel :
  addressable (buf ++ more) ->
  forall fuel', (fuel <= fuel')%nat ->
  (forall off, answered (parse buf fuel off) ->
     parse (buf ++ more) fuel' off = parse buf fuel off) /\
  (forall off, answered (parse_array buf fuel off) ->
     parse_array (buf ++ more) fuel' off = parse_array buf fuel off) /\
  (forall count cur els, answered (parse_elements buf fuel count cur els) ->
     parse_elements (buf ++ more) fuel' count cur els = parse_elements buf fuel count cur els).
Proof.
  intros Ha. induction fuel as [|fuel IH]; intros fuel' Hle.
  { unfold answered. by split_and!; intros; destruct_and?. }
  destruct fuel' as [|fuel']; [lia|].
  destruct (IH fuel' ltac:(lia)) as (IHp & IHa & IHe). split_and!.
  - intros off. rewrite !parse_S. destruct (drop off buf) as [|c t] eqn:Hd.
    { by intros [_ []%(fun f => f 0%nat)]. }
    rewrite (drop_app_nonempty _ _ _ _ Hd) by done. cbn [app]. intros Hans.
    repeat case_match; first
      [ done | by apply IHa | by apply bulk_extend
      | by apply (leaf_extend parse_simple_string); eauto
      | by apply (leaf_extend parse_error); eauto
      | by apply (leaf_extend parse_integer); eauto ].
  - intros off. rewrite !parse_array_S. destruct (read_line buf off) as [[line|] e] eqn:E.
    + rewrite (read_line_extend _ _ _ _ _ E). intros Hans.
      destruct (parse_int64 line) as [count|]; [|done].
      destruct (count =? -1); [done|]. destruct (count <? 0); [done|].
      destruct (reserve count); simpl in *; [|done..]. by apply IHe.
    + by intros [_ []%(fun f => f 0%nat)].
  - intros count cur els. rewrite !parse_elements_S. destruct (count <=? 0); [done|]. intros Hans.
    assert (parse (buf ++ more) fuel' cur = parse buf fuel cur) as ->.
    { apply IHp. destruct (parse buf fuel cur) as [[[el|] e']| | |]; split; try done.
      - by destruct Hans as [_ []%(fun f => f 0%nat)].
      - by destruct Hans. }
    destruct (parse buf fuel cur) as [[[el|] e']| | |]; [by apply IHe|done..].
Qed.

(** Settled answers survive an extension of the buffer, with the fuel [feed] uses. *)
Lemma parse_extend buf more off :
  addressable (buf ++ more) -> answered (parse buf (parse_fuel buf) off) ->
  parse (buf ++ more) (parse_fuel (buf ++ more)) off = parse buf (parse_fuel buf) off.
Proof.
  intros Ha Hans. apply (parse_extend_all buf more _ Ha); [|done].
  unfold parse_fuel. rewrite length_app. lia.
Qed.
End Facts.
