(* ===== verification/RespGrammar.v ===== *)
(** The grammar of the texts the parser accepts, and the RESP2 grammar: every value the
    parser emits is derivable in the first, every derivable text is accepted whatever
    follows it, in whatever chunks it arrives, and RESP2 texts are among them. *)

From S2P Require Import Prelude Cxx Charconv Resp RespParser RespParserFacts.

Open Scope Z_scope.

(** * What the parser accepts

    [wire v s]: the text [s] is accepted as [v]. It is RESP2 but for two freedoms: a bulk
    string is followed by any two bytes, which the implementation does not compare with
    CR LF, and a line may hold a CR or an LF on its own. [$-1] and [*-1] both denote
    null. *)
Inductive wire `{CxxRuntime} : RespValue -> bytes -> Prop :=
  | wire_simple l :
      contains_crlf l = false ->
      wire (RespSimpleString l) ("+"%b ++ l ++ crlf)
  | wire_error l :
      contains_crlf l = false ->
      wire (RespError l) ("-"%b ++ l ++ crlf)
  | wire_integer l z :
      contains_crlf l = false -> parse_int64 l = Some z ->
      wire (RespInteger z) (":"%b ++ l ++ crlf)
  | wire_null_bulk l :
      contains_crlf l = false -> parse_int64 l = Some (-1) ->
      wire RespNull ("$"%b ++ l ++ crlf)
  | wire_bulk l d t :
      contains_crlf l = false -> parse_int64 l = Some (zlen d) -> length t = 2%nat ->
      wire (RespBulkString d) ("$"%b ++ l ++ crlf ++ d ++ t)
  | wire_null_array l :
      contains_crlf l = false -> parse_int64 l = Some (-1) ->
      wire RespNull ("*"%b ++ l ++ crlf)
  | wire_array l vs s :
      contains_crlf l = false -> parse_int64 l = Some (zlen vs) ->
      reserve (zlen vs) = Ret tt -> wires vs s ->
      wire (RespArray vs) ("*"%b ++ l ++ crlf ++ s)
with wires `{CxxRuntime} : list RespValue -> bytes -> Prop :=
  | wires_nil : wires [] []
  | wires_cons v vs s1 s2 : wire v s1 -> wires vs s2 -> wires (v :: vs) (s1 ++ s2).

Scheme wire_mut := Minimality for wire Sort Prop
with wires_mut := Minimality for wires Sort Prop.
Combined Scheme wire_wires_ind from wire_mut, wires_mut.

(** * RESP2

    Simple strings and errors hold neither CR nor LF, and CR LF follows a bulk string. *)
Definition one_line (l : bytes) : bool :=
  forallb (fun c => negb (Ascii.eqb c CR || Ascii.eqb c LF)) l.

Inductive resp2 `{CxxRuntime} : RespValue -> bytes -> Prop :=
  | resp2_simple l : one_line l = true -> resp2 (RespSimpleString l) ("+"%b ++ l ++ crlf)
  | resp2_error l : one_line l = true -> resp2 (RespError l) ("-"%b ++ l ++ crlf)
  | resp2_integer l z :
      one_line l = true -> parse_int64 l = Some z -> resp2 (RespInteger z) (":"%b ++ l ++ crlf)
  | resp2_null_bulk l :
      one_line l = true -> parse_int64 l = Some (-1) -> resp2 RespNull ("$"%b ++ l ++ crlf)
  | resp2_bulk l d :
      one_line l = true -> parse_int64 l = Some (zlen d) ->
      resp2 (RespBulkString d) ("$"%b ++ l ++ crlf ++ d ++ crlf)
  | resp2_null_array l :
      one_line l = true -> parse_int64 l = Some (-1) -> resp2 RespNull ("*"%b ++ l ++ crlf)
  | resp2_array l vs s :
      one_line l = true -> parse_int64 l = Some (zlen vs) -> reserve (zlen vs) = Ret tt ->
      resp2s vs s -> resp2 (RespArray vs) ("*"%b ++ l ++ crlf ++ s)
with resp2s `{CxxRuntime} : list RespValue -> bytes -> Prop :=
  | resp2s_nil : resp2s [] []
  | resp2s_cons v vs s1 s2 : resp2 v s1 -> resp2s vs s2 -> resp2s (v :: vs) (s1 ++ s2).

Scheme resp2_mut := Minimality for resp2 Sort Prop
with resp2s_mut := Minimality for resp2s Sort Prop.
Combined Scheme resp2_resp2s_ind from resp2_mut, resp2s_mut.

(** No simple string or error of the value holds a CR or an LF. *)
Fixpoint one_lined (v : RespValue) : bool :=
  match v with
  | RespSimpleString l | RespError l => one_line l
  | RespArray vs => forallb one_lined vs
  | _ => true
  end.

(** [mended s s']: [s'] is [s] with CR LF written over some pairs of bytes. *)
Inductive mended : bytes -> bytes -> Prop :=
  | mended_same s : mended s s
  | mended_pair t : length t = 2%nat -> mended t crlf
  | mended_app s1 s1' s2 s2' : mended s1 s1' -> mended s2 s2' -> mended (s1 ++ s2) (s1' ++ s2').

(** * Draining a parser

    The loop both clients of the parser run (Connection::handle_data and
    AofPersistence::replay): feed a chunk, then empty chunks until no value comes. *)
Fixpoint drain `{CxxRuntime} (fuel : nat) (p : RespParser) (chunk : bytes)
    : list RespValue * Out unit * RespParser :=
  match fuel with
  | O => ([], NoFuel, p)
  | S fuel =>
      match RespParser_feed p chunk with
      | (Ret (Some v), p) => let '(vs, st, p) := drain fuel p [] in (v :: vs, st, p)
      | (Ret None, p) => ([], Ret tt, p)
      | (Exn e, p) => ([], Exn e, p)
      | (UB, p) => ([], UB, p)
      | (NoFuel, p) => ([], NoFuel, p)
      end
  end.

(** One iteration per value, and a value takes at least three bytes. *)
Definition drain_fuel (p : RespParser) (chunk : bytes) : nat :=
  S (length (buf_ p) + length chunk).

(** The same loop run on a sequence of chunks as they arrive, until an error. *)
Fixpoint drain_chunks `{CxxRuntime} (p : RespParser) (chunks : list bytes)
    : list RespValue * Out unit * RespParser :=
  match chunks with
  | [] => ([], Ret tt, p)
  | c :: cs =>
      match drain (drain_fuel p c) p c with
      | (vs, Ret tt, p) => let '(vs', st, p) := drain_chunks p cs in (vs ++ vs', st, p)
      | r => r
      end
  end.

(** * Completeness *)

Section Grammar.
Context `{CxxRuntime}.

Lemma parse_int64_nonempty l z : parse_int64 l = Some z -> l <> [].
Proof. by intros Hl ->. Qed.

Lemma one_line_no_crlf l : one_line l = true -> contains_crlf l = false.
Proof.
  unfold one_line. induction l as [|c l IH]; [done|]. cbn [forallb contains_crlf].
  rewrite andb_true_iff, negb_true_iff, orb_false_iff. intros [[-> _] Hl].
  rewrite (IH Hl). by destruct l.
Qed.

(** RESP2 texts are accepted. *)
Lemma resp2_wire_all :
  (forall v s, resp2 v s -> wire v s) /\ (forall vs s, resp2s vs s -> wires vs s).
Proof. apply resp2_resp2s_ind; intros; constructor; auto using one_line_no_crlf. Qed.

Lemma resp2_wire v s : resp2 v s -> wire v s.
Proof. apply resp2_wire_all. Qed.

Lemma parse_int64_one_line l z : parse_int64 l = Some z -> one_line l = true.
Proof.
  assert (forall r, length (take_digits r) = length r -> one_line r = true) as Hd.
  { unfold one_line. induction r as [|c r IH]; [done|]. cbn [take_digits forallb].
    destruct (is_digit c) eqn:Hc; [|done]. cbn [length]. intros Hl. rewrite IH by lia.
    destruct (Ascii.eqb_spec c CR) as [->|]; [done|].
    by destruct (Ascii.eqb_spec c LF) as [->|]. }
  unfold parse_int64, from_chars. destruct (strip_sign l) as [neg r] eqn:Hsign.
  pose proof (Hd r) as Hr. destruct (take_digits r) as [|d ds]; [done|].
  destruct (in_int64 _); [|done]. cbn [fc_ec fc_ptr].
  destruct (Nat.eqb_spec ((if neg then 1 else 0) + length (d :: ds)) (length l)) as [Hlen|];
    [|by rewrite andb_false_r]. intros _.
  destruct l as [|c l]; [done|]. cbn [strip_sign] in Hsign.
  destruct (Ascii.eqb_spec c "-"%char) as [->|_]; injection Hsign as <- <-; cbn [length] in *.
  - cbn [one_line forallb]. apply Hr. lia.
  - apply Hr. lia.
Qed.

(** An accepted text is RESP2 up to the pairs of bytes behind its bulk strings. *)
Lemma wire_mended_all :
  (forall v s, wire v s -> one_lined v = true -> exists s', resp2 v s' /\ mended s s') /\
  (forall vs s, wires vs s -> forallb one_lined vs = true -> exists s', resp2s vs s' /\ mended s s').
Proof.
  apply wire_wires_ind; cbn [one_lined forallb].
  - intros l _ Hl. eexists. split; [by constructor|constructor].
  - intros l _ Hl. eexists. split; [by constructor|constructor].
  - intros l z _ Hz _. eexists. split; [constructor; eauto using parse_int64_one_line|constructor].
  - intros l _ Hz _. eexists. split; [constructor; eauto using parse_int64_one_line|constructor].
  - intros l d t _ Hz Ht _. exists ("$"%b ++ l ++ crlf ++ d ++ crlf).
    split; [constructor; eauto using parse_int64_one_line|].
    repeat (apply mended_app; [constructor|]). by apply mended_pair.
  - intros l _ Hz _. eexists. split; [apply resp2_null_array; eauto using parse_int64_one_line|constructor].
  - intros l vs s _ Hz Hr _ IH Hvs. destruct (IH Hvs) as (s' & Hs' & Hm).
    exists ("*"%b ++ l ++ crlf ++ s'). split; [constructor; eauto using parse_int64_one_line|].
    by repeat (apply mended_app; [constructor|]).
  - intros _. exists []. split; constructor.
  - intros v vs s1 s2 _ IH1 _ IH2 [H1 H2]%andb_true_iff.
    destruct (IH1 H1) as (s1' & ? & ?), (IH2 H2) as (s2' & ? & ?).
    exists (s1' ++ s2'). split; by constructor.
Qed.

Lemma wire_nonempty v s : wire v s -> s <> [].
Proof. by destruct 1. Qed.

(** The type byte of a text selects the type parser. *)
Lemma parse_type_byte buf fuel off c t :
  drop off buf = c :: t ->
  parse buf (S fuel) off =
  if Ascii.eqb c "+"%char then parse_simple_string buf (off + 1)
  else if Ascii.eqb c "-"%char then parse_error buf (off + 1)
  else if Ascii.eqb c ":"%char then parse_integer buf (off + 1)
  else if Ascii.eqb c "$"%char then parse_bulk_string buf (off + 1)
  else if Ascii.eqb c "*"%char then parse_array buf fuel (off + 1)
  else Exn (runtime_error ("RESP: unknown type byte '"%b ++ [c] ++ "'"%b)).
Proof. intros Hd. by rewrite parse_S, Hd. Qed.

Lemma drop_type_byte (buf : bytes) off c t : drop off buf = c :: t -> drop (off + 1) buf = t.
Proof. intros Hd. by rewrite <- drop_drop, Hd. Qed.

Lemma drop_line (buf : bytes) off l rest :
  drop off buf = l ++ crlf ++ rest -> drop (off + length l + 2) buf = rest.
Proof.
  intros Hd. rewrite <- (drop_drop buf 2 (off + length l)), <- (drop_drop buf (length l) off).
  by rewrite Hd, drop_app_length.
Qed.

Lemma bulk_complete buf off l d t rest :
  addressable buf -> drop off buf = l ++ crlf ++ d ++ t ++ rest ->
  contains_crlf l = false -> parse_int64 l = Some (zlen d) -> length t = 2%nat ->
  parse_bulk_string buf off =
  Ret (Some (RespBulkString d), (off + length l + 2 + length d + 2)%nat).
Proof.
  intros Ha Hd Hl Hz Ht.
  assert (off + length (l ++ crlf ++ d ++ t ++ rest) = length buf)%nat as Hlen
    by (apply (drop_nonempty_lt _ _ _ Hd); by destruct l).
  rewrite !length_app in Hlen. simpl in Hlen.
  pose proof (drop_line _ _ _ _ Hd) as Hdata.
  unfold parse_bulk_string. rewrite (read_line_line _ _ _ _ Hd Hl), Hz.
  pose proof (parse_int64_range _ _ Hz).
  rewrite (bulk_end_no_wrap buf) by (done || unfold zlen in *; lia).
  unfold zlen in *.
  destruct (Z.eqb_spec (Z.of_nat (length d)) (-1)); [lia|].
  destruct (Z.ltb_spec (Z.of_nat (length d)) 0); [lia|].
  destruct (Z.ltb_spec (Z.of_nat (length buf)) (Z.of_nat (off + length l + 2) + Z.of_nat (length d) + 2));
    [lia|].
  unfold substr. by rewrite Nat2Z.id, Hdata, take_app_length.
Qed.

Lemma reserve_ok_bound n : reserve n = Ret tt -> n <= vector_max_size /\ n <= alloc_limit.
Proof.
  unfold reserve. destruct (Z.ltb_spec vector_max_size n); [done|].
  destruct (Z.ltb_spec alloc_limit n); done || lia.
Qed.

(** Consume the type byte of the text at the current offset. *)
Ltac wire_step :=
  intros; match goal with fuel : nat |- _ => destruct fuel as [|fuel]; [simpl in *; lia|] end;
  match goal with Hd : drop _ _ = _ |- _ =>
    rewrite <- !app_assoc in Hd; cbn [app] in Hd;
    rewrite (parse_type_byte _ _ _ _ _ Hd); apply drop_type_byte in Hd end;
  cbn [Ascii.eqb Bool.eqb].

(** Read the line that follows, and close an equation between end offsets. *)
Ltac wire_line :=
  match goal with Hd : drop _ _ = _, Hl : contains_crlf _ = false |- _ =>
    rewrite (read_line_line _ _ _ _ Hd Hl) end.
Ltac wire_end := do 2 f_equal; rewrite ?length_app; simpl; rewrite ?length_app; simpl; lia.

Lemma parse_complete_all :
  (forall v s, wire v s -> forall buf off fuel rest,
     addressable buf -> drop off buf = s ++ rest -> (length s + 2 <= fuel)%nat ->
     parse buf fuel off = Ret (Some v, (off + length s)%nat)) /\
  (forall vs s, wires vs s -> forall buf cur fuel rest els,
     addressable buf -> drop cur buf = s ++ rest -> (length s + 3 <= fuel)%nat ->
     parse_elements buf fuel (zlen vs) cur els
     = Ret (Some (RespArray (els ++ vs)), (cur + length s)%nat)).
Proof.
  apply wire_wires_ind.
  - wire_step. unfold parse_simple_string. wire_line. wire_end.
  - wire_step. unfold parse_error. wire_line. wire_end.
  - wire_step. unfold parse_integer. wire_line.
    match goal with Hz : parse_int64 _ = _ |- _ => rewrite Hz end. wire_end.
  - wire_step. unfold parse_bulk_string. wire_line.
    match goal with Hz : parse_int64 _ = _ |- _ => rewrite Hz end. wire_end.
  - wire_step. erewrite bulk_complete by done. wire_end.
  - wire_step. destruct fuel as [|fuel]; [simpl in *; lia|]. rewrite parse_array_S. wire_line.
    match goal with Hz : parse_int64 _ = _ |- _ => rewrite Hz end. wire_end.
  - intros l vs s Hl Hz Hr _ IH. wire_step.
    assert (length l <> 0%nat) by (apply parse_int64_nonempty in Hz; by destruct l).
    repeat (rewrite ?length_app in *; simpl in * ).
    destruct fuel as [|fuel]; [lia|]. rewrite parse_array_S. wire_line. rewrite Hz, Hr.
    unfold zlen at 1 2. destruct (Z.eqb_spec (Z.of_nat (length vs)) (-1)); [lia|].
    destruct (Z.ltb_spec (Z.of_nat (length vs)) 0); [lia|]. cbn [out_bind].
    erewrite (IH buf _ fuel rest []); [|done| |lia].
    + simpl. do 2 f_equal. lia.
    + by eapply drop_line.
  - intros buf cur fuel rest els _ _ Hf. destruct fuel as [|fuel]; [simpl in *; lia|].
    rewrite parse_elements_S. simpl. rewrite app_nil_r. do 2 f_equal. lia.
  - intros v vs s1 s2 Hw IH1 _ IH2 buf cur fuel rest els Ha Hd Hf.
    rewrite length_app in Hf. apply wire_nonempty in Hw.
    assert (length s1 <> 0%nat) by by destruct s1.
    destruct fuel as [|fuel]; [lia|]. rewrite parse_elements_S.
    destruct (Z.leb_spec (zlen (v :: vs)) 0); [unfold zlen in *; simpl in *; lia|].
    rewrite <- app_assoc in Hd. rewrite (IH1 buf cur fuel (s2 ++ rest)) by (done || lia).
    replace (zlen (v :: vs) - 1) with (zlen vs) by (unfold zlen; simpl; lia).
    rewrite (IH2 buf _ fuel rest); [|done| |lia].
    + rewrite <- app_assoc, length_app. do 2 f_equal. lia.
    + by rewrite <- drop_drop, Hd, drop_app_length.
Qed.

(** * Soundness *)

(** [derives buf off c r]: a value in [r] is derivable from the text between the type
    byte [c] at [off - 1] and the end offset. *)
Definition derives (buf : bytes) (off : nat) (c : ascii) (r : Out ParseResult) : Prop :=
  forall v e, r = Ret (Some v, e) ->
  exists s, drop off buf = s ++ drop e buf /\ wire v (c :: s) /\ e = (off + length s)%nat.

(** Open a read line and offer the text it came from. *)
Ltac sound_line E :=
  let Hd := fresh "Hd" in let Hl := fresh "Hl" in let He := fresh "He" in
  apply read_line_Some in E as (Hd & Hl & He & ?).

Lemma simple_sound buf off : derives buf off "+" (parse_simple_string buf off).
Proof.
  intros v e. unfold parse_simple_string, need_more.
  destruct (read_line buf off) as [[line|] e'] eqn:E; intros [= <- <-]. sound_line E.
  exists (line ++ crlf). rewrite <- app_assoc, length_app. split_and!; [done| |simpl; lia].
  by apply (wire_simple line).
Qed.

Lemma error_sound buf off : derives buf off "-" (parse_error buf off).
Proof.
  intros v e. unfold parse_error, need_more.
  destruct (read_line buf off) as [[line|] e'] eqn:E; intros [= <- <-]. sound_line E.
  exists (line ++ crlf). rewrite <- app_assoc, length_app. split_and!; [done| |simpl; lia].
  by apply (wire_error line).
Qed.

Lemma integer_sound buf off : derives buf off ":" (parse_integer buf off).
Proof.
  intros v e. unfold parse_integer, need_more.
  destruct (read_line buf off) as [[line|] e'] eqn:E; [|done].
  destruct (parse_int64 line) as [z|] eqn:Hz; intros [= <- <-]. sound_line E.
  exists (line ++ crlf). rewrite <- app_assoc, length_app. split_and!; [done| |simpl; lia].
  by apply (wire_integer line z).
Qed.

Lemma bulk_sound buf off :
  addressable buf -> derives buf off "$" (parse_bulk_string buf off).
Proof.
  intros Ha v e. unfold parse_bulk_string, need_more.
  destruct (read_line buf off) as [[line|] e'] eqn:E; [|done]. sound_line E.
  destruct (parse_int64 line) as [z|] eqn:Hz; [|done].
  destruct (Z.eqb_spec z (-1)) as [-> |].
  { intros [= <- <-]. exists (line ++ crlf). rewrite <- app_assoc, length_app.
    split_and!; [done| |simpl; lia]. by apply (wire_null_bulk line). }
  destruct (Z.ltb_spec z 0); [done|].
  pose proof (parse_int64_range _ _ Hz). rewrite (bulk_end_no_wrap buf) by (done || lia).
  unfold zlen. destruct (Z.ltb_spec (Z.of_nat (length buf)) (Z.of_nat e' + z + 2)); [done|].
  intros [= <- <-]. set (d := substr buf e' (Z.to_nat z)).
  assert (length d = Z.to_nat z) as Hdl
    by (unfold d, substr; rewrite length_take, length_drop; lia).
  set (t := take 2 (drop (e' + Z.to_nat z) buf)).
  assert (length t = 2%nat) as Htl by (unfold t; rewrite length_take, length_drop; lia).
  exists (line ++ crlf ++ d ++ t). split_and!.
  - rewrite Hd, <- !app_assoc. do 2 f_equal. unfold d, t, substr.
    rewrite <- (drop_drop buf 2 (e' + Z.to_nat z)), take_drop.
    by rewrite <- (drop_drop buf (Z.to_nat z) e'), take_drop.
  - apply (wire_bulk line d t); [done| |done]. rewrite Hz. unfold zlen. f_equal. lia.
  - rewrite !length_app. simpl. lia.
Qed.

Lemma parse_sound_all buf fuel :
  addressable buf ->
  (forall off v e, parse buf fuel off = Ret (Some v, e) ->
     exists s, drop off buf = s ++ drop e buf /\ wire v s /\ e = (off + length s)%nat) /\
  (forall off, derives buf off "*" (parse_array buf fuel off)) /\
  (forall count cur els v e, 0 <= count ->
     parse_elements buf fuel count cur els = Ret (Some v, e) ->
     exists vs s, v = RespArray (els ++ vs) /\ zlen vs = count /\ wires vs s /\
       drop cur buf = s ++ drop e buf /\ e = (cur + length s)%nat).
Proof.
  intros Ha. induction fuel as [|fuel (IHp & IHa & IHe)]; [by split_and!|]. split_and!.
  - intros off v e. rewrite parse_S. destruct (drop off buf) as [|c t] eqn:Hd; [done|].
    intros Hr.
    assert (exists s, drop (off + 1) buf = s ++ drop e buf /\ wire v (c :: s) /\
                      e = (off + 1 + length s)%nat) as (s & Hs & Hw & He).
    { repeat (case_match;
        [match goal with E : Ascii.eqb _ _ = true |- _ => apply Ascii.eqb_eq in E as -> end|]);
      first [ discriminate Hr | by eapply simple_sound | by eapply error_sound
            | by eapply integer_sound | by eapply bulk_sound | by eapply IHa ]. }
    exists (c :: s). rewrite (drop_type_byte _ _ _ _ Hd) in Hs. subst t.
    split_and!; [done|done|simpl; lia].
  - intros off v e. rewrite parse_array_S. unfold need_more.
    destruct (read_line buf off) as [[line|] e'] eqn:E; [|done]. sound_line E.
    destruct (parse_int64 line) as [z|] eqn:Hz; [|done].
    destruct (Z.eqb_spec z (-1)) as [-> |].
    { intros [= <- <-]. exists (line ++ crlf). rewrite <- app_assoc, length_app.
      split_and!; [done| |simpl; lia]. by apply (wire_null_array line). }
    destruct (Z.ltb_spec z 0); [done|].
    destruct (reserve z) as [[]| | |] eqn:Hr; [|done..]. cbn [out_bind].
    intros (vs & s & -> & Hvs & Hws & Hds & ->)%IHe; [|done].
    exists (line ++ crlf ++ s). rewrite <- !app_assoc, <- Hds. split_and!; [done| |].
    + subst z. by apply (wire_array line vs s).
    + rewrite !length_app. simpl. lia.
  - intros count cur els v e Hc. rewrite parse_elements_S.
    destruct (Z.leb_spec count 0).
    { intros [= <- <-]. exists [], []. rewrite app_nil_r.
      split_and!; [done|unfold zlen; simpl; lia|constructor|done|simpl; lia]. }
    destruct (parse buf fuel cur) as [[[el|] e']| | |] eqn:Hp; [|done..].
    apply IHp in Hp as (s1 & Hd1 & Hw1 & ->).
    intros (vs & s2 & -> & Hvs & Hw2 & Hd2 & ->)%IHe; [|lia].
    exists (el :: vs), (s1 ++ s2). rewrite <- !app_assoc, <- Hd2, length_app.
    split_and!; [done|unfold zlen in *; simpl; lia|by constructor|done|lia].
Qed.

(** * The public API against the grammar *)

Lemma feed_of_buf p chunk :
  RespParser_feed p chunk = RespParser_feed (MkParser (buf_ p ++ chunk)) [].
Proof. unfold RespParser_feed. simpl. by rewrite app_nil_r. Qed.

Lemma feed_complete buf v s rest :
  addressable buf -> wire v s -> buf = s ++ rest ->
  RespParser_feed (MkParser buf) [] = (Ret (Some v), MkParser rest).
Proof.
  intros Ha Hw ->. unfold RespParser_feed. simpl. rewrite app_nil_r.
  rewrite (proj1 parse_complete_all v s Hw _ _ _ rest); [|done|by rewrite drop_0|].
  - by rewrite Nat.add_0_l, drop_app_length.
  - unfold parse_fuel. rewrite length_app. lia.
Qed.

Lemma feed_sound buf v p :
  addressable buf -> RespParser_feed (MkParser buf) [] = (Ret (Some v), p) ->
  exists s, wire v s /\ buf = s ++ buf_ p.
Proof.
  intros Ha. unfold RespParser_feed. simpl. rewrite app_nil_r.
  destruct (parse _ _ _) as [[[v'|] e]| | |] eqn:Hp; try done. intros [= -> <-].
  apply parse_sound_all in Hp as (s & Hd & Hw & He); [|done]. exists s. split; [done|].
  by rewrite drop_0 in Hd.
Qed.

(** What one call of [feed] does to the buffer, on every outcome. *)
Lemma feed_cases p chunk :
  addressable (buf_ p ++ chunk) ->
  match RespParser_feed p chunk with
  | (Ret (Some v), p') =>
      exists s, wire v s /\ buf_ p ++ chunk = s ++ buf_ p' /\ (3 <= length s)%nat
  | (Ret None, p') | (Exn _, p') => buf_ p' = buf_ p ++ chunk
  | _ => False
  end.
Proof.
  intros Ha. destruct (RespParser_feed p chunk) as [r p'] eqn:Hf.
  rewrite feed_of_buf in Hf. pose proof (parse_settles _ 0 Ha) as [Hnf Hub].
  pose proof Hf as Hp. unfold RespParser_feed in Hp. simpl in Hp. rewrite app_nil_r in Hp.
  destruct (parse _ _ _) as [[[v|] e]| | |] eqn:E; simplify_eq; try done.
  destruct (feed_sound _ _ _ Ha Hf) as (s & Hw & Hs). exists s. split_and!; [done..|].
  apply parse_ends in E; [|done]. apply (f_equal length) in Hs. simpl in Hs.
  rewrite (length_app s), length_drop in Hs. lia.
Qed.

(** Once the parser has an answer, later bytes only queue up behind it. *)
Lemma feed_extend buf more r p :
  addressable (buf ++ more) -> RespParser_feed (MkParser buf) [] = (r, p) -> r <> Ret None ->
  RespParser_feed (MkParser (buf ++ more)) [] = (r, MkParser (buf_ p ++ more)).
Proof.
  intros Ha Hf Hr.
  assert (addressable buf) as Hab by (unfold addressable, zlen in *; rewrite length_app in Ha; lia).
  pose proof (parse_settles _ 0 Hab) as [Hnf Hub].
  unfold RespParser_feed in *. simpl in *. rewrite !app_nil_r in *.
  assert (answered (parse buf (parse_fuel buf) 0)) as Hans.
  { split; [done|]. intros e Hp. rewrite Hp in Hf. simplify_eq. }
  rewrite (parse_extend _ _ _ Ha Hans).
  destruct (parse buf _ 0) as [[[v|] e]| | |] eqn:Hp; simplify_eq/=; try done.
  apply parse_ends in Hp; [|done]. by rewrite drop_app_le by lia.
Qed.

(** * Serialized values *)

Lemma parse_int64_zlen {A} (l : list A) :
  zlen l <= INT64_MAX -> parse_int64 (to_string (zlen l)) = Some (zlen l).
Proof.
  intros. apply parse_int64_to_string. pose proof (zlen_nonneg l).
  unfold INT64_MIN in *. lia.
Qed.

Lemma serialize_wire v : resp_wf v = true -> wire v (serialize v).
Proof.
  induction v as [ | | | | |l IH] using RespValue_ind'; simpl; intros Hwf.
  - by apply (wire_null_bulk "-1"%b).
  - apply negb_true_iff in Hwf. by apply wire_simple.
  - apply negb_true_iff in Hwf. by apply wire_error.
  - apply in_int64_spec in Hwf. apply wire_integer; [apply to_string_no_crlf|].
    by apply parse_int64_to_string.
  - apply Z.leb_le in Hwf. apply wire_bulk; [apply to_string_no_crlf| |done].
    by apply parse_int64_zlen.
  - rewrite !andb_true_iff, !Z.leb_le in Hwf. destruct Hwf as [[[H1 H2] H3] Hl].
    apply wire_array; [apply to_string_no_crlf|by apply parse_int64_zlen| |].
    + unfold reserve. destruct (Z.ltb_spec vector_max_size (zlen l)); [lia|].
      destruct (Z.ltb_spec alloc_limit (zlen l)); [lia|done].
    + clear H1 H2 H3. induction IH as [|v l Hv _ IH]; simpl in *; [constructor|].
      apply andb_true_iff in Hl as [? ?]. constructor; auto.
Qed.

(** * Draining *)

(** Draining a buffer with the fuel the clients' loops are given. *)
Definition drain_all (buf : bytes) : list RespValue * Out unit * RespParser :=
  drain (S (length buf)) (MkParser buf) [].

Lemma addressable_app_l buf more : addressable (buf ++ more) -> addressable buf.
Proof. unfold addressable, zlen. rewrite length_app. lia. Qed.

Lemma addressable_app_r buf more : addressable (buf ++ more) -> addressable more.
Proof. unfold addressable, zlen. rewrite length_app. lia. Qed.

Lemma feed_cases_nil buf :
  addressable buf ->
  match RespParser_feed (MkParser buf) [] with
  | (Ret (Some v), p') => exists s, wire v s /\ buf = s ++ buf_ p' /\ (3 <= length s)%nat
  | (Ret None, p') | (Exn _, p') => p' = MkParser buf
  | _ => False
  end.
Proof.
  intros Ha. pose proof (feed_cases (MkParser buf) []) as Hc. simpl in Hc.
  rewrite app_nil_r in Hc. specialize (Hc Ha).
  destruct (RespParser_feed (MkParser buf) []) as [[[v|]|e| |] [p']]; simpl in *; congruence.
Qed.

(** More fuel than the buffer has bytes changes nothing. *)
Lemma drain_fuel_irrel f f' buf :
  addressable buf -> (length buf < f)%nat -> (length buf < f')%nat ->
  drain f (MkParser buf) [] = drain f' (MkParser buf) [].
Proof.
  revert f' buf. induction f as [|f IH]; intros f' buf Ha Hf Hf'; [lia|].
  destruct f' as [|f']; [lia|]. cbn [drain].
  pose proof (feed_cases_nil buf Ha) as Hc.
  destruct (RespParser_feed (MkParser buf) []) as [[[v|]|e| |] [p']]; try done.
  destruct Hc as (s & _ & -> & Hs). simpl in *. rewrite length_app in Hf, Hf'.
  apply addressable_app_r in Ha. by rewrite (IH f') by (done || lia).
Qed.

Lemma drain_all_step buf :
  addressable buf ->
  drain_all buf =
  match RespParser_feed (MkParser buf) [] with
  | (Ret (Some v), p) => let '(vs, st, p) := drain_all (buf_ p) in (v :: vs, st, p)
  | (Ret None, p) => ([], Ret tt, p)
  | (Exn e, p) => ([], Exn e, p)
  | (UB, p) => ([], UB, p)
  | (NoFuel, p) => ([], NoFuel, p)
  end.
Proof.
  intros Ha. unfold drain_all. cbn [drain].
  pose proof (feed_cases_nil buf Ha) as Hc.
  destruct (RespParser_feed (MkParser buf) []) as [[[v|]|e| |] [p']]; try done.
  destruct Hc as (s & _ & -> & Hs). simpl in *. rewrite length_app in *.
  apply addressable_app_r in Ha. by rewrite (drain_fuel_irrel _ (S (length p'))) by (done || lia).
Qed.

(** Bytes that arrive after a drain extend its result; after an error they are dead. *)
Lemma drain_all_app buf more :
  addressable (buf ++ more) ->
  match drain_all buf with
  | (vs, Ret _, p) =>
      drain_all (buf ++ more) =
      let '(vs', st, p) := drain_all (buf_ p ++ more) in (vs ++ vs', st, p)
  | (vs, Exn e, p) => drain_all (buf ++ more) = (vs, Exn e, MkParser (buf_ p ++ more))
  | _ => False
  end.
Proof.
  remember (length buf) as n eqn:Hn. revert buf Hn.
  induction n as [n IH] using lt_wf_ind. intros buf -> Ha.
  pose proof (addressable_app_l _ _ Ha) as Hab.
  rewrite (drain_all_step buf), (drain_all_step (buf ++ more)) by done.
  pose proof (feed_cases_nil buf Hab) as Hc.
  destruct (RespParser_feed (MkParser buf) []) as [[[v|]|e| |] p] eqn:Hf; try done.
  - rewrite (feed_extend _ _ _ _ Ha Hf) by done. cbn [buf_].
    destruct Hc as (s & _ & -> & Hs). rewrite <- app_assoc in Ha.
    apply addressable_app_r in Ha.
    assert (length (buf_ p) < length (s ++ buf_ p))%nat as Hlt by (rewrite length_app; lia).
    specialize (IH _ Hlt _ eq_refl Ha).
    destruct (drain_all (buf_ p)) as [[vs [[]|e'| |]] p']; rewrite ?IH; try done.
    by destruct (drain_all (buf_ p' ++ more)) as [[vs' st'] p''].
  - subst p. simpl. rewrite <- drain_all_step by done.
    by destruct (drain_all (buf ++ more)) as [[vs' st'] p''].
  - by rewrite (feed_extend _ _ _ _ Ha Hf).
Qed.

Lemma drain_drain_all p chunk :
  addressable (buf_ p ++ chunk) ->
  drain (drain_fuel p chunk) p chunk = drain_all (buf_ p ++ chunk).
Proof.
  intros Ha. unfold drain_fuel, drain_all. rewrite length_app. cbn [drain].
  by rewrite feed_of_buf.
Qed.

(** What a drain leaves in the buffer is a suffix of what it started from. *)
Lemma drain_all_suffix buf vs st p :
  addressable buf -> drain_all buf = (vs, st, p) -> exists s, buf = s ++ buf_ p.
Proof.
  remember (length buf) as n eqn:Hn. revert buf vs Hn.
  induction n as [n IH] using lt_wf_ind. intros buf vs -> Ha.
  rewrite drain_all_step by done. pose proof (feed_cases_nil buf Ha) as Hc.
  destruct (RespParser_feed (MkParser buf) []) as [[[v|]|e| |] p1]; try done.
  - destruct Hc as (s & _ & -> & Hs). apply addressable_app_r in Ha.
    destruct (drain_all (buf_ p1)) as [[vs1 st1] p2] eqn:Hd. intros [= <- <- <-].
    edestruct IH as [s' Hs']; [|reflexivity|done|done|].
    + rewrite length_app. lia.
    + exists (s ++ s'). by rewrite <- app_assoc, <- Hs'.
  - intros [= <- <- <-]. subst p1. by exists [].
  - intros [= <- <- <-]. subst p1. by exists [].
Qed.

(** A parser whose buffer holds no complete value, as a drain leaves it. *)
Definition quiescent (p : RespParser) : Prop := drain_all (buf_ p) = ([], Ret tt, p).

Lemma drain_all_quiescent buf vs p :
  addressable buf -> drain_all buf = (vs, Ret tt, p) -> quiescent p.
Proof.
  intros Ha Hd. pose proof (drain_all_app buf []) as Happ. rewrite !app_nil_r in Happ.
  specialize (Happ Ha). rewrite Hd, app_nil_r in Happ. unfold quiescent.
  destruct (drain_all (buf_ p)) as [[vs' st'] p'].
  injection Happ as Hvs <- <-. rewrite <- (app_nil_r vs) in Hvs at 1.
  by apply app_inv_head in Hvs as <-.
Qed.

Lemma drain_chunks_all p chunks :
  addressable (buf_ p ++ concat chunks) -> quiescent p ->
  match drain_chunks p chunks, drain_all (buf_ p ++ concat chunks) with
  | (vs, st, p1), (vs', st', p2) => vs = vs' /\ st = st' /\ (st = Ret tt -> p1 = p2)
  end.
Proof.
  revert p. induction chunks as [|c cs IH]; intros p Ha Hq; cbn [drain_chunks concat] in *.
  { rewrite app_nil_r. by rewrite Hq. }
  rewrite app_assoc in *. pose proof (addressable_app_l _ _ Ha) as Hac.
  pose proof (drain_all_app _ _ Ha) as Happ. rewrite drain_drain_all by done.
  destruct (drain_all (buf_ p ++ c)) as [[vs [[]|e| |]] p1] eqn:Hd; try done.
  - rewrite Happ. specialize (IH p1).
    apply drain_all_suffix in Hd as Hs; [|done]. destruct Hs as [s Hs].
    rewrite Hs, <- app_assoc in Ha. apply addressable_app_r in Ha.
    specialize (IH Ha (drain_all_quiescent _ _ _ Hac Hd)).
    destruct (drain_chunks p1 cs) as [[vs1 st1] q1].
    destruct (drain_all (buf_ p1 ++ concat cs)) as [[vs2 st2] q2].
    by destruct IH as (-> & -> & ?).
  - rewrite Happ. done.
Qed.
End Grammar.
