(* ===== verification/RespTheorems.v ===== *)
(** Correctness of the RESP2 layer (src/protocol/): the parser implements the grammar,
    terminates, does not depend on how the network chunks its input, and reads back
    what the serializer writes. *)

From S2P Require Import Prelude Cxx Charconv Resp RespParser RespParserFacts RespGrammar.

Open Scope Z_scope.

Section Theorems.
Context `{CxxRuntime}.

(** A text cut short before its end is incomplete: no value and no error. *)
Lemma feed_prefix v t u :
  wire v (t ++ u) -> u <> [] -> addressable (t ++ u) ->
  RespParser_feed (MkParser t) [] = (Ret None, MkParser t).
Proof.
  intros Hw Hu Ha. pose proof (addressable_app_l _ _ Ha) as Hat.
  pose proof (feed_cases_nil t Hat) as Hc.
  destruct (RespParser_feed (MkParser t) []) as [r p] eqn:Hf.
  destruct (decide (r = Ret None)) as [-> | Hr].
  { by rewrite Hc. }
  pose proof (feed_extend _ u _ _ Ha Hf Hr) as He.
  rewrite (feed_complete _ v (t ++ u) [] Ha Hw) in He by by rewrite app_nil_r.
  injection He as <- He. by destruct (buf_ p), u.
Qed.

(** Complete texts followed by an unfinished one. *)
Lemma drain_all_prefix vs t :
  Forall (fun v => resp_wf v = true) vs ->
  RespParser_feed (MkParser t) [] = (Ret None, MkParser t) ->
  addressable (flat_map serialize vs ++ t) ->
  drain_all (flat_map serialize vs ++ t) = (vs, Ret tt, MkParser t).
Proof.
  intros Hwf Ht. induction Hwf as [|v1 vs Hv1 _ IH]; cbn [flat_map app]; intros Ha.
  - rewrite drain_all_step by done. by rewrite Ht.
  - rewrite <- !app_assoc in *. rewrite drain_all_step by done.
    rewrite (feed_complete _ v1 (serialize v1) (flat_map serialize vs ++ t));
      [|done|by apply serialize_wire|done].
    cbn [buf_]. by rewrite IH by by apply addressable_app_r in Ha.
Qed.

Lemma drain_all_serialized vs t v u :
  Forall (fun v => resp_wf v = true) vs -> wire v (t ++ u) -> u <> [] ->
  addressable (flat_map serialize vs ++ t ++ u) ->
  drain_all (flat_map serialize vs ++ t) = (vs, Ret tt, MkParser t).
Proof.
  intros Hwf Hw Hu Ha. apply drain_all_prefix; [done| |].
  - eapply feed_prefix; [done..|]. by apply addressable_app_r in Ha.
  - apply (addressable_app_l _ u). by rewrite <- app_assoc.
Qed.

Lemma quiescent_new : quiescent RespParser_new.
Proof. done. Qed.

Lemma feed_accepts p chunk v p' s :
  addressable (buf_ p ++ chunk) -> wire v s -> buf_ p ++ chunk = s ++ buf_ p' ->
  RespParser_feed p chunk = (Ret (Some v), p').
Proof.
  intros Ha Hw Hs. rewrite feed_of_buf, (feed_complete _ v s (buf_ p') Ha Hw Hs). by destruct p'.
Qed.

(** A bulk string with other bytes than CR LF behind it. *)
Definition unterminated (d t : bytes) : bytes := "$"%b ++ to_string (zlen d) ++ crlf ++ d ++ t.

Lemma unterminated_size d t : addressable (unterminated d t) -> zlen d <= INT64_MAX.
Proof. unfold addressable, unterminated, INT64_MAX. rewrite !zlen_app. zlen_lia. Qed.

Lemma unterminated_wire d t :
  zlen d <= INT64_MAX -> length t = 2%nat -> wire (RespBulkString d) (unterminated d t).
Proof.
  intros Hd Ht. constructor; [apply to_string_no_crlf|apply parse_int64_to_string|done].
  pose proof (zlen_nonneg d). unfold INT64_MIN. lia.
Qed.

Lemma unterminated_not_resp2 d t v :
  addressable (unterminated d t) -> length t = 2%nat -> t <> crlf -> ~ resp2 v (unterminated d t).
Proof.
  intros Ha Ht Hne Hv.
  pose proof (unterminated_size d t Ha) as Hd.
  assert (forall u, wire u (unterminated d t) ->
    RespParser_feed RespParser_new (unterminated d t) = (Ret (Some u), RespParser_new)) as Hf.
  { intros u Hu. apply (feed_accepts _ _ _ _ (unterminated d t)); [done..|].
    cbn [buf_ RespParser_new]. by rewrite app_nil_r. }
  pose proof (Hf v (resp2_wire v _ Hv)) as H1. rewrite (Hf _ (unterminated_wire d t Hd Ht)) in H1.
  injection H1 as <-. remember (unterminated d t) as s eqn:Hs.
  inversion Hv as [| | | |l d' _ _ Hd' Hs'| |]; subst. unfold unterminated in Hs'.
  rewrite !app_assoc in Hs'. apply app_inj_2 in Hs' as [_ Hs']; [|done]. by destruct Hne.
Qed.

(** C1. What [feed] accepts, and RESP2: [feed] returns the value [v] and keeps the rest
    [buf_ p'] exactly when the bytes received so far are an accepted text of [v] followed by
    that rest. Every RESP2 text is accepted as its value. An accepted text is RESP2 up to
    two things the code does not check: lines may hold a CR or an LF on their own, and the
    two bytes behind a bulk string need not be CR LF; apart from the first, writing CR LF
    over such pairs makes it a RESP2 text of the same value. With any other two bytes behind
    its data a bulk string is accepted although the text is not RESP2. *)
Theorem feed_iff_wire p chunk v p' :
  addressable (buf_ p ++ chunk) ->
  (RespParser_feed p chunk = (Ret (Some v), p') <->
   exists s, wire v s /\ buf_ p ++ chunk = s ++ buf_ p') /\
  (forall s, resp2 v s -> buf_ p ++ chunk = s ++ buf_ p' ->
     RespParser_feed p chunk = (Ret (Some v), p')) /\
  (forall s, wire v s -> one_lined v = true -> exists s', resp2 v s' /\ mended s s') /\
  (forall d t, addressable (unterminated d t) -> length t = 2%nat -> t <> crlf ->
     RespParser_feed RespParser_new (unterminated d t) = (Ret (Some (RespBulkString d)), RespParser_new)
     /\ forall u, ~ resp2 u (unterminated d t)).
Proof.
  intros Ha. split_and!.
  - split; [rewrite feed_of_buf; by apply feed_sound|]. intros (s & Hw & Hs). by eapply feed_accepts.
  - intros s Hs Hb. eapply feed_accepts; [done|by apply resp2_wire|done].
  - apply wire_mended_all.
  - intros d t Hd Ht Hne. split; [|intros u; by apply unterminated_not_resp2].
    eapply feed_accepts; [done| |cbn; by rewrite app_nil_r].
    apply unterminated_wire; [by eapply unterminated_size|done].
Qed.

(** C2. Pipelining: however the concatenated wire forms of the values [vs], followed by
    an unfinished text [t], are split into chunks, the read loop delivers exactly [vs],
    in order, and keeps exactly [t] for the next read. *)
Theorem drain_chunks_serialized vs t v u chunks :
  Forall (fun v => resp_wf v = true) vs -> wire v (t ++ u) -> u <> [] ->
  addressable (flat_map serialize vs ++ t ++ u) ->
  concat chunks = flat_map serialize vs ++ t ->
  drain_chunks RespParser_new chunks = (vs, Ret tt, MkParser t).
Proof.
  intros Hwf Hw Hu Ha Hc.
  pose proof (drain_chunks_all RespParser_new chunks) as Hall. simpl in Hall.
  rewrite Hc, (drain_all_serialized vs t v u) in Hall by done.
  destruct (drain_chunks _ _) as [[vs' st'] p'].
  destruct Hall as (-> & -> & ->); [|apply quiescent_new|done..].
  apply (addressable_app_l _ u). by rewrite <- app_assoc.
Qed.

(** C3. Chunking does not matter for any byte stream, well formed or not: the values
    delivered before the end or before the first protocol error, and that error, are
    those of the stream received in one piece. *)
Theorem drain_chunks_concat chunks :
  addressable (concat chunks) ->
  match drain_chunks RespParser_new chunks,
        drain (drain_fuel RespParser_new (concat chunks)) RespParser_new (concat chunks) with
  | (vs, st, p), (vs', st', p') => vs = vs' /\ st = st' /\ (st = Ret tt -> p = p')
  end.
Proof.
  intros Ha. pose proof (drain_chunks_all RespParser_new chunks Ha quiescent_new) as Hall.
  by rewrite drain_drain_all.
Qed.

(** C4. Termination and bounds: a call of [feed] returns or throws. It never runs out
    of recursion, has no undefined step, and either removes at least three bytes from
    the front of the buffer or keeps every byte. *)
Theorem feed_total p chunk :
  addressable (buf_ p ++ chunk) ->
  match RespParser_feed p chunk with
  | (Ret (Some _), p') =>
      exists s, buf_ p ++ chunk = s ++ buf_ p' /\ (3 <= length s)%nat
  | (Ret None, p') | (Exn _, p') => buf_ p' = buf_ p ++ chunk
  | (UB, _) | (NoFuel, _) => False
  end.
Proof.
  intros Ha. pose proof (feed_cases p chunk Ha) as Hc.
  destruct (RespParser_feed p chunk) as [[[v|]|e| |] p']; [|done..].
  destruct Hc as (s & _ & ? & ?). eauto.
Qed.

(** The nesting bomb: [n] array headers, each announcing one element. *)
Definition nested (n : nat) : bytes := concat (replicate n ("*1"%b ++ crlf)).

Lemma nested_S n : nested (S n) = "*1"%b ++ crlf ++ nested n.
Proof. done. Qed.

Lemma parse_nested_fuel n fuel pre :
  reserve 1 = Ret tt -> (fuel <= 3 * n)%nat ->
  parse (pre ++ nested n) fuel (length pre) = NoFuel.
Proof.
  intros Hr. revert fuel pre. induction n as [|n IH]; intros fuel pre Hf.
  { by replace fuel with 0%nat by lia. }
  rewrite nested_S. destruct fuel as [|fuel]; [done|].
  assert (drop (length pre) (pre ++ "*1"%b ++ crlf ++ nested n) = "*1"%b ++ crlf ++ nested n)
    as Hd by apply drop_app_length.
  rewrite (parse_type_byte _ _ _ _ _ Hd). apply drop_type_byte in Hd.
  cbn [Ascii.eqb Bool.eqb]. destruct fuel as [|fuel]; [done|].
  rewrite parse_array_S, (read_line_line _ _ "1"%b (nested n)) by done.
  change (parse_int64 "1"%b) with (Some 1). simpl. rewrite Hr. cbn [out_bind].
  destruct fuel as [|fuel]; [done|]. rewrite parse_elements_S. simpl.
  specialize (IH fuel (pre ++ "*1"%b ++ crlf)).
  rewrite !length_app in IH. rewrite <- !app_assoc in IH. simpl in IH |- *.
  replace (length pre + 1 + 1 + 2)%nat with (length pre + 4)%nat by lia.
  rewrite IH; [done|lia].
Qed.

(** The recursion depth is not bounded by anything but the input: [n] array headers
    (4n bytes, within the request limit for n up to 262144) need more than [3n] nested
    calls of parse, parse_array and its loop before the parser can answer. *)
Theorem parse_depth_unbounded n fuel :
  reserve 1 = Ret tt -> (fuel <= 3 * n)%nat ->
  length (nested n) = (4 * n)%nat /\ parse (nested n) fuel 0 = NoFuel.
Proof.
  intros Hr Hf. split; [|by apply (parse_nested_fuel n fuel [])].
  clear. induction n as [|n IH]; [done|]. rewrite nested_S, !length_app, IH. simpl. lia.
Qed.
End Theorems.

(** * Witnesses *)

Definition ping : RespValue := RespArray [RespBulkString "PING"%b].

Lemma feed_iff_wire_witness :
  RespParser_feed (H := demo_runtime) RespParser_new (serialize ping ++ "+x"%b)
    = (Ret (Some ping), MkParser "+x"%b) /\
  RespParser_feed (H := demo_runtime) RespParser_new ("$3"%b ++ crlf ++ "fooXY"%b)
    = (Ret (Some (RespBulkString "foo"%b)), RespParser_new) /\
  forall v, ~ resp2 (H := demo_runtime) v ("$3"%b ++ crlf ++ "fooXY"%b).
Proof.
  destruct (feed_iff_wire (H := demo_runtime) RespParser_new (serialize ping ++ "+x"%b) ping
           (MkParser "+x"%b)) as (Hiff & _ & _ & Hlax); [by vm_compute|]. split.
  - apply Hiff. exists (serialize ping). split; [|reflexivity].
    apply (serialize_wire (H := demo_runtime)). by vm_compute.
  - apply (Hlax "foo"%b "XY"%b); [by vm_compute|reflexivity|discriminate].
Defined.

Lemma drain_chunks_serialized_witness :
  drain_chunks (H := demo_runtime) RespParser_new
    [take 9 (serialize ping); drop 9 (serialize ping) ++ "*1"%b]
  = ([ping], Ret tt, MkParser "*1"%b).
Proof.
  apply (drain_chunks_serialized (H := demo_runtime) [ping] "*1"%b ping
           (drop 2 (serialize ping))).
  - by repeat constructor.
  - apply (serialize_wire (H := demo_runtime) ping). by vm_compute.
  - discriminate.
  - by vm_compute.
  - reflexivity.
Defined.

Lemma drain_chunks_concat_witness :
  drain_chunks (H := demo_runtime) RespParser_new ["+a"%b; crlf ++ "!"%b]
  = ([RespSimpleString "a"%b],
     Exn (runtime_error "RESP: unknown type byte '!'"%b), MkParser "!"%b) /\
  match drain_chunks (H := demo_runtime) RespParser_new ["+a"%b; crlf ++ "!"%b],
        drain (H := demo_runtime) 10 RespParser_new ("+a"%b ++ crlf ++ "!"%b) with
  | (vs, st, _), (vs', st', _) => vs = vs' /\ st = st'
  end.
Proof.
  split; [by vm_compute|].
  pose proof (drain_chunks_concat (H := demo_runtime) ["+a"%b; crlf ++ "!"%b]) as Hc.
  specialize (Hc ltac:(by vm_compute)). vm_compute in Hc |- *.
  destruct Hc as (? & ? & _). by split.
Defined.

Lemma feed_total_witness :
  buf_ (snd (RespParser_feed (H := demo_runtime) RespParser_new "$99"%b)) = "$99"%b.
Proof.
  exact (feed_total (H := demo_runtime) RespParser_new "$99"%b ltac:(by vm_compute)).
Defined.

Lemma parse_depth_unbounded_witness :
  parse (H := demo_runtime) (nested 100) 300 0 = NoFuel.
Proof.
  apply (parse_depth_unbounded (H := demo_runtime) 100 300); [reflexivity|lia].
Defined.
