(* ===== verification/World.v ===== *)
(** The shared state of a running server and the monad its operations live in.

    Data types come from src/core/value.hpp, src/core/kv_store.hpp (Entry),
    src/server/server_stats.hpp and src/server/pubsub_broker.hpp (Subscriber). *)

From S2P Require Import Prelude Cxx.

Open Scope Z_scope.

(** * Values (src/core/value.hpp) *)

Inductive Value :=
  | StringValue (data : bytes)
  | ListValue (elements : list bytes)
  | SetValue (members : gset bytes)
  | HashValue (fields : gmap bytes bytes).

#[global] Instance Value_eq_dec : EqDecision Value.
Proof. solve_decision. Defined.

Definition is_string (v : Value) : bool := if v is StringValue _ then true else false.
Definition is_list (v : Value) : bool := if v is ListValue _ then true else false.
Definition is_set (v : Value) : bool := if v is SetValue _ then true else false.
Definition is_hash (v : Value) : bool := if v is HashValue _ then true else false.

(** [std::get<T>(data_)] throws [bad_variant_access] on another alternative. *)
Definition as_string (v : Value) : Out bytes :=
  match v with StringValue s => Ret s | _ => Exn bad_variant_access end.
Definition as_list (v : Value) : Out (list bytes) :=
  match v with ListValue l => Ret l | _ => Exn bad_variant_access end.
Definition as_set (v : Value) : Out (gset bytes) :=
  match v with SetValue s => Ret s | _ => Exn bad_variant_access end.
Definition as_hash (v : Value) : Out (gmap bytes bytes) :=
  match v with HashValue h => Ret h | _ => Exn bad_variant_access end.

(** * Store entries; a deadline is a steady-clock time point in nanoseconds. *)
Record Entry := MkEntry { value : Value; expires_at : option Z }.

(** * Metrics (src/server/server_stats.hpp) *)
Record ServerStats := MkStats {
  start_time : Z;
  connected_clients : Z;
  total_commands : Z;
  ready : bool;
  port : Z;
  aof_enabled : bool;
}.

(** * Subscribers

    A connection is named by its address. [WriteFn] is the closure handle_subscribe
    builds (src/server/connection.cpp): it captures the connection and the channel. *)
Abbreviation conn_id := nat (only parsing).

Record WriteFn := MkWriteFn { wf_self : conn_id; wf_ch : bytes }.
Record Subscriber := MkSubscriber { id : conn_id; write : WriteFn }.

(** * State

    [data_] is KvStore::data_, [channels_] PubSubBroker::channels_, [posted] the frames
    handed to the event loop with asio::post, oldest first; [tick] counts the operations
    that read the clock or take the store's lock. *)
Record World := MkWorld {
  data_ : gmap bytes Entry;
  tick : nat;
  stats : ServerStats;
  channels_ : gmap bytes (list Subscriber);
  posted : list (conn_id * bytes);
}.

Definition set_data (d : gmap bytes Entry) (w : World) : World :=
  MkWorld d (tick w) (stats w) (channels_ w) (posted w).
Definition set_tick (n : nat) (w : World) : World :=
  MkWorld (data_ w) n (stats w) (channels_ w) (posted w).
Definition set_stats (s : ServerStats) (w : World) : World :=
  MkWorld (data_ w) (tick w) s (channels_ w) (posted w).
Definition set_channels (c : gmap bytes (list Subscriber)) (w : World) : World :=
  MkWorld (data_ w) (tick w) (stats w) c (posted w).
Definition add_posted (l : list (conn_id * bytes)) (w : World) : World :=
  MkWorld (data_ w) (tick w) (stats w) (channels_ w) (posted w ++ l).

(** * State and exceptions *)

Definition M (A : Type) : Type := World -> Out A * World.

#[global] Instance M_ret : MRet M := fun A a w => (Ret a, w).
#[global] Instance M_bind : MBind M := fun A B f m w =>
  match m w with
  | (Ret a, w) => f a w
  | (Exn e, w) => (Exn e, w)
  | (UB, w) => (UB, w)
  | (NoFuel, w) => (NoFuel, w)
  end.

Definition lift {A} (o : Out A) : M A := fun w => (o, w).
Definition throw {A} (e : exn) : M A := lift (Exn e).
Definition gets {A} (f : World -> A) : M A := fun w => (Ret (f w), w).
Definition modify (f : World -> World) : M unit := fun w => (Ret tt, f w).

(** * Time and interleaving

    [clock op s] is the steady-clock time (nanoseconds) at place [s] of operation
    number [op]: on entry, when it has the lock, when it checks a deadline, and at a
    second reading after that. [sweep_at op] is the time of the last pass the background
    expiry thread completed before operation [op] got the lock, if there was one since
    the previous operation. *)
Class Schedule := { clock : nat -> nat -> Z; sweep_at : nat -> option Z }.

Definition at_entry : nat := 0.
Definition at_lock : nat := 1.
Definition at_check : nat := 2.
Definition at_read : nat := 3.

(** The clock is steady, and a pass that is over lies in the past. *)
Class ScheduleOk (Sch : Schedule) : Prop := {
  clock_step : forall op s s', (s <= s')%nat -> clock op s <= clock op s';
  clock_next : forall op s, clock op s <= clock (S op) at_entry;
  sweep_before : forall op t, sweep_at op = Some t -> t <= clock op at_lock;
}.

Definition next_op : M nat := fun w => (Ret (tick w), set_tick (S (tick w)) w).

(** [Clock::now()] at place [s] of operation [op]. *)
Definition clock_now `{Schedule} (op s : nat) : M Z := mret (clock op s).
