(* ===== verification/KvStore.v ===== *)
(** The key-value store (src/core/kv_store.hpp, kv_store.cpp). *)

From S2P Require Import Prelude Cxx World.

Open Scope Z_scope.

Definition ns_per_ms : Z := 1000000.

(** [Entry::is_expired] at a given reading of the clock. *)
Definition expired_at (now : Z) (e : Entry) : bool :=
  match expires_at e with
  | Some t => t <=? now
  | None => false
  end.

(** * Background expiry

    One pass of run_expiry's loop body: erase every entry whose deadline has passed. *)
Definition sweep (now : Z) (d : gmap bytes Entry) : gmap bytes Entry :=
  filter (fun kv => expired_at now (snd kv) = false) d.

(** The whole loop until stop is requested; [nows] are the readings of its passes. *)
Definition run_expiry (nows : list Z) (d : gmap bytes Entry) : gmap bytes Entry :=
  fold_left (fun d now => sweep now d) nows d.

Section KvStore.
Context `{CxxRuntime} `{Schedule}.

(** Taking [mutex_], shared or exclusive: the expiry thread may have run before. *)
Definition acquire (op : nat) : M unit :=
  match sweep_at op with
  | Some t => modify (fun w => set_data (sweep t (data_ w)) w)
  | None => mret tt
  end.

(** [Entry::is_expired]: the clock is read only when the entry has a deadline. *)
Definition Entry_is_expired (op : nat) (e : Entry) : M bool :=
  match expires_at e with
  | None => mret false
  | Some t => now ← clock_now op at_check; mret (t <=? now)
  end.

Definition find (key : bytes) : M (option Entry) := gets (fun w => data_ w !! key).
Definition put (key : bytes) (e : Entry) : M unit :=
  modify (fun w => set_data (<[key := e]> (data_ w)) w).
Definition erase (key : bytes) : M unit :=
  modify (fun w => set_data (delete key (data_ w)) w).

(** [now + ttl]: milliseconds become nanoseconds, both steps in int64. *)
Definition deadline (now ttl : Z) : Out Z :=
  out_bind (int64 (ttl * ns_per_ms)) (fun ns => int64 (now + ns)).

(** * Public API *)

Definition KvStore_set (key : bytes) (v : Value) (ttl : Z) : M unit :=
  op ← next_op;
  expires ← (if 0 <? ttl
             then now ← clock_now op at_entry; t ← lift (deadline now ttl); mret (Some t)
             else mret None);
  acquire op;;
  put key (MkEntry v expires).

Definition KvStore_get (key : bytes) : M (option Value) :=
  op ← next_op;
  acquire op;;
  it ← find key;
  match it with
  | None => mret None
  | Some e =>
      expired ← Entry_is_expired op e;
      if expired : bool then mret None else mret (Some (value e))
  end.

Definition KvStore_del (key : bytes) : M Z :=
  op ← next_op;
  acquire op;;
  it ← find key;
  match it with
  | None => mret 0
  | Some e =>
      expired ← Entry_is_expired op e;
      erase key;;
      mret (if expired : bool then 0 else 1)
  end.

Definition KvStore_exists (key : bytes) : M bool :=
  op ← next_op;
  acquire op;;
  it ← find key;
  match it with
  | None => mret false
  | Some e => expired ← Entry_is_expired op e; mret (negb expired)
  end.

Definition KvStore_expire (key : bytes) (ttl : Z) : M bool :=
  op ← next_op;
  acquire op;;
  it ← find key;
  match it with
  | None => mret false
  | Some e =>
      expired ← Entry_is_expired op e;
      if expired : bool then mret false
      else
        now ← clock_now op at_read;
        t ← lift (deadline now ttl);
        put key (MkEntry (value e) (Some t));;
        mret true
  end.

(** [duration_cast<milliseconds>] truncates towards zero. *)
Definition KvStore_ttl (key : bytes) : M Z :=
  op ← next_op;
  acquire op;;
  it ← find key;
  match it with
  | None => mret (-2)
  | Some e =>
      expired ← Entry_is_expired op e;
      if expired : bool then mret (-2)
      else
        match expires_at e with
        | None => mret (-1)
        | Some t =>
            now ← clock_now op at_read;
            remaining ← lift (int64 (t - now));
            mret (Z.max 0 (Z.quot remaining ns_per_ms))
        end
  end.

Definition KvStore_persist (key : bytes) : M bool :=
  op ← next_op;
  acquire op;;
  it ← find key;
  match it with
  | None => mret false
  | Some e =>
      expired ← Entry_is_expired op e;
      if expired : bool then mret false
      else
        put key (MkEntry (value e) None);;
        mret true
  end.

Definition KvStore_size : M Z :=
  op ← next_op;
  acquire op;;
  gets (fun w => Z.of_nat (size (data_ w))).

(** Payload bytes of one value, as approx_memory_bytes visits it. *)
Definition value_bytes (v : Value) : list Z :=
  match v with
  | StringValue s => [zlen s]
  | ListValue l => map zlen l
  | SetValue s => map zlen (iter_set s)
  | HashValue h => map (fun fv => zlen (fst fv) + zlen (snd fv)) (iter_map _ h)
  end.

Definition add_all (total : Z) (l : list Z) : Z :=
  fold_left (fun total n => wrap64 (total + n)) l total.

Definition KvStore_approx_memory_bytes : M Z :=
  op ← next_op;
  acquire op;;
  gets (fun w =>
    fold_left (fun total ke =>
        add_all (wrap64 (total + zlen (fst ke))) (value_bytes (value (snd ke))))
      (iter_map _ (data_ w)) 0).
End KvStore.
