(* ===== verification/KvStoreFacts.v ===== *)
(** The store seen through its abstract specification: a map from live keys to values.

    [live t d] is what a client can see of the store [d] at time [t]; two stores are
    equivalent from [t] on when no later client can tell them apart. Each operation is
    given as an equation on that view, whatever the expiry thread does meanwhile. *)

From S2P Require Import Prelude Cxx World KvStore.

Open Scope Z_scope.

(** * The live view *)

Definition live (t : Z) (d : gmap bytes Entry) (key : bytes) : option Entry :=
  match d !! key with
  | Some e => if expired_at t e then None else Some e
  | None => None
  end.

Definition live_equiv (t : Z) (d1 d2 : gmap bytes Entry) : Prop :=
  forall t' key, t <= t' -> live t' d1 key = live t' d2 key.

Declare Scope store_scope.
Delimit Scope store_scope with store.
Notation "d1 ≈[ t ] d2" := (live_equiv t d1 d2)
  (at level 70, format "d1  ≈[ t ]  d2") : store_scope.
Open Scope store_scope.

#[global] Instance live_equiv_equivalence t : Equivalence (live_equiv t).
Proof.
  split.
  - by intros d t' key.
  - intros d1 d2 E t' key Ht. by rewrite E.
  - intros d1 d2 d3 E1 E2 t' key Ht. by rewrite E1, E2.
Qed.

Lemma live_equiv_later t t' d1 d2 : d1 ≈[t] d2 -> t <= t' -> d1 ≈[t'] d2.
Proof. intros E Ht t'' key Ht'. apply E. lia. Qed.

Lemma live_insert t d key e key' :
  live t (<[key := e]> d) key' =
  if decide (key = key') then (if expired_at t e then None else Some e) else live t d key'.
Proof. unfold live. rewrite lookup_insert. by case_decide. Qed.

Lemma live_delete t d key key' :
  live t (delete key d) key' = if decide (key = key') then None else live t d key'.
Proof. unfold live. rewrite lookup_delete. by case_decide. Qed.

#[global] Instance insert_live_proper t key e :
  Proper (live_equiv t ==> live_equiv t) (insert key e).
Proof. intros d1 d2 E t' key' Ht. rewrite !live_insert, E by done. done. Qed.

#[global] Instance delete_live_proper t key :
  Proper (live_equiv t ==> live_equiv t) (delete key).
Proof. intros d1 d2 E t' key' Ht. rewrite !live_delete, E by done. done. Qed.

Lemma lookup_sweep t d key : sweep t d !! key = live t d key.
Proof.
  unfold sweep, live. rewrite map_lookup_filter. destruct (d !! key) as [e|]; simpl; [|done].
  case_guard as Hg; simpl in *; by destruct (expired_at t e).
Qed.

Lemma expired_at_later t t' e : t <= t' -> expired_at t e = true -> expired_at t' e = true.
Proof. unfold expired_at. destruct (expires_at e); [|done]. lia. Qed.

(** Erasing what has expired is invisible from then on. *)
Lemma sweep_equiv t d : sweep t d ≈[t] d.
Proof.
  intros t' key Ht. unfold live at 1. rewrite lookup_sweep. unfold live.
  destruct (d !! key) as [e|]; [|done].
  destruct (expired_at t e) eqn:E; [|done]. by rewrite (expired_at_later t t' e).
Qed.

Lemma sweep_sweep t t' d : t <= t' -> sweep t' (sweep t d) = sweep t' d.
Proof.
  intros Ht. apply map_eq. intros key. rewrite !lookup_sweep. by apply sweep_equiv.
Qed.

(** A run of the expiry thread has the effect of its last pass. *)
Lemma run_expiry_last nows t d :
  Forall (fun n => n <= t) nows -> run_expiry (nows ++ [t]) d = sweep t d.
Proof.
  intros Hn. unfold run_expiry. rewrite fold_left_app. simpl. revert d.
  induction Hn as [|n nows Hn _ IH]; intros d; simpl; [done|].
  by rewrite IH, sweep_sweep.
Qed.

(** * Running the operations *)

Section Run.
Context `{CxxRuntime} `{Sch : Schedule} `{SchOk : !ScheduleOk Sch}.

Lemma clock_later op s op' s' :
  (op < op' \/ op = op' /\ s <= s')%nat -> clock op s <= clock op' s'.
Proof.
  intros [Hop|[-> Hs]]; [|by apply clock_step].
  assert (forall n, clock op s <= clock (op + S n) at_entry) as Hn.
  { induction n as [|n IH]; rewrite Nat.add_succ_r.
    - rewrite Nat.add_0_r. apply clock_next.
    - etrans; [apply IH|apply clock_next]. }
  etrans; [apply (Hn (op' - op - 1)%nat)|].
  replace (op + S (op' - op - 1))%nat with op' by lia. apply clock_step. unfold at_entry. lia.
Qed.

(** The world in which an operation holds the lock, and the times it sees. *)
Definition locked (w : World) : World :=
  set_tick (S (tick w))
    match sweep_at (tick w) with
    | Some t => set_data (sweep t (data_ w)) w
    | None => w
    end.

Definition now (w : World) : Z := clock (tick w) at_entry.
Definition lock_time (w : World) : Z := clock (tick w) at_lock.
Definition check_time (w : World) : Z := clock (tick w) at_check.

(** What a client of the next operation sees under [key]. *)
Definition view (w : World) (key : bytes) : option Value :=
  value <$> live (check_time w) (data_ w) key.

Definition is_live (w : World) (key : bytes) : bool :=
  match view w key with Some _ => true | None => false end.

Lemma locked_equiv w : data_ (locked w) ≈[lock_time w] data_ w.
Proof.
  unfold locked. simpl. destruct (sweep_at (tick w)) as [t|] eqn:E; simpl; [|done].
  apply sweep_before in E. eapply live_equiv_later; [apply sweep_equiv|done].
Qed.

Lemma lock_check w : lock_time w <= check_time w.
Proof. apply clock_later. right. split; [done|]. unfold at_lock, at_check. lia. Qed.

Lemma check_now w : check_time w <= now (locked w).
Proof. apply clock_later. left. simpl. lia. Qed.

Lemma live_locked w key :
  live (check_time w) (data_ (locked w)) key = live (check_time w) (data_ w) key.
Proof. apply locked_equiv, lock_check. Qed.

Lemma locked_tick w : tick (locked w) = S (tick w).
Proof. done. Qed.
Lemma locked_stats w : stats (locked w) = stats w.
Proof. unfold locked. simpl. by destruct (sweep_at _). Qed.
Lemma locked_channels w : channels_ (locked w) = channels_ w.
Proof. unfold locked. simpl. by destruct (sweep_at _). Qed.
Lemma locked_posted w : posted (locked w) = posted w.
Proof. unfold locked. simpl. by destruct (sweep_at _). Qed.

Lemma is_expired_run op e w :
  Entry_is_expired op e w = (Ret (expired_at (clock op at_check) e), w).
Proof. unfold Entry_is_expired, expired_at. by destruct (expires_at e). Qed.

(** Entering an operation: count it, take the lock. *)
Lemma enter_run {A} (k : nat -> M A) w :
  (op ← next_op; acquire op;; k op) w = k (tick w) (locked w).
Proof.
  unfold mbind, M_bind, next_op, acquire, locked. simpl.
  destruct (sweep_at (tick w)); done.
Qed.

(** Looking an entry up under the lock and testing its deadline. *)
Lemma find_check_run {A} op key (none : A) (some : Entry -> M A) w :
  (it ← find key;
   match it with
   | None => mret none
   | Some e => expired ← Entry_is_expired op e; if expired : bool then mret none else some e
   end) w =
  match live (clock op at_check) (data_ w) key with
  | None => (Ret none, w)
  | Some e => some e w
  end.
Proof.
  unfold find, gets, mbind, M_bind, live. simpl.
  destruct (data_ w !! key) as [e|]; [|done].
  rewrite is_expired_run. by destruct (expired_at _ e).
Qed.

Lemma get_run key w : KvStore_get key w = (Ret (view w key), locked w).
Proof.
  unfold KvStore_get. rewrite (enter_run (fun op => _)), find_check_run.
  unfold view. rewrite <- live_locked. by destruct (live _ _ _).
Qed.

Lemma del_run key w :
  KvStore_del key w =
  (Ret (if is_live w key then 1 else 0),
   set_data (delete key (data_ (locked w))) (locked w)).
Proof.
  unfold KvStore_del. rewrite (enter_run (fun op => _)).
  unfold find, gets, mbind, M_bind, is_live, view. rewrite <- live_locked. unfold live.
  destruct (data_ (locked w) !! key) as [e|] eqn:E.
  - rewrite is_expired_run. unfold check_time. by destruct (expired_at _ e).
  - rewrite delete_id by done. by destruct (locked w).
Qed.

Lemma exists_run key w : KvStore_exists key w = (Ret (is_live w key), locked w).
Proof.
  unfold KvStore_exists. rewrite (enter_run (fun op => _)).
  unfold find, gets, mbind, M_bind, is_live, view. rewrite <- live_locked. unfold live.
  destruct (data_ (locked w) !! key) as [e|]; [|done].
  rewrite is_expired_run. unfold check_time. by destruct (expired_at _ e).
Qed.

(** [set] without a time to live, as every handler but SET uses it. *)
Lemma set_run key v w :
  KvStore_set key v 0 w =
  (Ret tt, set_data (<[key := MkEntry v None]> (data_ (locked w))) (locked w)).
Proof.
  unfold KvStore_set. simpl.
  exact (enter_run (fun op => put key (MkEntry v None)) w).
Qed.

Lemma set_nottl key v ttl : ttl <= 0 -> KvStore_set key v ttl = KvStore_set key v 0.
Proof. intros Ht. unfold KvStore_set. by destruct (Z.ltb_spec 0 ttl); [lia|]. Qed.

Lemma set_ttl_run key v ttl w :
  0 < ttl ->
  KvStore_set key v ttl w =
  match deadline (now w) ttl with
  | Ret t => (Ret tt, set_data (<[key := MkEntry v (Some t)]> (data_ (locked w))) (locked w))
  | Exn e => (Exn e, set_tick (S (tick w)) w)
  | UB => (UB, set_tick (S (tick w)) w)
  | NoFuel => (NoFuel, set_tick (S (tick w)) w)
  end.
Proof.
  intros Ht. unfold KvStore_set. destruct (Z.ltb_spec 0 ttl); [|lia].
  unfold mbind, M_bind, next_op, clock_now, lift, now, acquire, locked. simpl.
  destruct (deadline _ _); simpl; [|done..]. by destruct (sweep_at (tick w)).
Qed.

Lemma expire_run key ttl w :
  KvStore_expire key ttl w =
  match live (check_time w) (data_ w) key with
  | None => (Ret false, locked w)
  | Some e =>
      match deadline (clock (tick w) at_read) ttl with
      | Ret t =>
          (Ret true,
           set_data (<[key := MkEntry (value e) (Some t)]> (data_ (locked w))) (locked w))
      | Exn e => (Exn e, locked w)
      | UB => (UB, locked w)
      | NoFuel => (NoFuel, locked w)
      end
  end.
Proof.
  unfold KvStore_expire. rewrite (enter_run (fun op => _)), find_check_run, <- live_locked.
  destruct (live _ _ _) as [e|]; [|done].
  unfold mbind, M_bind, clock_now, lift. simpl. by destruct (deadline _ _).
Qed.

Lemma ttl_run key w :
  KvStore_ttl key w =
  match live (check_time w) (data_ w) key with
  | None => (Ret (-2), locked w)
  | Some e =>
      match expires_at e with
      | None => (Ret (-1), locked w)
      | Some t =>
          (out_bind (int64 (t - clock (tick w) at_read))
             (fun remaining => Ret (Z.max 0 (Z.quot remaining ns_per_ms))), locked w)
      end
  end.
Proof.
  unfold KvStore_ttl. rewrite (enter_run (fun op => _)), find_check_run, <- live_locked.
  destruct (live _ _ _) as [e|]; [|done].
  destruct (expires_at e) as [t|]; [|done].
  unfold mbind, M_bind, clock_now, lift. simpl. by destruct (int64 _).
Qed.

Lemma persist_run key w :
  KvStore_persist key w =
  match live (check_time w) (data_ w) key with
  | None => (Ret false, locked w)
  | Some e =>
      (Ret true, set_data (<[key := MkEntry (value e) None]> (data_ (locked w))) (locked w))
  end.
Proof.
  unfold KvStore_persist. rewrite (enter_run (fun op => _)), find_check_run, <- live_locked.
  by destruct (live _ _ _).
Qed.

Lemma size_run w : KvStore_size w = (Ret (Z.of_nat (size (data_ (locked w)))), locked w).
Proof. unfold KvStore_size. by rewrite (enter_run (fun op => _)). Qed.
End Run.
