(* ===== verification/Threads.v ===== *)
(** The store's two threads (src/core/kv_store.cpp): the thread that executes commands and
    the background expiry thread, interleaved step by step and synchronised only by the
    store's reader-writer lock. *)

From S2P Require Import Prelude Cxx World KvStore.

Open Scope Z_scope.

(** * Programs

    An operation is a sequence of steps; between any two of them the other thread may run.
    [Now] reads the steady clock, at the place of the operation the schedules call [s];
    [Release] is the end of the lock's scope; [Fault] is undefined behaviour. *)

Inductive mode := SharedLock | ExclusiveLock.

#[global] Instance mode_eq_dec : EqDecision mode.
Proof. solve_decision. Defined.

Inductive prog (A : Type) :=
  | Done (a : A)
  | Fault
  | Now (s : nat) (k : Z -> prog A)
  | Acquire (m : mode) (k : prog A)
  | Release (k : prog A)
  | Find (key : bytes) (k : option Entry -> prog A)
  | Keys (k : list bytes -> prog A)
  | Size (k : Z -> prog A)
  | Assign (key : bytes) (e : Entry) (k : prog A)
  | Erase (key : bytes) (k : prog A).
Arguments Done {A} a.
Arguments Fault {A}.
Arguments Now {A} s k.
Arguments Acquire {A} m k.
Arguments Release {A} k.
Arguments Find {A} key k.
Arguments Keys {A} k.
Arguments Size {A} k.
Arguments Assign {A} key e k.
Arguments Erase {A} key k.

(** * The operations of the store, and the command thread's own readings of the clock *)

Inductive StoreOp :=
  | OpSet (key : bytes) (v : Value) (ttl : Z)
  | OpGet (key : bytes)
  | OpDel (key : bytes)
  | OpExists (key : bytes)
  | OpExpire (key : bytes) (ttl : Z)
  | OpTtl (key : bytes)
  | OpPersist (key : bytes)
  | OpSize
  | OpMemory
  | OpClock.                               (* a reading of the clock outside of the store *)

(** What they return. *)
Inductive Reply :=
  | RUnit
  | RValue (v : option Value)
  | RInt (n : Z)
  | RBool (b : bool).

Section Operations.
Context `{CxxRuntime}.

(** Leave the scope of the lock and return. *)
Definition leave (r : Reply) : prog Reply := Release (Done r).

(** A signed computation that may overflow. *)
Definition checked (o : Out Z) (k : Z -> prog Reply) : prog Reply :=
  match o with Ret z => k z | _ => Fault end.

(** [Entry::is_expired]. *)
Definition is_expired_prog (e : Entry) (k : bool -> prog Reply) : prog Reply :=
  match expires_at e with
  | None => k false
  | Some t => Now at_check (fun now => k (t <=? now))
  end.

(** Look the key up under the lock; [absent] when it is missing. *)
Definition find_prog (m : mode) (key : bytes) (absent : Reply) (k : Entry -> prog Reply)
    : prog Reply :=
  Acquire m (Find key (fun it => match it with None => leave absent | Some e => k e end)).

Definition set_prog (key : bytes) (v : Value) (ttl : Z) : prog Reply :=
  let store expires := Acquire ExclusiveLock (Assign key (MkEntry v expires) (leave RUnit)) in
  if 0 <? ttl then Now at_entry (fun now => checked (deadline now ttl) (fun t => store (Some t)))
  else store None.

Definition get_prog (key : bytes) : prog Reply :=
  find_prog SharedLock key (RValue None) (fun e =>
  is_expired_prog e (fun expired =>
  leave (RValue (if expired then None else Some (value e))))).

Definition del_prog (key : bytes) : prog Reply :=
  find_prog ExclusiveLock key (RInt 0) (fun e =>
  is_expired_prog e (fun expired =>
  Erase key (leave (RInt (if expired then 0 else 1))))).

Definition exists_prog (key : bytes) : prog Reply :=
  find_prog SharedLock key (RBool false) (fun e =>
  is_expired_prog e (fun expired => leave (RBool (negb expired)))).

Definition expire_prog (key : bytes) (ttl : Z) : prog Reply :=
  find_prog ExclusiveLock key (RBool false) (fun e =>
  is_expired_prog e (fun expired =>
  if expired : bool then leave (RBool false)
  else Now at_read (fun now =>
       checked (deadline now ttl) (fun t =>
       Assign key (MkEntry (value e) (Some t)) (leave (RBool true)))))).

Definition ttl_prog (key : bytes) : prog Reply :=
  find_prog SharedLock key (RInt (-2)) (fun e =>
  is_expired_prog e (fun expired =>
  if expired : bool then leave (RInt (-2))
  else
    match expires_at e with
    | None => leave (RInt (-1))
    | Some t =>
        Now at_read (fun now =>
        checked (int64 (t - now)) (fun remaining =>
        leave (RInt (Z.max 0 (Z.quot remaining ns_per_ms)))))
    end)).

Definition persist_prog (key : bytes) : prog Reply :=
  find_prog ExclusiveLock key (RBool false) (fun e =>
  is_expired_prog e (fun expired =>
  if expired : bool then leave (RBool false)
  else Assign key (MkEntry (value e) None) (leave (RBool true)))).

Definition size_prog : prog Reply := Acquire SharedLock (Size (fun n => leave (RInt n))).

(** The loop of approx_memory_bytes, entry by entry. *)
Fixpoint memory_loop (keys : list bytes) (total : Z) : prog Reply :=
  match keys with
  | [] => leave (RInt total)
  | key :: keys =>
      Find key (fun it =>
        memory_loop keys
          match it with
          | None => total
          | Some e => add_all (wrap64 (total + zlen key)) (value_bytes (value e))
          end)
  end.

Definition memory_prog : prog Reply := Acquire SharedLock (Keys (fun keys => memory_loop keys 0)).

(** The reading of the clock in ServerStats::uptime_seconds; no lock is taken. *)
Definition clock_prog : prog Reply := Now at_entry (fun now => Done (RInt now)).

Definition op_prog (op : StoreOp) : prog Reply :=
  match op with
  | OpSet key v ttl => set_prog key v ttl
  | OpGet key => get_prog key
  | OpDel key => del_prog key
  | OpExists key => exists_prog key
  | OpExpire key ttl => expire_prog key ttl
  | OpTtl key => ttl_prog key
  | OpPersist key => persist_prog key
  | OpSize => size_prog
  | OpMemory => memory_prog
  | OpClock => clock_prog
  end.
End Operations.

(** * The command thread

    What it does between two operations depends on the answers it has got. *)

Inductive client (A : Type) :=
  | CRet (a : A)
  | COp (op : StoreOp) (k : Reply -> client A).
Arguments CRet {A} a.
Arguments COp {A} op k.

(** [Idle]: outside of any operation. [InOp]: inside one, with the lock it holds. *)
Inductive thread (A : Type) :=
  | Idle (c : client A)
  | InOp (held : option mode) (p : prog Reply) (k : Reply -> client A).
Arguments Idle {A} c.
Arguments InOp {A} held p k.

(** * The expiry thread: run_expiry *)

Inductive expiry :=
  | ECheck                                 (* while (!stop.stop_requested()) *)
  | ESleep                                 (* sleep_for(100 ms) *)
  | EWait                                  (* unique_lock lock(mutex_) *)
  | ELocked                                (* const auto now = Clock::now() *)
  | EWalk (now : Z) (rest : list bytes)    (* the loop over data_ *)
  | EDone.                                 (* run_expiry has returned *)

#[global] Instance expiry_eq_dec : EqDecision expiry.
Proof. solve_decision. Defined.

(** * Both threads *)

(** std::shared_mutex. *)
Inductive lock_state := Unlocked | ReadLocked (readers : nat) | WriteLocked.

Definition lock_for (m : mode) (l : lock_state) : option lock_state :=
  match m, l with
  | SharedLock, Unlocked => Some (ReadLocked 1)
  | SharedLock, ReadLocked n => Some (ReadLocked (S n))
  | ExclusiveLock, Unlocked => Some WriteLocked
  | _, _ => None
  end.

Definition unlock_for (m : mode) (l : lock_state) : lock_state :=
  match m, l with
  | SharedLock, ReadLocked (S (S n)) => ReadLocked (S n)
  | _, _ => Unlocked
  end.

Record machine (A : Type) := MkMachine {
  m_data : gmap bytes Entry;
  m_lock : lock_state;
  m_time : Z;
  m_stop : bool;
  m_thread : thread A;
  m_expiry : expiry;
}.
Arguments MkMachine {A}.
Arguments m_data {A} _.
Arguments m_lock {A} _.
Arguments m_time {A} _.
Arguments m_stop {A} _.
Arguments m_thread {A} _.
Arguments m_expiry {A} _.

Section Machine.
Context `{CxxRuntime} {A : Type}.
Implicit Types (d : gmap bytes Entry) (l : lock_state) (t : Z) (stop : bool).
Implicit Types (k : Reply -> client A) (x : expiry) (th : thread A).

(** One step of the command thread. It touches the data whether or not it holds the lock. *)
Inductive thread_step t : gmap bytes Entry -> lock_state -> thread A ->
    gmap bytes Entry -> lock_state -> thread A -> Prop :=
  | ts_call d l op k : thread_step t d l (Idle (COp op k)) d l (InOp None (op_prog op) k)
  | ts_return d l h r k : thread_step t d l (InOp h (Done r) k) d l (Idle (k r))
  | ts_now d l h s p k : thread_step t d l (InOp h (Now s p) k) d l (InOp h (p t) k)
  | ts_acquire d l l' h m p k :
      lock_for m l = Some l' ->
      thread_step t d l (InOp h (Acquire m p) k) d l' (InOp (Some m) p k)
  | ts_release d l m p k :
      thread_step t d l (InOp (Some m) (Release p) k) d (unlock_for m l) (InOp None p k)
  | ts_find d l h key p k :
      thread_step t d l (InOp h (Find key p) k) d l (InOp h (p (d !! key)) k)
  | ts_keys d l h p k :
      thread_step t d l (InOp h (Keys p) k) d l (InOp h (p (map fst (iter_map _ d))) k)
  | ts_size d l h p k :
      thread_step t d l (InOp h (Size p) k) d l (InOp h (p (Z.of_nat (size d))) k)
  | ts_assign d l h key e p k :
      thread_step t d l (InOp h (Assign key e p) k) (<[key := e]> d) l (InOp h p k)
  | ts_erase d l h key p k :
      thread_step t d l (InOp h (Erase key p) k) (delete key d) l (InOp h p k).

(** One iteration of the loop over data_. *)
Definition visit (now : Z) (key : bytes) (d : gmap bytes Entry) : gmap bytes Entry :=
  match d !! key with
  | Some e => if expired_at now e then delete key d else d
  | None => d
  end.

(** One step of run_expiry. *)
Inductive expiry_step t stop : gmap bytes Entry -> lock_state -> expiry ->
    gmap bytes Entry -> lock_state -> expiry -> Prop :=
  | es_check d l : expiry_step t stop d l ECheck d l (if stop then EDone else ESleep)
  | es_slept d l : expiry_step t stop d l ESleep d l EWait
  | es_lock d l l' :
      lock_for ExclusiveLock l = Some l' -> expiry_step t stop d l EWait d l' ELocked
  | es_begin d l :
      expiry_step t stop d l ELocked d l (EWalk t (map fst (iter_map _ d)))
  | es_visit d l now key rest :
      expiry_step t stop d l (EWalk now (key :: rest)) (visit now key d) l (EWalk now rest)
  | es_end d l now :
      expiry_step t stop d l (EWalk now []) d (unlock_for ExclusiveLock l) ECheck.

(** Any step of either thread, time, and the destructor's request_stop(). *)
Inductive machine_step : machine A -> machine A -> Prop :=
  | ms_thread d l t stop th x d' l' th' :
      thread_step t d l th d' l' th' ->
      machine_step (MkMachine d l t stop th x) (MkMachine d' l' t stop th' x)
  | ms_expiry d l t stop th x d' l' x' :
      expiry_step t stop d l x d' l' x' ->
      machine_step (MkMachine d l t stop th x) (MkMachine d' l' t stop th x')
  | ms_time d l t t' stop th x :
      t <= t' -> machine_step (MkMachine d l t stop th x) (MkMachine d l t' stop th x)
  | ms_stop d l t stop th x :
      machine_step (MkMachine d l t stop th x) (MkMachine d l t true th x).

(** The constructor starts the thread; a command thread with work [c] meets data [d]. *)
Definition KvStore_start (c : client A) (d : gmap bytes Entry) (t : Z) : machine A :=
  MkMachine d Unlocked t false (Idle c) ECheck.
End Machine.

(** * The command thread alone, under a schedule *)

Section Sequential.
Context `{CxxRuntime} `{Schedule}.

Definition perform (op : StoreOp) : M Reply :=
  match op with
  | OpSet key v ttl => KvStore_set key v ttl;; mret RUnit
  | OpGet key => v ← KvStore_get key; mret (RValue v)
  | OpDel key => n ← KvStore_del key; mret (RInt n)
  | OpExists key => b ← KvStore_exists key; mret (RBool b)
  | OpExpire key ttl => b ← KvStore_expire key ttl; mret (RBool b)
  | OpTtl key => n ← KvStore_ttl key; mret (RInt n)
  | OpPersist key => b ← KvStore_persist key; mret (RBool b)
  | OpSize => n ← KvStore_size; mret (RInt n)
  | OpMemory => n ← KvStore_approx_memory_bytes; mret (RInt n)
  | OpClock => op ← next_op; now ← clock_now op at_entry; mret (RInt now)
  end.

Fixpoint interp {A} (c : client A) : M A :=
  match c with
  | CRet a => mret a
  | COp op k => r ← perform op; interp (k r)
  end.
End Sequential.
