(* ===== verification/ThreadsFacts.v ===== *)
(** The operations of the store as programs: what they compute when nobody interferes, that
    this is what the sequential model says, and how they use the lock. *)

From stdpp Require Import relations.
From S2P Require Import Prelude Cxx World KvStore KvStoreFacts Threads.

Open Scope Z_scope.

(** * Running a program without interference

    [clk] gives the readings of the clock by place, [ts] the last pass of the expiry thread
    before the lock was taken. *)

Definition swept (ts : option Z) (d : gmap bytes Entry) : gmap bytes Entry :=
  match ts with Some t => sweep t d | None => d end.

Section Eval.
Context `{RtOk : CxxRuntimeOk}.

Fixpoint eval {A} (clk : nat -> Z) (ts : option Z) (p : prog A) (d : gmap bytes Entry)
    : Out A * gmap bytes Entry :=
  match p with
  | Done a => (Ret a, d)
  | Fault => (UB, d)
  | Now s k => eval clk ts (k (clk s)) d
  | Acquire _ k => eval clk ts k (swept ts d)
  | Release k => eval clk ts k d
  | Find key k => eval clk ts (k (d !! key)) d
  | Keys k => eval clk ts (k (map fst (iter_map _ d))) d
  | Size k => eval clk ts (k (Z.of_nat (size d))) d
  | Assign key e k => eval clk ts k (<[key := e]> d)
  | Erase key k => eval clk ts k (delete key d)
  end.

(** ** The same as the sequential model *)

Context `{Sch : Schedule}.

Lemma locked_swept w : data_ (locked w) = swept (sweep_at (tick w)) (data_ w).
Proof. unfold locked, swept. simpl. by destruct (sweep_at (tick w)). Qed.

(** The world after an operation that leaves data [d]. *)
Definition after_op (d : gmap bytes Entry) (w : World) : World :=
  set_data d (set_tick (S (tick w)) w).

Lemma locked_after w : locked w = after_op (swept (sweep_at (tick w)) (data_ w)) w.
Proof. unfold locked, swept, after_op. by destruct (sweep_at (tick w)), w. Qed.

Definition run_op (op : StoreOp) (w : World) : Out Reply * World :=
  let '(o, d) := eval (clock (tick w)) (sweep_at (tick w)) (op_prog op) (data_ w) in
  (o, after_op d w).

Lemma eval_is_expired (clk : nat -> Z) ts e k d :
  eval clk ts (is_expired_prog e k) d = eval clk ts (k (expired_at (clk at_check) e)) d.
Proof. unfold is_expired_prog, expired_at. by destruct (expires_at e). Qed.

(** Enter the operation on both sides. *)
Ltac enter_op w :=
  unfold run_op; cbn [op_prog];
  unfold get_prog, del_prog, exists_prog, expire_prog, ttl_prog, persist_prog, size_prog,
    memory_prog, find_prog; cbn [eval];
  unfold mbind at 1, M_bind at 1;
  rewrite (enter_run (fun op => _)), locked_after;
  generalize (swept (sweep_at (tick w)) (data_ w)); intros d;
  unfold find, gets, mbind, M_bind; cbn [data_ after_op set_data set_tick].

Ltac look_up key :=
  let e := fresh "e" in
  match goal with |- context [?d !! key] => destruct (d !! key) as [e|]; [|reflexivity] end;
  rewrite is_expired_run, eval_is_expired; cbn [eval];
  destruct (expired_at _ e); try reflexivity.

Lemma perform_get key w : perform (OpGet key) w = run_op (OpGet key) w.
Proof. unfold perform, KvStore_get. enter_op w. look_up key. Qed.

Lemma perform_del key w : perform (OpDel key) w = run_op (OpDel key) w.
Proof. unfold perform, KvStore_del. enter_op w. look_up key. Qed.

Lemma perform_exists key w : perform (OpExists key) w = run_op (OpExists key) w.
Proof. unfold perform, KvStore_exists. enter_op w. look_up key. Qed.

Lemma perform_expire key ttl w : perform (OpExpire key ttl) w = run_op (OpExpire key ttl) w.
Proof.
  unfold perform, KvStore_expire. enter_op w. look_up key.
  unfold clock_now, mret, M_ret, lift. cbn [eval].
  unfold deadline, int64. destruct (in_int64 _); [|reflexivity]. cbn [out_bind].
  by destruct (in_int64 _).
Qed.

Lemma perform_ttl key w : perform (OpTtl key) w = run_op (OpTtl key) w.
Proof.
  unfold perform, KvStore_ttl. enter_op w. look_up key.
  destruct (expires_at e) as [t|]; [|reflexivity].
  unfold clock_now, mret, M_ret, lift. cbn [eval]. unfold int64. by destruct (in_int64 _).
Qed.

Lemma perform_persist key w : perform (OpPersist key) w = run_op (OpPersist key) w.
Proof. unfold perform, KvStore_persist. enter_op w. look_up key. Qed.

Lemma perform_set key v ttl w : perform (OpSet key v ttl) w = run_op (OpSet key v ttl) w.
Proof.
  unfold perform, run_op. cbn [op_prog]. unfold set_prog, mbind at 1, M_bind at 1.
  destruct (Z.ltb_spec 0 ttl).
  - cbn [eval]. rewrite set_ttl_run by done. unfold now, deadline, int64, after_op.
    destruct (in_int64 (ttl * ns_per_ms)); cbn [out_bind checked eval];
      [destruct (in_int64 _); cbn [checked eval]; [rewrite locked_after|]|]; by destruct w.
  - rewrite set_nottl, set_run, locked_after by done. reflexivity.
Qed.

Lemma perform_size w : perform OpSize w = run_op OpSize w.
Proof. unfold perform, KvStore_size. enter_op w. reflexivity. Qed.

(** Looking every key up again finds the entries of the walk. *)
Lemma eval_memory_loop clk ts d l total :
  (forall ke, ke ∈ l -> d !! fst ke = Some (snd ke)) ->
  eval clk ts (memory_loop (map fst l) total) d =
  (Ret (RInt (fold_left (fun total ke =>
     add_all (wrap64 (total + zlen (fst ke))) (value_bytes (value (snd ke)))) l total)), d).
Proof.
  revert total. induction l as [|[key e] l IH]; intros total Hl; cbn [map memory_loop eval]; [done|].
  rewrite (Hl (key, e)) by set_solver. rewrite IH by set_solver. done.
Qed.

Lemma iter_map_lookup (d : gmap bytes Entry) ke : ke ∈ iter_map _ d -> d !! fst ke = Some (snd ke).
Proof. rewrite iter_map_perm. destruct ke as [key e]. apply elem_of_map_to_list. Qed.

Lemma perform_memory w : perform OpMemory w = run_op OpMemory w.
Proof.
  unfold perform, KvStore_approx_memory_bytes. enter_op w.
  rewrite eval_memory_loop by apply iter_map_lookup. reflexivity.
Qed.

(** Every operation, run as a program without interference, does what the sequential model
    says. *)
Lemma perform_run op w : perform op w = run_op op w.
Proof.
  destruct op; [apply perform_set|apply perform_get|apply perform_del|apply perform_exists
    |apply perform_expire|apply perform_ttl|apply perform_persist|apply perform_size
    |apply perform_memory|by destruct w].
Qed.
End Eval.

Lemma eval_ext `{CxxRuntime} {A} clk clk' ts (p : prog A) d :
  (forall s, clk s = clk' s) -> eval clk ts p d = eval clk' ts p d.
Proof. intros Hc. revert d. induction p; intros d; simpl; rewrite ?Hc; eauto. Qed.

(** * Lock discipline

    [disciplined pl h p]: a program that holds the lock [h] and has passed the places of its
    operation before [pl] takes the lock once, reads data under it and writes data only
    under the exclusive one, reads the clock at later and later places, and returns as soon
    as it has released the lock, or without having taken it. *)

Definition returns {A} (p : prog A) : Prop := match p with Done _ => True | _ => False end.

Fixpoint disciplined {A} (pl : nat) (h : option mode) (p : prog A) : Prop :=
  match p with
  | Done _ => h = None /\ (pl <= at_lock)%nat
  | Fault => True
  | Now s k =>
      (pl <= s)%nat /\ (h = None -> (s < at_lock)%nat) /\ forall z, disciplined (S s) h (k z)
  | Acquire m k => h = None /\ (pl <= at_lock)%nat /\ disciplined (S at_lock) (Some m) k
  | Release k => h <> None /\ returns k
  | Find _ k => h <> None /\ forall it, disciplined pl h (k it)
  | Keys k => h <> None /\ forall l, disciplined pl h (k l)
  | Size k => h <> None /\ forall n, disciplined pl h (k n)
  | Assign _ _ k | Erase _ k => h = Some ExclusiveLock /\ disciplined pl h k
  end.

Section Discipline.
Context `{CxxRuntime}.

Lemma disciplined_leave pl m r : disciplined pl (Some m) (leave r).
Proof. done. Qed.

Lemma disciplined_is_expired m e k :
  (forall b pl, (S at_lock <= pl <= at_read)%nat -> disciplined pl (Some m) (k b)) ->
  disciplined (S at_lock) (Some m) (is_expired_prog e k).
Proof.
  intros Hk. unfold is_expired_prog, at_check, at_read, at_lock in *.
  destruct (expires_at e); [|apply Hk; lia]. cbn [disciplined].
  split_and!; [lia|done|intros now; apply Hk; lia].
Qed.

Lemma disciplined_find m key absent k :
  (forall e, disciplined (S at_lock) (Some m) (k e)) ->
  disciplined 0 None (find_prog m key absent k).
Proof.
  intros Hk. unfold find_prog. cbn [disciplined]. split_and!; [done|unfold at_lock; lia|done|].
  intros [e|]; [apply Hk|apply disciplined_leave].
Qed.

Lemma disciplined_memory pl m keys total : disciplined pl (Some m) (memory_loop keys total).
Proof. revert total. induction keys as [|key keys IH]; intros total; [done|]. by split. Qed.

Lemma op_disciplined op : disciplined 0 None (op_prog op).
Proof.
  destruct op; cbn [op_prog];
    try (apply disciplined_find; intros e; apply disciplined_is_expired; intros b pl Hpl;
         destruct b; try done).
  - unfold set_prog. destruct (_ <? _).
    + cbn [disciplined]. unfold at_entry, at_lock. split_and!; [lia|lia|]. intros now.
      destruct (deadline now ttl); cbn [checked disciplined]; unfold at_lock; try done.
    + cbn [disciplined]. unfold at_lock. split_and!; done || lia.
  - cbn [disciplined]. split_and!; [lia|done|]. intros now. by destruct (deadline now ttl).
  - destruct (expires_at e); [|done]. cbn [disciplined]. split_and!; [lia|done|]. intros now.
    by destruct (int64 _).
  - unfold size_prog. cbn [disciplined]. unfold at_lock. split_and!; done || lia.
  - unfold memory_prog. cbn [disciplined]. unfold at_lock. split_and!; [done|lia|done|].
    intros keys. apply disciplined_memory.
  - unfold clock_prog. cbn [disciplined]. unfold at_entry, at_lock. split_and!; [lia|lia|].
    intros now. split; [done|lia].
Qed.
End Discipline.

(** * Runs on demand

    The machine under a list of decisions; a decision that is not possible is skipped. *)

Inductive choice := RunThread | RunExpiry | Pass (dt : Z) | Stop.

Section Exec.
Context `{CxxRuntime} {A : Type}.

Definition thread_exec (t : Z) (d : gmap bytes Entry) (l : lock_state) (th : thread A)
    : option (gmap bytes Entry * lock_state * thread A) :=
  match th with
  | Idle (CRet _) => None
  | Idle (COp op k) => Some (d, l, InOp None (op_prog op) k)
  | InOp h p k =>
      match p with
      | Done r => Some (d, l, Idle (k r))
      | Fault => None
      | Now s q => Some (d, l, InOp h (q t) k)
      | Acquire m q => l' ← lock_for m l; Some (d, l', InOp (Some m) q k)
      | Release q => m ← h; Some (d, unlock_for m l, InOp None q k)
      | Find key q => Some (d, l, InOp h (q (d !! key)) k)
      | Keys q => Some (d, l, InOp h (q (map fst (iter_map _ d))) k)
      | Size q => Some (d, l, InOp h (q (Z.of_nat (size d))) k)
      | Assign key e q => Some (<[key := e]> d, l, InOp h q k)
      | Erase key q => Some (delete key d, l, InOp h q k)
      end
  end.

Lemma thread_exec_step t d l th d' l' th' :
  thread_exec t d l th = Some (d', l', th') -> thread_step t d l th d' l' th'.
Proof.
  destruct th as [[a|op k]|h p k]; [done|by intros [= <- <- <-]; constructor|].
  destruct p; cbn [thread_exec]; try done; try (by intros [= <- <- <-]; constructor).
  - destruct (lock_for m l) as [l2|] eqn:Hl; [|done]. intros [= <- <- <-]. by constructor.
  - destruct h as [m|]; [|done]. intros [= <- <- <-]. by constructor.
Qed.

Definition expiry_exec (t : Z) (stop : bool) (d : gmap bytes Entry) (l : lock_state) (x : expiry)
    : option (gmap bytes Entry * lock_state * expiry) :=
  match x with
  | ECheck => Some (d, l, if stop then EDone else ESleep)
  | ESleep => Some (d, l, EWait)
  | EWait => l' ← lock_for ExclusiveLock l; Some (d, l', ELocked)
  | ELocked => Some (d, l, EWalk t (map fst (iter_map _ d)))
  | EWalk now (key :: rest) => Some (visit now key d, l, EWalk now rest)
  | EWalk _ [] => Some (d, unlock_for ExclusiveLock l, ECheck)
  | EDone => None
  end.

Lemma expiry_exec_step t stop d l x d' l' x' :
  expiry_exec t stop d l x = Some (d', l', x') -> expiry_step t stop d l x d' l' x'.
Proof.
  destruct x as [| | | |now [|key rest]|]; try done; try (by intros [= <- <- <-]; constructor).
  unfold expiry_exec. destruct (lock_for _ l) as [l2|] eqn:Hl; [|done].
  intros [= <- <- <-]. by constructor.
Qed.

Definition machine_exec (c : choice) (m : machine A) : machine A :=
  let '(MkMachine d l t stop th x) := m in
  match c with
  | RunThread =>
      match thread_exec t d l th with
      | Some (d, l, th) => MkMachine d l t stop th x
      | None => m
      end
  | RunExpiry =>
      match expiry_exec t stop d l x with
      | Some (d, l, x) => MkMachine d l t stop th x
      | None => m
      end
  | Pass dt => MkMachine d l (t + Z.abs dt) stop th x
  | Stop => MkMachine d l t true th x
  end.

Lemma machine_exec_rtc c m : rtc machine_step m (machine_exec c m).
Proof.
  destruct m as [d l t stop th x]. destruct c; cbn [machine_exec].
  - destruct (thread_exec _ _ _ _) as [[[d' l'] th']|] eqn:He; [|done].
    apply rtc_once, ms_thread. by apply thread_exec_step.
  - destruct (expiry_exec _ _ _ _ _) as [[[d' l'] x']|] eqn:He; [|done].
    apply rtc_once, ms_expiry. by apply expiry_exec_step.
  - apply rtc_once, ms_time. lia.
  - apply rtc_once, ms_stop.
Qed.

Definition machine_run (cs : list choice) (m : machine A) : machine A :=
  fold_left (fun m c => machine_exec c m) cs m.

Lemma machine_run_rtc cs m : rtc machine_step m (machine_run cs m).
Proof.
  revert m. induction cs as [|c cs IH]; intros m; [done|].
  etrans; [apply machine_exec_rtc|apply IH].
Qed.
End Exec.
