(* ===== verification/Command.v ===== *)
(** Commands (src/commands/command.hpp): a RESP array of bulk strings with an upper-case
    name, and the replies the handlers share. *)

From S2P Require Import Prelude Cxx Charconv Resp World.

Open Scope Z_scope.

(** [std::toupper] and [std::tolower] in the C locale. *)
Definition toupper (c : ascii) : ascii :=
  let n := N_of_ascii c in
  if ((97 <=? n) && (n <=? 122))%N then ascii_of_N (n - 32) else c.
Definition tolower (c : ascii) : ascii :=
  let n := N_of_ascii c in
  if ((65 <=? n) && (n <=? 90))%N then ascii_of_N (n + 32) else c.

Definition upper (s : bytes) : bytes := map toupper s.
Definition lower (s : bytes) : bytes := map tolower s.

Record Command := MkCommand { name : bytes; args : list bytes }.

#[global] Instance Command_eq_dec : EqDecision Command.
Proof. solve_decision. Defined.

(** The loop over the elements after the name. *)
Fixpoint parse_command_args (elems : list RespValue) : option (list bytes) :=
  match elems with
  | [] => Some []
  | RespBulkString s :: rest =>
      match parse_command_args rest with
      | Some l => Some (s :: l)
      | None => None
      end
  | _ :: _ => None
  end.

Definition parse_command (val : RespValue) : option Command :=
  match val with
  | RespArray (RespBulkString n :: rest) =>
      match parse_command_args rest with
      | Some l => Some (MkCommand (upper n) l)
      | None => None
      end
  | _ => None
  end.

(** * Replies shared by the handlers *)

Definition kWrongType : RespValue :=
  RespError "WRONGTYPE Operation against a key holding the wrong kind of value"%b.

Definition wrong_args (n : bytes) : RespValue :=
  RespError ("ERR wrong number of arguments for '"%b ++ n ++ "' command"%b).

Definition err (msg : bytes) : RespValue := RespError msg.

Definition not_an_integer : RespValue :=
  err "ERR value is not an integer or out of range"%b.

(** * Facts *)

Lemma upper_idem s : upper (upper s) = upper s.
Proof.
  unfold upper. rewrite map_map. apply map_ext. intros c.
  destruct c as [[] [] [] [] [] [] [] []]; reflexivity.
Qed.

(** A command in the form the AOF writes it: name and arguments as bulk strings. *)
Definition command_value (c : Command) : RespValue :=
  RespArray (RespBulkString (name c) :: map RespBulkString (args c)).

Lemma parse_command_args_bulk l : parse_command_args (map RespBulkString l) = Some l.
Proof. induction l as [|s l IH]; simpl; [done|]. by rewrite IH. Qed.

Lemma parse_command_args_inv elems l :
  parse_command_args elems = Some l -> elems = map RespBulkString l.
Proof.
  revert l. induction elems as [|v elems IH]; intros l; simpl; [by intros [= <-]|].
  destruct v; try done. destruct (parse_command_args elems) as [l'|]; [|done].
  intros [= <-]. simpl. by rewrite (IH l').
Qed.

Lemma parse_command_value n l :
  parse_command (command_value (MkCommand n l)) = Some (MkCommand (upper n) l).
Proof. simpl. by rewrite parse_command_args_bulk. Qed.
