(* ===== verification/PubSubBroker.v ===== *)
(** The publish/subscribe broker (src/server/pubsub_broker.hpp, pubsub_broker.cpp), with
    the push frames and the write callback of src/server/connection.cpp it calls. *)

From S2P Require Import Prelude Cxx Charconv Resp World.

Open Scope Z_scope.

(** * Push frames (connection.cpp) *)

Definition make_subscribe_reply (kind channel : bytes) (count : Z) : bytes :=
  serialize (RespArray [RespBulkString kind; RespBulkString channel; RespInteger count]).

Definition make_message_frame (channel message : bytes) : bytes :=
  serialize (RespArray [RespBulkString "message"%b; RespBulkString channel;
                        RespBulkString message]).

(** [Connection::push_message]: post a write of the frame to the event loop. *)
Definition push_message (self : conn_id) (channel message : bytes) : M unit :=
  modify (add_posted [(self, make_message_frame channel message)]).

(** Calling the closure [[self, ch](std::string msg)] of handle_subscribe. *)
Definition call_WriteFn (fn : WriteFn) (msg : bytes) : M unit :=
  push_message (wf_self fn) (wf_ch fn) msg.

(** * Broker operations *)

(** The scan of subscribe: replace the callback of [sid] if it is there. *)
Fixpoint replace_sub (sid : conn_id) (fn : WriteFn) (subs : list Subscriber)
    : option (list Subscriber) :=
  match subs with
  | [] => None
  | s :: rest =>
      if decide (id s = sid) then Some (MkSubscriber sid fn :: rest)
      else match replace_sub sid fn rest with
           | Some rest => Some (s :: rest)
           | None => None
           end
  end.

Definition PubSubBroker_subscribe (channel : bytes) (sid : conn_id) (fn : WriteFn) : M Z :=
  fun w =>
  let subs := default [] (channels_ w !! channel) in
  let subs' := match replace_sub sid fn subs with
               | Some subs' => subs'
               | None => subs ++ [MkSubscriber sid fn]
               end in
  (Ret (zlen subs'), set_channels (<[channel := subs']> (channels_ w)) w).

(** erase(remove_if(id == sid)). *)
Definition remove_sub (sid : conn_id) (subs : list Subscriber) : list Subscriber :=
  filter (fun s => id s <> sid) subs.

Definition store_subs (channel : bytes) (subs : list Subscriber)
    (m : gmap bytes (list Subscriber)) : gmap bytes (list Subscriber) :=
  match subs with
  | [] => delete channel m
  | _ => <[channel := subs]> m
  end.

Definition PubSubBroker_unsubscribe (channel : bytes) (sid : conn_id) : M Z := fun w =>
  match channels_ w !! channel with
  | None => (Ret 0, w)
  | Some subs =>
      let subs := remove_sub sid subs in
      (Ret (zlen subs), set_channels (store_subs channel subs (channels_ w)) w)
  end.

(** The walk over all channels, in the container's order. *)
Fixpoint unsubscribe_walk (sid : conn_id) (l : list (bytes * list Subscriber))
    (m : gmap bytes (list Subscriber)) (removed : list bytes)
    : list bytes * gmap bytes (list Subscriber) :=
  match l with
  | [] => (removed, m)
  | (ch, subs) :: l =>
      let subs' := remove_sub sid subs in
      let removed := if decide (length subs' = length subs) then removed else removed ++ [ch] in
      unsubscribe_walk sid l (store_subs ch subs' m) removed
  end.

Definition PubSubBroker_unsubscribe_all `{CxxRuntime} (sid : conn_id) : M (list bytes) :=
  fun w =>
  let '(removed, m) := unsubscribe_walk sid (iter_map _ (channels_ w)) (channels_ w) [] in
  (Ret removed, set_channels m w).

(** The calls of the snapshotted callbacks, in order. *)
Fixpoint call_all (fns : list WriteFn) (message : bytes) : M unit :=
  match fns with
  | [] => mret tt
  | fn :: fns => call_WriteFn fn message;; call_all fns message
  end.

Definition PubSubBroker_publish (channel message : bytes) : M Z :=
  found ← gets (fun w => channels_ w !! channel);
  match found with
  | None => mret 0
  | Some subs =>
      let callbacks := map write subs in
      call_all callbacks message;;
      mret (zlen callbacks)
  end.
