(* ===== verification/DoubleFmt.v ===== *)
(** IEEE double arithmetic and [std::to_string(double)], as METRICS uses them. *)

From S2P Require Import Prelude Cxx Charconv.
From Corelib Require Import SpecFloat.

Open Scope Z_scope.

(** [static_cast<double>] of an integer, and double division (round to nearest even). *)
Definition double_of_int (z : Z) : spec_float := binary_normalize 53 1024 z 0 false.
Definition double_div (x y : spec_float) : spec_float := SFdiv 53 1024 x y.

(** [num / den] rounded to the nearest integer, ties to even. *)
Definition round_half_even (num den : Z) : Z :=
  let q := num / den in
  let r := num mod den in
  if 2 * r <? den then q
  else if den <? 2 * r then q + 1
  else if Z.even q then q else q + 1.

(** Six decimals, padded with zeros on the left. *)
Definition six_digits (n : Z) : bytes :=
  let s := to_string n in replicate (6 - length s) "0"%char ++ s.

(** The %f format: the exact value [m * 2^e] rounded to six decimals. *)
Definition to_string_double (x : spec_float) : bytes :=
  match x with
  | S754_zero s => (if s : bool then "-"%b else []) ++ "0.000000"%b
  | S754_infinity s => if s : bool then "-inf"%b else "inf"%b
  | S754_nan => "nan"%b
  | S754_finite s m e =>
      let micro := if 0 <=? e then Z.pos m * 2 ^ e * 1000000
                   else round_half_even (Z.pos m * 1000000) (2 ^ (- e)) in
      (if s : bool then "-"%b else [])
      ++ to_string (micro / 1000000) ++ "."%b ++ six_digits (micro mod 1000000)
  end.

Example to_string_double_third :
  to_string_double (double_div (double_of_int 10) (double_of_int 3)) = "3.333333"%b.
Proof. reflexivity. Qed.
