(* ===== verification/GenericCmds.v ===== *)
(** Generic commands (src/commands/handlers/generic_cmds.cpp) and the uptime of
    src/server/server_stats.hpp. *)

From S2P Require Import Prelude Cxx Charconv DoubleFmt Resp World KvStore Command.

Open Scope Z_scope.

Section GenericCmds.
Context `{CxxRuntime} `{Schedule}.

(** [ServerStats::uptime_seconds]. *)
Definition uptime_seconds : M Z :=
  op ← next_op;
  st ← gets stats;
  now ← clock_now op at_entry;
  dur ← lift (int64 (now - start_time st));
  mret (Z.quot dur 1000000000).

(** PING [message] *)
Definition cmd_ping (cmd : Command) : M RespValue :=
  match args cmd with
  | [] => mret (RespSimpleString "PONG"%b)
  | [msg] => mret (RespBulkString msg)
  | _ => mret (wrong_args (name cmd))
  end.

(** The counting loops of DEL and EXISTS; the count is at most the number of keys. *)
Fixpoint del_loop (keys : list bytes) (count : Z) : M Z :=
  match keys with
  | [] => mret count
  | key :: keys => n ← KvStore_del key; del_loop keys (count + n)
  end.

Fixpoint exists_loop (keys : list bytes) (count : Z) : M Z :=
  match keys with
  | [] => mret count
  | key :: keys =>
      b ← KvStore_exists key;
      exists_loop keys (if b : bool then count + 1 else count)
  end.

(** DEL key [key ...] *)
Definition cmd_del (cmd : Command) : M RespValue :=
  match args cmd with
  | [] => mret (wrong_args (name cmd))
  | keys => count ← del_loop keys 0; mret (RespInteger count)
  end.

(** EXISTS key [key ...] *)
Definition cmd_exists (cmd : Command) : M RespValue :=
  match args cmd with
  | [] => mret (wrong_args (name cmd))
  | keys => count ← exists_loop keys 0; mret (RespInteger count)
  end.

(** EXPIRE key seconds: [std::chrono::seconds] becomes milliseconds in int64. *)
Definition cmd_expire (cmd : Command) : M RespValue :=
  match args cmd with
  | [key; s] =>
      match parse_int64 s with
      | None => mret not_an_integer
      | Some secs =>
          if secs <? 0 then mret not_an_integer
          else
            ttl ← lift (int64 (secs * 1000));
            ok ← KvStore_expire key ttl;
            mret (RespInteger (if ok : bool then 1 else 0))
      end
  | _ => mret (wrong_args (name cmd))
  end.

(** TTL key *)
Definition cmd_ttl (cmd : Command) : M RespValue :=
  match args cmd with
  | [key] =>
      ms ← KvStore_ttl key;
      if ms <? 0 then mret (RespInteger ms)
      else mret (RespInteger (Z.quot (ms + 999) 1000))
  | _ => mret (wrong_args (name cmd))
  end.

(** PERSIST key *)
Definition cmd_persist (cmd : Command) : M RespValue :=
  match args cmd with
  | [key] => ok ← KvStore_persist key; mret (RespInteger (if ok : bool then 1 else 0))
  | _ => mret (wrong_args (name cmd))
  end.

(** HEALTH *)
Definition cmd_health (cmd : Command) : M RespValue :=
  match args cmd with
  | [] => mret (RespSimpleString "OK"%b)
  | _ => mret (wrong_args (name cmd))
  end.

(** READY *)
Definition cmd_ready (cmd : Command) : M RespValue :=
  match args cmd with
  | [] =>
      st ← gets stats;
      if ready st then mret (RespSimpleString "READY"%b)
      else mret (RespError "ERR server not ready"%b)
  | _ => mret (wrong_args (name cmd))
  end.

(** METRICS *)
Definition metric (label text : bytes) : bytes := label ++ text ++ [LF].

Definition cmd_metrics (cmd : Command) : M RespValue :=
  match args cmd with
  | [] =>
      up ← uptime_seconds;
      st ← gets stats;
      let uptime := Z.max 1 up in
      let qps := double_div (double_of_int (total_commands st)) (double_of_int uptime) in
      up2 ← uptime_seconds;
      keys ← KvStore_size;
      mem ← KvStore_approx_memory_bytes;
      mret (RespBulkString
        (metric "vortek_uptime_seconds "%b (to_string up2)
         ++ metric "vortek_connected_clients "%b (to_string (connected_clients st))
         ++ metric "vortek_total_commands_processed "%b (to_string (total_commands st))
         ++ metric "vortek_commands_per_second "%b (to_string_double qps)
         ++ metric "vortek_key_count "%b (to_string keys)
         ++ metric "vortek_memory_bytes_approx "%b (to_string mem)
         ++ metric "vortek_ready "%b (to_string (if ready st then 1 else 0))))
  | _ => mret (wrong_args (name cmd))
  end.

(** * INFO [section] *)

Definition section_server : M bytes :=
  uptime_sec ← uptime_seconds;
  st ← gets stats;
  let uptime_days := Z.quot uptime_sec 86400 in
  mret ("# Server"%b ++ crlf
        ++ "vortek_version:0.1.0"%b ++ crlf
        ++ "tcp_port:"%b ++ to_string (port st) ++ crlf
        ++ "uptime_in_seconds:"%b ++ to_string uptime_sec ++ crlf
        ++ "uptime_in_days:"%b ++ to_string uptime_days ++ crlf
        ++ "aof_enabled:"%b ++ (if aof_enabled st then "1"%b else "0"%b) ++ crlf).

Definition section_clients : M bytes :=
  st ← gets stats;
  mret ("# Clients"%b ++ crlf
        ++ "connected_clients:"%b ++ to_string (connected_clients st) ++ crlf).

Definition section_stats : M bytes :=
  st ← gets stats;
  mret ("# Stats"%b ++ crlf
        ++ "total_commands_processed:"%b ++ to_string (total_commands st) ++ crlf).

Definition section_keyspace : M bytes :=
  keys ← KvStore_size;
  if keys =? 0 then mret ("# Keyspace"%b ++ crlf)
  else mret ("# Keyspace"%b ++ crlf ++ "db0:keys="%b ++ to_string keys ++ crlf).

(** [if (section == n || "all" || "everything") body += ...], with a blank line between
    sections. *)
Definition wants (section n : bytes) : bool :=
  bool_decide (section = n) || bool_decide (section = "all"%b)
  || bool_decide (section = "everything"%b).

Definition info_section (section n : bytes) (text : M bytes) (body : bytes) : M bytes :=
  if wants section n then
    t ← text;
    mret ((match body with [] => [] | _ => body ++ crlf end) ++ t)
  else mret body.

Definition cmd_info (cmd : Command) : M RespValue :=
  match args cmd with
  | _ :: _ :: _ => mret (RespError "ERR syntax error"%b)
  | a =>
      let section := lower (match a with [] => "all"%b | s :: _ => s end) in
      body ← info_section section "server"%b section_server [];
      body ← info_section section "clients"%b section_clients body;
      body ← info_section section "stats"%b section_stats body;
      body ← info_section section "keyspace"%b section_keyspace body;
      match body, a with
      | [], [] => lift UB  (* cmd.args[0] on an empty vector *)
      | [], s :: _ => mret (RespError ("ERR unknown INFO section '"%b ++ s ++ "'"%b))
      | _, _ => mret (RespBulkString body)
      end
  end.
End GenericCmds.
