(* ===== verification/StringCmds.v ===== *)
(** String commands (src/commands/handlers/string_cmds.cpp). *)

From S2P Require Import Prelude Cxx Charconv Resp World KvStore Command.

Open Scope Z_scope.

Section StringCmds.
Context `{CxxRuntime} `{Schedule}.

Definition syntax_error : RespValue := err "ERR syntax error"%b.
Definition invalid_expire : RespValue := err "ERR invalid expire time in 'set' command"%b.

Record SetOptions := MkSetOptions { opt_ttl : Z; opt_nx : bool; opt_xx : bool }.

(** The option loop of SET. [inl] is an early return with an error reply; [EX] converts
    seconds to milliseconds in int64. *)
Fixpoint set_options (l : list bytes) (o : SetOptions) : Out (RespValue + SetOptions) :=
  match l with
  | [] => Ret (inr o)
  | f :: l =>
      let flag := upper f in
      if decide (flag = "NX"%b) then set_options l (MkSetOptions (opt_ttl o) true (opt_xx o))
      else if decide (flag = "XX"%b) then
        set_options l (MkSetOptions (opt_ttl o) (opt_nx o) true)
      else if decide (flag = "EX"%b) then
        match l with
        | [] => Ret (inl syntax_error)
        | s :: l =>
            match parse_int64 s with
            | None => Ret (inl invalid_expire)
            | Some secs =>
                if secs <=? 0 then Ret (inl invalid_expire)
                else out_bind (int64 (secs * 1000)) (fun ttl =>
                     set_options l (MkSetOptions ttl (opt_nx o) (opt_xx o)))
            end
        end
      else if decide (flag = "PX"%b) then
        match l with
        | [] => Ret (inl syntax_error)
        | s :: l =>
            match parse_int64 s with
            | None => Ret (inl invalid_expire)
            | Some ms =>
                if ms <=? 0 then Ret (inl invalid_expire)
                else set_options l (MkSetOptions ms (opt_nx o) (opt_xx o))
            end
        end
      else Ret (inl syntax_error)
  end.

(** SET key value [EX seconds] [PX milliseconds] [NX] [XX] *)
Definition cmd_set (cmd : Command) : M RespValue :=
  match args cmd with
  | key :: v :: opts =>
      r ← lift (set_options opts (MkSetOptions 0 false false));
      match r with
      | inl reply => mret reply
      | inr o =>
          if opt_nx o && opt_xx o then
            mret (err "ERR XX and NX options at the same time are not compatible"%b)
          else
            ex ← KvStore_exists key;
            if opt_nx o && ex then mret RespNull
            else if opt_xx o && negb ex then mret RespNull
            else
              KvStore_set key (StringValue v) (opt_ttl o);;
              mret (RespSimpleString "OK"%b)
      end
  | _ => mret (wrong_args (name cmd))
  end.

(** GET key *)
Definition cmd_get (cmd : Command) : M RespValue :=
  match args cmd with
  | [key] =>
      val ← KvStore_get key;
      match val with
      | None => mret RespNull
      | Some v => s ← lift (as_string v); mret (RespBulkString s)
      end
  | _ => mret (wrong_args (name cmd))
  end.

(** The second half of apply_delta: overflow check, store, reply. *)
Definition add_delta (key : bytes) (delta num : Z) : M RespValue :=
  if ((0 <? delta) && (INT64_MAX - delta <? num))
     || ((delta <? 0) && (num <? INT64_MIN - delta))
  then mret (RespError "ERR increment or decrement would overflow"%b)
  else
    num' ← lift (int64 (num + delta));
    KvStore_set key (StringValue (to_string num')) 0;;
    mret (RespInteger num').

(** Shared logic of INCR, DECR, INCRBY and DECRBY. *)
Definition apply_delta (key : bytes) (delta : Z) : M RespValue :=
  current ← KvStore_get key;
  match current with
  | None => add_delta key delta 0
  | Some v =>
      s ← lift (as_string v);
      match parse_int64 s with
      | None => mret (RespError "ERR value is not an integer or out of range"%b)
      | Some num => add_delta key delta num
      end
  end.

Definition cmd_incr (cmd : Command) : M RespValue :=
  match args cmd with
  | [key] => apply_delta key 1
  | _ => mret (wrong_args (name cmd))
  end.

Definition cmd_decr (cmd : Command) : M RespValue :=
  match args cmd with
  | [key] => apply_delta key (-1)
  | _ => mret (wrong_args (name cmd))
  end.

Definition cmd_incrby (cmd : Command) : M RespValue :=
  match args cmd with
  | [key; s] =>
      match parse_int64 s with
      | None => mret not_an_integer
      | Some delta => apply_delta key delta
      end
  | _ => mret (wrong_args (name cmd))
  end.

Definition cmd_decrby (cmd : Command) : M RespValue :=
  match args cmd with
  | [key; s] =>
      match parse_int64 s with
      | None => mret not_an_integer
      | Some delta =>
          if delta =? INT64_MIN then mret (err "ERR increment or decrement would overflow"%b)
          else apply_delta key (- delta)
      end
  | _ => mret (wrong_args (name cmd))
  end.
End StringCmds.
