(* ===== verification/ListCmds.v ===== *)
(** List commands (src/commands/handlers/list_cmds.cpp). *)

From S2P Require Import Prelude Cxx Charconv Resp World KvStore Command.

Open Scope Z_scope.

Section ListCmds.
Context `{CxxRuntime} `{Schedule}.

(** The existing list, an empty one, or ([inl]) the WRONGTYPE reply. *)
Definition get_or_create_list (key : bytes) : M (RespValue + list bytes) :=
  val ← KvStore_get key;
  match val with
  | None => mret (inr [])
  | Some v =>
      if is_list v then l ← lift (as_list v); mret (inr l)
      else mret (inl kWrongType)
  end.

(** push_front of the arguments, one after the other. *)
Definition push_front_all (xs l : list bytes) : list bytes :=
  fold_left (fun l x => x :: l) xs l.
Definition push_back_all (xs l : list bytes) : list bytes :=
  fold_left (fun l x => l ++ [x]) xs l.

Definition push_list (push : list bytes -> list bytes -> list bytes) (cmd : Command)
    : M RespValue :=
  match args cmd with
  | key :: ((_ :: _) as xs) =>
      r ← get_or_create_list key;
      match r with
      | inl e => mret e
      | inr l =>
          let l := push xs l in
          KvStore_set key (ListValue l) 0;;
          mret (RespInteger (zlen l))
      end
  | _ => mret (wrong_args (name cmd))
  end.

(** LPUSH key element [element ...] *)
Definition cmd_lpush : Command -> M RespValue := push_list push_front_all.

(** RPUSH key element [element ...] *)
Definition cmd_rpush : Command -> M RespValue := push_list push_back_all.

(** The tail of LPOP and RPOP: drop an emptied key, otherwise store the rest. *)
Definition store_list (key : bytes) (l : list bytes) : M unit :=
  match l with
  | [] => KvStore_del key;; mret tt
  | _ => KvStore_set key (ListValue l) 0
  end.

(** LPOP key *)
Definition cmd_lpop (cmd : Command) : M RespValue :=
  match args cmd with
  | [key] =>
      val ← KvStore_get key;
      match val with
      | None => mret RespNull
      | Some v =>
          if is_list v then
            l ← lift (as_list v);
            match l with
            | [] => mret RespNull
            | elem :: rest => store_list key rest;; mret (RespBulkString elem)
            end
          else mret kWrongType
      end
  | _ => mret (wrong_args (name cmd))
  end.

(** RPOP key *)
Definition cmd_rpop (cmd : Command) : M RespValue :=
  match args cmd with
  | [key] =>
      val ← KvStore_get key;
      match val with
      | None => mret RespNull
      | Some v =>
          if is_list v then
            l ← lift (as_list v);
            match last l with
            | None => mret RespNull
            | Some elem =>
                store_list key (removelast l);; mret (RespBulkString elem)
            end
          else mret kWrongType
      end
  | _ => mret (wrong_args (name cmd))
  end.

(** LLEN key *)
Definition cmd_llen (cmd : Command) : M RespValue :=
  match args cmd with
  | [key] =>
      val ← KvStore_get key;
      match val with
      | None => mret (RespInteger 0)
      | Some v =>
          if is_list v then l ← lift (as_list v); mret (RespInteger (zlen l))
          else mret kWrongType
      end
  | _ => mret (wrong_args (name cmd))
  end.

(** [elems[i]]: undefined outside the deque. *)
Definition deque_at (l : list bytes) (i : Z) : Out bytes :=
  if (0 <=? i) && (i <? zlen l) then
    match l !! Z.to_nat i with Some x => Ret x | None => UB end
  else UB.

(** The loop [for (i = start; i <= stop; ++i)] of LRANGE; [n] bounds its iterations. *)
Fixpoint range_loop (n : nat) (l : list bytes) (i stop : Z) (acc : list RespValue)
    : Out (list RespValue) :=
  match n with
  | O => if i <=? stop then NoFuel else Ret acc
  | S n =>
      if i <=? stop then
        out_bind (deque_at l i) (fun x =>
        range_loop n l (i + 1) stop (acc ++ [RespBulkString x]))
      else Ret acc
  end.

(** Negative indices count from the end; the range is then clipped to the list. *)
Definition range_bounds (n start stop : Z) : Z * Z :=
  let start := if start <? 0 then start + n else start in
  let stop := if stop <? 0 then stop + n else stop in
  let start := if start <? 0 then 0 else start in
  let stop := if n <=? stop then n - 1 else stop in
  (start, stop).

(** LRANGE key start stop *)
Definition cmd_lrange (cmd : Command) : M RespValue :=
  match args cmd with
  | [key; a; b] =>
      val ← KvStore_get key;
      match val with
      | None => mret (RespArray [])
      | Some v =>
          if is_list v then
            l ← lift (as_list v);
            match parse_int64 a, parse_int64 b with
            | Some start, Some stop =>
                let '(start, stop) := range_bounds (zlen l) start stop in
                r ← lift (if start <=? stop
                          then range_loop (length l) l start stop []
                          else Ret []);
                mret (RespArray r)
            | _, _ => mret not_an_integer
            end
          else mret kWrongType
      end
  | _ => mret (wrong_args (name cmd))
  end.

(** LINDEX key index *)
Definition cmd_lindex (cmd : Command) : M RespValue :=
  match args cmd with
  | [key; a] =>
      val ← KvStore_get key;
      match val with
      | None => mret RespNull
      | Some v =>
          if is_list v then
            l ← lift (as_list v);
            match parse_int64 a with
            | None => mret not_an_integer
            | Some idx =>
                let n := zlen l in
                let idx := if idx <? 0 then idx + n else idx in
                if (idx <? 0) || (n <=? idx) then mret RespNull
                else x ← lift (deque_at l idx); mret (RespBulkString x)
            end
          else mret kWrongType
      end
  | _ => mret (wrong_args (name cmd))
  end.
End ListCmds.
