(* ===== verification/SetCmds.v ===== *)
(** Set commands (src/commands/handlers/set_cmds.cpp). *)

From S2P Require Import Prelude Cxx Charconv Resp World KvStore Command.

Open Scope Z_scope.

Section SetCmds.
Context `{CxxRuntime} `{Schedule}.

Definition get_or_create_set (key : bytes) : M (RespValue + gset bytes) :=
  val ← KvStore_get key;
  match val with
  | None => mret (inr ∅)
  | Some v =>
      if is_set v then s ← lift (as_set v); mret (inr s)
      else mret (inl kWrongType)
  end.

(** The insertion loop of SADD and the erasing loop of SREM, with their counters. *)
Fixpoint insert_loop (xs : list bytes) (s : gset bytes) (added : Z) : gset bytes * Z :=
  match xs with
  | [] => (s, added)
  | x :: xs =>
      insert_loop xs ({[x]} ∪ s) (if decide (x ∈ s) then added else added + 1)
  end.

Fixpoint erase_loop (xs : list bytes) (s : gset bytes) (removed : Z) : gset bytes * Z :=
  match xs with
  | [] => (s, removed)
  | x :: xs =>
      erase_loop xs (s ∖ {[x]}) (if decide (x ∈ s) then removed + 1 else removed)
  end.

(** SADD key member [member ...] *)
Definition cmd_sadd (cmd : Command) : M RespValue :=
  match args cmd with
  | key :: ((_ :: _) as xs) =>
      r ← get_or_create_set key;
      match r with
      | inl e => mret e
      | inr s =>
          let '(s, added) := insert_loop xs s 0 in
          KvStore_set key (SetValue s) 0;;
          mret (RespInteger added)
      end
  | _ => mret (wrong_args (name cmd))
  end.

(** SREM key member [member ...] *)
Definition cmd_srem (cmd : Command) : M RespValue :=
  match args cmd with
  | key :: ((_ :: _) as xs) =>
      val ← KvStore_get key;
      match val with
      | None => mret (RespInteger 0)
      | Some v =>
          if is_set v then
            s ← lift (as_set v);
            let '(s, removed) := erase_loop xs s 0 in
            (if decide (s = ∅) then KvStore_del key;; mret tt
             else KvStore_set key (SetValue s) 0);;
            mret (RespInteger removed)
          else mret kWrongType
      end
  | _ => mret (wrong_args (name cmd))
  end.

(** SMEMBERS key *)
Definition cmd_smembers (cmd : Command) : M RespValue :=
  match args cmd with
  | [key] =>
      val ← KvStore_get key;
      match val with
      | None => mret (RespArray [])
      | Some v =>
          if is_set v then
            s ← lift (as_set v);
            mret (RespArray (map RespBulkString (iter_set s)))
          else mret kWrongType
      end
  | _ => mret (wrong_args (name cmd))
  end.

(** SISMEMBER key member *)
Definition cmd_sismember (cmd : Command) : M RespValue :=
  match args cmd with
  | [key; x] =>
      val ← KvStore_get key;
      match val with
      | None => mret (RespInteger 0)
      | Some v =>
          if is_set v then
            s ← lift (as_set v);
            mret (RespInteger (if decide (x ∈ s) then 1 else 0))
          else mret kWrongType
      end
  | _ => mret (wrong_args (name cmd))
  end.

(** SCARD key *)
Definition cmd_scard (cmd : Command) : M RespValue :=
  match args cmd with
  | [key] =>
      val ← KvStore_get key;
      match val with
      | None => mret (RespInteger 0)
      | Some v =>
          if is_set v then
            s ← lift (as_set v); mret (RespInteger (Z.of_nat (size s)))
          else mret kWrongType
      end
  | _ => mret (wrong_args (name cmd))
  end.
End SetCmds.
