(* ===== verification/HashCmds.v ===== *)
(** Hash commands (src/commands/handlers/hash_cmds.cpp). *)

From S2P Require Import Prelude Cxx Charconv Resp World KvStore Command.

Open Scope Z_scope.

Section HashCmds.
Context `{CxxRuntime} `{Schedule}.

Definition get_or_create_hash (key : bytes) : M (RespValue + gmap bytes bytes) :=
  val ← KvStore_get key;
  match val with
  | None => mret (inr ∅)
  | Some v =>
      if is_hash v then h ← lift (as_hash v); mret (inr h)
      else mret (inl kWrongType)
  end.

(** The loop of HSET over field/value pairs ([i += 2]); reading [args[i + 1]] behind the
    last argument would be undefined, and the arity test excludes it. *)
Fixpoint hset_loop (l : list bytes) (h : gmap bytes bytes) (added : Z)
    : Out (gmap bytes bytes * Z) :=
  match l with
  | [] => Ret (h, added)
  | [_] => UB
  | f :: v :: l =>
      hset_loop l (<[f := v]> h)
        (match h !! f with Some _ => added | None => added + 1 end)
  end.

(** HSET key field value [field value ...] *)
Definition cmd_hset (cmd : Command) : M RespValue :=
  if (zlen (args cmd) <? 3) || (zlen (args cmd) mod 2 =? 0) then mret (wrong_args (name cmd))
  else
    match args cmd with
    | [] => lift UB
    | key :: l =>
        r ← get_or_create_hash key;
        match r with
        | inl e => mret e
        | inr h =>
            r ← lift (hset_loop l h 0);
            let '(h, added) := r in
            KvStore_set key (HashValue h) 0;;
            mret (RespInteger added)
        end
    end.

(** HGET key field *)
Definition cmd_hget (cmd : Command) : M RespValue :=
  match args cmd with
  | [key; f] =>
      val ← KvStore_get key;
      match val with
      | None => mret RespNull
      | Some v =>
          if is_hash v then
            h ← lift (as_hash v);
            match h !! f with
            | None => mret RespNull
            | Some x => mret (RespBulkString x)
            end
          else mret kWrongType
      end
  | _ => mret (wrong_args (name cmd))
  end.

Fixpoint hdel_loop (l : list bytes) (h : gmap bytes bytes) (removed : Z)
    : gmap bytes bytes * Z :=
  match l with
  | [] => (h, removed)
  | f :: l =>
      hdel_loop l (delete f h)
        (match h !! f with Some _ => removed + 1 | None => removed end)
  end.

(** HDEL key field [field ...] *)
Definition cmd_hdel (cmd : Command) : M RespValue :=
  match args cmd with
  | key :: ((_ :: _) as fs) =>
      val ← KvStore_get key;
      match val with
      | None => mret (RespInteger 0)
      | Some v =>
          if is_hash v then
            h ← lift (as_hash v);
            let '(h, removed) := hdel_loop fs h 0 in
            (if decide (h = ∅) then KvStore_del key;; mret tt
             else KvStore_set key (HashValue h) 0);;
            mret (RespInteger removed)
          else mret kWrongType
      end
  | _ => mret (wrong_args (name cmd))
  end.

(** HGETALL key *)
Definition cmd_hgetall (cmd : Command) : M RespValue :=
  match args cmd with
  | [key] =>
      val ← KvStore_get key;
      match val with
      | None => mret (RespArray [])
      | Some v =>
          if is_hash v then
            h ← lift (as_hash v);
            mret (RespArray (flat_map (fun fv => [RespBulkString (fst fv); RespBulkString (snd fv)])
                                      (iter_map _ h)))
          else mret kWrongType
      end
  | _ => mret (wrong_args (name cmd))
  end.

(** HEXISTS key field *)
Definition cmd_hexists (cmd : Command) : M RespValue :=
  match args cmd with
  | [key; f] =>
      val ← KvStore_get key;
      match val with
      | None => mret (RespInteger 0)
      | Some v =>
          if is_hash v then
            h ← lift (as_hash v);
            mret (RespInteger (match h !! f with Some _ => 1 | None => 0 end))
          else mret kWrongType
      end
  | _ => mret (wrong_args (name cmd))
  end.

(** HLEN key *)
Definition cmd_hlen (cmd : Command) : M RespValue :=
  match args cmd with
  | [key] =>
      val ← KvStore_get key;
      match val with
      | None => mret (RespInteger 0)
      | Some v =>
          if is_hash v then
            h ← lift (as_hash v); mret (RespInteger (Z.of_nat (size h)))
          else mret kWrongType
      end
  | _ => mret (wrong_args (name cmd))
  end.
End HashCmds.
