(* ===== verification/Dispatcher.v ===== *)
(** Command dispatch (src/commands/dispatcher.hpp, dispatcher.cpp), the registration
    functions of the handlers, and PUBLISH (src/commands/handlers/pubsub_cmds.cpp). *)

From S2P Require Import Prelude Cxx Resp World KvStore Command PubSubBroker GenericCmds.
From S2P Require Import StringCmds ListCmds SetCmds HashCmds.

Open Scope Z_scope.

Definition HandlerFn : Type := Command -> M RespValue.

Section Dispatcher.
Context `{CxxRuntime} `{Schedule}.

(** PUBLISH channel message *)
Definition cmd_publish (cmd : Command) : M RespValue :=
  match args cmd with
  | [channel; message] =>
      count ← PubSubBroker_publish channel message;
      mret (RespInteger count)
  | _ => mret (RespError "ERR wrong number of arguments for 'publish' command"%b)
  end.

(** [handlers_.emplace]: a name that is already registered keeps its handler. *)
Definition register_handler (n : bytes) (fn : HandlerFn) (d : gmap bytes HandlerFn)
    : gmap bytes HandlerFn :=
  match d !! n with
  | Some _ => d
  | None => <[n := fn]> d
  end.

Definition register_all (l : list (bytes * HandlerFn)) (d : gmap bytes HandlerFn)
    : gmap bytes HandlerFn :=
  fold_left (fun d nf => register_handler (fst nf) (snd nf) d) l d.

Definition generic_handlers : list (bytes * HandlerFn) :=
  [("PING"%b, cmd_ping); ("DEL"%b, cmd_del); ("EXISTS"%b, cmd_exists);
   ("EXPIRE"%b, cmd_expire); ("TTL"%b, cmd_ttl); ("PERSIST"%b, cmd_persist);
   ("HEALTH"%b, cmd_health); ("INFO"%b, cmd_info); ("READY"%b, cmd_ready);
   ("METRICS"%b, cmd_metrics)].
Definition string_handlers : list (bytes * HandlerFn) :=
  [("SET"%b, cmd_set); ("GET"%b, cmd_get); ("INCR"%b, cmd_incr); ("DECR"%b, cmd_decr);
   ("INCRBY"%b, cmd_incrby); ("DECRBY"%b, cmd_decrby)].
Definition list_handlers : list (bytes * HandlerFn) :=
  [("LPUSH"%b, cmd_lpush); ("RPUSH"%b, cmd_rpush); ("LPOP"%b, cmd_lpop);
   ("RPOP"%b, cmd_rpop); ("LLEN"%b, cmd_llen); ("LRANGE"%b, cmd_lrange);
   ("LINDEX"%b, cmd_lindex)].
Definition set_handlers : list (bytes * HandlerFn) :=
  [("SADD"%b, cmd_sadd); ("SREM"%b, cmd_srem); ("SMEMBERS"%b, cmd_smembers);
   ("SISMEMBER"%b, cmd_sismember); ("SCARD"%b, cmd_scard)].
Definition hash_handlers : list (bytes * HandlerFn) :=
  [("HSET"%b, cmd_hset); ("HGET"%b, cmd_hget); ("HDEL"%b, cmd_hdel);
   ("HGETALL"%b, cmd_hgetall); ("HEXISTS"%b, cmd_hexists); ("HLEN"%b, cmd_hlen)].
Definition pubsub_handlers : list (bytes * HandlerFn) := [("PUBLISH"%b, cmd_publish)].

Definition register_generic : gmap bytes HandlerFn -> gmap bytes HandlerFn :=
  register_all generic_handlers.
Definition register_string : gmap bytes HandlerFn -> gmap bytes HandlerFn :=
  register_all string_handlers.
Definition register_list : gmap bytes HandlerFn -> gmap bytes HandlerFn :=
  register_all list_handlers.
Definition register_set : gmap bytes HandlerFn -> gmap bytes HandlerFn :=
  register_all set_handlers.
Definition register_hash : gmap bytes HandlerFn -> gmap bytes HandlerFn :=
  register_all hash_handlers.
Definition register_pubsub : gmap bytes HandlerFn -> gmap bytes HandlerFn :=
  register_all pubsub_handlers.

Definition make_default (broker : bool) : gmap bytes HandlerFn :=
  let d := register_hash (register_set (register_list (register_string
             (register_generic ∅)))) in
  if broker then register_pubsub d else d.

Definition dispatch (handlers_ : gmap bytes HandlerFn) (cmd : Command) : M RespValue :=
  match handlers_ !! name cmd with
  | None => mret (RespError ("ERR unknown command '"%b ++ name cmd ++ "'"%b))
  | Some fn => fn cmd
  end.
End Dispatcher.
