(* ===== verification/CmdSpec.v ===== *)
(** What a single-key command promises: a reply and an effect that depend only on the
    value the key has in the live view, and nothing else changes. *)

From S2P Require Import Prelude Cxx Resp World KvStore KvStoreFacts Command.

Open Scope Z_scope.

Inductive effect :=
  | Keep
  | Put (v : Value)   (* store the value, without a time to live *)
  | Del.

Definition apply_effect (key : bytes) (eff : effect) (d : gmap bytes Entry)
    : gmap bytes Entry :=
  match eff with
  | Keep => d
  | Put v => <[key := MkEntry v None]> d
  | Del => delete key d
  end.

(** A specification maps the live value of the key to the outcome and the effect. *)
Definition key_spec : Type := option Value -> Out RespValue * effect.

Section CmdSpec.
Context `{CxxRuntime} `{Sch : Schedule} `{SchOk : !ScheduleOk Sch}.

(** Everything but the store is as before, and time has passed. *)
Record unchanged_rest (w w' : World) : Prop := {
  rest_stats : stats w' = stats w;
  rest_channels : channels_ w' = channels_ w;
  rest_posted : posted w' = posted w;
  rest_tick : (tick w <= tick w')%nat;
}.

Definition refines (h : M RespValue) (key : bytes) (spec : key_spec) : Prop :=
  forall w, exists w',
    h w = (fst (spec (view w key)), w') /\
    data_ w' ≈[now w'] apply_effect key (snd (spec (view w key))) (data_ w) /\
    unchanged_rest w w'.

(** * Closing a run *)

Lemma now_later w w' : (tick w <= tick w')%nat -> now w <= now w'.
Proof. intros. apply clock_later. lia. Qed.

Lemma locked_now_equiv w : data_ (locked w) ≈[now (locked w)] data_ w.
Proof.
  eapply live_equiv_later; [apply locked_equiv|].
  pose proof (lock_check w). pose proof (check_now w). lia.
Qed.

Lemma locked_rest w : unchanged_rest w (locked w).
Proof.
  split; [apply locked_stats|apply locked_channels|apply locked_posted|simpl; lia].
Qed.

Lemma unchanged_rest_trans w1 w2 w3 :
  unchanged_rest w1 w2 -> unchanged_rest w2 w3 -> unchanged_rest w1 w3.
Proof. intros [] []. split; try congruence; lia. Qed.

Lemma set_data_rest w w' d : unchanged_rest w w' -> unchanged_rest w (set_data d w').
Proof. by intros []. Qed.

Lemma locked2_now_equiv w :
  data_ (locked (locked w)) ≈[now (locked (locked w))] data_ w.
Proof.
  etrans; [apply locked_now_equiv|].
  eapply live_equiv_later; [apply locked_now_equiv|]. apply now_later. simpl. lia.
Qed.

(** The three ways a handler ends after it has read the key. *)
Lemma ends_keep w key : data_ (locked w) ≈[now (locked w)] apply_effect key Keep (data_ w) /\
  unchanged_rest w (locked w).
Proof. split; [apply locked_now_equiv|apply locked_rest]. Qed.

Lemma ends_put w key v :
  let w2 := locked (locked w) in
  let w' := set_data (<[key := MkEntry v None]> (data_ w2)) w2 in
  data_ w' ≈[now w'] apply_effect key (Put v) (data_ w) /\ unchanged_rest w w'.
Proof.
  split.
  - simpl. apply insert_live_proper. apply locked2_now_equiv.
  - apply set_data_rest. eapply unchanged_rest_trans; apply locked_rest.
Qed.

Lemma ends_del w key :
  let w2 := locked (locked w) in
  let w' := set_data (delete key (data_ w2)) w2 in
  data_ w' ≈[now w'] apply_effect key Del (data_ w) /\ unchanged_rest w w'.
Proof.
  split.
  - simpl. apply delete_live_proper. apply locked2_now_equiv.
  - apply set_data_rest. eapply unchanged_rest_trans; apply locked_rest.
Qed.

(** Sequencing through the monad, one outcome at a time. *)
Lemma bind_run {A B} (m : M A) (k : A -> M B) w :
  (m ≫= k) w =
  match m w with
  | (Ret a, w) => k a w
  | (Exn e, w) => (Exn e, w)
  | (UB, w) => (UB, w)
  | (NoFuel, w) => (NoFuel, w)
  end.
Proof. done. Qed.

Lemma bind_get {B} key (k : option Value -> M B) w :
  (KvStore_get key ≫= k) w = k (view w key) (locked w).
Proof. by rewrite bind_run, get_run. Qed.

Lemma bind_set {B} key v (k : unit -> M B) w :
  (KvStore_set key v 0 ≫= k) w =
  k tt (set_data (<[key := MkEntry v None]> (data_ (locked w))) (locked w)).
Proof. by rewrite bind_run, set_run. Qed.

Lemma bind_del {B} key (k : Z -> M B) w :
  (KvStore_del key ≫= k) w =
  k (if is_live w key then 1 else 0) (set_data (delete key (data_ (locked w))) (locked w)).
Proof. by rewrite bind_run, del_run. Qed.

Lemma bind_lift {A B} (o : Out A) (k : A -> M B) w :
  (lift o ≫= k) w =
  match o with
  | Ret a => k a w
  | Exn e => (Exn e, w)
  | UB => (UB, w)
  | NoFuel => (NoFuel, w)
  end.
Proof. by destruct o. Qed.

Lemma bind_mret {A B} (a : A) (k : A -> M B) w : (mret a ≫= k) w = k a w.
Proof. done. Qed.

Lemma bind_assoc {A B C} (m : M A) (f : A -> M B) (g : B -> M C) w :
  ((m ≫= f) ≫= g) w = (m ≫= fun a => f a ≫= g) w.
Proof. rewrite !bind_run. by destruct (m w) as [[] ?]. Qed.
End CmdSpec.

(** Execute a handler step by step. *)
Ltac run_step :=
  first [ progress cbn [is_string is_list is_set is_hash as_string as_list as_set as_hash]
        | rewrite bind_assoc | rewrite bind_get | rewrite bind_set | rewrite bind_del
        | rewrite bind_lift | rewrite bind_mret ]; cbv beta iota.
Ltac run := repeat run_step.

(** Close a refinement goal once the run has been computed. *)
Ltac ends :=
  eexists; split; [reflexivity|];
  first [ apply ends_keep | apply ends_put | apply ends_del ].
