(* ===== verification/Demo.v ===== *)
(** A concrete runtime, schedule and world, on which the theorems are instantiated. *)

From S2P Require Import Prelude Cxx World KvStore KvStoreFacts.

Open Scope Z_scope.

(** One operation per microsecond; the expiry thread has just finished a pass. *)
Definition demo_schedule : Schedule := {|
  clock := fun op s => 1000000000 + 1000 * Z.of_nat op + Z.of_nat (Nat.min s 3);
  sweep_at := fun op => Some (1000000000 + 1000 * Z.of_nat op);
|}.

#[global] Instance demo_schedule_ok : ScheduleOk demo_schedule.
Proof.
  split; intros; cbn [clock sweep_at demo_schedule] in *; unfold at_entry, at_lock in *;
    simplify_eq; lia.
Qed.

Definition demo_stats : ServerStats := MkStats 0 1 0 true 6379 false.

(** One key of each type, and one whose deadline has passed. *)
Definition demo_world : World :=
  MkWorld
    (list_to_map
       [("s"%b, MkEntry (StringValue "41"%b) None);
        ("l"%b, MkEntry (ListValue ["a"%b; "b"%b; "c"%b]) None);
        ("m"%b, MkEntry (SetValue {["x"%b; "y"%b]}) None);
        ("h"%b, MkEntry (HashValue {["f"%b := "1"%b]}) None);
        ("t"%b, MkEntry (StringValue "soon"%b) (Some 5000000000));
        ("old"%b, MkEntry (StringValue "gone"%b) (Some 1000000000))])
    0 demo_stats ∅ [].
