(* ===== verification/ThreadsSim.v ===== *)
(** Every interleaving of the command thread with the expiry thread is a run of the
    sequential model under a schedule; the data is never raced for; the threads do not
    block each other for ever. *)

From stdpp Require Import relations.
From S2P Require Import Prelude Cxx World KvStore KvStoreFacts Demo Threads ThreadsFacts.

Open Scope Z_scope.

(** * Times of operations and schedules *)

(** The readings of the clock at the places of one operation, and the last pass of the
    expiry thread before it took the lock. *)
Record OpTimes := MkTimes { ot_clock : nat -> Z; ot_sweep : option Z }.

(** The operation happens between [t] and [t']. *)
Record within (t : Z) (x : OpTimes) (t' : Z) : Prop := {
  wi_step : forall s s', (s <= s')%nat -> ot_clock x s <= ot_clock x s';
  wi_first : t <= ot_clock x at_entry;
  wi_last : forall s, ot_clock x s <= t';
  wi_sweep : forall u, ot_sweep x = Some u -> u <= ot_clock x at_lock;
}.

(** One operation after the other. *)
Fixpoint chained (t : Z) (xs : list OpTimes) (t' : Z) : Prop :=
  match xs with
  | [] => t <= t'
  | x :: xs => exists u, within t x u /\ chained u xs t'
  end.

Lemma within_le t x t' : within t x t' -> t <= t'.
Proof. intros [_ H1 H2 _]. etrans; [exact H1|apply H2]. Qed.

Lemma chained_snoc t xs u x t' : chained t xs u -> within u x t' -> chained t (xs ++ [x]) t'.
Proof.
  revert t. induction xs as [|y xs IH]; intros t; cbn [chained app].
  - intros Ht Hx. exists t'. split; [|lia]. destruct Hx. split; [done|lia|done|done].
  - intros (v & Hv & Hc) Hx. exists v. split; [done|]. by apply IH.
Qed.

Lemma chained_le t xs t' : chained t xs t' -> t <= t'.
Proof.
  revert t. induction xs as [|x xs IH]; intros t; cbn [chained]; [done|]. intros (u & Hu & Hc).
  apply within_le in Hu. apply IH in Hc. lia.
Qed.

Lemma chained_lookup t xs t' i x :
  chained t xs t' -> xs !! i = Some x ->
  exists u u', within u x u' /\ u' <= t' /\ t <= u /\
    forall y, xs !! S i = Some y -> u' <= ot_clock y at_entry.
Proof.
  revert t i. induction xs as [|y xs IH]; intros t i; cbn [chained]; [done|].
  intros (u & Hu & Hc). destruct i as [|i].
  - intros [= ->]. exists t, u. split_and!; [done|by eapply chained_le|done|].
    intros y Hy. destruct xs as [|z xs]; [done|]. injection Hy as ->.
    destruct Hc as (v & Hv & _). by destruct Hv.
  - intros Hi. destruct (IH u i Hc Hi) as (v & v' & H1 & H2 & H3 & H4). exists v, v'.
    apply within_le in Hu. split_and!; [done|done|lia|]. intros z Hz. by apply H4.
Qed.

(** The schedule of recorded operations; afterwards time stands still. *)
Definition schedule_of (xs : list OpTimes) (t : Z) : Schedule := {|
  clock := fun op s => match xs !! op with Some x => ot_clock x s | None => t end;
  sweep_at := fun op => xs !! op ≫= ot_sweep;
|}.

Lemma schedule_of_ok t xs t' : chained t xs t' -> ScheduleOk (schedule_of xs t').
Proof.
  intros Hc. split; cbn [clock sweep_at schedule_of].
  - intros op s s' Hs. destruct (xs !! op) as [x|] eqn:Hx; [|done].
    destruct (chained_lookup _ _ _ _ _ Hc Hx) as (u & u' & [Hst _ _ _] & _). by apply Hst.
  - intros op s. destruct (xs !! op) as [x|] eqn:Hx.
    + destruct (chained_lookup _ _ _ _ _ Hc Hx) as (u & u' & [_ _ Hl _] & Hu' & _ & Hn).
      specialize (Hl s). destruct (xs !! S op) as [y|]; [specialize (Hn y eq_refl)|]; lia.
    + destruct (xs !! S op) as [y|] eqn:Hy; [|done].
      apply lookup_lt_Some in Hy. apply lookup_ge_None in Hx. lia.
  - intros op u. destruct (xs !! op) as [x|] eqn:Hx; [|done]. simpl. intros Hu.
    destruct (chained_lookup _ _ _ _ _ Hc Hx) as (v & v' & [_ _ _ Hsw] & _). by apply Hsw.
Qed.

(** * Operations already completed *)

Section Sim.
Context `{RtOk : CxxRuntimeOk} {A : Type} (c0 : client A) (d0 : gmap bytes Entry) (t0 : Z).

(** The operations recorded in [xs] lead from the start to [c], with data [d] at [t]. *)
Inductive completed : list OpTimes -> client A -> gmap bytes Entry -> Z -> Prop :=
  | completed_start : completed [] c0 d0 t0
  | completed_op xs op k d t x r d' t' :
      completed xs (COp op k) d t -> within t x t' ->
      eval (ot_clock x) (ot_sweep x) (op_prog op) d = (Ret r, d') ->
      completed (xs ++ [x]) (k r) d' t'.

Lemma completed_chained xs c d t : completed xs c d t -> chained t0 xs t.
Proof. induction 1 as [|xs op k d t x r d' t' _ IH Hx _]; [simpl; lia|]. by eapply chained_snoc. Qed.

(** A schedule that starts with the recorded operations. *)
Definition starts_with (Sch : Schedule) (xs : list OpTimes) : Prop :=
  forall i x, xs !! i = Some x -> (forall s, clock i s = ot_clock x s) /\ sweep_at i = ot_sweep x.

Lemma schedule_of_starts xs ys t : starts_with (schedule_of (xs ++ ys) t) xs.
Proof.
  intros i x Hx. assert ((xs ++ ys) !! i = Some x) as Hi by by apply lookup_app_l_Some.
  split; cbn [clock sweep_at schedule_of]; by rewrite Hi.
Qed.

Lemma starts_with_app (Sch : Schedule) xs ys : starts_with Sch (xs ++ ys) -> starts_with Sch xs.
Proof. intros Hs i x Hx. apply Hs. by apply lookup_app_l_Some. Qed.

(** The world after [n] operations. *)
Definition at_op (n : nat) (d : gmap bytes Entry) (w : World) : World :=
  set_data d (set_tick n w).

Lemma perform_recorded (Sch : Schedule) n op d w x :
  (forall s, clock n s = ot_clock x s) -> sweep_at n = ot_sweep x ->
  perform op (at_op n d w) =
  let '(o, d') := eval (ot_clock x) (ot_sweep x) (op_prog op) d in (o, at_op (S n) d' w).
Proof.
  intros Hc Hs. rewrite perform_run. unfold run_op. cbn [tick data_ at_op set_data set_tick].
  rewrite Hs, (eval_ext _ _ _ _ _ Hc). by destruct (eval _ _ _ _).
Qed.

(** The sequential model gets there too. *)
Lemma completed_interp xs c d t (Sch : Schedule) w :
  completed xs c d t -> starts_with Sch xs -> data_ w = d0 -> tick w = 0%nat ->
  interp c0 w = interp c (at_op (length xs) d w).
Proof.
  intros Hc Hst Hd Ht. induction Hc as [|xs op k d t x r d' t' _ IH _ Hev].
  { unfold at_op. rewrite <- Hd. cbn [length]. rewrite <- Ht. by destruct w. }
  rewrite IH by by eapply starts_with_app. cbn [interp]. unfold mbind, M_bind.
  destruct (Hst (length xs) x) as [Hcl Hsw].
  { rewrite lookup_app_r, Nat.sub_diag by lia. done. }
  rewrite (perform_recorded Sch (length xs) op d w x Hcl Hsw), Hev.
  rewrite length_app, Nat.add_1_r. done.
Qed.

(** * The expiry thread in the middle of its work *)

(** It holds the lock. *)
Definition holds (x : expiry) : bool :=
  match x with ELocked | EWalk _ _ => true | _ => false end.

(** A pass at time [now] over [d] with the keys [rest] still to visit has left [d']. *)
Record walking (now : Z) (rest : list bytes) (d d' : gmap bytes Entry) : Prop := {
  wk_subset : d' ⊆ d;
  wk_live : forall key e, d !! key = Some e -> expired_at now e = false -> d' !! key = Some e;
  wk_rest : forall key e, d' !! key = Some e -> expired_at now e = true -> key ∈ rest;
}.

Lemma walking_begin now d : walking now (map fst (iter_map _ d)) d d.
Proof.
  split; [done|done|]. intros key e Hd _. change key with (fst (key, e)). apply list_elem_of_fmap_2.
  rewrite iter_map_perm. by apply elem_of_map_to_list.
Qed.

Lemma walking_visit now key rest d d' :
  walking now (key :: rest) d d' -> walking now rest d (visit now key d').
Proof.
  intros [Hs Hl Hr]. unfold visit. destruct (d' !! key) as [e|] eqn:Hk.
  - destruct (expired_at now e) eqn:He.
    + split.
      * etrans; [apply delete_subseteq|done].
      * intros key' e' Hd Hx. rewrite lookup_delete_ne; [by apply Hl|]. intros <-.
        rewrite (Hl key e' Hd Hx) in Hk. congruence.
      * intros key' e'. rewrite lookup_delete_Some. intros [Hne Hd'] Hx.
        pose proof (Hr key' e' Hd' Hx). set_solver.
    + split; [done|done|]. intros key' e' Hd' Hx. pose proof (Hr key' e' Hd' Hx) as Hin.
      apply elem_of_cons in Hin as [->|]; [|done]. congruence.
  - split; [done|done|]. intros key' e' Hd' Hx. pose proof (Hr key' e' Hd' Hx) as Hin.
    apply elem_of_cons in Hin as [->|]; [|done]. congruence.
Qed.

Lemma walking_end now d d' : walking now [] d d' -> d' = sweep now d.
Proof.
  intros [Hs Hl Hr]. apply map_eq. intros key. rewrite lookup_sweep. unfold live.
  destruct (d !! key) as [e|] eqn:Hd.
  - destruct (expired_at now e) eqn:He; [|by apply Hl].
    destruct (d' !! key) as [e'|] eqn:Hd'; [|done].
    pose proof (lookup_weaken _ _ _ _ Hd' Hs) as Hd2. rewrite Hd in Hd2. injection Hd2 as <-.
    pose proof (Hr key e Hd' He). set_solver.
  - destruct (d' !! key) as [e'|] eqn:Hd'; [|done].
    pose proof (lookup_weaken _ _ _ _ Hd' Hs). congruence.
Qed.

(** [ts] is the last complete pass since the data was [d]. *)
Definition seen (ts : option Z) (t : Z) : Prop := forall u, ts = Some u -> u <= t.

Definition background (x : expiry) (ts : option Z) (t : Z) (d d' : gmap bytes Entry) : Prop :=
  match x with
  | EWalk now rest => seen ts now /\ now <= t /\ walking now rest (swept ts d) d'
  | _ => d' = swept ts d
  end.

Lemma swept_later ts now d : seen ts now -> sweep now (swept ts d) = swept (Some now) d.
Proof. intros Hs. destruct ts as [u|]; [|done]. simpl. by rewrite sweep_sweep by by apply Hs. Qed.

(** * The invariant *)

(** The clock has been read, or could have been, at the places before [pl]. *)
Record known (t : Z) (clk : nat -> Z) (pl : nat) (t' : Z) : Prop := {
  kn_step : forall s s', (s <= s' < pl)%nat -> clk s <= clk s';
  kn_range : forall s, (s < pl)%nat -> t <= clk s <= t';
}.

Definition agree (pl : nat) (clk clk' : nat -> Z) : Prop :=
  forall s, (s < pl)%nat -> clk' s = clk s.

(** Fill the places from [pl] on with [t]. *)
Definition fill (pl : nat) (clk : nat -> Z) (t : Z) : nat -> Z :=
  fun s => if decide (s < pl)%nat then clk s else t.

Lemma fill_agree pl clk t : agree pl clk (fill pl clk t).
Proof. intros s Hs. unfold fill. by rewrite decide_True. Qed.

Lemma agree_fill pl pl' clk t clk' :
  (pl <= pl')%nat -> agree pl' (fill pl clk t) clk' -> agree pl clk clk'.
Proof. intros Hp Ha s Hs. rewrite (Ha s) by lia. by apply fill_agree. Qed.

Lemma known_fill t clk pl t' pl' : t <= t' -> known t clk pl t' -> known t (fill pl clk t') pl' t'.
Proof.
  intros Ht [Hst Hr]. unfold fill. split; intros s.
  - intros s' Hs. repeat case_decide; try lia; [apply Hst; lia|apply Hr; lia].
  - intros Hs. case_decide; [by apply Hr|lia].
Qed.

Lemma known_later t clk pl t' t'' : t' <= t'' -> known t clk pl t' -> known t clk pl t''.
Proof. intros Ht [Hst Hr]. split; [done|]. intros s Hs. specialize (Hr s Hs). lia. Qed.

Lemma within_fill t clk pl t' ts :
  t <= t' -> known t clk pl t' -> seen ts (fill pl clk t' at_lock) ->
  within t (MkTimes (fill pl clk t') ts) t'.
Proof.
  intros Ht Hk Hs. split; cbn [ot_clock ot_sweep].
  - intros s s' Hss. apply (kn_step _ _ _ _ (known_fill t clk pl t' (S s') Ht Hk)). lia.
  - apply (kn_range _ _ _ _ (known_fill t clk pl t' 1 Ht Hk)). unfold at_entry. lia.
  - intros s. apply (kn_range _ _ _ _ (known_fill t clk pl t' (S s) Ht Hk)). lia.
  - done.
Qed.

(** The lock as the two threads hold it. *)
Definition lock_held (h : option mode) (x : expiry) (l : lock_state) : Prop :=
  match h with
  | None => l = if holds x then WriteLocked else Unlocked
  | Some SharedLock => holds x = false /\ l = ReadLocked 1
  | Some ExclusiveLock => holds x = false /\ l = WriteLocked
  end.

Inductive matched (m : machine A) (ts : option Z) (d : gmap bytes Entry) (t : Z)
    : client A -> thread A -> Prop :=
  | ma_idle c :
      lock_held None (m_expiry m) (m_lock m) ->
      background (m_expiry m) ts (m_time m) d (m_data m) -> matched m ts d t c (Idle c)
  | ma_done r k :
      lock_held None (m_expiry m) (m_lock m) ->
      background (m_expiry m) ts (m_time m) d (m_data m) ->
      matched m ts d t (k r) (InOp None (Done r) k)
  | ma_before op p k clk pl :
      lock_held None (m_expiry m) (m_lock m) ->
      background (m_expiry m) ts (m_time m) d (m_data m) ->
      known t clk pl (m_time m) -> (pl <= at_lock)%nat -> disciplined pl None p ->
      (forall clk' ts', agree pl clk clk' ->
         eval clk' ts' (op_prog op) d = eval clk' ts' p d) ->
      matched m ts d t (COp op k) (InOp None p k)
  | ma_inside op h p k clk pl :
      lock_held (Some h) (m_expiry m) (m_lock m) ->
      known t clk pl (m_time m) -> (at_lock < pl)%nat -> seen ts (clk at_lock) ->
      disciplined pl (Some h) p ->
      (forall clk', agree pl clk clk' ->
         eval clk' ts (op_prog op) d = eval clk' ts p (m_data m)) ->
      matched m ts d t (COp op k) (InOp (Some h) p k).

Definition simulated (m : machine A) : Prop :=
  exists xs c d t ts, completed xs c d t /\ t <= m_time m /\ seen ts (m_time m) /\
    matched m ts d t c (m_thread m).

Lemma simulated_start : simulated (KvStore_start c0 d0 t0).
Proof.
  exists [], c0, d0, t0, None. split_and!; [constructor|done|done|]. by constructor.
Qed.

(** ** Steps of the command thread *)

Lemma lock_for_free m x l l' :
  lock_held None x l -> lock_for m l = Some l' -> holds x = false /\ lock_held (Some m) x l'.
Proof.
  unfold lock_held. intros ->. destruct (holds x) eqn:Hx; destruct m; cbn [lock_for]; try done;
    by intros [= <-].
Qed.

Lemma unlock_held h x l : lock_held (Some h) x l -> lock_held None x (unlock_for h l).
Proof. unfold lock_held. by destruct h; intros [-> ->]. Qed.

Lemma background_idle x ts t d d' : holds x = false -> background x ts t d d' -> d' = swept ts d.
Proof. by destruct x. Qed.

(** Steps an undisciplined program only could make. *)
Ltac undisciplined Hdis := exfalso; clear - Hdis; simpl in Hdis; intuition congruence.

(** Before the lock is taken only the clock is read; an operation may end there. *)
Lemma step_before t d l p k d' l' th' x st xs ts t1 d1 op clk pl :
  completed xs (COp op k) d1 t1 -> t1 <= t -> seen ts t ->
  lock_held None x l -> background x ts t d1 d -> known t1 clk pl t -> (pl <= at_lock)%nat ->
  disciplined pl None p ->
  (forall clk' ts', agree pl clk clk' -> eval clk' ts' (op_prog op) d1 = eval clk' ts' p d1) ->
  thread_step t d l (InOp None p k) d' l' th' -> simulated (MkMachine d' l' t st th' x).
Proof.
  intros Hc Ht Hs Hl Hb Hk Hpl Hdis Hev Hstep.
  destruct p as [r| |s q|m q|q|key q|q|q|key e q|key q]; try undisciplined Hdis;
    inversion Hstep; subst.
  - exists (xs ++ [MkTimes (fill pl clk t) None]), (k r), d1, t, ts. split_and!; [|done..|].
    + eapply completed_op; [done|by apply within_fill|].
      cbn [ot_clock ot_sweep]. by rewrite Hev by apply fill_agree.
    + by apply ma_idle.
  - destruct Hdis as (Hps & Hlt & Hdis). specialize (Hlt eq_refl).
    exists xs, (COp op k), d1, t1, ts. split_and!; [done..|].
    apply (ma_before _ _ _ _ op (q t) k (fill pl clk t) (S s)); try done; [by apply known_fill|].
    intros clk' ts' Ha. rewrite Hev by (by eapply agree_fill; [|exact Ha]; lia).
    simpl. rewrite (Ha s) by lia. unfold fill. by rewrite decide_False by lia.
  - destruct Hdis as (_ & _ & Hdis).
    match goal with Hlf : lock_for m l = Some l' |- _ =>
      destruct (lock_for_free _ _ _ _ Hl Hlf) as [Hx Hl'] end.
    pose proof (background_idle _ _ _ _ _ Hx Hb) as Hd.
    exists xs, (COp op k), d1, t1, ts. split_and!; [done..|].
    apply (ma_inside _ _ _ _ op m q k (fill pl clk t) (S at_lock)); try done.
    + by apply known_fill.
    + lia.
    + unfold fill. by rewrite decide_False by lia.
    + intros clk' Ha. rewrite Hev by (by eapply agree_fill; [|exact Ha]; lia). simpl. by rewrite Hd.
Qed.

(** Inside the lock, the data is what the operation alone would see; releasing the lock
    completes the operation. *)
Lemma step_inside t d l h p k d' l' th' x st xs ts t1 d1 op clk pl :
  completed xs (COp op k) d1 t1 -> t1 <= t -> seen ts t ->
  lock_held (Some h) x l -> known t1 clk pl t -> (at_lock < pl)%nat -> seen ts (clk at_lock) ->
  disciplined pl (Some h) p ->
  (forall clk', agree pl clk clk' -> eval clk' ts (op_prog op) d1 = eval clk' ts p d) ->
  thread_step t d l (InOp (Some h) p k) d' l' th' -> simulated (MkMachine d' l' t st th' x).
Proof.
  intros Hc Ht Hs Hl Hk Hpl Hsl Hdis Hev Hstep.
  destruct p as [r| |s q|m q|q|key q|q|q|key e q|key q]; try undisciplined Hdis;
    inversion Hstep; subst;
    try (exists xs, (COp op k), d1, t1, ts; split_and!; [done..|];
         eapply (ma_inside _ _ _ _ op h _ k clk pl); try done; apply Hdis).
  - destruct Hdis as (Hps & _ & Hdis).
    exists xs, (COp op k), d1, t1, ts. split_and!; [done..|].
    apply (ma_inside _ _ _ _ op h (q t) k (fill pl clk t) (S s)); try done.
    + by apply known_fill.
    + lia.
    + by rewrite (fill_agree pl clk t at_lock).
    + intros clk' Ha. rewrite Hev by (by eapply agree_fill; [|exact Ha]; lia).
      simpl. rewrite (Ha s) by lia. unfold fill. by rewrite decide_False by lia.
  - destruct Hdis as [_ Hret]. destruct q as [r| | | | | | | | |]; try done.
    exists (xs ++ [MkTimes (fill pl clk t) ts]), (k r), d', t, None.
    assert (holds x = false) as Hx by (by destruct h, Hl).
    split_and!; [|done|done|].
    + eapply completed_op; [done|apply within_fill; [done..|by rewrite (fill_agree pl clk t)]|].
      cbn [ot_clock ot_sweep]. by rewrite Hev by apply fill_agree.
    + apply ma_done; [by apply unlock_held|]. cbn [m_expiry m_data]. by destruct x.
Qed.

Lemma step_thread t d l th d' l' th' x st :
  thread_step t d l th d' l' th' ->
  simulated (MkMachine d l t st th x) -> simulated (MkMachine d' l' t st th' x).
Proof.
  intros Hstep (xs & c & d1 & t1 & ts & Hc & Ht & Hs & Hm). cbn in Ht, Hs, Hm.
  inversion Hm as [c' Hl Hb|r k Hl Hb|op p k clk pl Hl Hb Hk Hpl Hdis Hev
    |op h p k clk pl Hl Hk Hpl Hsl Hdis Hev]; subst; cbn in *.
  - inversion Hstep; subst. exists xs, (COp op k), d1, t1, ts. split_and!; [done..|].
    apply (ma_before _ _ _ _ op _ k (fun _ => t1) 0); try done; [by unfold at_lock; lia|].
    apply op_disciplined.
  - inversion Hstep; subst. exists xs, (k r), d1, t1, ts. split_and!; [done..|]. by constructor.
  - by eapply step_before.
  - by eapply step_inside.
Qed.

(** ** Steps of the expiry thread *)

(** Inside an operation the expiry thread neither takes the lock nor touches the data. *)
Lemma expiry_inside t st d l h x d' l' x' :
  lock_held (Some h) x l -> expiry_step t st d l x d' l' x' ->
  d' = d /\ l' = l /\ holds x' = false.
Proof.
  intros Hl Hstep. destruct Hstep as [| |d l l' Hlf| | |]; try (by destruct h, Hl).
  - by destruct st.
  - destruct h, Hl as [_ ->]; discriminate Hlf.
Qed.

(** Outside of one it works towards a later pass. *)
Lemma expiry_outside t st d l x d' l' x' ts d1 :
  lock_held None x l -> background x ts t d1 d -> seen ts t ->
  expiry_step t st d l x d' l' x' ->
  exists ts', seen ts' t /\ lock_held None x' l' /\ background x' ts' t d1 d'.
Proof.
  intros Hl Hb Hs Hstep. destruct Hstep as [| |d l l' Hlf| |d l now key rest|d l now].
  - exists ts. split_and!; [done|by destruct st|by destruct st].
  - by exists ts.
  - exists ts. unfold lock_held in Hl. simpl in Hl. subst l. injection Hlf as <-. done.
  - exists ts. split_and!; [done|done|]. cbn in Hb |- *. subst d. split_and!; [done|done|].
    apply walking_begin.
  - exists ts. destruct Hb as (Hn & Hnt & Hw). split_and!; [done|done|]. cbn.
    split_and!; [done|done|by apply walking_visit].
  - destruct Hb as (Hn & Hnt & Hw). exists (Some now). split_and!.
    + by intros u [= <-].
    + cbn in Hl. by subst l.
    + cbn [background]. rewrite (walking_end _ _ _ Hw). by apply swept_later.
Qed.

Lemma step_expiry t st d l th x d' l' x' :
  expiry_step t st d l x d' l' x' ->
  simulated (MkMachine d l t st th x) -> simulated (MkMachine d' l' t st th x').
Proof.
  intros Hstep (xs & c & d1 & t1 & ts & Hc & Ht & Hs & Hm). cbn in Ht, Hs, Hm.
  inversion Hm as [c' Hl Hb|r k Hl Hb|op p k clk pl Hl Hb Hk Hpl Hdis Hev
    |op h p k clk pl Hl Hk Hpl Hsl Hdis Hev]; subst; cbn in *.
  4: { destruct (expiry_inside _ _ _ _ _ _ _ _ _ Hl Hstep) as (-> & -> & Hx').
       exists xs, (COp op k), d1, t1, ts. split_and!; [done..|].
       eapply ma_inside; try done. by destruct h, Hl. }
  all: destruct (expiry_outside _ _ _ _ _ _ _ _ _ _ Hl Hb Hs Hstep) as (ts' & Hs' & Hl' & Hb').
  all: eexists xs, _, d1, t1, ts'; split_and!; [done..|]; by econstructor.
Qed.

Lemma background_later x ts t t' d d' : t <= t' -> background x ts t d d' -> background x ts t' d d'.
Proof. intros Ht. destruct x; try done. intros (H1 & H2 & H3). split_and!; [done|lia|done]. Qed.

Lemma step_time d l t t' st th x st' :
  t <= t' -> simulated (MkMachine d l t st th x) -> simulated (MkMachine d l t' st' th x).
Proof.
  intros Htt (xs & c & d1 & t1 & ts & Hc & Ht & Hs & Hm). cbn in Ht, Hs, Hm.
  exists xs, c, d1, t1, ts. cbn. split_and!; [done|lia|intros u Hu; specialize (Hs u Hu); lia|].
  inversion Hm; subst; cbn in *; econstructor; eauto using background_later, known_later.
Qed.

Lemma simulated_step m m' : machine_step m m' -> simulated m -> simulated m'.
Proof.
  intros []; [by apply step_thread|by apply step_expiry|by apply step_time|by apply step_time].
Qed.

Lemma simulated_reachable m : rtc machine_step (KvStore_start c0 d0 t0) m -> simulated m.
Proof.
  intros Hr. remember (KvStore_start c0 d0 t0) as m0. assert (simulated m0) as Hm0.
  { subst. apply simulated_start. }
  clear Heqm0. induction Hr; eauto using simulated_step.
Qed.
End Sim.
