(* ===== verification/ThreadsTheorems.v ===== *)
(** The store under its two threads: every interleaving is a run of the sequential model
    under a schedule, the data is never raced for, and both threads come to an end. *)

From stdpp Require Import relations.
From S2P Require Import Prelude Cxx World KvStore KvStoreFacts Demo Threads ThreadsFacts.
From S2P Require Import ThreadsSim.

Open Scope Z_scope.

(** * Interleavings are schedules *)

Section Schedules.
Context `{RtOk : CxxRuntimeOk} {A : Type}.
Implicit Types (c : client A) (m : machine A).

(** The sequential model, from world [w] with the data the machine started with, gets under
    [Sch] to the same client after [n] operations, with data [d]. *)
Definition follows (Sch : Schedule) c0 (d0 : gmap bytes Entry) c (n : nat)
    (d : gmap bytes Entry) : Prop :=
  forall w, data_ w = d0 -> tick w = 0%nat -> interp c0 w = interp c (at_op n d w).

Lemma completed_follows c0 d0 t0 xs ys c d t t' :
  completed c0 d0 t0 xs c d t -> chained t0 (xs ++ ys) t' ->
  ScheduleOk (schedule_of (xs ++ ys) t') /\
  follows (schedule_of (xs ++ ys) t') c0 d0 c (length xs) d.
Proof.
  intros Hc Hch. split; [by eapply schedule_of_ok|]. intros w Hd Ht.
  eapply completed_interp; [done|apply schedule_of_starts|done|done].
Qed.

(** Outside of an operation. *)
Lemma idle_follows c0 d0 t0 m c :
  rtc machine_step (KvStore_start c0 d0 t0) m -> m_thread m = Idle c ->
  exists (Sch : Schedule) n d, ScheduleOk Sch /\ follows Sch c0 d0 c n d /\
    (m_lock m = Unlocked -> exists ts, m_data m = swept ts d).
Proof.
  intros Hr Hi. destruct (simulated_reachable _ _ _ _ Hr) as (xs & c1 & d & t & ts & Hc & _ & _ & Hm).
  rewrite Hi in Hm. inversion Hm as [c' Hl Hb| | |]; subst.
  destruct (completed_follows c0 d0 t0 xs [] c d t t Hc) as [Hok Hf].
  { rewrite app_nil_r. by eapply completed_chained. }
  exists (schedule_of (xs ++ []) t), (length xs), d. split_and!; [done|done|].
  intros Hu. exists ts. unfold lock_held in Hl. rewrite Hu in Hl.
  destruct (holds (m_expiry m)) eqn:Hx; [done|]. by eapply background_idle.
Qed.
(** An operation that runs into undefined behaviour does so in the sequential model. *)
Lemma faulty_op c0 d0 t0 xs op (k : Reply -> client A) d t x t' d' :
  completed c0 d0 t0 xs (COp op k) d t -> within t x t' ->
  eval (ot_clock x) (ot_sweep x) (op_prog op) d = (UB, d') ->
  exists Sch : Schedule, ScheduleOk Sch /\
    forall w, data_ w = d0 -> tick w = 0%nat -> fst (interp c0 w) = UB.
Proof.
  intros Hc Hx Hev. destruct (completed_follows c0 d0 t0 xs [x] _ d t t' Hc) as [Hok Hf].
  { eapply chained_snoc; [by eapply completed_chained|done]. }
  exists (schedule_of (xs ++ [x]) t'). split; [done|]. intros w Hd Ht.
  rewrite (Hf w Hd Ht). cbn [interp]. unfold mbind, M_bind.
  rewrite (perform_recorded _ (length xs) op d w x).
  - by rewrite Hev.
  - intros s. cbn [clock schedule_of]. by rewrite lookup_app_r, Nat.sub_diag by lia.
  - cbn [sweep_at schedule_of]. by rewrite lookup_app_r, Nat.sub_diag by lia.
Qed.

Lemma fault_follows c0 d0 t0 m h k :
  rtc machine_step (KvStore_start c0 d0 t0) m -> m_thread m = InOp h Fault k ->
  exists Sch : Schedule, ScheduleOk Sch /\
    forall w, data_ w = d0 -> tick w = 0%nat -> fst (interp c0 w) = UB.
Proof.
  intros Hr Hi. destruct (simulated_reachable _ _ _ _ Hr) as (xs & c1 & d & t & ts & Hc & Ht & Hs & Hm).
  rewrite Hi in Hm.
  inversion Hm as [| |op p k' clk pl Hl Hb Hk Hpl Hdis Hev
    |op h' p k' clk pl Hl Hk Hpl Hsl Hdis Hev]; subst.
  - eapply (faulty_op _ _ _ xs op k d t (MkTimes (fill pl clk (m_time m)) None)); [done| |].
    + by apply within_fill.
    + cbn [ot_clock ot_sweep]. by rewrite Hev by apply fill_agree.
  - eapply (faulty_op _ _ _ xs op k d t (MkTimes (fill pl clk (m_time m)) ts)); [done| |].
    + apply within_fill; [done..|]. by rewrite (fill_agree pl clk (m_time m)).
    + cbn [ot_clock ot_sweep]. by rewrite Hev by apply fill_agree.
Qed.
End Schedules.

(** * No data race *)

(** What the next step of a thread does with data_: it reads it, or it writes it too. *)
Inductive access := Reads | Writes.

Definition thread_access {A} (th : thread A) : option access :=
  match th with
  | InOp _ (Find _ _) _ | InOp _ (Keys _) _ | InOp _ (Size _) _ => Some Reads
  | InOp _ (Assign _ _ _) _ | InOp _ (Erase _ _) _ => Some Writes
  | _ => None
  end.

Definition expiry_access (x : expiry) : option access :=
  match x with
  | ELocked => Some Reads
  | EWalk _ _ => Some Writes
  | _ => None
  end.

(** Both threads are at data_ and one of them writes. *)
Definition race {A} (m : machine A) : Prop :=
  exists a b, thread_access (m_thread m) = Some a /\ expiry_access (m_expiry m) = Some b /\
    (a = Writes \/ b = Writes).

(** The mutex is used as std::shared_mutex wants it: nobody takes it who has it, nobody
    gives it back who has not. *)
Definition mutex_respected {A} (th : thread A) : Prop :=
  match th with
  | InOp h (Acquire _ _) _ => h = None
  | InOp h (Release _) _ => h <> None
  | _ => True
  end.

Section Races.
Context `{RtOk : CxxRuntimeOk} {A : Type} (c0 : client A) (d0 : gmap bytes Entry) (t0 : Z).

(** The lock the command thread has is enough for what it does next. *)
Lemma thread_lock (m : machine A) :
  simulated c0 d0 t0 m ->
  exists h, lock_held h (m_expiry m) (m_lock m) /\ mutex_respected (m_thread m) /\
    forall a, thread_access (m_thread m) = Some a ->
      h <> None /\ (a = Writes -> h = Some ExclusiveLock).
Proof.
  intros (xs & c1 & d & t & ts & _ & _ & _ & Hm).
  inversion Hm as [c' Hl Hb Hc Hth|r k Hl Hb Hc Hth|op p k clk pl Hl Hb Hk Hpl Hdis Hev Hc Hth
    |op h p k clk pl Hl Hk Hpl Hsl Hdis Hev Hc Hth]; clear Hm.
  - by exists None.
  - by exists None.
  - exists None. split; [done|]. destruct p; simpl in Hdis |- *; naive_solver.
  - exists (Some h). split; [done|]. destruct p; simpl in Hdis |- *; naive_solver.
Qed.

(** C12. The reader-writer lock protects data_: the command thread reads it only while it
    holds the lock and writes it only while it holds the lock exclusively, the expiry thread
    touches it only under the exclusive lock, so that they never race; and neither thread
    misuses the mutex. *)
Theorem store_race_free m :
  rtc machine_step (KvStore_start c0 d0 t0) m ->
  ~ race m /\ mutex_respected (m_thread m) /\
  (forall a, thread_access (m_thread m) = Some a ->
     if a is Writes then m_lock m = WriteLocked else m_lock m <> Unlocked) /\
  (forall a, expiry_access (m_expiry m) = Some a -> m_lock m = WriteLocked).
Proof.
  intros Hr. destruct (thread_lock m) as (h & Hl & Hm & Ha); [by apply simulated_reachable|].
  assert (forall b, expiry_access (m_expiry m) = Some b -> h = None /\ m_lock m = WriteLocked) as Hb.
  { intros b Hb. destruct (m_expiry m), h as [[]|]; try done; by destruct Hl. }
  split_and!.
  - intros (a & b & Ha' & Hb' & _). by destruct (Ha a Ha'), (Hb b Hb').
  - done.
  - intros a Ha'. destruct (Ha a Ha') as [Hh Hw]. destruct a.
    + by destruct h as [[]|]; try done; destruct Hl as [_ ->].
    + rewrite Hw in Hl by done. by destruct Hl.
  - intros b Hb'. by apply (Hb b).
Qed.
End Races.

(** * Both threads come to an end

    After request_stop() (the destructor), time goes on and the threads work in any order. *)

Section Stopping.
Context `{RtOk : CxxRuntimeOk} {A : Type}.

Inductive work_step : machine A -> machine A -> Prop :=
  | ws_thread d l t u th x d' l' th' :
      t <= u -> thread_step u d l th d' l' th' ->
      work_step (MkMachine d l t true th x) (MkMachine d' l' u true th' x)
  | ws_expiry d l t u th x d' l' x' :
      t <= u -> expiry_step u true d l x d' l' x' ->
      work_step (MkMachine d l t true th x) (MkMachine d' l' u true th x').

Lemma work_machine m m' : work_step m m' -> rtc machine_step m m'.
Proof.
  intros [d l t u th x d' l' th' Ht Hs|d l t u th x d' l' x' Ht Hs];
    (eapply rtc_l; [by apply (ms_time _ _ _ u)|]); apply rtc_once; by constructor.
Qed.

(** ** The command thread has a finite program *)

Definition thread_next (th th' : thread A) : Prop :=
  exists t d l d' l', thread_step t d l th d' l' th'.

Lemma op_ends (k : Reply -> client A) :
  (forall r, sn thread_next (Idle (k r))) -> forall p h, sn thread_next (InOp h p k).
Proof.
  intros Hk p. induction p; intros h; constructor; intros th' (u & d & l & d' & l' & Hs);
    inversion Hs; subst; eauto.
Qed.

Lemma thread_ends th : sn thread_next th.
Proof.
  assert (forall c : client A, sn thread_next (Idle c)) as Hc.
  { intros c. induction c as [a|op k IH]; constructor; intros th' (u & d & l & d' & l' & Hs);
      inversion Hs; subst. by apply op_ends. }
  destruct th as [c|h p k]; [done|]. apply op_ends. intros r. apply Hc.
Qed.

(** ** The expiry thread finishes its pass and sees the request *)

Definition expiry_left (x : expiry) (d : gmap bytes Entry) : nat :=
  match x with
  | EDone => 0
  | ECheck => 1
  | EWalk _ rest => S (S (length rest))
  | ELocked => S (S (S (size d)))
  | EWait => S (S (S (S (size d))))
  | ESleep => S (S (S (S (S (size d)))))
  end.

Lemma expiry_left_step t d l x d' l' x' :
  expiry_step t true d l x d' l' x' -> (expiry_left x' d' < expiry_left x d)%nat.
Proof.
  intros []; cbn [expiry_left length]; try lia.
  rewrite length_map, iter_map_perm, length_map_to_list. lia.
Qed.

Lemma works_end m : sn work_step m.
Proof.
  destruct m as [d l t stop th x]. revert d l t stop x.
  induction (thread_ends th) as [th _ IHth]. intros d l t stop x.
  remember (expiry_left x d) as n eqn:Hn. revert d l t stop x Hn.
  induction (lt_wf n) as [n _ IHn]. intros d l t stop x ->.
  constructor. intros m' Hs.
  inversion Hs as [? ? ? u ? ? d' l' th' Ht Hth|? ? ? u ? ? d' l' x' Ht Hx]; subst.
  - apply IHth. by exists u, d, l, d', l'.
  - by eapply IHn; [by eapply expiry_left_step|].
Qed.

(** ** And nobody waits for ever *)

(** Both threads are done; or the command thread met undefined behaviour. *)
Definition finished (m : machine A) : Prop :=
  ((exists a, m_thread m = Idle (CRet a)) /\ m_expiry m = EDone) \/
  exists h k, m_thread m = InOp h Fault k.

(** The expiry thread waits only for a lock the command thread has. *)
Lemma expiry_moves d l t th x :
  lock_held None x l -> x <> EDone -> exists m', work_step (MkMachine d l t true th x) m'.
Proof.
  intros Hl Hx. cbn [lock_held] in Hl.
  destruct x as [| | | |now [|key rest]|]; try done; subst l; eexists;
    (eapply (ws_expiry d _ t t); [done|by econstructor]).
Qed.

(** And the command thread only for a lock the expiry thread has. *)
Lemma thread_moves c0 d0 t0 d l t th x :
  simulated c0 d0 t0 (MkMachine d l t true th x) ->
  (exists a, th = Idle (CRet a)) /\ lock_held None x l \/ (exists h k, th = InOp h Fault k) \/
  exists m', work_step (MkMachine d l t true th x) m'.
Proof.
  intros (xs & c1 & d1 & t1 & ts & _ & _ & _ & Hm). cbn in Hm.
  assert (forall d' l' th', thread_step t d l th d' l' th' ->
            exists m', work_step (MkMachine d l t true th x) m') as Hgo.
  { intros d' l' th' Hs. eexists. by eapply (ws_thread _ _ _ t). }
  inversion Hm as [[a|op k] Hl Hb Hc Hth|r k Hl Hb Hc Hth|op p k clk pl Hl Hb Hk Hpl Hdis Hev Hc Hth
    |op h p k clk pl Hl Hk Hpl Hsl Hdis Hev Hc Hth]; subst; cbn in Hl.
  - left. by split; [exists a|].
  - right; right. eapply Hgo. constructor.
  - right; right. eapply Hgo. constructor.
  - right. destruct p as [r| |s q|m q|q|key q|q|q|key e q|key q];
      try (right; eapply Hgo; solve [econstructor]);
      try (exfalso; clear - Hdis; simpl in Hdis; naive_solver); [by left; eauto|]. right.
    destruct (holds x) eqn:Hx; [apply expiry_moves; [unfold lock_held; by rewrite Hx|by destruct x]|].
    subst l. destruct m; eapply Hgo; by constructor.
  - right. destruct p; try (right; eapply Hgo; solve [econstructor]);
      try (exfalso; clear - Hdis; simpl in Hdis; naive_solver). by left; eauto.
Qed.

(** C13. Once the destructor has asked the expiry thread to stop, the two threads finish,
    however their steps are interleaved: there is no infinite run, and a run can only end
    with the command thread's work done and the expiry thread returned (or with undefined
    behaviour in an operation), never with one of them waiting for the lock. *)
Theorem threads_terminate c0 d0 t0 m :
  rtc machine_step (KvStore_start c0 d0 t0) m -> m_stop m = true ->
  sn work_step m /\
  forall m', rtc work_step m m' -> (exists m'', work_step m' m'') \/ finished m'.
Proof.
  intros Hr Hstop. split; [apply works_end|]. intros m' Hw.
  assert (m_stop m' = true) as Hstop'.
  { clear Hr. induction Hw as [|m1 m2 m3 [] _ IH]; auto. }
  assert (simulated c0 d0 t0 m') as Hsim.
  { apply simulated_reachable. etrans; [exact Hr|]. clear - RtOk Hw.
    induction Hw; [done|]. etrans; [by apply work_machine|done]. }
  destruct m' as [d l t stop th x]. cbn in Hstop'. subst stop.
  destruct (thread_moves _ _ _ _ _ _ _ _ Hsim) as [[[a ->] Hl]|[Hf|Hgo]].
  - destruct (decide (x = EDone)) as [->|Hx]; [by right; left; eauto|].
    left. by apply expiry_moves.
  - right. right. done.
  - by left.
Qed.
End Stopping.

(** * On a concrete store *)

#[local] Existing Instance demo_runtime.

(** SET and GET of one key, with a time to live; the expiry thread is in the middle of a
    pass when the SET wants the lock. *)
Definition demo_client : client (option Value) :=
  COp (OpSet "k"%b (StringValue "v"%b) 100) (fun _ =>
  COp (OpGet "k"%b) (fun r => CRet (if r is RValue v then v else None))).

Definition demo_data : gmap bytes Entry :=
  {["old"%b := MkEntry (StringValue "gone"%b) (Some 1)]}.

Definition demo_machine (cs : list choice) : machine (option Value) :=
  machine_run cs (KvStore_start demo_client demo_data 5).

(** The expiry thread walks over the data while the command thread waits for the lock. *)
Definition demo_waiting : list choice := replicate 4 RunExpiry ++ replicate 3 RunThread.

Lemma store_race_free_witness :
  m_expiry (demo_machine demo_waiting) = EWalk 5 ["old"%b] /\
  ~ race (demo_machine demo_waiting) /\ m_lock (demo_machine demo_waiting) = WriteLocked.
Proof.
  destruct (store_race_free demo_client demo_data 5 (demo_machine demo_waiting)
              (machine_run_rtc _ _)) as (Hr & _ & _ & Hx).
  split_and!; [by vm_compute|exact Hr|]. by apply (Hx Writes); vm_compute.
Defined.

(** Stopped in the middle of that pass, the expiry thread goes on to its end. *)
Lemma threads_terminate_witness :
  let m := demo_machine (demo_waiting ++ [Stop]) in
  sn work_step m /\ exists m', work_step m m'.
Proof.
  intros m. destruct (threads_terminate demo_client demo_data 5 m (machine_run_rtc _ _)) as [Hs Hf];
    [by vm_compute|].
  split; [exact Hs|].
  destruct (Hf m (rtc_refl _ _)) as [Hgo|[[[a Ha] _]|(h & k & Hk)]]; [exact Hgo|discriminate..].
Defined.
