(* ===== verification/Threaded.v ===== *)
(** Programs of the command thread for computations of the sequential model: a typeclass
    that says a computation reaches the store only through its operations, with the client
    that performs them, and the ways such computations are put together. *)

From stdpp Require Import relations.
From S2P Require Import Prelude Cxx World KvStore KvStoreFacts Threads ThreadsFacts ThreadsSim.
From S2P Require Import ThreadsTheorems.

Open Scope Z_scope.

(** * Clients one after the other *)

Fixpoint client_bind {A B} (c : client A) (f : A -> client B) : client B :=
  match c with
  | CRet a => f a
  | COp op k => COp op (fun r => client_bind (k r) f)
  end.

Lemma interp_bind `{CxxRuntime} `{Schedule} {A B} (c : client A) (f : A -> client B) w :
  interp (client_bind c f) w = (interp c ≫= fun a => interp (f a)) w.
Proof.
  revert w. induction c as [a|op k IH]; intros w; [done|]. cbn [client_bind interp].
  unfold mbind, M_bind. by destruct (perform op w) as [[r|e| |] w'].
Qed.

(** * States that contain the store *)

(** [put_store n d s]: [s] with data [d] after [n] operations. *)
Class Storing (St : Type) := put_store : nat -> gmap bytes Entry -> St -> St.

#[export] Instance storing_World : Storing World := at_op.

Lemma at_op_same w : at_op (tick w) (data_ w) w = w.
Proof. by destruct w. Qed.

(** * Clients that behave like a computation *)

Section Threaded.
Context `{RtOk : CxxRuntimeOk} {St : Type} `{!Storing St}.

(** Under every schedule the client, which sees nothing but the store, returns the result
    of [x] from [s] and the rest of the state as [x] leaves it, and it leaves the store as
    [x] does; where it meets undefined behaviour the result of [x] is [bad]. *)
Definition runs_as {Res} (bad : Res -> Prop) (c : client (Res * St)) (x : Schedule -> St -> Res * St)
    (s : St) : Prop :=
  forall (Sch : Schedule) n d w0,
    match interp c (at_op n d w0) with
    | (Ret (r, s'), u) => x Sch (put_store n d s) = (r, put_store (tick u) (data_ u) s')
    | (UB, _) => bad (fst (x Sch (put_store n d s)))
    | _ => False
    end.

Class Threaded {Res} (bad : Res -> Prop) (x : Schedule -> St -> Res * St) := {
  client_of : St -> client (Res * St);
  client_ok : forall s, runs_as bad (client_of s) x s;
}.

(** What does not look at the store. *)
Lemma threaded_rest {Res} (bad : Res -> Prop) (x : St -> Res * St) :
  (forall n d s, x (put_store n d s) = (fst (x s), put_store n d (snd (x s)))) ->
  Threaded bad (fun _ => x).
Proof.
  intros Hx. exists (fun s => CRet (x s)). intros s Sch n d w0. cbn [interp mret M_ret].
  rewrite Hx. by destruct (x s).
Defined.

Lemma threaded_ext {Res} (bad : Res -> Prop) (x y : Schedule -> St -> Res * St) :
  (forall Sch s, x Sch s = y Sch s) -> Threaded bad x -> Threaded bad y.
Proof.
  intros He [c Hc]. exists c. intros s Sch n d w0. specialize (Hc s Sch n d w0). by rewrite <- !He.
Defined.

(** One computation after the other. *)
Definition and_then {Res Res'} (x : St -> Res * St) (k : Res -> St -> Res' * St) (s : St) : Res' * St :=
  let '(r, s) := x s in k r s.

Lemma threaded_then {Res Res'} (bad : Res -> Prop) (bad' : Res' -> Prop) x k :
  (forall Sch r s, bad r -> bad' (fst (k Sch r s))) ->
  Threaded bad x -> (forall r, Threaded bad' (fun Sch => k Sch r)) ->
  Threaded bad' (fun Sch => and_then (x Sch) (k Sch)).
Proof.
  intros Hbad [c Hc] Hk.
  exists (fun s => client_bind (c s) (fun '(r, s') => @client_of _ _ _ (Hk r) s')).
  intros s Sch n d w0. specialize (Hc s Sch n d w0). rewrite interp_bind.
  unfold mbind, M_bind, and_then.
  destruct (interp (c s) (at_op n d w0)) as [[[r s']|e| |] u]; try done.
  - rewrite Hc. pose proof (@client_ok _ _ _ (Hk r) s' Sch (tick u) (data_ u) u) as Hk'.
    by rewrite at_op_same in Hk'.
  - destruct (x Sch (put_store n d s)) as [r s']. by apply Hbad.
Defined.

(** The rest of the state decides. *)
Lemma threaded_read {B Res} (bad : Res -> Prop) (f : St -> B) (k : Schedule -> B -> St -> Res * St) :
  (forall n d s, f (put_store n d s) = f s) ->
  (forall b, Threaded bad (fun Sch => k Sch b)) -> Threaded bad (fun Sch s => k Sch (f s) s).
Proof.
  intros Hf Hk. exists (fun s => @client_of _ _ _ (Hk (f s)) s). intros s Sch n d w0.
  rewrite !Hf. apply (@client_ok _ _ _ (Hk (f s))).
Defined.

(** The rest of the state changes first. *)
Lemma threaded_after {Res} (bad : Res -> Prop) (g : St -> St) (x : Schedule -> St -> Res * St) :
  (forall n d s, g (put_store n d s) = put_store n d (g s)) ->
  Threaded bad x -> Threaded bad (fun Sch s => x Sch (g s)).
Proof.
  intros Hg [c Hc]. exists (fun s => c (g s)). intros s Sch n d w0. rewrite !Hg. apply Hc.
Defined.
End Threaded.
Arguments client_of {_ _ _ _ _} x {_} s.

(** A computation on a part of the state that contains the store. *)
Definition on_part {St St' Res} (get : St' -> St) (set : St -> St' -> St') (x : St -> Res * St) (s : St')
    : Res * St' :=
  let '(r, p) := x (get s) in (r, set p s).

Lemma threaded_part `{RtOk : CxxRuntimeOk} {St St'} `{!Storing St} `{!Storing St'} {Res}
    (bad : Res -> Prop) get set (x : Schedule -> St -> Res * St) :
  (forall n d s, get (put_store n d s) = put_store n d (get s)) ->
  (forall n d n' d' p s, set (put_store n' d' p) (put_store n d s : St') = put_store n' d' (set p s)) ->
  Threaded bad x -> Threaded bad (fun Sch => on_part get set (x Sch)).
Proof.
  intros Hget Hset [c Hc].
  exists (fun s => client_bind (c (get s)) (fun '(r, p) => CRet (r, set p s))).
  intros s Sch n d w0. rewrite interp_bind. specialize (Hc (get s) Sch n d w0).
  unfold mbind, M_bind, on_part. rewrite Hget.
  destruct (interp (c (get s)) (at_op n d w0)) as [[[r p]|e| |] u]; try done.
  - cbn. by rewrite Hc, Hset.
  - by destruct (x Sch _).
Defined.

(** ** On two threads

    The command thread, executing the client of a computation concurrently with the expiry
    thread, gets what the computation gives under some schedule. *)
Lemma threaded_machine `{RtOk : CxxRuntimeOk} {St} `{!Storing St} {Res} (bad : Res -> Prop)
    (x : Schedule -> St -> Res * St) `{!Threaded bad x} s d0 t0 m :
  put_store 0 d0 s = s -> rtc machine_step (KvStore_start (client_of x s) d0 t0) m ->
  (forall r s', m_thread m = Idle (CRet (r, s')) ->
     exists (Sch : Schedule) n d, ScheduleOk Sch /\ x Sch s = (r, put_store n d s') /\
       (m_lock m = Unlocked -> exists ts, m_data m = swept ts d)) /\
  (forall h k, m_thread m = InOp h Fault k ->
     exists Sch : Schedule, ScheduleOk Sch /\ bad (fst (x Sch s))).
Proof.
  intros Hs Hr. set (w0 := MkWorld d0 0 (MkStats 0 0 0 false 0 false) ∅ []). split.
  - intros r s' Hi. destruct (idle_follows _ _ _ _ _ Hr Hi) as (Sch & n & d & Hok & Hf & Hd).
    pose proof (client_ok s Sch 0%nat d0 w0) as Hc.
    rewrite (Hf (at_op 0 d0 w0) eq_refl eq_refl), Hs in Hc. by exists Sch, n, d.
  - intros h k Hi. destruct (fault_follows _ _ _ _ _ _ Hr Hi) as (Sch & Hok & Hf).
    specialize (Hf (at_op 0 d0 w0) eq_refl eq_refl).
    pose proof (client_ok s Sch 0%nat d0 w0) as Hc. rewrite Hs in Hc.
    exists Sch. split; [done|]. by destruct (interp _ (at_op 0 d0 w0)) as [[[]|e| |] u].
Qed.

(** * Computations of the sequential model *)

Definition undefined {A} (o : Out A) : Prop := o = UB.

Section Monad.
Context `{RtOk : CxxRuntimeOk}.

Lemma threaded_ret {A} (a : A) : Threaded undefined (fun _ => mret a : M A).
Proof. by apply threaded_rest. Defined.

Lemma threaded_lift {A} (o : Out A) : Threaded undefined (fun _ => lift o).
Proof. by apply threaded_rest. Defined.

(** What an outcome leads to. *)
Definition go_on {St A B} (k : A -> St -> Out B * St) (o : Out A) (s : St) : Out B * St :=
  match o with
  | Ret a => k a s
  | Exn e => (Exn e, s)
  | UB => (UB, s)
  | NoFuel => (NoFuel, s)
  end.

Lemma threaded_go_on {St} `{!Storing St} {A B} (k : Schedule -> A -> St -> Out B * St) o :
  (forall a, Threaded undefined (fun Sch => k Sch a)) ->
  Threaded undefined (fun Sch => go_on (k Sch) o).
Proof.
  intros Hk. destruct o as [a|e| |]; unfold go_on; [apply Hk|by apply (threaded_rest undefined)..].
Defined.

Lemma threaded_bind {A B} (x : Schedule -> M A) (k : Schedule -> A -> M B) :
  Threaded undefined x -> (forall a, Threaded undefined (fun Sch => k Sch a)) ->
  Threaded undefined (fun Sch => x Sch ≫= k Sch).
Proof.
  intros Hx Hk. eapply (threaded_ext _ (fun Sch => and_then (x Sch) (go_on (k Sch)))).
  { intros Sch w. unfold and_then, mbind, M_bind. by destruct (x Sch w) as [[]]. }
  apply (threaded_then undefined); [by intros Sch r s ->|done|].
  intros o. by apply threaded_go_on.
Defined.

(** ** The operations of the store *)

Lemma eval_outcome (clk : nat -> Z) ts (p : prog Reply) d :
  (exists r, fst (eval clk ts p d) = Ret r) \/ fst (eval clk ts p d) = UB.
Proof. revert d. induction p; intros d; simpl; eauto. Qed.

(** [x] is an operation up to the type of its result. *)
Lemma threaded_op {B} (op : StoreOp) (inj : B -> Reply) (proj : Reply -> option B)
    (x : Schedule -> M B) :
  (forall b, proj (inj b) = Some b) ->
  (forall (Sch : Schedule) w, perform op w = (b ← x Sch; mret (inj b)) w) ->
  Threaded undefined x.
Proof.
  intros Hp Hx.
  exists (fun w => COp op (fun r => CRet (match proj r with Some b => Ret b | None => UB end, w))).
  intros w Sch n d w0. cbn [interp]. unfold mbind at 1, M_bind at 1, put_store, storing_World.
  pose proof (Hx Sch (at_op n d w)) as Hw. rewrite perform_run in Hw |- *.
  unfold run_op in *. cbn [tick data_ at_op set_data set_tick] in *.
  pose proof (eval_outcome (clock n) (sweep_at n) (op_prog op) d) as Ho.
  destruct (eval _ _ _ _) as [o d']. cbn [fst] in Ho. unfold mbind, M_bind in Hw.
  destruct (x Sch (at_op n d w)) as [[b|e| |] w'], Ho as [[r ->]| ->]; try done.
  injection Hw as -> <-. cbn. by rewrite Hp.
Defined.

Definition reply_int (r : Reply) : option Z := if r is RInt n then Some n else None.
Definition reply_bool (r : Reply) : option bool := if r is RBool b then Some b else None.
Definition reply_value (r : Reply) : option (option Value) := if r is RValue v then Some v else None.
Definition reply_unit (r : Reply) : option unit := if r is RUnit then Some tt else None.

Lemma threaded_set key v ttl : Threaded undefined (fun Sch => KvStore_set key v ttl).
Proof.
  refine (threaded_op (OpSet key v ttl) (fun _ => RUnit) reply_unit _ _ _); [by intros []|done].
Defined.
Lemma threaded_get key : Threaded undefined (fun Sch => KvStore_get key).
Proof. by refine (threaded_op (OpGet key) RValue reply_value _ _ _). Defined.
Lemma threaded_del key : Threaded undefined (fun Sch => KvStore_del key).
Proof. by refine (threaded_op (OpDel key) RInt reply_int _ _ _). Defined.
Lemma threaded_exists key : Threaded undefined (fun Sch => KvStore_exists key).
Proof. by refine (threaded_op (OpExists key) RBool reply_bool _ _ _). Defined.
Lemma threaded_expire key ttl : Threaded undefined (fun Sch => KvStore_expire key ttl).
Proof. by refine (threaded_op (OpExpire key ttl) RBool reply_bool _ _ _). Defined.
Lemma threaded_ttl key : Threaded undefined (fun Sch => KvStore_ttl key).
Proof. by refine (threaded_op (OpTtl key) RInt reply_int _ _ _). Defined.
Lemma threaded_persist key : Threaded undefined (fun Sch => KvStore_persist key).
Proof. by refine (threaded_op (OpPersist key) RBool reply_bool _ _ _). Defined.
Lemma threaded_size : Threaded undefined (fun Sch => KvStore_size).
Proof. by refine (threaded_op OpSize RInt reply_int _ _ _). Defined.
Lemma threaded_memory : Threaded undefined (fun Sch => KvStore_approx_memory_bytes).
Proof. by refine (threaded_op OpMemory RInt reply_int _ _ _). Defined.
Lemma threaded_stats : Threaded undefined (fun Sch => gets stats).
Proof. by apply threaded_rest. Defined.

Definition read_clock `{Schedule} : M Z := op ← next_op; clock_now op at_entry.

Lemma threaded_clock : Threaded undefined (fun Sch => read_clock).
Proof. by refine (threaded_op OpClock RInt reply_int _ _ _). Defined.
End Monad.

(** Translate a computation, operation by operation. *)
Create HintDb threaded.
#[export] Hint Resolve threaded_ret threaded_lift threaded_set threaded_get threaded_del
  threaded_exists threaded_expire threaded_ttl threaded_persist threaded_size threaded_memory
  threaded_stats threaded_clock : threaded.

Ltac threaded_step :=
  match goal with
  | |- Threaded _ (fun _ => mbind _ _) => eapply threaded_bind; [|intros ?; cbn beta]
  | |- Threaded _ (fun _ => match ?x with _ => _ end) => destruct x
  | |- Threaded _ _ => solve [eauto with threaded typeclass_instances]
  end.
Ltac threaded := cbv zeta; repeat threaded_step.
