(* ===== verification/DispatchSpec.v ===== *)
(** Routing of commands to handlers, and what an unknown name does to the reply. *)

From S2P Require Import Prelude Cxx Charconv Resp RespParser RespParserFacts RespGrammar.
From S2P Require Import RespTheorems World KvStore Command Demo PubSubBroker GenericCmds.
From S2P Require Import StringCmds ListCmds SetCmds HashCmds Dispatcher.

Open Scope Z_scope.

(** The table the registration functions describe. *)
Definition all_handlers `{CxxRuntime} `{Schedule} (broker : bool) : list (bytes * HandlerFn) :=
  generic_handlers ++ string_handlers ++ list_handlers ++ set_handlers ++ hash_handlers
  ++ (if broker then pubsub_handlers else []).

Lemma register_all_app l1 l2 d : register_all (l1 ++ l2) d = register_all l2 (register_all l1 d).
Proof. unfold register_all. apply fold_left_app. Qed.

Lemma register_handler_lookup n f d n' :
  register_handler n f d !! n' =
  match d !! n' with
  | Some g => Some g
  | None => if decide (n = n') then Some f else None
  end.
Proof.
  unfold register_handler. destruct (d !! n) as [g|] eqn:Hd.
  - destruct (d !! n') as [g'|] eqn:Hd'; [done|]. by rewrite decide_False by congruence.
  - rewrite lookup_insert. case_decide as Hn; [|by destruct (d !! n')].
    subst n'. by rewrite Hd.
Qed.

(** Registered handlers win over later ones of the same name. *)
Lemma register_all_lookup l d n :
  register_all l d !! n =
  match d !! n with
  | Some g => Some g
  | None => (list_to_map l : gmap bytes HandlerFn) !! n
  end.
Proof.
  revert d. induction l as [|[n' f] l IH]; intros d; simpl.
  { rewrite lookup_empty. by destruct (d !! n). }
  rewrite IH, register_handler_lookup, lookup_insert. destruct (d !! n); [done|].
  by case_decide.
Qed.

Lemma dispatch_found (d : gmap bytes HandlerFn) c f :
  d !! name c = Some f -> dispatch d c = f c.
Proof. unfold dispatch. unfold HandlerFn in *. by intros ->. Qed.

Lemma dispatch_unknown (d : gmap bytes HandlerFn) c :
  d !! name c = None -> dispatch d c = mret (RespError ("ERR unknown command '"%b ++ name c ++ "'"%b)).
Proof. unfold dispatch. unfold HandlerFn in *. by intros ->. Qed.

Section Routes.
Context `{CxxRuntime} `{Schedule}.

Lemma make_default_table broker : make_default broker = register_all (all_handlers broker) ∅.
Proof.
  unfold make_default, all_handlers, register_hash, register_set, register_list,
    register_string, register_generic, register_pubsub.
  rewrite !register_all_app. by destruct broker.
Qed.

Lemma all_handlers_nodup broker : NoDup (map fst (all_handlers broker)).
Proof. apply (bool_decide_unpack _). by destruct broker; vm_compute. Qed.

Lemma make_default_lookup broker n f :
  make_default broker !! n = Some f <-> (n, f) ∈ all_handlers broker.
Proof.
  rewrite make_default_table, register_all_lookup, lookup_empty.
  symmetry. apply elem_of_list_to_map, all_handlers_nodup.
Qed.

Lemma make_default_None broker n :
  n ∉ map fst (all_handlers broker) -> make_default broker !! n = None.
Proof.
  intros Hn. apply eq_None_not_Some. intros [f Hf%make_default_lookup]. apply Hn.
  apply list_elem_of_fmap. by exists (n, f).
Qed.

(** Routing: a request whose first bulk string is, in any capitalisation, a
    registered name runs that name's handler with the remaining bulk strings as its
    arguments; no registration is shadowed by another; every other name is answered with
    an error and changes nothing. *)
Theorem dispatch_routes broker n l :
  let request := RespArray (RespBulkString n :: map RespBulkString l) in
  let cmd := MkCommand (upper n) l in
  parse_command request = Some cmd /\
  (forall f, (upper n, f) ∈ all_handlers broker -> dispatch (make_default broker) cmd = f cmd) /\
  (upper n ∉ map fst (all_handlers broker) ->
   forall w, dispatch (make_default broker) cmd w
     = (Ret (RespError ("ERR unknown command '"%b ++ upper n ++ "'"%b)), w)).
Proof.
  cbv zeta. split_and!.
  - apply parse_command_value.
  - intros f Hf. by apply dispatch_found, make_default_lookup.
  - intros Hn w. by rewrite dispatch_unknown by by apply make_default_None.
Qed.

(** A request can forge replies: the error for an unknown name repeats the name
    raw, so behind a line break inside it the client of the connection reads whatever the
    name goes on with. *)
Theorem unknown_name_forges_reply broker a v s b :
  let n := a ++ crlf ++ s ++ b in
  upper n = n -> n ∉ map fst (all_handlers broker) ->
  contains_crlf ("ERR unknown command '"%b ++ a) = false -> wire v s ->
  addressable (serialize (RespError ("ERR unknown command '"%b ++ n ++ "'"%b))) ->
  forall l w, exists p,
    dispatch (make_default broker) (MkCommand n l) w
      = (Ret (RespError ("ERR unknown command '"%b ++ n ++ "'"%b)), w) /\
    RespParser_feed RespParser_new (serialize (RespError ("ERR unknown command '"%b ++ n ++ "'"%b)))
      = (Ret (Some (RespError ("ERR unknown command '"%b ++ a))), p) /\
    RespParser_feed p [] = (Ret (Some v), MkParser (b ++ "'"%b ++ crlf)).
Proof.
  intros n Hup Hn Hcr Hv Ha l w. exists (MkParser (s ++ b ++ "'"%b ++ crlf)).
  set (msg := "ERR unknown command '"%b) in *.
  assert (serialize (RespError (msg ++ n ++ "'"%b))
          = ("-"%b ++ (msg ++ a) ++ crlf) ++ s ++ b ++ "'"%b ++ crlf) as Hser.
  { subst n. cbn [serialize]. by rewrite <- !app_assoc. }
  split_and!.
  - by rewrite dispatch_unknown by by apply make_default_None.
  - rewrite feed_of_buf. cbn [buf_ RespParser_new app].
    apply (feed_complete _ _ ("-"%b ++ (msg ++ a) ++ crlf)); [done|by apply wire_error|done].
  - rewrite Hser in Ha. apply addressable_app_r in Ha. by apply (feed_complete _ _ s).
Qed.
End Routes.

#[local] Existing Instance demo_runtime.
#[local] Existing Instance demo_schedule.

Lemma dispatch_routes_witness :
  dispatch (make_default true) (MkCommand "LPUSH" ["k"; "v"])%b
  = cmd_lpush (MkCommand "LPUSH" ["k"; "v"])%b.
Proof.
  destruct (dispatch_routes true "lpush"%b ["k"; "v"]%b) as (_ & Hr & _).
  apply (Hr cmd_lpush). unfold all_handlers. apply elem_of_app. right.
  apply elem_of_app. right. apply elem_of_app. left. left.
Defined.

Lemma unknown_name_forges_reply_witness :
  exists p,
    RespParser_feed RespParser_new
      (serialize (RespError ("ERR unknown command 'X"%b ++ crlf ++ "+OK"%b ++ crlf ++ "'"%b)))
    = (Ret (Some (RespError "ERR unknown command 'X"%b)), p) /\
    RespParser_feed p [] = (Ret (Some (RespSimpleString "OK"%b)), MkParser ("'"%b ++ crlf)).
Proof.
  destruct (unknown_name_forges_reply true "X"%b (RespSimpleString "OK"%b) ("+OK"%b ++ crlf) [])
    with (l := @nil bytes) (w := demo_world) as (p & _ & H1 & H2).
  - reflexivity.
  - apply (bool_decide_unpack _). vm_compute. exact I.
  - reflexivity.
  - apply (wire_simple "OK"%b). reflexivity.
  - vm_compute. reflexivity.
  - exists p. split; [exact H1|exact H2].
Defined.
