(* ===== verification/ListSpec.v ===== *)
(** List commands against their specification. *)

From S2P Require Import Prelude Cxx Charconv Resp World KvStore KvStoreFacts Command CmdSpec Demo.
From S2P Require Import ListCmds.

Open Scope Z_scope.

(** * Specification: pure functions on the list under the key *)

(** Commands on a missing key see [none]; on another type they answer WRONGTYPE. *)
Definition on_list (none : Out RespValue * effect)
    (some : list bytes -> Out RespValue * effect) : key_spec := fun o =>
  match o with
  | None => none
  | Some (ListValue l) => some l
  | Some _ => (Ret kWrongType, Keep)
  end.

Definition put_list (l : list bytes) : effect :=
  match l with [] => Del | _ => Put (ListValue l) end.

Definition lpush_spec (xs : list bytes) : key_spec :=
  on_list (Ret (RespInteger (zlen xs)), Put (ListValue (rev xs)))
    (fun l => (Ret (RespInteger (zlen xs + zlen l)), Put (ListValue (rev xs ++ l)))).

Definition rpush_spec (xs : list bytes) : key_spec :=
  on_list (Ret (RespInteger (zlen xs)), Put (ListValue xs))
    (fun l => (Ret (RespInteger (zlen l + zlen xs)), Put (ListValue (l ++ xs)))).

Definition lpop_spec : key_spec :=
  on_list (Ret RespNull, Keep) (fun l =>
    match l with
    | [] => (Ret RespNull, Keep)
    | x :: l => (Ret (RespBulkString x), put_list l)
    end).

Definition rpop_spec : key_spec :=
  on_list (Ret RespNull, Keep) (fun l =>
    match rev l with
    | [] => (Ret RespNull, Keep)
    | x :: r => (Ret (RespBulkString x), put_list (rev r))
    end).

Definition llen_spec : key_spec :=
  on_list (Ret (RespInteger 0), Keep) (fun l => (Ret (RespInteger (zlen l)), Keep)).

(** An index counts from the end when it is negative. *)
Definition norm_index (n i : Z) : Z := if i <? 0 then i + n else i.

(** Elements [lo .. hi] (inclusive) of a list, clipped to it. *)
Definition slice (lo hi : Z) (l : list bytes) : list bytes :=
  let lo := Z.max 0 lo in
  let hi := Z.min (zlen l - 1) hi in
  take (Z.to_nat (hi - lo + 1)) (drop (Z.to_nat lo) l).

Definition lrange_spec (a b : bytes) : key_spec :=
  on_list (Ret (RespArray []), Keep) (fun l =>
    match parse_int64 a, parse_int64 b with
    | Some i, Some j =>
        (Ret (RespArray (map RespBulkString
           (slice (norm_index (zlen l) i) (norm_index (zlen l) j) l))), Keep)
    | _, _ => (Ret not_an_integer, Keep)
    end).

Definition lindex_spec (a : bytes) : key_spec :=
  on_list (Ret RespNull, Keep) (fun l =>
    match parse_int64 a with
    | None => (Ret not_an_integer, Keep)
    | Some i =>
        let i := norm_index (zlen l) i in
        match (if i <? 0 then None else l !! Z.to_nat i) with
        | None => (Ret RespNull, Keep)
        | Some x => (Ret (RespBulkString x), Keep)
        end
    end).

(** * Loops *)

Lemma push_front_all_rev xs l : push_front_all xs l = rev xs ++ l.
Proof.
  unfold push_front_all. revert l. induction xs as [|x xs IH]; intros l; simpl; [done|].
  by rewrite IH, <- app_assoc.
Qed.

Lemma push_back_all_app xs l : push_back_all xs l = l ++ xs.
Proof.
  unfold push_back_all. revert l. induction xs as [|x xs IH]; intros l; simpl.
  - by rewrite app_nil_r.
  - by rewrite IH, <- app_assoc.
Qed.

Lemma deque_at_in l i :
  0 <= i < zlen l -> exists x, l !! Z.to_nat i = Some x /\ deque_at l i = Ret x.
Proof.
  intros Hi. unfold deque_at, zlen in *.
  destruct (lookup_lt_is_Some_2 l (Z.to_nat i)) as [x Hx]; [lia|].
  exists x. rewrite Hx. split; [done|].
  by rewrite (proj2 (Z.leb_le _ _)), (proj2 (Z.ltb_lt _ _)) by lia.
Qed.

(** The loop of LRANGE collects the slice and never leaves the list. *)
Lemma range_loop_slice n l i stop acc :
  0 <= i -> stop < zlen l -> stop - i < Z.of_nat n ->
  range_loop n l i stop acc =
  Ret (acc ++ map RespBulkString (take (Z.to_nat (stop - i + 1)) (drop (Z.to_nat i) l))).
Proof.
  revert i acc. induction n as [|n IH]; intros i acc Hi Hs Hn; simpl.
  - destruct (Z.leb_spec i stop); [lia|].
    replace (Z.to_nat (stop - i + 1)) with 0%nat by lia. simpl. by rewrite app_nil_r.
  - destruct (Z.leb_spec i stop).
    + destruct (deque_at_in l i) as (x & Hx & ->); [lia|]. simpl. rewrite IH by lia.
      rewrite <- app_assoc. do 2 f_equal.
      replace (Z.to_nat (stop - i + 1)) with (S (Z.to_nat (stop - (i + 1) + 1))) by lia.
      rewrite (drop_S l x (Z.to_nat i) Hx). simpl. do 3 f_equal.
      replace (Z.to_nat (i + 1)) with (S (Z.to_nat i)) by lia. done.
    + replace (Z.to_nat (stop - i + 1)) with 0%nat by lia. simpl. by rewrite app_nil_r.
Qed.

Lemma range_slice l i j :
  (let '(start, stop) := range_bounds (zlen l) i j in
   if start <=? stop then range_loop (length l) l start stop [] else Ret []) =
  Ret (map RespBulkString (slice (norm_index (zlen l) i) (norm_index (zlen l) j) l)).
Proof.
  pose proof (zlen_nonneg l). unfold range_bounds, slice, norm_index.
  set (a := if i <? 0 then i + zlen l else i). set (b := if j <? 0 then j + zlen l else j).
  replace (if a <? 0 then 0 else a) with (Z.max 0 a) by (destruct (Z.ltb_spec a 0); lia).
  replace (if zlen l <=? b then zlen l - 1 else b) with (Z.min (zlen l - 1) b)
    by (destruct (Z.leb_spec (zlen l) b); lia).
  destruct (Z.leb_spec (Z.max 0 a) (Z.min (zlen l - 1) b)).
  - rewrite range_loop_slice; [done|lia|lia|]. unfold zlen in *. lia.
  - by replace (Z.to_nat (Z.min (zlen l - 1) b - Z.max 0 a + 1)) with 0%nat by lia.
Qed.

Lemma zlen_rev {A} (l : list A) : zlen (rev l) = zlen l.
Proof. unfold zlen. by rewrite length_rev. Qed.

Lemma last_rev {A} (l : list A) x r : rev l = x :: r -> last l = Some x /\ removelast l = rev r.
Proof.
  intros Hl. assert (l = rev r ++ [x]) as -> by by rewrite <- (rev_involutive l), Hl.
  by rewrite last_snoc, removelast_last.
Qed.

Section ListTheorems.
Context `{CxxRuntime} `{Sch : Schedule} `{SchOk : !ScheduleOk Sch}.

(** Storing or dropping a list after a read. *)
Lemma store_list_ends {B} key l w (k : unit -> M B) :
  exists w', (store_list key l ≫= k) (locked w) = k tt w' /\
    data_ w' ≈[now w'] apply_effect key (put_list l) (data_ w) /\ unchanged_rest w w'.
Proof.
  destruct l as [|x l]; unfold store_list; run; eexists; (split; [reflexivity|]).
  - apply ends_del.
  - apply ends_put.
Qed.

Lemma push_refines push nm key x xs (spec : key_spec) :
  (forall l, spec (Some (ListValue l)) =
     (Ret (RespInteger (zlen (push (x :: xs) l))), Put (ListValue (push (x :: xs) l)))) ->
  spec None = spec (Some (ListValue [])) ->
  (forall v, is_list v = false -> spec (Some v) = (Ret kWrongType, Keep)) ->
  refines (push_list push (MkCommand nm (key :: x :: xs))) key spec.
Proof.
  intros Hl Hn Hw w. cbn [push_list args]. unfold get_or_create_list. run.
  destruct (view w key) as [v|].
  - destruct (is_list v) eqn:Hv.
    + destruct v as [|l| |]; try done. run. rewrite Hl. ends.
    + run. rewrite Hw by done. ends.
  - run. rewrite Hn, Hl. ends.
Qed.

(** C14. List commands: on every live value under the key, LPUSH, RPUSH, LPOP, RPOP,
    LLEN, LRANGE and LINDEX give the reply and the new list of the specification
    (LRANGE is the inclusive, clipped slice with negative indices counted from the end),
    answer WRONGTYPE on other types, delete an emptied key, and change no other key. *)
Theorem list_commands_refine nm key x xs a b :
  refines (cmd_lpush (MkCommand nm (key :: x :: xs))) key (lpush_spec (x :: xs)) /\
  refines (cmd_rpush (MkCommand nm (key :: x :: xs))) key (rpush_spec (x :: xs)) /\
  refines (cmd_lpop (MkCommand nm [key])) key lpop_spec /\
  refines (cmd_rpop (MkCommand nm [key])) key rpop_spec /\
  refines (cmd_llen (MkCommand nm [key])) key llen_spec /\
  refines (cmd_lrange (MkCommand nm [key; a; b])) key (lrange_spec a b) /\
  refines (cmd_lindex (MkCommand nm [key; a])) key (lindex_spec a).
Proof.
  split_and!.
  - apply push_refines.
    + intros l. by rewrite push_front_all_rev, zlen_app, zlen_rev.
    + simpl. unfold lpush_spec, on_list. simpl. by rewrite app_nil_r, Z.add_0_r.
    + by intros [].
  - apply push_refines.
    + intros l. by rewrite push_back_all_app, zlen_app.
    + done.
    + by intros [].
  - intros w. unfold cmd_lpop, lpop_spec. cbn [args]. run.
    destruct (view w key) as [[|[|e l]| |]|]; run; cbn [on_list]; try ends.
    destruct (store_list_ends key l w (fun _ => mret (RespBulkString e))) as (w' & Hr & He).
    exists w'. by rewrite Hr.
  - intros w. unfold cmd_rpop, rpop_spec. cbn [args]. run.
    destruct (view w key) as [[|l| |]|]; run; cbn [on_list]; try ends.
    destruct (rev l) as [|e r] eqn:Hl.
    + apply (f_equal (@rev _)) in Hl. rewrite rev_involutive in Hl. subst l. ends.
    + destruct (last_rev l e r Hl) as [-> ->].
      destruct (store_list_ends key (rev r) w (fun _ => mret (RespBulkString e)))
        as (w' & Hr & He). exists w'. by rewrite Hr.
  - intros w. unfold cmd_llen, llen_spec. cbn [args]. run.
    destruct (view w key) as [[|l| |]|]; run; ends.
  - intros w. unfold cmd_lrange, lrange_spec. cbn [args]. run.
    destruct (view w key) as [[|l| |]|]; run; cbn [on_list]; try ends.
    destruct (parse_int64 a) as [i|], (parse_int64 b) as [j|]; try ends.
    pose proof (range_slice l i j) as Hs. destruct (range_bounds (zlen l) i j) as [st en].
    run. rewrite Hs. ends.
  - intros w. unfold cmd_lindex, lindex_spec. cbn [args]. run.
    destruct (view w key) as [[|l| |]|]; run; cbn [on_list]; try ends.
    destruct (parse_int64 a) as [i|]; [|ends].
    change (if i <? 0 then i + zlen l else i) with (norm_index (zlen l) i).
    set (k := norm_index (zlen l) i).
    destruct (Z.ltb_spec k 0); [ends|]. simpl.
    destruct (Z.leb_spec (zlen l) k).
    + rewrite (lookup_ge_None_2 l) by (unfold zlen in *; lia). ends.
    + destruct (deque_at_in l k) as (y & -> & Hy); [lia|]. run. rewrite Hy. ends.
Qed.
End ListTheorems.

#[local] Existing Instance demo_runtime.
#[local] Existing Instance demo_schedule.

Lemma list_commands_refine_witness :
  exists w', cmd_lrange (MkCommand "LRANGE"%b ["l"; "-2"; "9"]%b) demo_world
    = (Ret (RespArray [RespBulkString "b"; RespBulkString "c"]%b), w').
Proof.
  pose proof (list_commands_refine "LRANGE"%b "l"%b [] [] "-2"%b "9"%b)
    as (_ & _ & _ & _ & _ & Hr & _).
  destruct (Hr demo_world) as (w' & Hw & _). exists w'. exact Hw.
Defined.
