(* ===== verification/SetSpec.v ===== *)
(** Set commands against their specification. *)

From S2P Require Import Prelude Cxx Charconv Resp World KvStore KvStoreFacts Command CmdSpec Demo.
From S2P Require Import SetCmds.

Open Scope Z_scope.

Definition on_set (none : Out RespValue * effect)
    (some : gset bytes -> Out RespValue * effect) : key_spec := fun o =>
  match o with
  | None => none
  | Some (SetValue s) => some s
  | Some _ => (Ret kWrongType, Keep)
  end.

Definition card (s : gset bytes) : Z := Z.of_nat (size s).

(** SADD makes the union; the reply is how much the set grew. *)
Definition sadd_spec (xs : list bytes) : key_spec :=
  let add s :=
    let s' := s ∪ list_to_set xs in
    (Ret (RespInteger (card s' - card s)), Put (SetValue s')) in
  on_set (add ∅) add.

(** SREM makes the difference, and drops an emptied key. *)
Definition srem_spec (xs : list bytes) : key_spec :=
  on_set (Ret (RespInteger 0), Keep) (fun s =>
    let s' := s ∖ list_to_set xs in
    (Ret (RespInteger (card s - card s')),
     if decide (s' = ∅) then Del else Put (SetValue s'))).

Definition sismember_spec (x : bytes) : key_spec :=
  on_set (Ret (RespInteger 0), Keep) (fun s =>
    (Ret (RespInteger (if bool_decide (x ∈ s) then 1 else 0)), Keep)).

Definition scard_spec : key_spec :=
  on_set (Ret (RespInteger 0), Keep) (fun s => (Ret (RespInteger (card s)), Keep)).

(** SMEMBERS lists every member exactly once, in some order. *)
Definition smembers_spec `{CxxRuntime} : key_spec :=
  on_set (Ret (RespArray []), Keep) (fun s =>
    (Ret (RespArray (map RespBulkString (iter_set s))), Keep)).

(** * Loops *)

Lemma insert_loop_union xs s n :
  insert_loop xs s n = (s ∪ list_to_set xs, n + (card (s ∪ list_to_set xs) - card s)).
Proof.
  revert s n. induction xs as [|x xs IH]; intros s n; simpl.
  - rewrite union_empty_r_L. f_equal. lia.
  - rewrite IH. assert ({[x]} ∪ s ∪ list_to_set xs = s ∪ ({[x]} ∪ list_to_set xs)) as ->
      by set_solver.
    f_equal. unfold card. destruct (decide (x ∈ s)).
    + by assert ({[x]} ∪ s = s) as -> by set_solver.
    + rewrite (size_union {[x]} s) by set_solver. rewrite size_singleton. lia.
Qed.

Lemma erase_loop_difference xs s n :
  erase_loop xs s n = (s ∖ list_to_set xs, n + (card s - card (s ∖ list_to_set xs))).
Proof.
  revert s n. induction xs as [|x xs IH]; intros s n; simpl.
  - rewrite difference_empty_L. f_equal. lia.
  - rewrite IH. assert (s ∖ {[x]} ∖ list_to_set xs = s ∖ ({[x]} ∪ list_to_set xs)) as ->
      by set_solver.
    f_equal. unfold card. destruct (decide (x ∈ s)).
    + rewrite (size_difference s {[x]}), size_singleton by set_solver.
      assert (size s <> 0%nat) by (intros ?%size_empty_inv; set_solver). lia.
    + by assert (s ∖ {[x]} = s) as -> by set_solver.
Qed.

Section SetTheorems.
Context `{CxxRuntime} `{Sch : Schedule} `{SchOk : !ScheduleOk Sch}.

(** C15. Set commands: SADD stores the union and replies how many members were new, SREM
    the difference and how many were removed (an emptied key disappears), SISMEMBER and
    SCARD are membership and cardinality, SMEMBERS lists the set; other types answer
    WRONGTYPE and no other key changes. *)
Theorem set_commands_refine nm key x xs :
  refines (cmd_sadd (MkCommand nm (key :: x :: xs))) key (sadd_spec (x :: xs)) /\
  refines (cmd_srem (MkCommand nm (key :: x :: xs))) key (srem_spec (x :: xs)) /\
  refines (cmd_smembers (MkCommand nm [key])) key smembers_spec /\
  refines (cmd_sismember (MkCommand nm [key; x])) key (sismember_spec x) /\
  refines (cmd_scard (MkCommand nm [key])) key scard_spec.
Proof.
  split_and!; intros w.
  - unfold cmd_sadd, sadd_spec, get_or_create_set. cbn [args]. run.
    destruct (view w key) as [[| |s|]|]; run; cbn [on_set];
      rewrite ?insert_loop_union, ?Z.add_0_l; run; ends.
  - unfold cmd_srem, srem_spec. cbn [args]. run.
    destruct (view w key) as [[| |s|]|]; run; cbn [on_set]; try ends.
    rewrite erase_loop_difference, Z.add_0_l. case_decide; run; ends.
  - unfold cmd_smembers, smembers_spec. cbn [args]. run.
    destruct (view w key) as [[| |s|]|]; run; cbn [on_set]; ends.
  - unfold cmd_sismember, sismember_spec. cbn [args]. run.
    destruct (view w key) as [[| |s|]|]; run; cbn [on_set]; try ends.
    destruct (decide (x ∈ s)) as [Hx|Hx];
      [rewrite bool_decide_true by done|rewrite bool_decide_false by done]; ends.
  - unfold cmd_scard, scard_spec. cbn [args]. run.
    destruct (view w key) as [[| |s|]|]; run; cbn [on_set]; ends.
Qed.
End SetTheorems.

#[local] Existing Instance demo_runtime.
#[local] Existing Instance demo_schedule.

Lemma set_commands_refine_witness :
  exists w', cmd_sadd (MkCommand "SADD"%b ["m"; "x"; "z"; "z"]%b) demo_world
    = (Ret (RespInteger 1), w').
Proof.
  pose proof (set_commands_refine "SADD"%b "m"%b "x"%b ["z"; "z"]%b) as (Hr & _).
  destruct (Hr demo_world) as (w' & Hw & _). exists w'. vm_compute in Hw |- *. exact Hw.
Defined.
