(* ===== verification/HashSpec.v ===== *)
(** Hash commands against their specification. *)

From S2P Require Import Prelude Cxx Charconv Resp World KvStore KvStoreFacts Command CmdSpec Demo.
From S2P Require Import HashCmds.

Open Scope Z_scope.

Definition on_hash (none : Out RespValue * effect)
    (some : gmap bytes bytes -> Out RespValue * effect) : key_spec := fun o =>
  match o with
  | None => none
  | Some (HashValue h) => some h
  | Some _ => (Ret kWrongType, Keep)
  end.

Definition count_fields (h : gmap bytes bytes) : Z := Z.of_nat (size h).

(** Arguments of HSET behind the key: field/value pairs. *)
Definition flatten (fvs : list (bytes * bytes)) : list bytes :=
  flat_map (fun fv => [fst fv; snd fv]) fvs.

(** Writing pairs one after the other: the last value of a field wins. *)
Definition write_fields (fvs : list (bytes * bytes)) (h : gmap bytes bytes)
    : gmap bytes bytes :=
  list_to_map (rev fvs) ∪ h.

Definition hset_spec (fvs : list (bytes * bytes)) : key_spec :=
  let upd h :=
    let h' := write_fields fvs h in
    (Ret (RespInteger (count_fields h' - count_fields h)), Put (HashValue h')) in
  on_hash (upd ∅) upd.

Definition hget_spec (f : bytes) : key_spec :=
  on_hash (Ret RespNull, Keep) (fun h =>
    (Ret (from_option RespBulkString RespNull (h !! f)), Keep)).

Definition hdel_spec (fs : list bytes) : key_spec :=
  on_hash (Ret (RespInteger 0), Keep) (fun h =>
    let h' := filter (fun fv => fst fv ∉ fs) h in
    (Ret (RespInteger (count_fields h - count_fields h')),
     if decide (h' = ∅) then Del else Put (HashValue h'))).

Definition hexists_spec (f : bytes) : key_spec :=
  on_hash (Ret (RespInteger 0), Keep) (fun h =>
    (Ret (RespInteger (if bool_decide (f ∈ dom h) then 1 else 0)), Keep)).

Definition hlen_spec : key_spec :=
  on_hash (Ret (RespInteger 0), Keep) (fun h => (Ret (RespInteger (count_fields h)), Keep)).

(** HGETALL lists every field followed by its value, in some order of the fields. *)
Definition hgetall_spec `{CxxRuntime} : key_spec :=
  on_hash (Ret (RespArray []), Keep) (fun h =>
    (Ret (RespArray (map RespBulkString (flatten (iter_map _ h)))), Keep)).

(** * Loops *)

Lemma write_fields_cons f v fvs h :
  write_fields ((f, v) :: fvs) h = write_fields fvs (<[f := v]> h).
Proof.
  unfold write_fields. simpl. rewrite list_to_map_app, <- map_union_assoc. simpl.
  by rewrite insert_empty, <- insert_union_singleton_l.
Qed.

Lemma hset_loop_write fvs h n :
  hset_loop (flatten fvs) h n =
  Ret (write_fields fvs h, n + (count_fields (write_fields fvs h) - count_fields h)).
Proof.
  revert h n. induction fvs as [|[f v] fvs IH]; intros h n; simpl.
  - unfold write_fields. simpl. rewrite (left_id_L ∅ (∪)). do 2 f_equal. lia.
  - rewrite IH, write_fields_cons. do 2 f_equal. unfold count_fields.
    destruct (h !! f) eqn:Hf.
    + by rewrite (map_size_insert_Some f v h) by by rewrite Hf.
    + rewrite (map_size_insert_None f v h) by done. lia.
Qed.

Lemma hdel_loop_filter fs h n :
  hdel_loop fs h n =
  (filter (fun fv => fst fv ∉ fs) h,
   n + (count_fields h - count_fields (filter (fun fv => fst fv ∉ fs) h))).
Proof.
  revert h n. induction fs as [|f fs IH]; intros h n; simpl.
  - rewrite map_filter_id by set_solver. f_equal. lia.
  - rewrite IH.
    assert (filter (fun fv => fst fv ∉ fs) (delete f h) =
            filter (fun fv => fst fv ∉ f :: fs) h) as ->.
    { apply map_eq. intros g. rewrite !map_lookup_filter. rewrite lookup_delete.
      destruct (decide (f = g)) as [-> |].
      - simpl. destruct (h !! g); simpl; [|done]. case_guard; set_solver.
      - destruct (h !! g); simpl; [|done]. repeat case_guard; set_solver. }
    f_equal. unfold count_fields. destruct (h !! f) eqn:Hf.
    + rewrite (map_size_delete_Some f h) by by rewrite Hf.
      assert (size h <> 0%nat) by (intros ->%map_size_empty_iff; by rewrite lookup_empty in Hf).
      lia.
    + by rewrite (map_size_delete_None f h).
Qed.

Lemma length_flatten fvs : length (flatten fvs) = (2 * length fvs)%nat.
Proof. induction fvs as [|fv fvs IH]; simpl; [done|]. rewrite IH. lia. Qed.

Lemma map_flatten {B} (f : bytes -> B) fvs :
  flat_map (fun fv => [f (fst fv); f (snd fv)]) fvs = map f (flatten fvs).
Proof. induction fvs as [|fv fvs IH]; simpl; [done|]. by rewrite IH. Qed.

(** The arity test of HSET accepts a key with at least one field/value pair. *)
Lemma hset_arity key fv fvs :
  (zlen (key :: flatten (fv :: fvs)) <? 3) || (zlen (key :: flatten (fv :: fvs)) mod 2 =? 0)
  = false.
Proof.
  unfold zlen. cbn [length]. rewrite length_flatten. cbn [length].
  replace (Z.of_nat (S (2 * S (length fvs)))) with (1 + (1 + Z.of_nat (length fvs)) * 2) by lia.
  rewrite Z.mod_add by done. change (1 mod 2 =? 0) with false. rewrite orb_false_r.
  apply Z.ltb_ge. lia.
Qed.

Section HashTheorems.
Context `{CxxRuntime} `{Sch : Schedule} `{SchOk : !ScheduleOk Sch}.

(** C16. Hash commands: HSET writes the field/value pairs (the last value of a repeated
    field wins) and replies how many fields are new, HDEL removes fields and an emptied
    key, HGET, HEXISTS, HLEN and HGETALL read the map; other types answer WRONGTYPE and
    no other key changes. *)
Theorem hash_commands_refine nm key fv fvs f fs :
  refines (cmd_hset (MkCommand nm (key :: flatten (fv :: fvs)))) key (hset_spec (fv :: fvs)) /\
  refines (cmd_hget (MkCommand nm [key; f])) key (hget_spec f) /\
  refines (cmd_hdel (MkCommand nm (key :: f :: fs))) key (hdel_spec (f :: fs)) /\
  refines (cmd_hgetall (MkCommand nm [key])) key hgetall_spec /\
  refines (cmd_hexists (MkCommand nm [key; f])) key (hexists_spec f) /\
  refines (cmd_hlen (MkCommand nm [key])) key hlen_spec.
Proof.
  split_and!; intros w.
  - unfold cmd_hset, hset_spec, get_or_create_hash. cbn [args]. rewrite hset_arity. run.
    destruct (view w key) as [[| | |h]|]; run; cbn [on_hash];
      rewrite ?hset_loop_write, ?Z.add_0_l; run; ends.
  - unfold cmd_hget, hget_spec. cbn [args]. run.
    destruct (view w key) as [[| | |h]|]; run; cbn [on_hash]; try ends.
    destruct (h !! f); ends.
  - unfold cmd_hdel, hdel_spec. cbn [args]. run.
    destruct (view w key) as [[| | |h]|]; run; cbn [on_hash]; try ends.
    rewrite hdel_loop_filter, Z.add_0_l. case_decide; run; ends.
  - unfold cmd_hgetall, hgetall_spec. cbn [args]. run.
    destruct (view w key) as [[| | |h]|]; run; cbn [on_hash];
      rewrite ?(map_flatten RespBulkString); ends.
  - unfold cmd_hexists, hexists_spec. cbn [args]. run.
    destruct (view w key) as [[| | |h]|]; run; cbn [on_hash]; try ends.
    destruct (h !! f) eqn:Hf.
    + rewrite bool_decide_true by by apply elem_of_dom_2 in Hf. ends.
    + rewrite bool_decide_false by by apply not_elem_of_dom. ends.
  - unfold cmd_hlen, hlen_spec. cbn [args]. run.
    destruct (view w key) as [[| | |h]|]; run; cbn [on_hash]; ends.
Qed.
End HashTheorems.

#[local] Existing Instance demo_runtime.
#[local] Existing Instance demo_schedule.

Lemma hash_commands_refine_witness :
  exists w', cmd_hset (MkCommand "HSET"%b ["h"; "f"; "2"; "g"; "3"]%b) demo_world
    = (Ret (RespInteger 1), w').
Proof.
  pose proof (hash_commands_refine "HSET"%b "h"%b ("f", "2")%b [("g", "3")]%b [] []) as (Hr & _).
  destruct (Hr demo_world) as (w' & Hw & _). exists w'. vm_compute in Hw |- *. exact Hw.
Defined.
