(* ===== verification/StringSpec.v ===== *)
(** String commands against their specification. *)

From S2P Require Import Prelude Cxx Charconv Resp World KvStore KvStoreFacts Command CmdSpec Demo.
From S2P Require Import StringCmds.

Open Scope Z_scope.

(** The string handlers read the value with [as_string], which throws on other types. *)
Definition on_string (none : Out RespValue * effect)
    (some : bytes -> Out RespValue * effect) : key_spec := fun o =>
  match o with
  | None => none
  | Some (StringValue s) => some s
  | Some _ => (Exn bad_variant_access, Keep)
  end.

Definition get_spec : key_spec :=
  on_string (Ret RespNull, Keep) (fun s => (Ret (RespBulkString s), Keep)).

Definition would_overflow : RespValue :=
  RespError "ERR increment or decrement would overflow"%b.

(** Exact 64-bit addition, or an error that leaves the key alone. *)
Definition delta_spec (delta : Z) : key_spec :=
  let add n :=
    if in_int64 (n + delta)
    then (Ret (RespInteger (n + delta)), Put (StringValue (to_string (n + delta))))
    else (Ret would_overflow, Keep) in
  on_string (add 0) (fun s =>
    match parse_int64 s with
    | None => (Ret not_an_integer, Keep)
    | Some n => add n
    end).

Definition incrby_spec (a : bytes) : key_spec :=
  match parse_int64 a with
  | None => fun _ => (Ret not_an_integer, Keep)
  | Some d => delta_spec d
  end.

Definition decrby_spec (a : bytes) : key_spec :=
  match parse_int64 a with
  | None => fun _ => (Ret not_an_integer, Keep)
  | Some d => if d =? INT64_MIN then fun _ => (Ret would_overflow, Keep) else delta_spec (- d)
  end.

(** The overflow test of apply_delta is exact. *)
Lemma overflow_test num delta :
  INT64_MIN <= num <= INT64_MAX -> INT64_MIN <= delta <= INT64_MAX ->
  ((0 <? delta) && (INT64_MAX - delta <? num)) || ((delta <? 0) && (num <? INT64_MIN - delta))
  = negb (in_int64 (num + delta)).
Proof.
  intros Hn Hd. unfold in_int64, INT64_MIN, INT64_MAX in *.
  destruct (Z.ltb_spec 0 delta), (Z.ltb_spec delta 0),
    (Z.ltb_spec (2 ^ 63 - 1 - delta) num), (Z.ltb_spec num (- 2 ^ 63 - delta)),
    (Z.leb_spec (- 2 ^ 63) (num + delta)), (Z.leb_spec (num + delta) (2 ^ 63 - 1));
    simpl; first [done | lia].
Qed.

Section StringTheorems.
Context `{CxxRuntime} `{Sch : Schedule} `{SchOk : !ScheduleOk Sch}.

Lemma delta_refines key delta :
  INT64_MIN <= delta <= INT64_MAX -> refines (apply_delta key delta) key (delta_spec delta).
Proof.
  intros Hd w.
  assert (forall num, INT64_MIN <= num <= INT64_MAX -> exists w',
    add_delta key delta num (locked w) =
      (if in_int64 (num + delta) then Ret (RespInteger (num + delta)) else Ret would_overflow, w') /\
    data_ w' ≈[now w'] apply_effect key
      (if in_int64 (num + delta) then Put (StringValue (to_string (num + delta))) else Keep)
      (data_ w) /\ unchanged_rest w w') as Hadd.
  { intros num Hn. unfold add_delta. rewrite overflow_test by done. unfold int64.
    destruct (in_int64 (num + delta)); cbn [negb]; run; ends. }
  unfold apply_delta, delta_spec. run.
  destruct (view w key) as [[s| | |]|]; run; cbn [on_string]; try ends.
  - destruct (parse_int64 s) as [n|] eqn:Hn; [|ends].
    destruct (Hadd n) as (w' & He & Hw); [by apply parse_int64_range in Hn|].
    exists w'. rewrite He. by destruct (in_int64 (n + delta)).
  - destruct (Hadd 0) as (w' & He & Hw); [done|].
    exists w'. rewrite He. by destruct (in_int64 (0 + delta)).
Qed.

Lemma refines_reply key r : refines (mret r) key (fun _ => (Ret r, Keep)).
Proof. intros w. exists w. split_and!; [done..|]. by split. Qed.

(** C17. GET and the counters: GET returns the live string; INCR, DECR, INCRBY and DECRBY
    store and return the exact 64-bit sum of the stored integer (0 when the key is
    missing) and the amount, or answer an error and leave the key alone when the stored
    text or the amount is not an int64 or the sum overflows. On a key of another type
    all five let [std::bad_variant_access] escape, and change nothing. *)
Theorem string_commands_refine nm key a :
  refines (cmd_get (MkCommand nm [key])) key get_spec /\
  refines (cmd_incr (MkCommand nm [key])) key (delta_spec 1) /\
  refines (cmd_decr (MkCommand nm [key])) key (delta_spec (-1)) /\
  refines (cmd_incrby (MkCommand nm [key; a])) key (incrby_spec a) /\
  refines (cmd_decrby (MkCommand nm [key; a])) key (decrby_spec a).
Proof.
  split_and!.
  - intros w. unfold cmd_get, get_spec. cbn [args]. run.
    destruct (view w key) as [[s| | |]|]; run; cbn [on_string]; ends.
  - by apply delta_refines.
  - by apply delta_refines.
  - unfold cmd_incrby, incrby_spec. cbn [args]. destruct (parse_int64 a) as [d|] eqn:Ha.
    + apply delta_refines. by apply parse_int64_range in Ha.
    + apply refines_reply.
  - unfold cmd_decrby, decrby_spec. cbn [args]. destruct (parse_int64 a) as [d|] eqn:Ha.
    + apply parse_int64_range in Ha. destruct (Z.eqb_spec d INT64_MIN).
      * apply refines_reply.
      * apply delta_refines. unfold INT64_MIN, INT64_MAX in *. lia.
    + apply refines_reply.
Qed.
End StringTheorems.

#[local] Existing Instance demo_runtime.
#[local] Existing Instance demo_schedule.

Lemma string_commands_refine_witness :
  (exists w', cmd_incrby (MkCommand "INCRBY"%b ["s"; "1"]%b) demo_world
     = (Ret (RespInteger 42), w')) /\
  (exists w', cmd_get (MkCommand "GET"%b ["l"]%b) demo_world = (Exn bad_variant_access, w')).
Proof.
  split.
  - pose proof (string_commands_refine "INCRBY"%b "s"%b "1"%b) as (_ & _ & _ & Hr & _).
    destruct (Hr demo_world) as (w' & Hw & _). exists w'. vm_compute in Hw |- *. exact Hw.
  - pose proof (string_commands_refine "GET"%b "l"%b []) as (Hr & _).
    destruct (Hr demo_world) as (w' & Hw & _). exists w'. vm_compute in Hw |- *. exact Hw.
Defined.
