(* ===== verification/ExpirySpec.v ===== *)
(** SET with its options, and the commands about time to live. *)

From S2P Require Import Prelude Cxx Charconv Resp World KvStore KvStoreFacts Command CmdSpec Demo.
From S2P Require Import GenericCmds StringCmds.

Open Scope Z_scope.

Definition OK : RespValue := RespSimpleString "OK"%b.
Definition ns_per_s : Z := 1000000000.

(** * The options of SET *)

Inductive SetOption := OptNX | OptXX | OptEX (secs : Z) | OptPX (ms : Z).

#[global] Instance SetOption_eq_dec : EqDecision SetOption.
Proof. solve_decision. Defined.

(** How a client writes an option: its name in any capitalisation and, for a time to live, a
    positive number that fits in int64. *)
Definition spells (o : SetOption) (l : list bytes) : Prop :=
  match o with
  | OptNX => exists f, l = [f] /\ upper f = "NX"%b
  | OptXX => exists f, l = [f] /\ upper f = "XX"%b
  | OptEX n => exists f s, l = [f; s] /\ upper f = "EX"%b /\ parse_int64 s = Some n /\ 0 < n
  | OptPX n => exists f s, l = [f; s] /\ upper f = "PX"%b /\ parse_int64 s = Some n /\ 0 < n
  end.

Inductive spelled : list SetOption -> list bytes -> Prop :=
  | spelled_nil : spelled [] []
  | spelled_cons o os l l' : spells o l -> spelled os l' -> spelled (o :: os) (l ++ l').

(** Arguments that do not begin with an option, and the reply they get. *)
Inductive ill_formed : list bytes -> RespValue -> Prop :=
  | ill_name f l :
      upper f ∉ ["NX"; "XX"; "EX"; "PX"]%b -> ill_formed (f :: l) (RespError "ERR syntax error"%b)
  | ill_missing f :
      upper f ∈ ["EX"; "PX"]%b -> ill_formed [f] (RespError "ERR syntax error"%b)
  | ill_time f s l :
      upper f ∈ ["EX"; "PX"]%b -> (forall n, parse_int64 s = Some n -> n <= 0) ->
      ill_formed (f :: s :: l) (RespError "ERR invalid expire time in 'set' command"%b).

(** The time to live in milliseconds: the last EX or PX counts. *)
Definition option_ms (o : SetOption) : option Z :=
  match o with OptEX n => Some (n * 1000) | OptPX n => Some n | _ => None end.

Definition time_to_live (os : list SetOption) : option Z := last (omap option_ms os).

(** Seconds whose milliseconds leave int64. *)
Definition too_long (os : list SetOption) : bool :=
  existsb (fun o => if o is OptEX n then INT64_MAX <? n * 1000 else false) os.

(** The deadline a store with time to live [ttl] (milliseconds) gives an entry. *)
Definition deadline_opt (t ttl : Z) : Out (option Z) :=
  if 0 <? ttl then out_bind (deadline t ttl) (fun d => Ret (Some d)) else Ret None.

Section Expiry.
Context `{CxxRuntime} `{Sch : Schedule} `{SchOk : !ScheduleOk Sch}.

Lemma deadline_fits t ttl :
  INT64_MIN <= ttl * ns_per_ms <= INT64_MAX -> INT64_MIN <= t + ttl * ns_per_ms <= INT64_MAX ->
  deadline t ttl = Ret (t + ttl * ns_per_ms).
Proof.
  intros H1 H2. unfold deadline, int64. rewrite (proj2 (in_int64_spec _)) by done. simpl.
  by rewrite (proj2 (in_int64_spec _)).
Qed.

Lemma set_any_run key v ttl w :
  KvStore_set key v ttl w =
  match deadline_opt (now w) ttl with
  | Ret dl => (Ret tt, set_data (<[key := MkEntry v dl]> (data_ (locked w))) (locked w))
  | Exn e => (Exn e, set_tick (S (tick w)) w)
  | UB => (UB, set_tick (S (tick w)) w)
  | NoFuel => (NoFuel, set_tick (S (tick w)) w)
  end.
Proof.
  unfold deadline_opt. destruct (Z.ltb_spec 0 ttl).
  - rewrite set_ttl_run by done. by destruct (deadline _ _).
  - by rewrite set_nottl, set_run.
Qed.

Lemma bind_exists {B} key (k : bool -> M B) w :
  (KvStore_exists key ≫= k) w = k (is_live w key) (locked w).
Proof. by rewrite bind_run, exists_run. Qed.

Lemma put_later key e w :
  let w2 := locked (locked w) in
  data_ (set_data (<[key := e]> (data_ w2)) w2) ≈[now w2] <[key := e]> (data_ w).
Proof. simpl. apply insert_live_proper. apply locked2_now_equiv. Qed.

(** Option parsing returns, or overflows int64 converting seconds; likewise deadlines. *)
Lemma set_options_total l o : set_options l o = UB \/ exists r, set_options l o = Ret r.
Proof.
  remember (length l) as n eqn:Hn. revert l Hn o.
  induction n as [n IH] using lt_wf_ind. intros [|f l] -> o; [by right; eexists|].
  cbn [set_options]. unfold int64.
  repeat case_match; cbn [out_bind]; eauto; (eapply IH; [|reflexivity]; simpl; lia).
Qed.

Lemma deadline_opt_total t ttl :
  deadline_opt t ttl = UB \/ exists dl, deadline_opt t ttl = Ret dl.
Proof.
  unfold deadline_opt, deadline, int64. destruct (0 <? ttl); [|eauto].
  destruct (in_int64 (ttl * ns_per_ms)); simpl; [|eauto].
  destruct (in_int64 (t + ttl * ns_per_ms)); simpl; eauto.
Qed.

(** A SET whose options are accepted, run to the end. *)
Lemma set_command_run nm key v opts o w :
  set_options opts (MkSetOptions 0 false false) = Ret (inr o) -> opt_nx o && opt_xx o = false ->
  cmd_set (MkCommand nm (key :: v :: opts)) w =
  if (opt_nx o && is_live w key) || (opt_xx o && negb (is_live w key))
  then (Ret RespNull, locked w)
  else
    match deadline_opt (now (locked w)) (opt_ttl o) with
    | Ret dl =>
        let w2 := locked (locked w) in
        (Ret OK, set_data (<[key := MkEntry (StringValue v) dl]> (data_ w2)) w2)
    | _ => (UB, set_tick (S (tick (locked w))) (locked w))
    end.
Proof.
  intros Ho Hnx. unfold cmd_set. cbn [args]. rewrite bind_lift, Ho, Hnx, bind_exists.
  destruct (opt_nx o && is_live w key); cbn [orb]; [done|].
  destruct (opt_xx o && negb (is_live w key)); [done|]. rewrite bind_run, set_any_run.
  by destruct (deadline_opt_total (now (locked w)) (opt_ttl o)) as [-> |[dl ->]].
Qed.

(** ** The option loop reads what a client spelled *)

Lemma spelled_or_ill opts :
  exists os pre rest, opts = pre ++ rest /\ spelled os pre /\
    (rest = [] \/ exists reply, ill_formed rest reply).
Proof.
  induction opts as [opts IH] using (induction_ltof1 _ length). unfold ltof in IH.
  assert (forall o l opts', opts = l ++ opts' -> l <> [] -> spells o l -> exists os pre rest,
    opts = pre ++ rest /\ spelled os pre /\ (rest = [] \/ exists reply, ill_formed rest reply)) as Hrec.
  { intros o l opts' -> Hl Ho. destruct (IH opts') as (os & pre & rest & -> & Hs & Hr).
    { rewrite length_app. destruct l; [done|]. cbn [length]. lia. }
    exists (o :: os), (l ++ pre), rest. rewrite <- app_assoc. split_and!; [done|by constructor|done]. }
  assert (forall reply, ill_formed opts reply -> exists os pre rest,
    opts = pre ++ rest /\ spelled os pre /\ (rest = [] \/ exists reply, ill_formed rest reply)) as Hill.
  { intros reply Hi. exists [], [], opts. split_and!; [done|constructor|eauto]. }
  destruct opts as [|f l]; [exists [], [], []; split_and!; [done|constructor|by left]|].
  destruct (decide (upper f ∈ ["EX"; "PX"]%b)) as [Ht|Ht].
  - destruct l as [|s l]; [by eapply Hill, ill_missing|].
    destruct (parse_int64 s) as [n|] eqn:Hn; [|eapply Hill, ill_time; [done|congruence]].
    destruct (Z.leb_spec n 0); [eapply Hill, ill_time; [done|congruence]|].
    rewrite !elem_of_cons, elem_of_nil in Ht. destruct Ht as [Hf|[Hf|[]]].
    + apply (Hrec (OptEX n) [f; s] l); [done..|]. by exists f, s.
    + apply (Hrec (OptPX n) [f; s] l); [done..|]. by exists f, s.
  - destruct (decide (upper f = "NX"%b)); [apply (Hrec OptNX [f] l); [done..|by exists f]|].
    destruct (decide (upper f = "XX"%b)); [apply (Hrec OptXX [f] l); [done..|by exists f]|].
    eapply Hill, ill_name. set_solver.
Qed.

Definition with_option (o : SetOptions) (opt : SetOption) : SetOptions :=
  match opt with
  | OptNX => MkSetOptions (opt_ttl o) true (opt_xx o)
  | OptXX => MkSetOptions (opt_ttl o) (opt_nx o) true
  | OptEX n => MkSetOptions (n * 1000) (opt_nx o) (opt_xx o)
  | OptPX n => MkSetOptions n (opt_nx o) (opt_xx o)
  end.

Lemma set_options_spelled os pre rest o :
  spelled os pre ->
  set_options (pre ++ rest) o =
  if too_long os then UB else set_options rest (fold_left with_option os o).
Proof.
  intros Hs. revert o. induction Hs as [|opt os l l' Ho _ IH]; intros o; [done|].
  rewrite <- app_assoc. cbn [fold_left too_long existsb].
  destruct opt as [| |n|n]; cbn [spells orb] in *.
  - destruct Ho as (f & -> & Hf). cbn [app set_options]. rewrite Hf. apply IH.
  - destruct Ho as (f & -> & Hf). cbn [app set_options]. rewrite Hf. apply IH.
  - destruct Ho as (f & s & -> & Hf & Hn & Hpos). cbn [app set_options]. rewrite Hf, Hn.
    cbn. destruct (Z.leb_spec n 0); [lia|].
    unfold int64, in_int64. rewrite (proj2 (Z.leb_le INT64_MIN _)) by (unfold INT64_MIN; lia).
    destruct (Z.leb_spec (n * 1000) INT64_MAX), (Z.ltb_spec INT64_MAX (n * 1000)); try lia; [|done].
    cbn [andb out_bind orb]. apply IH.
  - destruct Ho as (f & s & -> & Hf & Hn & Hpos). cbn [app set_options]. rewrite Hf, Hn.
    cbn. destruct (Z.leb_spec n 0); [lia|]. apply IH.
Qed.

Lemma set_options_ill l reply o : ill_formed l reply -> set_options l o = Ret (inl reply).
Proof.
  destruct 1 as [f l Hf|f Hf|f s l Hf Hn]; cbn [set_options].
  - rewrite !decide_False by set_solver. done.
  - rewrite !elem_of_cons, elem_of_nil in Hf. by destruct Hf as [-> |[-> |[]]].
  - assert (match parse_int64 s with Some n => n <=? 0 | None => true end = true) as Hle.
    { destruct (parse_int64 s) as [n|]; [|done]. apply Z.leb_le. by apply Hn. }
    rewrite !elem_of_cons, elem_of_nil in Hf.
    destruct Hf as [-> |[-> |[]]]; cbn; by destruct (parse_int64 s); [rewrite Hle|].
Qed.

Lemma with_options_read os o :
  let r := fold_left with_option os o in
  opt_nx r = opt_nx o || bool_decide (OptNX ∈ os) /\
  opt_xx r = opt_xx o || bool_decide (OptXX ∈ os) /\
  opt_ttl r = default (opt_ttl o) (time_to_live os).
Proof.
  cbv zeta. unfold time_to_live. induction os as [|opt os (IHn & IHx & IHt)] using rev_ind.
  { cbn. by rewrite !orb_false_r. }
  rewrite fold_left_app, omap_app. cbn [fold_left].
  set (r := fold_left with_option os o) in *.
  assert (forall x, bool_decide (x ∈ os ++ [opt]) = bool_decide (x ∈ os) || bool_decide (x = opt)) as Hin.
  { intros x. apply eq_true_iff_eq. rewrite orb_true_iff, !bool_decide_eq_true. set_solver. }
  rewrite !Hin. destruct opt; cbn [with_option opt_nx opt_xx opt_ttl omap list_omap option_ms];
    rewrite ?app_nil_r, ?last_snoc; cbn [default].
  all: rewrite ?IHn, ?IHx, ?IHt, ?orb_assoc, ?(bool_decide_eq_true_2 (_ = _)) by done.
  all: rewrite ?orb_true_r, ?orb_false_r; try done.
Qed.
Lemma accepted_options os pre :
  spelled os pre -> too_long os = false ->
  set_options pre (MkSetOptions 0 false false)
  = Ret (inr (MkSetOptions (default 0 (time_to_live os)) (bool_decide (OptNX ∈ os))
                (bool_decide (OptXX ∈ os)))).
Proof.
  intros Hs Hl. rewrite <- (app_nil_r pre), (set_options_spelled os pre [] _ Hs), Hl.
  destruct (with_options_read os (MkSetOptions 0 false false)) as (Hn & Hx & Ht).
  cbn [set_options]. destruct (fold_left _ _ _). cbn in *. by subst.
Qed.

Lemma time_to_live_pos os pre ms : spelled os pre -> time_to_live os = Some ms -> 0 < ms.
Proof.
  intros Hs Hms. unfold time_to_live in Hms. apply last_Some_elem_of in Hms.
  apply list_elem_of_omap in Hms as (o & Ho & Hms). revert Ho.
  induction Hs as [|o' os l l' Hsp _ IH]; [by intros ?%elem_of_nil|].
  intros [-> |Ho]%elem_of_cons; [|by apply IH].
  destruct o'; cbn in *; simplify_eq; destruct Hsp as (? & ? & _ & _ & _ & ?); lia.
Qed.

(** C18. SET: fewer than two arguments are refused. The arguments behind the value are
    options as a client spells them, NX, XX, EX with positive seconds and PX with positive
    milliseconds in any capitalisation, up to their end or to something ill-formed. An
    unknown name or an EX or PX without a number is a syntax error, any other number an
    invalid time, and NX with XX is refused, all before the store is touched. NX on a live
    key and XX on a dead one answer null and change nothing; otherwise the key holds the new
    string, with the deadline of the last EX or PX or with none, and nothing else changes.
    The only other outcome is an overflow of int64: by the milliseconds of an EX, or by the
    nanoseconds of the time to live or of the deadline. *)
Theorem set_command_spec nm key v opts w :
  (forall l, (length l < 2)%nat -> cmd_set (MkCommand nm l) w =
     (Ret (RespError ("ERR wrong number of arguments for '"%b ++ nm ++ "' command"%b)), w)) /\
  (exists os pre rest, opts = pre ++ rest /\ spelled os pre /\
     (rest = [] \/ exists reply, ill_formed rest reply)) /\
  forall os pre rest, opts = pre ++ rest -> spelled os pre ->
  let run := cmd_set (MkCommand nm (key :: v :: opts)) w in
  let stored dl := exists w', run = (Ret OK, w') /\
    data_ w' ≈[now w'] <[key := MkEntry (StringValue v) dl]> (data_ w) in
  if too_long os then run = (UB, w)
  else
    (forall reply, ill_formed rest reply -> run = (Ret reply, w)) /\
    (rest = [] ->
     if decide (OptNX ∈ os /\ OptXX ∈ os) then
       run = (Ret (RespError "ERR XX and NX options at the same time are not compatible"%b), w)
     else if decide (OptNX ∈ os /\ is_live w key = true \/ OptXX ∈ os /\ is_live w key = false) then
       exists w', run = (Ret RespNull, w') /\ data_ w' ≈[now w'] data_ w
     else
       match time_to_live os with
       | None => stored None
       | Some ms =>
           let t := now (locked w) + ms * 1000000 in
           if in_int64 (ms * 1000000) && in_int64 t then stored (Some t) else fst run = UB
       end).
Proof.
  split_and!.
  { intros [|? [|? ?]] Hl; cbn in Hl; try lia; done. }
  { apply spelled_or_ill. }
  intros os pre rest -> Hs run stored. subst run.
  pose proof (set_options_spelled os pre rest (MkSetOptions 0 false false) Hs) as Ho.
  destruct (too_long os) eqn:Hl; [unfold cmd_set; cbn [args]; by rewrite bind_lift, Ho|]. split.
  { intros reply Hill. rewrite (set_options_ill _ _ _ Hill) in Ho. unfold cmd_set. cbn [args].
    by rewrite bind_lift, Ho. }
  intros ->. subst stored. rewrite app_nil_r in *. clear Ho.
  pose proof (accepted_options os pre Hs Hl) as Ho.
  destruct (decide (OptNX ∈ os /\ OptXX ∈ os)) as [[Hn Hx]|Hboth].
  { unfold cmd_set. cbn [args]. rewrite bind_lift, Ho. cbn [opt_nx opt_xx].
    rewrite (bool_decide_eq_true_2 _ Hn), (bool_decide_eq_true_2 _ Hx). done. }
  rewrite (set_command_run nm key v pre _ w Ho)
    by (cbn [opt_nx opt_xx]; apply not_true_is_false; rewrite andb_true_iff, !bool_decide_eq_true; done).
  cbn [opt_nx opt_xx opt_ttl].
  match goal with |- context [if ?c then (Ret RespNull, _) else _] => destruct c eqn:Hc end.
  - rewrite orb_true_iff, !andb_true_iff, negb_true_iff, !bool_decide_eq_true in Hc.
    rewrite decide_True by tauto. eexists. split; [reflexivity|apply locked_now_equiv].
  - rewrite orb_false_iff, !andb_false_iff, negb_false_iff, !bool_decide_eq_false in Hc.
    rewrite decide_False by (destruct (is_live w key); intuition congruence).
    destruct (time_to_live os) as [ms|] eqn:Hms.
    + pose proof (time_to_live_pos os pre ms Hs Hms) as Hpos.
      change (default 0 (Some ms)) with ms. unfold deadline_opt.
      rewrite (proj2 (Z.ltb_lt 0 ms) Hpos). unfold deadline, int64, ns_per_ms. cbv zeta.
      destruct (in_int64 (ms * 1000000)); cbn [out_bind andb]; [|done].
      destruct (in_int64 (now (locked w) + _)); cbn [out_bind]; [|done].
      eexists. split; [reflexivity|apply put_later].
    + cbn. eexists. split; [reflexivity|apply put_later].
Qed.

(** An entry is visible exactly until its deadline. *)
Lemma view_entry u d key v t :
  data_ u ≈[now u] <[key := MkEntry v (Some t)]> d ->
  view u key = if check_time u <? t then Some v else None.
Proof.
  intros E. unfold view. rewrite E by (apply clock_later; right; split; [done|unfold at_entry; lia]).
  rewrite live_insert, decide_True by done. unfold expired_at. simpl.
  destruct (Z.leb_spec t (check_time u)), (Z.ltb_spec (check_time u) t); (done || lia).
Qed.

(** SET ... EX whose deadline fits, run to the end. *)
Lemma set_ex_run nm key v f s secs w :
  upper f = "EX"%b -> parse_int64 s = Some secs -> 0 < secs ->
  0 <= now (locked w) -> now (locked w) + secs * ns_per_s <= INT64_MAX ->
  cmd_set (MkCommand nm [key; v; f; s]) w =
  let w2 := locked (locked w) in
  (Ret OK, set_data (<[key := MkEntry (StringValue v)
                                (Some (now (locked w) + secs * ns_per_s))]> (data_ w2)) w2).
Proof.
  intros Hf Hs Hpos Hnow Hfit.
  assert (set_options [f; s] (MkSetOptions 0 false false)
          = Ret (inr (MkSetOptions (secs * 1000) false false))) as Ho.
  { cbn [set_options]. rewrite Hf, Hs. simpl.
    destruct (Z.leb_spec secs 0); [lia|]. unfold int64.
    rewrite (proj2 (in_int64_spec _)); [done|].
    unfold INT64_MIN, INT64_MAX, ns_per_s in *. lia. }
  rewrite (set_command_run _ _ _ _ _ _ Ho eq_refl). cbn [opt_nx opt_xx opt_ttl andb orb].
  unfold deadline_opt. rewrite (proj2 (Z.ltb_lt 0 _)) by lia.
  rewrite deadline_fits by (unfold INT64_MIN, INT64_MAX, ns_per_s, ns_per_ms in *; lia).
  by replace (now (locked w) + secs * ns_per_s)
    with (now (locked w) + secs * 1000 * ns_per_ms) by (unfold ns_per_s, ns_per_ms; lia).
Qed.

(** C19. SET ... EX n: when the deadline fits in int64, the key is readable at every
    time before it and gone at every time from it on, for as long as nothing else
    writes the key. *)
Theorem set_ex_lifetime nm key v f s secs w :
  upper f = "EX"%b -> parse_int64 s = Some secs -> 0 < secs ->
  0 <= now (locked w) -> now (locked w) + secs * ns_per_s <= INT64_MAX ->
  exists w', cmd_set (MkCommand nm [key; v; f; s]) w = (Ret OK, w') /\
    forall u, now w' <= now u -> data_ u ≈[now u] data_ w' ->
      view u key = if check_time u <? now (locked w) + secs * ns_per_s
                   then Some (StringValue v) else None.
Proof.
  intros Hf Hs Hpos Hnow Hfit. rewrite (set_ex_run nm key v f s secs) by done.
  eexists. split; [reflexivity|]. intros u Hu Hdu.
  eapply view_entry. etrans; [exact Hdu|]. eapply live_equiv_later; [apply put_later|done].
Qed.

(** An EX argument of more than INT64_MAX / 1000 seconds passes the command's own
    validation and makes the conversion to milliseconds overflow int64, which is
    undefined behaviour; so does EXPIRE. *)
Theorem set_ex_overflow nm key v f s secs w :
  upper f = "EX"%b -> parse_int64 s = Some secs -> INT64_MAX < secs * 1000 ->
  cmd_set (MkCommand nm [key; v; f; s]) w = (UB, w) /\
  cmd_expire (MkCommand nm [key; s]) w = (UB, w).
Proof.
  intros Hf Hs Hbig. assert (0 < secs) by (unfold INT64_MAX in *; lia).
  assert (int64 (secs * 1000) = UB) as Hub.
  { unfold int64, in_int64. destruct (Z.leb_spec (secs * 1000) INT64_MAX); [lia|].
    by rewrite andb_false_r. }
  split.
  - unfold cmd_set. cbn [args]. cbn [set_options]. rewrite Hf, Hs. simpl.
    destruct (Z.leb_spec secs 0); [lia|]. by rewrite Hub.
  - unfold cmd_expire. cbn [args]. rewrite Hs.
    destruct (Z.ltb_spec secs 0); [lia|]. by rewrite Hub.
Qed.

(** C20. EXPIRE, TTL and PERSIST on a live or dead key: EXPIRE n replaces the deadline
    by n seconds from now and replies 1, or 0 on a dead key; TTL replies -2 on a dead
    key, -1 without a deadline, and otherwise the remaining milliseconds rounded up to
    seconds; PERSIST removes the deadline and replies 1, or 0 on a dead key. *)
Theorem ttl_commands_spec nm key s secs w :
  let e := live (check_time w) (data_ w) key in
  let read := clock (tick w) at_read in
  parse_int64 s = Some secs -> 0 <= secs -> 0 <= read -> read + secs * ns_per_s <= INT64_MAX ->
  (forall t, e ≫= expires_at = Some t -> INT64_MIN <= t - read <= INT64_MAX) ->
  (exists w', cmd_expire (MkCommand nm [key; s]) w
                = (Ret (RespInteger (if e is Some _ then 1 else 0)), w') /\
     data_ w' ≈[now w']
       (if e is Some e then <[key := MkEntry (value e) (Some (read + secs * ns_per_s))]> (data_ w)
        else data_ w)) /\
  (exists r w', cmd_ttl (MkCommand nm [key]) w = (Ret (RespInteger r), w') /\
     data_ w' ≈[now w'] data_ w /\
     match e with
     | None => r = -2
     | Some e =>
         match expires_at e with
         | None => r = -1
         | Some t => let ms := Z.max 0 ((t - read) ÷ ns_per_ms) in
                     0 <= r /\ (r - 1) * 1000 < ms <= r * 1000
         end
     end) /\
  (exists w', cmd_persist (MkCommand nm [key]) w
                = (Ret (RespInteger (if e is Some _ then 1 else 0)), w') /\
     data_ w' ≈[now w']
       (if e is Some e then <[key := MkEntry (value e) None]> (data_ w) else data_ w)).
Proof.
  intros e read Hs Hsecs Hread Hfit Hint. subst e read. split_and!.
  - unfold cmd_expire. cbn [args]. rewrite Hs. destruct (Z.ltb_spec secs 0); [lia|].
    unfold int64. rewrite (proj2 (in_int64_spec _))
      by (unfold INT64_MIN, INT64_MAX, ns_per_s in *; lia).
    rewrite bind_lift, bind_run, expire_run.
    destruct (live _ _ _) as [e|].
    + rewrite deadline_fits by (unfold INT64_MIN, INT64_MAX, ns_per_s, ns_per_ms in *; lia).
      eexists. split; [reflexivity|]. simpl.
      replace (secs * 1000 * ns_per_ms) with (secs * ns_per_s)
        by (unfold ns_per_s, ns_per_ms; lia).
      apply insert_live_proper, locked_now_equiv.
    + eexists. split; [reflexivity|apply locked_now_equiv].
  - unfold cmd_ttl. cbn [args]. rewrite bind_run, ttl_run.
    destruct (live _ _ _) as [e|].
    2:{ do 2 eexists. split_and!; [reflexivity|apply locked_now_equiv|done]. }
    simpl in Hint. destruct (expires_at e) as [t|].
    2:{ do 2 eexists. split_and!; [reflexivity|apply locked_now_equiv|done]. }
    unfold int64. rewrite (proj2 (in_int64_spec _)) by by apply Hint. cbn [out_bind].
    pose proof (Z.le_max_l 0 ((t - clock (tick w) at_read) ÷ ns_per_ms)) as Hms.
    revert Hms. generalize (Z.max 0 ((t - clock (tick w) at_read) ÷ ns_per_ms)) as ms.
    intros ms Hms. destruct (Z.ltb_spec ms 0); [lia|].
    do 2 eexists. split_and!; [reflexivity|apply locked_now_equiv|..];
      Z.to_euclidean_division_equations; lia.
  - unfold cmd_persist. cbn [args]. rewrite bind_run, persist_run.
    destruct (live _ _ _) as [e|]; eexists; (split; [reflexivity|]).
    + simpl. apply insert_live_proper, locked_now_equiv.
    + apply locked_now_equiv.
Qed.
End Expiry.

#[local] Existing Instance demo_runtime.
#[local] Existing Instance demo_schedule.

Lemma set_command_spec_witness :
  (exists w', cmd_set (MkCommand "SET"%b ["old"; "v"; "nx"; "PX"; "100"]%b) demo_world
    = (Ret OK, w')) /\
  cmd_set (MkCommand "SET"%b ["old"; "v"; "XX"; "px"; "0"]%b) demo_world
    = (Ret (RespError "ERR invalid expire time in 'set' command"%b), demo_world).
Proof.
  split.
  - destruct (set_command_spec "SET"%b "old"%b "v"%b ["nx"; "PX"; "100"]%b demo_world) as (_ & _ & Hr).
    specialize (Hr [OptNX; OptPX 100] ["nx"; "PX"; "100"]%b [] eq_refl).
    destruct Hr as [_ Hr].
    { apply (spelled_cons _ _ ["nx"%b]); [by exists "nx"%b|].
      apply (spelled_cons _ _ ["PX"; "100"]%b []); [by exists "PX"%b, "100"%b|constructor]. }
    destruct (Hr eq_refl) as (w' & Hw & _). exists w'. exact Hw.
  - destruct (set_command_spec "SET"%b "old"%b "v"%b ["XX"; "px"; "0"]%b demo_world) as (_ & _ & Hr).
    specialize (Hr [OptXX] ["XX"%b] ["px"; "0"]%b eq_refl). destruct Hr as [Hr _].
    { apply (spelled_cons _ _ ["XX"%b] []); [by exists "XX"%b|constructor]. }
    apply Hr. apply (ill_time "px"%b "0"%b []); [by vm_compute; constructor; constructor|].
    intros n Hn. vm_compute in Hn. injection Hn as <-. lia.
Defined.

Lemma set_ex_lifetime_witness :
  exists w', cmd_set (MkCommand "SET"%b ["s"; "v"; "ex"; "10"]%b) demo_world = (Ret OK, w') /\
    view w' "s"%b = Some (StringValue "v"%b).
Proof.
  destruct (set_ex_lifetime "SET"%b "s"%b "v"%b "ex"%b "10"%b 10 demo_world) as (w' & Hw & Hu);
    [reflexivity|reflexivity|lia|vm_compute; discriminate|vm_compute; discriminate|].
  exists w'. split; [exact Hw|]. rewrite (Hu w'); [|lia|done].
  assert (tick w' = 2%nat) as Ht.
  { change (tick (snd (Ret OK, w')) = 2%nat). rewrite <- Hw. vm_compute. reflexivity. }
  unfold check_time. rewrite Ht. reflexivity.
Defined.

Lemma set_ex_overflow_witness :
  fst (cmd_set (MkCommand "SET"%b ["s"; "v"; "EX"; "9223372036854775807"]%b) demo_world) = UB.
Proof.
  destruct (set_ex_overflow "SET"%b "s"%b "v"%b "EX"%b "9223372036854775807"%b INT64_MAX
              demo_world) as [Hw _]; [reflexivity|reflexivity|reflexivity|].
  rewrite Hw. reflexivity.
Defined.

Lemma ttl_commands_spec_witness :
  exists w', cmd_expire (MkCommand "EXPIRE"%b ["s"; "7"]%b) demo_world
    = (Ret (RespInteger 1), w').
Proof.
  assert (live (check_time demo_world) (data_ demo_world) "s"%b
          = Some (MkEntry (StringValue "41"%b) None)) as Hl by (vm_compute; reflexivity).
  pose proof (ttl_commands_spec "EXPIRE"%b "s"%b "7"%b 7 demo_world) as Hr.
  cbv zeta in Hr. rewrite Hl in Hr. destruct Hr as ((w' & Hw & _) & _).
  - reflexivity.
  - lia.
  - vm_compute. discriminate.
  - vm_compute. discriminate.
  - simpl. discriminate.
  - exists w'. exact Hw.
Defined.
