(* ===== verification/KeySpec.v ===== *)
(** DEL and EXISTS over several keys. *)

From S2P Require Import Prelude Cxx Charconv Resp World KvStore KvStoreFacts Command CmdSpec Demo.
From S2P Require Import GenericCmds ExpirySpec.

Open Scope Z_scope.

Definition alive (t : Z) (d : gmap bytes Entry) (key : bytes) : Prop := is_Some (live t d key).

#[global] Instance alive_dec t d key : Decision (alive t d key).
Proof. unfold alive. apply _. Defined.

(** The distinct keys of the list that are alive, and the list entries that are. *)
Definition alive_set (t : Z) (d : gmap bytes Entry) (keys : list bytes) : gset bytes :=
  filter (alive t d) (list_to_set keys).
Definition alive_list (t : Z) (d : gmap bytes Entry) (keys : list bytes) : list bytes :=
  filter (alive t d) keys.

Definition delete_all (keys : list bytes) (d : gmap bytes Entry) : gmap bytes Entry :=
  foldr delete d keys.

Lemma alive_set_cons t d key keys :
  size (alive_set t d (key :: keys)) =
  ((if decide (alive t d key) then 1 else 0) + size (alive_set t (delete key d) keys))%nat.
Proof.
  assert (alive_set t (delete key d) keys = alive_set t d keys ∖ {[key]}) as ->.
  { apply set_eq. intros k. unfold alive_set, alive.
    rewrite elem_of_difference, !elem_of_filter, live_delete.
    destruct (decide (key = k)) as [-> |Hne]; set_solver. }
  destruct (decide (alive t d key)) as [Ha|Ha].
  - rewrite <- (size_singleton key (C := gset bytes)), <- size_union by set_solver.
    f_equal. apply set_eq. intros k. unfold alive_set.
    rewrite elem_of_union, elem_of_difference, !elem_of_filter.
    destruct (decide (k = key)); set_solver.
  - rewrite Nat.add_0_l. f_equal. apply set_eq. intros k. unfold alive_set.
    rewrite elem_of_difference, !elem_of_filter. destruct (decide (k = key)); set_solver.
Qed.

Lemma delete_all_cons key keys d : delete_all (key :: keys) d = delete_all keys (delete key d).
Proof.
  induction keys as [|k keys IH]; [done|]. simpl in *. rewrite <- IH. apply delete_delete.
Qed.

#[global] Instance delete_all_live_proper t keys :
  Proper (live_equiv t ==> live_equiv t) (delete_all keys).
Proof. intros d1 d2 E. induction keys as [|k keys IH]; [done|]. simpl. by rewrite IH. Qed.

Lemma alive_ext t t' d d' key : live t d key = live t' d' key -> alive t d key <-> alive t' d' key.
Proof. unfold alive. by intros ->. Qed.

Lemma alive_list_ext t t' d d' keys :
  (forall k, k ∈ keys -> live t d k = live t' d' k) ->
  alive_list t d keys = alive_list t' d' keys.
Proof.
  induction keys as [|k keys IH]; intros He; [done|]. unfold alive_list in *.
  rewrite !filter_cons, IH by set_solver.
  pose proof (alive_ext t t' d d' k (He k ltac:(set_solver))). repeat case_decide; tauto || done.
Qed.

Lemma alive_set_ext t t' d d' keys :
  (forall k, k ∈ keys -> live t d k = live t' d' k) ->
  alive_set t d keys = alive_set t' d' keys.
Proof.
  intros He. apply set_eq. intros k. unfold alive_set. rewrite !elem_of_filter, !elem_of_list_to_set.
  split; intros [Ha Hk]; (split; [|done]); revert Ha; apply alive_ext; by rewrite He.
Qed.

Section Keys.
Context `{CxxRuntime} `{Sch : Schedule} `{SchOk : !ScheduleOk Sch}.

(** From time [t0] until operation [n] no key of the list expires. *)
Definition stable (n : nat) (t0 : Z) (d : gmap bytes Entry) (keys : list bytes) : Prop :=
  forall key t, key ∈ keys -> t0 <= t <= clock n at_entry -> live t d key = live t0 d key.

Lemma stable_tail n t0 d key keys : stable n t0 d (key :: keys) -> stable n t0 d keys.
Proof. intros Hs k t Hk. apply Hs. set_solver. Qed.

Lemma stable_delete n t0 d key keys : stable n t0 d keys -> stable n t0 (delete key d) keys.
Proof. intros Hs k t Hk Ht. rewrite !live_delete. by rewrite (Hs k t). Qed.

(** The next operation sees the same keys alive. *)
Lemma stable_step n t0 d keys w :
  stable n t0 d keys -> data_ w ≈[now w] d -> t0 <= now w -> (tick w + length keys <= n)%nat ->
  stable n (check_time w) (data_ w) keys /\
  forall k, k ∈ keys -> live (check_time w) (data_ w) k = live t0 d k.
Proof.
  intros Hs Hd Ht Hn.
  assert (now w <= check_time w) as Hnc by (apply clock_later; unfold at_entry; lia).
  assert (forall k, k ∈ keys -> live (check_time w) (data_ w) k = live t0 d k) as Hl.
  { intros k Hk. rewrite (Hd _ _ Hnc). apply Hs; [done|]. split; [lia|].
    apply clock_later. left. destruct keys; [set_solver|simpl in Hn; lia]. }
  split; [|done]. intros k t Hk Hkt. rewrite Hl by done.
  rewrite (Hd t k) by lia. apply Hs; [done|lia].
Qed.

Lemma is_live_alive w key :
  is_live w key = bool_decide (alive (check_time w) (data_ w) key).
Proof.
  unfold is_live, view. case_bool_decide as Ha.
  - by destruct Ha as [e ->].
  - unfold alive in Ha. rewrite <- eq_None_not_Some in Ha. by rewrite Ha.
Qed.

Lemma exists_loop_run keys count n w :
  stable n (check_time w) (data_ w) keys -> (tick w + length keys <= n)%nat ->
  exists w', exists_loop keys count w
      = (Ret (count + zlen (alive_list (check_time w) (data_ w) keys)), w') /\
    data_ w' ≈[now w'] data_ w /\ unchanged_rest w w'.
Proof.
  revert count w. induction keys as [|key keys IH]; intros count w Hs Hn; cbn [exists_loop].
  { exists w. by rewrite Z.add_0_r. }
  rewrite bind_exists. cbn [length] in Hn. apply stable_tail in Hs as Ht.
  destruct (stable_step n _ _ keys (locked w) Ht) as [Hs' Hl];
    [apply locked_now_equiv|apply check_now|rewrite locked_tick; lia|].
  destruct (IH (if is_live w key then count + 1 else count) (locked w) Hs') as (w' & -> & Hd & Hr);
    [rewrite locked_tick; lia|].
  exists w'. split_and!.
  - rewrite (alive_list_ext _ _ _ _ _ Hl). unfold alive_list. rewrite filter_cons, is_live_alive.
    do 2 f_equal. case_bool_decide; [rewrite decide_True by done|rewrite decide_False by done];
      unfold zlen; cbn [length]; lia.
  - etrans; [exact Hd|]. eapply live_equiv_later; [apply locked_now_equiv|]. by apply now_later, Hr.
  - eapply unchanged_rest_trans; [apply locked_rest|done].
Qed.

Lemma del_loop_run keys count n w :
  stable n (check_time w) (data_ w) keys -> (tick w + length keys <= n)%nat ->
  exists w', del_loop keys count w
      = (Ret (count + Z.of_nat (size (alive_set (check_time w) (data_ w) keys))), w') /\
    data_ w' ≈[now w'] delete_all keys (data_ w) /\ unchanged_rest w w'.
Proof.
  revert count w. induction keys as [|key keys IH]; intros count w Hs Hn; cbn [del_loop].
  { exists w. by rewrite Z.add_0_r. }
  rewrite bind_del. cbn [length] in Hn. apply stable_tail in Hs as Ht.
  set (w1 := set_data _ (locked w)).
  assert (data_ w1 ≈[now w1] delete key (data_ w)) as Hd1.
  { apply delete_live_proper, locked_now_equiv. }
  assert (unchanged_rest w w1) as Hr1 by apply set_data_rest, locked_rest.
  destruct (stable_step n _ _ keys w1 (stable_delete _ _ _ key _ Ht) Hd1) as [Hs' Hl];
    [apply check_now|simpl; lia|].
  destruct (IH (count + (if is_live w key then 1 else 0)) w1 Hs') as (w' & -> & Hd & Hr);
    [simpl; lia|].
  exists w'. split_and!.
  - rewrite (alive_set_ext _ _ _ _ _ Hl), alive_set_cons, is_live_alive.
    do 2 f_equal. case_bool_decide; [rewrite decide_True by done|rewrite decide_False by done];
      lia.
  - rewrite delete_all_cons. etrans; [exact Hd|]. apply delete_all_live_proper.
    eapply live_equiv_later; [exact Hd1|]. by apply now_later, Hr.
  - eapply unchanged_rest_trans; done.
Qed.

(** C21. DEL and EXISTS over any keys, repeated ones included, none of which expires
    while the command runs: DEL replies how many distinct live keys there were and
    removes them all, EXISTS replies how many entries of its list are live and changes
    nothing. *)
Theorem del_exists_spec nm key keys w :
  let ks := key :: keys in
  stable (tick w + length ks) (check_time w) (data_ w) ks ->
  (exists w', cmd_del (MkCommand nm ks) w
      = (Ret (RespInteger (Z.of_nat (size (alive_set (check_time w) (data_ w) ks)))), w') /\
     data_ w' ≈[now w'] delete_all ks (data_ w) /\ unchanged_rest w w') /\
  (exists w', cmd_exists (MkCommand nm ks) w
      = (Ret (RespInteger (zlen (alive_list (check_time w) (data_ w) ks))), w') /\
     data_ w' ≈[now w'] data_ w /\ unchanged_rest w w').
Proof.
  intros ks Hs. split.
  - destruct (del_loop_run ks 0 _ w Hs ltac:(lia)) as (w' & Hrun & Hw').
    exists w'. split; [|done]. unfold cmd_del. subst ks. cbn [args]. by rewrite bind_run, Hrun.
  - destruct (exists_loop_run ks 0 _ w Hs ltac:(lia)) as (w' & Hrun & Hw').
    exists w'. split; [|done]. unfold cmd_exists. subst ks. cbn [args]. by rewrite bind_run, Hrun.
Qed.
End Keys.

#[local] Existing Instance demo_runtime.
#[local] Existing Instance demo_schedule.

Lemma del_exists_spec_witness :
  exists w', cmd_del (MkCommand "DEL"%b ["s"; "none"; "s"; "l"]%b) demo_world
    = (Ret (RespInteger 2), w').
Proof.
  destruct (del_exists_spec "DEL"%b "s"%b ["none"; "s"; "l"]%b demo_world) as [(w' & Hw & _) _].
  - intros k t Hk _.
    assert (k = "s" \/ k = "none" \/ k = "l")%b as Hks by set_solver.
    destruct Hks as [-> |[-> | ->]]; reflexivity.
  - exists w'. exact Hw.
Defined.
