(* ===== verification/MonitorSpec.v ===== *)
(** What METRICS and INFO report: the store's payload independently of the order in which
    the hash tables are walked, and the sections a client selects. *)

From S2P Require Import Prelude Cxx Charconv DoubleFmt Resp World KvStore KvStoreFacts Command.
From S2P Require Import CmdSpec Demo GenericCmds.

Open Scope Z_scope.

(** * Payload of a store *)

Definition sum (l : list Z) : Z := foldr Z.add 0 l.

Definition value_payload (v : Value) : Z :=
  match v with
  | StringValue s => zlen s
  | ListValue l => sum (map zlen l)
  | SetValue s => set_fold (fun m n => zlen m + n) 0 s
  | HashValue h => map_fold (fun f v n => zlen f + zlen v + n) 0 h
  end.

Definition payload (d : gmap bytes Entry) : Z :=
  map_fold (fun k e n => zlen k + value_payload (value e) + n) 0 d.

Lemma sum_app l1 l2 : sum (l1 ++ l2) = sum l1 + sum l2.
Proof. unfold sum. induction l1 as [|x l1 IH]; simpl; lia. Qed.

#[global] Instance sum_perm : Proper ((≡ₚ) ==> (=)) sum.
Proof. intros l1 l2 Hp. unfold sum. induction Hp; simpl; lia. Qed.

Lemma foldr_sum {A} (f : A -> Z) l : foldr (fun a n => f a + n) 0 l = sum (map f l).
Proof. induction l as [|x l IH]; simpl; [done|]. by rewrite IH. Qed.

Lemma payload_empty : payload ∅ = 0.
Proof. apply map_fold_empty. Qed.

(** A new key adds its own bytes and those of its value. *)
Lemma payload_insert k e d :
  d !! k = None -> payload (<[k := e]> d) = zlen k + value_payload (value e) + payload d.
Proof. intros Hk. unfold payload. rewrite map_fold_insert_L; [done| |done]. intros. lia. Qed.

Section Order.
Context `{RtOk : CxxRuntimeOk}.

Lemma value_bytes_sum v : sum (value_bytes v) = value_payload v.
Proof.
  destruct v as [s|l|s|h]; cbn [value_bytes value_payload].
  - unfold sum. simpl. lia.
  - done.
  - rewrite iter_set_perm. unfold set_fold. simpl. by rewrite foldr_sum.
  - rewrite iter_map_perm, map_fold_foldr. rewrite <- foldr_sum.
    induction (map_to_list h) as [|[f v] l IH]; simpl; [done|]. by rewrite IH.
Qed.

Lemma add_all_sum l t : add_all (wrap64 t) l = wrap64 (t + sum l).
Proof.
  revert t. unfold add_all. induction l as [|x l IH]; intros t; cbn [fold_left sum foldr].
  { by rewrite Z.add_0_r. }
  replace (wrap64 (wrap64 t + x)) with (wrap64 (t + x)); [|by unfold wrap64; rewrite Zplus_mod_idemp_l].
  rewrite IH. f_equal. unfold sum. simpl. lia.
Qed.

Definition entry_bytes (ke : bytes * Entry) : Z :=
  zlen (fst ke) + value_payload (value (snd ke)).

Lemma memory_fold l t :
  fold_left (fun total ke =>
      add_all (wrap64 (total + zlen (fst ke))) (value_bytes (value (snd ke)))) l (wrap64 t)
  = wrap64 (t + sum (map entry_bytes l)).
Proof.
  revert t. induction l as [|[k e] l IH]; intros t; cbn [fold_left map].
  { by rewrite Z.add_0_r. }
  cbn [fst snd]. rewrite add_all_sum, value_bytes_sum.
  replace (wrap64 (wrap64 t + zlen k + value_payload (value e)))
    with (wrap64 (t + (zlen k + value_payload (value e))))
    by (unfold wrap64; rewrite <- Z.add_assoc, Zplus_mod_idemp_l; done).
  rewrite IH. unfold entry_bytes at 2. cbn [fst snd sum foldr]. f_equal. unfold sum. simpl. lia.
Qed.

Lemma memory_run `{Sch : Schedule} w :
  KvStore_approx_memory_bytes w = (Ret (payload (data_ (locked w)) mod 2 ^ 64), locked w).
Proof.
  unfold KvStore_approx_memory_bytes. rewrite (enter_run (fun op => _)). unfold gets. do 2 f_equal.
  change 0 with (wrap64 0) at 1. rewrite memory_fold, iter_map_perm. unfold wrap64, payload.
  rewrite map_fold_foldr, Z.add_0_l, <- foldr_sum. f_equal.
  induction (map_to_list _) as [|[k e] l IH]; simpl; [done|]. by rewrite IH.
Qed.
End Order.

(** * METRICS and INFO *)

Section Report.
Context `{RtOk : CxxRuntimeOk} `{Sch : Schedule}.

(** Whole seconds since start-up, for the operation that counts itself [op]. *)
Definition uptime (op : nat) (w : World) : Z :=
  Z.quot (clock op at_entry - start_time (stats w)) 1000000000.

Definition uptime_known (op : nat) (w : World) : Prop :=
  in_int64 (clock op at_entry - start_time (stats w)) = true.

Lemma uptime_run w :
  uptime_known (tick w) w ->
  uptime_seconds w = (Ret (uptime (tick w) w), set_tick (S (tick w)) w).
Proof.
  intros Hk. unfold uptime_seconds, mbind, M_bind, next_op, gets, clock_now, mret, M_ret, lift.
  simpl. unfold int64. unfold uptime_known in Hk. by rewrite Hk.
Qed.

(** The exposition text, one metric per line. *)
Definition exposition (up clients commands keys mem : Z) (ready : bool) (qps : bytes) : bytes :=
  concat (map (fun '(label, v) => label ++ " "%b ++ v ++ [LF])
    [("vortek_uptime_seconds", to_string up); ("vortek_connected_clients", to_string clients);
     ("vortek_total_commands_processed", to_string commands); ("vortek_commands_per_second", qps);
     ("vortek_key_count", to_string keys); ("vortek_memory_bytes_approx", to_string mem);
     ("vortek_ready", if ready then "1" else "0")]%b).

(** The store METRICS looks at: what the expiry thread left when it measures the payload. *)
Definition measured (w : World) : World := locked (locked (set_tick (S (S (tick w))) w)).

Lemma metrics_run c w :
  args c = [] -> uptime_known (tick w) w -> uptime_known (S (tick w)) w ->
  let st := stats w in
  cmd_metrics c w =
  (Ret (RespBulkString (exposition (uptime (S (tick w)) w) (connected_clients st)
     (total_commands st) (Z.of_nat (size (data_ (locked (set_tick (S (S (tick w))) w)))))
     (payload (data_ (measured w)) mod 2 ^ 64) (ready st)
     (to_string_double (double_div (double_of_int (total_commands st))
        (double_of_int (Z.max 1 (uptime (tick w) w))))))), measured w).
Proof.
  intros Ha H1 H2 st. unfold cmd_metrics. rewrite Ha. unfold mbind, M_bind at 1.
  rewrite (uptime_run w H1). unfold M_bind, gets. cbn [stats set_tick].
  rewrite uptime_run by done. cbn [tick set_tick]. rewrite size_run, memory_run.
  unfold mret, M_ret, measured. do 3 f_equal. unfold exposition, metric. cbn [map concat].
  rewrite <- !app_assoc, app_nil_r. subst st. destruct (ready (stats w)); reflexivity.
Qed.

(** ** The sections of INFO *)

Inductive InfoSection := SecServer | SecClients | SecStats | SecKeyspace.

Definition section_name (i : InfoSection) : bytes :=
  match i with
  | SecServer => "server" | SecClients => "clients"
  | SecStats => "stats" | SecKeyspace => "keyspace"
  end%b.

#[global] Instance InfoSection_eq_dec : EqDecision InfoSection.
Proof. solve_decision. Defined.

Definition lines (l : list bytes) : bytes := concat (map (fun x => x ++ crlf) l).

Definition section_text (up keys : Z) (st : ServerStats) (i : InfoSection) : bytes :=
  lines
    match i with
    | SecServer =>
        ["# Server"; "vortek_version:0.1.0"; "tcp_port:" ++ to_string (port st);
         "uptime_in_seconds:" ++ to_string up; "uptime_in_days:" ++ to_string (Z.quot up 86400);
         "aof_enabled:" ++ if aof_enabled st then "1" else "0"]
    | SecClients => ["# Clients"; "connected_clients:" ++ to_string (connected_clients st)]
    | SecStats => ["# Stats"; "total_commands_processed:" ++ to_string (total_commands st)]
    | SecKeyspace => "# Keyspace" :: (if keys =? 0 then [] else ["db0:keys=" ++ to_string keys])
    end%b.

(** Sections are separated by an empty line. *)
Fixpoint join (texts : list bytes) : bytes :=
  match texts with
  | [] => []
  | [t] => t
  | t :: texts => t ++ crlf ++ join texts
  end.

(** What a section name, in lower case, selects. *)
Definition selected (section : bytes) : list InfoSection :=
  if decide (section ∈ ["all"; "everything"]%b) then [SecServer; SecClients; SecStats; SecKeyspace]
  else if decide (section = "server"%b) then [SecServer]
  else if decide (section = "clients"%b) then [SecClients]
  else if decide (section = "stats"%b) then [SecStats]
  else if decide (section = "keyspace"%b) then [SecKeyspace]
  else [].

(** The world the keyspace section finds: the server section has read the clock. *)
Definition before_keyspace (section : bytes) (w : World) : World :=
  if bool_decide (SecServer ∈ selected section) then set_tick (S (tick w)) w else w.

Definition info_reply (asked section : bytes) (w : World) : RespValue :=
  let keys := Z.of_nat (size (data_ (locked (before_keyspace section w)))) in
  match selected section with
  | [] => RespError ("ERR unknown INFO section '"%b ++ asked ++ "'"%b)
  | chosen =>
      RespBulkString (join (map (section_text (uptime (tick w) w) keys (stats w)) chosen))
  end.

Definition info_after (section : bytes) (w : World) : World :=
  let w := before_keyspace section w in
  if bool_decide (SecKeyspace ∈ selected section) then locked w else w.

(** The tests of the code choose the selected sections. *)
Lemma wants_selected section i : wants section (section_name i) = bool_decide (i ∈ selected section).
Proof.
  unfold wants, selected. apply eq_true_iff_eq. rewrite !orb_true_iff, !bool_decide_eq_true.
  destruct (decide (section ∈ ["all"; "everything"]%b)) as [Hall|Hall].
  - destruct i; set_solver.
  - repeat case_decide; subst; destruct i; cbn [section_name]; set_solver.
Qed.

Lemma selected_filter section :
  selected section
  = List.filter (fun i => wants section (section_name i)) [SecServer; SecClients; SecStats; SecKeyspace].
Proof.
  rewrite (List.filter_ext _ (fun i => bool_decide (i ∈ selected section)))
    by (intros i; apply wants_selected).
  unfold selected. repeat case_decide; reflexivity.
Qed.

(** The code appends line after line; [lines] does so too, in another bracketing. *)
Ltac same_text :=
  unfold section_text, lines; cbn [map concat]; rewrite <- ?app_assoc, ?app_nil_r; reflexivity.

Lemma server_run w :
  uptime_known (tick w) w ->
  section_server w = (Ret (section_text (uptime (tick w) w) 0 (stats w) SecServer),
                      set_tick (S (tick w)) w).
Proof.
  intros Hk. unfold section_server, mbind, M_bind at 1. rewrite (uptime_run w Hk).
  unfold M_bind, gets, mret, M_ret. cbn [stats set_tick]. do 2 f_equal. same_text.
Qed.

Lemma keyspace_run w :
  section_keyspace w
  = (Ret (section_text 0 (Z.of_nat (size (data_ (locked w)))) (stats w) SecKeyspace), locked w).
Proof.
  unfold section_keyspace, mbind, M_bind. rewrite size_run.
  unfold section_text. destruct (_ =? 0); unfold mret, M_ret; do 2 f_equal; same_text.
Qed.

(** One step of the accumulation of cmd_info. *)
Lemma info_section_run sec n (text : M bytes) t body w w' :
  (wants sec n = true -> text w = (Ret t, w')) ->
  info_section sec n text body w =
  if wants sec n then (Ret ((match body with [] => [] | _ => body ++ crlf end) ++ t), w')
  else (Ret body, w).
Proof.
  intros Ht. unfold info_section. destruct (wants sec n); [|done].
  unfold mbind, M_bind. by rewrite Ht.
Qed.

Lemma clients_run w :
  section_clients w = (Ret (section_text 0 0 (stats w) SecClients), w).
Proof. unfold section_clients, mbind, M_bind, gets, mret, M_ret. do 2 f_equal. same_text. Qed.

Lemma stats_run w : section_stats w = (Ret (section_text 0 0 (stats w) SecStats), w).
Proof. unfold section_stats, mbind, M_bind, gets, mret, M_ret. do 2 f_equal. same_text. Qed.

Lemma section_text_cons up keys st i : exists a t, section_text up keys st i = a :: t.
Proof. destruct i; do 2 eexists; reflexivity. Qed.

(** Name the texts of the sections, which are not empty. *)
Ltac fold_sections w :=
  change (section_text (uptime (tick w) w) ?k (stats w) SecServer)
    with (section_text (uptime (tick w) w) 0 (stats w) SecServer);
  change (section_text ?u ?k (stats w) SecClients) with (section_text 0 0 (stats w) SecClients);
  change (section_text ?u ?k (stats w) SecStats) with (section_text 0 0 (stats w) SecStats);
  change (section_text ?u ?k (stats w) SecKeyspace) with (section_text 0 k (stats w) SecKeyspace);
  repeat match goal with
  | |- context [section_text ?u ?k ?s ?i] =>
      let a := fresh "a" in let t := fresh "t" in
      destruct (section_text_cons u k s i) as (a & t & ->)
  end.

Lemma info_run c w :
  (length (args c) <= 1)%nat ->
  let asked := default "all"%b (head (args c)) in
  uptime_known (tick w) w ->
  cmd_info c w = (Ret (info_reply asked (lower asked) w), info_after (lower asked) w).
Proof.
  intros Ha asked Hk. set (sec := lower asked) in *.
  assert (wants sec "server"%b = true ->
    section_server w = (Ret (section_text (uptime (tick w) w) 0 (stats w) SecServer),
                        set_tick (S (tick w)) w)) as Hserver by (intros; by apply server_run).
  unfold info_reply, info_after, before_keyspace.
  rewrite <- !wants_selected, selected_filter. cbn [List.filter section_name].
  assert (lower match args c with [] => "all"%b | s :: _ => s end = sec) as Hsec
    by by destruct (args c).
  unfold cmd_info. destruct (args c) as [|s [|? ?]]; [..|simpl in Ha; lia]; rewrite Hsec;
    try (pose proof (eq_refl : wants sec "server"%b = true) as Hw);
    unfold mbind, M_bind; rewrite (info_section_run _ _ _ _ _ _ _ Hserver);
    destruct (wants sec "server"%b); try discriminate Hw; cbv iota beta;
    rewrite (info_section_run _ _ _ _ _ _ _ (fun _ => clients_run _));
    destruct (wants sec "clients"%b); try discriminate Hw; cbv iota beta;
    rewrite (info_section_run _ _ _ _ _ _ _ (fun _ => stats_run _));
    destruct (wants sec "stats"%b); try discriminate Hw; cbv iota beta;
    rewrite (info_section_run _ _ _ _ _ _ _ (fun _ => keyspace_run _));
    destruct (wants sec "keyspace"%b); try discriminate Hw; cbv iota beta.
  all: cbn [map join stats set_tick]; fold_sections w; unfold mret, M_ret.
  all: cbn [app]; rewrite <- ?app_assoc; reflexivity.
Qed.

Lemma locked_size w : (size (data_ (locked w)) <= size (data_ w))%nat.
Proof.
  unfold locked. destruct (sweep_at (tick w)) as [t|]; simpl; [|done].
  apply map_subseteq_size. unfold sweep. apply map_filter_subseteq.
Qed.

Lemma measured_equiv `{!ScheduleOk Sch} w : data_ (measured w) ≈[now (measured w)] data_ w.
Proof.
  unfold measured. set (w1 := set_tick _ w). etrans; [apply locked_now_equiv|].
  eapply live_equiv_later; [apply (locked_now_equiv w1)|]. apply now_later. simpl. lia.
Qed.
End Report.

(** C22. Monitoring: METRICS answers one line per metric, with the number of stored keys and
    the payload of the store, which is the sum over all keys of the bytes of the key and
    of its value modulo 2^64, whatever order the hash tables are walked in and whatever
    the expiry thread removed; INFO answers, in any capitalisation of its argument, the one
    section named by server, clients, stats or keyspace, and all four, in this order and
    separated by empty lines, for all, everything or no argument; any other section is an
    error that quotes it, and several arguments are a syntax error. *)
Theorem monitoring_report `{RtOk : CxxRuntimeOk} `{Sch : Schedule} `{!ScheduleOk Sch} c w :
  uptime_known (tick w) w -> uptime_known (S (tick w)) w ->
  let st := stats w in
  let qps := double_div (double_of_int (total_commands st))
               (double_of_int (Z.max 1 (uptime (tick w) w))) in
  let asked := default "all"%b (head (args c)) in
  (args c = [] ->
   exists keys, cmd_metrics c w =
     (Ret (RespBulkString (exposition (uptime (S (tick w)) w) (connected_clients st)
        (total_commands st) keys (payload (data_ (measured w)) mod 2 ^ 64) (ready st)
        (to_string_double qps))), measured w) /\
     Z.of_nat (size (data_ (measured w))) <= keys <= Z.of_nat (size (data_ w)) /\
     data_ (measured w) ≈[now (measured w)] data_ w) /\
  ((length (args c) <= 1)%nat ->
   cmd_info c w = (Ret (info_reply asked (lower asked) w), info_after (lower asked) w)) /\
  ((1 < length (args c))%nat -> cmd_info c w = (Ret (RespError "ERR syntax error"%b), w)).
Proof.
  intros H1 H2 st qps asked. split_and!.
  - intros Ha. eexists. split; [by apply metrics_run|]. unfold measured. set (w1 := set_tick _ w).
    split; [|apply measured_equiv].
    pose proof (locked_size (locked w1)). pose proof (locked_size w1).
    change (data_ w1) with (data_ w) in *. lia.
  - intros Ha. by apply info_run.
  - intros Ha. unfold cmd_info. by destruct (args c) as [|? [|? ?]]; [simpl in Ha; lia..|].
Qed.

(** * Witness *)

#[local] Existing Instance demo_runtime.
#[local] Existing Instance demo_schedule.

Lemma monitoring_report_witness :
  (exists keys, fst (cmd_metrics (MkCommand "METRICS" [])%b demo_world)
     = Ret (RespBulkString (exposition 1 1 0 keys 18 true "0.000000"%b))) /\
  fst (cmd_info (MkCommand "INFO" ["Clients"])%b demo_world)
    = Ret (RespBulkString ("# Clients"%b ++ crlf ++ "connected_clients:1"%b ++ crlf)).
Proof.
  assert (uptime_known (tick demo_world) demo_world) as H1 by (vm_compute; reflexivity).
  assert (uptime_known (S (tick demo_world)) demo_world) as H2 by (vm_compute; reflexivity).
  split.
  - destruct (monitoring_report (MkCommand "METRICS" [])%b demo_world H1 H2)
      as (Hm & _ & _). destruct (Hm eq_refl) as (keys & -> & _). exists keys. vm_compute. reflexivity.
  - destruct (monitoring_report (MkCommand "INFO" ["Clients"])%b demo_world H1 H2)
      as (_ & Hi & _). rewrite Hi; [vm_compute; reflexivity|]. constructor.
Defined.
