(* ===== verification/StoreSim.v ===== *)
(** Interfaces between the store and the command handlers.

    Two runs of the same handler under different schedules are compared step by step
    ([msim]), and what a handler leaves alone is tracked along a run ([pres]). The
    classes [StoreSim], [StoreSimTtl], [StoreReads] and [StoreWrites] state what the
    handlers need of the store's operations; the instances at the end discharge them. *)

From S2P Require Import Prelude Cxx Resp World KvStore KvStoreFacts Command CmdSpec.

Open Scope Z_scope.

(** * Comparing two runs *)

Definition msim {A} (R : World -> World -> Prop) (m1 m2 : M A) : Prop :=
  forall w1 w2, R w1 w2 -> fst (m1 w1) = fst (m2 w2) /\ R (snd (m1 w1)) (snd (m2 w2)).

Lemma msim_ret {A} R (a : A) : msim R (mret a) (mret a).
Proof. by intros w1 w2. Qed.

Lemma msim_lift {A} R (o : Out A) : msim R (lift o) (lift o).
Proof. by intros w1 w2. Qed.

Lemma msim_bind {A B} R (m1 m2 : M A) (k1 k2 : A -> M B) :
  msim R m1 m2 -> (forall a, msim R (k1 a) (k2 a)) -> msim R (m1 ≫= k1) (m2 ≫= k2).
Proof.
  intros Hm Hk w1 w2 Hw. rewrite !bind_run. destruct (Hm w1 w2 Hw) as [Ho HR].
  destruct (m1 w1) as [o1 u1], (m2 w2) as [o2 u2]. simpl in *. subst o2.
  destruct o1; simpl; try done. by apply Hk.
Qed.

Lemma msim_lift_bind {A B} R (o : Out A) (k1 k2 : A -> M B) :
  (forall a, o = Ret a -> msim R (k1 a) (k2 a)) -> msim R (lift o ≫= k1) (lift o ≫= k2).
Proof.
  intros Hk w1 w2 Hw. rewrite !bind_lift. destruct o as [a|e| |]; try done. by apply Hk.
Qed.

Create HintDb sim.
#[export] Hint Resolve msim_ret msim_lift : sim.

(** Walk two copies of a handler in step. *)
Ltac sim_step :=
  match goal with
  | |- msim _ (mbind _ _) (mbind _ _) => eapply msim_bind; [|intros ?]
  | |- msim _ (match ?x with _ => _ end) _ => destruct x
  | |- msim _ _ _ => solve [eauto with sim typeclass_instances]
  end.
Ltac sim := repeat sim_step.

(** What handlers without times to live need of two stores in relation [R]. *)
Class StoreSim (S1 S2 : Schedule) (R : World -> World -> Prop) : Prop := {
  sim_get : forall key, msim R (@KvStore_get S1 key) (@KvStore_get S2 key);
  sim_exists : forall key, msim R (@KvStore_exists S1 key) (@KvStore_exists S2 key);
  sim_set : forall key v, msim R (@KvStore_set S1 key v 0) (@KvStore_set S2 key v 0);
  sim_del : forall key, msim R (@KvStore_del S1 key) (@KvStore_del S2 key);
  sim_persist : forall key, msim R (@KvStore_persist S1 key) (@KvStore_persist S2 key);
}.

(** And those with a time to live. *)
Class StoreSimTtl (S1 S2 : Schedule) (R : World -> World -> Prop) : Prop := {
  sim_base :: StoreSim S1 S2 R;
  sim_set_ttl : forall key v ttl, msim R (@KvStore_set S1 key v ttl) (@KvStore_set S2 key v ttl);
  sim_expire : forall key ttl, msim R (@KvStore_expire S1 key ttl) (@KvStore_expire S2 key ttl);
  sim_ttl : forall key, msim R (@KvStore_ttl S1 key) (@KvStore_ttl S2 key);
}.

#[export] Hint Resolve sim_get sim_exists sim_set sim_del sim_persist sim_set_ttl
  sim_expire sim_ttl : sim.

(** * What a run preserves *)

Definition pres {A} (P : World -> World -> Prop) (m : M A) : Prop := forall w, P w (snd (m w)).

Lemma pres_ret {A} P `{!PreOrder P} (a : A) : pres P (mret a).
Proof. intros w. simpl. reflexivity. Qed.

Lemma pres_lift {A} P `{!PreOrder P} (o : Out A) : pres P (lift o).
Proof. intros w. simpl. reflexivity. Qed.

Lemma pres_gets {A} P `{!PreOrder P} (f : World -> A) : pres P (gets f).
Proof. intros w. simpl. reflexivity. Qed.

Lemma pres_bind {A B} P `{!PreOrder P} (m : M A) (k : A -> M B) :
  pres P m -> (forall a, pres P (k a)) -> pres P (m ≫= k).
Proof.
  intros Hm Hk w. rewrite bind_run. specialize (Hm w).
  destruct (m w) as [[a|e| |] u]; simpl in *; try done. etrans; [exact Hm|apply Hk].
Qed.

Create HintDb pres.
#[export] Hint Resolve pres_ret pres_lift pres_gets : pres.

Ltac pres_step :=
  match goal with
  | |- pres _ (mbind _ _) => eapply pres_bind; [first [typeclasses eauto|done]| |intros ?]
  | |- pres _ (match ?x with _ => _ end) => destruct x
  | |- pres _ _ => solve [eauto with pres typeclass_instances]
  end.
Ltac pres := repeat pres_step.

Class StoreReads `{CxxRuntime} (Sch : Schedule) (P : World -> World -> Prop) : Prop := {
  reads_preorder :: PreOrder P;
  reads_tick : pres P next_op;
  reads_get : forall key, pres P (@KvStore_get Sch key);
  reads_exists : forall key, pres P (@KvStore_exists Sch key);
  reads_ttl : forall key, pres P (@KvStore_ttl Sch key);
  reads_size : pres P (@KvStore_size Sch);
  reads_memory : pres P (@KvStore_approx_memory_bytes _ Sch);
}.

Class StoreWrites `{CxxRuntime} (Sch : Schedule) (P : World -> World -> Prop) : Prop := {
  writes_read :: StoreReads Sch P;
  writes_set : forall key v ttl, pres P (@KvStore_set Sch key v ttl);
  writes_del : forall key, pres P (@KvStore_del Sch key);
  writes_expire : forall key ttl, pres P (@KvStore_expire Sch key ttl);
  writes_persist : forall key, pres P (@KvStore_persist Sch key);
}.

#[export] Hint Resolve reads_tick reads_get reads_exists reads_ttl reads_size reads_memory
  writes_set writes_del writes_expire writes_persist : pres.

(** * Same clock, different expiry passes *)

(** Nothing a client can see differs; the sets of dead entries may. *)
Record same_view (S1 : Schedule) (w1 w2 : World) : Prop := {
  sv_tick : tick w1 = tick w2;
  sv_stats : stats w1 = stats w2;
  sv_channels : channels_ w1 = channels_ w2;
  sv_posted : posted w1 = posted w2;
  sv_data : data_ w1 ≈[@now S1 w1] data_ w2;
}.

Section SameClock.
Context (S1 S2 : Schedule) `{!ScheduleOk S1} `{!ScheduleOk S2}.
Context (Hclock : forall op s, @clock S1 op s = @clock S2 op s).

Lemma same_view_locked w1 w2 :
  same_view S1 w1 w2 -> same_view S1 (@locked S1 w1) (@locked S2 w2).
Proof.
  intros [Ht Hs Hc Hp Hd]. split.
  - by rewrite !locked_tick, Ht.
  - by rewrite !locked_stats.
  - by rewrite !locked_channels.
  - by rewrite !locked_posted.
  - etrans; [apply locked_now_equiv|]. etrans.
    { eapply live_equiv_later; [exact Hd|]. apply now_later. rewrite locked_tick. lia. }
    symmetry. pose proof (locked_now_equiv (Sch := S2) w2) as E. unfold now in *.
    by rewrite !locked_tick, Hclock, Ht in *.
Qed.

Lemma same_view_data (w1 w2 : World) (f : gmap bytes Entry -> gmap bytes Entry) :
  (forall t, Proper (live_equiv t ==> live_equiv t) f) ->
  same_view S1 w1 w2 ->
  same_view S1 (set_data (f (data_ w1)) w1) (set_data (f (data_ w2)) w2).
Proof. intros Hf []. split; try done. simpl. by apply Hf. Qed.

Lemma same_view_live w1 w2 key :
  same_view S1 w1 w2 ->
  live (@check_time S1 w1) (data_ w1) key = live (@check_time S2 w2) (data_ w2) key.
Proof.
  intros [Ht _ _ _ Hd]. unfold check_time. rewrite <- Hclock, <- Ht. apply Hd.
  apply clock_later. unfold at_entry. lia.
Qed.

Lemma same_view_view w1 w2 key : same_view S1 w1 w2 -> @view S1 w1 key = @view S2 w2 key.
Proof. intros Hw. unfold view. by rewrite (same_view_live w1 w2). Qed.

Lemma same_view_is_live w1 w2 key : same_view S1 w1 w2 -> @is_live S1 w1 key = @is_live S2 w2 key.
Proof. intros Hw. unfold is_live. by rewrite (same_view_view w1 w2). Qed.

Lemma same_view_set w1 w2 key e :
  same_view S1 w1 w2 ->
  same_view S1 (set_data (<[key := e]> (data_ (@locked S1 w1))) (@locked S1 w1))
               (set_data (<[key := e]> (data_ (@locked S2 w2))) (@locked S2 w2)).
Proof. intros Hw. apply (same_view_data _ _ (insert key e)); [apply _|by apply same_view_locked]. Qed.

Lemma same_view_del w1 w2 key :
  same_view S1 w1 w2 ->
  same_view S1 (set_data (delete key (data_ (@locked S1 w1))) (@locked S1 w1))
               (set_data (delete key (data_ (@locked S2 w2))) (@locked S2 w2)).
Proof. intros Hw. apply (same_view_data _ _ (delete key)); [apply _|by apply same_view_locked]. Qed.

Lemma same_view_tick w1 w2 :
  same_view S1 w1 w2 -> same_view S1 (set_tick (S (tick w1)) w1) (set_tick (S (tick w2)) w2).
Proof.
  intros [Ht Hs Hc Hp Hd]. split; simpl; try done; [by rewrite Ht|].
  eapply live_equiv_later; [exact Hd|]. apply now_later. simpl. lia.
Qed.

#[local] Hint Resolve same_view_locked same_view_set same_view_del same_view_tick : core.

(** The outcome of one operation is the same and so is the view it leaves. *)
#[export] Instance same_clock_sim : StoreSimTtl S1 S2 (same_view S1).
Proof.
  assert (forall w1 w2, same_view S1 w1 w2 -> @now S1 w1 = @now S2 w2) as Hnow.
  { intros w1 w2 []. unfold now. by rewrite Hclock, sv_tick0. }
  assert (forall w1 w2, same_view S1 w1 w2 ->
            @clock S1 (tick w1) at_read = @clock S2 (tick w2) at_read) as Hread.
  { intros w1 w2 []. by rewrite Hclock, sv_tick0. }
  split; [split|..]; intros key; intros; intros w1 w2 Hw.
  - rewrite !get_run. cbn [fst snd]. split; [f_equal; by apply same_view_view|auto].
  - rewrite !exists_run. cbn [fst snd]. split; [f_equal; by apply same_view_is_live|auto].
  - rewrite !set_run. cbn [fst snd]. auto.
  - rewrite !del_run. cbn [fst snd]. by rewrite (same_view_is_live w1 w2); auto.
  - rewrite !persist_run, (same_view_live w1 w2) by done.
    destruct (live _ _ _); cbn [fst snd]; auto.
  - destruct (Z.ltb_spec 0 ttl) as [Httl|Httl].
    + rewrite !set_ttl_run, (Hnow w1 w2) by done. destruct (deadline _ _); cbn [fst snd]; auto.
    + rewrite !(set_nottl key v ttl), !set_run by done. cbn [fst snd]. auto.
  - rewrite !expire_run, (same_view_live w1 w2), (Hread w1 w2) by done.
    destruct (live _ _ _); [destruct (deadline _ _)|]; cbn [fst snd]; auto.
  - rewrite !ttl_run, (same_view_live w1 w2), (Hread w1 w2) by done.
    destruct (live _ _ _) as [e|]; [destruct (expires_at e)|]; cbn [fst snd]; auto.
Qed.
End SameClock.

(** * Stores without deadlines, whatever the clocks say *)

Definition no_deadlines (d : gmap bytes Entry) : Prop :=
  map_Forall (fun _ e => expires_at e = None) d.

Record same_data (w1 w2 : World) : Prop := {
  sd_data : data_ w1 = data_ w2;
  sd_none : no_deadlines (data_ w1);
}.

Lemma no_deadlines_live t d key : no_deadlines d -> live t d key = d !! key.
Proof.
  intros Hd. unfold live. destruct (d !! key) as [e|] eqn:E; [|done].
  unfold expired_at. by rewrite (Hd key e E).
Qed.

Lemma no_deadlines_sweep t d : no_deadlines d -> sweep t d = d.
Proof.
  intros Hd. apply map_eq. intros key. by rewrite lookup_sweep, no_deadlines_live.
Qed.

(** Between stores without deadlines, equivalence is equality. *)
Lemma no_deadlines_equiv t d1 d2 :
  no_deadlines d1 -> d2 ≈[t] d1 -> no_deadlines d2 -> d2 = d1.
Proof.
  intros H1 E H2. apply map_eq. intros key.
  rewrite <- (no_deadlines_live t d1), <- (no_deadlines_live t d2) by done. by apply E.
Qed.

Section AnyClock.
Context (S1 S2 : Schedule) `{!ScheduleOk S1} `{!ScheduleOk S2}.

Lemma locked_same `{Schedule} w : no_deadlines (data_ w) -> data_ (locked w) = data_ w.
Proof.
  intros Hd. unfold locked. simpl. destruct (sweep_at _); [|done]. by apply no_deadlines_sweep.
Qed.

Lemma same_data_locked w1 w2 : same_data w1 w2 -> same_data (@locked S1 w1) (@locked S2 w2).
Proof.
  intros [Hd Hn]. split; rewrite (locked_same w1) by done; [|done].
  by rewrite locked_same; rewrite <- Hd.
Qed.

Lemma same_data_live w1 w2 t1 t2 key :
  same_data w1 w2 -> live t1 (data_ w1) key = live t2 (data_ w2) key.
Proof. intros [Hd Hn]. by rewrite <- Hd, !no_deadlines_live. Qed.

Lemma same_data_is_live w1 w2 key : same_data w1 w2 -> @is_live S1 w1 key = @is_live S2 w2 key.
Proof. intros Hw. unfold is_live, view.
  by rewrite (same_data_live w1 w2 (@check_time S1 w1) (@check_time S2 w2)). Qed.

Lemma same_data_set w1 w2 key v :
  same_data w1 w2 ->
  same_data (set_data (<[key := MkEntry v None]> (data_ (@locked S1 w1))) (@locked S1 w1))
            (set_data (<[key := MkEntry v None]> (data_ (@locked S2 w2))) (@locked S2 w2)).
Proof.
  intros [Hd Hn]%same_data_locked. split; cbn [data_ set_data]; [by rewrite Hd|].
  by apply map_Forall_insert_2.
Qed.

Lemma same_data_del w1 w2 key :
  same_data w1 w2 ->
  same_data (set_data (delete key (data_ (@locked S1 w1))) (@locked S1 w1))
            (set_data (delete key (data_ (@locked S2 w2))) (@locked S2 w2)).
Proof.
  intros [Hd Hn]%same_data_locked. split; cbn [data_ set_data]; [by rewrite Hd|]. by apply map_Forall_delete.
Qed.

#[local] Hint Resolve same_data_locked same_data_set same_data_del : core.

#[export] Instance any_clock_sim : StoreSim S1 S2 same_data.
Proof.
  split; intros key; intros; intros w1 w2 Hw.
  - rewrite !get_run. cbn [fst snd]. unfold view. split; [|auto].
    by rewrite (same_data_live w1 w2 (@check_time S1 w1) (@check_time S2 w2)).
  - rewrite !exists_run. cbn [fst snd]. by rewrite (same_data_is_live w1 w2); auto.
  - rewrite !set_run. cbn [fst snd]. auto.
  - rewrite !del_run. cbn [fst snd]. by rewrite (same_data_is_live w1 w2); auto.
  - rewrite !persist_run, (same_data_live w1 w2 _ (@check_time S2 w2)) by done.
    destruct (live _ _ _); cbn [fst snd]; auto.
Qed.
End AnyClock.

(** * Reads leave the view alone, and the store's operations leave the rest alone *)

Record view_kept (Sch : Schedule) (w w' : World) : Prop := {
  vk_tick : (tick w <= tick w')%nat;
  vk_data : data_ w' ≈[@now Sch w'] data_ w;
}.

Section Kept.
Context `{CxxRuntime} (Sch : Schedule) `{!ScheduleOk Sch}.

#[export] Instance view_kept_preorder : PreOrder (view_kept Sch).
Proof.
  split.
  - by intros w.
  - intros w1 w2 w3 [Ht1 Hd1] [Ht2 Hd2]. split; [lia|]. etrans; [exact Hd2|].
    eapply live_equiv_later; [exact Hd1|by apply now_later].
Qed.

Lemma view_kept_locked w : view_kept Sch w (@locked Sch w).
Proof. split; [rewrite locked_tick; lia|apply locked_now_equiv]. Qed.

#[export] Instance view_kept_reads : StoreReads Sch (view_kept Sch).
Proof.
  split; [apply _|..]; try intros key; try intros w.
  - simpl. split; simpl; [lia|done].
  - rewrite get_run. apply view_kept_locked.
  - rewrite exists_run. apply view_kept_locked.
  - rewrite ttl_run. destruct (live _ _ _) as [e|]; [destruct (expires_at e)|];
      apply view_kept_locked.
  - rewrite size_run. apply view_kept_locked.
  - unfold KvStore_approx_memory_bytes. rewrite (enter_run (fun op => _)).
    apply view_kept_locked.
Qed.

#[export] Instance unchanged_rest_preorder : PreOrder unchanged_rest.
Proof.
  split; [by intros w|]. intros w1 w2 w3. apply unchanged_rest_trans.
Qed.

#[export] Instance unchanged_rest_writes : StoreWrites Sch unchanged_rest.
Proof.
  assert (forall w, unchanged_rest w (set_tick (S (tick w)) w)) as Ht.
  { intros w. split; simpl; done || lia. }
  split; [split; [apply _|..]|..]; try intros key; intros; try intros w.
  - apply Ht.
  - rewrite get_run. apply locked_rest.
  - rewrite exists_run. apply locked_rest.
  - rewrite ttl_run. destruct (live _ _ _) as [e|]; [destruct (expires_at e)|];
      apply locked_rest.
  - rewrite size_run. apply locked_rest.
  - unfold KvStore_approx_memory_bytes. rewrite (enter_run (fun op => _)). apply locked_rest.
  - destruct (Z.ltb_spec 0 ttl).
    + rewrite set_ttl_run by done. destruct (deadline _ _); simpl; try apply Ht.
      apply set_data_rest, locked_rest.
    + rewrite set_nottl, set_run by done. apply set_data_rest, locked_rest.
  - rewrite del_run. apply set_data_rest, locked_rest.
  - rewrite expire_run. destruct (live _ _ _); [destruct (deadline _ _)|];
      try apply locked_rest. apply set_data_rest, locked_rest.
  - rewrite persist_run. destruct (live _ _ _); [apply set_data_rest|]; apply locked_rest.
Qed.
End Kept.
