(* ===== verification/HandlerSim.v ===== *)
(** The command handlers, proved against the store's interfaces of StoreSim. *)

From S2P Require Import Prelude Cxx Charconv Resp World KvStore KvStoreFacts Command CmdSpec.
From S2P Require Import StoreSim PubSubBroker GenericCmds StringCmds ListCmds SetCmds HashCmds.
From S2P Require Import Dispatcher.

Open Scope Z_scope.

(** * Handlers in step *)

Section Sim.
Context `{CxxRuntime} {S1 S2 : Schedule} {R : World -> World -> Prop} `{!StoreSim S1 S2 R}.

Lemma del_loop_sim keys count : msim R (@del_loop S1 keys count) (@del_loop S2 keys count).
Proof. revert count. induction keys as [|key keys IH]; intros count; simpl; sim. Qed.

Lemma exists_loop_sim keys count :
  msim R (@exists_loop S1 keys count) (@exists_loop S2 keys count).
Proof. revert count. induction keys as [|key keys IH]; intros count; simpl; sim. Qed.

#[local] Hint Resolve del_loop_sim exists_loop_sim : sim.

Lemma cmd_del_sim c : msim R (@cmd_del S1 c) (@cmd_del S2 c).
Proof. unfold cmd_del. sim. Qed.
Lemma cmd_exists_sim c : msim R (@cmd_exists S1 c) (@cmd_exists S2 c).
Proof. unfold cmd_exists. sim. Qed.
Lemma cmd_persist_sim c : msim R (@cmd_persist S1 c) (@cmd_persist S2 c).
Proof. unfold cmd_persist. sim. Qed.

Lemma cmd_get_sim c : msim R (@cmd_get S1 c) (@cmd_get S2 c).
Proof. unfold cmd_get. sim. Qed.

Lemma apply_delta_sim key delta :
  msim R (@apply_delta S1 key delta) (@apply_delta S2 key delta).
Proof. unfold apply_delta, add_delta. sim. Qed.

#[local] Hint Resolve apply_delta_sim : sim.

Lemma cmd_incr_sim c : msim R (@cmd_incr S1 c) (@cmd_incr S2 c).
Proof. unfold cmd_incr. sim. Qed.
Lemma cmd_decr_sim c : msim R (@cmd_decr S1 c) (@cmd_decr S2 c).
Proof. unfold cmd_decr. sim. Qed.
Lemma cmd_incrby_sim c : msim R (@cmd_incrby S1 c) (@cmd_incrby S2 c).
Proof. unfold cmd_incrby. sim. Qed.
Lemma cmd_decrby_sim c : msim R (@cmd_decrby S1 c) (@cmd_decrby S2 c).
Proof. unfold cmd_decrby. sim. Qed.

Lemma push_list_sim push c : msim R (@push_list S1 push c) (@push_list S2 push c).
Proof. unfold push_list, get_or_create_list. sim. Qed.

Lemma store_list_sim key l : msim R (@store_list S1 key l) (@store_list S2 key l).
Proof. unfold store_list. sim. Qed.

#[local] Hint Resolve store_list_sim : sim.

Lemma cmd_lpop_sim c : msim R (@cmd_lpop S1 c) (@cmd_lpop S2 c).
Proof. unfold cmd_lpop. sim. Qed.
Lemma cmd_rpop_sim c : msim R (@cmd_rpop S1 c) (@cmd_rpop S2 c).
Proof. unfold cmd_rpop. sim. Qed.
Lemma cmd_llen_sim c : msim R (@cmd_llen S1 c) (@cmd_llen S2 c).
Proof. unfold cmd_llen. sim. Qed.
Lemma cmd_lrange_sim c : msim R (@cmd_lrange S1 c) (@cmd_lrange S2 c).
Proof. unfold cmd_lrange. sim. Qed.
Lemma cmd_lindex_sim c : msim R (@cmd_lindex S1 c) (@cmd_lindex S2 c).
Proof. unfold cmd_lindex. sim. Qed.

Lemma cmd_sadd_sim c : msim R (@cmd_sadd S1 c) (@cmd_sadd S2 c).
Proof. unfold cmd_sadd, get_or_create_set. sim. Qed.
Lemma cmd_srem_sim c : msim R (@cmd_srem S1 c) (@cmd_srem S2 c).
Proof. unfold cmd_srem. sim. Qed.
Lemma cmd_smembers_sim c : msim R (@cmd_smembers _ S1 c) (@cmd_smembers _ S2 c).
Proof. unfold cmd_smembers. sim. Qed.
Lemma cmd_sismember_sim c : msim R (@cmd_sismember S1 c) (@cmd_sismember S2 c).
Proof. unfold cmd_sismember. sim. Qed.
Lemma cmd_scard_sim c : msim R (@cmd_scard S1 c) (@cmd_scard S2 c).
Proof. unfold cmd_scard. sim. Qed.

Lemma cmd_hset_sim c : msim R (@cmd_hset S1 c) (@cmd_hset S2 c).
Proof. unfold cmd_hset, get_or_create_hash. sim. Qed.
Lemma cmd_hget_sim c : msim R (@cmd_hget S1 c) (@cmd_hget S2 c).
Proof. unfold cmd_hget. sim. Qed.
Lemma cmd_hdel_sim c : msim R (@cmd_hdel S1 c) (@cmd_hdel S2 c).
Proof. unfold cmd_hdel. sim. Qed.
Lemma cmd_hgetall_sim c : msim R (@cmd_hgetall _ S1 c) (@cmd_hgetall _ S2 c).
Proof. unfold cmd_hgetall. sim. Qed.
Lemma cmd_hexists_sim c : msim R (@cmd_hexists S1 c) (@cmd_hexists S2 c).
Proof. unfold cmd_hexists. sim. Qed.
Lemma cmd_hlen_sim c : msim R (@cmd_hlen S1 c) (@cmd_hlen S2 c).
Proof. unfold cmd_hlen. sim. Qed.

(** SET without EX or PX stores without a time to live. *)
Definition no_ttl_flag (a : bytes) : bool :=
  bool_decide (upper a <> "EX"%b) && bool_decide (upper a <> "PX"%b).

Lemma set_options_no_ttl l o o' :
  forallb no_ttl_flag l = true -> set_options l o = Ret (inr o') -> opt_ttl o' = opt_ttl o.
Proof.
  revert o. induction l as [|f l IH]; intros o; simpl; [by intros _ [= <-]|].
  unfold no_ttl_flag. rewrite !andb_true_iff, !bool_decide_eq_true. intros [[Hex Hpx] Hl].
  repeat case_decide; try done; intros Ho; by rewrite (IH _ Hl Ho).
Qed.

Lemma cmd_set_sim c :
  forallb no_ttl_flag (drop 2 (args c)) = true -> msim R (@cmd_set S1 c) (@cmd_set S2 c).
Proof.
  unfold cmd_set. destruct (args c) as [|key [|v opts]]; simpl; intros Hopt; [sim..|].
  apply msim_lift_bind. intros [r|o] Ho; [sim|].
  apply (set_options_no_ttl _ _ _ Hopt) in Ho. simpl in Ho. rewrite Ho. sim.
Qed.
End Sim.

Section SimTtl.
Context `{CxxRuntime} {S1 S2 : Schedule} {R : World -> World -> Prop} `{!StoreSimTtl S1 S2 R}.

Lemma cmd_set_sim_ttl c : msim R (@cmd_set S1 c) (@cmd_set S2 c).
Proof. unfold cmd_set. sim. Qed.
Lemma cmd_expire_sim c : msim R (@cmd_expire S1 c) (@cmd_expire S2 c).
Proof. unfold cmd_expire. sim. Qed.
Lemma cmd_ttl_sim c : msim R (@cmd_ttl S1 c) (@cmd_ttl S2 c).
Proof. unfold cmd_ttl. sim. Qed.
End SimTtl.

#[export] Hint Resolve cmd_del_sim cmd_exists_sim cmd_persist_sim cmd_get_sim cmd_incr_sim
  cmd_decr_sim cmd_incrby_sim cmd_decrby_sim push_list_sim cmd_lpop_sim cmd_rpop_sim
  cmd_llen_sim cmd_lrange_sim cmd_lindex_sim cmd_sadd_sim cmd_srem_sim cmd_smembers_sim
  cmd_sismember_sim cmd_scard_sim cmd_hset_sim cmd_hget_sim cmd_hdel_sim cmd_hgetall_sim
  cmd_hexists_sim cmd_hlen_sim cmd_set_sim cmd_set_sim_ttl cmd_expire_sim cmd_ttl_sim : sim.

(** * Tables of handlers in step *)

Section Tables.
Context (P : bytes -> HandlerFn -> HandlerFn -> Prop).

Definition tables_related (d1 d2 : gmap bytes HandlerFn) : Prop :=
  forall n, option_relation (P n) (fun _ => False) (fun _ => False) (d1 !! n) (d2 !! n).

Definition lists_related : list (bytes * HandlerFn) -> list (bytes * HandlerFn) -> Prop :=
  Forall2 (fun a b => fst a = fst b /\ P (fst a) (snd a) (snd b)).

Lemma register_related n f1 f2 d1 d2 :
  P n f1 f2 -> tables_related d1 d2 ->
  tables_related (register_handler n f1 d1) (register_handler n f2 d2).
Proof.
  intros Hf Hd. pose proof (Hd n) as Hn. unfold register_handler.
  destruct (d1 !! n), (d2 !! n); simpl in Hn; try done.
  intros n'. rewrite !lookup_insert. case_decide; [by subst|apply Hd].
Qed.

Lemma register_all_related l1 l2 d1 d2 :
  lists_related l1 l2 -> tables_related d1 d2 ->
  tables_related (register_all l1 d1) (register_all l2 d2).
Proof.
  intros Hl. revert d1 d2. induction Hl as [|[n1 f1] [n2 f2] l1 l2 [Hn Hf] _ IH];
    intros d1 d2 Hd; [done|]. simpl in *. subst n2. apply IH. by apply register_related.
Qed.

Lemma make_default_related `{CxxRuntime} (S1 S2 : Schedule) broker :
  lists_related (@generic_handlers _ S1) (@generic_handlers _ S2) ->
  lists_related (@string_handlers S1) (@string_handlers S2) ->
  lists_related (@list_handlers S1) (@list_handlers S2) ->
  lists_related (@set_handlers _ S1) (@set_handlers _ S2) ->
  lists_related (@hash_handlers _ S1) (@hash_handlers _ S2) ->
  lists_related pubsub_handlers pubsub_handlers ->
  tables_related (@make_default _ S1 broker) (@make_default _ S2 broker).
Proof.
  intros. assert (tables_related ∅ ∅) by (intros n; by rewrite !lookup_empty).
  unfold make_default, register_hash, register_set, register_list, register_string,
    register_generic, register_pubsub.
  destruct broker; repeat apply register_all_related; done.
Qed.
End Tables.
