(* ===== verification/Aof.v ===== *)
(** The append-only file (src/persistence/aof_persistence.hpp, aof_persistence.cpp).

    The object's path names one file; the model keeps that file's bytes and whether the
    append stream is open. Whether the operating system grants an open or a resize is a
    parameter; a granted write is appended whole, and a crash keeps a prefix of it. *)

From S2P Require Import Prelude Cxx Resp RespParser World Command Dispatcher.

Open Scope Z_scope.

Class FileSystem := {
  fs_open_append : bool;   (* ofstream::open with ios::app *)
  fs_open_read : bool;     (* ifstream::open *)
  fs_resize : bool;        (* std::filesystem::resize_file does not throw *)
}.

Record AofPersistence := MkAof { file_content : bytes; file_is_open : bool }.

(** The constructor opens the file for appending. *)
Definition AofPersistence_new `{FileSystem} (on_disk : bytes) : AofPersistence :=
  MkAof on_disk fs_open_append.

Definition AofPersistence_is_open (a : AofPersistence) : bool := file_is_open a.

Definition reopen_append_stream `{FileSystem} (a : AofPersistence) : AofPersistence :=
  MkAof (file_content a) fs_open_append.

(** [std::filesystem::resize_file]: cut, or fill up with zero bytes. *)
Definition resize_file (s : bytes) (n : nat) : bytes :=
  take n s ++ replicate (n - length s) "000"%char.

(** A resize that throws is caught after the stream was closed. *)
Definition truncate_to `{FileSystem} (n : nat) (a : AofPersistence) : AofPersistence :=
  if fs_resize then MkAof (resize_file (file_content a) n) fs_open_append
  else MkAof (file_content a) false.

(** * Write path *)

Definition write_names : list bytes :=
  ["SET"; "DEL"; "EXPIRE"; "PERSIST"; "INCR"; "INCRBY"; "DECR"; "DECRBY"; "LPUSH"; "RPUSH";
   "LPOP"; "RPOP"; "SADD"; "SREM"; "HSET"; "HDEL"]%b.

Definition is_write_command (n : bytes) : bool := bool_decide (n ∈ write_names).

(** The array written for a command: its name and arguments as bulk strings. *)
Definition AofPersistence_log (cmd : Command) (a : AofPersistence) : AofPersistence :=
  let wire := serialize (RespArray (RespBulkString (name cmd) :: map RespBulkString (args cmd))) in
  if file_is_open a then MkAof (file_content a ++ wire) true else a.

(** * Replay *)

Section Replay.
Context `{CxxRuntime}.

(** The loop; [chunk] is the whole file in the first round and empty afterwards. It ends
    with the number of commands and whether a parse error ended it. *)
Fixpoint replay_loop (fuel : nat) (handlers_ : gmap bytes HandlerFn) (p : RespParser)
    (chunk : bytes) (count : Z) (w : World) : Out (Z * bool) * RespParser * World :=
  match fuel with
  | O => (NoFuel, p, w)
  | S fuel =>
      match RespParser_feed p chunk with
      | (Exn _, p) => (Ret (count, true), p, w)
      | (Ret None, p) => (Ret (count, false), p, w)
      | (Ret (Some val), p) =>
          match parse_command val with
          | None => replay_loop fuel handlers_ p [] count w
          | Some cmd =>
              match dispatch handlers_ cmd w with
              | (Ret _, w) | (Exn _, w) => replay_loop fuel handlers_ p [] (count + 1) w
              | (UB, w) => (UB, p, w)
              | (NoFuel, w) => (NoFuel, p, w)
              end
          end
      | (UB, p) => (UB, p, w)
      | (NoFuel, p) => (NoFuel, p, w)
      end
  end.

(** Every round but the last takes at least three bytes off the buffer. *)
Definition replay_fuel (content : bytes) : nat := S (length content).

Definition AofPersistence_replay `{FileSystem} (handlers_ : gmap bytes HandlerFn)
    (a : AofPersistence) (w : World) : Out Z * AofPersistence * World :=
  let content := file_content a in
  if negb fs_open_read then (Ret 0, a, w)
  else if decide (content = []) then (Ret 0, a, w)
  else
    match replay_loop (replay_fuel content) handlers_ RespParser_new content 0 w with
    | (Ret (count, parse_error), p, w) =>
        let trailing_bytes := length (buf_ p) in
        let a :=
          if parse_error || (0 <? trailing_bytes)%nat
          then truncate_to (length content - trailing_bytes) a
          else reopen_append_stream a in
        (Ret count, a, w)
    | (Exn e, _, w) => (Exn e, a, w)
    | (UB, _, w) => (UB, a, w)
    | (NoFuel, _, w) => (NoFuel, a, w)
    end.

(** A write command is logged before it is executed (Connection::handle_data). *)
Definition log_if_write (cmd : Command) (a : AofPersistence) : AofPersistence :=
  if is_write_command (name cmd) then AofPersistence_log cmd a else a.
End Replay.
