(* ===== verification/Histories.v ===== *)
(** Histories of commands: the expiry thread is invisible, commands the append-only file
    does not log leave the store alone, and a store without deadlines depends only on the
    commands that are logged. *)

From S2P Require Import Prelude Cxx Charconv Resp World KvStore KvStoreFacts Command CmdSpec Demo.
From S2P Require Import StoreSim PubSubBroker GenericCmds StringCmds ListCmds SetCmds HashCmds.
From S2P Require Import Dispatcher HandlerSim Aof.

Open Scope Z_scope.

(** Commands dispatched one after the other; an exception ends the command, as the
    connection and the replay loop catch it. *)
Fixpoint run_history (handlers_ : gmap bytes HandlerFn) (cmds : list Command) (w : World)
    : list (Out RespValue) * World :=
  match cmds with
  | [] => ([], w)
  | c :: cmds =>
      let '(r, w) := dispatch handlers_ c w in
      let '(rs, w) := run_history handlers_ cmds w in
      (r :: rs, w)
  end.

Lemma run_history_cons d c cmds w :
  run_history d (c :: cmds) w =
  (fst (dispatch d c w) :: fst (run_history d cmds (snd (dispatch d c w))),
   snd (run_history d cmds (snd (dispatch d c w)))).
Proof. simpl. destruct (dispatch d c w) as [r w']. simpl. by destruct (run_history _ _ _). Qed.

(** * Handlers outside the store *)

Lemma cmd_ready_sim R :
  (forall w1 w2, R w1 w2 -> stats w1 = stats w2) -> forall c, msim R (cmd_ready c) (cmd_ready c).
Proof.
  intros Hst c. unfold cmd_ready. destruct (args c); [|sim].
  intros w1 w2 Hw. unfold mbind, M_bind, gets. simpl. rewrite (Hst _ _ Hw). by destruct (ready _).
Qed.

Lemma call_all_run fns message w :
  call_all fns message w =
  (Ret tt, add_posted (map (fun fn => (wf_self fn, make_message_frame (wf_ch fn) message)) fns) w).
Proof.
  revert w. induction fns as [|fn fns IH]; intros w; simpl.
  - unfold add_posted. rewrite app_nil_r. by destruct w.
  - rewrite bind_run. cbn. rewrite IH. unfold add_posted. simpl. by rewrite <- app_assoc.
Qed.

Lemma publish_run channel message w :
  PubSubBroker_publish channel message w =
  let subs := default [] (channels_ w !! channel) in
  (Ret (zlen subs),
   add_posted (map (fun s => (wf_self (write s), make_message_frame (wf_ch (write s)) message))
                 subs) w).
Proof.
  unfold PubSubBroker_publish. rewrite bind_run. simpl.
  destruct (channels_ w !! channel) as [subs|]; simpl.
  - rewrite bind_run, call_all_run. simpl. unfold zlen. by rewrite length_map, map_map.
  - unfold add_posted. rewrite app_nil_r. by destruct w.
Qed.

Lemma cmd_publish_sim S1 c : msim (same_view S1) (cmd_publish c) (cmd_publish c).
Proof.
  unfold cmd_publish. destruct (args c) as [|ch [|msg []]]; try by sim.
  eapply msim_bind; [|intros ?; sim]. intros w1 w2 [Ht Hs Hc Hp Hd]. rewrite !publish_run, Hc. simpl.
  split; [done|]. split; simpl; try done. by rewrite Hp.
Qed.

Lemma cmd_ping_sim R c : msim R (cmd_ping c) (cmd_ping c).
Proof. unfold cmd_ping. sim. Qed.
Lemma cmd_health_sim R c : msim R (cmd_health c) (cmd_health c).
Proof. unfold cmd_health. sim. Qed.

#[export] Hint Resolve cmd_ready_sim cmd_publish_sim cmd_ping_sim cmd_health_sim : sim.

Lemma dispatch_related (Q : Command -> Prop) R d1 d2 c :
  tables_related (fun n f1 f2 => forall c, name c = n -> Q c -> msim R (f1 c) (f2 c)) d1 d2 ->
  Q c -> msim R (dispatch d1 c) (dispatch d2 c).
Proof.
  intros Hd HQ. specialize (Hd (name c)). unfold dispatch.
  destruct (d1 !! name c), (d2 !! name c); simpl in Hd; try done; sim.
Qed.

Lemma run_history_related (Q : Command -> Prop) R d1 d2 cmds w1 w2 :
  tables_related (fun n f1 f2 => forall c, name c = n -> Q c -> msim R (f1 c) (f2 c)) d1 d2 ->
  Forall Q cmds -> R w1 w2 ->
  fst (run_history d1 cmds w1) = fst (run_history d2 cmds w2) /\
  R (snd (run_history d1 cmds w1)) (snd (run_history d2 cmds w2)).
Proof.
  intros Hd HQ. revert w1 w2. induction HQ as [|c cmds Hc _ IH]; intros w1 w2 Hw; [done|].
  rewrite !run_history_cons. simpl.
  destruct (dispatch_related Q R d1 d2 c Hd Hc w1 w2 Hw) as [-> HR].
  destruct (IH _ _ HR) as [-> ?]. done.
Qed.

(** * The expiry thread *)

(** INFO and METRICS count the entries in the table, dead ones included. *)
Definition not_counting (c : Command) : Prop := name c <> "INFO"%b /\ name c <> "METRICS"%b.

Ltac table := unfold lists_related; repeat (apply Forall2_cons_2 || apply Forall2_nil_2);
  (split; [reflexivity|]); cbn [fst snd]; intros c Hn HQ.

Section Invisible.
Context `{CxxRuntime} (S1 S2 : Schedule) `{!ScheduleOk S1} `{!ScheduleOk S2}.
Context (Hclock : forall op s, @clock S1 op s = @clock S2 op s).

Lemma same_clock_tables broker :
  tables_related (fun n f1 f2 => forall c, name c = n -> not_counting c ->
                    msim (same_view S1) (f1 c) (f2 c))
    (@make_default _ S1 broker) (@make_default _ S2 broker).
Proof.
  pose proof (same_clock_sim S1 S2 Hclock).
  apply make_default_related; table; try solve [eauto with sim typeclass_instances].
  - destruct HQ. done.
  - apply cmd_ready_sim. by intros ? ? [].
  - destruct HQ. done.
Qed.

(** C9. The background expiry thread is invisible: two runs of the same commands that
    read the same clock, with entirely different passes of the expiry thread, give the
    same replies and leave stores, channels and outgoing messages no client can tell
    apart (INFO and METRICS, which count dead entries too, excepted). *)
Theorem expiry_thread_invisible broker cmds w1 w2 :
  Forall not_counting cmds -> same_view S1 w1 w2 ->
  fst (run_history (@make_default _ S1 broker) cmds w1)
    = fst (run_history (@make_default _ S2 broker) cmds w2) /\
  same_view S1 (snd (run_history (@make_default _ S1 broker) cmds w1))
               (snd (run_history (@make_default _ S2 broker) cmds w2)).
Proof. apply run_history_related, same_clock_tables. Qed.
End Invisible.

(** * Commands that are not logged *)

Section ReadOnly.
Context `{CxxRuntime} (Sch : Schedule) (P : World -> World -> Prop) `{!StoreReads Sch P}.

Lemma exists_loop_reads keys count : pres P (@exists_loop Sch keys count).
Proof. revert count. induction keys as [|key keys IH]; intros count; simpl; pres. Qed.

Lemma uptime_reads : pres P (@uptime_seconds Sch).
Proof. unfold uptime_seconds, clock_now. pres. Qed.

#[local] Hint Resolve exists_loop_reads uptime_reads : pres.

Lemma info_section_reads section n text body :
  pres P text -> pres P (info_section section n text body).
Proof. intros. unfold info_section. pres. Qed.

Lemma cmd_info_reads c : pres P (@cmd_info Sch c).
Proof.
  unfold cmd_info. destruct (args c) as [|s [|]].
  3: pres.
  all: repeat (eapply pres_bind; [apply _|apply info_section_reads;
         unfold section_server, section_clients, section_stats, section_keyspace; pres|intros ?]);
    pres.
Qed.

Lemma cmd_metrics_reads c : pres P (@cmd_metrics _ Sch c).
Proof. unfold cmd_metrics. pres. Qed.
Lemma cmd_ready_reads c : pres P (cmd_ready c).
Proof. unfold cmd_ready. pres. Qed.
Lemma cmd_ping_reads c : pres P (cmd_ping c).
Proof. unfold cmd_ping. pres. Qed.
Lemma cmd_health_reads c : pres P (cmd_health c).
Proof. unfold cmd_health. pres. Qed.
Lemma cmd_exists_reads c : pres P (@cmd_exists Sch c).
Proof. unfold cmd_exists. pres. Qed.
Lemma cmd_ttl_reads c : pres P (@cmd_ttl Sch c).
Proof. unfold cmd_ttl. pres. Qed.
Lemma cmd_get_reads c : pres P (@cmd_get Sch c).
Proof. unfold cmd_get. pres. Qed.
Lemma cmd_llen_reads c : pres P (@cmd_llen Sch c).
Proof. unfold cmd_llen. pres. Qed.
Lemma cmd_lrange_reads c : pres P (@cmd_lrange Sch c).
Proof. unfold cmd_lrange. pres. Qed.
Lemma cmd_lindex_reads c : pres P (@cmd_lindex Sch c).
Proof. unfold cmd_lindex. pres. Qed.
Lemma cmd_smembers_reads c : pres P (@cmd_smembers _ Sch c).
Proof. unfold cmd_smembers. pres. Qed.
Lemma cmd_sismember_reads c : pres P (@cmd_sismember Sch c).
Proof. unfold cmd_sismember. pres. Qed.
Lemma cmd_scard_reads c : pres P (@cmd_scard Sch c).
Proof. unfold cmd_scard. pres. Qed.
Lemma cmd_hget_reads c : pres P (@cmd_hget Sch c).
Proof. unfold cmd_hget. pres. Qed.
Lemma cmd_hgetall_reads c : pres P (@cmd_hgetall _ Sch c).
Proof. unfold cmd_hgetall. pres. Qed.
Lemma cmd_hexists_reads c : pres P (@cmd_hexists Sch c).
Proof. unfold cmd_hexists. pres. Qed.
Lemma cmd_hlen_reads c : pres P (@cmd_hlen Sch c).
Proof. unfold cmd_hlen. pres. Qed.
End ReadOnly.

#[export] Hint Resolve cmd_info_reads cmd_metrics_reads cmd_ready_reads cmd_ping_reads
  cmd_health_reads cmd_exists_reads cmd_ttl_reads cmd_get_reads cmd_llen_reads
  cmd_lrange_reads cmd_lindex_reads cmd_smembers_reads cmd_sismember_reads cmd_scard_reads
  cmd_hget_reads cmd_hgetall_reads cmd_hexists_reads cmd_hlen_reads : pres.

(** What a command outside the append-only file preserves. *)
Lemma cmd_publish_reads P c :
  PreOrder P -> (forall l w, P w (add_posted l w)) -> pres P (cmd_publish c).
Proof.
  intros HP Hadd. unfold cmd_publish. destruct (args c) as [|ch [|msg []]]; try by pres.
  eapply pres_bind; [apply _| |intros ?; pres]. intros w. rewrite publish_run. apply Hadd.
Qed.

Lemma not_logged_tables `{CxxRuntime} (Sch : Schedule) P `{!StoreReads Sch P} broker :
  (forall l w, P w (add_posted l w)) ->
  tables_related (fun n f _ => forall c, name c = n -> is_write_command n = false -> pres P (f c))
    (@make_default _ Sch broker) (@make_default _ Sch broker).
Proof.
  intros Hadd. apply make_default_related; table;
    solve [discriminate | eauto using cmd_publish_reads with pres typeclass_instances].
Qed.

Lemma dispatch_not_logged `{CxxRuntime} (Sch : Schedule) P `{!StoreReads Sch P} broker c :
  (forall l w, P w (add_posted l w)) -> is_write_command (name c) = false ->
  pres P (dispatch (@make_default _ Sch broker) c).
Proof.
  intros Hadd Hw. pose proof (not_logged_tables Sch P broker Hadd (name c)) as Ht.
  unfold dispatch. destruct (_ !! name c); simpl in Ht; [by apply Ht|pres].
Qed.

(** C25. The list of write commands is complete: a command the append-only file does not
    log leaves every key as it was, whatever its name, arguments and outcome. *)
Theorem unlogged_commands_keep_store `{CxxRuntime} (Sch : Schedule) `{!ScheduleOk Sch}
    broker c w :
  is_write_command (name c) = false ->
  data_ (snd (dispatch (@make_default _ Sch broker) c w))
    ≈[@now Sch (snd (dispatch (@make_default _ Sch broker) c w))] data_ w.
Proof.
  intros Hw. eapply vk_data, dispatch_not_logged; [apply _| |done]. by split.
Qed.

(** * Stores without deadlines *)

(** Commands that set no deadline. *)
Definition ttl_free (c : Command) : bool :=
  bool_decide (name c <> "EXPIRE"%b)
  && (bool_decide (name c <> "SET"%b) || forallb no_ttl_flag (drop 2 (args c))).

Definition data_kept (w w' : World) : Prop :=
  no_deadlines (data_ w) -> data_ w' = data_ w.

Section Logged.
Context `{CxxRuntime} (S1 S2 : Schedule) `{!ScheduleOk S1} `{!ScheduleOk S2}.

#[local] Instance data_kept_preorder : PreOrder data_kept.
Proof.
  split; [by intros w|]. intros w1 w2 w3 H1 H2 Hn. by rewrite H2, H1 by by rewrite ?H1.
Qed.

#[local] Instance data_kept_reads : StoreReads S1 data_kept.
Proof.
  split; [apply _|..]; repeat intro.
  - done.
  - rewrite get_run. by apply locked_same.
  - rewrite exists_run. by apply locked_same.
  - rewrite ttl_run. destruct (live _ _ _) as [e|]; [destruct (expires_at e)|];
      by apply locked_same.
  - rewrite size_run. by apply locked_same.
  - unfold KvStore_approx_memory_bytes. rewrite (enter_run (fun op => _)).
    by apply locked_same.
Qed.

Lemma any_clock_tables broker :
  tables_related (fun n f1 f2 => forall c, name c = n ->
                    is_write_command (name c) = true /\ ttl_free c = true ->
                    msim same_data (f1 c) (f2 c))
    (@make_default _ S1 broker) (@make_default _ S2 broker).
Proof.
  pose proof (any_clock_sim S1 S2).
  apply make_default_related; table; destruct HQ as [Hw Hf]; rewrite Hn in Hw;
    try discriminate; try solve [eauto with sim typeclass_instances].
  - unfold ttl_free in Hf. rewrite Hn in Hf. discriminate.
  - apply cmd_set_sim. unfold ttl_free in Hf. rewrite Hn in Hf. exact Hf.
Qed.

(** A command that is not logged leaves the data of such a store unchanged. *)
Lemma unlogged_data broker c w :
  is_write_command (name c) = false -> no_deadlines (data_ w) ->
  data_ (snd (dispatch (@make_default _ S1 broker) c w)) = data_ w.
Proof.
  intros Hl Hn. refine (dispatch_not_logged S1 data_kept broker c _ Hl w Hn). by intros l u.
Qed.

(** The data after a history of commands that set no deadline is the data its logged
    commands produce, at any other time and speed. *)
Lemma history_logged broker cmds w1 w2 :
  Forall (fun c => ttl_free c = true) cmds -> same_data w1 w2 ->
  let run1 := run_history (@make_default _ S1 broker) cmds w1 in
  let run2 := run_history (@make_default _ S2 broker)
                (filter (fun c => is_write_command (name c) = true) cmds) w2 in
  fst run2 ⊆ fst run1 /\ same_data (snd run1) (snd run2).
Proof.
  intros Hf. revert w1 w2. induction Hf as [|c cmds Hc _ IH]; intros w1 w2 Hw; [done|].
  rewrite run_history_cons, filter_cons. simpl. case_decide as Hl.
  - rewrite run_history_cons. simpl.
    destruct (dispatch_related _ same_data _ _ c (any_clock_tables broker) (conj Hl Hc) w1 w2 Hw)
      as [<- Hw']. destruct (IH _ _ Hw') as [Hsub Hsd]. split; [|done]. set_solver.
  - apply not_true_is_false in Hl. destruct Hw as [Hd Hn].
    pose proof (unlogged_data broker c w1 Hl Hn) as Hdata.
    destruct (IH (snd (dispatch (@make_default _ S1 broker) c w1)) w2) as [Hsub Hsd];
      [split; by rewrite Hdata|]. split; [set_solver|done].
Qed.
End Logged.

#[local] Existing Instance demo_runtime.

(** A schedule with the demo clock whose expiry thread never runs. *)
Definition lazy_schedule : Schedule := {|
  clock := @clock demo_schedule;
  sweep_at := fun _ => None;
|}.

#[global] Instance lazy_schedule_ok : ScheduleOk lazy_schedule.
Proof. split; [apply (@clock_step demo_schedule _)|apply (@clock_next demo_schedule _)|done]. Qed.

Lemma expiry_thread_invisible_witness :
  fst (run_history (@make_default _ demo_schedule true)
         [MkCommand "GET" ["old"]; MkCommand "DEL" ["old"; "t"]]%b demo_world)
  = fst (run_history (@make_default _ lazy_schedule true)
           [MkCommand "GET" ["old"]; MkCommand "DEL" ["old"; "t"]]%b demo_world).
Proof.
  apply (expiry_thread_invisible demo_schedule lazy_schedule (fun op s => eq_refl) true).
  - repeat constructor; discriminate.
  - split; done.
Defined.

Lemma unlogged_commands_keep_store_witness :
  live 2000000000 (data_ (snd (dispatch (@make_default _ demo_schedule true)
                                 (MkCommand "INFO" [])%b demo_world))) "t"%b
  = live 2000000000 (data_ demo_world) "t"%b.
Proof.
  apply (unlogged_commands_keep_store demo_schedule true (MkCommand "INFO" [])%b demo_world).
  - reflexivity.
  - vm_compute. discriminate.
Defined.
