(* ===== verification/ThreadsCmds.v ===== *)
(** The command handlers as programs of the command thread: what a history of commands
    does, concurrently with the expiry thread, is what the sequential model says under some
    schedule. *)

From stdpp Require Import relations.
From S2P Require Import Prelude Cxx Charconv Resp World KvStore KvStoreFacts Command CmdSpec Demo.
From S2P Require Import Threads ThreadsFacts ThreadsSim ThreadsTheorems Threaded StoreSim PubSubBroker.
From S2P Require Import GenericCmds StringCmds ListCmds SetCmds HashCmds Dispatcher.
From S2P Require Import DispatchSpec Histories.

Open Scope Z_scope.

(** * The command handlers *)

Section Handlers.
Context `{RtOk : CxxRuntimeOk}.

Lemma threaded_uptime : Threaded undefined (fun Sch => uptime_seconds).
Proof.
  eapply (threaded_ext _ (fun Sch =>
    now ← read_clock;
    st ← gets stats;
    dur ← lift (int64 (now - start_time st));
    mret (Z.quot dur 1000000000))); [done|]. threaded.
Defined.

Lemma threaded_del_loop keys count : Threaded undefined (fun Sch => del_loop keys count).
Proof. revert count. induction keys; intros count; cbn [del_loop]; threaded. Defined.

Lemma threaded_exists_loop keys count : Threaded undefined (fun Sch => exists_loop keys count).
Proof. revert count. induction keys; intros count; cbn [exists_loop]; threaded. Defined.

#[local] Hint Resolve threaded_uptime threaded_del_loop threaded_exists_loop : threaded.

Lemma threaded_cmd_ping c : Threaded undefined (fun Sch => cmd_ping c).
Proof. unfold cmd_ping. threaded. Defined.
Lemma threaded_cmd_del c : Threaded undefined (fun Sch => cmd_del c).
Proof. unfold cmd_del. threaded. Defined.
Lemma threaded_cmd_exists c : Threaded undefined (fun Sch => cmd_exists c).
Proof. unfold cmd_exists. threaded. Defined.
Lemma threaded_cmd_expire c : Threaded undefined (fun Sch => cmd_expire c).
Proof. unfold cmd_expire. threaded. Defined.
Lemma threaded_cmd_ttl c : Threaded undefined (fun Sch => cmd_ttl c).
Proof. unfold cmd_ttl. threaded. Defined.
Lemma threaded_cmd_persist c : Threaded undefined (fun Sch => cmd_persist c).
Proof. unfold cmd_persist. threaded. Defined.
Lemma threaded_cmd_health c : Threaded undefined (fun Sch => cmd_health c).
Proof. unfold cmd_health. threaded. Defined.
Lemma threaded_cmd_ready c : Threaded undefined (fun Sch => cmd_ready c).
Proof. unfold cmd_ready. threaded. Defined.
Lemma threaded_cmd_metrics c : Threaded undefined (fun Sch => cmd_metrics c).
Proof. unfold cmd_metrics. threaded. Defined.

Lemma threaded_cmd_set c : Threaded undefined (fun Sch => cmd_set c).
Proof. unfold cmd_set. threaded. Defined.
Lemma threaded_cmd_get c : Threaded undefined (fun Sch => cmd_get c).
Proof. unfold cmd_get. threaded. Defined.
Lemma threaded_cmd_incr c : Threaded undefined (fun Sch => cmd_incr c).
Proof. unfold cmd_incr, apply_delta, add_delta. threaded. Defined.
Lemma threaded_cmd_decr c : Threaded undefined (fun Sch => cmd_decr c).
Proof. unfold cmd_decr, apply_delta, add_delta. threaded. Defined.
Lemma threaded_cmd_incrby c : Threaded undefined (fun Sch => cmd_incrby c).
Proof. unfold cmd_incrby, apply_delta, add_delta. threaded. Defined.
Lemma threaded_cmd_decrby c : Threaded undefined (fun Sch => cmd_decrby c).
Proof. unfold cmd_decrby, apply_delta, add_delta. threaded. Defined.

Lemma threaded_cmd_lpush c : Threaded undefined (fun Sch => cmd_lpush c).
Proof. unfold cmd_lpush, push_list, get_or_create_list. threaded. Defined.
Lemma threaded_cmd_rpush c : Threaded undefined (fun Sch => cmd_rpush c).
Proof. unfold cmd_rpush, push_list, get_or_create_list. threaded. Defined.
Lemma threaded_cmd_lpop c : Threaded undefined (fun Sch => cmd_lpop c).
Proof. unfold cmd_lpop, store_list. threaded. Defined.
Lemma threaded_cmd_rpop c : Threaded undefined (fun Sch => cmd_rpop c).
Proof. unfold cmd_rpop, store_list. threaded. Defined.
Lemma threaded_cmd_llen c : Threaded undefined (fun Sch => cmd_llen c).
Proof. unfold cmd_llen. threaded. Defined.
Lemma threaded_cmd_lrange c : Threaded undefined (fun Sch => cmd_lrange c).
Proof. unfold cmd_lrange. threaded. Defined.
Lemma threaded_cmd_lindex c : Threaded undefined (fun Sch => cmd_lindex c).
Proof. unfold cmd_lindex. threaded. Defined.

Lemma threaded_cmd_sadd c : Threaded undefined (fun Sch => cmd_sadd c).
Proof. unfold cmd_sadd, get_or_create_set. threaded. Defined.
Lemma threaded_cmd_srem c : Threaded undefined (fun Sch => cmd_srem c).
Proof. unfold cmd_srem. threaded. Defined.
Lemma threaded_cmd_smembers c : Threaded undefined (fun Sch => cmd_smembers c).
Proof. unfold cmd_smembers. threaded. Defined.
Lemma threaded_cmd_sismember c : Threaded undefined (fun Sch => cmd_sismember c).
Proof. unfold cmd_sismember. threaded. Defined.
Lemma threaded_cmd_scard c : Threaded undefined (fun Sch => cmd_scard c).
Proof. unfold cmd_scard. threaded. Defined.

Lemma threaded_cmd_hset c : Threaded undefined (fun Sch => cmd_hset c).
Proof. unfold cmd_hset, get_or_create_hash. threaded. Defined.
Lemma threaded_cmd_hget c : Threaded undefined (fun Sch => cmd_hget c).
Proof. unfold cmd_hget. threaded. Defined.
Lemma threaded_cmd_hdel c : Threaded undefined (fun Sch => cmd_hdel c).
Proof. unfold cmd_hdel. threaded. Defined.
Lemma threaded_cmd_hgetall c : Threaded undefined (fun Sch => cmd_hgetall c).
Proof. unfold cmd_hgetall. threaded. Defined.
Lemma threaded_cmd_hexists c : Threaded undefined (fun Sch => cmd_hexists c).
Proof. unfold cmd_hexists. threaded. Defined.
Lemma threaded_cmd_hlen c : Threaded undefined (fun Sch => cmd_hlen c).
Proof. unfold cmd_hlen. threaded. Defined.

Lemma threaded_info_section section n (text : Schedule -> M bytes) body :
  Threaded undefined text ->
  Threaded undefined (fun Sch => info_section section n (text Sch) body).
Proof. intros Ht. unfold info_section. threaded. Defined.

Lemma threaded_cmd_info c : Threaded undefined (fun Sch => cmd_info c).
Proof.
  unfold cmd_info. destruct (args c) as [|a [|]]; cbv zeta;
    repeat (eapply threaded_bind;
      [apply threaded_info_section;
       unfold section_server, section_clients, section_stats, section_keyspace; threaded
      |intros ?; cbn beta]);
    threaded.
Defined.

Lemma threaded_cmd_publish c : Threaded undefined (fun Sch => cmd_publish c).
Proof.
  unfold cmd_publish. destruct (args c) as [|ch [|msg []]]; try by threaded.
  apply threaded_bind; [|intros ?; threaded]. apply threaded_rest. intros n d w.
  by rewrite !publish_run.
Defined.
End Handlers.

#[export] Hint Resolve threaded_cmd_ping threaded_cmd_del threaded_cmd_exists
  threaded_cmd_expire threaded_cmd_ttl threaded_cmd_persist threaded_cmd_health
  threaded_cmd_ready threaded_cmd_metrics threaded_cmd_info threaded_cmd_set threaded_cmd_get
  threaded_cmd_incr threaded_cmd_decr threaded_cmd_incrby threaded_cmd_decrby
  threaded_cmd_lpush threaded_cmd_rpush threaded_cmd_lpop threaded_cmd_rpop threaded_cmd_llen
  threaded_cmd_lrange threaded_cmd_lindex threaded_cmd_sadd threaded_cmd_srem
  threaded_cmd_smembers threaded_cmd_sismember threaded_cmd_scard threaded_cmd_hset
  threaded_cmd_hget threaded_cmd_hdel threaded_cmd_hgetall threaded_cmd_hexists
  threaded_cmd_hlen threaded_cmd_publish : threaded.

(** * Dispatch *)

(** The first handler of that name in a list of registrations. *)
Fixpoint dispatch_list (l : list (bytes * HandlerFn)) (c : Command) : M RespValue :=
  match l with
  | [] => mret (RespError ("ERR unknown command '"%b ++ name c ++ "'"%b))
  | (n, f) :: l => if decide (n = name c) then f c else dispatch_list l c
  end.

Section Dispatch.
Context `{RtOk : CxxRuntimeOk}.

Lemma dispatch_table (Sch : Schedule) broker c :
  dispatch (make_default broker) c = dispatch_list (all_handlers broker) c.
Proof.
  rewrite make_default_table. unfold dispatch. rewrite register_all_lookup, lookup_empty.
  generalize (all_handlers broker). intros l. induction l as [|[n f] l IH]; [done|].
  cbn [dispatch_list list_to_map foldr uncurry fst snd]. rewrite lookup_insert. by case_decide.
Qed.

Lemma threaded_list_cons n (f : Schedule -> HandlerFn) (l : Schedule -> list (bytes * HandlerFn)) c :
  Threaded undefined (fun Sch => f Sch c) ->
  Threaded undefined (fun Sch => dispatch_list (l Sch) c) ->
  Threaded undefined (fun Sch => dispatch_list ((n, f Sch) :: l Sch) c).
Proof. intros Hf Hl. cbn [dispatch_list]. threaded. Defined.

Lemma threaded_dispatch broker c :
  Threaded undefined (fun Sch => dispatch (make_default broker) c).
Proof.
  eapply (threaded_ext _ (fun Sch => dispatch_list (all_handlers broker) c)).
  { intros Sch w. by rewrite dispatch_table. }
  unfold all_handlers, generic_handlers, string_handlers, list_handlers, set_handlers,
    hash_handlers, pubsub_handlers. destruct broker; cbn [app];
  repeat (apply threaded_list_cons; [solve [eauto with threaded typeclass_instances]|]);
  apply threaded_ret.
Defined.

(** ** Histories *)

Definition some_undefined (rs : list (Out RespValue)) : Prop := UB ∈ rs.

#[export] Instance threaded_history broker cmds :
  Threaded some_undefined (fun Sch => run_history (make_default broker) cmds).
Proof.
  induction cmds as [|c cmds IH]; [by apply (threaded_rest some_undefined (fun w => ([], w)))|].
  apply (threaded_ext _ (fun Sch => and_then (dispatch (make_default broker) c) (fun r =>
           and_then (run_history (make_default broker) cmds) (fun rs w => (r :: rs, w))))).
  { intros Sch w. unfold and_then. by rewrite run_history_cons; destruct (dispatch _ _ _),
      (run_history _ _ _). }
  apply (threaded_then undefined).
  - intros Sch r w ->. unfold and_then. destruct (run_history _ _ _). apply list_elem_of_here.
  - apply threaded_dispatch.
  - intros r. apply (threaded_then some_undefined); [|done|].
    + intros Sch rs w Hrs. by apply list_elem_of_further.
    + intros rs. by apply (threaded_rest some_undefined).
Defined.
End Dispatch.

(** * Commands on two threads *)

Section Concurrent.
Context `{RtOk : CxxRuntimeOk} (broker : bool) (cmds : list Command) (w : World).
Context (t0 : Z) (Hw : tick w = 0%nat).

(** The command thread executing the history, from the store of [w]. *)
Definition history_start : machine (list (Out RespValue) * World) :=
  KvStore_start (client_of (fun Sch => run_history (make_default broker) cmds) w) (data_ w) t0.

Lemma same_view_refl (Sch : Schedule) (u : World) : same_view Sch u u.
Proof. done. Qed.

(** The same clock without an expiry thread. *)
Definition without_expiry (Sch : Schedule) : Schedule :=
  {| clock := @clock Sch; sweep_at := fun _ => None |}.

Lemma without_expiry_ok (Sch : Schedule) : ScheduleOk Sch -> ScheduleOk (without_expiry Sch).
Proof. intros []. by split. Qed.

(** C11. A history of commands executed concurrently with the expiry thread, in any
    interleaving of their steps: the replies, and what else of the world the commands
    changed, are those of the sequential model under some schedule, and those of a run
    without any expiry thread unless INFO or METRICS is among the commands; the data left is
    the sequential model's up to a last pass of the expiry thread; and undefined behaviour
    is met only where the sequential model has it under some schedule. *)
Theorem concurrent_commands m :
  rtc machine_step history_start m ->
  (forall rs w', m_thread m = Idle (CRet (rs, w')) ->
     exists (Sch : Schedule) n d, ScheduleOk Sch /\
       run_history (make_default broker) cmds w = (rs, at_op n d w') /\
       (Forall not_counting cmds ->
        fst (run_history (@make_default _ (without_expiry Sch) broker) cmds w) = rs) /\
       (m_lock m = Unlocked -> exists ts, m_data m = swept ts d)) /\
  (forall h k, m_thread m = InOp h Fault k ->
     exists Sch : Schedule, ScheduleOk Sch /\ UB ∈ fst (run_history (make_default broker) cmds w)).
Proof.
  intros Hr. destruct (threaded_machine some_undefined
    (fun Sch => run_history (make_default broker) cmds) w (data_ w) t0 m) as [Hi Hf]; [|exact Hr|].
  { rewrite <- Hw. apply at_op_same. }
  split; [|exact Hf]. intros rs w' Hth. destruct (Hi rs w' Hth) as (Sch & n & d & Hok & Hrun & Hd).
  exists Sch, n, d. split_and!; [done|done| |done].
  intros HQ. pose proof (without_expiry_ok Sch Hok) as Hok'.
  destruct (run_history_related not_counting (same_view Sch) (@make_default _ Sch broker)
    (@make_default _ (without_expiry Sch) broker) cmds w w) as [Hrs _];
    [by apply same_clock_tables|done|apply same_view_refl|].
  by rewrite <- Hrs, Hrun.
Qed.
End Concurrent.

#[local] Existing Instance demo_runtime.

(** SET s 5 and GET s; between the two a pass of the expiry thread drops "old", and the
    lock is refused to the command thread meanwhile. *)
Definition demo_commands : list Command :=
  [MkCommand "SET"%b ["s"%b; "5"%b]; MkCommand "GET"%b ["s"%b]].

Definition demo_choices : list choice :=
  replicate 11 RunThread ++ replicate 6 RunExpiry ++ [Pass 5; RunThread]
  ++ replicate 5 RunExpiry ++ replicate 4 RunThread.

Definition demo_end : machine (list (Out RespValue) * World) :=
  machine_run demo_choices (history_start true demo_commands demo_world 1000000000).

Lemma concurrent_commands_witness :
  exists (Sch : Schedule) n d, ScheduleOk Sch /\
    run_history (make_default true) demo_commands demo_world
      = ([Ret (RespSimpleString "OK"%b); Ret (RespBulkString "5"%b)], at_op n d demo_world) /\
    (exists ts, m_data demo_end = swept ts d) /\ m_data demo_end !! "old"%b = None.
Proof.
  destruct (concurrent_commands true demo_commands demo_world 1000000000 eq_refl demo_end
              (machine_run_rtc _ _)) as [Hi _].
  destruct (Hi [Ret (RespSimpleString "OK"%b); Ret (RespBulkString "5"%b)] demo_world)
    as (Sch & n & d & Hok & Hrun & _ & Hd); [by vm_compute|].
  exists Sch, n, d. split_and!; [done|done|apply Hd; by vm_compute|by vm_compute].
Defined.
