(* ===== verification/HandlerTotal.v ===== *)
(** How a command can end: a reply, the one exception of the string handlers, or undefined
    behaviour of the commands that compute with times; never anything else. *)

From S2P Require Import Prelude Cxx Charconv Resp World KvStore KvStoreFacts Command CmdSpec Demo.
From S2P Require Import ListSpec StringSpec ExpirySpec StoreSim PubSubBroker GenericCmds.
From S2P Require Import StringCmds ListCmds.
From S2P Require Import SetCmds HashCmds Dispatcher HandlerSim Aof Histories.

Open Scope Z_scope.

(** The commands that can throw, and those that compute with times. *)
Definition throwing : list bytes := ["GET"; "INCR"; "DECR"; "INCRBY"; "DECRBY"]%b.
Definition timing : list bytes := ["SET"; "EXPIRE"; "TTL"; "INFO"; "METRICS"]%b.

Definition may_throw (n : bytes) : bool := bool_decide (n ∈ throwing).
Definition may_overflow (n : bytes) : bool := bool_decide (n ∈ timing).

(** Outcomes allowed when an exception ([x]) or an overflow ([u]) is possible. *)
Definition tame {A} (x u : bool) (o : Out A) : Prop :=
  match o with
  | Ret _ => True
  | Exn e => x = true /\ e = bad_variant_access
  | UB => u = true
  | NoFuel => False
  end.

Definition mtame {A} (x u : bool) (m : M A) : Prop := forall w, tame x u (fst (m w)).

Create HintDb tame.

Section Outcomes.
Context (x u : bool).

Lemma mtame_ret {A} (a : A) : mtame x u (mret a).
Proof. by intros w. Qed.

Lemma mtame_gets {A} (f : World -> A) : mtame x u (gets f).
Proof. by intros w. Qed.

Lemma mtame_lift {A} (o : Out A) : tame x u o -> mtame x u (lift o).
Proof. by intros Ho w. Qed.

Lemma mtame_bind {A B} (m : M A) (k : A -> M B) :
  mtame x u m -> (forall a, mtame x u (k a)) -> mtame x u (m ≫= k).
Proof.
  intros Hm Hk w. rewrite bind_run. specialize (Hm w).
  destruct (m w) as [[a|e| |] w']; simpl in *; try done. apply Hk.
Qed.

Lemma tame_UB {A} : tame (A := A) x true UB.
Proof. done. Qed.
Lemma tame_int64 z : tame x true (int64 z).
Proof. unfold int64. by destruct (in_int64 z). Qed.
Lemma tame_as_string v : tame true u (as_string v).
Proof. by destruct v. Qed.
Lemma tame_as_list v : is_list v = true -> tame x u (as_list v).
Proof. by destruct v. Qed.
Lemma tame_as_set v : is_set v = true -> tame x u (as_set v).
Proof. by destruct v. Qed.
Lemma tame_as_hash v : is_hash v = true -> tame x u (as_hash v).
Proof. by destruct v. Qed.

Lemma tame_deadline t ttl : tame x true (deadline t ttl).
Proof.
  unfold deadline, int64. destruct (in_int64 (ttl * ns_per_ms)); simpl; [|done].
  by destruct (in_int64 _).
Qed.

(** Field/value pairs never run out in the middle. *)
Lemma tame_hset_loop l h added : Nat.even (length l) = true -> tame x u (hset_loop l h added).
Proof.
  remember (length l) as n eqn:Hn. revert l Hn h added. induction n as [n IH] using lt_wf_ind.
  intros [|f [|v l]] -> h added Hev; simpl; try done.
  eapply IH; [|reflexivity|done]. simpl. lia.
Qed.

Lemma tame_set_options l o : tame x true (set_options l o).
Proof. by destruct (set_options_total l o) as [-> |[r ->]]. Qed.
End Outcomes.

#[export] Hint Resolve mtame_ret mtame_gets mtame_lift tame_UB tame_int64 tame_as_string tame_as_list
  tame_as_set tame_as_hash tame_deadline tame_set_options : tame.

Ltac mtame_step :=
  match goal with
  | |- mtame _ _ (mbind _ _) => eapply mtame_bind; [|intros ?]
  | |- mtame _ _ (match ?x with _ => _ end) => destruct x eqn:?
  | |- mtame _ _ _ => solve [eauto with tame]
  end.
Ltac mtame := repeat mtame_step.

Section Total.
Context `{CxxRuntime} `{Sch : Schedule} `{SchOk : !ScheduleOk Sch}.

Lemma mtame_get x u key : mtame x u (KvStore_get key).
Proof. intros w. by rewrite get_run. Qed.
Lemma mtame_exists x u key : mtame x u (KvStore_exists key).
Proof. intros w. by rewrite exists_run. Qed.
Lemma mtame_del x u key : mtame x u (KvStore_del key).
Proof. intros w. by rewrite del_run. Qed.
Lemma mtame_size x u : mtame x u KvStore_size.
Proof. intros w. by rewrite size_run. Qed.
Lemma mtame_persist x u key : mtame x u (KvStore_persist key).
Proof. intros w. rewrite persist_run. by destruct (live _ _ _). Qed.
Lemma mtame_set_plain x u key v : mtame x u (KvStore_set key v 0).
Proof. intros w. by rewrite set_run. Qed.
Lemma mtame_set x key v ttl : mtame x true (KvStore_set key v ttl).
Proof.
  intros w. rewrite set_any_run.
  by destruct (deadline_opt_total (now w) ttl) as [-> |[dl ->]].
Qed.
Lemma mtame_expire x key ttl : mtame x true (KvStore_expire key ttl).
Proof.
  intros w. rewrite expire_run. destruct (live _ _ _); [|done].
  pose proof (tame_deadline x (clock (tick w) at_read) ttl). by destruct (deadline _ _).
Qed.
Lemma mtame_ttl x key : mtame x true (KvStore_ttl key).
Proof.
  intros w. rewrite ttl_run. destruct (live _ _ _) as [e|]; [|done].
  destruct (expires_at e); [|done]. unfold int64. simpl. by destruct (in_int64 _).
Qed.
Lemma mtame_memory x u : mtame x u KvStore_approx_memory_bytes.
Proof. intros w. unfold KvStore_approx_memory_bytes. by rewrite (enter_run (fun op => _)). Qed.
Lemma mtame_next_op x u : mtame x u next_op.
Proof. by intros w. Qed.
Lemma mtame_clock x u op s : mtame x u (clock_now op s).
Proof. by intros w. Qed.

#[local] Hint Resolve mtame_get mtame_exists mtame_del mtame_size mtame_persist mtame_set_plain
  mtame_set mtame_expire mtame_ttl mtame_memory mtame_next_op mtame_clock : tame.

Lemma mtame_del_loop x u keys count : mtame x u (del_loop keys count).
Proof. revert count. induction keys as [|key keys IH]; intros count; simpl; mtame. Qed.
Lemma mtame_exists_loop x u keys count : mtame x u (exists_loop keys count).
Proof. revert count. induction keys as [|key keys IH]; intros count; simpl; mtame. Qed.
Lemma mtame_uptime x : mtame x true uptime_seconds.
Proof. unfold uptime_seconds. mtame. Qed.
Lemma mtame_store_list x u key l : mtame x u (store_list key l).
Proof. unfold store_list. mtame. Qed.
Lemma mtame_push_list x u push c : mtame x u (push_list push c).
Proof. unfold push_list, get_or_create_list. mtame. Qed.

(** The overflow test in front of the addition keeps it in range. *)
Lemma mtame_apply_delta u key delta :
  INT64_MIN <= delta <= INT64_MAX -> mtame true u (apply_delta key delta).
Proof.
  intros Hd. assert (forall num, INT64_MIN <= num <= INT64_MAX ->
    mtame true u (add_delta key delta num)) as Hadd.
  { intros num Hn. unfold add_delta. rewrite overflow_test by done. unfold int64.
    destruct (in_int64 (num + delta)); cbn [negb]; mtame. }
  unfold apply_delta. eapply mtame_bind; [mtame|]. intros [v|]; [|by apply Hadd].
  eapply mtame_bind; [mtame|]. intros s. destruct (parse_int64 s) as [n|] eqn:Hn; [|mtame].
  apply Hadd. by apply parse_int64_range in Hn.
Qed.

#[local] Hint Resolve mtame_del_loop mtame_exists_loop mtame_uptime mtame_store_list
  mtame_push_list : tame.

Lemma mtame_counters u c :
  mtame true u (cmd_incr c) /\ mtame true u (cmd_decr c) /\
  mtame true u (cmd_incrby c) /\ mtame true u (cmd_decrby c).
Proof.
  unfold cmd_incr, cmd_decr, cmd_incrby, cmd_decrby. split_and!.
  - destruct (args c) as [|key []]; [mtame| |mtame]. by apply mtame_apply_delta.
  - destruct (args c) as [|key []]; [mtame| |mtame]. by apply mtame_apply_delta.
  - destruct (args c) as [|key [|s []]]; [mtame..| |mtame].
    destruct (parse_int64 s) as [n|] eqn:Hn; [|mtame].
    apply mtame_apply_delta. by apply parse_int64_range in Hn.
  - destruct (args c) as [|key [|s []]]; [mtame..| |mtame].
    destruct (parse_int64 s) as [n|] eqn:Hn; [|mtame]. apply parse_int64_range in Hn.
    destruct (Z.eqb_spec n INT64_MIN); [mtame|].
    apply mtame_apply_delta. unfold INT64_MIN, INT64_MAX in *. lia.
Qed.

(** The arity test of HSET leaves pairs behind the key. *)
Lemma mtame_hset x u c : mtame x u (cmd_hset c).
Proof.
  unfold cmd_hset. destruct (_ || _) eqn:Har; [mtame|]. apply orb_false_iff in Har as [Hlt Hodd].
  apply Z.ltb_ge in Hlt. apply Z.eqb_neq in Hodd.
  destruct (args c) as [|key l]; [done|]. unfold zlen in *. cbn [length] in *.
  eapply mtame_bind; [unfold get_or_create_hash; mtame|]. intros [e|h]; [mtame|].
  eapply mtame_bind; [|intros [h' n]; mtame]. apply mtame_lift, tame_hset_loop.
  apply Nat.even_spec. destruct (Nat.Even_or_Odd (length l)) as [?|[k Hk]]; [done|].
  destruct Hodd. rewrite Hk. replace (Z.of_nat (S (2 * k + 1))) with ((1 + Z.of_nat k) * 2) by lia.
  apply Z.mod_mul. lia.
Qed.

(** The index is inside the list when it is used. *)
Lemma mtame_lindex x u c : mtame x u (cmd_lindex c).
Proof.
  unfold cmd_lindex. destruct (args c) as [|key [|a []]]; try by mtame.
  eapply mtame_bind; [mtame|]. intros [v|]; [|mtame]. destruct (is_list v) eqn:Hv; [|mtame].
  eapply mtame_bind; [mtame|]. intros l. destruct (parse_int64 a) as [i|]; [|mtame].
  cbv zeta. set (k := if i <? 0 then _ else i). destruct (_ || _) eqn:Hk; [mtame|].
  apply orb_false_iff in Hk as [H1%Z.ltb_ge H2%Z.leb_gt].
  destruct (deque_at_in l k) as (y & _ & ->); [lia|]. mtame.
Qed.

Lemma mtame_lrange x u c : mtame x u (cmd_lrange c).
Proof.
  unfold cmd_lrange. destruct (args c) as [|key [|a [|b []]]]; try by mtame.
  eapply mtame_bind; [mtame|]. intros [v|]; [|mtame]. destruct (is_list v) eqn:Hv; [|mtame].
  eapply mtame_bind; [mtame|]. intros l.
  destruct (parse_int64 a) as [i|], (parse_int64 b) as [j|]; try by mtame.
  pose proof (range_slice l i j) as Hr. destruct (range_bounds (zlen l) i j) as [start stop].
  rewrite Hr. mtame.
Qed.

Lemma mtame_info_section x u section n text body :
  mtame x u text -> mtame x u (info_section section n text body).
Proof. intros. unfold info_section. mtame. Qed.

Lemma mtame_info x c : mtame x true (cmd_info c).
Proof.
  unfold cmd_info. destruct (args c) as [|s [|]].
  3: mtame.
  all: repeat (eapply mtame_bind; [apply mtame_info_section;
         unfold section_server, section_clients, section_stats, section_keyspace; mtame|intros ?]);
    mtame.
Qed.

Lemma mtame_publish x u c : mtame x u (cmd_publish c).
Proof.
  unfold cmd_publish. destruct (args c) as [|ch [|msg []]]; try by mtame.
  eapply mtame_bind; [|intros ?; mtame]. intros w. by rewrite publish_run.
Qed.

Lemma tame_tables broker :
  tables_related (fun n f _ => forall c, mtame (may_throw n) (may_overflow n) (f c))
    (make_default broker) (make_default broker).
Proof.
  apply make_default_related; unfold lists_related;
    repeat (apply Forall2_cons_2 || apply Forall2_nil_2);
    (split; [reflexivity|]); cbn [fst snd]; intros c;
    match goal with |- mtame (may_throw ?n) (may_overflow ?n) _ =>
      let x := eval vm_compute in (may_throw n) in
      let u := eval vm_compute in (may_overflow n) in
      change (may_throw n) with x; change (may_overflow n) with u
    end;
    first [ apply mtame_info | apply mtame_lrange | apply mtame_lindex | apply mtame_hset
          | apply mtame_publish | apply mtame_counters
          | unfold cmd_ping, cmd_del, cmd_exists, cmd_expire, cmd_ttl, cmd_persist, cmd_health,
              cmd_ready, cmd_metrics, cmd_set, cmd_get, cmd_lpush, cmd_rpush, cmd_lpop, cmd_rpop,
              cmd_llen, cmd_sadd, cmd_srem, cmd_smembers, cmd_sismember, cmd_scard,
              get_or_create_set, cmd_hget, cmd_hdel, cmd_hgetall, cmd_hexists, cmd_hlen;
            by mtame ].
Qed.

Lemma dispatch_tame broker c :
  mtame (may_throw (name c)) (may_overflow (name c)) (dispatch (make_default broker) c).
Proof.
  pose proof (tame_tables broker (name c)) as Ht. unfold dispatch.
  destruct (_ !! name c); simpl in Ht; [apply Ht|mtame].
Qed.
End Total.

(** C23. How a command can end: whatever its name and arguments and whatever the state,
    dispatching it through the default table ends with a reply, except that GET and the
    four counters can throw std::bad_variant_access. Undefined behaviour is confined to
    the commands that compute with times (SET, EXPIRE, TTL, INFO, METRICS): in all others
    no sum leaves int64 and no index leaves its list or argument vector. Nothing else is
    thrown, and every loop ends. *)
Theorem dispatch_outcomes `{CxxRuntime} (Sch : Schedule) `{!ScheduleOk Sch} broker c w :
  match fst (dispatch (@make_default _ Sch broker) c w) with
  | Ret _ => True
  | Exn e => e = bad_variant_access /\ name c ∈ throwing
  | UB => name c ∈ timing
  | NoFuel => False
  end.
Proof.
  pose proof (dispatch_tame broker c w) as Ht. unfold may_throw, may_overflow, tame in Ht.
  destruct (fst _); try done; [|by apply bool_decide_eq_true in Ht].
  destruct Ht as [Ht%bool_decide_eq_true ?]. done.
Qed.

#[local] Existing Instance demo_runtime.

Lemma dispatch_outcomes_witness :
  fst (dispatch (@make_default _ demo_schedule true) (MkCommand "GET" ["l"])%b demo_world)
    = Exn bad_variant_access /\ "GET"%b ∈ throwing.
Proof.
  pose proof (dispatch_outcomes demo_schedule true (MkCommand "GET" ["l"])%b demo_world) as Ho.
  assert (fst (dispatch (@make_default _ demo_schedule true) (MkCommand "GET" ["l"])%b demo_world)
    = Exn bad_variant_access) as He by (vm_compute; reflexivity).
  rewrite He in Ho. split; [exact He|exact (proj2 Ho)].
Defined.
