(* ===== verification/Replies.v ===== *)
(** The types of replies: whatever a registered command answers is null, one line, an
    int64, a bulk string or a flat array of bulk strings, so a client reads back exactly
    the reply. *)

From S2P Require Import Prelude Cxx Charconv Resp RespParser RespParserFacts RespGrammar.
From S2P Require Import World KvStore KvStoreFacts Command CmdSpec Demo ListSpec HashSpec.
From S2P Require Import PubSubBroker GenericCmds StringCmds ListCmds SetCmds HashCmds.
From S2P Require Import Dispatcher DispatchSpec HandlerSim Aof Histories.

Open Scope Z_scope.

(** * Types *)

Inductive reply_typed : RespValue -> Prop :=
  | rt_null : reply_typed RespNull
  | rt_line s : contains_crlf s = false -> reply_typed (RespSimpleString s)
  | rt_error m : contains_crlf m = false -> reply_typed (RespError m)
  | rt_integer z : in_int64 z = true -> reply_typed (RespInteger z)
  | rt_bulk b : reply_typed (RespBulkString b)
  | rt_array l : reply_typed (RespArray (map RespBulkString l)).

(** Containers of a size that fits a machine: no count leaves int64. *)
Definition fits (n : Z) : Prop := n <= 2 ^ 62.

Definition value_fits (v : Value) : Prop :=
  match v with
  | StringValue _ => True
  | ListValue l => fits (zlen l)
  | SetValue s => fits (Z.of_nat (size s))
  | HashValue h => fits (Z.of_nat (size h))
  end.

#[global] Instance fits_dec n : Decision (fits n).
Proof. unfold fits. apply _. Defined.
#[global] Instance value_fits_dec v : Decision (value_fits v).
Proof. destruct v; simpl; apply _. Defined.

Record world_fits (w : World) : Prop := {
  fits_data : map_Forall (fun _ e => value_fits (value e)) (data_ w);
  fits_channels : map_Forall (fun _ subs => fits (zlen subs)) (channels_ w);
}.

(** * Postconditions of store computations *)

Definition yields {A} (I : World -> Prop) (Q : A -> Prop) (m : M A) : Prop :=
  forall w a, I w -> fst (m w) = Ret a -> Q a.

Definition anywhere (w : World) : Prop := True.

Lemma yields_ret {A} I (Q : A -> Prop) a : Q a -> yields I Q (mret a).
Proof. intros HQ w b _ [= <-]. done. Qed.

Lemma yields_lift {A} I (Q : A -> Prop) (o : Out A) :
  (forall a, o = Ret a -> Q a) -> yields I Q (lift o).
Proof. intros HQ w a _. apply HQ. Qed.

Lemma yields_true {A} I (m : M A) : yields I (fun _ => True) m.
Proof. done. Qed.

Lemma yields_bind {A B} J (P : A -> Prop) (Q : B -> Prop) (m : M A) (k : A -> M B) :
  yields J P m -> (forall a, P a -> yields anywhere Q (k a)) -> yields J Q (m ≫= k).
Proof.
  intros Hm Hk w b Hw. rewrite bind_run. specialize (Hm w).
  destruct (m w) as [[a|e| |] u]; simpl in *; try done. intros Hb.
  exact (Hk a (Hm a Hw eq_refl) u b I Hb).
Qed.

Create HintDb yields.
#[export] Hint Resolve yields_true | 10 : yields.

(** Close a typing goal on a closed text, a small number or one of the given names. *)
Ltac typed :=
  try match goal with Hn : name ?c = _ |- context [name ?c] => rewrite Hn end;
  solve [ apply rt_null | apply rt_bulk | apply rt_array | apply (rt_array [])
        | apply rt_line; reflexivity | apply rt_error; reflexivity
        | apply rt_integer, in_int64_spec; cbv beta in *; subst;
          cbn [value_fits] in *; unfold INT64_MIN, INT64_MAX, fits in *;
          repeat case_match; zlen_lia ].

Ltac yields_step :=
  match goal with
  | |- yields _ _ (mbind _ _) => eapply yields_bind; [solve [eauto with yields]|intros ? ?]
  | |- yields _ _ (match ?x with _ => _ end) => destruct x eqn:?
  | |- yields _ _ (mret _) => apply yields_ret; typed
  end.
Ltac yields := repeat yields_step.

Section Handlers.
Context `{CxxRuntime} `{Sch : Schedule} `{SchOk : !ScheduleOk Sch}.

Lemma yields_get key :
  yields world_fits (fun o => match o with Some v => value_fits v | None => True end)
    (KvStore_get key).
Proof.
  intros w a [Hd _]. rewrite get_run. intros [= <-]. unfold view, live.
  destruct (data_ w !! key) as [e|] eqn:He; simpl; [|done].
  destruct (expired_at _ e); simpl; [done|]. by apply Hd in He.
Qed.

Lemma yields_as_list J v : yields J (fun l => v = ListValue l) (lift (as_list v)).
Proof. apply yields_lift. destruct v; simpl; congruence. Qed.
Lemma yields_as_set J v : yields J (fun s => v = SetValue s) (lift (as_set v)).
Proof. apply yields_lift. destruct v; simpl; congruence. Qed.
Lemma yields_as_hash J v : yields J (fun h => v = HashValue h) (lift (as_hash v)).
Proof. apply yields_lift. destruct v; simpl; congruence. Qed.
Lemma yields_int64 J z : yields J (fun n => INT64_MIN <= n <= INT64_MAX) (lift (int64 z)).
Proof.
  apply yields_lift. unfold int64. destruct (in_int64 z) eqn:Hz; [|done].
  intros a [= <-]. by apply in_int64_spec.
Qed.

(** Remaining milliseconds are an int64 divided by a million. *)
Lemma yields_ttl J key : yields J (fun ms => -2 <= ms <= 2 ^ 62) (KvStore_ttl key).
Proof.
  intros w a _. rewrite ttl_run. destruct (live _ _ _) as [e|]; simpl; [|intros [= <-]; lia].
  destruct (expires_at e); simpl; [|intros [= <-]; lia]. unfold int64.
  destruct (in_int64 _) eqn:Hz; simpl; [|done]. intros [= <-].
  apply in_int64_spec in Hz. unfold INT64_MIN, INT64_MAX, ns_per_ms in *.
  pose proof (Z.quot_le_mono _ (2 ^ 63 - 1) 1000000 ltac:(lia) (proj2 Hz)) as Hq.
  change (Z.quot (2 ^ 63 - 1) 1000000) with 9223372036854 in Hq. lia.
Qed.

Lemma yields_del_loop J keys count :
  yields J (fun n => count <= n <= count + zlen keys) (del_loop keys count).
Proof.
  revert J count. induction keys as [|key keys IH]; intros J count; cbn [del_loop].
  { apply yields_ret. zlen_lia. }
  eapply (yields_bind _ (fun n => 0 <= n <= 1)).
  - intros w a _. rewrite del_run. intros [= <-]. destruct (is_live w key); lia.
  - intros n Hn w a _ Ha. specialize (IH anywhere (count + n) w a Logic.I Ha). cbv beta in *. zlen_lia.
Qed.

Lemma yields_exists_loop J keys count :
  yields J (fun n => count <= n <= count + zlen keys) (exists_loop keys count).
Proof.
  revert J count. induction keys as [|key keys IH]; intros J count; cbn [exists_loop].
  { apply yields_ret. zlen_lia. }
  eapply yields_bind; [apply yields_true|]. intros b _ w a _ Ha.
  specialize (IH anywhere _ w a Logic.I Ha). cbv beta in IH. destruct b; zlen_lia.
Qed.

(** The counters of the set and hash loops. *)
Lemma insert_loop_count xs s n : n <= snd (insert_loop xs s n) <= n + zlen xs.
Proof.
  revert s n. induction xs as [|x xs IH]; intros s n; cbn [insert_loop]; [simpl; zlen_lia|].
  specialize (IH ({[x]} ∪ s) (if decide (x ∈ s) then n else n + 1)). case_decide; zlen_lia.
Qed.

Lemma erase_loop_count xs s n : n <= snd (erase_loop xs s n) <= n + zlen xs.
Proof.
  revert s n. induction xs as [|x xs IH]; intros s n; cbn [erase_loop]; [simpl; zlen_lia|].
  specialize (IH (s ∖ {[x]}) (if decide (x ∈ s) then n + 1 else n)). case_decide; zlen_lia.
Qed.

Lemma hdel_loop_count fs h n : n <= snd (hdel_loop fs h n) <= n + zlen fs.
Proof.
  revert h n. induction fs as [|f fs IH]; intros h n; cbn [hdel_loop]; [simpl; zlen_lia|].
  specialize (IH (delete f h) (match h !! f with Some _ => n + 1 | None => n end)).
  destruct (h !! f); zlen_lia.
Qed.

Lemma hset_loop_count l h n r :
  hset_loop l h n = Ret r -> n <= snd r <= n + zlen l.
Proof.
  remember (length l) as k eqn:Hk. revert l Hk h n. induction k as [k IH] using lt_wf_ind.
  intros [|f [|v l]] -> h n; cbn [hset_loop]; [intros [= <-]; simpl; zlen_lia|done|].
  intros Hr. apply (IH (length l)) in Hr; [|simpl; lia|done]. destruct (h !! f); zlen_lia.
Qed.

#[local] Hint Resolve yields_get yields_as_list yields_as_set yields_as_hash yields_int64
  yields_ttl yields_del_loop yields_exists_loop : yields.

Definition typed_or {A} (P : A -> Prop) (r : RespValue + A) : Prop :=
  match r with inl e => reply_typed e | inr a => P a end.

Lemma yields_get_or_create_list key :
  yields world_fits (typed_or (fun l => fits (zlen l))) (get_or_create_list key).
Proof.
  unfold get_or_create_list. eapply yields_bind; [apply yields_get|]. intros [v|] Hv.
  - destruct (is_list v); [|apply yields_ret; typed].
    eapply yields_bind; [apply yields_as_list|]. intros l ->. by apply yields_ret.
  - by apply yields_ret.
Qed.

(** Replies that do not depend on what the container holds. *)
Lemma yields_get_or_create_set J key : yields J (typed_or (fun _ => True)) (get_or_create_set key).
Proof.
  unfold get_or_create_set. eapply yields_bind; [apply yields_true|]. intros [v|] _.
  - destruct (is_set v); [|apply yields_ret; simpl; typed].
    eapply yields_bind; [apply yields_true|]. intros. by apply yields_ret.
  - by apply yields_ret.
Qed.

Lemma yields_get_or_create_hash J key : yields J (typed_or (fun _ => True)) (get_or_create_hash key).
Proof.
  unfold get_or_create_hash. eapply yields_bind; [apply yields_true|]. intros [v|] _.
  - destruct (is_hash v); [|apply yields_ret; simpl; typed].
    eapply yields_bind; [apply yields_true|]. intros. by apply yields_ret.
  - by apply yields_ret.
Qed.

Lemma yields_apply_delta J key delta : yields J reply_typed (apply_delta key delta).
Proof.
  assert (forall num, yields anywhere reply_typed (add_delta key delta num)) as Hadd.
  { intros num. unfold add_delta. yields. }
  unfold apply_delta. eapply yields_bind; [apply yields_true|]. intros [v|] _; [|apply Hadd].
  eapply yields_bind; [apply yields_true|]. intros x _.
  destruct (parse_int64 x); [apply Hadd|]. apply yields_ret. typed.
Qed.

Lemma yields_set_options J l o :
  yields J (typed_or (fun _ => True)) (lift (set_options l o)).
Proof.
  apply yields_lift. intros r. revert o r. induction l as [l IH] using (induction_ltof1 _ length).
  unfold ltof in IH. intros o r. destruct l as [|flag l]; simpl; [by intros [= <-]|].
  assert (typed_or (fun _ : SetOptions => True) (inl syntax_error) /\
          typed_or (fun _ : SetOptions => True) (inl invalid_expire)) as [Hs Hi].
  { split; simpl; typed. }
  repeat case_decide; try (intros [= <-]; done); try (apply IH; simpl; lia).
  all: destruct l as [|s l]; [by intros [= <-]|].
  all: destruct (parse_int64 s) as [n|]; [|by intros [= <-]].
  all: destruct (n <=? 0); [by intros [= <-]|].
  - unfold int64. destruct (in_int64 _); simpl; [|done]. apply IH. simpl. lia.
  - apply IH. simpl. lia.
Qed.

(** A text between quotes holds a line break only if it did before. *)
Lemma no_crlf_prefix pre t :
  forallb (fun c => negb (Ascii.eqb c CR)) pre = true -> contains_crlf (pre ++ t) = contains_crlf t.
Proof.
  induction pre as [|c pre IH]; [done|]. cbn [forallb]. rewrite andb_true_iff, negb_true_iff.
  intros [Hc Hpre]. cbn [app contains_crlf]. rewrite Hc, IH by done.
  destruct (pre ++ t) eqn:E; [|done]. by apply app_eq_nil in E as [_ ->].
Qed.

Lemma no_crlf_suffix t c post :
  Ascii.eqb c LF = false -> contains_crlf (t ++ c :: post) = contains_crlf t || contains_crlf (c :: post).
Proof.
  intros Hc. induction t as [|d t IH]; [done|]. cbn [app contains_crlf].
  rewrite IH. destruct t as [|e t]; cbn [app].
  - by rewrite Hc, andb_false_r.
  - by rewrite orb_assoc.
Qed.

Lemma yields_info c :
  (forall s, args c = [s] -> contains_crlf s = false) -> yields anywhere reply_typed (cmd_info c).
Proof.
  intros Hargs. unfold cmd_info.
  assert (forall a : list bytes, args c = a -> (length a <= 1)%nat ->
    forall body, yields anywhere reply_typed
      match body, a with
      | [], [] => lift UB
      | [], s :: _ => mret (RespError ("ERR unknown INFO section '"%b ++ s ++ "'"%b))
      | _, _ => mret (RespBulkString body)
      end) as Hend.
  { intros a Ha Hlen [|b body]; [destruct a as [|s [|]]; [| |simpl in Hlen; lia]|].
    - by apply yields_lift.
    - apply yields_ret, rt_error. rewrite no_crlf_prefix, no_crlf_suffix, orb_false_r by done.
      by apply Hargs.
    - apply yields_ret. typed. }
  destruct (args c) as [|s [|]].
  3: apply yields_ret; typed.
  all: do 4 (eapply yields_bind; [apply yields_true|intros ? _]).
  - apply (Hend []); [done|simpl; lia].
  - apply (Hend [s]); [done|simpl; lia].
Qed.

Lemma yields_publish c : yields world_fits reply_typed (cmd_publish c).
Proof.
  unfold cmd_publish. destruct (args c) as [|ch [|msg []]]; try (apply yields_ret; typed).
  eapply (yields_bind _ (fun n => 0 <= n <= 2 ^ 62)); [|intros n Hn; apply yields_ret; typed].
  intros w n [_ Hch]. rewrite publish_run. simpl. intros [= <-].
  destruct (channels_ w !! ch) as [subs|] eqn:Hs; simpl; [|zlen_lia].
  apply Hch in Hs. unfold fits in Hs. zlen_lia.
Qed.

(** The section name of an INFO holds no line break. *)
Definition one_line_args (c : Command) : Prop :=
  name c = "INFO"%b -> forall s, args c = [s] -> contains_crlf s = false.

Definition typed_handler (n : bytes) (f : HandlerFn) : Prop :=
  forall c, name c = n -> fits (zlen (args c)) -> one_line_args c ->
  yields world_fits reply_typed (f c).

Lemma typed_push n push :
  contains_crlf n = false ->
  (forall xs l, zlen (push xs l) = zlen xs + zlen l) -> typed_handler n (push_list push).
Proof.
  intros Hn Hpush c Hc Hfit _. unfold push_list.
  assert (reply_typed (wrong_args (name c))) as Hw.
  { apply rt_error. rewrite Hc. unfold wrong_args.
    rewrite no_crlf_prefix by done. by rewrite no_crlf_suffix, Hn. }
  destruct (args c) as [|key [|x xs]]; [by apply yields_ret..|].
  eapply yields_bind; [apply yields_get_or_create_list|]. intros [e|l] He; [by apply yields_ret|].
  simpl in He. eapply yields_bind; [apply yields_true|]. intros _ _. apply yields_ret, rt_integer.
  apply in_int64_spec. rewrite Hpush. unfold fits, INT64_MIN, INT64_MAX in *. zlen_lia.
Qed.

Lemma zlen_push_front xs l : zlen (push_front_all xs l) = zlen xs + zlen l.
Proof. rewrite push_front_all_rev. unfold zlen. rewrite length_app, length_rev. lia. Qed.

Lemma zlen_push_back xs l : zlen (push_back_all xs l) = zlen xs + zlen l.
Proof. rewrite push_back_all_app. zlen_lia. Qed.

Ltac handler := intros c Hn Hfit Hline.

Lemma typed_set_cmd : typed_handler "SET"%b cmd_set.
Proof.
  handler. unfold cmd_set. destruct (args c) as [|key [|v opts]]; try (apply yields_ret; typed).
  eapply yields_bind; [apply yields_set_options|]. intros [e|o] He; [by apply yields_ret|]. yields.
Qed.

Lemma typed_ttl_cmd : typed_handler "TTL"%b cmd_ttl.
Proof.
  handler. unfold cmd_ttl. destruct (args c) as [|key []]; try (apply yields_ret; typed).
  eapply yields_bind; [apply yields_ttl|]. cbv beta. intros ms Hms.
  destruct (Z.ltb_spec ms 0); apply yields_ret; [typed|]. apply rt_integer, in_int64_spec.
  rewrite Z.quot_div_nonneg by lia. unfold INT64_MIN, INT64_MAX. Z.div_mod_to_equations. lia.
Qed.

Lemma typed_sadd : typed_handler "SADD"%b cmd_sadd.
Proof.
  handler. unfold cmd_sadd. destruct (args c) as [|key [|x xs]]; try (apply yields_ret; typed).
  eapply yields_bind; [apply yields_get_or_create_set|]. intros [e|m] He; [by apply yields_ret|].
  pose proof (insert_loop_count (x :: xs) m 0) as Hc.
  destruct (insert_loop (x :: xs) m 0) as [m' n]. cbn [snd] in Hc. yields.
Qed.

Lemma typed_srem : typed_handler "SREM"%b cmd_srem.
Proof.
  handler. unfold cmd_srem. destruct (args c) as [|key [|x xs]]; try (apply yields_ret; typed).
  eapply yields_bind; [apply yields_true|]. intros [v|] _; [|apply yields_ret; typed].
  destruct (is_set v); [|apply yields_ret; typed].
  eapply yields_bind; [apply yields_true|]. intros m _.
  pose proof (erase_loop_count (x :: xs) m 0) as Hc.
  destruct (erase_loop (x :: xs) m 0) as [m' n]. cbn [snd] in Hc.
  eapply yields_bind; [apply yields_true|]. intros _ _. apply yields_ret. typed.
Qed.

Lemma typed_hset : typed_handler "HSET"%b cmd_hset.
Proof.
  handler. unfold cmd_hset. destruct (_ || _); [apply yields_ret; typed|].
  destruct (args c) as [|key l]; [by apply yields_lift|].
  eapply yields_bind; [apply yields_get_or_create_hash|]. intros [e|h] He; [by apply yields_ret|].
  eapply (yields_bind _ (fun r => 0 <= snd r <= zlen l)).
  { apply yields_lift. intros r Hr. by apply hset_loop_count in Hr. }
  intros [h' n] Hc. cbn [snd] in Hc. eapply yields_bind; [apply yields_true|]. intros _ _.
  apply yields_ret. typed.
Qed.

Lemma typed_hdel : typed_handler "HDEL"%b cmd_hdel.
Proof.
  handler. unfold cmd_hdel. destruct (args c) as [|key [|x xs]]; try (apply yields_ret; typed).
  eapply yields_bind; [apply yields_true|]. intros [v|] _; [|apply yields_ret; typed].
  destruct (is_hash v); [|apply yields_ret; typed].
  eapply yields_bind; [apply yields_true|]. intros h _.
  pose proof (hdel_loop_count (x :: xs) h 0) as Hc.
  destruct (hdel_loop (x :: xs) h 0) as [h' n]. cbn [snd] in Hc.
  eapply yields_bind; [apply yields_true|]. intros _ _. apply yields_ret. typed.
Qed.

Lemma typed_lrange : typed_handler "LRANGE"%b cmd_lrange.
Proof.
  handler. unfold cmd_lrange. destruct (args c) as [|key [|a [|b []]]]; try (apply yields_ret; typed).
  eapply yields_bind; [apply yields_true|]. intros [v|] _; [|apply yields_ret; typed].
  destruct (is_list v); [|apply yields_ret; typed].
  eapply yields_bind; [apply yields_true|]. intros l _.
  destruct (parse_int64 a) as [i|], (parse_int64 b) as [j|]; try (apply yields_ret; typed).
  pose proof (range_slice l i j) as Hr. destruct (range_bounds (zlen l) i j) as [start stop].
  rewrite Hr. eapply (yields_bind _ (fun r => exists k, r = map RespBulkString k)).
  { apply yields_lift. intros r [= <-]. by eexists. }
  intros r [k ->]. apply yields_ret. typed.
Qed.

Lemma typed_hgetall : typed_handler "HGETALL"%b cmd_hgetall.
Proof.
  handler. unfold cmd_hgetall. destruct (args c) as [|key []]; try (apply yields_ret; typed).
  eapply yields_bind; [apply yields_true|]. intros [v|] _; [|apply yields_ret; typed].
  destruct (is_hash v); [|apply yields_ret; typed].
  eapply yields_bind; [apply yields_true|]. intros h _. apply yields_ret.
  rewrite (map_flatten RespBulkString). typed.
Qed.

Lemma typed_tables broker :
  tables_related (fun n f _ => typed_handler n f) (make_default broker) (make_default broker).
Proof.
  apply make_default_related; unfold lists_related;
    repeat (apply Forall2_cons_2 || apply Forall2_nil_2);
    (split; [reflexivity|]); cbn [fst snd];
    first [ apply typed_set_cmd | apply typed_ttl_cmd | apply typed_sadd | apply typed_srem | apply typed_hset
          | apply typed_hdel | apply typed_lrange | apply typed_hgetall
          | apply typed_push; [reflexivity|first [apply zlen_push_front | apply zlen_push_back]]
          | handler; first
              [ intros w a _; by apply (yields_info c (Hline Hn) w a Logic.I)
              | apply yields_publish
              | unfold cmd_incr, cmd_decr, cmd_incrby, cmd_decrby;
                repeat case_match; solve [apply yields_apply_delta | apply yields_ret; typed]
              | unfold cmd_ping, cmd_del, cmd_exists, cmd_expire, cmd_persist, cmd_health,
                  cmd_ready, cmd_metrics, cmd_get, cmd_lpop, cmd_rpop, cmd_llen, cmd_lindex,
                  cmd_smembers, cmd_sismember, cmd_scard, cmd_hget, cmd_hexists, cmd_hlen;
                by yields ] ].
Qed.

(** INFO with a line break in its section name: the error repeats the name raw. *)
Lemma wants_line_break s n : CR ∈ s -> CR ∉ n -> wants (lower s) n = false.
Proof.
  intros Hs Hn. assert (CR ∈ lower s) as Hl.
  { unfold lower. apply list_elem_of_fmap. by exists CR. }
  unfold wants. rewrite !orb_false_iff, !bool_decide_eq_false.
  split_and!; intros Heq; rewrite Heq in Hl; [done|..]; revert Hl; vm_compute; set_solver.
Qed.

Lemma info_splits c s w :
  args c = [s] -> CR ∈ s ->
  cmd_info c w = (Ret (RespError ("ERR unknown INFO section '"%b ++ s ++ "'"%b)), w).
Proof.
  intros Ha Hs. unfold cmd_info, info_section. rewrite Ha.
  rewrite !wants_line_break; [done|..]; try done; vm_compute; set_solver.
Qed.

Lemma dispatch_typed broker c w r w' :
  is_Some (make_default broker !! name c) -> one_line_args c -> fits (zlen (args c)) ->
  world_fits w -> dispatch (make_default broker) c w = (Ret r, w') -> reply_typed r.
Proof.
  intros [f Hf] Hline Hfit Hw. pose proof (typed_tables broker (name c)) as Ht.
  unfold dispatch. destruct (make_default broker !! name c) as [f'|]; [|done]. simpl in Ht.
  intros Hr. apply (Ht c eq_refl Hfit Hline w r Hw). by rewrite Hr.
Qed.
End Handlers.

(** * Reading replies back *)

(** The client can allocate the array. *)
Definition allocates `{CxxRuntime} (r : RespValue) : Prop :=
  forall l, r = RespArray l -> reserve (zlen l) = Ret tt.

Section Read.
Context `{CxxRuntime}.

Lemma serialize_bulk_size b : zlen b <= zlen (serialize (RespBulkString b)).
Proof. cbn [serialize]. zlen_lia. Qed.

Lemma bulks_size l :
  zlen l <= zlen (flat_map serialize (map RespBulkString l)) /\
  Forall (fun b => zlen b <= zlen (flat_map serialize (map RespBulkString l))) l.
Proof.
  induction l as [|b l [IH1 IH2]]; cbn [map flat_map]; [split; [done|constructor]|].
  rewrite zlen_app. pose proof (serialize_bulk_size b) as Hb.
  assert (1 <= zlen (serialize (RespBulkString b))) as H1 by (cbn [serialize]; zlen_lia).
  split; [zlen_lia|]. constructor; [zlen_lia|]. eapply Forall_impl; [exact IH2|].
  intros x Hx. simpl in Hx. lia.
Qed.

Lemma reply_typed_wf r :
  reply_typed r -> addressable (serialize r) -> allocates r -> resp_wf r = true.
Proof.
  unfold addressable. intros Hr Ha Hal. destruct Hr as [|s Hs|m Hm|z Hz|b|l]; try done.
  - simpl. by rewrite Hs.
  - simpl. by rewrite Hm.
  - pose proof (serialize_bulk_size b). simpl. apply Z.leb_le. unfold INT64_MAX. lia.
  - destruct (bulks_size l) as [H1 H2]. specialize (Hal _ eq_refl). cbn [serialize] in Ha.
    rewrite !zlen_app in Ha. pose proof (zlen_nonneg "*"%b).
    pose proof (zlen_nonneg (to_string (zlen (map RespBulkString l)))). pose proof (zlen_nonneg crlf).
    unfold reserve in Hal. cbn [resp_wf]. rewrite zlen_map in *.
    destruct (Z.ltb_spec vector_max_size (zlen l)); [done|].
    destruct (Z.ltb_spec alloc_limit (zlen l)); [done|].
    rewrite !(proj2 (Z.leb_le _ _)) by (unfold INT64_MAX; lia). cbn [andb].
    apply forallb_forall. intros x (b & <- & Hb)%in_map_iff. simpl. apply Z.leb_le.
    apply list_elem_of_In in Hb. eapply Forall_forall in H2; [|exact Hb]. unfold INT64_MAX. lia.
Qed.

Lemma reply_typed_read r rest :
  reply_typed r -> addressable (serialize r ++ rest) -> allocates r ->
  RespParser_feed RespParser_new (serialize r ++ rest) = (Ret (Some r), MkParser rest).
Proof.
  intros Hr Ha Hal. rewrite feed_of_buf. apply (feed_complete _ r (serialize r) rest Ha); [|done].
  apply serialize_wire, reply_typed_wf; [done| |done]. by eapply addressable_app_l.
Qed.

Lemma forged_read a b rest :
  let msg := "ERR unknown INFO section '"%b in
  contains_crlf a = false ->
  addressable (serialize (RespError (msg ++ (a ++ crlf ++ b) ++ "'"%b)) ++ rest) ->
  RespParser_feed RespParser_new (serialize (RespError (msg ++ (a ++ crlf ++ b) ++ "'"%b)) ++ rest)
  = (Ret (Some (RespError (msg ++ a))), MkParser (b ++ "'"%b ++ crlf ++ rest)).
Proof.
  intros msg Ha Haddr. rewrite feed_of_buf.
  apply (feed_complete _ _ ("-"%b ++ (msg ++ a) ++ crlf)); [done| |].
  - apply wire_error. by rewrite no_crlf_prefix.
  - cbn [serialize buf_ RespParser_new app]. by rewrite <- !app_assoc.
Qed.
End Read.

(** C24. The type of replies, in every state whose containers fit the machine. A registered
    command that returns, returns null, one line of text, an int64, a bulk string, or a flat
    array of bulk strings, and a client that reads the bytes of the reply, whatever follows
    them, gets exactly that reply and keeps what follows; with one exception, INFO with a
    line break in its section name. That one is answered with an error that holds the name
    as it is, of which a client reads the part before the line break as the reply and keeps
    the rest as if it were further replies. *)
Theorem replies_typed `{CxxRuntime} (Sch : Schedule) `{!ScheduleOk Sch} broker c w r w' rest :
  is_Some (@make_default _ Sch broker !! name c) -> fits (zlen (args c)) ->
  world_fits w -> dispatch (@make_default _ Sch broker) c w = (Ret r, w') ->
  (one_line_args c ->
   reply_typed r /\
   (addressable (serialize r ++ rest) -> allocates r ->
    RespParser_feed RespParser_new (serialize r ++ rest) = (Ret (Some r), MkParser rest))) /\
  (forall a b, name c = "INFO"%b -> args c = [a ++ crlf ++ b] -> contains_crlf a = false ->
   r = RespError ("ERR unknown INFO section '"%b ++ (a ++ crlf ++ b) ++ "'"%b) /\
   (addressable (serialize r ++ rest) ->
    RespParser_feed RespParser_new (serialize r ++ rest)
    = (Ret (Some (RespError ("ERR unknown INFO section '"%b ++ a))),
       MkParser (b ++ "'"%b ++ crlf ++ rest)))).
Proof.
  intros Hreg Hfit Hw Hd. split.
  - intros Hline. pose proof (dispatch_typed broker c w r w' Hreg Hline Hfit Hw Hd).
    split; [done|]. by apply reply_typed_read.
  - intros a b Hn Ha Hcr. rewrite (dispatch_found _ c cmd_info) in Hd.
    + rewrite (info_splits c (a ++ crlf ++ b)) in Hd by (done || set_solver).
      injection Hd as <- <-. split; [done|]. by apply forged_read.
    + rewrite Hn. apply make_default_lookup. unfold all_handlers. set_solver.
Qed.

(** * Witness *)

#[local] Existing Instance demo_runtime.
#[local] Existing Instance demo_schedule.

Lemma demo_world_fits : world_fits demo_world.
Proof.
  split; by_evaluation.
Qed.

(** A list; and a section name that makes a client read two replies. *)
Lemma replies_typed_witness :
  (exists r w',
    dispatch (make_default true) (MkCommand "LRANGE" ["l"; "0"; "1"])%b demo_world = (Ret r, w') /\
    RespParser_feed RespParser_new (serialize r ++ "+x"%b) = (Ret (Some r), MkParser "+x"%b)) /\
  RespParser_feed RespParser_new
    (serialize (RespError ("ERR unknown INFO section '"%b ++ ("x"%b ++ crlf ++ "+OK"%b) ++ "'"%b)))
  = (Ret (Some (RespError "ERR unknown INFO section 'x"%b)), MkParser ("+OK'"%b ++ crlf)).
Proof.
  split.
  - exists (RespArray [RespBulkString "a"; RespBulkString "b"]%b). eexists.
    assert (dispatch (make_default true) (MkCommand "LRANGE" ["l"; "0"; "1"])%b demo_world
      = (Ret (RespArray [RespBulkString "a"; RespBulkString "b"]%b), locked demo_world)) as Hd
      by (vm_compute; reflexivity).
    destruct (replies_typed demo_schedule true (MkCommand "LRANGE" ["l"; "0"; "1"])%b demo_world
                (RespArray [RespBulkString "a"; RespBulkString "b"]%b) (locked demo_world) "+x"%b)
      as [Hr _]; [by_evaluation|vm_compute; discriminate|exact demo_world_fits|exact Hd|].
    split; [exact Hd|]. apply Hr; [discriminate|vm_compute; reflexivity|].
    intros l [= <-]. reflexivity.
  - destruct (replies_typed demo_schedule true (MkCommand "INFO" ["x" ++ crlf ++ "+OK"])%b demo_world
      (RespError ("ERR unknown INFO section '"%b ++ ("x"%b ++ crlf ++ "+OK"%b) ++ "'"%b)) demo_world [])
      as [_ Hr]; [by_evaluation|vm_compute; discriminate|exact demo_world_fits|
                  vm_compute; reflexivity|].
    destruct (Hr "x"%b "+OK"%b eq_refl eq_refl eq_refl) as [_ Hf]. rewrite !app_nil_r in Hf.
    apply Hf. vm_compute. reflexivity.
Defined.
