(* ===== verification/AofTheorems.v ===== *)
(** The append-only file is crash consistent: what replay executes, and leaves in the
    file, is exactly the commands whose bytes are complete. *)

From S2P Require Import Prelude Cxx Charconv Resp RespParser RespParserFacts RespGrammar.
From S2P Require Import RespTheorems World KvStore KvStoreFacts Command CmdSpec Demo StringCmds.
From S2P Require Import ExpirySpec StoreSim Dispatcher Aof Histories HandlerTotal.

Open Scope Z_scope.

(** The bytes of a log. *)
Definition logged (cmds : list Command) : bytes := flat_map serialize (map command_value cmds).

(** A command as parse_command yields it, of a size the parser can read back. *)
Definition cmd_wf `{CxxRuntime} (c : Command) : bool :=
  resp_wf (command_value c) && bool_decide (upper (name c) = name c).

(** The command returned or threw; only undefined behaviour is excluded. *)
Definition settled (r : Out RespValue) : Prop := r <> UB /\ r <> NoFuel.

Definition fs_grants `{FileSystem} : Prop :=
  fs_open_append = true /\ fs_open_read = true /\ fs_resize = true.

Section Log.
Context `{CxxRuntime}.

Lemma cmd_wf_parse c : cmd_wf c = true -> parse_command (command_value c) = Some c.
Proof.
  unfold cmd_wf. rewrite andb_true_iff, bool_decide_eq_true. intros [_ Hn].
  destruct c as [n l]. rewrite parse_command_value. simpl in *. by rewrite Hn.
Qed.

Lemma cmd_wf_values cmds :
  Forall (fun c => cmd_wf c = true) cmds ->
  Forall (fun v => resp_wf v = true) (map command_value cmds).
Proof.
  intros Hc. apply Forall_map. eapply Forall_impl; [exact Hc|].
  intros c. unfold cmd_wf. simpl. by rewrite andb_true_iff; intros [].
Qed.

Lemma omap_commands cmds :
  Forall (fun c => cmd_wf c = true) cmds -> omap parse_command (map command_value cmds) = cmds.
Proof.
  induction 1 as [|c cmds Hc _ IH]; [done|]. cbn [map].
  by rewrite omap_cons, (cmd_wf_parse c Hc), IH.
Qed.

(** * The replay loop runs the commands the parser delivers *)

Lemma run_history_settled_cons d c cmds w :
  Forall settled (fst (run_history d (c :: cmds) w)) ->
  settled (fst (dispatch d c w)) /\
  Forall settled (fst (run_history d cmds (snd (dispatch d c w)))).
Proof. rewrite run_history_cons. cbn [fst]. by intros ?%Forall_cons_1. Qed.

Lemma replay_loop_drain d fuel buf count w vs st p :
  addressable buf -> (length buf < fuel)%nat -> drain_all buf = (vs, st, p) ->
  Forall settled (fst (run_history d (omap parse_command vs) w)) ->
  replay_loop fuel d (MkParser buf) [] count w =
  (Ret (count + zlen (omap parse_command vs), if st is Ret _ then false else true), p,
   snd (run_history d (omap parse_command vs) w)).
Proof.
  revert buf count w vs. induction fuel as [|fuel IH]; intros buf count w vs Ha Hf; [lia|].
  rewrite drain_all_step by done. cbn [replay_loop].
  pose proof (feed_cases_nil buf Ha) as Hc.
  destruct (RespParser_feed (MkParser buf) []) as [[[v|]|e| |] p1]; try done.
  2, 3: intros [= <- <- <-] _; simpl; by rewrite Z.add_0_r.
  destruct Hc as (s & _ & -> & Hs). destruct p1 as [rest]. simpl in *.
  apply addressable_app_r in Ha. rewrite length_app in Hf.
  destruct (drain_all rest) as [[vs' st'] p'] eqn:Hd. intros [= <- <- <-].
  rewrite omap_cons. destruct (parse_command v) as [c|].
  2:{ intros Hs'. by apply (IH rest count w vs'); [|lia|..]. }
  intros [[Hu Hn] Hrest]%run_history_settled_cons. rewrite run_history_cons. simpl.
  destruct (dispatch d c w) as [[r|e| |] w']; try done; simpl in *;
    rewrite (IH rest (count + 1) w' vs') by (done || lia);
    (do 4 f_equal; unfold zlen; simpl; lia).
Qed.

Lemma replay_run `{FileSystem} d a w cmds t :
  fs_grants -> file_is_open a = true -> file_content a = logged cmds ++ t ->
  Forall (fun c => cmd_wf c = true) cmds ->
  RespParser_feed (MkParser t) [] = (Ret None, MkParser t) ->
  addressable (logged cmds ++ t) ->
  Forall settled (fst (run_history d cmds w)) ->
  AofPersistence_replay d a w =
  (Ret (zlen cmds), MkAof (logged cmds) true, snd (run_history d cmds w)).
Proof.
  intros (Happ & Hread & Hres) Hopen Ha Hwf Ht Haddr Hset.
  unfold AofPersistence_replay. rewrite Ha, Hread. cbn [negb]. case_decide as Hnil.
  { apply app_eq_nil in Hnil as [Hl ->]. destruct cmds as [|c cmds]; [|done].
    destruct a. simpl in *. by subst. }
  pose proof (drain_all_prefix (map command_value cmds) t (cmd_wf_values _ Hwf) Ht Haddr) as Hd.
  rewrite <- (omap_commands cmds Hwf) in Hset.
  assert (length (logged cmds ++ t) < replay_fuel (logged cmds ++ t))%nat as Hfuel
    by (unfold replay_fuel; lia).
  pose proof (replay_loop_drain d _ _ 0 w _ _ _ Haddr Hfuel Hd Hset) as Hr.
  unfold replay_fuel in *. cbn [replay_loop] in *.
  rewrite feed_of_buf. cbn [buf_ RespParser_new app]. rewrite Hr, (omap_commands cmds Hwf).
  cbn [buf_ orb]. f_equal. f_equal. rewrite length_app.
  destruct (Nat.ltb_spec 0 (length t)) as [Hpos|Hzero].
  - unfold truncate_to, resize_file. rewrite Hres, Happ, Ha, length_app.
    replace (length (logged cmds) + length t - length t)%nat with (length (logged cmds)) by lia.
    rewrite take_app_length. replace (_ - _)%nat with 0%nat by lia. by rewrite app_nil_r.
  - unfold reopen_append_stream. destruct t; [|simpl in *; lia]. by rewrite Ha, app_nil_r, Happ.
Qed.

(** * Torn writes *)

Lemma logged_cons c cmds : logged (c :: cmds) = serialize (command_value c) ++ logged cmds.
Proof. done. Qed.

Lemma torn_prefix cmds n :
  exists k t,
    take n (logged cmds) = logged (take k cmds) ++ t /\
    (t = [] \/ exists c u, c ∈ cmds /\ u <> [] /\ serialize (command_value c) = t ++ u) /\
    (length (logged (take k cmds)) <= n)%nat /\
    (length cmds <= k \/ n < length (logged (take (S k) cmds)))%nat.
Proof.
  revert n. induction cmds as [|c cmds IH]; intros n.
  { exists 0%nat, []. split_and!; [by destruct n|by left|simpl; lia|by left]. }
  rewrite logged_cons. set (s := serialize (command_value c)).
  destruct (le_lt_dec (length s) n) as [Hle|Hlt].
  - destruct (IH (n - length s)%nat) as (k & t & Htake & Ht & Hlen & Hk).
    exists (S k), t. cbn [take]. rewrite !logged_cons, take_app_ge, Htake, !length_app by done.
    split_and!; [by rewrite app_assoc| |fold s; lia|cbn [length]; fold s; lia].
    destruct Ht as [->|(c' & u & Hc' & Ht)]; [by left|]. right. exists c', u.
    split; [by apply list_elem_of_further|done].
  - exists 0%nat, (take n s). rewrite take_app_le by lia.
    split_and!; [done| |simpl; lia|right; cbn [take]; rewrite logged_cons, length_app; fold s; lia].
    right. exists c, (drop n s). split; [set_solver|]. split; [|by rewrite take_drop].
    intros Hnil. apply (f_equal length) in Hnil. rewrite length_drop in Hnil. cbn [length] in Hnil. lia.
Qed.

Lemma addressable_take n buf : addressable buf -> addressable (take n buf).
Proof. intros Ha. rewrite <- (take_drop n buf) in Ha. by apply addressable_app_l in Ha. Qed.

Lemma serialize_incomplete c t u :
  cmd_wf c = true -> u <> [] -> serialize (command_value c) = t ++ u -> addressable (t ++ u) ->
  RespParser_feed (MkParser t) [] = (Ret None, MkParser t).
Proof.
  unfold cmd_wf. rewrite andb_true_iff. intros [Hc _] Hu Hs Ha.
  apply (feed_prefix (command_value c) t u); [|done..]. rewrite <- Hs. by apply serialize_wire.
Qed.

Lemma logged_part cmds c :
  c ∈ cmds -> (length (serialize (command_value c)) <= length (logged cmds))%nat.
Proof.
  induction 1 as [c cmds|c c' cmds _ IH]; rewrite logged_cons, length_app; lia.
Qed.

Lemma run_history_take d k cmds w :
  fst (run_history d (take k cmds) w) = take k (fst (run_history d cmds w)).
Proof.
  revert k w. induction cmds as [|c cmds IH]; intros k w; [by destruct k|].
  destruct k as [|k]; [done|]. rewrite firstn_cons, !run_history_cons. cbn [fst].
  by rewrite firstn_cons, IH.
Qed.

(** Replay of a log cut anywhere. *)
Lemma replay_torn `{FileSystem} d cmds n w :
  fs_grants -> Forall (fun c => cmd_wf c = true) cmds -> addressable (logged cmds) ->
  Forall settled (fst (run_history d cmds w)) ->
  exists k,
    (length (logged (take k cmds)) <= n)%nat /\
    (length cmds <= k \/ n < length (logged (take (S k) cmds)))%nat /\
    AofPersistence_replay d (MkAof (take n (logged cmds)) true) w =
    (Ret (zlen (take k cmds)), MkAof (logged (take k cmds)) true,
     snd (run_history d (take k cmds) w)).
Proof.
  intros Hfs Hwf Ha Hset.
  destruct (torn_prefix cmds n) as (k & t & Htake & Ht & Hlen & Hk).
  exists k. split_and!; [done..|]. apply (replay_run _ _ _ _ t); try done.
  - by apply Forall_take.
  - destruct Ht as [-> |(c & u & Hc & Hu & Hs)]; [done|].
    eapply serialize_incomplete; [|done..|].
    + by eapply Forall_forall in Hwf.
    + apply logged_part in Hc. rewrite <- Hs. unfold addressable, zlen in *. lia.
  - rewrite <- Htake. by apply addressable_take.
  - rewrite run_history_take. by apply Forall_take.
Qed.

(** C5. Crash consistency: cut the log of [cmds] anywhere. Replay then executes exactly
    the first [k] commands, those whose bytes are complete in the remaining [n], in
    order and with their errors suppressed, reports [k], cuts the torn rest off the file
    and leaves it open for appending; what is logged afterwards is read back behind
    them. *)
Theorem crash_recovery `{FileSystem} d cmds n w more :
  fs_grants -> Forall (fun c => cmd_wf c = true) cmds -> addressable (logged cmds) ->
  Forall settled (fst (run_history d cmds w)) ->
  exists k,
    (length (logged (take k cmds)) <= n)%nat /\
    (length cmds <= k \/ n < length (logged (take (S k) cmds)))%nat /\
    AofPersistence_replay d (MkAof (take n (logged cmds)) true) w =
    (Ret (zlen (take k cmds)), MkAof (logged (take k cmds)) true,
     snd (run_history d (take k cmds) w)) /\
    AofPersistence_log more (MkAof (logged (take k cmds)) true)
    = MkAof (logged (take k cmds ++ [more])) true.
Proof.
  intros Hfs Hwf Ha Hset. destruct (replay_torn d cmds n w Hfs Hwf Ha Hset) as (k & Hk).
  exists k. destruct Hk as (H1 & H2 & H3). split_and!; try done.
  unfold AofPersistence_log, logged. cbn [file_is_open file_content].
  rewrite map_app, flat_map_app. cbn [map flat_map]. by rewrite app_nil_r.
Qed.
End Log.

(** * Received commands that overflow *)

(** The commands in a stream of bytes, up to its end or its first protocol error. *)
Definition commands_in `{CxxRuntime} (buf : bytes) : list Command :=
  omap parse_command (fst (fst (drain_all buf))).

(** One of the commands computes with times and overflows, leaving [w']. *)
Definition overflows (handlers : gmap bytes HandlerFn) (cmds : list Command) (w' : World) : Prop :=
  exists cmd w, cmd ∈ cmds /\ name cmd ∈ timing /\ dispatch handlers cmd w = (UB, w').

Section Overflow.
Context `{CxxRuntime} (Sch : Schedule) `{!ScheduleOk Sch} (broker : bool).
Abbreviation commands := (@make_default _ Sch broker).

Lemma commands_in_step buf v p :
  addressable buf -> RespParser_feed (MkParser buf) [] = (Ret (Some v), p) ->
  commands_in buf = omap parse_command [v] ++ commands_in (buf_ p).
Proof.
  intros Ha Hf. unfold commands_in. rewrite (drain_all_step buf Ha), Hf.
  destruct (drain_all (buf_ p)) as [[vs st] p']. cbn [fst]. by rewrite <- omap_app.
Qed.

Lemma dispatch_overflows cmd cmds w w' :
  dispatch commands cmd w = (UB, w') -> cmd ∈ cmds -> overflows commands cmds w'.
Proof.
  intros Hd Hin. exists cmd, w. split_and!; [done| |done].
  pose proof (dispatch_tame broker cmd w) as Ht. rewrite Hd in Ht. by apply bool_decide_eq_true in Ht.
Qed.

Lemma overflows_mono cmds cmds' w' :
  (forall cmd, cmd ∈ cmds -> cmd ∈ cmds') -> overflows commands cmds w' -> overflows commands cmds' w'.
Proof. intros Hin (cmd & w & Hc & H'). exists cmd, w. split; [by apply Hin|done]. Qed.

(** Replay returns unless a command in the file overflows. *)
Lemma replay_loop_outcome fuel buf count w :
  addressable buf -> (length buf < fuel)%nat ->
  match replay_loop fuel commands (MkParser buf) [] count w with
  | (Ret _, _, _) => True
  | (UB, _, w') => overflows commands (commands_in buf) w'
  | _ => False
  end.
Proof.
  revert buf count w. induction fuel as [|fuel IH]; intros buf count w Ha Hlen; [lia|].
  cbn [replay_loop]. pose proof (feed_cases_nil buf Ha) as Hc.
  destruct (RespParser_feed (MkParser buf) []) as [[[v|]|e| |] p] eqn:Hf; try done.
  pose proof (commands_in_step buf v p Ha Hf) as Hcmds.
  destruct Hc as (s & _ & Hb & Hs). destruct p as [rest]. cbn [buf_] in *. subst buf.
  apply addressable_app_r in Ha. rewrite length_app in Hlen.
  assert (forall count w, match replay_loop fuel commands (MkParser rest) [] count w with
    | (Ret _, _, _) => True
    | (UB, _, w') => overflows commands (commands_in (s ++ rest)) w'
    | _ => False
    end) as Hrec.
  { intros count' w1. specialize (IH rest count' w1 Ha ltac:(lia)).
    destruct (replay_loop _ _ _ _ _ _) as [[[| | |] ?] ?]; try done.
    eapply overflows_mono; [|done]. rewrite Hcmds. set_solver. }
  destruct (parse_command v) as [cmd|] eqn:Hv; [|apply Hrec].
  pose proof (dispatch_tame broker cmd w) as Ht.
  destruct (dispatch commands cmd w) as [[r|e| |] w1] eqn:Hd; try done; try apply Hrec.
  eapply dispatch_overflows; [done|]. rewrite Hcmds, omap_cons, Hv. set_solver.
Qed.

Lemma replay_outcome `{FileSystem} a w :
  addressable (file_content a) ->
  match AofPersistence_replay commands a w with
  | (Ret _, _, _) => True
  | (UB, _, w') => fs_open_read = true /\ overflows commands (commands_in (file_content a)) w'
  | _ => False
  end.
Proof.
  intros Ha. unfold AofPersistence_replay. destruct fs_open_read; cbn [negb]; [|done].
  case_decide; [done|].
  pose proof (replay_loop_outcome (replay_fuel (file_content a)) (file_content a) 0 w Ha) as Hr.
  assert (replay_loop (replay_fuel (file_content a)) commands RespParser_new (file_content a) 0 w
    = replay_loop (replay_fuel (file_content a)) commands (MkParser (file_content a)) [] 0 w) as ->.
  { unfold replay_fuel. cbn [replay_loop]. by rewrite feed_of_buf. }
  specialize (Hr ltac:(unfold replay_fuel; lia)).
  destruct (replay_loop _ _ _ _ _ _) as [[[[]| | |] ?] ?]; done.
Qed.
End Overflow.

(** * The file as the server writes it *)

Lemma log_all cmds s :
  fold_left (fun a c => log_if_write c a) cmds (MkAof s true) =
  MkAof (s ++ logged (filter (fun c => is_write_command (name c) = true) cmds)) true.
Proof.
  revert s. induction cmds as [|c cmds IH]; intros s; simpl.
  { by rewrite app_nil_r. }
  rewrite filter_cons. unfold log_if_write. case_decide as Hw.
  - rewrite Hw. unfold AofPersistence_log. cbn [file_is_open file_content].
    by rewrite IH, logged_cons, app_assoc.
  - apply not_true_is_false in Hw. by rewrite Hw, IH.
Qed.

Section Restart.
Context `{CxxRuntime} (S1 S2 : Schedule) `{!ScheduleOk S1} `{!ScheduleOk S2} `{FileSystem}.

(** Restart: a server that logged and executed any history of commands that set no
    deadline, and a second one that replays its file at any later time, hold the same
    data, and the file is unchanged. *)
Theorem restart_restores_data broker cmds w0 w1 :
  fs_grants -> Forall (fun c => cmd_wf c = true) cmds ->
  Forall (fun c => ttl_free c = true) cmds ->
  data_ w0 = ∅ -> data_ w1 = ∅ ->
  let served := run_history (@make_default _ S1 broker) cmds w0 in
  let aof := fold_left (fun a c => log_if_write c a) cmds (MkAof [] true) in
  Forall settled (fst served) -> addressable (file_content aof) ->
  exists count w',
    AofPersistence_replay (@make_default _ S2 broker) aof w1 = (Ret count, aof, w') /\
    data_ w' = data_ (snd served).
Proof.
  intros Hfs Hwf Hfree Hd0 Hd1 served aof Hset Ha.
  pose (writes := filter (fun c => is_write_command (name c) = true) cmds).
  assert (aof = MkAof (logged writes) true) as Haof by apply (log_all cmds []).
  destruct (history_logged S1 S2 broker cmds w0 w1 Hfree) as [Hsub [Hdata _]].
  { split; rewrite Hd0; [done|]. apply map_Forall_empty. }
  rewrite Haof in Ha |- *. do 2 eexists. split; [|by symmetry].
  apply (replay_run _ _ _ _ []); try done; cbn [file_content]; try rewrite app_nil_r; try done.
  - apply Forall_forall. intros c [_ Hc]%list_elem_of_filter. by eapply Forall_forall in Hwf.
  - apply Forall_forall. intros r Hr. eapply Forall_forall in Hset; [exact Hset|by apply Hsub].
Qed.

(** Replay restarts times to live: a logged SET ... EX runs again in full from the
    moment of the replay, however long ago it was logged, so a key that had expired
    before the restart is back, with all of its seconds. *)
Theorem replay_restarts_ttl broker key v s secs w :
  fs_grants -> cmd_wf (MkCommand "SET" [key; v; "EX"; s])%b = true ->
  addressable (logged [MkCommand "SET" [key; v; "EX"; s]]%b) ->
  parse_int64 s = Some secs -> 0 < secs -> 0 <= @now S2 (@locked S2 w) ->
  @now S2 (@locked S2 w) + secs * ns_per_s <= INT64_MAX ->
  let file := MkAof (logged [MkCommand "SET" [key; v; "EX"; s]]%b) true in
  exists w',
    AofPersistence_replay (@make_default _ S2 broker) file w = (Ret 1, file, w') /\
    data_ w' ≈[@now S2 w']
      <[key := MkEntry (StringValue v) (Some (@now S2 (@locked S2 w) + secs * ns_per_s))]> (data_ w).
Proof.
  intros Hfs Hwf Ha Hs Hpos Hnow Hfit file.
  assert (dispatch (@make_default _ S2 broker) (MkCommand "SET" [key; v; "EX"; s])%b
          = @cmd_set S2 (MkCommand "SET" [key; v; "EX"; s])%b) as Hdis by by destruct broker.
  assert (forall w, run_history (@make_default _ S2 broker) [MkCommand "SET" [key; v; "EX"; s]]%b w
    = let '(r, w) := @cmd_set S2 (MkCommand "SET" [key; v; "EX"; s])%b w in ([r], w)) as Hrun.
  { intros u. cbn [run_history]. by rewrite Hdis. }
  pose proof (set_ex_run "SET"%b key v "EX"%b s secs w eq_refl Hs Hpos Hnow Hfit) as Hset.
  exists (snd (run_history (@make_default _ S2 broker) [MkCommand "SET" [key; v; "EX"; s]]%b w)).
  split.
  - apply (replay_run _ file w [MkCommand "SET" [key; v; "EX"; s]]%b []);
      try done; try (rewrite app_nil_r; done).
    + by repeat constructor.
    + rewrite Hrun, Hset. by repeat constructor.
  - rewrite Hrun, Hset. apply put_later.
Qed.
End Restart.

(** * Witnesses *)

#[local] Existing Instance demo_runtime.
#[local] Existing Instance demo_schedule.
#[local] Instance granting_fs : FileSystem :=
  {| fs_open_append := true; fs_open_read := true; fs_resize := true |}.

Definition demo_cmds : list Command :=
  [MkCommand "SET" ["a"; "1"]; MkCommand "GET" ["a"]; MkCommand "INCR" ["a"]]%b.

Definition empty_world : World := MkWorld ∅ 0 demo_stats ∅ [].

Ltac settle := vm_compute; repeat constructor; discriminate.

Lemma crash_recovery_witness :
  exists k,
    AofPersistence_replay (make_default true) (MkAof (take 40 (logged demo_cmds)) true) empty_world
    = (Ret (zlen (take k demo_cmds)), MkAof (logged (take k demo_cmds)) true,
       snd (run_history (make_default true) (take k demo_cmds) empty_world)).
Proof.
  destruct (crash_recovery (make_default true) demo_cmds 40 empty_world (MkCommand "DEL" ["a"])%b)
    as (k & _ & _ & Hk & _).
  - done.
  - repeat constructor.
  - by vm_compute.
  - settle.
  - exists k. exact Hk.
Defined.

Lemma restart_restores_data_witness :
  exists count w',
    AofPersistence_replay (make_default true)
      (fold_left (fun a c => log_if_write c a) demo_cmds (MkAof [] true)) empty_world
    = (Ret count, fold_left (fun a c => log_if_write c a) demo_cmds (MkAof [] true), w') /\
    data_ w' = data_ (snd (run_history (make_default true) demo_cmds empty_world)).
Proof.
  apply (restart_restores_data demo_schedule demo_schedule true demo_cmds empty_world empty_world).
  - done.
  - repeat constructor.
  - repeat constructor.
  - done.
  - done.
  - settle.
  - by vm_compute.
Defined.

Lemma replay_restarts_ttl_witness :
  exists w' a',
    AofPersistence_replay (make_default true)
      (MkAof (logged [MkCommand "SET" ["k"; "v"; "EX"; "1"]]%b) true) empty_world
    = (Ret 1, a', w').
Proof.
  destruct (replay_restarts_ttl demo_schedule true "k"%b "v"%b "1"%b 1 empty_world)
    as (w' & Hw & _).
  - done.
  - reflexivity.
  - by vm_compute.
  - reflexivity.
  - lia.
  - vm_compute. discriminate.
  - vm_compute. discriminate.
  - exists w'. eexists. exact Hw.
Defined.
