(* ===== verification/BrokerSpec.v ===== *)
(** The broker implements a table of ordered, duplicate-free subscriber lists, and
    publishing delivers one frame to each subscriber of the channel, in order. *)

From S2P Require Import Prelude Cxx Charconv Resp World PubSubBroker CmdSpec Demo Histories.

Open Scope Z_scope.

Abbreviation channel_map := (gmap bytes (list Subscriber)).

(** Who is subscribed to a channel, in the order of delivery. *)
Definition subscribers (m : channel_map) (ch : bytes) : list conn_id :=
  map id (default [] (m !! ch)).

(** No channel without subscribers, nobody twice on a channel, and every callback is the
    closure its connection registered for that channel. *)
Record broker_wf (m : channel_map) : Prop := {
  wf_nonempty : forall ch, m !! ch <> Some [];
  wf_nodup : forall ch, NoDup (subscribers m ch);
  wf_closure : forall ch s, s ∈ default [] (m !! ch) -> write s = MkWriteFn (id s) ch;
}.

(** * Lists of subscribers *)

Lemma replace_sub_None sid fn subs : replace_sub sid fn subs = None <-> sid ∉ map id subs.
Proof.
  induction subs as [|s subs IH]; simpl; [set_solver|]. case_decide as Hs; [set_solver|].
  destruct (replace_sub sid fn subs); set_solver.
Qed.

Lemma replace_sub_ids sid fn subs subs' :
  replace_sub sid fn subs = Some subs' -> map id subs' = map id subs /\ sid ∈ map id subs.
Proof.
  revert subs'. induction subs as [|s subs IH]; intros subs'; simpl; [done|].
  case_decide as Hs; [intros [= <-]; simpl; set_solver|].
  destruct (replace_sub sid fn subs) as [r|]; [|done]. intros [= <-].
  destruct (IH r eq_refl) as [Hr Hin]. simpl. rewrite Hr. set_solver.
Qed.

Lemma replace_sub_elem sid fn subs subs' s :
  replace_sub sid fn subs = Some subs' -> s ∈ subs' -> s ∈ subs \/ s = MkSubscriber sid fn.
Proof.
  revert subs'. induction subs as [|s0 subs IH]; intros subs'; simpl; [done|].
  case_decide as Hs; [intros [= <-]; set_solver|].
  destruct (replace_sub sid fn subs) as [r|]; [|done]. intros [= <-] Hin.
  specialize (IH r eq_refl). set_solver.
Qed.

Lemma remove_sub_ids sid subs : map id (remove_sub sid subs) = filter (.≠ sid) (map id subs).
Proof.
  induction subs as [|s subs IH]; [done|]. unfold remove_sub in *. cbn [map].
  rewrite !filter_cons. repeat case_decide; try done. cbn [map]. by rewrite IH.
Qed.

Lemma remove_sub_length sid subs :
  length (remove_sub sid subs) = length subs <-> sid ∉ map id subs.
Proof.
  unfold remove_sub. induction subs as [|s subs IH]; cbn [map].
  { split; [set_solver|done]. }
  rewrite filter_cons. pose proof (length_filter (fun s => id s <> sid) subs) as Hlen.
  case_decide as Hs; cbn [length].
  - rewrite not_elem_of_cons. rewrite <- IH. split; [intros Heq; split; [congruence|lia]|lia].
  - split; [lia|set_solver].
Qed.

Definition keep_nonempty (subs : list Subscriber) : option (list Subscriber) :=
  match subs with [] => None | _ => Some subs end.

Lemma default_keep_nonempty subs : default [] (keep_nonempty subs) = subs.
Proof. by destruct subs. Qed.

Lemma lookup_store_subs ch subs m ch' :
  store_subs ch subs m !! ch' = if decide (ch = ch') then keep_nonempty subs else m !! ch'.
Proof.
  unfold store_subs, keep_nonempty.
  destruct subs; [rewrite lookup_delete|rewrite lookup_insert]; by case_decide.
Qed.

(** * The walk of unsubscribe_all *)

Definition has_sub (sid : conn_id) (e : bytes * list Subscriber) : Prop := sid ∈ map id (snd e).

#[global] Instance has_sub_dec sid e : Decision (has_sub sid e).
Proof. unfold has_sub. apply _. Defined.

Lemma unsubscribe_walk_removed sid l m removed :
  fst (unsubscribe_walk sid l m removed) = removed ++ map fst (filter (has_sub sid) l).
Proof.
  revert m removed. induction l as [|[ch subs] l IH]; intros m removed; simpl.
  { by rewrite app_nil_r. }
  rewrite IH, filter_cons. unfold has_sub at 2. simpl.
  pose proof (remove_sub_length sid subs) as Hlen.
  repeat case_decide; try tauto. simpl. by rewrite <- app_assoc.
Qed.

Lemma unsubscribe_walk_lookup sid l m removed ch :
  NoDup (map fst l) ->
  (forall ch subs, (ch, subs) ∈ l -> m !! ch = Some subs) ->
  snd (unsubscribe_walk sid l m removed) !! ch =
  if decide (ch ∈ map fst l) then m !! ch ≫= (fun subs => keep_nonempty (remove_sub sid subs))
  else m !! ch.
Proof.
  revert m removed. induction l as [|[ch0 subs] l IH]; intros m removed Hnd Hm; cbn [map] in *.
  { by rewrite decide_False by set_solver. }
  apply NoDup_cons in Hnd as [Hch0 Hnd]. cbn [unsubscribe_walk fst snd] in *.
  rewrite IH; [|done|].
  - rewrite lookup_store_subs. destruct (decide (ch0 = ch)) as [->|Hne].
    + rewrite decide_False by done. rewrite decide_True by set_solver.
      by rewrite (Hm ch subs) by set_solver.
    + repeat case_decide; set_solver.
  - intros ch' subs' Hin. rewrite lookup_store_subs, decide_False; [set_solver|].
    intros ->. apply Hch0, list_elem_of_fmap. by exists (ch', subs').
Qed.

(** * The operations *)

Section Broker.
Context `{RtOk : CxxRuntimeOk}.

Lemma subscribe_lookup ch sid fn w ch' :
  channels_ (snd (PubSubBroker_subscribe ch sid fn w)) !! ch' =
  if decide (ch = ch') then
    Some (let subs := default [] (channels_ w !! ch) in
          match replace_sub sid fn subs with
          | Some subs' => subs'
          | None => subs ++ [MkSubscriber sid fn]
          end)
  else channels_ w !! ch'.
Proof. cbn [PubSubBroker_subscribe snd channels_ set_channels]. by rewrite lookup_insert. Qed.

Lemma unsubscribe_lookup ch sid w ch' :
  channels_ (snd (PubSubBroker_unsubscribe ch sid w)) !! ch' =
  if decide (ch = ch') then channels_ w !! ch ≫= (fun subs => keep_nonempty (remove_sub sid subs))
  else channels_ w !! ch'.
Proof.
  unfold PubSubBroker_unsubscribe. destruct (channels_ w !! ch) as [subs|] eqn:Hc.
  - cbn [snd channels_ set_channels]. by rewrite lookup_store_subs.
  - cbn. case_decide; by subst.
Qed.

Lemma unsubscribe_all_lookup sid w ch :
  channels_ (snd (PubSubBroker_unsubscribe_all sid w)) !! ch =
  channels_ w !! ch ≫= (fun subs => keep_nonempty (remove_sub sid subs)).
Proof.
  unfold PubSubBroker_unsubscribe_all.
  pose proof (iter_map_perm _ (channels_ w)) as Hp.
  pose proof (unsubscribe_walk_lookup sid (iter_map _ (channels_ w)) (channels_ w) [] ch) as Hl.
  destruct (unsubscribe_walk _ _ _ _) as [removed m]. cbn [snd channels_ set_channels] in *.
  rewrite Hl.
  - case_decide as Hin; [done|]. destruct (channels_ w !! ch) as [subs|] eqn:Hc; [|done].
    destruct Hin. apply list_elem_of_fmap. exists (ch, subs). split; [done|].
    rewrite Hp. by apply elem_of_map_to_list.
  - change map with (@fmap _ list_fmap). rewrite Hp. apply NoDup_fst_map_to_list.
  - intros ch' subs. rewrite Hp. apply elem_of_map_to_list.
Qed.

Lemma subscribers_removed m m' sid ch :
  m' !! ch = m !! ch ≫= (fun subs => keep_nonempty (remove_sub sid subs)) ->
  subscribers m' ch = filter (.≠ sid) (subscribers m ch).
Proof.
  unfold subscribers. intros ->. destruct (m !! ch) as [subs|]; [|done]. simpl.
  by rewrite default_keep_nonempty, remove_sub_ids.
Qed.

Lemma subscribe_subscribers ch sid fn w ch' :
  subscribers (channels_ (snd (PubSubBroker_subscribe ch sid fn w))) ch' =
  let l := subscribers (channels_ w) ch' in
  if decide (ch = ch' /\ sid ∉ l) then l ++ [sid] else l.
Proof.
  unfold subscribers at 1. rewrite subscribe_lookup. cbv zeta.
  destruct (decide (ch = ch')) as [->|Hne].
  2:{ rewrite decide_False by tauto. done. }
  simpl. unfold subscribers. set (subs := default [] (channels_ w !! ch')).
  destruct (replace_sub sid fn subs) as [subs'|] eqn:Hr.
  - apply replace_sub_ids in Hr as [-> Hin]. by rewrite decide_False by tauto.
  - apply replace_sub_None in Hr. rewrite decide_True by done. by rewrite map_app.
Qed.

Lemma subscribe_count ch sid fn w :
  fst (PubSubBroker_subscribe ch sid fn w) =
  Ret (zlen (subscribers (channels_ (snd (PubSubBroker_subscribe ch sid fn w))) ch)).
Proof.
  unfold subscribers. rewrite subscribe_lookup, decide_True, zlen_map by done. done.
Qed.

Lemma unsubscribe_count ch sid w :
  fst (PubSubBroker_unsubscribe ch sid w) =
  Ret (zlen (subscribers (channels_ (snd (PubSubBroker_unsubscribe ch sid w))) ch)).
Proof.
  unfold subscribers. rewrite unsubscribe_lookup, decide_True, zlen_map by done.
  unfold PubSubBroker_unsubscribe. destruct (channels_ w !! ch) as [subs|]; [|done]. simpl.
  by rewrite default_keep_nonempty.
Qed.

Lemma unsubscribe_all_removed sid w :
  exists removed, fst (PubSubBroker_unsubscribe_all sid w) = Ret removed /\ NoDup removed /\
    forall ch, ch ∈ removed <-> sid ∈ subscribers (channels_ w) ch.
Proof.
  pose proof (iter_map_perm _ (channels_ w)) as Hp. unfold PubSubBroker_unsubscribe_all.
  pose proof (unsubscribe_walk_removed sid (iter_map _ (channels_ w)) (channels_ w) []) as Hr.
  destruct (unsubscribe_walk _ _ _ _) as [removed m]. cbn [fst] in *. exists removed.
  split; [done|]. subst removed. cbn [app]. split.
  - apply NoDup_map_filter. change map with (@fmap _ list_fmap). rewrite Hp.
    apply NoDup_fst_map_to_list.
  - intros ch. unfold subscribers. rewrite list_elem_of_fmap. split.
    + intros ([ch' subs] & -> & [Hs Hin]%list_elem_of_filter). rewrite Hp in Hin.
      apply elem_of_map_to_list in Hin. simpl in *. by rewrite Hin.
    + destruct (channels_ w !! ch) as [subs|] eqn:Hc; simpl; [|set_solver]. intros Hs.
      exists (ch, subs). split; [done|]. apply list_elem_of_filter. split; [done|].
      rewrite Hp. by apply elem_of_map_to_list.
Qed.

(** * The invariant *)

Lemma broker_wf_removed m m' sid :
  broker_wf m ->
  (forall ch, m' !! ch = m !! ch \/
     m' !! ch = m !! ch ≫= (fun subs => keep_nonempty (remove_sub sid subs))) ->
  broker_wf m'.
Proof.
  intros [Hne Hnd Hcl] Hm. split; intros ch.
  - destruct (Hm ch) as [-> | ->]; [apply Hne|].
    destruct (m !! ch) as [subs|]; simpl; [|done]. by destruct (remove_sub sid subs).
  - destruct (Hm ch) as [Hch|Hch]; [unfold subscribers; rewrite Hch; apply Hnd|].
    rewrite (subscribers_removed m m' sid ch Hch). apply NoDup_filter, Hnd.
  - intros s Hs. apply Hcl. destruct (Hm ch) as [Hch|Hch]; rewrite Hch in Hs; [done|].
    destruct (m !! ch) as [subs|]; simpl in *; [|set_solver].
    rewrite default_keep_nonempty in Hs. by apply list_elem_of_filter in Hs as [_ ?].
Qed.

(** Invariant: no channel is kept without subscribers, no connection is on a channel
    twice, and every registered callback is the one its connection made for that channel;
    every operation of the broker preserves it. *)
Theorem broker_wf_preserved ch sid msg w :
  broker_wf (channels_ w) ->
  broker_wf (channels_ (snd (PubSubBroker_subscribe ch sid (MkWriteFn sid ch) w))) /\
  broker_wf (channels_ (snd (PubSubBroker_unsubscribe ch sid w))) /\
  broker_wf (channels_ (snd (PubSubBroker_unsubscribe_all sid w))) /\
  broker_wf (channels_ (snd (PubSubBroker_publish ch msg w))).
Proof.
  intros Hwf. split_and!.
  - destruct Hwf as [Hne Hnd Hcl]. split; intros ch'.
    + rewrite subscribe_lookup. case_decide; [|apply Hne]. cbv zeta. intros [= Hs].
      destruct (replace_sub _ _ _) as [subs'|] eqn:Hr; [|by destruct (default [] _)].
      apply replace_sub_ids in Hr as [Hr Hin]. rewrite Hs in Hr. simpl in Hr.
      rewrite <- Hr in Hin. set_solver.
    + rewrite subscribe_subscribers. cbv zeta. case_decide as Hc; [|apply Hnd].
      apply NoDup_app. split; [apply Hnd|]. split; [set_solver|apply NoDup_singleton].
    + rewrite subscribe_lookup. case_decide as Hc; [|apply Hcl]. subst ch'. simpl.
      intros s Hs. cbv zeta in Hs. destruct (replace_sub _ _ _) as [subs'|] eqn:Hr.
      * eapply replace_sub_elem in Hr as [Hin | ->]; [by apply Hcl|done|exact Hs].
      * apply elem_of_app in Hs as [Hin|Hs]; [by apply Hcl|].
        by apply list_elem_of_singleton in Hs as ->.
  - eapply broker_wf_removed; [exact Hwf|]. intros ch'. rewrite unsubscribe_lookup.
    case_decide; [right; by subst|by left].
  - eapply broker_wf_removed; [exact Hwf|]. intros ch'. right. apply unsubscribe_all_lookup.
  - by rewrite publish_run.
Qed.

(** PUBLISH hands one message frame to every subscriber of the channel, in the order
    of subscription, returns their number, and changes nothing else. *)
Lemma publish_frames ch msg w :
  broker_wf (channels_ w) ->
  PubSubBroker_publish ch msg w =
  (Ret (zlen (subscribers (channels_ w) ch)),
   add_posted (map (fun sid => (sid, make_message_frame ch msg)) (subscribers (channels_ w) ch)) w).
Proof.
  intros [_ _ Hcl]. rewrite publish_run. unfold subscribers. rewrite zlen_map, map_map.
  cbv zeta. do 2 f_equal. apply map_ext_in. intros s Hs. apply list_elem_of_In in Hs.
  by rewrite (Hcl ch s Hs).
Qed.
(** C32. The broker refines a table of subscriber lists: SUBSCRIBE appends the connection
    to the channel's list unless it is there, UNSUBSCRIBE takes it out, both return the
    length of the resulting list and touch no other channel; leaving all channels takes
    it out of every list and returns exactly the channels it was on, each once; and PUBLISH
    hands one message frame to every connection of the channel's list, in order, returns
    their number and changes nothing else. *)
Theorem broker_refines ch sid fn msg w :
  (let '(r, w') := PubSubBroker_subscribe ch sid fn w in
   r = Ret (zlen (subscribers (channels_ w') ch)) /\
   forall ch', subscribers (channels_ w') ch' =
     let l := subscribers (channels_ w) ch' in
     if decide (ch = ch' /\ sid ∉ l) then l ++ [sid] else l) /\
  (let '(r, w') := PubSubBroker_unsubscribe ch sid w in
   r = Ret (zlen (subscribers (channels_ w') ch)) /\
   forall ch', subscribers (channels_ w') ch' =
     if decide (ch = ch') then filter (.≠ sid) (subscribers (channels_ w) ch')
     else subscribers (channels_ w) ch') /\
  (let '(r, w') := PubSubBroker_unsubscribe_all sid w in
   (exists removed, r = Ret removed /\ NoDup removed /\
      forall ch', ch' ∈ removed <-> sid ∈ subscribers (channels_ w) ch') /\
   forall ch', subscribers (channels_ w') ch' = filter (.≠ sid) (subscribers (channels_ w) ch')) /\
  (broker_wf (channels_ w) ->
   PubSubBroker_publish ch msg w =
   (Ret (zlen (subscribers (channels_ w) ch)),
    add_posted (map (fun sid => (sid, make_message_frame ch msg)) (subscribers (channels_ w) ch)) w)).
Proof.
  rewrite (surjective_pairing (PubSubBroker_subscribe ch sid fn w)),
    (surjective_pairing (PubSubBroker_unsubscribe ch sid w)),
    (surjective_pairing (PubSubBroker_unsubscribe_all sid w)).
  split_and!.
  - apply subscribe_count.
  - intros ch'. apply subscribe_subscribers.
  - apply unsubscribe_count.
  - intros ch'. case_decide as Hch.
    + apply subscribers_removed. by rewrite unsubscribe_lookup, decide_True, Hch by done.
    + unfold subscribers. by rewrite unsubscribe_lookup, decide_False by done.
  - apply unsubscribe_all_removed.
  - intros ch'. apply subscribers_removed, unsubscribe_all_lookup.
  - apply publish_frames.
Qed.
End Broker.

(** * Witnesses *)

#[local] Existing Instance demo_runtime.

(** Connections 1 and 2 on a channel. *)
Definition demo_channels : World :=
  set_channels {["news"%b := [MkSubscriber 1 (MkWriteFn 1 "news"%b);
                              MkSubscriber 2 (MkWriteFn 2 "news"%b)]]} demo_world.

Lemma demo_channels_wf : broker_wf (channels_ demo_channels).
Proof.
  split; intros ch; unfold subscribers; cbn [channels_ demo_channels set_channels];
    rewrite lookup_singleton; case_decide; simpl; subst; try done.
  - apply NoDup_cons. split; [set_solver|apply NoDup_singleton].
  - apply NoDup_nil_2.
  - intros s. rewrite !elem_of_cons. intros [-> |[-> |Hs]]; try done. set_solver.
  - set_solver.
Qed.

Lemma broker_refines_witness :
  subscribers (channels_ (snd (PubSubBroker_unsubscribe "news"%b 1%nat demo_channels))) "news"%b
  = [2%nat] /\
  fst (PubSubBroker_publish "news"%b "hi"%b demo_channels) = Ret 2.
Proof.
  pose proof (broker_refines "news"%b 1%nat (MkWriteFn 1 "news"%b) "hi"%b demo_channels)
    as (_ & Hu & _ & Hp).
  rewrite (surjective_pairing (PubSubBroker_unsubscribe "news"%b 1%nat demo_channels)) in Hu.
  destruct Hu as [_ Hu]. rewrite Hu, (Hp demo_channels_wf). split; reflexivity.
Defined.

Lemma broker_wf_preserved_witness :
  broker_wf (channels_ (snd (PubSubBroker_unsubscribe_all 1%nat demo_channels))).
Proof.
  exact (proj1 (proj2 (proj2 (broker_wf_preserved "x"%b 1%nat "y"%b demo_channels
                                demo_channels_wf)))).
Defined.
