(* ===== verification/Mutex.v ===== *)
(** Objects protected by a mutex, on any number of threads.

    An operation is a program that takes the mutex, reads and writes the object's state in
    several steps, gives the mutex back, and may then call callbacks, which may call
    operations of the object again. A class states what an object's programs have to keep
    to; then every interleaving is linearizable and nobody waits for ever. *)

From stdpp Require Import relations.
From S2P Require Import Prelude.

(** * Programs *)

Inductive lprog (S R E : Type) :=
  | LRet (r : R)
  | LLock (k : lprog S R E)
  | LUnlock (k : lprog S R E)
  | LRead (k : S -> lprog S R E)
  | LWrite (f : S -> S) (k : lprog S R E)
  | LEmit (e : E) (k : lprog S R E).            (* call a callback *)
Arguments LRet {S R E} r.
Arguments LLock {S R E} k.
Arguments LUnlock {S R E} k.
Arguments LRead {S R E} k.
Arguments LWrite {S R E} f k.
Arguments LEmit {S R E} e k.

(** Alone, from state [s]: the reply, the callbacks called, and the state left. *)
Fixpoint leval {S R E} (p : lprog S R E) (s : S) : R * list E * S :=
  match p with
  | LRet r => (r, [], s)
  | LLock k | LUnlock k => leval k s
  | LRead k => leval (k s) s
  | LWrite f k => leval k (f s)
  | LEmit e k => let '(r, es, s) := leval k s in (r, e :: es, s)
  end.

(** Behind the critical section: only callbacks are left. *)
Fixpoint after {S R E} (p : lprog S R E) : option (R * list E) :=
  match p with
  | LRet r => Some (r, [])
  | LEmit e k => match after k with Some (r, es) => Some (r, e :: es) | None => None end
  | _ => None
  end.

Lemma after_leval {S R E} (p : lprog S R E) r es s : after p = Some (r, es) -> leval p s = (r, es, s).
Proof.
  revert r es. induction p as [r'| | | | |e k IH]; intros r es; cbn; try done.
  - by intros [= <- <-].
  - destruct (after k) as [[r' es']|]; [|done]. intros [= <- <-]. by rewrite (IH r' es').
Qed.

(** * Objects *)

(** [drift]: what the environment may do to the state at any time (a buffer that is written
    out); [resting]: the states between two operations; [grows]: an order every step
    respects; [within p s]: the state [s] in a critical section with [p] still to do. *)
Class MutexObject {Op S R E : Type} (body : Op -> lprog S R E) := {
  drift : S -> S -> Prop;
  resting : S -> Prop;
  grows : S -> S -> Prop;
  within_section : lprog S R E -> S -> Prop;
  grows_preorder :: PreOrder grows;
  drift_grows : forall s s', drift s s' -> grows s s';
  resting_drift : forall s s', resting s -> drift s s' -> s' = s;
  body_locks : forall op, exists k, body op = LLock k /\ forall s, resting s -> within_section k s;
  within_step : forall p s, within_section p s ->
    match p with
    | LRead k => within_section (k s) s
    | LWrite f k => grows s (f s) /\ within_section k (f s)
    | LUnlock k => is_Some (after k) /\ resting s
    | _ => False
    end;
  within_drift : forall p s s', within_section p s -> drift s s' ->
    within_section p s' /\ leval p s' = leval p s;
}.

(** * Threads *)

Inductive frame (Op S R E : Type) :=
  | FCall (op : Op)                             (* a call to make *)
  | FRun (c : nat) (op : Op) (p : lprog S R E). (* call number [c] with the rest of its program *)
Arguments FCall {Op S R E} op.
Arguments FRun {Op S R E} c op p.

Inductive event (Op R E : Type) :=
  | Invoked (c : nat) (op : Op)
  | Took (c : nat) (op : Op)                    (* gave the mutex back *)
  | Emitted (c : nat) (e : E)
  | Returned (c : nat) (op : Op) (r : R).
Arguments Invoked {Op R E} c op.
Arguments Took {Op R E} c op.
Arguments Emitted {Op R E} c e.
Arguments Returned {Op R E} c op r.

(** The state, the mutex with its holder, the stack of calls of every thread, the next call
    number and what has happened so far. *)
Record monitor (Op S R E : Type) := MkMonitor {
  mn_state : S;
  mn_mutex : option nat;
  mn_threads : gmap nat (list (frame Op S R E));
  mn_next : nat;
  mn_trace : list (event Op R E);
}.
Arguments MkMonitor {Op S R E}.
Arguments mn_state {Op S R E} _.
Arguments mn_mutex {Op S R E} _.
Arguments mn_threads {Op S R E} _.
Arguments mn_next {Op S R E} _.
Arguments mn_trace {Op S R E} _.

Section Machine.
Context {Op S R E : Type} (body : Op -> lprog S R E) `{!MutexObject body}.
Context (reenter : E -> list Op).
Implicit Types (s : S) (ths : gmap nat (list (frame Op S R E))) (tr : list (event Op R E)).

(** Steps of a thread, or of the environment. *)
Inductive mstep : option nat -> monitor Op S R E -> monitor Op S R E -> Prop :=
  | st_call i op st s mu ths n tr :
      ths !! i = Some (FCall op :: st) ->
      mstep (Some i) (MkMonitor s mu ths n tr)
        (MkMonitor s mu (<[i := FRun n op (body op) :: st]> ths) (1 + n) (tr ++ [Invoked n op]))
  | st_lock i c op k st s ths n tr :
      ths !! i = Some (FRun c op (LLock k) :: st) ->
      mstep (Some i) (MkMonitor s None ths n tr) (MkMonitor s (Some i) (<[i := FRun c op k :: st]> ths) n tr)
  | st_unlock i c op k st s mu ths n tr :
      ths !! i = Some (FRun c op (LUnlock k) :: st) ->
      mstep (Some i) (MkMonitor s mu ths n tr)
        (MkMonitor s None (<[i := FRun c op k :: st]> ths) n (tr ++ [Took c op]))
  | st_read i c op k st s mu ths n tr :
      ths !! i = Some (FRun c op (LRead k) :: st) ->
      mstep (Some i) (MkMonitor s mu ths n tr) (MkMonitor s mu (<[i := FRun c op (k s) :: st]> ths) n tr)
  | st_write i c op f k st s mu ths n tr :
      ths !! i = Some (FRun c op (LWrite f k) :: st) ->
      mstep (Some i) (MkMonitor s mu ths n tr) (MkMonitor (f s) mu (<[i := FRun c op k :: st]> ths) n tr)
  | st_emit i c op e k st s mu ths n tr :
      ths !! i = Some (FRun c op (LEmit e k) :: st) ->
      mstep (Some i) (MkMonitor s mu ths n tr)
        (MkMonitor s mu (<[i := map FCall (reenter e) ++ FRun c op k :: st]> ths) n
           (tr ++ [Emitted c e]))
  | st_return i c op r st s mu ths n tr :
      ths !! i = Some (FRun c op (LRet r) :: st) ->
      mstep (Some i) (MkMonitor s mu ths n tr) (MkMonitor s mu (<[i := st]> ths) n (tr ++ [Returned c op r]))
  | st_drift s s' mu ths n tr :
      drift s s' -> mstep None (MkMonitor s mu ths n tr) (MkMonitor s' mu ths n tr).

Definition reaches (m m' : monitor Op S R E) : Prop := rtc (fun a b => exists who, mstep who a b) m m'.

(** Threads with calls to make. *)
Definition monitor_start (s : S) (calls : gmap nat (list Op)) : monitor Op S R E :=
  MkMonitor s None (fmap (map FCall) calls) 0 [].

(** * Sequential histories *)

(** A call with its number, its operation, its reply and the callbacks it called. *)
Record entry := MkEntryOf { en_call : nat; en_op : Op; en_reply : R; en_emitted : list E }.
Definition en_key (en : entry) : nat * Op := (en_call en, en_op en).

Inductive history (s0 : S) : list entry -> S -> Prop :=
  | history_nil : history s0 [] s0
  | history_snoc lin s c op r es s' :
      history s0 lin s -> leval (body op) s = (r, es, s') ->
      history s0 (lin ++ [MkEntryOf c op r es]) s'.

(** Calls in the order in which they gave the mutex back. *)
Definition took tr : list (nat * Op) :=
  omap (fun ev => match ev with Took c op => Some (c, op) | _ => None end) tr.

(** The callbacks call [c] has called. *)
Definition emitted (c : nat) tr : list E :=
  omap (fun ev => match ev with
                  | Emitted c' e => if decide (c' = c) then Some e else None
                  | _ => None
                  end) tr.


(** A call takes effect after its invocation, and calls callbacks and returns after that. *)
Definition caused (before : list (event Op R E)) (ev : event Op R E) : Prop :=
  match ev with
  | Invoked _ _ => True
  | Took c op => Invoked c op ∈ before
  | Emitted c _ => exists op, Took c op ∈ before
  | Returned c op _ => Took c op ∈ before
  end.

Definition ordered tr : Prop := forall tr1 ev tr2, tr = tr1 ++ ev :: tr2 -> caused tr1 ev.

Lemma ordered_snoc tr ev : ordered tr -> caused tr ev -> ordered (tr ++ [ev]).
Proof.
  intros Ho Hc tr1 ev' tr2 Heq. destruct tr2 as [|x tr2 _] using rev_ind.
  - by apply app_inj_tail in Heq as [<- <-].
  - rewrite app_comm_cons, app_assoc in Heq. apply app_inj_tail in Heq as [-> _]. by eapply Ho.
Qed.

Lemma took_app tr tr' : took (tr ++ tr') = took tr ++ took tr'.
Proof. apply omap_app. Qed.

Lemma emitted_app c tr tr' : emitted c (tr ++ tr') = emitted c tr ++ emitted c tr'.
Proof. apply omap_app. Qed.

Lemma elem_of_took tr c op : (c, op) ∈ took tr <-> Took c op ∈ tr.
Proof.
  unfold took. rewrite list_elem_of_omap. split.
  - intros ([] & Hin & Heq); by simplify_eq.
  - intros Hin. by eexists.
Qed.

(** * Running *)

(** The step of thread [i], if it can make one. *)
Definition next (i : nat) (m : monitor Op S R E) : option (monitor Op S R E) :=
  let '(MkMonitor s mu ths n tr) := m in
  match ths !! i with
  | Some (FCall op :: st) =>
      Some (MkMonitor s mu (<[i := FRun n op (body op) :: st]> ths) (1 + n) (tr ++ [Invoked n op]))
  | Some (FRun c op p :: st) =>
      let go p := <[i := FRun c op p :: st]> ths in
      match p with
      | LRet r => Some (MkMonitor s mu (<[i := st]> ths) n (tr ++ [Returned c op r]))
      | LLock k => match mu with None => Some (MkMonitor s (Some i) (go k) n tr) | Some _ => None end
      | LUnlock k => Some (MkMonitor s None (go k) n (tr ++ [Took c op]))
      | LRead k => Some (MkMonitor s mu (go (k s)) n tr)
      | LWrite f k => Some (MkMonitor (f s) mu (go k) n tr)
      | LEmit e k =>
          Some (MkMonitor s mu (<[i := map FCall (reenter e) ++ FRun c op k :: st]> ths) n
                  (tr ++ [Emitted c e]))
      end
  | _ => None
  end.

Fixpoint play (schedule : list nat) (m : monitor Op S R E) : option (monitor Op S R E) :=
  match schedule with
  | [] => Some m
  | i :: schedule => next i m ≫= play schedule
  end.

(** Thread [i] going on alone from [m] gets to [m']. *)
Definition alone (i : nat) (m m' : monitor Op S R E) : Prop :=
  exists schedule, Forall (.= i) schedule /\ play schedule m = Some m'.
End Machine.
Arguments entry Op R E : clear implicits.
Arguments took {Op R E} tr : simpl never.
Arguments emitted {Op R E} c tr : simpl never.

(** * Plain objects *)

(** A program whose critical section reads and writes and is left for good. *)
Fixpoint sectioned {S R E} (p : lprog S R E) : Prop :=
  match p with
  | LUnlock k => is_Some (after k)
  | LRead k => forall s, sectioned (k s)
  | LWrite _ k => sectioned k
  | _ => False
  end.

(** Nobody but the operations touches the state, and any state may be at rest. *)
Definition plain_object {Op S R E} (body : Op -> lprog S R E)
    (locks : forall op, exists k, body op = LLock k /\ sectioned k) : MutexObject body.
Proof.
  refine {| drift := fun _ _ => False; resting := fun _ => True; grows := fun _ _ => True;
            within_section := fun p _ => sectioned p |}.
  - split; done.
  - done.
  - done.
  - intros op. destruct (locks op) as (k & Hk & Hs). by exists k.
  - intros [] s Hp; cbn in *; done.
  - done.
Defined.
