(* ===== verification/MutexLin.v ===== *)
(** Every interleaving of the operations of an object under a mutex is linearizable: the
    calls take effect one after the other, in the order in which they give the mutex back. *)

From stdpp Require Import relations.
From S2P Require Import Prelude Mutex.

Section Machine.
Context {Op S R E : Type} (body : Op -> lprog S R E) `{!MutexObject body}.
Context (reenter : E -> list Op).
Implicit Types (s : S) (ths : gmap nat (list (frame Op S R E))) (tr : list (event Op R E)).
Abbreviation entry := (Mutex.entry Op R E).
Abbreviation history := (history body).
Abbreviation mstep := (mstep body reenter).
Abbreviation reaches := (reaches body reenter).

(** * Call numbers *)

Definition frame_id (f : frame Op S R E) : option nat :=
  match f with FRun c _ _ => Some c | FCall _ => None end.
Definition stack_ids (st : list (frame Op S R E)) : list nat := omap frame_id st.
Definition all_ids ths : list nat := concat (map (fun it => stack_ids (snd it)) (map_to_list ths)).

Lemma all_ids_insert i st ths : all_ids (<[i := st]> ths) ≡ₚ stack_ids st ++ all_ids (delete i ths).
Proof.
  unfold all_ids. rewrite <- insert_delete_eq, map_to_list_insert by apply lookup_delete_eq. done.
Qed.

Lemma all_ids_lookup i st ths :
  ths !! i = Some st -> all_ids ths ≡ₚ stack_ids st ++ all_ids (delete i ths).
Proof. intros Hi. by rewrite <- all_ids_insert, insert_id. Qed.

Lemma stack_ids_calls ops st : stack_ids (map FCall ops ++ st) = stack_ids st.
Proof. induction ops; done. Qed.

(** The other calls keep their numbers when the first frame of a stack goes on or returns. *)
Lemma all_ids_run i c op p st st' ths :
  ths !! i = Some (FRun c op p :: st) -> stack_ids st' = c :: stack_ids st ->
  all_ids (<[i := st']> ths) ≡ₚ all_ids ths.
Proof. intros Hi Hst. by rewrite (all_ids_lookup i _ _ Hi), all_ids_insert, Hst. Qed.

Lemma all_ids_pop i c op p st ths :
  ths !! i = Some (FRun c op p :: st) -> all_ids ths ≡ₚ c :: all_ids (<[i := st]> ths).
Proof. intros Hi. by rewrite (all_ids_lookup i _ _ Hi), all_ids_insert. Qed.

Lemma all_ids_call i n op p st ths :
  ths !! i = Some (FCall op :: st) -> all_ids (<[i := FRun n op p :: st]> ths) ≡ₚ n :: all_ids ths.
Proof. intros Hi. by rewrite (all_ids_lookup i _ _ Hi), all_ids_insert. Qed.

Lemma frame_in_ids i st ths c op p :
  ths !! i = Some st -> FRun c op p ∈ st -> c ∈ all_ids ths.
Proof.
  intros Hi Hf. rewrite (all_ids_lookup i st ths Hi). apply elem_of_app. left.
  apply list_elem_of_omap. by exists (FRun c op p).
Qed.

(** A call number occurs once. *)
Lemma same_frame i c op p st j st' c' op' p' ths :
  NoDup (all_ids ths) -> ths !! i = Some (FRun c op p :: st) -> ths !! j = Some st' ->
  FRun c' op' p' ∈ (if decide (j = i) then st else st') -> c' <> c.
Proof.
  intros Hnd Hi Hj Hin ->. rewrite (all_ids_lookup i _ _ Hi) in Hnd. simpl in Hnd.
  apply NoDup_cons in Hnd as [Hn _]. apply Hn, elem_of_app. case_decide as Hji.
  - left. apply list_elem_of_omap. by exists (FRun c op' p').
  - right. apply (frame_in_ids j st' _ c op' p'); [|done]. by rewrite lookup_delete_ne.
Qed.

Lemma same_entry (lin : list entry) en en' :
  NoDup (map en_call lin) -> en ∈ lin -> en' ∈ lin -> en_call en = en_call en' -> en = en'.
Proof.
  induction lin as [|en0 lin IH]; cbn; [set_solver|]. intros [Hn Hnd]%NoDup_cons.
  intros [-> |H1]%elem_of_cons [-> |H2]%elem_of_cons Heq; auto; destruct Hn;
    [rewrite Heq|rewrite <- Heq]; by apply (list_elem_of_fmap_2 en_call).
Qed.

(** * The invariant *)

(** A frame outside of the critical section: it has not begun, or it has taken effect and
    has callbacks to call. *)
Definition frame_ok (lin : list entry) tr (f : frame Op S R E) : Prop :=
  match f with
  | FCall _ => True
  | FRun c op p =>
      Invoked c op ∈ tr /\
      (p = body op /\ c ∉ map en_call lin /\ emitted c tr = [] \/
       exists r es, after p = Some (r, es) /\ MkEntryOf c op r (emitted c tr ++ es) ∈ lin)
  end.

(** The frames of thread [i] but the one in the critical section. *)
Definition outside (mu : option nat) (i : nat) (st : list (frame Op S R E)) : list (frame Op S R E) :=
  if decide (mu = Some i) then tail st else st.

Definition section_ok (lin : list entry) (base : S) (m : monitor Op S R E) : Prop :=
  match mn_mutex m with
  | None => mn_state m = base
  | Some i =>
      exists c op p st, mn_threads m !! i = Some (FRun c op p :: st) /\
        within_section p (mn_state m) /\ grows base (mn_state m) /\
        leval p (mn_state m) = leval (body op) base /\
        Invoked c op ∈ mn_trace m /\ c ∉ map en_call lin /\ emitted c (mn_trace m) = []
  end.

Record monitor_inv (s0 : S) (lin : list entry) (base : S) (m : monitor Op S R E) : Prop := {
  mi_history : history s0 lin base;
  mi_resting : resting base;
  mi_took : took (mn_trace m) = map en_key lin;
  mi_section : section_ok lin base m;
  mi_frames : forall i st, mn_threads m !! i = Some st ->
    Forall (frame_ok lin (mn_trace m)) (outside (mn_mutex m) i st);
  mi_ids : NoDup (all_ids (mn_threads m));
  mi_calls : NoDup (map en_call lin);
  mi_next : forall c, mn_next m <= c ->
    c ∉ all_ids (mn_threads m) /\ c ∉ map en_call lin /\ emitted c (mn_trace m) = [];
  mi_ordered : ordered (mn_trace m);
  mi_returned : forall c op r, Returned c op r ∈ mn_trace m ->
    MkEntryOf c op r (emitted c (mn_trace m)) ∈ lin /\ c ∉ all_ids (mn_threads m);
  mi_emitted : forall en, en ∈ lin -> emitted (en_call en) (mn_trace m) `prefix_of` en_emitted en;
}.

Definition linearized (s0 : S) (m : monitor Op S R E) : Prop :=
  exists lin base, monitor_inv s0 lin base m.

Lemma all_ids_start (calls : gmap nat (list Op)) :
  all_ids (fmap (map FCall) calls : gmap nat (list (frame Op S R E))) = [].
Proof.
  unfold all_ids. rewrite map_to_list_fmap, map_map. induction (map_to_list calls) as [|[i ops] l IH];
    [done|]. cbn. rewrite <- (app_nil_r (map FCall ops)), stack_ids_calls. done.
Qed.

Lemma linearized_start s0 calls : resting s0 -> linearized s0 (monitor_start s0 calls).
Proof.
  intros Hr. exists [], s0. split; cbn; try done.
  - constructor.
  - intros i st. rewrite lookup_fmap. destruct (calls !! i) as [ops|]; [|done]. intros [= <-].
    unfold outside. rewrite decide_False by done. apply Forall_map, Forall_true. done.
  - rewrite all_ids_start. constructor.
  - constructor.
  - intros c _. rewrite all_ids_start. split_and!; [apply not_elem_of_nil..|done].
  - intros [] ? ?; done.
  - by intros c op r ?%elem_of_nil.
  - by intros en ?%elem_of_nil.
Qed.

(** * Steps *)

(** The other frames do not notice what call [c] does. *)
Definition unnoticed (c : nat) (lin lin' : list entry) tr tr' : Prop :=
  (forall ev, ev ∈ tr -> ev ∈ tr') /\ (forall en, en ∈ lin -> en ∈ lin') /\
  forall c', c' <> c -> emitted c' tr' = emitted c' tr /\
    (c' ∉ map en_call lin -> c' ∉ map en_call lin').

Lemma unnoticed_refl c lin tr : unnoticed c lin lin tr tr.
Proof. done. Qed.

Lemma unnoticed_event c lin tr ev :
  (forall c', c' <> c -> emitted c' [ev] = []) -> unnoticed c lin lin tr (tr ++ [ev]).
Proof.
  intros He. split_and!; [set_solver|done|]. intros c' Hc. split; [|done].
  by rewrite emitted_app, He, app_nil_r.
Qed.

Lemma frame_ok_other c lin lin' tr tr' f :
  unnoticed c lin lin' tr tr' -> frame_id f <> Some c -> frame_ok lin tr f -> frame_ok lin' tr' f.
Proof.
  intros (Htr & Hlin & Hother). destruct f as [op|c' op p]; [done|]. cbn [frame_id frame_ok].
  intros Hc [Hi Hp]. destruct (Hother c') as [He Hn]; [congruence|]. split; [auto|].
  rewrite He. destruct Hp as [(-> & Hl & Hem)|(r & es & Ha & Hl)]; [left|right]; eauto 10.
Qed.

Section Step.
Context (s0 : S) (lin : list entry) (base s : S) (mu : option nat) (n : nat).
Context (ths : gmap nat (list (frame Op S R E))) (tr : list (event Op R E)).
Context (Hinv : monitor_inv s0 lin base (MkMonitor s mu ths n tr)).

(** The frames below the first. *)
Lemma below_ok i f st : ths !! i = Some (f :: st) -> Forall (frame_ok lin tr) st.
Proof.
  intros Hi. pose proof (mi_frames _ _ _ _ Hinv i _ Hi) as Hf. unfold outside in Hf. cbn in Hf.
  case_decide; [done|]. by apply Forall_cons in Hf as [_ ?].
Qed.

Context (i c : nat) (op : Op) (p : lprog S R E) (st : list (frame Op S R E)).
Context (Hi : ths !! i = Some (FRun c op p :: st)).

(** The first frame is in the critical section or not. *)
Lemma head_cases :
  mu = Some i /\ within_section p s /\ grows base s /\ leval p s = leval (body op) base /\
    Invoked c op ∈ tr /\ c ∉ map en_call lin /\ emitted c tr = [] \/
  mu <> Some i /\ frame_ok lin tr (FRun c op p).
Proof.
  pose proof (mi_section _ _ _ _ Hinv) as Hs. unfold section_ok in Hs. cbn in Hs.
  destruct (decide (mu = Some i)) as [->|Hmu].
  - left. destruct Hs as (c' & op' & p' & st' & Hi' & Hs). rewrite Hi in Hi'.
    injection Hi' as <- <- <- _. by split.
  - right. split; [done|]. pose proof (mi_frames _ _ _ _ Hinv i _ Hi) as Hf. unfold outside in Hf.
    cbn in Hf. rewrite decide_False in Hf by done. by apply Forall_cons in Hf as [? _].
Qed.

Lemma others_ok mu' lin' tr' st' :
  (forall j, j <> i -> mu' = Some j <-> mu = Some j) -> unnoticed c lin lin' tr tr' ->
  (Forall (frame_ok lin' tr') st -> Forall (frame_ok lin' tr') (outside mu' i st')) ->
  forall j st0, <[i := st']> ths !! j = Some st0 -> Forall (frame_ok lin' tr') (outside mu' j st0).
Proof.
  intros Hmu Hun Hhead j st0. rewrite lookup_insert_Some. intros [[<- <-]|[Hne Hj]].
  - apply Hhead. pose proof (below_ok i _ st Hi) as Hst. rewrite Forall_forall in Hst |- *.
    intros f Hf. apply (frame_ok_other c lin _ tr); [done| |by apply Hst].
    destruct f as [|c' op' p']; [done|]. cbn. intros [= Hc].
    apply (same_frame i c op p st i _ c' op' p' ths (mi_ids _ _ _ _ Hinv) Hi Hi); [|done].
    by rewrite decide_True.
  - pose proof (mi_frames _ _ _ _ Hinv j _ Hj) as Hf. cbn in Hf.
    assert (outside mu' j st0 = outside mu j st0) as ->.
    { unfold outside. apply decide_ext. by apply Hmu. }
    rewrite Forall_forall in Hf |- *. intros f Hin.
    apply (frame_ok_other c lin _ tr); [done| |by apply Hf].
    destruct f as [|c' op' p']; [done|]. cbn. intros [= Hc].
    apply (same_frame i c op p st j st0 c' op' p' ths (mi_ids _ _ _ _ Hinv) Hi Hj); [|done].
    rewrite decide_False by done. unfold outside in Hin. case_decide; [|done].
    destruct st0; [done|]. by apply elem_of_cons; right.
Qed.
End Step.

Lemma inv_call s0 lin base s mu ths n tr i op st :
  monitor_inv s0 lin base (MkMonitor s mu ths n tr) -> ths !! i = Some (FCall op :: st) ->
  linearized s0 (MkMonitor s mu (<[i := FRun n op (body op) :: st]> ths) (1 + n)
                   (tr ++ [Invoked n op])).
Proof.
  intros Hinv Hi. pose proof Hinv as [Hh Hr Ht Hs Hf Hid Hcl Hn Ho Hret Hpre]. cbn in *.
  destruct (Hn n (le_n n)) as (Hnid & Hnlin & Hnem).
  assert (mu <> Some i) as Hmu.
  { intros ->. destruct Hs as (c & op' & p & st' & Hi' & _). cbn in Hi'. congruence. }
  assert (forall c', emitted c' (tr ++ [Invoked n op]) = emitted c' tr) as Hem.
  { intros c'. by rewrite emitted_app, app_nil_r. }
  assert (unnoticed n lin lin tr (tr ++ [Invoked n op])) as Hun by by apply unnoticed_event.
  exists lin, base. split; cbn; try done.
  - by rewrite took_app, app_nil_r.
  - unfold section_ok in *. cbn in *. destruct mu as [j|]; [|done].
    destruct Hs as (c & op' & p & st' & Hj & H1 & H2 & H3 & H4 & H5 & H6).
    exists c, op', p, st'. rewrite lookup_insert_ne by congruence. rewrite Hem.
    split_and!; try done. set_solver.
  - assert (forall j st', ths !! j = Some st' ->
      Forall (frame_ok lin (tr ++ [Invoked n op])) (outside mu j st')) as Hf'.
    { intros j st' Hj. specialize (Hf j st' Hj). rewrite Forall_forall in Hf |- *. intros f Hin.
      apply (frame_ok_other n lin lin tr); [done| |by apply Hf]. destruct f as [|c' op' p']; [done|].
      cbn. intros [= ->]. apply Hnid. apply (frame_in_ids j st' ths n op' p'); [done|].
      unfold outside in Hin. case_decide; [|done]. destruct st'; [done|]. by apply elem_of_cons; right. }
    intros j st'. rewrite lookup_insert_Some. intros [[<- <-]|[Hne Hj]]; [|by apply Hf'].
    specialize (Hf' i _ Hi). unfold outside in *. rewrite decide_False in * by done.
    apply Forall_cons in Hf' as [_ Hst]. constructor; [|done]. cbn. rewrite Hem.
    split; [set_solver|]. by left.
  - rewrite (all_ids_call i n op _ st) by done. by apply NoDup_cons.
  - intros c Hc. rewrite (all_ids_call i n op _ st) by done. rewrite Hem.
    destruct (Hn c ltac:(lia)) as (H1 & H2 & H3). split_and!; [|done..].
    rewrite not_elem_of_cons. split; [lia|done].
  - by apply ordered_snoc.
  - intros c op' r Hin. apply elem_of_app in Hin as [Hin|Hin]; [|by apply list_elem_of_singleton in Hin].
    destruct (Hret c op' r Hin) as [H1 H2]. rewrite Hem. split; [done|].
    rewrite (all_ids_call i n op _ st) by done. rewrite not_elem_of_cons. split; [|done]. intros ->.
    apply Hnlin. by apply (list_elem_of_fmap_2 en_call) in H1.
  - intros en Hen. rewrite Hem. by apply Hpre.
Qed.

(** A step of the thread in the critical section. *)
Lemma inv_inside s0 lin base s ths n tr i c op p st s' p' :
  monitor_inv s0 lin base (MkMonitor s (Some i) ths n tr) -> ths !! i = Some (FRun c op p :: st) ->
  within_section p' s' -> grows s s' -> leval p' s' = leval p s ->
  linearized s0 (MkMonitor s' (Some i) (<[i := FRun c op p' :: st]> ths) n tr).
Proof.
  intros Hinv Hi Hw Hg He. pose proof Hinv as [Hh Hr Ht Hs Hf Hid Hcl Hn Ho Hret Hpre]. cbn in *.
  destruct (head_cases _ _ _ _ _ _ _ _ Hinv _ _ _ _ _ Hi) as [(_ & H1 & H2 & H3 & H4 & H5 & H6)|[]];
    [|done].
  assert (all_ids (<[i := FRun c op p' :: st]> ths) ≡ₚ all_ids ths) as Hids by by eapply all_ids_run.
  exists lin, base. split; cbn; try done.
  - exists c, op, p', st. cbn. rewrite lookup_insert_eq. split_and!; try done; [by etrans|congruence].
  - eapply (others_ok _ _ _ _ _ _ _ _ Hinv i c op p st Hi); [done|apply unnoticed_refl|].
    unfold outside. by rewrite decide_True.
  - by rewrite Hids.
  - intros c' Hc. rewrite Hids. by apply Hn.
  - intros c' op' r Hin. rewrite Hids. by eapply Hret.
Qed.

Lemma inv_lock s0 lin base s ths n tr i c op k st :
  monitor_inv s0 lin base (MkMonitor s None ths n tr) -> ths !! i = Some (FRun c op (LLock k) :: st) ->
  linearized s0 (MkMonitor s (Some i) (<[i := FRun c op k :: st]> ths) n tr).
Proof.
  intros Hinv Hi. pose proof Hinv as [Hh Hr Ht Hs Hf Hid Hcl Hn Ho Hret Hpre]. cbn in *.
  destruct (head_cases _ _ _ _ _ _ _ _ Hinv _ _ _ _ _ Hi) as [[]|[_ [H4 Hp]]]; [done|].
  destruct Hp as [(Hp & H5 & H6)|(r & es & Ha & _)]; [|done].
  destruct (body_locks op) as (k' & Hk' & Hw). rewrite Hk' in Hp. injection Hp as <-.
  assert (all_ids (<[i := FRun c op k :: st]> ths) ≡ₚ all_ids ths) as Hids by by eapply all_ids_run.
  unfold section_ok in Hs. cbn in Hs. subst s.
  exists lin, base. split; cbn; try done.
  - exists c, op, k, st. cbn. rewrite lookup_insert_eq. split_and!; try done; [by apply Hw|].
    by rewrite Hk'.
  - eapply (others_ok _ _ _ _ _ _ _ _ Hinv i c op _ st Hi); [|apply unnoticed_refl|].
    + intros j Hj. split; congruence.
    + unfold outside. by rewrite decide_True.
  - by rewrite Hids.
  - intros c' Hc. rewrite Hids. by apply Hn.
  - intros c' op' r Hin. rewrite Hids. by eapply Hret.
Qed.

(** The call takes effect. *)
Lemma inv_unlock s0 lin base s mu ths n tr i c op k st :
  monitor_inv s0 lin base (MkMonitor s mu ths n tr) -> ths !! i = Some (FRun c op (LUnlock k) :: st) ->
  linearized s0 (MkMonitor s None (<[i := FRun c op k :: st]> ths) n (tr ++ [Took c op])).
Proof.
  intros Hinv Hi. pose proof Hinv as [Hh Hr Ht Hs Hf Hid Hcl Hn Ho Hret Hpre]. cbn in *.
  destruct (head_cases _ _ _ _ _ _ _ _ Hinv _ _ _ _ _ Hi)
    as [(-> & H1 & H2 & H3 & H4 & H5 & H6)|[_ [_ [(Hp & _)|(r & es & Ha & _)]]]]; [| |done].
  2: { destruct (body_locks op) as (k' & Hk' & _). congruence. }
  apply within_step in H1 as [[[r es] Ha] Hrest].
  cbn in H3. rewrite (after_leval k r es s Ha) in H3.
  assert (all_ids (<[i := FRun c op k :: st]> ths) ≡ₚ all_ids ths) as Hids by by eapply all_ids_run.
  assert (forall c', emitted c' (tr ++ [Took c op]) = emitted c' tr) as Hem.
  { intros c'. by rewrite emitted_app, app_nil_r. }
  assert (unnoticed c lin (lin ++ [MkEntryOf c op r es]) tr (tr ++ [Took c op])) as Hun.
  { split_and!; [set_solver..|]. intros c' Hc. split; [done|]. rewrite map_app. set_solver. }
  exists (lin ++ [MkEntryOf c op r es]), s. split; cbn; try done.
  - by eapply history_snoc.
  - by rewrite took_app, map_app, Ht.
  - eapply (others_ok _ _ _ _ _ _ _ _ Hinv i c op _ st Hi); [|done|].
    + intros j Hj. split; congruence.
    + unfold outside. rewrite decide_False by done. intros Hst. constructor; [|done]. cbn.
      rewrite Hem, H6. split; [set_solver|]. right. exists r, es. split; [done|]. set_solver.
  - by rewrite Hids.
  - rewrite map_app. apply NoDup_app. split_and!; [done| |apply NoDup_singleton]. set_solver.
  - intros c' Hc. rewrite Hids, Hem, map_app. destruct (Hn c' Hc) as (Ha1 & Ha2 & Ha3).
    split_and!; [done| |done]. cbn. intros [Hin|Hin]%elem_of_app; [done|].
    apply list_elem_of_singleton in Hin as ->. apply Ha1. eapply frame_in_ids; [done|]. by left.
  - by apply ordered_snoc.
  - intros c' op' r' Hin. apply elem_of_app in Hin as [Hin|Hin]; [|by apply list_elem_of_singleton in Hin].
    destruct (Hret c' op' r' Hin). rewrite Hids, Hem. set_solver.
  - intros en [Hen|Hen]%elem_of_app; rewrite Hem; [by apply Hpre|].
    apply list_elem_of_singleton in Hen as ->. cbn. rewrite H6. apply prefix_nil.
Qed.

(** A frame with a callback to call or a reply to return has taken effect. *)
Lemma head_after s0 lin base s mu ths n tr i c op p st :
  monitor_inv s0 lin base (MkMonitor s mu ths n tr) -> ths !! i = Some (FRun c op p :: st) ->
  match p with LEmit _ _ | LRet _ => True | _ => False end ->
  mu <> Some i /\ Invoked c op ∈ tr /\
  exists r es, after p = Some (r, es) /\ MkEntryOf c op r (emitted c tr ++ es) ∈ lin.
Proof.
  intros Hinv Hi Hp.
  destruct (head_cases _ _ _ _ _ _ _ _ Hinv _ _ _ _ _ Hi)
    as [(_ & H1 & _)|[Hmu [Hinvoked [(Heq & _)|Ha]]]]; [| |done].
  - by apply within_step in H1; destruct p.
  - destruct (body_locks op) as (k' & Hk' & _). rewrite Hk' in Heq. by subst p.
Qed.

(** A frame that reads or writes the state is in the critical section. *)
Lemma head_inside s0 lin base s mu ths n tr i c op p st :
  monitor_inv s0 lin base (MkMonitor s mu ths n tr) -> ths !! i = Some (FRun c op p :: st) ->
  match p with LRead _ | LWrite _ _ | LUnlock _ => True | _ => False end ->
  mu = Some i /\ within_section p s.
Proof.
  intros Hinv Hi Hp.
  destruct (head_cases _ _ _ _ _ _ _ _ Hinv _ _ _ _ _ Hi)
    as [(-> & H1 & _)|[_ [_ [(Heq & _)|(r & es & Ha & _)]]]]; [done| |by destruct p].
  destruct (body_locks op) as (k' & Hk' & _). rewrite Hk' in Heq. by subst p.
Qed.

Lemma section_ok_other lin base s mu ths n tr tr' i c op p st st' :
  NoDup (all_ids ths) -> ths !! i = Some (FRun c op p :: st) -> mu <> Some i ->
  unnoticed c lin lin tr tr' -> section_ok lin base (MkMonitor s mu ths n tr) ->
  section_ok lin base (MkMonitor s mu (<[i := st']> ths) n tr').
Proof.
  intros Hnd Hi Hmu (Htr & _ & Hoth). unfold section_ok. cbn. destruct mu as [j|]; [|done].
  intros (c' & op' & p' & st'' & Hj & H1 & H2 & H3 & H4 & H5 & H6).
  assert (c' <> c) as Hc.
  { apply (same_frame i c op p st j _ c' op' p' ths Hnd Hi Hj). rewrite decide_False by congruence.
    by left. }
  exists c', op', p', st''. rewrite lookup_insert_ne by congruence.
  destruct (Hoth c' Hc) as [-> _]. split_and!; auto.
Qed.

Lemma inv_emit s0 lin base s mu ths n tr i c op e k st :
  monitor_inv s0 lin base (MkMonitor s mu ths n tr) -> ths !! i = Some (FRun c op (LEmit e k) :: st) ->
  linearized s0 (MkMonitor s mu (<[i := map FCall (reenter e) ++ FRun c op k :: st]> ths) n
                   (tr ++ [Emitted c e])).
Proof.
  intros Hinv Hi. pose proof Hinv as [Hh Hr Ht Hs Hf Hid Hcl Hn Ho Hret Hpre]. cbn in *.
  destruct (head_after _ _ _ _ _ _ _ _ _ _ _ _ _ Hinv Hi I) as (Hmu & H4 & r & es & Ha & Hlin).
  cbn in Ha. destruct (after k) as [[r' es']|] eqn:Hk; [|done]. injection Ha as -> <-.
  assert (all_ids (<[i := map FCall (reenter e) ++ FRun c op k :: st]> ths) ≡ₚ all_ids ths) as Hids.
  { eapply all_ids_run; [done|]. by rewrite stack_ids_calls. }
  assert (emitted c (tr ++ [Emitted c e]) = emitted c tr ++ [e]) as Hemc.
  { rewrite emitted_app. unfold emitted at 2. cbn. by rewrite decide_True. }
  assert (forall c', c' <> c -> emitted c' [Emitted c e : event Op R E] = []) as Heme.
  { intros c' Hc. unfold emitted. cbn. by rewrite decide_False. }
  assert (forall c', c' <> c -> emitted c' (tr ++ [Emitted c e]) = emitted c' tr) as Hem.
  { intros c' Hc. by rewrite emitted_app, Heme, app_nil_r. }
  pose proof (unnoticed_event c lin tr _ Heme) as Hun.
  assert (Took c op ∈ tr) as Htook.
  { apply elem_of_took. rewrite Ht. by apply (list_elem_of_fmap_2 en_key) in Hlin. }
  assert (c ∈ all_ids ths) as Hcin by (eapply frame_in_ids; [done|by left]).
  exists lin, base. split; cbn; try done.
  - by rewrite took_app, app_nil_r.
  - by eapply section_ok_other.
  - eapply (others_ok _ _ _ _ _ _ _ _ Hinv i c op _ st Hi); [done|done|].
    unfold outside. rewrite decide_False by done. intros Hst.
    apply Forall_app. split; [apply Forall_map, Forall_true; done|]. constructor; [|done].
    cbn. rewrite Hemc. split; [set_solver|]. right. exists r, es'. by rewrite <- app_assoc.
  - by rewrite Hids.
  - intros c' Hc. destruct (Hn c' Hc) as (H1 & H2 & H3). rewrite Hids, Hem by congruence. done.
  - apply ordered_snoc; [done|]. by exists op.
  - intros c' op' r' Hin. apply elem_of_app in Hin as [Hin|Hin]; [|by apply list_elem_of_singleton in Hin].
    destruct (Hret c' op' r' Hin). rewrite Hids, Hem by congruence. done.
  - intros en Hen. destruct (decide (en_call en = c)) as [Hc|Hc]; [|rewrite Hem by done; by apply Hpre].
    assert (en = MkEntryOf c op r (emitted c tr ++ e :: es')) as -> by by eapply same_entry.
    cbn. rewrite Hemc. exists es'. by rewrite <- app_assoc.
Qed.

Lemma inv_return s0 lin base s mu ths n tr i c op r st :
  monitor_inv s0 lin base (MkMonitor s mu ths n tr) -> ths !! i = Some (FRun c op (LRet r) :: st) ->
  linearized s0 (MkMonitor s mu (<[i := st]> ths) n (tr ++ [Returned c op r])).
Proof.
  intros Hinv Hi. pose proof Hinv as [Hh Hr Ht Hs Hf Hid Hcl Hn Ho Hret Hpre]. cbn in *.
  destruct (head_after _ _ _ _ _ _ _ _ _ _ _ _ _ Hinv Hi I) as (Hmu & H4 & r' & es & Ha & Hlin).
  injection Ha as <- <-. rewrite app_nil_r in Hlin.
  pose proof (all_ids_pop i c op _ st ths Hi) as Hids.
  assert (forall c', emitted c' (tr ++ [Returned c op r]) = emitted c' tr) as Hem.
  { intros c'. by rewrite emitted_app, app_nil_r. }
  assert (unnoticed c lin lin tr (tr ++ [Returned c op r])) as Hun by by apply unnoticed_event.
  assert (Took c op ∈ tr) as Htook.
  { apply elem_of_took. rewrite Ht. by apply (list_elem_of_fmap_2 en_key) in Hlin. }
  pose proof Hid as Hid'. rewrite Hids in Hid'. apply NoDup_cons in Hid' as [Hcn Hid'].
  exists lin, base. split; cbn; try done.
  - by rewrite took_app, app_nil_r.
  - by eapply section_ok_other.
  - eapply (others_ok _ _ _ _ _ _ _ _ Hinv i c op _ st Hi); [done|done|].
    unfold outside. by rewrite decide_False.
  - intros c' Hc. destruct (Hn c' Hc) as (H1 & H2 & H3). rewrite Hem. rewrite Hids in H1.
    split_and!; [|done..]. by apply not_elem_of_cons in H1 as [_ ?].
  - by apply ordered_snoc.
  - intros c' op' r' Hin. rewrite Hem. apply elem_of_app in Hin as [Hin|Hin].
    + destruct (Hret c' op' r' Hin) as [H1 H2]. split; [done|]. rewrite Hids in H2.
      by apply not_elem_of_cons in H2 as [_ ?].
    + apply list_elem_of_singleton in Hin. by injection Hin as -> -> ->.
  - intros en Hen. rewrite Hem. by apply Hpre.
Qed.

Lemma inv_drift s0 lin base s s' mu ths n tr :
  monitor_inv s0 lin base (MkMonitor s mu ths n tr) -> drift s s' ->
  linearized s0 (MkMonitor s' mu ths n tr).
Proof.
  intros [Hh Hr Ht Hs Hf Hid Hcl Hn Ho Hret Hpre] Hd. exists lin, base. split; try done.
  unfold section_ok in *. cbn in *. destruct mu as [i|].
  - destruct Hs as (c & op & p & st & Hi & H1 & H2 & H3 & H4).
    destruct (within_drift p s s' H1 Hd) as [H1' Heq]. exists c, op, p, st.
    split_and!; try done; [|congruence| |..]; try apply H4. etrans; [done|by apply drift_grows].
  - subst s. by apply resting_drift in Hd.
Qed.

Lemma linearized_step s0 who m m' : linearized s0 m -> mstep who m m' -> linearized s0 m'.
Proof.
  intros (lin & base & Hinv) Hstep. destruct Hstep as
    [i op st s mu ths n tr Hi|i c op k st s ths n tr Hi|i c op k st s mu ths n tr Hi
    |i c op k st s mu ths n tr Hi|i c op f k st s mu ths n tr Hi|i c op e k st s mu ths n tr Hi
    |i c op r st s mu ths n tr Hi|s s' mu ths n tr Hd].
  - by eapply inv_call.
  - by eapply inv_lock.
  - by eapply inv_unlock.
  - destruct (head_inside _ _ _ _ _ _ _ _ _ _ _ _ _ Hinv Hi I) as (-> & Hw).
    pose proof (within_step _ _ Hw) as Hk. by eapply inv_inside.
  - destruct (head_inside _ _ _ _ _ _ _ _ _ _ _ _ _ Hinv Hi I) as (-> & Hw).
    pose proof (within_step _ _ Hw) as [Hg Hk]. by eapply inv_inside.
  - by eapply inv_emit.
  - by eapply inv_return.
  - by eapply inv_drift.
Qed.

Lemma linearized_reachable s0 m m' : linearized s0 m -> reaches m m' -> linearized s0 m'.
Proof. intros Hm. induction 1 as [|? ? ? [who Hs]]; eauto using linearized_step. Qed.

(** The rest of a critical section keeps to the order. *)
Lemma section_grows p s : within_section p s -> grows s (snd (leval p s)).
Proof.
  revert s. induction p as [|k IH|k IH|k IH|f k IH|]; intros s Hw; cbn; apply within_step in Hw; try done.
  - destruct Hw as [[[r es] Ha] _]. rewrite (after_leval k r es s Ha). reflexivity.
  - by apply IH.
  - destruct Hw as [Hg Hw]. etrans; [done|]. by apply IH.
Qed.
End Machine.
