(* ===== verification/MutexProgress.v ===== *)
(** Threads that share an object under a mutex do not deadlock: who waits waits for another
    thread, which gives the mutex back, and callbacks run without the mutex. *)

From stdpp Require Import relations.
From S2P Require Import Prelude Mutex MutexLin.

Section Machine.
Context {Op S R E : Type} (body : Op -> lprog S R E) `{!MutexObject body}.
Context (reenter : E -> list Op).
Implicit Types (s : S) (ths : gmap nat (list (frame Op S R E))) (tr : list (event Op R E)).
Abbreviation entry := (Mutex.entry Op R E).
Abbreviation history := (history body).
Abbreviation mstep := (mstep body reenter).
Abbreviation reaches := (reaches body reenter).
Abbreviation next := (next body reenter).
Abbreviation play := (play body reenter).
Abbreviation alone := (alone body reenter).
Abbreviation linearized := (linearized body).

Lemma next_mstep i m m' : next i m = Some m' <-> mstep (Some i) m m'.
Proof.
  split.
  - destruct m as [s mu ths n tr]. unfold next.
    destruct (ths !! i) as [[|[op|c op []] st]|] eqn:Hi; try done; try destruct mu; try done;
      intros [= <-]; by constructor.
  - intros Hs. remember (Some i) as who eqn:Hw. revert Hw.
    destruct Hs as [? ? ? ? ? ? ? ? Hi|? ? ? ? ? ? ? ? ? Hi|? ? ? ? ? ? ? ? ? ? Hi|? ? ? ? ? ? ? ? ? ? Hi
      |? ? ? ? ? ? ? ? ? ? ? Hi|? ? ? ? ? ? ? ? ? ? ? Hi|? ? ? ? ? ? ? ? ? ? Hi|];
      intros [= ->]; unfold next; by rewrite Hi.
Qed.

Lemma play_reaches schedule m m' : play schedule m = Some m' -> reaches m m'.
Proof.
  revert m. induction schedule as [|i schedule IH]; cbn; intros m.
  - intros [= <-]. constructor.
  - destruct (next i m) as [m1|] eqn:Hn; [|done]. intros Hp. eapply rtc_l; [|by apply IH].
    exists (Some i). by apply next_mstep.
Qed.

(** A thread that cannot go on waits for the mutex, and not for itself. *)
Lemma waits_for_mutex s0 m i f st :
  linearized s0 m -> mn_threads m !! i = Some (f :: st) -> next i m = None ->
  exists j, j <> i /\ mn_mutex m = Some j.
Proof.
  intros (lin & base & Hinv) Hi. destruct m as [s mu ths n tr]. cbn in *. rewrite Hi.
  destruct f as [|c op []]; try done. destruct mu as [j|]; [|done]. intros _. exists j.
  split; [|done]. intros ->. destruct (head_cases body _ _ _ _ _ _ _ _ Hinv _ _ _ _ _ Hi) as [(_ & H1 & _)|[]];
    [|done]. by apply within_step in H1.
Qed.

Lemma alone_refl i m : alone i m m.
Proof. by exists []. Qed.

Lemma alone_next i m m1 m' : next i m = Some m1 -> alone i m1 m' -> alone i m m'.
Proof.
  intros Hn (sch & Hi & Hp). exists (i :: sch). split; [by constructor|]. cbn. by rewrite Hn.
Qed.

Lemma alone_trans i m m1 m' : alone i m m1 -> alone i m1 m' -> alone i m m'.
Proof.
  intros (sch & Hi & Hp). revert m Hi Hp. induction sch as [|j sch IH]; intros m Hi Hp Hm'; cbn in Hp.
  - by injection Hp as ->.
  - apply Forall_cons in Hi as [-> Hi]. destruct (next i m) as [m2|] eqn:Hn; [|done].
    apply (alone_next i m m2); [done|]. by apply IH.
Qed.

Lemma alone_linearized s0 i m m' : linearized s0 m -> alone i m m' -> linearized s0 m'.
Proof. intros Hm (sch & _ & Hp). eapply linearized_reachable; [done|by eapply play_reaches]. Qed.

(** The holder of the mutex gives it back. *)
Lemma section_ends p i c op st m :
  within_section p (mn_state m) -> mn_mutex m = Some i -> mn_threads m !! i = Some (FRun c op p :: st) ->
  exists k m', alone i m m' /\ mn_mutex m' = None /\ is_Some (after k) /\
    mn_threads m' !! i = Some (FRun c op k :: st).
Proof.
  revert m. induction p as [|k IH|k IH|k IH|f k IH|]; intros [s mu ths n tr] Hw Hm Hi;
    cbn in *; apply within_step in Hw as Hk; try done.
  - exists k. eexists. split_and!; [eapply alone_next, alone_refl; cbn; by rewrite Hi|..]; cbn; [done| |].
    + by destruct Hk.
    + apply lookup_insert_eq.
  - destruct (IH s (MkMonitor s mu (<[i := FRun c op (k s) :: st]> ths) n tr)) as (k' & m' & H1 & H2);
      cbn; [done|done|apply lookup_insert_eq|].
    exists k', m'. split; [|done]. eapply alone_next, H1. cbn. by rewrite Hi.
  - destruct (IH (MkMonitor (f s) mu (<[i := FRun c op k :: st]> ths) n tr)) as (k' & m' & H1 & H2);
      cbn; [by destruct Hk|done|apply lookup_insert_eq|].
    exists k', m'. split; [|done]. eapply alone_next, H1. cbn. by rewrite Hi.
Qed.

Lemma holder_releases s0 m i :
  linearized s0 m -> mn_mutex m = Some i -> exists m', alone i m m' /\ mn_mutex m' = None.
Proof.
  intros (lin & base & Hinv) Hm. pose proof (mi_section body _ _ _ _ Hinv) as Hs. unfold section_ok in Hs.
  rewrite Hm in Hs. destruct Hs as (c & op & p & st & Hi & Hw & _).
  destruct (section_ends p i c op st m Hw Hm Hi) as (k & m' & Ha & Hm' & _). by exists m'.
Qed.

(** ** Callbacks that do not call the object *)

Section Solo.
Context (calls_nothing : forall e, reenter e = []).

Lemma callbacks_end p i c op st m :
  is_Some (after p) -> mn_threads m !! i = Some (FRun c op p :: st) ->
  exists m', alone i m m' /\ mn_mutex m' = mn_mutex m /\ mn_threads m' !! i = Some st.
Proof.
  revert m. induction p as [r| | | | |e k IH]; intros [s mu ths n tr] Ha Hi; cbn in *;
    try by destruct Ha.
  - eexists. split_and!; [eapply alone_next, alone_refl; cbn; by rewrite Hi|done|apply lookup_insert_eq].
  - edestruct (IH (MkMonitor s mu (<[i := map FCall (reenter e) ++ FRun c op k :: st]> ths) n
      (tr ++ [Emitted c e]))) as (m' & H1 & H2); cbn.
    + destruct Ha as [x Ha]. destruct (after k) as [[]|]; [eauto|done].
    + rewrite calls_nothing. apply lookup_insert_eq.
    + exists m'. split; [|done]. eapply alone_next, H1. cbn. by rewrite Hi.
Qed.

Lemma begun_call_ends s0 i c op p st m :
  linearized s0 m -> mn_mutex m = None -> mn_threads m !! i = Some (FRun c op p :: st) ->
  exists m', alone i m m' /\ mn_mutex m' = None /\ mn_threads m' !! i = Some st.
Proof.
  intros (lin & base & Hinv) Hm Hi. destruct m as [s mu ths n tr]. cbn in *. subst mu.
  destruct (head_cases body _ _ _ _ _ _ _ _ Hinv _ _ _ _ _ Hi) as [[]|[_ [_ [(-> & _)|(r & es & Ha & _)]]]].
  - done.
  - destruct (body_locks op) as (k & Hk & Hw). rewrite Hk in Hi.
    pose proof (mi_section body _ _ _ _ Hinv) as Hs. cbn in Hs. subst s.
    destruct (section_ends k i c op st (MkMonitor base (Some i) (<[i := FRun c op k :: st]> ths) n tr))
      as (k' & m1 & H1 & H2 & H3 & H4); cbn; [|done|apply lookup_insert_eq|].
    { apply Hw. exact (mi_resting body _ _ _ _ Hinv). }
    destruct (callbacks_end k' i c op st m1 H3 H4) as (m' & H5 & H6 & H7). exists m'.
    split_and!; [|congruence|done]. eapply alone_trans, H5. eapply alone_next, H1. cbn. by rewrite Hi.
  - destruct (callbacks_end p i c op st (MkMonitor s None ths n tr) (ex_intro _ _ Ha) Hi) as (m' & ?).
    by exists m'.
Qed.

(** With the mutex free, a thread going on alone returns from all its calls. *)
Lemma calls_end s0 i st m :
  linearized s0 m -> mn_mutex m = None -> mn_threads m !! i = Some st ->
  exists m', alone i m m' /\ mn_threads m' !! i = Some [].
Proof.
  revert m. induction st as [|f st IH]; intros m Hlin Hm Hi.
  { exists m. split; [apply alone_refl|done]. }
  assert (exists m1, alone i m m1 /\ mn_mutex m1 = None /\ mn_threads m1 !! i = Some st)
    as (m1 & H1 & H2 & H3).
  { destruct f as [op|c op p]; [|by eapply begun_call_ends]. destruct (next i m) as [m1|] eqn:Hn.
    - assert (alone i m m1) as Ha by (eapply alone_next, alone_refl; done).
      pose proof (alone_linearized s0 i m m1 Hlin Ha) as Hlin1.
      destruct m as [s mu ths n tr]. cbn in *. rewrite Hi in Hn. injection Hn as <-.
      destruct (begun_call_ends s0 i n op (body op) st _ Hlin1 Hm (lookup_insert_eq _ _ _))
        as (m' & ? & ? & ?).
      exists m'. split_and!; [by eapply alone_trans|done|done].
    - destruct m as [s mu ths n tr]. cbn in *. by rewrite Hi in Hn. }
  destruct (IH m1 (alone_linearized s0 i m m1 Hlin H1) H2 H3) as (m' & ? & ?).
  exists m'. split; [by eapply alone_trans|done].
Qed.
End Solo.

(** A callback is called by a thread that does not hold the mutex. *)
Lemma callback_unlocked s0 m i m' c e :
  linearized s0 m -> next i m = Some m' -> mn_trace m' = mn_trace m ++ [Emitted c e] ->
  mn_mutex m <> Some i.
Proof.
  intros (lin & base & Hinv). destruct m as [s mu ths n tr]. cbn.
  destruct (ths !! i) as [[|[op|c' op p] st]|] eqn:Hi; try done.
  { intros [= <-] Htr. cbn in Htr. by apply app_inj_tail in Htr as [_ ?]. }
  destruct p as [r|k|k|k|f k|e' k];
    try (intros [= <-] Htr; cbn in Htr; by apply app_inj_tail in Htr as [_ ?]);
    try (intros [= <-] Htr; cbn in Htr; apply (f_equal length) in Htr; rewrite length_app in Htr;
         cbn in Htr; lia).
  - destruct mu; [done|]. done.
  - intros _ _. by destruct (head_after body _ _ _ _ _ _ _ _ _ _ _ _ _ Hinv Hi I).
Qed.
End Machine.
