(* ===== verification/BrokerThreads.v ===== *)
(** The broker on any number of threads (src/server/pubsub_broker.hpp,
    pubsub_broker.cpp): its operations as programs under its mutex, which are linearizable
    with respect to the operations of PubSubBroker.v, and callbacks that run without the
    mutex and may call the broker again. *)

From stdpp Require Import relations.
From S2P Require Import Prelude Cxx Charconv Resp World PubSubBroker CmdSpec Demo Histories.
From S2P Require Import BrokerSpec Mutex MutexLin MutexProgress.

Open Scope Z_scope.

(** * Calls *)

(** A call of a member function. *)
Inductive BrokerCall :=
  | CallSubscribe (channel : bytes) (sid : conn_id) (write_fn : WriteFn)
  | CallUnsubscribe (channel : bytes) (sid : conn_id)
  | CallUnsubscribeAll (sid : conn_id)
  | CallPublish (channel message : bytes).

Inductive BrokerReply :=
  | ReplyCount (n : Z)
  | ReplyChannels (removed : list bytes).

(** A call [fn(message)] of a callback. *)
Abbreviation Callback := (WriteFn * bytes)%type (only parsing).

(** * The member functions, statement by statement *)

Section Programs.
Context `{Rt : CxxRuntime}.
Abbreviation prog := (lprog channel_map BrokerReply Callback).
Implicit Types (m : channel_map) (subs : list Subscriber).

(** [channels_[channel]] makes an empty list when there is none. *)
Definition at_channel (channel : bytes) m : channel_map :=
  <[channel := default [] (m !! channel)]> m.

Definition subscribe_prog (channel : bytes) (sid : conn_id) (write_fn : WriteFn) : prog :=
  LLock (LWrite (at_channel channel) (LRead (fun m =>
    let subs := default [] (m !! channel) in
    match replace_sub sid write_fn subs with
    | Some subs' =>
        LWrite <[channel := subs']> (LUnlock (LRet (ReplyCount (zlen subs'))))
    | None =>
        let subs' := subs ++ [MkSubscriber sid write_fn] in
        LWrite <[channel := subs']> (LUnlock (LRet (ReplyCount (zlen subs'))))
    end))).

(** [if (subs.empty()) channels_.erase(it)]. *)
Definition erase_if_empty (channel : bytes) subs (k : prog) : prog :=
  match subs with [] => LWrite (delete channel) k | _ => k end.

Definition unsubscribe_prog (channel : bytes) (sid : conn_id) : prog :=
  LLock (LRead (fun m =>
    match m !! channel with
    | None => LUnlock (LRet (ReplyCount 0))
    | Some subs =>
        let subs' := remove_sub sid subs in
        LWrite <[channel := subs']>
          (erase_if_empty channel subs' (LUnlock (LRet (ReplyCount (zlen subs')))))
    end)).

Fixpoint unsubscribe_all_loop (sid : conn_id) (l : list (bytes * list Subscriber))
    (removed : list bytes) : prog :=
  match l with
  | [] => LUnlock (LRet (ReplyChannels removed))
  | (channel, subs) :: l =>
      let subs' := remove_sub sid subs in
      LWrite <[channel := subs']>
        (let removed := if decide (length subs' = length subs) then removed
                        else removed ++ [channel] in
         erase_if_empty channel subs' (unsubscribe_all_loop sid l removed))
  end.

Definition unsubscribe_all_prog (sid : conn_id) : prog :=
  LLock (LRead (fun m => unsubscribe_all_loop sid (iter_map _ m) [])).

(** The calls of the snapshotted callbacks, without the mutex. *)
Fixpoint publish_loop (fns : list WriteFn) (message : bytes) (n : Z) : prog :=
  match fns with
  | [] => LRet (ReplyCount n)
  | fn :: fns => LEmit (fn, message) (publish_loop fns message n)
  end.

Definition publish_prog (channel message : bytes) : prog :=
  LLock (LRead (fun m =>
    match m !! channel with
    | None => LUnlock (LRet (ReplyCount 0))
    | Some subs =>
        let callbacks := map write subs in
        LUnlock (publish_loop callbacks message (zlen callbacks))
    end)).

Definition broker_prog (call : BrokerCall) : prog :=
  match call with
  | CallSubscribe channel sid write_fn => subscribe_prog channel sid write_fn
  | CallUnsubscribe channel sid => unsubscribe_prog channel sid
  | CallUnsubscribeAll sid => unsubscribe_all_prog sid
  | CallPublish channel message => publish_prog channel message
  end.

(** The call as one operation of the sequential broker. *)
Definition broker_call (call : BrokerCall) : M BrokerReply :=
  match call with
  | CallSubscribe channel sid write_fn =>
      x ← PubSubBroker_subscribe channel sid write_fn; mret (ReplyCount x)
  | CallUnsubscribe channel sid => x ← PubSubBroker_unsubscribe channel sid; mret (ReplyCount x)
  | CallUnsubscribeAll sid => x ← PubSubBroker_unsubscribe_all sid; mret (ReplyChannels x)
  | CallPublish channel message => x ← PubSubBroker_publish channel message; mret (ReplyCount x)
  end.

(** * One call alone *)

Lemma publish_loop_after fns message n :
  after (publish_loop fns message n) = Some (ReplyCount n, map (fun fn => (fn, message)) fns).
Proof. induction fns as [|fn fns IH]; cbn; [done|]. by rewrite IH. Qed.

Lemma erase_if_empty_leval channel subs k m :
  leval (erase_if_empty channel subs k) (<[channel := subs]> m) = leval k (store_subs channel subs m).
Proof. destruct subs; cbn; [|done]. by rewrite delete_insert_eq. Qed.

Lemma unsubscribe_all_loop_leval sid l removed m :
  leval (unsubscribe_all_loop sid l removed) m =
  let '(removed, m) := unsubscribe_walk sid l m removed in (ReplyChannels removed, [], m).
Proof.
  revert removed m. induction l as [|[ch subs] l IH]; intros removed m; cbn; [done|].
  by rewrite erase_if_empty_leval, IH.
Qed.

(** The frames the callbacks post. *)
Definition frames_of (es : list Callback) : list (conn_id * bytes) :=
  map (fun '(fn, message) => (wf_self fn, make_message_frame (wf_ch fn) message)) es.

Lemma broker_prog_call call w :
  let '(r, es, m') := leval (broker_prog call) (channels_ w) in
  broker_call call w = (Ret r, add_posted (frames_of es) (set_channels m' w)).
Proof.
  destruct call as [ch sid fn|ch sid|sid|ch msg]; cbn [broker_prog broker_call].
  - rewrite bind_run. cbn. unfold at_channel. rewrite lookup_insert_eq. cbn.
    destruct (replace_sub _ _ _); cbn; rewrite insert_insert_eq;
      unfold add_posted; cbn; by rewrite app_nil_r.
  - cbn. rewrite bind_run. unfold PubSubBroker_unsubscribe.
    destruct (channels_ w !! ch) as [subs|]; cbn.
    + rewrite erase_if_empty_leval. cbn. unfold add_posted. cbn. by rewrite app_nil_r.
    + unfold add_posted. cbn. rewrite app_nil_r. by destruct w.
  - cbn. rewrite unsubscribe_all_loop_leval, bind_run. unfold PubSubBroker_unsubscribe_all.
    destruct (unsubscribe_walk _ _ _ _) as [removed m]. cbn. unfold add_posted. cbn.
    by rewrite app_nil_r.
  - rewrite bind_run, publish_run. cbn. destruct (channels_ w !! ch) as [subs|]; cbn.
    + rewrite (after_leval _ _ _ _ (publish_loop_after _ _ _)). unfold frames_of. rewrite !map_map.
      unfold zlen. rewrite length_map. by destruct w.
    + by destruct w.
Qed.

(** * The broker as an object under a mutex *)

Lemma erase_if_empty_sectioned channel subs k :
  sectioned k -> sectioned (erase_if_empty channel subs k).
Proof. by destruct subs. Qed.

Lemma unsubscribe_all_loop_sectioned sid l removed : sectioned (unsubscribe_all_loop sid l removed).
Proof.
  revert removed. induction l as [|[ch subs] l IH]; intros removed; cbn; [eauto|].
  by apply erase_if_empty_sectioned.
Qed.

Lemma broker_prog_sectioned call : exists k, broker_prog call = LLock k /\ sectioned k.
Proof.
  destruct call as [ch sid fn|ch sid|sid|ch msg]; eexists; (split; [done|]); cbn.
  - intros m. destruct (replace_sub _ _ _); cbn; eauto.
  - intros m. destruct (m !! ch); cbn; [apply erase_if_empty_sectioned; cbn; eauto|eauto].
  - intros m. apply unsubscribe_all_loop_sectioned.
  - intros m. destruct (m !! ch); cbn; [rewrite publish_loop_after; eauto|eauto].
Qed.

#[global] Instance broker_object : MutexObject broker_prog := plain_object _ broker_prog_sectioned.

(** Calls of the sequential broker, one after the other, with their replies and callbacks. *)
Inductive served (w0 : World) : list (entry BrokerCall BrokerReply Callback) -> World -> Prop :=
  | served_nil : served w0 [] w0
  | served_snoc lin w c call r es w' :
      served w0 lin w -> broker_call call w = (Ret r, w') -> posted w' = posted w ++ frames_of es ->
      served w0 (lin ++ [MkEntryOf c call r es]) w'.

Lemma history_served w lin m :
  history broker_prog (channels_ w) lin m -> exists w', served w lin w' /\ channels_ w' = m.
Proof.
  induction 1 as [|lin m c call r es m' _ (w1 & Hw1 & <-) He]; [by exists w; split; [constructor|]|].
  pose proof (broker_prog_call call w1) as Hc. rewrite He in Hc.
  eexists. split; [by eapply served_snoc; [|exact Hc|]|done].
Qed.
End Programs.

(** * Any number of threads *)

Section Theorems.
Context `{RtOk : CxxRuntimeOk} (reenter : Callback -> list BrokerCall).

(** A connection registers the callback it made for that channel. *)
Definition registers_own (call : BrokerCall) : Prop :=
  match call with
  | CallSubscribe channel sid write_fn => write_fn = MkWriteFn sid channel
  | _ => True
  end.

Lemma broker_call_wf call w :
  registers_own call -> broker_wf (channels_ w) -> broker_wf (channels_ (snd (broker_call call w))).
Proof.
  intros Hown Hwf. destruct call as [ch sid fn|ch sid|sid|ch msg]; cbn [broker_call];
    rewrite bind_run.
  - cbn in Hown. subst fn. pose proof (broker_wf_preserved ch sid [] w Hwf) as (Hp & _).
    by destruct (PubSubBroker_subscribe _ _ _ w) as [[]].
  - pose proof (broker_wf_preserved ch sid [] w Hwf) as (_ & Hp & _).
    by destruct (PubSubBroker_unsubscribe _ _ w) as [[]].
  - pose proof (broker_wf_preserved [] sid [] w Hwf) as (_ & _ & Hp & _).
    by destruct (PubSubBroker_unsubscribe_all _ w) as [[]].
  - pose proof (broker_wf_preserved ch 0%nat msg w Hwf) as (_ & _ & _ & Hp).
    by destruct (PubSubBroker_publish _ _ w) as [[]].
Qed.

Lemma served_wf w lin w' :
  served w lin w' -> Forall registers_own (map en_op lin) -> broker_wf (channels_ w) ->
  broker_wf (channels_ w').
Proof.
  induction 1 as [|lin w1 c call r es w2 _ IH Hc _]; [done|]. rewrite map_app.
  intros [Hl Hown]%Forall_app Hwf. apply Forall_cons in Hown as [Hown _].
  pose proof (broker_call_wf call w1 Hown (IH Hl Hwf)) as Hw. by rewrite Hc in Hw.
Qed.

Lemma broker_reachable chans calls m :
  reaches broker_prog reenter (monitor_start chans calls) m -> linearized broker_prog chans m.
Proof. apply linearized_reachable, (linearized_start broker_prog). exact I. Qed.

(** C33. The broker is thread-safe: whatever the threads call and however their steps
    interleave, callbacks that call the broker again included, the calls take effect one
    after the other as operations of the sequential broker, in the order in which they give
    the mutex back, which is between their invocation and their return; a call that has
    returned got the reply of its operation and has called exactly its callbacks, in order,
    and a call on its way has called the first of them; while nobody holds the mutex the
    table is the one the operations left, and well formed if every connection registers its
    own callbacks. *)
Theorem broker_linearizable w calls m :
  reaches broker_prog reenter (monitor_start (channels_ w) calls) m ->
  exists lin w', served w lin w' /\ NoDup (map en_call lin) /\
    took (mn_trace m) = map en_key lin /\ ordered (mn_trace m) /\
    (forall c call r, Returned c call r ∈ mn_trace m ->
       MkEntryOf c call r (emitted c (mn_trace m)) ∈ lin) /\
    (forall en, en ∈ lin -> emitted (en_call en) (mn_trace m) `prefix_of` en_emitted en) /\
    (mn_mutex m = None -> channels_ w' = mn_state m /\
       (broker_wf (channels_ w) -> Forall registers_own (map en_op lin) -> broker_wf (mn_state m))).
Proof.
  intros Hm. destruct (broker_reachable _ _ _ Hm) as (lin & base & [Hh _ Ht Hs _ _ Hcl _ Ho Hret Hpre]).
  destruct (history_served w lin base Hh) as (w' & Hw' & Hb). exists lin, w'.
  split_and!; try done.
  - intros c call r Hin. by destruct (Hret c call r Hin).
  - intros Hmu. unfold section_ok in Hs. rewrite Hmu in Hs. rewrite Hs, <- Hb. split; [done|].
    intros Hwf Hown. by eapply served_wf.
Qed.

(** C34. Nobody deadlocks on the broker: a callback is called by a thread that does not hold
    the mutex; a thread that cannot go on waits for another thread, never for itself, so
    callbacks may call the broker; the holder, going on alone, gives the mutex back; and
    with callbacks that only post, as the server's do, a thread that finds the mutex free
    returns from all its calls. *)
Theorem broker_never_deadlocks chans calls m :
  reaches broker_prog reenter (monitor_start chans calls) m ->
  (forall i m' c e, next broker_prog reenter i m = Some m' ->
     mn_trace m' = mn_trace m ++ [Emitted c e] -> mn_mutex m <> Some i) /\
  (forall i f st, mn_threads m !! i = Some (f :: st) -> next broker_prog reenter i m = None ->
     exists j, j <> i /\ mn_mutex m = Some j) /\
  (forall i, mn_mutex m = Some i ->
     exists m', alone broker_prog reenter i m m' /\ mn_mutex m' = None) /\
  ((forall e, reenter e = []) -> mn_mutex m = None -> forall i st, mn_threads m !! i = Some st ->
     exists m', alone broker_prog reenter i m m' /\ mn_threads m' !! i = Some []).
Proof.
  intros Hm. pose proof (broker_reachable _ _ _ Hm) as Hlin.
  split_and!.
  - intros i m' c e. by eapply callback_unlocked.
  - intros i f st. by eapply waits_for_mutex.
  - intros i. by eapply holder_releases.
  - intros Hre Hmu i st. by eapply calls_end.
Qed.
End Theorems.

(** * Witnesses *)

#[local] Existing Instance demo_runtime.

(** Two threads; the callback of a subscriber leaves the channel. *)
Definition demo_reenter (e : Callback) : list BrokerCall :=
  [CallUnsubscribe (wf_ch (fst e)) (wf_self (fst e))].
Definition demo_calls : gmap nat (list BrokerCall) :=
  {[0%nat := [CallPublish "news"%b "hi"%b];
    1%nat := [CallSubscribe "news"%b 3%nat (MkWriteFn 3 "news"%b)]]}.
Definition demo_monitor : monitor BrokerCall channel_map BrokerReply Callback :=
  monitor_start (channels_ demo_channels) demo_calls.
(** Both begin, the publisher takes its snapshot, the other thread subscribes, and the
    callbacks run. *)
Definition demo_schedule : list nat :=
  [0; 1; 0; 0; 0; 1; 1; 1; 1; 1; 1; 0; 0; 0; 0; 0; 0; 0; 0; 0; 0; 0; 0; 0; 0; 0]%nat.
(** The run after its first [n] steps. *)
Definition demo_at (n : nat) : monitor BrokerCall channel_map BrokerReply Callback :=
  default demo_monitor (play broker_prog demo_reenter (take n demo_schedule) demo_monitor).

Lemma demo_broker_run n :
  (if play broker_prog demo_reenter (take n demo_schedule) demo_monitor then true else false) = true ->
  reaches broker_prog demo_reenter demo_monitor (demo_at n).
Proof.
  intros Hp. apply (play_reaches _ _ (take n demo_schedule)). unfold demo_at.
  by destruct (play _ _ _ _).
Qed.

(** The publisher reached the two subscribers of its snapshot, both left, the third stayed. *)
Lemma broker_linearizable_witness :
  exists lin w', served demo_channels lin w' /\
    map en_op lin = [CallPublish "news"%b "hi"%b; CallSubscribe "news"%b 3%nat (MkWriteFn 3 "news"%b);
                     CallUnsubscribe "news"%b 1%nat; CallUnsubscribe "news"%b 2%nat] /\
    subscribers (channels_ w') "news"%b = [3%nat].
Proof.
  destruct (broker_linearizable demo_reenter demo_channels demo_calls (demo_at 26) (demo_broker_run 26 eq_refl))
    as (lin & w' & Hs & _ & Ht & _ & _ & _ & Hw). exists lin, w'. split; [done|]. split.
  - apply (f_equal (map snd)) in Ht. rewrite map_map in Ht. etrans; [exact (eq_sym Ht)|]. vm_compute. reflexivity.
  - destruct Hw as [-> _]; vm_compute; reflexivity.
Defined.

(** The publisher is about to call its first callback; before that, the subscriber held the
    mutex, and gave it back. *)
Lemma broker_never_deadlocks_witness :
  mn_mutex (demo_at 11) <> Some 0%nat /\
  exists m', alone broker_prog demo_reenter 1 (demo_at 6) m' /\ mn_mutex m' = None.
Proof.
  split.
  - destruct (broker_never_deadlocks demo_reenter (channels_ demo_channels) demo_calls (demo_at 11))
      as (Hcb & _).
    { apply demo_broker_run. vm_compute. reflexivity. }
    apply (Hcb 0%nat (demo_at 12) 0%nat (MkWriteFn 1 "news"%b, "hi"%b)); vm_compute; reflexivity.
  - destruct (broker_never_deadlocks demo_reenter (channels_ demo_channels) demo_calls (demo_at 6))
      as (_ & _ & Hrel & _).
    { apply demo_broker_run. vm_compute. reflexivity. }
    apply (Hrel 1%nat). vm_compute. reflexivity.
Defined.
