(* ===== verification/AofThreads.v ===== *)
(** [AofPersistence::log] on any number of threads (src/persistence/aof_persistence.cpp),
    down to the buffer of the file stream: entries are whole and in the order of the mutex,
    and a crash at any moment loses no command whose call has returned. *)

From stdpp Require Import relations.
From S2P Require Import Prelude Cxx Charconv Resp RespParser RespParserFacts RespGrammar.
From S2P Require Import RespTheorems World KvStore KvStoreFacts Command CmdSpec Demo StringCmds.
From S2P Require Import ExpirySpec StoreSim Dispatcher Aof Histories AofTheorems.
From S2P Require Import Mutex MutexLin MutexProgress.

(** * The stream *)

(** The file, what the stream still holds back, and whether it is open. *)
Record Stream := MkStream { st_file : bytes; st_buffer : bytes; st_open : bool }.

Definition stream_write (data : bytes) (s : Stream) : Stream :=
  if st_open s then MkStream (st_file s) (st_buffer s ++ data) true else s.

Definition stream_flush (s : Stream) : Stream :=
  if st_open s then MkStream (st_file s ++ st_buffer s) [] true else s.

(** The stream may pass any part of its buffer on at any time. *)
Definition stream_drains (s s' : Stream) : Prop :=
  exists n, s' = MkStream (st_file s ++ take n (st_buffer s)) (drop n (st_buffer s)) (st_open s).

(** Opened on a file, with nothing held back. *)
Definition stream_of (a : AofPersistence) : Stream := MkStream (file_content a) [] (file_is_open a).

(** * log *)

(** The calls have no callbacks. *)
Abbreviation log_call := (lprog Stream unit Empty_set).

Definition log_prog (cmd : Command) : log_call :=
  let wire := serialize (RespArray (RespBulkString (name cmd) :: map RespBulkString (args cmd))) in
  LLock (LWrite (stream_write wire) (LWrite stream_flush (LUnlock (LRet tt)))).

(** The destructor. *)
Definition AofPersistence_destroy (s : Stream) : Stream := if st_open s then stream_flush s else s.

(** Alone, [log] is the operation on the whole file. *)
Lemma log_prog_alone cmd a :
  leval (log_prog cmd) (stream_of a) = (tt, [], stream_of (AofPersistence_log cmd a)).
Proof. destruct a as [content []]; cbn; done. Qed.

(** * The stream as an object under a mutex *)

Definition extends (s s' : Stream) : Prop :=
  st_open s' = st_open s /\ st_file s `prefix_of` st_file s' /\
  (st_file s ++ st_buffer s) `prefix_of` (st_file s' ++ st_buffer s').

#[global] Instance extends_preorder : PreOrder extends.
Proof.
  split.
  - intros s. by split_and!.
  - intros s1 s2 s3 (H1 & H2 & H3) (H4 & H5 & H6). split_and!; [congruence|by etrans|by etrans].
Qed.

Lemma drains_extends s s' : stream_drains s s' -> extends s s'.
Proof.
  intros [n ->]. split_and!; cbn; [done|by apply prefix_app_r|]. by rewrite <- app_assoc, take_drop.
Qed.

Lemma write_extends data s : extends s (stream_write data s).
Proof.
  unfold stream_write, extends. destruct (st_open s) eqn:Ho; cbn; [|done].
  split_and!; [done..|]. rewrite app_assoc. by apply prefix_app_r.
Qed.

Lemma flush_extends s : extends s (stream_flush s).
Proof.
  unfold stream_flush, extends. destruct (st_open s) eqn:Ho; cbn; [|done].
  split_and!; [done|by apply prefix_app_r|by rewrite app_nil_r].
Qed.

(** In the critical section: before the write, before the flush, at the end. *)
Definition log_section (p : log_call) (s : Stream) : Prop :=
  (exists data, p = LWrite (stream_write data) (LWrite stream_flush (LUnlock (LRet tt)))) /\
    st_buffer s = [] \/
  p = LWrite stream_flush (LUnlock (LRet tt)) /\ (st_open s = false -> st_buffer s = []) \/
  p = LUnlock (LRet tt) /\ st_buffer s = [].

Lemma drains_empty s s' : st_buffer s = [] -> stream_drains s s' -> s' = s.
Proof.
  intros Hb [n ->]. destruct s as [f b o]. cbn in *. subst b.
  by rewrite take_nil, drop_nil, app_nil_r.
Qed.

#[global] Program Instance aof_object : MutexObject log_prog := {|
  drift := stream_drains;
  resting := fun s => st_buffer s = [];
  grows := extends;
  within_section := log_section;
|}.
Next Obligation. exact drains_extends. Qed.
Next Obligation. intros s s' Hs. by apply drains_empty. Qed.
Next Obligation.
  intros cmd. eexists. split; [reflexivity|]. intros s Hs. left. split; [by eexists|done].
Qed.
Next Obligation.
  intros p s [[(data & ->) Hb]|[[-> Hb]|[-> Hb]]].
  - split; [apply write_extends|]. right; left. split; [done|]. unfold stream_write.
    by destruct (st_open s) eqn:Ho; cbn.
  - split; [apply flush_extends|]. right; right. split; [done|]. unfold stream_flush.
    destruct (st_open s) eqn:Ho; cbn; auto.
  - split; [by eexists|done].
Qed.
Next Obligation.
  intros p s s' [[(data & ->) Hb]|[[-> Hb]|[-> Hb]]] Hd.
  - rewrite (drains_empty s s' Hb Hd). split; [|done]. left. split; [by eexists|done].
  - destruct (st_open s) eqn:Ho.
    + destruct Hd as [n ->]. split.
      * right; left. split; [done|]. cbn. congruence.
      * cbn. unfold stream_flush. cbn. by rewrite Ho, <- app_assoc, take_drop.
    + rewrite (drains_empty s s' (Hb eq_refl) Hd). split; [|done]. right; left.
      split; [done|]. intros _. by apply Hb.
  - rewrite (drains_empty s s' Hb Hd). split; [|done]. by right; right.
Qed.

(** * Any number of threads *)

Definition no_callbacks (e : Empty_set) : list Command := match e with end.

Lemma logged_app cs cs' : logged (cs ++ cs') = logged cs ++ logged cs'.
Proof. unfold logged. by rewrite map_app, flat_map_app. Qed.

(** The file the commands [cs] leave, opened. *)
Definition log_of (cs : list Command) : Stream := stream_of (MkAof (logged cs) true).

Lemma log_of_snoc cmd cs : leval (log_prog cmd) (log_of cs) = (tt, [], log_of (cs ++ [cmd])).
Proof.
  unfold log_of. rewrite log_prog_alone, logged_app. cbn. by rewrite app_nil_r.
Qed.

Lemma history_log cs0 lin s :
  history log_prog (log_of cs0) lin s -> s = log_of (cs0 ++ map en_op lin) /\
  forall en, en ∈ lin -> en_emitted en = [].
Proof.
  induction 1 as [|lin s c cmd r es s' _ [-> IH] He].
  - rewrite app_nil_r. split; [done|]. set_solver.
  - rewrite log_of_snoc in He. injection He as <- <- <-. rewrite map_app, app_assoc.
    split; [done|]. intros en [Hen|Hen]%elem_of_app; [by apply IH|].
    by apply list_elem_of_singleton in Hen as ->.
Qed.

Lemma log_fold cs0 cs :
  fold_left (fun a cmd => AofPersistence_log cmd a) cs (MkAof (logged cs0) true)
  = MkAof (logged (cs0 ++ cs)) true.
Proof.
  revert cs0. induction cs as [|cmd cs IH]; intros cs0; cbn; [by rewrite app_nil_r|].
  replace (cs0 ++ cmd :: cs) with ((cs0 ++ [cmd]) ++ cs) by by rewrite <- app_assoc.
  rewrite <- IH, (logged_app cs0 [cmd]). cbn. by rewrite app_nil_r.
Qed.

(** What is in the file, with the call that holds the mutex. *)
Lemma file_shape cs0 lin base m :
  monitor_inv log_prog (log_of cs0) lin base m ->
  let cs := cs0 ++ map en_op lin in
  exists pending,
    logged cs `prefix_of` st_file (mn_state m) /\
    st_file (mn_state m) `prefix_of` logged (cs ++ pending) /\ (length pending <= 1)%nat /\
    (forall cmd, cmd ∈ pending ->
       exists c, Invoked c cmd ∈ mn_trace m /\ c ∉ map en_call lin) /\
    (mn_mutex m = None -> pending = [] /\ mn_state m = log_of cs).
Proof.
  intros Hinv cs. destruct (history_log _ _ _ (mi_history _ _ _ _ _ Hinv)) as [-> _].
  fold cs in Hinv. pose proof (mi_section _ _ _ _ _ Hinv) as Hs. unfold section_ok in Hs.
  destruct (mn_mutex m) as [i|].
  - destruct Hs as (c & cmd & p & st & _ & Hw & (_ & Hg & _) & He & Hin & Hc & _). exists [cmd].
    apply (section_grows log_prog) in Hw as (_ & Hf & _). rewrite He, log_of_snoc in Hf.
    split_and!; [done|done|cbn; lia| |done]. intros cmd' ->%list_elem_of_singleton. by exists c.
  - rewrite Hs. exists []. rewrite app_nil_r.
    split_and!; [reflexivity|reflexivity|cbn; lia|set_solver|done].
Qed.

Lemma take_prefix (s s' : bytes) : s `prefix_of` s' -> s = take (length s) s'.
Proof. intros [t ->]. by rewrite take_app_length. Qed.

(** Replay of a file that holds the commands [cs] and a part of the next. *)
Lemma replay_between `{CxxRuntime} `{FileSystem} d cs pending file w :
  logged cs `prefix_of` file -> file `prefix_of` logged (cs ++ pending) -> (length pending <= 1)%nat ->
  fs_grants -> Forall (fun c => cmd_wf c = true) (cs ++ pending) ->
  addressable (logged (cs ++ pending)) ->
  Forall settled (fst (run_history d (cs ++ pending) w)) ->
  exists rest, rest `prefix_of` pending /\
    AofPersistence_replay d (MkAof file true) w =
    (Ret (zlen (cs ++ rest)), MkAof (logged (cs ++ rest)) true, snd (run_history d (cs ++ rest) w)).
Proof.
  intros Hlo Hhi Hlen Hfs Hwf Ha Hset.
  destruct (replay_torn d (cs ++ pending) (length file) w Hfs Hwf Ha Hset) as (k & H1 & H2 & H3).
  rewrite <- (take_prefix _ _ Hhi) in H3.
  assert (length cs <= k)%nat as Hk.
  { destruct (decide (length cs <= k)%nat) as [|Hn]; [done|]. exfalso.
    destruct H2 as [H2|H2]; [rewrite length_app in H2; lia|].
    rewrite take_app_le in H2 by lia. apply prefix_length in Hlo.
    rewrite <- (take_drop (S k) cs), logged_app, length_app in Hlo. lia. }
  exists (take (k - length cs) pending). split; [apply prefix_take|].
  by rewrite take_app_ge in H3.
Qed.

(** C7. The log is thread-safe and crash-safe down to the stream's buffer: whatever commands
    the threads log, however their steps interleave and whatever the stream passes on to the
    file when, the file holds the commands of the calls that have given the mutex back,
    whole and in that order, every command whose call has returned among them, and behind
    them at most the beginning of one that is being logged; with nobody logging it is exactly
    the file of the sequential log, and the destructor has nothing to flush. A crash at that
    moment and a replay execute those commands, and possibly the last. *)
Theorem log_thread_safe `{CxxRuntime} cs0 calls m :
  reaches log_prog no_callbacks (monitor_start (log_of cs0) calls) m ->
  exists (lin : list (entry Command unit Empty_set)) pending,
    let cs := cs0 ++ map en_op lin in let file := st_file (mn_state m) in
    took (mn_trace m) = map en_key lin /\ ordered (mn_trace m) /\
    (forall c cmd, Returned c cmd tt ∈ mn_trace m -> MkEntryOf c cmd tt [] ∈ lin) /\
    logged cs `prefix_of` file /\ file `prefix_of` logged (cs ++ pending) /\
    (length pending <= 1)%nat /\
    (forall cmd, cmd ∈ pending -> exists c, Invoked c cmd ∈ mn_trace m /\ c ∉ map en_call lin) /\
    (mn_mutex m = None ->
       mn_state m = stream_of (fold_left (fun a cmd => AofPersistence_log cmd a) (map en_op lin)
                                 (MkAof (logged cs0) true)) /\
       AofPersistence_destroy (mn_state m) = mn_state m) /\
    forall (Fs : FileSystem) d w, fs_grants -> Forall (fun c => cmd_wf c = true) (cs ++ pending) ->
      addressable (logged (cs ++ pending)) -> Forall settled (fst (run_history d (cs ++ pending) w)) ->
      exists rest, rest `prefix_of` pending /\
        AofPersistence_replay d (MkAof file true) w =
        (Ret (zlen (cs ++ rest)), MkAof (logged (cs ++ rest)) true, snd (run_history d (cs ++ rest) w)).
Proof.
  intros Hm. apply (linearized_reachable log_prog no_callbacks (log_of cs0)) in Hm
    as (lin & base & Hinv); [|by apply linearized_start].
  destruct (file_shape _ _ _ _ Hinv) as (pending & H1 & H2 & H3 & H4 & H5).
  exists lin, pending. cbn zeta.
  split_and!; try done.
  - exact (mi_took _ _ _ _ _ Hinv).
  - exact (mi_ordered _ _ _ _ _ Hinv).
  - intros c cmd Hin. destruct (mi_returned _ _ _ _ _ Hinv c cmd tt Hin) as [Hen _].
    destruct (history_log _ _ _ (mi_history _ _ _ _ _ Hinv)) as [_ He].
    specialize (He _ Hen). cbn in He. by rewrite He in Hen.
  - intros Hmu. destruct (H5 Hmu) as [_ ->]. rewrite log_fold. split; [done|].
    unfold AofPersistence_destroy, stream_flush. cbn. by rewrite app_nil_r.
  - intros HF d w Hfs Hwf Ha Hset. by apply replay_between.
Qed.

(** * Witness *)

#[local] Existing Instance demo_runtime.
#[local] Existing Instance demo_schedule.

#[local] Instance granting : FileSystem :=
  {| fs_open_append := true; fs_open_read := true; fs_resize := true |}.

Definition set_a : Command := (MkCommand "SET" ["a"; "1"])%b.
Definition incr_a : Command := (MkCommand "INCR" ["a"])%b.

Definition demo_loggers : monitor Command Stream unit Empty_set :=
  monitor_start (log_of []) {[0%nat := [set_a]; 1%nat := [incr_a]]}.

(** One thread has logged its command, the other has written its own to the buffer. *)
Definition demo_logging : monitor Command Stream unit Empty_set :=
  default demo_loggers (play log_prog no_callbacks [0; 1; 0; 0; 0; 0; 1; 1; 0]%nat demo_loggers).

(** Some bytes of it reach the file, and the machine crashes. *)
Definition demo_crash : monitor Command Stream unit Empty_set :=
  let s := mn_state demo_logging in
  MkMonitor (MkStream (st_file s ++ take 7 (st_buffer s)) (drop 7 (st_buffer s)) true)
    (mn_mutex demo_logging) (mn_threads demo_logging) (mn_next demo_logging) (mn_trace demo_logging).

Lemma demo_crash_run : reaches log_prog no_callbacks demo_loggers demo_crash.
Proof.
  unfold reaches. transitivity demo_logging.
  - apply (play_reaches _ _ [0; 1; 0; 0; 0; 0; 1; 1; 0]%nat). vm_compute. reflexivity.
  - apply rtc_once. exists None. unfold demo_crash. destruct demo_logging as [s mu ths n tr] eqn:Hd.
    constructor. exists 7%nat. cbn. f_equal. change s with (mn_state (MkMonitor s mu ths n tr)).
    rewrite <- Hd. vm_compute. reflexivity.
Qed.

Lemma demo_crash_trace :
  mn_trace demo_crash = [Invoked 0 set_a; Invoked 1 incr_a; Took 0 set_a; Returned 0 set_a tt].
Proof. vm_compute. reflexivity. Qed.

(** The call that had returned is in the file and replayed, whatever became of the other. *)
Lemma log_thread_safe_witness :
  exists rest, rest `prefix_of` [incr_a] /\
    let '(count, _, w') := AofPersistence_replay (make_default true)
      (MkAof (st_file (mn_state demo_crash)) true) empty_world in
    count = Ret (zlen (set_a :: rest)) /\
    w' = snd (run_history (make_default true) (set_a :: rest) empty_world).
Proof.
  destruct (log_thread_safe [] {[0%nat := [set_a]; 1%nat := [incr_a]]} demo_crash demo_crash_run)
    as (lin & pending & Ht & _ & _ & _ & _ & Hlen & Hp & _ & Hre).
  assert (map en_key lin = [(0%nat, set_a)]) as Hk.
  { rewrite <- Ht. vm_compute. reflexivity. }
  assert (map en_op lin = [set_a]) as Hop.
  { apply (f_equal (map snd)) in Hk. by rewrite map_map in Hk. }
  rewrite Hop in Hre. cbn [app] in Hre.
  assert (pending = [] \/ pending = [incr_a]) as Hpend.
  { destruct pending as [|cmd [|? ?]]; [by left| |cbn in Hlen; lia]. right.
    destruct (Hp cmd (list_elem_of_here _ _)) as (c & Hin & Hc).
    apply (f_equal (map fst)) in Hk. rewrite map_map in Hk. cbn in Hk.
    change (map en_call lin = [0%nat]) in Hk.
    rewrite Hk in Hc. rewrite demo_crash_trace, !elem_of_cons, elem_of_nil in Hin.
    destruct Hin as [[= -> ->]|[[= -> ->]|[?|[?|?]]]]; [set_solver|done..]. }
  destruct (Hre granting (make_default true) empty_world) as (rest & Hrest & Heq).
  - done.
  - destruct Hpend as [-> | ->]; repeat constructor.
  - destruct Hpend as [-> | ->]; by vm_compute.
  - destruct Hpend as [-> | ->]; vm_compute; repeat constructor; discriminate.
  - exists rest. split; [by destruct Hpend as [-> | ->]; [etrans; [exact Hrest|apply prefix_nil]|]|].
    rewrite Heq. split; reflexivity.
Defined.
