(* ===== verification/Connection.v ===== *)
(** One client connection (src/server/connection.hpp, connection.cpp).

    The socket is asio's: starting an asynchronous operation records it, and the event
    loop later calls the completion handler ([on_read], [on_write], [on_idle]). The
    event loop is single-threaded, so handlers run one at a time. *)

From S2P Require Import Prelude Cxx Resp RespParser World Command PubSubBroker Dispatcher Aof.

Open Scope Z_scope.

(** * Data *)

(** asio's side: reads in flight, all buffers handed to async_write so far, how many of
    those writes have completed, and whether a wait on the idle timer is pending. *)
Record Socket := MkSocket {
  is_open : bool;
  reads_in_flight : nat;
  writes_started : list bytes;
  writes_done : nat;
  timer_armed : bool;
}.

Record Connection := MkConnection {
  socket_ : Socket;
  parser_ : RespParser;
  write_buf_ : bytes;
  write_queue_ : list bytes;
  pending_write_bytes_ : Z;
  authenticated_ : bool;
  close_after_write_ : bool;
  write_in_progress_ : bool;
  read_in_progress_ : bool;
  subscribed_channels_ : gset bytes;
}.

(** What the constructor receives and never changes; [None]/[false] is a null pointer. *)
Record ConnConfig := MkConnConfig {
  self : conn_id;                  (* the object's address *)
  has_aof : bool;
  has_stats : bool;
  has_broker : bool;
  requirepass_ : bytes;
  max_request_bytes_ : Z;
  idle_timeout_ : Z;
  max_pending_write_bytes_ : Z;
}.

(** A connection with the shared objects its handlers reach. *)
Record CState := MkCState { conn : Connection; aof : AofPersistence; world : World }.

Definition N (A : Type) : Type := CState -> Out A * CState.

#[global] Instance N_ret : MRet N := fun A a s => (Ret a, s).
#[global] Instance N_bind : MBind N := fun A B f m s =>
  match m s with
  | (Ret a, s) => f a s
  | (Exn e, s) => (Exn e, s)
  | (UB, s) => (UB, s)
  | (NoFuel, s) => (NoFuel, s)
  end.

Definition get_conn : N Connection := fun s => (Ret (conn s), s).
Definition put_conn (c : Connection) : N unit := fun s => (Ret tt, MkCState c (aof s) (world s)).
Definition on_aof (f : AofPersistence -> AofPersistence) : N unit :=
  fun s => (Ret tt, MkCState (conn s) (f (aof s)) (world s)).
Definition on_world {A} (m : M A) : N A :=
  fun s => let '(r, w) := m (world s) in (r, MkCState (conn s) (aof s) w).

(** * Field updates *)

Definition with_socket (k : Socket) (c : Connection) : Connection :=
  MkConnection k (parser_ c) (write_buf_ c) (write_queue_ c) (pending_write_bytes_ c)
    (authenticated_ c) (close_after_write_ c) (write_in_progress_ c) (read_in_progress_ c)
    (subscribed_channels_ c).
Definition with_parser (p : RespParser) (c : Connection) : Connection :=
  MkConnection (socket_ c) p (write_buf_ c) (write_queue_ c) (pending_write_bytes_ c)
    (authenticated_ c) (close_after_write_ c) (write_in_progress_ c) (read_in_progress_ c)
    (subscribed_channels_ c).
Definition with_writes (buf : bytes) (q : list bytes) (busy : bool) (c : Connection) : Connection :=
  MkConnection (socket_ c) (parser_ c) buf q (pending_write_bytes_ c)
    (authenticated_ c) (close_after_write_ c) busy (read_in_progress_ c)
    (subscribed_channels_ c).
Definition with_pending (n : Z) (c : Connection) : Connection :=
  MkConnection (socket_ c) (parser_ c) (write_buf_ c) (write_queue_ c) n
    (authenticated_ c) (close_after_write_ c) (write_in_progress_ c) (read_in_progress_ c)
    (subscribed_channels_ c).
Definition with_authenticated (b : bool) (c : Connection) : Connection :=
  MkConnection (socket_ c) (parser_ c) (write_buf_ c) (write_queue_ c) (pending_write_bytes_ c)
    b (close_after_write_ c) (write_in_progress_ c) (read_in_progress_ c)
    (subscribed_channels_ c).
Definition with_close_after (b : bool) (c : Connection) : Connection :=
  MkConnection (socket_ c) (parser_ c) (write_buf_ c) (write_queue_ c) (pending_write_bytes_ c)
    (authenticated_ c) b (write_in_progress_ c) (read_in_progress_ c)
    (subscribed_channels_ c).
Definition with_reading (b : bool) (c : Connection) : Connection :=
  MkConnection (socket_ c) (parser_ c) (write_buf_ c) (write_queue_ c) (pending_write_bytes_ c)
    (authenticated_ c) (close_after_write_ c) (write_in_progress_ c) b
    (subscribed_channels_ c).
Definition with_channels (chs : gset bytes) (c : Connection) : Connection :=
  MkConnection (socket_ c) (parser_ c) (write_buf_ c) (write_queue_ c) (pending_write_bytes_ c)
    (authenticated_ c) (close_after_write_ c) (write_in_progress_ c) (read_in_progress_ c) chs.

(** * Socket operations *)

Definition start_read (k : Socket) : Socket :=
  MkSocket (is_open k) (S (reads_in_flight k)) (writes_started k) (writes_done k) (timer_armed k).
Definition end_read (k : Socket) : Socket :=
  MkSocket (is_open k) (pred (reads_in_flight k)) (writes_started k) (writes_done k) (timer_armed k).
Definition start_write (buf : bytes) (k : Socket) : Socket :=
  MkSocket (is_open k) (reads_in_flight k) (writes_started k ++ [buf]) (writes_done k) (timer_armed k).
Definition end_write (k : Socket) : Socket :=
  MkSocket (is_open k) (reads_in_flight k) (writes_started k) (S (writes_done k)) (timer_armed k).
(** [expires_after] cancels the wait that was pending; [async_wait] starts a new one. *)
Definition arm_timer (k : Socket) : Socket :=
  MkSocket (is_open k) (reads_in_flight k) (writes_started k) (writes_done k) true.
Definition cancel_timer (k : Socket) : Socket :=
  MkSocket (is_open k) (reads_in_flight k) (writes_started k) (writes_done k) false.
Definition shut (k : Socket) : Socket :=
  MkSocket false (reads_in_flight k) (writes_started k) (writes_done k) (timer_armed k).

(** * Writing and reading: functions of the connection alone *)

Section Conn.
Context (cfg : ConnConfig).

Definition close_socket (c : Connection) : Connection :=
  with_socket (shut (cancel_timer (socket_ c))) c.

(** What [expires_after(idle_timeout_)] waits: the seconds, kept in a signed 64-bit count,
    as a signed 64-bit count of nanoseconds. *)
Definition idle_timeout_ns : Out Z := int64 (to_int64 (idle_timeout_ cfg) * 1000000000).

(** For a timeout whose nanoseconds can be counted. *)
Definition reset_idle_timer (c : Connection) : Connection :=
  if (idle_timeout_ cfg =? 0) || negb (is_open (socket_ c)) then c
  else with_socket (arm_timer (socket_ c)) c.

Definition do_read (c : Connection) : Connection :=
  if read_in_progress_ c || negb (is_open (socket_ c)) then c
  else with_socket (start_read (socket_ c)) (with_reading true c).

Definition flush_write_queue (c : Connection) : Connection :=
  match write_queue_ c with
  | [] => with_writes (write_buf_ c) [] false c
  | front :: rest =>
      if negb (is_open (socket_ c)) then with_writes (write_buf_ c) (front :: rest) false c
      else with_socket (start_write front (socket_ c)) (with_writes front rest true c)
  end.

(** The sizes are those of strings in memory, so their sum does not wrap. *)
Definition do_write (data : bytes) (c : Connection) : Connection :=
  if negb (is_open (socket_ c)) then c
  else if max_pending_write_bytes_ cfg <? pending_write_bytes_ c + zlen data then close_socket c
  else
    let c := with_pending (pending_write_bytes_ c + zlen data) c in
    let c := with_writes (write_buf_ c) (write_queue_ c ++ [data]) (write_in_progress_ c) c in
    if write_in_progress_ c then c else flush_write_queue c.

(** The completion handler of async_write. *)
Definition on_write (ec : bool) (bytes_ : Z) (c : Connection) : Connection :=
  let c := with_socket (end_write (socket_ c)) c in
  if ec then close_socket c
  else
    let c := with_pending (if bytes_ <=? pending_write_bytes_ c
                           then pending_write_bytes_ c - bytes_ else 0) c in
    match write_queue_ c with
    | _ :: _ => flush_write_queue c
    | [] =>
        let c := with_writes (write_buf_ c) [] false c in
        if close_after_write_ c then close_socket c
        else do_read (reset_idle_timer c)
    end.

(** The completion handler of the idle timer. A cancelled wait ([aborted]) may have been
    replaced by a new one; otherwise the pending wait is over. *)
Definition on_idle (aborted other_error : bool) (c : Connection) : Connection :=
  if aborted then c
  else
    let c := with_socket (cancel_timer (socket_ c)) c in
    if negb (is_open (socket_ c)) then c
    else if other_error then c
    else close_socket c.

Definition start (c : Connection) : Connection := do_read (reset_idle_timer c).

Definition handle_auth (cmd : Command) (c : Connection) : RespValue * Connection :=
  match args cmd with
  | [pass] =>
      match requirepass_ cfg with
      | [] => (RespError "ERR AUTH called without any password configured"%b, c)
      | _ =>
          if decide (pass = requirepass_ cfg)
          then (RespSimpleString "OK"%b, with_authenticated true c)
          else (RespError "ERR invalid password"%b, c)
      end
  | _ => (RespError "ERR wrong number of arguments for 'AUTH' command"%b, c)
  end.

(** * Handlers that reach the shared objects *)

Definition modify_conn (f : Connection -> Connection) : N unit :=
  c ← get_conn; put_conn (f c).

(** The loop of handle_subscribe over the channels. *)
Fixpoint subscribe_loop (channels : list bytes) (replies : bytes) : N bytes :=
  match channels with
  | [] => mret replies
  | channel :: channels =>
      count ← on_world (PubSubBroker_subscribe channel (self cfg) (MkWriteFn (self cfg) channel));
      modify_conn (fun c => with_channels ({[channel]} ∪ subscribed_channels_ c) c);;
      subscribe_loop channels (replies ++ make_subscribe_reply "subscribe"%b channel count)
  end.

Definition handle_subscribe (cmd : Command) : N unit :=
  if negb (has_broker cfg) || bool_decide (args cmd = []) then
    modify_conn (do_write (serialize (RespError "ERR SUBSCRIBE requires at least one channel"%b)))
  else
    replies ← subscribe_loop (args cmd) [];
    modify_conn (do_write replies).

Fixpoint unsubscribe_loop (channels : list bytes) (replies : bytes) : N bytes :=
  match channels with
  | [] => mret replies
  | channel :: channels =>
      count ← on_world (PubSubBroker_unsubscribe channel (self cfg));
      modify_conn (fun c => with_channels (subscribed_channels_ c ∖ {[channel]}) c);;
      unsubscribe_loop channels (replies ++ make_subscribe_reply "unsubscribe"%b channel count)
  end.

(** The replies for the channels unsubscribe_all returned. *)
Fixpoint left_loop (channels : list bytes) (replies : bytes) : N bytes :=
  match channels with
  | [] => mret replies
  | ch :: channels =>
      modify_conn (fun c => with_channels (subscribed_channels_ c ∖ {[ch]}) c);;
      left_loop channels (replies ++ make_subscribe_reply "unsubscribe"%b ch 0)
  end.

Context `{CxxRuntime} `{Schedule}.

Definition handle_unsubscribe (cmd : Command) : N unit :=
  if negb (has_broker cfg) then modify_conn do_read
  else
    replies ←
      match args cmd with
      | [] =>
          channels ← on_world (PubSubBroker_unsubscribe_all (self cfg));
          replies ← left_loop channels [];
          match channels with
          | [] => mret (replies ++ make_subscribe_reply "unsubscribe"%b [] 0)
          | _ => mret replies
          end
      | channels => unsubscribe_loop channels []
      end;
    modify_conn (do_write replies).

(** stats_->total_commands.fetch_add(1). *)
Definition count_command (w : World) : World :=
  let st := stats w in
  set_stats (MkStats (start_time st) (connected_clients st) (to_int64 (total_commands st + 1))
               (ready st) (port st) (aof_enabled st)) w.

(** The [while (true)] loop of handle_data. [responses] is a local of handle_data that
    its catch clause still sees, so it is returned with the outcome. *)
Fixpoint data_loop (fuel : nat) (handlers_ : gmap bytes HandlerFn) (chunk responses : bytes)
    : CState -> bytes * (Out unit * CState) := fun s =>
  match fuel with
  | O => (responses, (NoFuel, s))
  | S fuel =>
      let '(val, p) := RespParser_feed (parser_ (conn s)) chunk in
      let s := MkCState (with_parser p (conn s)) (aof s) (world s) in
      match val with
      | Exn e => (responses, (Exn e, s))
      | UB => (responses, (UB, s))
      | NoFuel => (responses, (NoFuel, s))
      | Ret None => (responses, (Ret tt, s))
      | Ret (Some val) =>
          match parse_command val with
          | None =>
              (responses ++ serialize (RespError "ERR protocol error: expected command array"%b),
               modify_conn (fun c => with_parser (RespParser_reset (parser_ c)) c) s)
          | Some cmd =>
              if decide (name cmd = "AUTH"%b) then
                let '(r, c) := handle_auth cmd (conn s) in
                data_loop fuel handlers_ [] (responses ++ serialize r)
                  (MkCState c (aof s) (world s))
              else if negb (authenticated_ (conn s)) then
                data_loop fuel handlers_ []
                  (responses ++ serialize (RespError "NOAUTH Authentication required."%b)) s
              else if decide (name cmd = "SUBSCRIBE"%b) then
                match handle_subscribe cmd s with
                | (Ret _, s) => data_loop fuel handlers_ [] responses s
                | r => (responses, r)
                end
              else if decide (name cmd = "UNSUBSCRIBE"%b) then
                match handle_unsubscribe cmd s with
                | (Ret _, s) => data_loop fuel handlers_ [] responses s
                | r => (responses, r)
                end
              else
                let s := if has_aof cfg
                         then MkCState (conn s) (log_if_write cmd (aof s)) (world s) else s in
                match on_world (dispatch handlers_ cmd) s with
                | (Ret r, s) =>
                    let s := if has_stats cfg
                             then MkCState (conn s) (aof s) (count_command (world s)) else s in
                    data_loop fuel handlers_ [] (responses ++ serialize r) s
                | (Exn e, s) => (responses, (Exn e, s))
                | (UB, s) => (responses, (UB, s))
                | (NoFuel, s) => (responses, (NoFuel, s))
                end
          end
      end
  end.

(** Every round but the last takes bytes off the parser's buffer. *)
Definition data_fuel (c : Connection) (chunk : bytes) : nat :=
  S (length (buf_ (parser_ c)) + length chunk).

(** The end of handle_data: write what accumulated, or read on. *)
Definition finish_data (responses : bytes) : N unit :=
  modify_conn (match responses with [] => do_read | _ => do_write responses end).

(** handle_data; [chunk] is the part of read_buf_ that was filled. *)
Definition handle_data (handlers_ : gmap bytes HandlerFn) (chunk : bytes) : N unit := fun s =>
  if max_request_bytes_ cfg <? RespParser_buffered_size (parser_ (conn s)) + zlen chunk then
    let c := with_parser (RespParser_reset (parser_ (conn s))) (with_close_after true (conn s)) in
    put_conn (do_write (serialize (RespError "ERR max request size exceeded"%b)) c) s
  else
    match data_loop (data_fuel (conn s) chunk) handlers_ chunk [] s with
    | (responses, (Ret _, s)) => finish_data responses s
    | (responses, (Exn e, s)) =>
        let s := MkCState (with_parser (RespParser_reset (parser_ (conn s))) (conn s)) (aof s)
                   (world s) in
        finish_data (responses ++ serialize (RespError ("ERR "%b ++ what e))) s
    | (_, r) => r
    end.

(** The completion handler of async_read_some: an error code, or the bytes received. *)
Definition on_read (handlers_ : gmap bytes HandlerFn) (result : option bytes) : N unit :=
  modify_conn (fun c => with_socket (end_read (socket_ c)) (with_reading false c));;
  match result with
  | None => modify_conn close_socket
  | Some chunk => modify_conn reset_idle_timer;; handle_data handlers_ chunk
  end.

(** The constructor, on a socket the acceptor just opened. *)
Definition Connection_new : Connection :=
  MkConnection (MkSocket true 0 [] 0 false) RespParser_new [] [] 0
    (bool_decide (requirepass_ cfg = [])) false false false ∅.

Definition add_client (n : Z) (w : World) : World :=
  let st := stats w in
  set_stats (MkStats (start_time st) (to_int64 (connected_clients st + n)) (total_commands st)
               (ready st) (port st) (aof_enabled st)) w.

Definition Connection_create : M Connection :=
  (if has_stats cfg then modify (add_client 1) else mret tt);;
  mret Connection_new.

(** The destructor. *)
Definition Connection_destroy (c : Connection) : M unit :=
  (if has_stats cfg then modify (add_client (-1)) else mret tt);;
  if has_broker cfg && bool_decide (subscribed_channels_ c <> ∅)
  then PubSubBroker_unsubscribe_all (self cfg);; mret tt
  else mret tt.
End Conn.
