(* ===== verification/ConnFacts.v ===== *)
(** Invariants of a connection under every interleaving of its completion handlers. *)

From S2P Require Import Prelude Cxx Resp RespParser RespParserFacts RespGrammar World Command.
From S2P Require Import PubSubBroker Dispatcher Aof Connection.

Open Scope Z_scope.

Definition total (q : list bytes) : Z := zlen (concat q).

(** Reads and writes never overlap, the accounting of pending bytes is exact while the
    socket is open, and nothing waits in the queue without a write in flight. *)
Record io_inv (cfg : ConnConfig) (c : Connection) : Prop := {
  inv_reads : reads_in_flight (socket_ c) = if read_in_progress_ c then 1%nat else 0%nat;
  inv_done : (writes_done (socket_ c) <= length (writes_started (socket_ c))
              <= S (writes_done (socket_ c)))%nat;
  inv_idle : write_in_progress_ c = false ->
    writes_done (socket_ c) = length (writes_started (socket_ c)) /\
    (is_open (socket_ c) = true -> write_queue_ c = []);
  inv_busy : is_open (socket_ c) = true -> write_in_progress_ c = true ->
    length (writes_started (socket_ c)) = S (writes_done (socket_ c)) /\
    last (writes_started (socket_ c)) = Some (write_buf_ c);
  inv_pending : is_open (socket_ c) = true ->
    pending_write_bytes_ c =
      (if write_in_progress_ c then zlen (write_buf_ c) else 0) + total (write_queue_ c) /\
    0 <= pending_write_bytes_ c <= max_pending_write_bytes_ cfg;
}.

(** All bytes accepted for the client so far, in the order they will be sent. *)
Definition output (c : Connection) : bytes :=
  concat (writes_started (socket_ c)) ++ concat (write_queue_ c).

Lemma total_app q1 q2 : total (q1 ++ q2) = total q1 + total q2.
Proof. unfold total. rewrite concat_app. zlen_lia. Qed.

Lemma total_cons d q : total (d :: q) = zlen d + total q.
Proof. unfold total. cbn [concat]. by rewrite zlen_app. Qed.

Lemma total_nonneg q : 0 <= total q.
Proof. apply zlen_nonneg. Qed.

Lemma total_nil : total [] = 0.
Proof. done. Qed.

Section Io.
Context (cfg : ConnConfig).

(** Close a case of the invariant. *)
Ltac inv_case :=
  split; simpl in *; intros;
  rewrite ?length_app, ?total_app, ?total_cons, ?total_nil, ?last_snoc in *; simpl in *;
  try congruence; try (split_and?; (done || lia)); try lia.

Lemma io_inv_new : 0 <= max_pending_write_bytes_ cfg -> io_inv cfg (Connection_new cfg).
Proof. intros. by inv_case. Qed.

Lemma io_inv_do_read c : io_inv cfg c -> io_inv cfg (do_read c).
Proof.
  intros Hinv. unfold do_read. destruct (read_in_progress_ c) eqn:Hr; [done|].
  destruct (is_open (socket_ c)) eqn:Ho; [|done]. destruct Hinv. rewrite Hr in *. inv_case; auto.
Qed.

Lemma io_inv_close c : io_inv cfg c -> io_inv cfg (close_socket c).
Proof. intros []. inv_case. split; [|done]. by apply inv_idle0. Qed.

Lemma io_inv_reset_timer c : io_inv cfg c -> io_inv cfg (reset_idle_timer cfg c).
Proof.
  intros Hinv. unfold reset_idle_timer. destruct (_ || _); [done|]. by destruct Hinv.
Qed.

Lemma io_inv_do_write data c : io_inv cfg c -> io_inv cfg (do_write cfg data c).
Proof.
  intros Hinv. unfold do_write. destruct (is_open (socket_ c)) eqn:Ho; [|done]. cbn [negb].
  destruct (Z.ltb_spec (max_pending_write_bytes_ cfg) (pending_write_bytes_ c + zlen data)).
  { by apply io_inv_close. }
  pose proof (zlen_nonneg data). destruct Hinv as [Hr Hd Hi Hb Hp].
  cbn [with_writes with_pending write_in_progress_ write_buf_ write_queue_].
  destruct (write_in_progress_ c) eqn:Hw.
  - destruct (Hb Ho eq_refl) as [Hlen Hlast]. destruct (Hp Ho) as [Hp1 Hp2]. inv_case.
  - destruct (Hi eq_refl) as [Hlen Hq]. destruct (Hp Ho) as [Hp1 Hp2].
    rewrite (Hq Ho) in *. rewrite total_nil in Hp1.
    unfold flush_write_queue. cbn [with_writes with_pending write_queue_ app socket_]. rewrite Ho.
    simpl. inv_case.
Qed.

(** A write in flight exists exactly when fewer are done than started. *)
Definition write_in_flight (c : Connection) : Prop :=
  (writes_done (socket_ c) < length (writes_started (socket_ c)))%nat.

Lemma write_in_flight_busy c : io_inv cfg c -> write_in_flight c -> write_in_progress_ c = true.
Proof.
  intros [] Hf. unfold write_in_flight in Hf. destruct (write_in_progress_ c); [done|].
  destruct inv_idle0; [done|lia].
Qed.

(** A successful async_write has sent its whole buffer. *)
Lemma io_inv_on_write c :
  io_inv cfg c -> write_in_flight c ->
  io_inv cfg (on_write cfg false (zlen (write_buf_ c)) c).
Proof.
  intros Hinv Hf. pose proof (write_in_flight_busy c Hinv Hf) as Hw.
  destruct Hinv as [Hr Hd Hi Hb Hp]. unfold write_in_flight in Hf. unfold on_write.
  set (c1 := with_pending _ _).
  assert (write_queue_ c1 = write_queue_ c) as Hq by done. rewrite Hq.
  assert (is_open (socket_ c) = true ->
          pending_write_bytes_ c1 = total (write_queue_ c) /\
          0 <= pending_write_bytes_ c1 <= max_pending_write_bytes_ cfg) as Hp1.
  { intros Ho. destruct (Hp Ho) as [Hp1 Hp2]. rewrite Hw in Hp1. subst c1.
    pose proof (total_nonneg (write_queue_ c)). pose proof (zlen_nonneg (write_buf_ c)).
    cbn [pending_write_bytes_ with_pending with_socket].
    destruct (Z.leb_spec (zlen (write_buf_ c)) (pending_write_bytes_ c)); lia. }
  destruct (write_queue_ c) as [|front rest] eqn:Hqc.
  - assert (io_inv cfg (with_writes (write_buf_ c1) [] false c1)) as Hinv1.
    { split; cbn [socket_ read_in_progress_ write_in_progress_ write_queue_ with_writes
                  pending_write_bytes_]; subst c1; simpl in *; auto; try lia.
      intros. split; [lia|done]. }
    destruct (close_after_write_ _); [by apply io_inv_close|].
    by apply io_inv_do_read, io_inv_reset_timer.
  - unfold flush_write_queue. rewrite Hq.
    assert (socket_ c1 = end_write (socket_ c)) as -> by done. cbn [end_write is_open].
    destruct (is_open (socket_ c)) eqn:Ho; cbn [negb].
    + destruct (Hp1 eq_refl) as [Hp2 Hp3]. destruct (Hb eq_refl Hw) as [Hlen _].
      rewrite total_cons in Hp2. subst c1. inv_case.
    + subst c1. inv_case. split; [lia|congruence].
Qed.

Lemma io_inv_on_write_err n c :
  io_inv cfg c -> write_in_flight c -> io_inv cfg (on_write cfg true n c).
Proof.
  intros Hinv Hf. pose proof (write_in_flight_busy c Hinv Hf) as Hw.
  destruct Hinv as [Hr Hd Hi Hb Hp]. unfold write_in_flight in Hf. unfold on_write. inv_case.
Qed.

Lemma io_inv_on_idle a e c : io_inv cfg c -> io_inv cfg (on_idle a e c).
Proof.
  intros Hinv. unfold on_idle. destruct a; [done|].
  assert (io_inv cfg (with_socket (cancel_timer (socket_ c)) c)) as H1 by by destruct Hinv.
  destruct (negb _); [done|]. destruct e; [done|]. by apply io_inv_close.
Qed.

(** * Output *)

(** From [c] to [c'] the data is accepted whole, behind all that was accepted before, or, at
    the limit on unsent bytes, none of it is and the socket is closed. *)
Definition written (data : bytes) (c c' : Connection) : Prop :=
  if pending_write_bytes_ c + zlen data <=? max_pending_write_bytes_ cfg
  then output c' = output c ++ data /\ is_open (socket_ c') = true
  else output c' = output c /\ is_open (socket_ c') = false.

Lemma output_do_write data c :
  io_inv cfg c -> is_open (socket_ c) = true -> written data c (do_write cfg data c).
Proof.
  intros [Hr Hd Hi Hb Hp] Ho. unfold written, do_write. rewrite Ho. cbn [negb].
  rewrite Z.leb_antisym. destruct (_ <? _); cbn [negb]; [done|]. unfold output.
  cbn [with_writes with_pending write_in_progress_ write_buf_ write_queue_].
  destruct (write_in_progress_ c) eqn:Hw; cbn [socket_ write_queue_ with_writes with_pending].
  - rewrite concat_app. cbn [concat]. by rewrite app_nil_r, app_assoc.
  - destruct (Hi eq_refl) as [_ Hq]. rewrite (Hq Ho).
    unfold flush_write_queue. cbn [with_writes with_pending write_queue_ app socket_]. rewrite Ho.
    simpl. rewrite concat_app. cbn [concat]. by rewrite !app_nil_r.
Qed.

Lemma do_write_pending data c :
  is_open (socket_ c) = true ->
  pending_write_bytes_ c + zlen data <= max_pending_write_bytes_ cfg ->
  pending_write_bytes_ (do_write cfg data c) = pending_write_bytes_ c + zlen data.
Proof.
  intros Ho Hroom. unfold do_write. rewrite Ho. cbn [negb].
  destruct (Z.ltb_spec (max_pending_write_bytes_ cfg) (pending_write_bytes_ c + zlen data)); [lia|].
  destruct (write_in_progress_ _); [done|]. unfold flush_write_queue.
  cbn [write_queue_ with_writes with_pending]. destruct (write_queue_ c ++ [data]); [done|].
  by destruct (negb _).
Qed.

Lemma output_do_read c : output (do_read c) = output c.
Proof. unfold do_read. by destruct (_ || _). Qed.
Lemma output_reset_timer c : output (reset_idle_timer cfg c) = output c.
Proof. unfold reset_idle_timer. by destruct (_ || _). Qed.

Lemma output_flush c : output (flush_write_queue c) = output c.
Proof.
  unfold flush_write_queue, output. destruct (write_queue_ c) as [|front rest] eqn:Hq.
  { by simpl. }
  destruct (negb _); simpl; rewrite ?Hq; [done|].
  rewrite concat_app. simpl. by rewrite app_nil_r, <- app_assoc.
Qed.

Lemma output_on_write ec n c : output (on_write cfg ec n c) = output c.
Proof.
  unfold on_write. destruct ec; [done|].
  destruct (write_queue_ _) eqn:Hq.
  - destruct (close_after_write_ _).
    + unfold output. simpl in *. by rewrite Hq.
    + rewrite output_do_read, output_reset_timer. unfold output. simpl in *. by rewrite Hq.
  - by rewrite output_flush.
Qed.

Lemma output_on_idle a e c : output (on_idle a e c) = output c.
Proof. unfold on_idle. destruct a; [done|]. destruct (negb _); [done|]. by destruct e. Qed.
End Io.
