(* ===== verification/ConnSteps.v ===== *)
(** A connection as a transition system: completion handlers, pushed messages and the
    rest of the server in any order. *)

From stdpp Require Import relations.
From S2P Require Import Prelude Cxx Resp RespParser RespParserFacts RespGrammar World Command.
From S2P Require Import PubSubBroker Dispatcher Aof Connection ConnFacts.

Open Scope Z_scope.

(** * What a handler preserves *)

Definition npres {A} (P : CState -> CState -> Prop) (m : N A) : Prop := forall s, P s (snd (m s)).

Lemma npres_ret {A} P `{!PreOrder P} (a : A) : npres P (mret a).
Proof. intros s. simpl. reflexivity. Qed.

Lemma npres_bind {A B} P `{!PreOrder P} (m : N A) (k : A -> N B) :
  npres P m -> (forall a, npres P (k a)) -> npres P (m ≫= k).
Proof.
  intros Hm Hk s. specialize (Hm s). unfold mbind, N_bind.
  destruct (m s) as [[a|e| |] u]; simpl in *; try done. etrans; [exact Hm|apply Hk].
Qed.

Lemma npres_modify P f :
  (forall s, P s (MkCState (f (conn s)) (aof s) (world s))) -> npres P (modify_conn f).
Proof. intros Hf s. apply Hf. Qed.

Lemma npres_world {A} P (m : M A) :
  (forall s w, P s (MkCState (conn s) (aof s) w)) -> npres P (on_world m).
Proof. intros Hw s. unfold on_world. destruct (m (world s)). apply Hw. Qed.

(** What the connection's own operations must preserve for all its handlers to do so. *)
Class ConnOps (cfg : ConnConfig) (P : CState -> CState -> Prop) : Prop := {
  ops_preorder :: PreOrder P;
  ops_write : forall data, npres P (modify_conn (do_write cfg data));
  ops_read : npres P (modify_conn do_read);
  ops_channels : forall f, npres P (modify_conn (fun c => with_channels (f c) c));
  ops_world : forall s w, P s (MkCState (conn s) (aof s) w);
}.

Ltac npres_step :=
  match goal with
  | |- npres _ (mbind _ _) => eapply npres_bind; [typeclasses eauto| |intros ?]
  | |- npres _ (match ?x with _ => _ end) => destruct x
  | |- npres _ (mret _) => apply npres_ret; typeclasses eauto
  | |- npres _ (on_world _) => apply npres_world; apply ops_world
  | |- npres _ (modify_conn (do_write _ _)) => apply ops_write
  | |- npres _ (modify_conn do_read) => apply ops_read
  | |- npres _ (modify_conn (fun c => with_channels _ c)) => eapply ops_channels
  | |- npres _ _ => solve [eauto]
  end.
Ltac npres := repeat npres_step.

Section Handlers.
Context (cfg : ConnConfig) (P : CState -> CState -> Prop) `{!ConnOps cfg P}.

Lemma subscribe_loop_pres chs replies : npres P (subscribe_loop cfg chs replies).
Proof. revert replies. induction chs as [|ch chs IH]; intros replies; simpl; npres. Qed.

Lemma unsubscribe_loop_pres chs replies : npres P (unsubscribe_loop cfg chs replies).
Proof. revert replies. induction chs as [|ch chs IH]; intros replies; simpl; npres. Qed.

Lemma left_loop_pres chs replies : npres P (left_loop chs replies).
Proof. revert replies. induction chs as [|ch chs IH]; intros replies; simpl; npres. Qed.

#[local] Hint Resolve subscribe_loop_pres unsubscribe_loop_pres left_loop_pres : core.

Lemma handle_subscribe_pres cmd : npres P (handle_subscribe cfg cmd).
Proof. unfold handle_subscribe. npres. Qed.

Lemma handle_unsubscribe_pres `{CxxRuntime} cmd : npres P (handle_unsubscribe cfg cmd).
Proof. unfold handle_unsubscribe. npres. Qed.
End Handlers.

(** And what the loop of handle_data does besides calling them. *)
Class LoopOps (cfg : ConnConfig) (P : CState -> CState -> Prop) : Prop := {
  loop_ops :: ConnOps cfg P;
  loop_parser : forall s p, P s (MkCState (with_parser p (conn s)) (aof s) (world s));
  loop_auth : forall s, P s (MkCState (with_authenticated true (conn s)) (aof s) (world s));
  loop_shared : forall s a w, P s (MkCState (conn s) a w);
}.

Section Loop.
Context `{CxxRuntime} (cfg : ConnConfig) (P : CState -> CState -> Prop) `{!LoopOps cfg P}.

Lemma handle_auth_pres cmd s :
  P s (MkCState (snd (handle_auth cfg cmd (conn s))) (aof s) (world s)).
Proof.
  assert (P s (MkCState (conn s) (aof s) (world s))) by apply loop_shared.
  unfold handle_auth. destruct (args cmd) as [|pass []]; [done| |done].
  destruct (requirepass_ cfg); [done|]. case_decide; [apply loop_auth|done].
Qed.

Lemma data_loop_pres fuel handlers chunk responses s :
  P s (snd (snd (data_loop cfg fuel handlers chunk responses s))).
Proof.
  revert chunk responses s. induction fuel as [|fuel IH]; intros chunk responses s; cbn [data_loop].
  { simpl. reflexivity. }
  destruct (RespParser_feed _ chunk) as [val p].
  set (s1 := MkCState (with_parser p (conn s)) (aof s) (world s)).
  assert (P s s1) as H1 by apply loop_parser.
  destruct val as [[val|]|e| |]; try done.
  destruct (parse_command val) as [cmd|]; [|etrans; [exact H1|apply loop_parser]].
  case_decide.
  { pose proof (handle_auth_pres cmd s1) as Ha. destruct (handle_auth cfg cmd (conn s1)) as [r c].
    etrans; [exact H1|]. etrans; [exact Ha|apply IH]. }
  destruct (negb _); [etrans; [exact H1|apply IH]|].
  case_decide.
  { pose proof (handle_subscribe_pres cfg P cmd s1) as Hs.
    destruct (handle_subscribe cfg cmd s1) as [[u|e| |] s2]; simpl in *;
      (etrans; [exact H1|]); (etrans; [exact Hs|]); try done; apply IH. }
  case_decide.
  { pose proof (handle_unsubscribe_pres cfg P cmd s1) as Hs.
    destruct (handle_unsubscribe cfg cmd s1) as [[u|e| |] s2]; simpl in *;
      (etrans; [exact H1|]); (etrans; [exact Hs|]); try done; apply IH. }
  set (s2 := if has_aof cfg then _ else s1).
  assert (P s s2) as Hs2 by (subst s2; destruct (has_aof cfg);
    [etrans; [exact H1|apply loop_shared]|done]).
  assert (P s2 (snd (on_world (dispatch handlers cmd) s2))) as Hd.
  { apply (npres_world P (dispatch handlers cmd)). intros. apply loop_shared. }
  destruct (on_world (dispatch handlers cmd) s2) as [[r|e| |] s3]; simpl in *;
    (etrans; [exact Hs2|]); (etrans; [exact Hd|]); try done.
  etrans; [|apply IH]. destruct (has_stats cfg); [apply loop_shared|done].
Qed.

Lemma handle_data_pres handlers chunk :
  (forall s, P s (MkCState (with_close_after true (conn s)) (aof s) (world s))) ->
  npres P (handle_data cfg handlers chunk).
Proof.
  intros Hclose s. unfold handle_data. destruct (_ <? _).
  { etrans; [apply Hclose|]. etrans; [apply loop_parser|].
    refine (ops_write (cfg := cfg) (P := P)
              (serialize (RespError "ERR max request size exceeded"%b)) (MkCState _ _ _)). }
  pose proof (data_loop_pres (data_fuel (conn s) chunk) handlers chunk [] s) as Hl.
  assert (forall responses, npres P (finish_data cfg responses)) as Hfin.
  { intros []; [apply ops_read|apply ops_write]. }
  destruct (data_loop _ _ _ _ _ _) as [responses [[u|e| |] s']]; cbn [snd] in *; try done.
  - etrans; [exact Hl|apply Hfin].
  - etrans; [exact Hl|]. etrans; [apply loop_parser|apply Hfin].
Qed.
End Loop.

(** * Input and output never go wrong *)

(** The invariant is kept, and output is only ever appended to. *)
Definition io_kept (cfg : ConnConfig) (s s' : CState) : Prop :=
  io_inv cfg (conn s) -> io_inv cfg (conn s') /\ exists l, output (conn s') = output (conn s) ++ l.

Section IoKept.
Context `{CxxRuntime} (cfg : ConnConfig).

#[export] Instance io_kept_preorder : PreOrder (io_kept cfg).
Proof.
  split.
  - intros s Hi. split; [done|]. exists []. by rewrite app_nil_r.
  - intros s1 s2 s3 H12 H23 Hi. destruct (H12 Hi) as [Hi2 [l1 Hl1]].
    destruct (H23 Hi2) as [Hi3 [l2 Hl2]]. split; [done|]. exists (l1 ++ l2).
    by rewrite Hl2, Hl1, app_assoc.
Qed.

Lemma io_kept_same s c a w :
  (io_inv cfg (conn s) -> io_inv cfg c) -> output c = output (conn s) ->
  io_kept cfg s (MkCState c a w).
Proof. intros Hinv Ho Hi. split; [by apply Hinv|]. exists []. by rewrite app_nil_r. Qed.

#[export] Instance io_kept_ops : LoopOps cfg (io_kept cfg).
Proof.
  split; [split; [apply _|..]|..].
  - intros data s Hi. split; [by apply io_inv_do_write|].
    change (exists l, output (do_write cfg data (conn s)) = output (conn s) ++ l).
    destruct (is_open (socket_ (conn s))) eqn:Ho.
    + pose proof (output_do_write cfg data (conn s) Hi Ho) as Hout. unfold written in Hout.
      destruct (_ <=? _); destruct Hout as [Hout _]; [by eexists|].
      exists []. by rewrite app_nil_r.
    + exists []. unfold do_write. rewrite Ho. by rewrite app_nil_r.
  - intros s. apply io_kept_same; [apply io_inv_do_read|apply output_do_read].
  - intros f s. apply io_kept_same; [by intros []|done].
  - intros s w. by apply io_kept_same.
  - intros s p. apply io_kept_same; [by intros []|done].
  - intros s. apply io_kept_same; [by intros []|done].
  - intros s a w. by apply io_kept_same.
Qed.

Lemma on_read_io_kept handlers result s :
  read_in_progress_ (conn s) = true -> io_kept cfg s (snd (on_read cfg handlers result s)).
Proof.
  intros Hr.
  set (s1 := MkCState (with_socket (end_read (socket_ (conn s))) (with_reading false (conn s)))
               (aof s) (world s)).
  change (on_read cfg handlers result s) with
    (match result with
     | None => modify_conn close_socket
     | Some chunk => modify_conn (reset_idle_timer cfg);; handle_data cfg handlers chunk
     end s1).
  assert (io_kept cfg s s1) as H1.
  { apply io_kept_same; [|done]. intros [H0 ? ? ? ?]. rewrite Hr in H0. split; try done.
    simpl. by rewrite H0. }
  etrans; [exact H1|]. destruct result as [chunk|].
  - etrans; [|apply (handle_data_pres cfg (io_kept cfg) handlers chunk)].
    + apply io_kept_same; [apply io_inv_reset_timer|apply output_reset_timer].
    + intros s2. apply io_kept_same; [by intros []|done].
  - apply io_kept_same; [apply io_inv_close|done].
Qed.
End IoKept.

(** * The request buffer *)

Definition parser_kept (s s' : CState) : Prop := parser_ (conn s') = parser_ (conn s).

#[export] Instance parser_kept_preorder : PreOrder parser_kept.
Proof. split; [by intros s|]. intros s1 s2 s3 H1 H2. unfold parser_kept in *. congruence. Qed.

Lemma parser_flush c : parser_ (flush_write_queue c) = parser_ c.
Proof. unfold flush_write_queue. destruct (write_queue_ c); [done|]. by destruct (negb _). Qed.

Lemma parser_do_write cfg data c : parser_ (do_write cfg data c) = parser_ c.
Proof.
  unfold do_write. destruct (negb _); [done|]. destruct (_ <? _); [done|].
  destruct (write_in_progress_ _); [done|]. by rewrite parser_flush.
Qed.

Lemma parser_do_read c : parser_ (do_read c) = parser_ c.
Proof. unfold do_read. by destruct (_ || _). Qed.

#[export] Instance parser_kept_ops cfg : ConnOps cfg parser_kept.
Proof.
  split; [apply _|..].
  - intros data s. apply parser_do_write.
  - intros s. apply parser_do_read.
  - by intros f s.
  - by intros s w.
Qed.

Abbreviation buffer s := (buf_ (parser_ (conn s))).

Section Buffer.
Context `{CxxRuntime} (cfg : ConnConfig).

Lemma handle_auth_parser cmd c : parser_ (snd (handle_auth cfg cmd c)) = parser_ c.
Proof.
  unfold handle_auth. destruct (args cmd) as [|pass []]; [done| |done].
  destruct (requirepass_ cfg); [done|]. by case_decide.
Qed.

(** The buffer never holds more than what was there and the bytes received. *)
Lemma data_loop_buffer fuel handlers chunk responses s :
  addressable (buffer s ++ chunk) ->
  (length (buffer (snd (snd (data_loop cfg fuel handlers chunk responses s))))
   <= length (buffer s) + length chunk)%nat.
Proof.
  revert chunk responses s. induction fuel as [|fuel IH]; intros chunk responses s Ha;
    cbn [data_loop]; [simpl; lia|].
  pose proof (feed_cases (parser_ (conn s)) chunk Ha) as Hf.
  destruct (RespParser_feed _ chunk) as [val p].
  set (s1 := MkCState (with_parser p (conn s)) (aof s) (world s)).
  assert (length (buf_ p) <= length (buffer s) + length chunk)%nat as Hp.
  { rewrite <- length_app. destruct val as [[v|]|e| |]; try done; [|by rewrite Hf..].
    destruct Hf as (t & _ & -> & _). rewrite length_app. lia. }
  assert (addressable (buf_ p)) as Hap.
  { unfold addressable, zlen in *. rewrite length_app in Ha. lia. }
  assert (forall responses s', parser_ (conn s') = p ->
    length (buffer (snd (snd (data_loop cfg fuel handlers [] responses s'))))
    <= length (buffer s) + length chunk)%nat as Hrec.
  { intros r s' Hs'. etrans; [apply IH|]; rewrite Hs'; [by rewrite app_nil_r|simpl; lia]. }
  destruct val as [[val|]|e| |]; try done.
  destruct (parse_command val) as [cmd|]; [|simpl; lia].
  case_decide.
  { pose proof (handle_auth_parser cmd (conn s1)) as Hau.
    destruct (handle_auth cfg cmd (conn s1)) as [r c]. by apply Hrec. }
  destruct (negb _); [by apply Hrec|]. case_decide.
  { pose proof (handle_subscribe_pres cfg parser_kept cmd s1) as Hs. unfold parser_kept in Hs.
    destruct (handle_subscribe cfg cmd s1) as [[u|e| |] s2]; simpl in *;
      [by apply Hrec|by rewrite Hs..]. }
  case_decide.
  { pose proof (handle_unsubscribe_pres cfg parser_kept cmd s1) as Hs. unfold parser_kept in Hs.
    destruct (handle_unsubscribe cfg cmd s1) as [[u|e| |] s2]; simpl in *;
      [by apply Hrec|by rewrite Hs..]. }
  set (s2 := if has_aof cfg then _ else s1).
  assert (parser_ (conn s2) = p) as Hp2 by (subst s2; by destruct (has_aof cfg)).
  unfold on_world. destruct (dispatch handlers cmd (world s2)) as [[r|e| |] w];
    cbn [snd conn]; rewrite ?Hp2; try done.
  apply Hrec. by destruct (has_stats cfg).
Qed.

Lemma finish_data_parser responses s :
  parser_ (conn (snd (finish_data cfg responses s))) = parser_ (conn s).
Proof. destruct responses; [apply parser_do_read|apply parser_do_write]. Qed.

Lemma handle_data_buffer handlers chunk s :
  max_request_bytes_ cfg < 2 ^ 62 ->
  0 <= max_request_bytes_ cfg ->
  zlen (buffer (snd (handle_data cfg handlers chunk s))) <= max_request_bytes_ cfg.
Proof.
  intros Hmax H0. unfold handle_data, RespParser_buffered_size.
  destruct (Z.ltb_spec (max_request_bytes_ cfg) (zlen (buffer s) + zlen chunk)) as [Hbig|Hfit].
  { cbn [put_conn snd conn]. by rewrite parser_do_write. }
  assert (addressable (buffer s ++ chunk)) as Ha.
  { unfold addressable. zlen_lia. }
  pose proof (data_loop_buffer (data_fuel (conn s) chunk) handlers chunk [] s Ha) as Hl.
  destruct (data_loop _ _ _ _ _ _) as [responses [[u|e| |] s']]; cbn [snd] in *;
    rewrite ?finish_data_parser; unfold zlen in *; try lia. simpl. lia.
Qed.

(** * The transition system *)

Context (handlers : gmap bytes HandlerFn).

Inductive conn_step : CState -> CState -> Prop :=
  | step_read chunk s s' :
      (0 < reads_in_flight (socket_ (conn s)))%nat -> (length chunk <= 4096)%nat ->
      on_read cfg handlers (Some chunk) s = (Ret tt, s') -> conn_step s s'
  | step_read_error s s' :
      (0 < reads_in_flight (socket_ (conn s)))%nat ->
      on_read cfg handlers None s = (Ret tt, s') -> conn_step s s'
  | step_written s :
      write_in_flight (conn s) ->
      conn_step s (MkCState (on_write cfg false (zlen (write_buf_ (conn s))) (conn s))
                     (aof s) (world s))
  | step_write_error n s :
      write_in_flight (conn s) ->
      conn_step s (MkCState (on_write cfg true n (conn s)) (aof s) (world s))
  | step_idle aborted error s :
      conn_step s (MkCState (on_idle aborted error (conn s)) (aof s) (world s))
  | step_push frame s :
      conn_step s (MkCState (do_write cfg frame (conn s)) (aof s) (world s))
  | step_others a w s : conn_step s (MkCState (conn s) a w).

Definition conn_initial (s : CState) : Prop := conn s = start cfg (Connection_new cfg).

Definition conn_reachable (s : CState) : Prop :=
  exists s0, conn_initial s0 /\ rtc conn_step s0 s.

(** Limits as the configuration gives them. *)
Definition limits_ok : Prop :=
  0 <= max_pending_write_bytes_ cfg /\ 0 <= max_request_bytes_ cfg < 2 ^ 62 /\
  idle_timeout_ns cfg <> UB.

Record conn_inv (s : CState) : Prop := {
  conn_io : io_inv cfg (conn s);
  conn_buffer : zlen (buffer s) <= max_request_bytes_ cfg;
}.

Lemma conn_inv_initial s : limits_ok -> conn_initial s -> conn_inv s.
Proof.
  intros (Hp & Hr & _) Hs. split; rewrite Hs; unfold start.
  - apply io_inv_do_read, io_inv_reset_timer, io_inv_new. done.
  - rewrite parser_do_read. unfold reset_idle_timer. destruct (_ || _); unfold zlen; simpl; lia.
Qed.

Lemma read_in_flight_flag s :
  io_inv cfg (conn s) -> (0 < reads_in_flight (socket_ (conn s)))%nat ->
  read_in_progress_ (conn s) = true.
Proof. intros [Hr _ _ _ _] Hf. destruct (read_in_progress_ _); [done|lia]. Qed.

Lemma on_read_buffer result s s' :
  limits_ok -> zlen (buffer s) <= max_request_bytes_ cfg ->
  on_read cfg handlers result s = (Ret tt, s') -> zlen (buffer s') <= max_request_bytes_ cfg.
Proof.
  intros (_ & [H0 Hmax] & _) Hb. destruct result as [chunk|]; [|by intros [= <-]].
  set (s1 := MkCState (reset_idle_timer cfg
               (with_socket (end_read (socket_ (conn s))) (with_reading false (conn s))))
               (aof s) (world s)).
  change (on_read cfg handlers (Some chunk) s) with (handle_data cfg handlers chunk s1).
  intros Hs. pose proof (handle_data_buffer handlers chunk s1 Hmax H0) as Hd. by rewrite Hs in Hd.
Qed.

Lemma parser_on_write ec n c : parser_ (on_write cfg ec n c) = parser_ c.
Proof.
  unfold on_write. destruct ec; [done|].
  destruct (write_queue_ _); [|by rewrite parser_flush].
  destruct (close_after_write_ _); [done|]. rewrite parser_do_read.
  unfold reset_idle_timer. by destruct (_ || _).
Qed.

(** Every step keeps the invariant and only appends to the output. *)
Lemma conn_step_kept s s' :
  limits_ok -> conn_inv s -> conn_step s s' ->
  conn_inv s' /\ exists l, output (conn s') = output (conn s) ++ l.
Proof.
  intros Hlim [Hio Hbuf] Hstep.
  assert (io_kept cfg s s') as Hk.
  { destruct Hstep as [chunk s s' Hf _ Hs|s s' Hf Hs|s Hf|n s Hf|a e s|frame s|a w s].
    - replace s' with (snd (on_read cfg handlers (Some chunk) s)) by by rewrite Hs.
      by apply on_read_io_kept, read_in_flight_flag.
    - replace s' with (snd (on_read cfg handlers None s)) by by rewrite Hs.
      by apply on_read_io_kept, read_in_flight_flag.
    - apply io_kept_same; [intros; by apply io_inv_on_write|apply output_on_write].
    - apply io_kept_same; [intros; by apply io_inv_on_write_err|apply output_on_write].
    - apply io_kept_same; [apply io_inv_on_idle|apply output_on_idle].
    - apply (ops_write (P := io_kept cfg) frame s).
    - by apply io_kept_same. }
  destruct (Hk Hio) as [Hio' Hout]. split; [|done]. split; [done|]. clear Hk Hio Hio' Hout.
  destruct Hstep as [chunk s s' _ _ Hs|s s' _ Hs|s _|n s _|a e s|frame s|a w s];
    try by eapply on_read_buffer.
  all: cbn [conn]; rewrite ?parser_on_write, ?parser_do_write; try done.
  unfold on_idle. destruct a; [done|]. destruct (negb _); [done|]. by destruct e.
Qed.

Lemma conn_inv_reachable s : limits_ok -> conn_reachable s -> conn_inv s.
Proof.
  intros Hlim (s0 & H0 & Hr). pose proof (conn_inv_initial s0 Hlim H0) as Hinv. clear H0.
  induction Hr as [s|s1 s2 s3 Hstep _ IH]; [done|]. apply IH. by eapply conn_step_kept.
Qed.
End Buffer.
