(* ===== verification/ConnTheorems.v ===== *)
(** Theorems on connections: bounds, order of output, shutdown, authentication. *)

From stdpp Require Import relations.
From S2P Require Import Prelude Cxx Resp RespParser RespParserFacts RespGrammar World Command.
From S2P Require Import PubSubBroker Dispatcher Aof Demo Connection ConnFacts ConnSteps.

Open Scope Z_scope.

Section Limits.
Context `{CxxRuntime} (cfg : ConnConfig) (handlers : gmap bytes HandlerFn).

(** Buffers handed to async_write whose completion has not been reported. *)
Definition in_flight (c : Connection) : list bytes :=
  drop (writes_done (socket_ c)) (writes_started (socket_ c)).

(** Bytes whose write has completed. *)
Definition sent (c : Connection) : bytes :=
  concat (take (writes_done (socket_ c)) (writes_started (socket_ c))).

Lemma in_flight_buf c :
  io_inv cfg c -> is_open (socket_ c) = true ->
  in_flight c = if write_in_progress_ c then [write_buf_ c] else [].
Proof.
  intros [_ _ Hi Hb _] Ho. unfold in_flight. destruct (write_in_progress_ c).
  - destruct (Hb Ho eq_refl) as [Hlen Hlast]. apply last_Some in Hlast as [l Hl].
    rewrite Hl, length_app in Hlen. simpl in Hlen. rewrite Hl.
    replace (writes_done (socket_ c)) with (length l) by lia. by rewrite drop_app_length.
  - destruct (Hi eq_refl) as [-> _]. apply drop_all.
Qed.

(** C29. Output is a first-in first-out stream: in every reachable state what has been
    sent is a prefix of what was accepted, a step never changes accepted bytes, and
    do_write takes its data whole and last or, at the limit, closes the socket and takes
    none of it. *)
Theorem output_fifo s :
  limits_ok cfg -> conn_reachable cfg handlers s ->
  sent (conn s) `prefix_of` output (conn s) /\
  (forall s', conn_step cfg handlers s s' -> output (conn s) `prefix_of` output (conn s')) /\
  (forall data, is_open (socket_ (conn s)) = true ->
     let c' := do_write cfg data (conn s) in
     if zlen (output (conn s)) - zlen (sent (conn s)) + zlen data <=? max_pending_write_bytes_ cfg
     then output c' = output (conn s) ++ data /\ is_open (socket_ c') = true
     else output c' = output (conn s) /\ is_open (socket_ c') = false).
Proof.
  intros Hlim Hr. pose proof (conn_inv_reachable cfg handlers s Hlim Hr) as Hinv.
  pose proof (conn_io _ _ Hinv) as Hio.
  assert (output (conn s) = sent (conn s) ++ concat (in_flight (conn s))
                            ++ concat (write_queue_ (conn s))) as Hout.
  { unfold output, sent, in_flight.
    rewrite <- (take_drop (writes_done (socket_ (conn s))) (writes_started (socket_ (conn s)))) at 1.
    by rewrite concat_app, <- app_assoc. }
  split_and!.
  - rewrite Hout. by eexists.
  - intros s' Hstep. destruct (conn_step_kept cfg handlers s s' Hlim Hinv Hstep) as [_ [l ->]].
    by exists l.
  - intros data Ho. pose proof (output_do_write cfg data (conn s) Hio Ho) as Hw. unfold written in Hw.
    replace (zlen (output (conn s)) - zlen (sent (conn s)))
      with (pending_write_bytes_ (conn s)); [done|].
    rewrite Hout, !zlen_app, (in_flight_buf _ Hio Ho). destruct Hio as [_ _ _ _ Hp].
    destruct (Hp Ho) as [-> _]. unfold total.
    destruct (write_in_progress_ _); cbn [concat]; rewrite ?app_nil_r; zlen_lia.
Qed.
End Limits.

(** * Oversized requests *)

(** The close_after_write_ flag, as the handlers leave it. *)
Definition close_kept (s s' : CState) : Prop :=
  close_after_write_ (conn s') = close_after_write_ (conn s).

#[export] Instance close_kept_preorder : PreOrder close_kept.
Proof. split; [by intros s|]. intros s1 s2 s3 H1 H2. unfold close_kept in *. congruence. Qed.

Lemma close_flush c : close_after_write_ (flush_write_queue c) = close_after_write_ c.
Proof. unfold flush_write_queue. destruct (write_queue_ c); [done|]. by destruct (negb _). Qed.

Lemma close_do_write cfg data c : close_after_write_ (do_write cfg data c) = close_after_write_ c.
Proof.
  unfold do_write. destruct (negb _); [done|]. destruct (_ <? _); [done|].
  destruct (write_in_progress_ _); [done|]. by rewrite close_flush.
Qed.

Lemma close_do_read c : close_after_write_ (do_read c) = close_after_write_ c.
Proof. unfold do_read. by destruct (_ || _). Qed.

#[export] Instance close_kept_ops cfg : LoopOps cfg close_kept.
Proof.
  split; [split; [apply _|..]|..]; try by intros.
  - intros data s. apply close_do_write.
  - intros s. apply close_do_read.
Qed.

(** After an open connection accepted data, a write is in flight. *)
Lemma do_write_busy cfg data c :
  is_open (socket_ (do_write cfg data c)) = true ->
  write_in_progress_ (do_write cfg data c) = true.
Proof.
  unfold do_write. destruct (is_open (socket_ c)) eqn:Ho; cbn [negb]; [|congruence].
  destruct (_ <? _); [done|]. cbn [with_writes with_pending write_in_progress_].
  destruct (write_in_progress_ c) eqn:Hw; [by intros _|]. unfold flush_write_queue.
  cbn [with_writes with_pending write_queue_ socket_]. rewrite Ho.
  by destruct (write_queue_ c ++ [data]) eqn:Hq; [destruct (write_queue_ c)|].
Qed.

Lemma flush_reading c : read_in_progress_ (flush_write_queue c) = read_in_progress_ c.
Proof. unfold flush_write_queue. destruct (write_queue_ c); [done|]. by destruct (negb _). Qed.

Lemma do_write_reading cfg data c : read_in_progress_ (do_write cfg data c) = read_in_progress_ c.
Proof.
  unfold do_write. destruct (negb _); [done|]. destruct (_ <? _); [done|].
  destruct (write_in_progress_ _); [done|]. by rewrite flush_reading.
Qed.

Section Closing.
Context `{CxxRuntime} (cfg : ConnConfig) (handlers : gmap bytes HandlerFn).

(** A connection that is to close reads no more, and closes when its writes are done. *)
Definition closing (c : Connection) : Prop :=
  close_after_write_ c = true ->
  read_in_progress_ c = false /\ (is_open (socket_ c) = true -> write_in_progress_ c = true).

Lemma handle_data_closing chunk s s' :
  read_in_progress_ (conn s) = false -> close_after_write_ (conn s) = false ->
  handle_data cfg handlers chunk s = (Ret tt, s') -> closing (conn s').
Proof.
  intros Hr Hc. unfold handle_data. destruct (_ <? _).
  { intros [= <-] _. cbn [conn]. rewrite do_write_reading. split; [done|apply do_write_busy]. }
  pose proof (data_loop_pres cfg close_kept (data_fuel (conn s) chunk) handlers chunk [] s) as Hl.
  assert (forall responses u, close_after_write_ (conn u) = false ->
            close_after_write_ (conn (snd (finish_data cfg responses u))) = false) as Hfin.
  { intros [] u Hu; simpl; [by rewrite close_do_read|by rewrite close_do_write]. }
  unfold close_kept in Hl. rewrite Hc in Hl.
  destruct (data_loop _ _ _ _ _ _) as [responses [[u|e| |] s1]]; cbn [snd] in Hl; try done.
  - intros Hs. pose proof (Hfin responses s1 Hl) as Hf. rewrite Hs in Hf. simpl in Hf.
    intros Hx. congruence.
  - set (s2 := MkCState _ _ _). set (rs := responses ++ _). intros Hs.
    pose proof (Hfin rs s2 Hl) as Hf. rewrite Hs in Hf. simpl in Hf. intros Hx. congruence.
Qed.

Lemma closing_step s s' :
  limits_ok cfg -> conn_inv cfg s -> closing (conn s) -> conn_step cfg handlers s s' ->
  closing (conn s').
Proof.
  intros Hlim [Hio _] Hcl Hstep.
  destruct Hstep as [chunk s s' Hf _ Hs|s s' Hf Hs|s Hf|n s Hf|a e s|frame s|a w s].
  - assert (close_after_write_ (conn s) = false) as Hc.
    { destruct (close_after_write_ (conn s)) eqn:Hc; [|done]. destruct (Hcl Hc) as [Hr _].
      pose proof (read_in_flight_flag cfg s Hio Hf). congruence. }
    set (s1 := MkCState (reset_idle_timer cfg
                 (with_socket (end_read (socket_ (conn s))) (with_reading false (conn s))))
                 (aof s) (world s)).
    change (handle_data cfg handlers chunk s1 = (Ret tt, s')) in Hs.
    eapply handle_data_closing; [| |exact Hs]; unfold s1, reset_idle_timer; by destruct (_ || _).
  - injection Hs as <-. intros Hc. simpl in *. split; [done|]. done.
  - intros Hc. pose proof (write_in_flight_busy cfg (conn s) Hio Hf) as Hw. unfold on_write in *.
    cbn [conn] in *. set (c1 := with_pending _ _) in *.
    assert (write_queue_ c1 = write_queue_ (conn s)) as Hq by done.
    rewrite Hq in *. destruct (write_queue_ (conn s)) as [|front rest].
    + assert (close_after_write_ (with_writes (write_buf_ c1) [] false c1)
              = close_after_write_ (conn s)) as Hcc by done.
      rewrite Hcc in *. destruct (close_after_write_ (conn s)) eqn:Hcl1.
      * destruct (Hcl Hcl1) as [Hr _]. split; [exact Hr|done].
      * rewrite close_do_read in Hc. unfold reset_idle_timer in Hc.
        destruct (_ || _); change (close_after_write_ (conn s) = true) in Hc; congruence.
    + rewrite close_flush in Hc. destruct (Hcl Hc) as [Hr _].
      split; [by rewrite flush_reading|]. unfold flush_write_queue. rewrite Hq.
      destruct (is_open (socket_ c1)) eqn:Ho; cbn [negb]; [done|]. intros Ho'.
      change (is_open (socket_ c1) = true) in Ho'. congruence.
  - intros Hc. destruct (Hcl Hc) as [Hr _]. by split.
  - revert Hcl. unfold on_idle. cbn [conn]. destruct a; [done|]. intros Hcl.
    destruct (negb _); [done|]. destruct e; [done|]. intros Hc. by destruct (Hcl Hc).
  - intros Hc. cbn [conn] in *. rewrite close_do_write in Hc. rewrite do_write_reading.
    split; [by apply Hcl|apply do_write_busy].
  - exact Hcl.
Qed.

(** An oversized request is answered with an error and its bytes are dropped. *)
Lemma oversized_answered chunk s :
  io_inv cfg (conn s) -> max_request_bytes_ cfg < zlen (buf_ (parser_ (conn s))) + zlen chunk ->
  exists c, handle_data cfg handlers chunk s = (Ret tt, MkCState c (aof s) (world s)) /\
    close_after_write_ c = true /\ parser_ c = RespParser_new /\
    (is_open (socket_ (conn s)) = true ->
     written cfg (serialize (RespError "ERR max request size exceeded"%b)) (conn s) c).
Proof.
  intros Hio Hbig. unfold handle_data, RespParser_buffered_size.
  destruct (Z.ltb_spec (max_request_bytes_ cfg) (zlen (buf_ (parser_ (conn s))) + zlen chunk));
    [|lia]. eexists. split; [reflexivity|]. rewrite close_do_write, parser_do_write.
  split_and!; [done..|]. intros Ho.
  set (c1 := with_parser _ _).
  assert (io_inv cfg c1) as Hi by by destruct Hio.
  exact (output_do_write cfg _ c1 Hi Ho).
Qed.

(** From then on no read is in flight and, as long as the socket is open, a write is. *)
Lemma closing_reachable s :
  limits_ok cfg -> conn_reachable cfg handlers s -> close_after_write_ (conn s) = true ->
  reads_in_flight (socket_ (conn s)) = 0%nat /\
  (is_open (socket_ (conn s)) = true -> write_in_flight (conn s)).
Proof.
  intros Hlim Hreach Hc. pose proof (conn_inv_reachable cfg handlers s Hlim Hreach) as [Hio _].
  assert (closing (conn s)) as Hcl.
  { clear Hc Hio. destruct Hreach as (s0 & H0 & Hr).
    pose proof (conn_inv_initial cfg s0 Hlim H0) as Hinv.
    assert (closing (conn s0)) as Hcl.
    { intros Hc. rewrite H0 in Hc. unfold start in Hc. rewrite close_do_read in Hc.
      unfold reset_idle_timer in Hc. by destruct (_ || _). }
    clear H0. induction Hr as [s|s1 s2 s3 Hstep _ IH]; [done|]. apply IH.
    - by eapply conn_step_kept.
    - by eapply closing_step. }
  destruct (Hcl Hc) as [Hr Hw]. destruct Hio as [Hrd _ _ Hb _]. rewrite Hr in Hrd.
  split; [done|]. intros Ho. destruct (Hb Ho (Hw Ho)) as [Hlen _].
  unfold write_in_flight. lia.
Qed.

(** C28. Bounds of a connection, in every state any interleaving of its completion
    handlers, pushed messages and the rest of the server can reach: at most one read and
    at most one write are in flight, the parser buffers no more than max_request_bytes,
    and while the socket is open pending_write_bytes_ is exactly the number of bytes not
    yet sent and at most max_pending_write_bytes. A request above the limit ends the
    connection: the error that the request is too large is written, whole and last, unless
    that exceeds the limit on unsent bytes and closes the socket, the bytes of the request
    are dropped, and in every state
    after that no read is in flight and, as long as the socket is open, a write is, whose
    completion flushes the queue or closes the socket. *)
Theorem connection_limits s :
  limits_ok cfg -> conn_reachable cfg handlers s ->
  (reads_in_flight (socket_ (conn s)) <= 1)%nat /\
  (length (in_flight (conn s)) <= 1)%nat /\
  zlen (buf_ (parser_ (conn s))) <= max_request_bytes_ cfg /\
  (is_open (socket_ (conn s)) = true ->
     pending_write_bytes_ (conn s)
       = zlen (concat (in_flight (conn s))) + zlen (concat (write_queue_ (conn s))) /\
     pending_write_bytes_ (conn s) <= max_pending_write_bytes_ cfg) /\
  (forall chunk, max_request_bytes_ cfg < zlen (buf_ (parser_ (conn s))) + zlen chunk ->
     exists c, handle_data cfg handlers chunk s = (Ret tt, MkCState c (aof s) (world s)) /\
       close_after_write_ c = true /\ parser_ c = RespParser_new /\
       (is_open (socket_ (conn s)) = true ->
        written cfg (serialize (RespError "ERR max request size exceeded"%b)) (conn s) c)) /\
  (close_after_write_ (conn s) = true ->
     reads_in_flight (socket_ (conn s)) = 0%nat /\
     (is_open (socket_ (conn s)) = true -> write_in_flight (conn s))).
Proof.
  intros Hlim Hr. destruct (conn_inv_reachable cfg handlers s Hlim Hr) as [Hio Hbuf].
  split_and!; [| |done| |intros ?; by apply oversized_answered|by apply closing_reachable].
  - destruct Hio as [-> _ _ _ _]. destruct (read_in_progress_ _); lia.
  - unfold in_flight. rewrite length_drop. destruct Hio. lia.
  - intros Ho. rewrite (in_flight_buf _ _ Hio Ho). destruct Hio as [_ _ _ _ Hp].
    destruct (Hp Ho) as [Hp1 Hp2]. split; [|lia]. rewrite Hp1. unfold total.
    destruct (write_in_progress_ _); simpl; by rewrite ?app_nil_r.
Qed.
End Closing.

(** * Witnesses *)

#[local] Existing Instance demo_runtime.
#[local] Existing Instance demo_schedule.

Definition small_cfg : ConnConfig := MkConnConfig 7 true true true [] 100 300 1000.

Definition fresh_state : CState :=
  MkCState (start small_cfg (Connection_new small_cfg)) (MkAof [] true) demo_world.

(** The state after a first read. *)
Definition read_state (chunk : bytes) : CState :=
  snd (on_read small_cfg (make_default true) (Some chunk) fresh_state).

Lemma read_state_reachable chunk :
  (length chunk <= 4096)%nat ->
  fst (on_read small_cfg (make_default true) (Some chunk) fresh_state) = Ret tt ->
  conn_reachable small_cfg (make_default true) (read_state chunk).
Proof.
  intros Hlen Hret. exists fresh_state. split; [done|]. apply rtc_once.
  apply (step_read _ _ chunk); [by vm_compute|done|].
  rewrite <- Hret. apply surjective_pairing.
Qed.

Lemma small_limits : limits_ok small_cfg.
Proof. vm_compute. split_and!; discriminate || reflexivity. Qed.

Lemma connection_limits_witness :
  pending_write_bytes_ (conn (read_state (serialize (RespArray [RespBulkString "PING"%b]))))
  <= 1000 /\
  reads_in_flight (socket_ (conn (read_state (replicate 101 "*"%char)))) = 0%nat.
Proof.
  split.
  2: { apply (connection_limits small_cfg (make_default true)); [apply small_limits| |].
       - apply read_state_reachable; [apply Nat.leb_le; reflexivity|vm_compute; reflexivity].
       - vm_compute. reflexivity. }
  destruct (connection_limits small_cfg (make_default true)
              (read_state (serialize (RespArray [RespBulkString "PING"%b]))))
    as (_ & _ & _ & Hp & _).
  - apply small_limits.
  - apply read_state_reachable; [apply Nat.leb_le; reflexivity|vm_compute; reflexivity].
  - apply Hp. vm_compute. reflexivity.
Defined.

(** The reply to a PING is on its way. *)
Definition ping_state : CState := read_state (serialize (RespArray [RespBulkString "PING"%b])).

Lemma ping_state_io :
  conn_reachable small_cfg (make_default true) ping_state /\
  is_open (socket_ (conn ping_state)) = true /\ sent (conn ping_state) = [] /\
  output (conn ping_state) = serialize (RespSimpleString "PONG"%b).
Proof.
  split; [|vm_compute; split_and!; reflexivity].
  apply read_state_reachable; [apply Nat.leb_le; reflexivity|vm_compute; reflexivity].
Qed.

(** A frame goes behind it; one that is too long closes the socket and leaves the output
    alone. *)
Lemma output_fifo_witness :
  output (do_write small_cfg "frame"%b (conn ping_state))
    = serialize (RespSimpleString "PONG"%b) ++ "frame"%b /\
  is_open (socket_ (do_write small_cfg (replicate 994 "x"%char) (conn ping_state))) = false.
Proof.
  destruct ping_state_io as (Hr & Hopen & Hsent & Ho).
  destruct (output_fifo small_cfg (make_default true) ping_state small_limits Hr) as (_ & _ & Hw).
  revert Hw Hopen. rewrite Hsent, Ho. generalize (conn ping_state). intros c Hw Hopen. split.
  - apply (Hw "frame"%b Hopen).
  - specialize (Hw (replicate 994 "x"%char) Hopen).
    assert ((zlen (serialize (RespSimpleString "PONG"%b)) - zlen ([] : bytes)
             + zlen (replicate 994 "x"%char) <=? max_pending_write_bytes_ small_cfg) = false) as Hfull
      by (vm_compute; reflexivity).
    cbv zeta in Hw. rewrite Hfull in Hw. exact (proj2 Hw).
Defined.
