(* ===== verification/ConnProgress.v ===== *)
(** A connection never stalls: while its socket is open something is in flight that will
    call one of its handlers again, and the idle timer watches it. *)

From stdpp Require Import relations.
From S2P Require Import Prelude Cxx Resp RespParser World Command PubSubBroker Dispatcher Aof Demo.
From S2P Require Import Connection ConnFacts ConnSteps ConnTheorems.

Open Scope Z_scope.

(** * Reading or writing *)

Definition busy (c : Connection) : Prop :=
  is_open (socket_ c) = true -> read_in_progress_ c = true \/ write_in_progress_ c = true.

Section Busy.
Context (cfg : ConnConfig).

Lemma busy_closed c : is_open (socket_ c) = false -> busy c.
Proof. unfold busy. congruence. Qed.

Lemma busy_do_read c : busy (do_read c).
Proof.
  unfold do_read, busy. destruct (read_in_progress_ c) eqn:Hr; [by left|].
  destruct (is_open (socket_ c)) eqn:Ho; simpl; [by left|congruence].
Qed.

Lemma busy_flush c : write_queue_ c <> [] -> busy (flush_write_queue c).
Proof.
  intros Hq. unfold flush_write_queue, busy. destruct (write_queue_ c); [done|].
  destruct (is_open (socket_ c)) eqn:Ho; simpl; [by right|congruence].
Qed.

Lemma busy_do_write data c : busy (do_write cfg data c).
Proof.
  unfold do_write. destruct (is_open (socket_ c)) eqn:Ho; cbn [negb]; [|by apply busy_closed].
  destruct (_ <? _); [by apply busy_closed|].
  destruct (write_in_progress_ _) eqn:Hw; [by right|]. apply busy_flush.
  simpl. by destruct (write_queue_ c).
Qed.

Lemma busy_on_write ec n c : busy (on_write cfg ec n c).
Proof.
  unfold on_write. destruct ec; [by apply busy_closed|].
  match goal with |- context [match write_queue_ ?c with _ => _ end] => set (c1 := c) end.
  destruct (write_queue_ c1) as [|front rest] eqn:Hq; [|apply busy_flush; by rewrite Hq].
  destruct (close_after_write_ _); [by apply busy_closed|apply busy_do_read].
Qed.

Lemma busy_on_idle a e c : busy c -> busy (on_idle a e c).
Proof.
  intros Hb. unfold on_idle. destruct a; [done|].
  destruct (is_open (socket_ (with_socket _ c))) eqn:Ho; cbn [negb]; [|by apply busy_closed].
  destruct e; [done|by apply busy_closed].
Qed.

Context `{CxxRuntime} (handlers : gmap bytes HandlerFn).

Lemma busy_finish responses s : busy (conn (snd (finish_data cfg responses s))).
Proof. destruct responses; [apply busy_do_read|apply busy_do_write]. Qed.

Lemma busy_handle_data chunk s s' :
  handle_data cfg handlers chunk s = (Ret tt, s') -> busy (conn s').
Proof.
  unfold handle_data. destruct (_ <? _).
  { intros [= <-]. apply busy_do_write. }
  destruct (data_loop _ _ _ _ _ _) as [responses [[u|e| |] s1]]; try done; intros Hs.
  - pose proof (busy_finish responses s1) as Hb. by rewrite Hs in Hb.
  - match type of Hs with finish_data _ ?r ?s2 = _ => pose proof (busy_finish r s2) as Hb end.
    by rewrite Hs in Hb.
Qed.

Lemma busy_step s s' : conn_step cfg handlers s s' -> busy (conn s) -> busy (conn s').
Proof.
  intros Hstep Hb.
  destruct Hstep as [chunk s s' _ _ Hs|s s' _ Hs|s _|n s _|a e s|frame s|a w s]; cbn [conn].
  - unfold on_read in Hs. eapply busy_handle_data. exact Hs.
  - injection Hs as <-. by apply busy_closed.
  - apply busy_on_write.
  - apply busy_on_write.
  - by apply busy_on_idle.
  - apply busy_do_write.
  - done.
Qed.

Lemma busy_reachable s : conn_reachable cfg handlers s -> busy (conn s).
Proof.
  intros (s0 & H0 & Hr). assert (busy (conn s0)) as Hb.
  { rewrite H0. apply busy_do_read. }
  clear H0. induction Hr as [|s1 s2 s3 Hstep _ IH]; [done|]. apply IH. by eapply busy_step.
Qed.
End Busy.

(** * The idle timer *)

(** An open connection has a wait on its timer, if a timeout is configured. *)
Definition watched (cfg : ConnConfig) (c : Connection) : Prop :=
  idle_timeout_ cfg <> 0 -> is_open (socket_ c) = true -> timer_armed (socket_ c) = true.

Definition watch_kept (cfg : ConnConfig) (s s' : CState) : Prop :=
  watched cfg (conn s) -> watched cfg (conn s').

Section Watched.
Context (cfg : ConnConfig).

#[export] Instance watch_kept_preorder : PreOrder (watch_kept cfg).
Proof. split; [by intros s Hs|]. intros s1 s2 s3 H1 H2 Hs. auto. Qed.

Lemma watched_flush c : watched cfg c -> watched cfg (flush_write_queue c).
Proof.
  intros Hw. unfold flush_write_queue. destruct (write_queue_ c); [done|].
  by destruct (negb _).
Qed.

Lemma watched_do_write data c : watched cfg c -> watched cfg (do_write cfg data c).
Proof.
  intros Hw. unfold do_write. destruct (negb _); [done|]. destruct (_ <? _).
  { by intros _ Ho. }
  destruct (write_in_progress_ _); [done|]. by apply watched_flush.
Qed.

Lemma watched_do_read c : watched cfg c -> watched cfg (do_read c).
Proof. intros Hw. unfold do_read. by destruct (_ || _). Qed.

Lemma watched_reset c : watched cfg (reset_idle_timer cfg c).
Proof.
  unfold reset_idle_timer. destruct (Z.eqb_spec (idle_timeout_ cfg) 0); simpl; [by intros ?|].
  destruct (is_open (socket_ c)) eqn:Ho; simpl; [by intros ? ?|]. intros _ Ho'. congruence.
Qed.

#[export] Instance watch_kept_ops : LoopOps cfg (watch_kept cfg).
Proof.
  split; [split; [apply _|..]|..].
  - intros data s Hw. by apply watched_do_write.
  - intros s Hw. by apply watched_do_read.
  - intros f s Hw. exact Hw.
  - intros s w Hw. exact Hw.
  - intros s p Hw. exact Hw.
  - intros s Hw. exact Hw.
  - intros s a w Hw. exact Hw.
Qed.

Lemma watched_on_write ec n c : watched cfg c -> watched cfg (on_write cfg ec n c).
Proof.
  intros Hw. unfold on_write. destruct ec; [by intros _ Ho|].
  match goal with |- context [match write_queue_ ?c with _ => _ end] => set (c1 := c) end.
  destruct (write_queue_ c1); [|by apply watched_flush].
  destruct (close_after_write_ _); [by intros _ Ho|]. apply watched_do_read, watched_reset.
Qed.

Context `{CxxRuntime} (handlers : gmap bytes HandlerFn).

(** Only a failing wait is not renewed. *)
Lemma watched_step s s' :
  conn_step cfg handlers s s' -> watched cfg (conn s) ->
  watched cfg (conn s') \/ s' = MkCState (on_idle false true (conn s)) (aof s) (world s).
Proof.
  intros Hstep Hw.
  destruct Hstep as [chunk s s' _ _ Hs|s s' _ Hs|s _|n s _|a e s|frame s|a w s]; cbn [conn].
  - left. unfold on_read in Hs.
    pose proof (handle_data_pres cfg (watch_kept cfg) handlers chunk (fun s Hw => Hw)) as Hk.
    match type of Hs with ?m s = _ => set (s1 := MkCState (reset_idle_timer cfg (with_socket
      (end_read (socket_ (conn s))) (with_reading false (conn s)))) (aof s) (world s)) end.
    change (handle_data cfg handlers chunk s1 = (Ret tt, s')) in Hs.
    specialize (Hk s1). rewrite Hs in Hk. apply Hk. apply watched_reset.
  - left. injection Hs as <-. by intros _ Ho.
  - left. by apply watched_on_write.
  - left. by apply watched_on_write.
  - destruct a; [by left|]. destruct e; [by right|]. left. intros _. unfold on_idle.
    cbn [is_open socket_ with_socket cancel_timer]. by destruct (is_open (socket_ (conn s))) eqn:Ho;
      simpl; rewrite ?Ho.
  - left. by apply watched_do_write.
  - by left.
Qed.
End Watched.

(** Which timeouts overflow: from about 292 years up, but for the last values, which become
    negative and expire at once. *)
Lemma idle_timeout_ns_overflow cfg :
  0 <= idle_timeout_ cfg < 2 ^ 64 ->
  idle_timeout_ns cfg = UB <-> 9223372036 < idle_timeout_ cfg < 2 ^ 64 - 9223372036.
Proof.
  intros Ht. unfold idle_timeout_ns, int64. destruct (in_int64 _) eqn:Hin.
  - split; [done|]. intros Hb. apply in_int64_spec in Hin. revert Hin.
    unfold to_int64, INT64_MIN, INT64_MAX. rewrite Z.mod_small by done. case_match; lia.
  - split; [|done]. intros _. apply not_true_iff_false in Hin. rewrite in_int64_spec in Hin. revert Hin.
    unfold to_int64, INT64_MIN, INT64_MAX. rewrite Z.mod_small by done. case_match; lia.
Qed.

(** C30. No connection hangs: in every reachable state an open connection has a read or a
    write in flight, whose completion calls it again. If an idle timeout is configured, a
    new connection has a wait on its timer and every step of an open connection keeps or
    renews it, except the failure of that very wait; and when the wait is over the socket
    is closed. *)
Theorem connection_never_stalls `{CxxRuntime} (cfg : ConnConfig)
    (handlers : gmap bytes HandlerFn) (s : CState) :
  limits_ok cfg -> conn_reachable cfg handlers s ->
  (is_open (socket_ (conn s)) = true ->
     reads_in_flight (socket_ (conn s)) = 1%nat \/ write_in_flight (conn s)) /\
  (forall s0, conn_initial cfg s0 -> watched cfg (conn s0)) /\
  (forall s', conn_step cfg handlers s s' -> watched cfg (conn s) ->
     watched cfg (conn s') \/ s' = MkCState (on_idle false true (conn s)) (aof s) (world s)) /\
  is_open (socket_ (on_idle false false (conn s))) = false.
Proof.
  intros Hlim Hr. pose proof (conn_io _ _ (conn_inv_reachable cfg handlers s Hlim Hr)) as Hio.
  split_and!.
  - intros Ho. destruct (busy_reachable cfg handlers s Hr Ho) as [Hread|Hwrite].
    + left. destruct Hio as [-> _ _ _ _]. by rewrite Hread.
    + right. destruct (inv_busy _ _ Hio Ho Hwrite) as [Hlen _]. unfold write_in_flight. lia.
  - intros s0 H0. rewrite H0. apply watched_do_read, watched_reset.
  - intros s' Hs. by apply (watched_step cfg handlers).
  - unfold on_idle. simpl. by destruct (is_open (socket_ (conn s))) eqn:Ho.
Qed.

(** * Witness *)

#[local] Existing Instance demo_runtime.
#[local] Existing Instance demo_schedule.

Lemma connection_never_stalls_witness :
  write_in_flight (conn (read_state (serialize (RespArray [RespBulkString "PING"%b])))).
Proof.
  destruct (connection_never_stalls small_cfg (make_default true)
              (read_state (serialize (RespArray [RespBulkString "PING"%b])))) as [Hf _].
  - apply small_limits.
  - apply read_state_reachable; [apply Nat.leb_le; reflexivity|vm_compute; reflexivity].
  - destruct Hf as [Hr|Hw]; [vm_compute; reflexivity| |exact Hw].
    vm_compute in Hr. discriminate.
Defined.
