(* ===== verification/ConnServe.v ===== *)
(** What a connection does with the commands it receives: authentication, termination,
    and the replies to a pipeline. *)

From S2P Require Import Prelude Cxx Resp RespParser RespParserFacts RespGrammar RespTheorems.
From S2P Require Import World Command PubSubBroker Dispatcher Aof Demo Histories HandlerTotal.
From S2P Require Import AofTheorems Connection ConnFacts ConnSteps.

Open Scope Z_scope.

(** * Authentication *)

Definition auth_kept (s s' : CState) : Prop :=
  authenticated_ (conn s) = true -> authenticated_ (conn s') = true.

#[export] Instance auth_kept_preorder : PreOrder auth_kept.
Proof. split; [by intros s Hs|]. intros s1 s2 s3 H1 H2 Ha. auto. Qed.

Lemma auth_flush c : authenticated_ (flush_write_queue c) = authenticated_ c.
Proof. unfold flush_write_queue. destruct (write_queue_ c); [done|]. by destruct (negb _). Qed.

Lemma auth_do_write cfg data c : authenticated_ (do_write cfg data c) = authenticated_ c.
Proof.
  unfold do_write. destruct (negb _); [done|]. destruct (_ <? _); [done|].
  destruct (write_in_progress_ _); [done|]. by rewrite auth_flush.
Qed.

Lemma auth_do_read c : authenticated_ (do_read c) = authenticated_ c.
Proof. unfold do_read. by destruct (_ || _). Qed.

#[export] Instance auth_kept_ops cfg : LoopOps cfg auth_kept.
Proof.
  split; [split; [apply _|..]|..].
  - intros data s Ha. simpl. by rewrite auth_do_write.
  - intros s Ha. simpl. by rewrite auth_do_read.
  - by intros f s Ha.
  - by intros s w Ha.
  - by intros s p Ha.
  - by intros s Ha.
  - by intros s a w Ha.
Qed.

Section Auth.
Context `{CxxRuntime} (cfg : ConnConfig) (handlers : gmap bytes HandlerFn).

Lemma handle_auth_cases cmd c :
  snd (handle_auth cfg cmd c) = c \/
  (snd (handle_auth cfg cmd c) = with_authenticated true c /\ args cmd = [requirepass_ cfg] /\
   requirepass_ cfg <> []).
Proof.
  unfold handle_auth. destruct (args cmd) as [|pass []]; [by left| |by left].
  destruct (requirepass_ cfg) as [|x t]; [by left|]. case_decide as Hp; [right|by left].
  by rewrite Hp.
Qed.

(** The values of the stream hold an AUTH with the right password. *)
Definition password_given (vs : list RespValue) : Prop :=
  exists v cmd, v ∈ vs /\ parse_command v = Some cmd /\ name cmd = "AUTH"%b /\
    args cmd = [requirepass_ cfg] /\ requirepass_ cfg <> [].

Definition stream_values (buf : bytes) : list RespValue := fst (fst (drain_all buf)).

Lemma password_later v vs : password_given vs -> password_given (v :: vs).
Proof. intros (v' & cmd & Hv & Hc). exists v', cmd. set_solver. Qed.

Lemma data_loop_auth fuel chunk responses s :
  addressable (buffer s ++ chunk) -> authenticated_ (conn s) = false ->
  let s' := snd (snd (data_loop cfg fuel handlers chunk responses s)) in
  (authenticated_ (conn s') = true -> password_given (stream_values (buffer s ++ chunk))) /\
  (authenticated_ (conn s') = false -> world s' = world s /\ aof s' = aof s).
Proof.
  revert chunk responses s. induction fuel as [|fuel IH]; intros chunk responses s Ha Hn;
    cbn [data_loop].
  { simpl. rewrite Hn. done. }
  pose proof (feed_cases (parser_ (conn s)) chunk Ha) as Hf.
  unfold stream_values. rewrite drain_all_step, <- feed_of_buf by done.
  destruct (RespParser_feed _ chunk) as [val p].
  set (s1 := MkCState (with_parser p (conn s)) (aof s) (world s)).
  assert (authenticated_ (conn s1) = false) as Hn1 by done.
  destruct val as [[val|]|e| |]; try (cbn [snd]; rewrite Hn1; done).
  destruct Hf as (t & _ & Ht & _). rewrite Ht in Ha. apply addressable_app_r in Ha.
  specialize (IH []). rewrite <- (app_nil_r (buf_ p)) in Ha.
  unfold stream_values in IH. cbv zeta in IH. 
  assert (forall r s2, parser_ (conn s2) = p -> world s2 = world s -> aof s2 = aof s ->
    authenticated_ (conn s2) = false ->
    let s' := snd (snd (data_loop cfg fuel handlers [] r s2)) in
    (authenticated_ (conn s') = true -> password_given (fst (fst (drain_all (buf_ p))))) /\
    (authenticated_ (conn s') = false -> world s' = world s /\ aof s' = aof s)) as Hrec.
  { intros r s2 Hp2 Hw2 Ha2 Hn2. specialize (IH r s2). rewrite Hp2, Hw2, Ha2 in IH.
    rewrite (app_nil_r (buf_ p)) in IH. apply IH; [|done]. by rewrite app_nil_r in Ha. }
  destruct (drain_all (buf_ p)) as [[vs st] q]. cbn [fst] in *.
  destruct (parse_command val) as [cmd|] eqn:Hcmd; [|simpl; rewrite Hn; done].
  case_decide as Hname.
  - pose proof (handle_auth_cases cmd (conn s1)) as Hc.
    destruct (handle_auth cfg cmd (conn s1)) as [r c]. cbn [snd] in Hc.
    destruct Hc as [-> |(-> & Hargs & Hpass)].
    + destruct (Hrec (responses ++ serialize r) (MkCState (conn s1) (aof s1) (world s1)))
        as [H1 H2]; try done. split; [|done]. intros Ht'. by apply password_later, H1.
    + pose proof (data_loop_pres cfg auth_kept fuel handlers [] (responses ++ serialize r)
        (MkCState (with_authenticated true (conn s1)) (aof s1) (world s1)) eq_refl) as Hk.
      split; [|congruence]. intros _. exists val, cmd. split_and!; try done. set_solver.
  - rewrite Hn1. cbn [negb].
    destruct (Hrec (responses ++ serialize (RespError "NOAUTH Authentication required."%b)) s1)
      as [H1 H2]; try done. split; [|done]. intros Ht'. by apply password_later, H1.
Qed.

Lemma handle_data_shape chunk s :
  addressable (buffer s ++ chunk) ->
  exists fuel, let s' := snd (handle_data cfg handlers chunk s) in
  let s1 := snd (snd (data_loop cfg fuel handlers chunk [] s)) in
  authenticated_ (conn s') = authenticated_ (conn s1) /\ world s' = world s1 /\ aof s' = aof s1.
Proof.
  intros Ha. unfold handle_data. destruct (_ <? _).
  { exists 0%nat. cbn. by rewrite auth_do_write. }
  exists (data_fuel (conn s) chunk).
  assert (forall responses u, let u' := snd (finish_data cfg responses u) in
    authenticated_ (conn u') = authenticated_ (conn u) /\ world u' = world u /\ aof u' = aof u)
    as Hfin.
  { intros [] u; simpl; [by rewrite auth_do_read|by rewrite auth_do_write]. }
  destruct (data_loop _ _ _ _ _ _) as [responses [[u|e| |] s']]; cbn [snd]; [| |done..].
  - apply Hfin.
  - set (s2 := MkCState _ _ _). apply (Hfin (responses ++ _) s2).
Qed.

(** C27. Authentication: a connection that is not authenticated stays so unless the bytes
    it received contain the AUTH command with the configured, non-empty password; and as
    long as it is not, nothing it sends touches the store, the channels, the metrics or
    the append-only file. New connections are authenticated exactly when no password is
    configured. *)
Theorem auth_gate chunk s :
  addressable (buf_ (parser_ (conn s)) ++ chunk) -> authenticated_ (conn s) = false ->
  let s' := snd (handle_data cfg handlers chunk s) in
  (authenticated_ (conn s') = true ->
     password_given (stream_values (buf_ (parser_ (conn s)) ++ chunk))) /\
  (authenticated_ (conn s') = false -> world s' = world s /\ aof s' = aof s) /\
  (authenticated_ (Connection_new cfg) = true <-> requirepass_ cfg = []).
Proof.
  intros Ha Hn. cbv zeta. destruct (handle_data_shape chunk s Ha) as (fuel & Hs1 & Hs2 & Hs3).
  rewrite Hs1, Hs2, Hs3. destruct (data_loop_auth fuel chunk [] s Ha Hn) as [H1 H2].
  split_and!; [done|done|]. simpl. apply bool_decide_eq_true.
Qed.
End Auth.

(** * Termination *)

Section Total.
Context `{CxxRuntime} (cfg : ConnConfig).

Definition nret {A} (m : N A) : Prop := forall s, exists a, fst (m s) = Ret a.

Lemma nret_ret {A} (a : A) : nret (mret a).
Proof. intros s. by exists a. Qed.

Lemma nret_bind {A B} (m : N A) (k : A -> N B) :
  nret m -> (forall a, nret (k a)) -> nret (m ≫= k).
Proof.
  intros Hm Hk s. unfold mbind, N_bind. destruct (Hm s) as [a Ha].
  destruct (m s) as [o u]. simpl in Ha. subst o. apply Hk.
Qed.

Lemma nret_modify f : nret (modify_conn f).
Proof. intros s. by exists tt. Qed.

Lemma nret_subscribe_loop chs replies : nret (subscribe_loop cfg chs replies).
Proof.
  revert replies. induction chs as [|ch chs IH]; intros replies; simpl; [apply nret_ret|].
  apply nret_bind; [intros s; by eexists|]. intros n. apply nret_bind; [apply nret_modify|auto].
Qed.

Lemma nret_unsubscribe_loop chs replies : nret (unsubscribe_loop cfg chs replies).
Proof.
  revert replies. induction chs as [|ch chs IH]; intros replies; simpl; [apply nret_ret|].
  apply nret_bind.
  { intros s. unfold on_world, PubSubBroker_unsubscribe.
    destruct (channels_ (world s) !! ch); by eexists. }
  intros n. apply nret_bind; [apply nret_modify|auto].
Qed.

Lemma nret_left_loop chs replies : nret (left_loop chs replies).
Proof.
  revert replies. induction chs as [|ch chs IH]; intros replies; simpl; [apply nret_ret|].
  apply nret_bind; [apply nret_modify|auto].
Qed.

Lemma handle_subscribe_ret cmd : nret (handle_subscribe cfg cmd).
Proof.
  unfold handle_subscribe. destruct (_ || _); [apply nret_modify|].
  apply nret_bind; [apply nret_subscribe_loop|]. intros. apply nret_modify.
Qed.

Lemma handle_unsubscribe_ret cmd : nret (handle_unsubscribe cfg cmd).
Proof.
  unfold handle_unsubscribe. destruct (negb _); [apply nret_modify|].
  apply nret_bind; [|intros; apply nret_modify].
  destruct (args cmd); [|apply nret_unsubscribe_loop].
  apply nret_bind.
  { intros s. unfold on_world, PubSubBroker_unsubscribe_all.
    destruct (unsubscribe_walk _ _ _ _). by eexists. }
  intros chs. apply nret_bind; [apply nret_left_loop|]. intros r.
  destruct chs; apply nret_ret.
Qed.

Context (Sch : Schedule) `{!ScheduleOk Sch} (broker : bool).
Abbreviation commands := (@make_default _ Sch broker).

Definition loop_ends (buf : bytes) (r : Out unit * CState) : Prop :=
  match r with
  | (Ret _, _) | (Exn _, _) => True
  | (UB, s') => overflows commands (commands_in buf) (world s')
  | (NoFuel, _) => False
  end.

Lemma loop_ends_mono buf buf' r :
  (forall cmd, cmd ∈ commands_in buf -> cmd ∈ commands_in buf') -> loop_ends buf r -> loop_ends buf' r.
Proof. intros Hin. destruct r as [[| | |] s]; cbn; try done. by apply overflows_mono. Qed.

(** The loop ends, with an exception at most, unless a received command overflows. *)
Lemma data_loop_ends fuel chunk responses s :
  addressable (buffer s ++ chunk) -> (length (buffer s ++ chunk) < fuel)%nat ->
  loop_ends (buffer s ++ chunk) (snd (data_loop cfg fuel commands chunk responses s)).
Proof.
  revert chunk responses s. induction fuel as [|fuel IH]; intros chunk responses s Ha Hlen; [lia|].
  cbn [data_loop]. rewrite feed_of_buf. pose proof (feed_cases_nil _ Ha) as Hf.
  destruct (RespParser_feed (MkParser _) []) as [val p] eqn:Hfeed.
  set (s1 := MkCState (with_parser p (conn s)) (aof s) (world s)).
  destruct val as [[val|]|e| |]; try done.
  pose proof (commands_in_step _ _ _ Ha Hfeed) as Hcmds.
  destruct Hf as (t & _ & Ht & Hpos). rewrite Ht in Ha, Hlen. rewrite length_app in Hlen.
  apply addressable_app_r in Ha.
  assert (forall r s2, parser_ (conn s2) = p ->
    loop_ends (buffer s ++ chunk) (snd (data_loop cfg fuel commands [] r s2))) as Hrec.
  { intros r s2 Hp. apply (loop_ends_mono (buffer s2 ++ [])).
    - rewrite Hp, app_nil_r, Hcmds. set_solver.
    - apply IH; rewrite Hp, app_nil_r; [done|lia]. }
  destruct (parse_command val) as [cmd|] eqn:Hcmd; [|done]. case_decide.
  { pose proof (handle_auth_parser cfg cmd (conn s1)) as Hau.
    destruct (handle_auth cfg cmd (conn s1)) as [r c]. by apply Hrec. }
  destruct (negb _); [by apply Hrec|]. case_decide.
  { pose proof (handle_subscribe_pres cfg parser_kept cmd s1) as Hs.
    destruct (handle_subscribe_ret cmd s1) as [u Hu].
    destruct (handle_subscribe cfg cmd s1) as [o s2]. simpl in Hu. subst o. by apply Hrec. }
  case_decide.
  { pose proof (handle_unsubscribe_pres cfg parser_kept cmd s1) as Hs.
    destruct (handle_unsubscribe_ret cmd s1) as [u Hu].
    destruct (handle_unsubscribe cfg cmd s1) as [o s2]. simpl in Hu. subst o. by apply Hrec. }
  set (s2 := if has_aof cfg then _ else s1).
  assert (parser_ (conn s2) = p) as Hp2 by (subst s2; by destruct (has_aof cfg)).
  unfold on_world. pose proof (dispatch_tame broker cmd (world s2)) as Hd.
  destruct (dispatch commands cmd (world s2)) as [[r|e| |] w] eqn:Hw; try done.
  - apply Hrec. by destruct (has_stats cfg).
  - cbn. apply (dispatch_overflows Sch broker cmd _ (world s2) w Hw). rewrite Hcmds, omap_cons, Hcmd. set_solver.
Qed.
End Total.

(** C31. Reading data never wedges or kills a connection: with the default commands,
    handle_data returns for every chunk and state, whatever its commands throw and however
    the bytes violate the protocol, and its loop ends. The one exception is undefined
    behaviour of a command among those received that computes with times (SET, EXPIRE, TTL,
    INFO, METRICS) and overflows int64 in the state it meets. *)
Theorem handle_data_total `{CxxRuntime} (Sch : Schedule) `{!ScheduleOk Sch} cfg broker chunk s :
  max_request_bytes_ cfg < 2 ^ 62 ->
  exists s', handle_data cfg (@make_default _ Sch broker) chunk s = (Ret tt, s') \/
    handle_data cfg (@make_default _ Sch broker) chunk s = (UB, s') /\
    overflows (@make_default _ Sch broker) (commands_in (buf_ (parser_ (conn s)) ++ chunk)) (world s').
Proof.
  intros Hmax. unfold handle_data, RespParser_buffered_size.
  destruct (Z.ltb_spec (max_request_bytes_ cfg) (zlen (buffer s) + zlen chunk)) as [Hbig|Hfit].
  { eexists. by left. }
  assert (addressable (buffer s ++ chunk)) as Ha by (unfold addressable; zlen_lia).
  pose proof (data_loop_ends cfg Sch broker (data_fuel (conn s) chunk) chunk [] s Ha) as Hl.
  rewrite length_app in Hl. specialize (Hl ltac:(unfold data_fuel; lia)).
  destruct (data_loop _ _ _ _ _ _) as [responses [[u|e| |] s']]; simpl in Hl; try done.
  - eexists. by left.
  - eexists. by left.
  - eexists. right. by split.
Qed.

(** * Pipelines *)

(** Commands handle_data passes to the dispatcher. *)
Definition plain (c : Command) : bool :=
  bool_decide (name c ∉ ["AUTH"; "SUBSCRIBE"; "UNSUBSCRIBE"]%b).

Section Pipeline.
Context `{CxxRuntime} (cfg : ConnConfig) (handlers : gmap bytes HandlerFn).

(** The commands one after the other: log, execute, count; the first exception ends it. *)
Fixpoint serve (cmds : list Command) (a : AofPersistence) (w : World)
    : list RespValue * Out unit * AofPersistence * World :=
  match cmds with
  | [] => ([], Ret tt, a, w)
  | c :: cmds =>
      let a := if has_aof cfg then log_if_write c a else a in
      match dispatch handlers c w with
      | (Ret r, w) =>
          let w := if has_stats cfg then count_command w else w in
          let '(rs, o, a, w) := serve cmds a w in (r :: rs, o, a, w)
      | (Exn e, w) => ([], Exn e, a, w)
      | (UB, w) => ([], UB, a, w)
      | (NoFuel, w) => ([], NoFuel, a, w)
      end
  end.

Lemma plain_names c :
  plain c = true -> name c <> "AUTH"%b /\ name c <> "SUBSCRIBE"%b /\ name c <> "UNSUBSCRIBE"%b.
Proof. unfold plain. rewrite bool_decide_eq_true. set_solver. Qed.

(** One round of the loop on a plain command. *)
Lemma data_loop_plain fuel chunk responses s c rest :
  authenticated_ (conn s) = true -> plain c = true -> cmd_wf c = true ->
  addressable (buffer s ++ chunk) -> buffer s ++ chunk = serialize (command_value c) ++ rest ->
  data_loop cfg (S fuel) handlers chunk responses s =
  let a := if has_aof cfg then log_if_write c (aof s) else aof s in
  let con := with_parser (MkParser rest) (conn s) in
  match dispatch handlers c (world s) with
  | (Ret r, w) =>
      data_loop cfg fuel handlers [] (responses ++ serialize r)
        (MkCState con a (if has_stats cfg then count_command w else w))
  | (Exn e, w) => (responses, (Exn e, MkCState con a w))
  | (UB, w) => (responses, (UB, MkCState con a w))
  | (NoFuel, w) => (responses, (NoFuel, MkCState con a w))
  end.
Proof.
  intros Hau Hpl Hwf Ha Hb. cbn [data_loop]. rewrite feed_of_buf.
  destruct (plain_names c Hpl) as (Hn1 & Hn2 & Hn3).
  rewrite (feed_complete _ (command_value c) (serialize (command_value c)) rest Ha); [| |done].
  2:{ apply serialize_wire. by apply andb_true_iff in Hwf as [? _]. }
  rewrite (cmd_wf_parse c Hwf), !decide_False by done. cbn [conn authenticated_ with_parser].
  rewrite Hau. cbn [negb]. unfold on_world.
  destruct (has_aof cfg); cbn [world aof conn];
    destruct (dispatch handlers c (world s)) as [[r|e| |] w]; try done; by destruct (has_stats cfg).
Qed.

Lemma data_loop_serve cmds t fuel chunk responses s rs o a w :
  authenticated_ (conn s) = true ->
  Forall (fun c => plain c = true) cmds -> Forall (fun c => cmd_wf c = true) cmds ->
  addressable (buffer s ++ chunk) -> buffer s ++ chunk = logged cmds ++ t ->
  RespParser_feed (MkParser t) [] = (Ret None, MkParser t) ->
  (length (buffer s ++ chunk) < fuel)%nat -> serve cmds (aof s) (world s) = (rs, o, a, w) ->
  exists p, data_loop cfg fuel handlers chunk responses s =
    (responses ++ flat_map serialize rs, (o, MkCState (with_parser p (conn s)) a w)) /\
    (o = Ret tt -> p = MkParser t).
Proof.
  intros Hau Hpl. revert fuel chunk responses s rs a w Hau.
  induction Hpl as [|c cmds Hc _ IH]; intros fuel chunk responses s rs a w Hau Hwf Ha Hb Ht Hlen Hs.
  { injection Hs as <- <- <- <-. destruct fuel as [|fuel]; [lia|]. exists (MkParser t).
    cbn [data_loop flat_map]. rewrite feed_of_buf, Hb. cbn [logged map flat_map app].
    by rewrite Ht, app_nil_r. }
  apply Forall_cons in Hwf as [Hwc Hwf]. destruct fuel as [|fuel]; [lia|].
  rewrite logged_cons, <- app_assoc in Hb.
  rewrite (data_loop_plain fuel chunk responses s c (logged cmds ++ t)) by done.
  cbn [serve] in Hs. cbv zeta. set (a1 := if has_aof cfg then _ else _) in *.
  destruct (dispatch handlers c (world s)) as [[r|e| |] w1].
  2-4: injection Hs as <- <- <- <-; exists (MkParser (logged cmds ++ t));
    cbn [flat_map]; by rewrite app_nil_r.
  set (w2 := if has_stats cfg then _ else _) in *.
  destruct (serve cmds a1 w2) as [[[rs2 o2] a2] w3] eqn:Hs2. injection Hs as <- <- <- <-.
  rewrite Hb in Ha, Hlen. apply addressable_app_r in Ha as Ha2. rewrite length_app in Hlen.
  destruct (IH fuel [] (responses ++ serialize r)
              (MkCState (with_parser (MkParser (logged cmds ++ t)) (conn s)) a1 w2) rs2 a2 w3)
    as (p & Hp & Hpt); cbn [conn parser_ buf_ with_parser]; rewrite ?app_nil_r; try done.
  { assert (1 <= length (serialize (command_value c)))%nat by (simpl; lia). lia. }
  exists p. split; [|done]. rewrite Hp. cbn [flat_map]. by rewrite <- app_assoc.
Qed.

Lemma finish_data_written responses s :
  io_inv cfg (conn s) -> is_open (socket_ (conn s)) = true ->
  exists c, finish_data cfg responses s = (Ret tt, MkCState c (aof s) (world s)) /\
    parser_ c = parser_ (conn s) /\ written cfg responses (conn s) c.
Proof.
  intros Hio Ho. destruct responses as [|x r].
  - exists (do_read (conn s)). split_and!; [done|apply parser_do_read|]. unfold written.
    destruct (inv_pending _ _ Hio Ho) as [_ Hp]. rewrite (proj2 (Z.leb_le _ _)) by zlen_lia.
    rewrite output_do_read, app_nil_r. split; [done|]. unfold do_read. by destruct (_ || _).
  - eexists. split_and!; [reflexivity|apply parser_do_write|by apply output_do_write].
Qed.

(** What the client is owed: the replies, and the error that ended the pipeline. *)
Definition owed (rs : list RespValue) (o : Out unit) : bytes :=
  flat_map serialize rs
  ++ match o with Exn e => serialize (RespError ("ERR "%b ++ what e)) | _ => [] end.

(** C26. Pipelining: when the bytes received so far are the wire form of [cmds], none of them
    AUTH, SUBSCRIBE or UNSUBSCRIBE, and an unfinished rest, an open, authenticated connection
    executes the commands in order, logging each before it runs, and puts the replies, one
    per command and in order, behind its output in one piece, keeping the rest; if they
    exceed the limit on unsent bytes it closes the socket instead. If a command throws, the
    replies before it and one error are written, and the commands behind it are dropped
    without a reply. *)
Theorem pipeline_replies cmds t chunk s rs o a w :
  io_inv cfg (conn s) -> is_open (socket_ (conn s)) = true -> authenticated_ (conn s) = true ->
  Forall (fun c => plain c = true) cmds -> Forall (fun c => cmd_wf c = true) cmds ->
  buf_ (parser_ (conn s)) ++ chunk = logged cmds ++ t ->
  RespParser_feed (MkParser t) [] = (Ret None, MkParser t) ->
  zlen (logged cmds ++ t) <= max_request_bytes_ cfg < 2 ^ 62 ->
  serve cmds (aof s) (world s) = (rs, o, a, w) ->
  match o with
  | Ret _ | Exn _ =>
      exists c, handle_data cfg handlers chunk s = (Ret tt, MkCState c a w) /\
        parser_ c = (if o is Ret _ then MkParser t else RespParser_new) /\
        written cfg (owed rs o) (conn s) c
  | _ => fst (handle_data cfg handlers chunk s) = o
  end.
Proof.
  intros Hio Hopen Hau Hpl Hwf Hb Ht [Hfit Hmax] Hs. unfold handle_data, RespParser_buffered_size.
  rewrite <- zlen_app, Hb.
  destruct (Z.ltb_spec (max_request_bytes_ cfg) (zlen (logged cmds ++ t))); [lia|].
  destruct (data_loop_serve cmds t (data_fuel (conn s) chunk) chunk [] s rs o a w) as (p & -> & Hp);
    try done.
  { unfold addressable. rewrite Hb. lia. }
  { unfold data_fuel. rewrite length_app. lia. }
  assert (forall p' out, exists c,
    finish_data cfg out (MkCState (with_parser p' (conn s)) a w) = (Ret tt, MkCState c a w) /\
    parser_ c = p' /\ written cfg out (conn s) c) as Hfin.
  { intros p' out. apply (finish_data_written out (MkCState (with_parser p' (conn s)) a w)); [|done].
    by destruct Hio. }
  unfold owed. cbn [app]. destruct o as [[]|e| |]; try done; [|apply Hfin].
  rewrite app_nil_r, (Hp eq_refl). apply Hfin.
Qed.
End Pipeline.

(** * Witnesses *)

#[local] Existing Instance demo_runtime.
#[local] Existing Instance demo_schedule.

Definition demo_cfg : ConnConfig := MkConnConfig 7 true true true [] 1048576 300 1048576.
Definition demo_secret : ConnConfig :=
  MkConnConfig 7 true true true "pw"%b 1048576 300 1048576.

(** A connection whose first read has just completed. *)
Definition demo_state (cfg : ConnConfig) : CState :=
  let c := start cfg (Connection_new cfg) in
  MkCState (with_socket (end_read (socket_ c)) (with_reading false c)) (MkAof [] true) demo_world.

Lemma auth_gate_witness :
  let s' := snd (handle_data demo_secret (make_default true)
                   (logged [MkCommand "SET" ["k"; "v"]; MkCommand "AUTH" ["no"]]%b)
                   (demo_state demo_secret)) in
  world s' = demo_world /\ aof s' = MkAof [] true.
Proof.
  pose proof (auth_gate demo_secret (make_default true)
    (logged [MkCommand "SET" ["k"; "v"]; MkCommand "AUTH" ["no"]]%b) (demo_state demo_secret))
    as Hg.
  destruct Hg as (_ & Hg & _); [by vm_compute|reflexivity|]. apply Hg. vm_compute. reflexivity.
Defined.

(** A command that throws, and bytes that violate the protocol. *)
Lemma handle_data_total_witness :
  let chunk := logged [MkCommand "GET" ["l"]]%b ++ "!"%b in
  exists s', handle_data demo_cfg (make_default true) chunk (demo_state demo_cfg) = (Ret tt, s').
Proof.
  cbv zeta. destruct (handle_data_total demo_schedule demo_cfg true
    (logged [MkCommand "GET" ["l"]]%b ++ "!"%b) (demo_state demo_cfg))
    as (s' & [Hs|[_ (cmd & w & Hin & Ht & _)]]); [by vm_compute|by exists s'|].
  assert (commands_in (buf_ (parser_ (conn (demo_state demo_cfg)))
            ++ logged [MkCommand "GET" ["l"]]%b ++ "!"%b) = [MkCommand "GET" ["l"]]%b) as Hc
    by (vm_compute; reflexivity).
  rewrite Hc in Hin. apply list_elem_of_singleton in Hin as ->. cbn [name] in Ht.
  assert (bool_decide ("GET"%b ∈ timing) = false) as Hf by (vm_compute; reflexivity).
  apply bool_decide_eq_false in Hf. destruct (Hf Ht).
Defined.

(** The second command throws; the third is never executed. *)
Definition demo_pipeline : list Command :=
  [MkCommand "GET" ["s"]; MkCommand "GET" ["l"]; MkCommand "DEL" ["s"]]%b.

Lemma io_inv_demo : io_inv demo_cfg (conn (demo_state demo_cfg)).
Proof. split; cbn; intros; done || lia. Qed.

Lemma pipeline_replies_witness :
  output (conn (snd (handle_data demo_cfg (make_default true) (logged demo_pipeline)
                       (demo_state demo_cfg))))
  = serialize (RespBulkString "41"%b)
    ++ serialize (RespError "ERR std::get: wrong index for variant"%b).
Proof.
  pose proof (pipeline_replies demo_cfg (make_default true) demo_pipeline [] (logged demo_pipeline)
                (demo_state demo_cfg)) as Hp.
  destruct (serve demo_cfg (make_default true) demo_pipeline (aof (demo_state demo_cfg))
              (world (demo_state demo_cfg))) as [[[rs o] a] w] eqn:Hs.
  specialize (Hp rs o a w io_inv_demo).
  assert (rs = [RespBulkString "41"%b] /\ o = Exn bad_variant_access) as [-> ->].
  { apply (f_equal (fun r => fst (fst r))) in Hs. vm_compute in Hs.
    injection Hs as <- <-. split; reflexivity. }
  destruct Hp as (c & -> & _ & Hc).
  - reflexivity.
  - reflexivity.
  - repeat constructor.
  - repeat constructor.
  - vm_compute. reflexivity.
  - reflexivity.
  - vm_compute. split; [discriminate|reflexivity].
  - reflexivity.
  - destruct Hc as [Hc _]. cbn [snd conn]. rewrite Hc. reflexivity.
Defined.
