(* ===== verification/ClientView.v ===== *)
(** What a client sees: the bytes a connection writes decode to the replies of its
    commands, and to the confirmations of its subscriptions ahead of them. *)

From S2P Require Import Prelude Cxx Charconv Resp RespParser RespParserFacts RespGrammar.
From S2P Require Import RespTheorems World KvStore KvStoreFacts Command CmdSpec Demo PubSubBroker.
From S2P Require Import Dispatcher Aof Histories HandlerTotal Replies AofTheorems Connection.
From S2P Require Import ConnFacts ConnSteps ConnServe.

Open Scope Z_scope.

(** * Replies to a pipeline *)

Section Client.
Context `{RtOk : CxxRuntimeOk} (Sch : Schedule) `{!ScheduleOk Sch}.
Context (cfg : ConnConfig) (broker : bool).

Abbreviation commands := (@make_default _ Sch broker).

(** The world the next command of a pipeline finds. *)
Definition after (c : Command) (w : World) : World :=
  let w := snd (dispatch commands c w) in if has_stats cfg then count_command w else w.

(** Every command is registered and meets a store that fits the machine. *)
Fixpoint typable (cmds : list Command) (w : World) : Prop :=
  match cmds with
  | [] => True
  | c :: cmds =>
      is_Some (commands !! name c) /\ fits (zlen (args c)) /\ world_fits w /\
      typable cmds (after c w)
  end.

Lemma serve_typed cmds a w rs o a' w' :
  Forall one_line_args cmds -> typable cmds w -> serve cfg commands cmds a w = (rs, o, a', w') ->
  Forall reply_typed rs /\ (forall e, o = Exn e -> e = bad_variant_access).
Proof.
  intros Hl. revert a w rs. induction Hl as [|c cmds Hline _ IH]; intros a w rs; cbn [serve typable].
  { intros _ [= <- <- <- <-]. split; [constructor|done]. }
  intros (Hreg & Hfit & Hw & Hrest). unfold after in Hrest.
  pose proof (dispatch_tame broker c w) as Ht.
  destruct (dispatch commands c w) as [[r|e| |] w1] eqn:Hd; cbn [fst snd] in *;
    try (intros [= <- <- <- <-]; split; [constructor|]; intros e' [= <-]; by destruct Ht).
  destruct (serve cfg commands cmds _ _) as [[[rs2 o2] a2] w2] eqn:Hs. intros [= <- <- <- <-].
  destruct (IH _ _ _ Hrest Hs) as [Hrs Ho]. split; [|done]. constructor; [|done].
  by eapply dispatch_typed.
Qed.

(** The values a client is owed: the replies, and the error that ended the pipeline. *)
Definition answers (rs : list RespValue) (o : Out unit) : list RespValue :=
  rs ++ match o with Exn e => [RespError ("ERR "%b ++ what e)] | _ => [] end.

Lemma answers_typed cmds a w rs o a' w' :
  Forall one_line_args cmds -> typable cmds w -> serve cfg commands cmds a w = (rs, o, a', w') ->
  Forall reply_typed (answers rs o).
Proof.
  intros Hl Ht Hs. destruct (serve_typed _ _ _ _ _ _ _ Hl Ht Hs) as [Hrs He]. unfold answers.
  apply Forall_app. split; [done|]. destruct o as [u|e| |]; try constructor; [|constructor].
  rewrite (He e eq_refl). apply rt_error. cbn [what].
  rewrite no_crlf_prefix by done. by destruct what_one_line.
Qed.

Lemma typed_values_read vs :
  Forall reply_typed vs -> Forall allocates vs -> addressable (flat_map serialize vs) ->
  drain (drain_fuel RespParser_new (flat_map serialize vs)) RespParser_new (flat_map serialize vs)
  = (vs, Ret tt, RespParser_new).
Proof.
  intros Ht Hal Ha. rewrite drain_drain_all by done. cbn [buf_ RespParser_new app].
  pose proof (drain_all_prefix vs []) as Hd. rewrite app_nil_r in Hd. apply Hd; [|done..].
  clear Hd. induction Ht as [|v vs Hv _ IH]; [constructor|]. cbn [flat_map] in Ha.
  apply Forall_cons in Hal as [Hal1 Hal]. constructor.
  - apply reply_typed_wf; [done| |done]. by apply addressable_app_l in Ha.
  - apply IH; [done|]. by apply addressable_app_r in Ha.
Qed.

(** C8. A pipeline end to end: a client that sends the wire form of registered commands,
    without AUTH, SUBSCRIBE and UNSUBSCRIBE and without a line break in the section name of
    an INFO (whose error reply would be read as several values), and reads what comes back
    with a RESP parser obtains exactly one value per command, in order and equal to the
    handlers' replies, up to and including the error that ends the pipeline when a command
    throws; there is nothing before, between or after them. The connection is open and
    authenticated, the limits leave room for request and replies, the store fits the machine
    and no command overflows. *)
Theorem client_reads_replies cmds chunk s rs o a w :
  io_inv cfg (conn s) -> is_open (socket_ (conn s)) = true -> authenticated_ (conn s) = true ->
  Forall (fun c => plain c = true) cmds -> Forall (fun c => cmd_wf c = true) cmds ->
  buf_ (parser_ (conn s)) ++ chunk = logged cmds ->
  zlen (logged cmds) <= max_request_bytes_ cfg < 2 ^ 62 ->
  Forall one_line_args cmds -> typable cmds (world s) ->
  serve cfg commands cmds (aof s) (world s) = (rs, o, a, w) ->
  o <> UB -> o <> NoFuel -> Forall allocates rs ->
  pending_write_bytes_ (conn s) + zlen (flat_map serialize (answers rs o))
    <= max_pending_write_bytes_ cfg < 2 ^ 62 ->
  exists s' sent_, handle_data cfg commands chunk s = (Ret tt, s') /\
    output (conn s') = output (conn s) ++ sent_ /\
    drain (drain_fuel RespParser_new sent_) RespParser_new sent_
      = (answers rs o, Ret tt, RespParser_new).
Proof.
  intros Hinv Hopen Hau Hpl Hwf Hb [Hfit Hmax] Hline Hty Hs Hub Hnf Hal [Hroom Hpmax].
  set (out := flat_map serialize (answers rs o)) in *.
  assert (exists p, handle_data cfg commands chunk s
    = finish_data cfg out (MkCState (with_parser p (conn s)) a w)) as [p Hrun].
  { unfold handle_data, RespParser_buffered_size. rewrite <- zlen_app, Hb.
    destruct (Z.ltb_spec (max_request_bytes_ cfg) (zlen (logged cmds))); [lia|].
    destruct (data_loop_serve cfg commands cmds [] (data_fuel (conn s) chunk) chunk [] s rs o a w)
      as (p & -> & _); try done.
    { unfold addressable. rewrite Hb. lia. }
    { by rewrite app_nil_r. }
    { unfold data_fuel. rewrite length_app. lia. }
    cbn [app]. subst out. unfold answers. rewrite flat_map_app.
    destruct o as [u|e| |]; try done; cbn [flat_map]; rewrite app_nil_r; by eexists. }
  assert (0 <= pending_write_bytes_ (conn s)) as Hpend by by apply (inv_pending _ _ Hinv Hopen).
  assert (addressable out) as Ha by (unfold addressable; lia).
  exists (snd (finish_data cfg out (MkCState (with_parser p (conn s)) a w))), out.
  rewrite Hrun. split_and!.
  - by destruct out.
  - assert (io_inv cfg (with_parser p (conn s))) as Hi by by destruct Hinv.
    pose proof (output_do_write cfg out (with_parser p (conn s)) Hi Hopen) as Ho. unfold written in Ho.
    change (pending_write_bytes_ (with_parser p (conn s))) with (pending_write_bytes_ (conn s)) in Ho.
    rewrite (proj2 (Z.leb_le _ _) Hroom) in Ho. destruct Ho as [Ho _].
    destruct out as [|x out]; [|exact Ho]. simpl. rewrite output_do_read. by rewrite app_nil_r.
  - apply typed_values_read; [by eapply answers_typed| |done]. apply Forall_app.
    split; [done|]. destruct o; constructor; [|constructor]. by intros l [=].
Qed.
End Client.

(** * Subscriptions in a pipeline *)

Section Overtaking.
Context `{CxxRuntime} (cfg : ConnConfig) (handlers : gmap bytes HandlerFn).

Lemma data_loop_refeed fuel chunk responses s :
  data_loop cfg (S fuel) handlers chunk responses s =
  data_loop cfg (S fuel) handlers [] responses
    (MkCState (with_parser (MkParser (buffer s ++ chunk)) (conn s)) (aof s) (world s)).
Proof.
  cbn [data_loop]. rewrite feed_of_buf.
  rewrite (feed_of_buf (parser_ (conn (MkCState _ _ _))) []).
  cbn [conn parser_ with_parser buf_]. by rewrite app_nil_r.
Qed.

(** The commands in front of [rest] are served, and the loop goes on with [rest]. *)
Lemma data_loop_prefix cmds rest fuel chunk responses s rs a w :
  authenticated_ (conn s) = true ->
  Forall (fun c => plain c = true) cmds -> Forall (fun c => cmd_wf c = true) cmds ->
  addressable (buffer s ++ chunk) -> buffer s ++ chunk = logged cmds ++ rest ->
  (length (buffer s ++ chunk) < fuel)%nat ->
  serve cfg handlers cmds (aof s) (world s) = (rs, Ret tt, a, w) ->
  exists fuel', (length rest < fuel')%nat /\
    data_loop cfg fuel handlers chunk responses s =
    data_loop cfg fuel' handlers [] (responses ++ flat_map serialize rs)
      (MkCState (with_parser (MkParser rest) (conn s)) a w).
Proof.
  intros Hau Hpl. revert fuel chunk responses s rs a w Hau.
  induction Hpl as [|c cmds Hc _ IH]; intros fuel chunk responses s rs a w Hau Hwf Ha Hb Hlen Hs;
    (destruct fuel as [|fuel]; [lia|]).
  { injection Hs as <- <- <-. exists (S fuel). rewrite Hb in Hlen. split; [done|].
    rewrite data_loop_refeed, Hb. cbn [flat_map]. by rewrite app_nil_r. }
  apply Forall_cons in Hwf as [Hwc Hwf]. rewrite logged_cons, <- app_assoc in Hb.
  rewrite (data_loop_plain cfg handlers fuel chunk responses s c (logged cmds ++ rest)) by done.
  cbn [serve] in Hs. cbv zeta. set (a1 := if has_aof cfg then _ else _) in *.
  destruct (dispatch handlers c (world s)) as [[r|e| |] w1]; try done.
  set (w2 := if has_stats cfg then _ else _) in *.
  destruct (serve cfg handlers cmds a1 w2) as [[[rs2 o2] a2] w3] eqn:Hs2.
  injection Hs as <- -> <- <-.
  rewrite Hb in Ha, Hlen. apply addressable_app_r in Ha. rewrite length_app in Hlen.
  destruct (IH fuel [] (responses ++ serialize r)
              (MkCState (with_parser (MkParser (logged cmds ++ rest)) (conn s)) a1 w2) rs2 a2 w3)
    as (fuel' & Hf & Hrun); cbn [conn parser_ buf_ with_parser]; rewrite ?app_nil_r; try done.
  { assert (1 <= length (serialize (command_value c)))%nat by (simpl; lia). lia. }
  exists fuel'. split; [done|]. rewrite Hrun. cbn [flat_map]. by rewrite <- app_assoc.
Qed.

(** The connection is registered for [ch]; the count of subscribers is confirmed. *)
Definition enroll (ch : bytes) : M Z :=
  PubSubBroker_subscribe ch (self cfg) (MkWriteFn (self cfg) ch).

(** The confirmations of a SUBSCRIBE, each with the count its channel has at that point. *)
Fixpoint confirmations (chs : list bytes) (w : World) : bytes * World :=
  match chs with
  | [] => ([], w)
  | ch :: chs =>
      let '(n, w) := enroll ch w in
      let '(rest, w') := confirmations chs w in
      (match n with Ret n => make_subscribe_reply "subscribe"%b ch n ++ rest | _ => rest end, w')
  end.

Lemma enroll_ret ch w : exists n w', enroll ch w = (Ret n, w').
Proof. do 2 eexists. reflexivity. Qed.

Lemma subscribe_loop_cons ch chs replies s n w' :
  enroll ch (world s) = (Ret n, w') ->
  subscribe_loop cfg (ch :: chs) replies s =
  subscribe_loop cfg chs (replies ++ make_subscribe_reply "subscribe"%b ch n)
    (MkCState (with_channels ({[ch]} ∪ subscribed_channels_ (conn s)) (conn s)) (aof s) w').
Proof.
  intros He. cbn [subscribe_loop]. unfold mbind, N_bind, on_world.
  fold (enroll ch). by rewrite He.
Qed.

Lemma subscribe_loop_run chs replies s :
  exists subs, subscribe_loop cfg chs replies s =
    (Ret (replies ++ fst (confirmations chs (world s))),
     MkCState (with_channels subs (conn s)) (aof s) (snd (confirmations chs (world s)))).
Proof.
  revert replies s. induction chs as [|ch chs IH]; intros replies s.
  { exists (subscribed_channels_ (conn s)). simpl. rewrite app_nil_r. by destruct s as [[] ? ?]. }
  destruct (enroll_ret ch (world s)) as (n & w' & He).
  rewrite (subscribe_loop_cons ch chs replies s n w' He). set (s2 := MkCState _ _ w').
  destruct (IH (replies ++ make_subscribe_reply "subscribe"%b ch n) s2) as [subs ->].
  exists subs. cbn [confirmations]. rewrite He. subst s2. cbn [world conn aof].
  destruct (confirmations chs w'). cbn [fst snd]. by rewrite <- app_assoc.
Qed.

(** One round of the loop on a SUBSCRIBE. *)
Lemma data_loop_subscribe fuel ch chs rest responses s :
  let sub := MkCommand "SUBSCRIBE"%b (ch :: chs) in
  authenticated_ (conn s) = true -> has_broker cfg = true -> cmd_wf sub = true ->
  addressable (serialize (command_value sub) ++ rest) ->
  buffer s = serialize (command_value sub) ++ rest ->
  exists subs, data_loop cfg (S fuel) handlers [] responses s =
    data_loop cfg fuel handlers [] responses
      (MkCState (do_write cfg (fst (confirmations (ch :: chs) (world s)))
                   (with_channels subs (with_parser (MkParser rest) (conn s)))) (aof s)
                (snd (confirmations (ch :: chs) (world s)))).
Proof.
  intros sub Hau Hbr Hwf Ha Hb. cbn [data_loop]. rewrite feed_of_buf, Hb, app_nil_r.
  rewrite (feed_complete _ (command_value sub) (serialize (command_value sub)) rest Ha); [| |done].
  2:{ apply serialize_wire. by apply andb_true_iff in Hwf as [? _]. }
  rewrite (cmd_wf_parse sub Hwf). cbn [name sub conn authenticated_ with_parser].
  rewrite decide_False by done. rewrite Hau, decide_True by done. cbn [negb].
  unfold handle_subscribe. rewrite Hbr. cbn [negb orb args sub].
  rewrite bool_decide_eq_false_2 by done. unfold mbind, N_bind.
  set (s1 := MkCState (with_parser (MkParser rest) (conn s)) (aof s) (world s)).
  destruct (subscribe_loop_run (ch :: chs) [] s1) as [subs ->]. by exists subs.
Qed.

(** Two writes in a row append both texts when there is room. *)
Lemma output_two_writes d1 d2 c :
  io_inv cfg c -> is_open (socket_ c) = true ->
  pending_write_bytes_ c + zlen d1 + zlen d2 <= max_pending_write_bytes_ cfg ->
  output (do_write cfg d2 (do_write cfg d1 c)) = output c ++ d1 ++ d2.
Proof.
  intros Hi Ho Hroom. pose proof (zlen_nonneg d2).
  pose proof (output_do_write cfg d1 c Hi Ho) as H1. unfold written in H1.
  rewrite (proj2 (Z.leb_le _ _)) in H1 by lia. destruct H1 as [H1 Ho1].
  pose proof (output_do_write cfg d2 _ (io_inv_do_write cfg d1 c Hi) Ho1) as H2. unfold written in H2.
  rewrite (do_write_pending cfg), (proj2 (Z.leb_le _ _)) in H2 by (done || lia).
  destruct H2 as [H2 _]. by rewrite H2, H1, app_assoc.
Qed.

Lemma output_finish responses data c a w :
  io_inv cfg c -> is_open (socket_ c) = true ->
  pending_write_bytes_ c + zlen data + zlen responses <= max_pending_write_bytes_ cfg ->
  output (conn (snd (finish_data cfg responses (MkCState (do_write cfg data c) a w))))
  = output c ++ data ++ responses.
Proof.
  intros Hi Ho Hroom. rewrite <- (output_two_writes data responses c) by done.
  destruct responses as [|x r]; [|done]. simpl. rewrite output_do_read.
  rewrite output_two_writes by done. pose proof (output_do_write cfg data c Hi Ho) as H1.
  unfold written in H1. rewrite (proj2 (Z.leb_le _ _)) in H1 by (rewrite zlen_nil in Hroom; lia).
  destruct H1 as [-> _]. by rewrite app_nil_r.
Qed.

Lemma with_parser_same c : with_parser (parser_ c) c = c.
Proof. by destruct c. Qed.

Lemma serialize_long c : (2 <= length (serialize (command_value c)))%nat.
Proof. cbn [serialize command_value]. rewrite !length_app. simpl. lia. Qed.

(** C40. Replies overtake each other: when a SUBSCRIBE follows other commands in the bytes of
    one read, its confirmations are sent ahead of the replies to all the commands the
    client sent before it. *)
Theorem subscribe_reply_overtakes cmds ch chs chunk s rs a w :
  let sub := MkCommand "SUBSCRIBE"%b (ch :: chs) in
  io_inv cfg (conn s) -> is_open (socket_ (conn s)) = true -> authenticated_ (conn s) = true ->
  has_broker cfg = true -> Forall (fun c => plain c = true) cmds ->
  Forall (fun c => cmd_wf c = true) cmds -> cmd_wf sub = true ->
  buf_ (parser_ (conn s)) ++ chunk = logged cmds ++ serialize (command_value sub) ->
  zlen (buf_ (parser_ (conn s)) ++ chunk) <= max_request_bytes_ cfg < 2 ^ 62 ->
  serve cfg handlers cmds (aof s) (world s) = (rs, Ret tt, a, w) ->
  pending_write_bytes_ (conn s) + zlen (fst (confirmations (ch :: chs) w))
    + zlen (flat_map serialize rs) <= max_pending_write_bytes_ cfg ->
  exists s', handle_data cfg handlers chunk s = (Ret tt, s') /\
    output (conn s') =
    output (conn s) ++ fst (confirmations (ch :: chs) w) ++ flat_map serialize rs.
Proof.
  intros sub Hinv Hopen Hau Hbr Hpl Hwf Hsub Hb [Hfit Hmax] Hs Hroom.
  assert (addressable (buffer s ++ chunk)) as Ha by (unfold addressable; lia).
  unfold handle_data, RespParser_buffered_size. rewrite <- zlen_app.
  destruct (Z.ltb_spec (max_request_bytes_ cfg) (zlen (buffer s ++ chunk))); [lia|].
  destruct (data_loop_prefix cmds (serialize (command_value sub)) (data_fuel (conn s) chunk) chunk
              [] s rs a w) as (fuel & Hf & ->); try done.
  { unfold data_fuel. rewrite length_app. lia. }
  rewrite Hb in Ha. apply addressable_app_r in Ha.
  assert (2 <= length (serialize (command_value sub)))%nat by (apply (serialize_long sub)).
  destruct fuel as [|[|fuel]]; [lia..|]. cbn [app].
  destruct (data_loop_subscribe (S fuel) ch chs [] (flat_map serialize rs)
    (MkCState (with_parser (MkParser (serialize (command_value sub))) (conn s)) a w))
    as [subs ->]; try done; try by rewrite app_nil_r.
  cbn [world]. destruct (confirmations (ch :: chs) w) as [conf w']. cbn [fst snd] in *.
  set (c1 := with_channels subs _). cbn [data_loop conn].
  assert (parser_ (do_write cfg conf c1) = RespParser_new) as Hp by by rewrite parser_do_write.
  rewrite Hp.
  change (RespParser_feed RespParser_new []) with (@Ret (option RespValue) None, RespParser_new).
  cbv iota beta zeta. exists (snd (finish_data cfg (flat_map serialize rs)
    (MkCState (with_parser RespParser_new (do_write cfg conf c1)) a w'))).
  split; [by destruct (flat_map serialize rs)|].
  rewrite <- Hp, with_parser_same. change (output (conn s)) with (output c1).
  apply output_finish; [by destruct Hinv|done|done].
Qed.
End Overtaking.

(** * Witnesses *)

#[local] Existing Instance demo_runtime.
#[local] Existing Instance demo_schedule.

Ltac typable_step :=
  split; [by_evaluation|]; split; [vm_compute; discriminate|];
  split; [split; by_evaluation|].

Lemma demo_typable : typable demo_schedule demo_cfg true demo_pipeline demo_world.
Proof. unfold demo_pipeline. cbn [typable]. repeat typable_step. exact I. Qed.

Lemma client_reads_replies_witness :
  exists s' sent_,
    handle_data demo_cfg (make_default true) (logged demo_pipeline) (demo_state demo_cfg)
      = (Ret tt, s') /\
    output (conn s') = output (conn (demo_state demo_cfg)) ++ sent_ /\
    drain (drain_fuel RespParser_new sent_) RespParser_new sent_
      = ([RespBulkString "41"; RespError "ERR std::get: wrong index for variant"]%b, Ret tt,
         RespParser_new).
Proof.
  destruct (serve demo_cfg (make_default true) demo_pipeline (aof (demo_state demo_cfg))
              (world (demo_state demo_cfg))) as [[[rs o] a] w] eqn:Hs.
  assert (rs = [RespBulkString "41"%b] /\ o = Exn bad_variant_access) as [-> ->].
  { apply (f_equal (fun r => fst (fst r))) in Hs. vm_compute in Hs.
    injection Hs as <- <-. split; reflexivity. }
  assert ([RespBulkString "41"; RespError "ERR std::get: wrong index for variant"]%b
    = answers [RespBulkString "41"%b] (Exn bad_variant_access)) as Hv by (vm_compute; reflexivity).
  rewrite Hv.
  apply (client_reads_replies demo_schedule demo_cfg true demo_pipeline (logged demo_pipeline)
           (demo_state demo_cfg) [RespBulkString "41"%b] (Exn bad_variant_access) a w).
  - apply io_inv_demo.
  - reflexivity.
  - reflexivity.
  - repeat constructor.
  - repeat constructor.
  - reflexivity.
  - vm_compute. split; [discriminate|reflexivity].
  - repeat constructor; discriminate.
  - exact demo_typable.
  - exact Hs.
  - discriminate.
  - discriminate.
  - repeat constructor. intros l [=].
  - vm_compute. split; [discriminate|reflexivity].
Defined.

(** PING and GET, then SUBSCRIBE, in one read. *)
Lemma subscribe_reply_overtakes_witness :
  exists s', handle_data demo_cfg (make_default true)
      (logged [MkCommand "PING" []; MkCommand "GET" ["s"]; MkCommand "SUBSCRIBE" ["news"]]%b)
      (demo_state demo_cfg) = (Ret tt, s') /\
    output (conn s') =
    serialize (RespArray [RespBulkString "subscribe"; RespBulkString "news"; RespInteger 1]%b)
    ++ serialize (RespSimpleString "PONG"%b) ++ serialize (RespBulkString "41"%b).
Proof.
  set (cmds := [MkCommand "PING" []; MkCommand "GET" ["s"]]%b).
  destruct (serve demo_cfg (make_default true) cmds (aof (demo_state demo_cfg))
              (world (demo_state demo_cfg))) as [[[rs o] a] w] eqn:Hs.
  assert (rs = [RespSimpleString "PONG"%b; RespBulkString "41"%b] /\ o = Ret tt /\
          channels_ w = ∅) as (-> & -> & Hw).
  { pose proof (f_equal (fun r => fst (fst r)) Hs) as H1.
    pose proof (f_equal (fun r => channels_ (snd r)) Hs) as H2. vm_compute in H1. cbn [snd] in H2.
    injection H1 as <- <-. rewrite <- H2. split_and!; vm_compute; reflexivity. }
  assert (fst (confirmations demo_cfg ["news"%b] w) =
    serialize (RespArray [RespBulkString "subscribe"; RespBulkString "news"; RespInteger 1]%b))
    as Hc.
  { cbn [confirmations]. unfold enroll, PubSubBroker_subscribe. rewrite Hw. reflexivity. }
  pose proof (subscribe_reply_overtakes demo_cfg (make_default true) cmds "news"%b []
    (logged (cmds ++ [MkCommand "SUBSCRIBE" ["news"]]%b)) (demo_state demo_cfg)
    [RespSimpleString "PONG"%b; RespBulkString "41"%b] a w) as Ht.
  cbv zeta in Ht. rewrite Hc in Ht. destruct Ht as (s' & Hrun & Hout).
  - exact io_inv_demo.
  - reflexivity.
  - reflexivity.
  - reflexivity.
  - repeat constructor.
  - repeat constructor.
  - reflexivity.
  - vm_compute. reflexivity.
  - vm_compute. split; [discriminate|reflexivity].
  - exact Hs.
  - vm_compute. discriminate.
  - exists s'. split; [exact Hrun|]. rewrite Hout. reflexivity.
Defined.
