(* ===== verification/Server.v ===== *)
(** The server (src/server/server.hpp, server.cpp): accepting connections, running their
    handlers on the event loop, and stopping. *)

From S2P Require Import Prelude Cxx Resp RespParser World Command PubSubBroker Dispatcher Aof.
From S2P Require Import Connection.

Open Scope Z_scope.

(** What the constructor keeps of Config and its pointers. *)
Record ServerConfig := MkServerConfig {
  srv_requirepass : bytes;
  srv_max_request_bytes : Z;
  srv_idle_timeout_seconds : Z;
  max_clients_ : Z;
  srv_max_pending_write_bytes : Z;
  srv_has_aof : bool;
  srv_has_stats : bool;
  srv_has_broker : bool;
}.

(** The event loop's side: is an async_accept outstanding, does io_ctx_.run() go on, is
    a wait on signal_poll_timer_ pending; and what the signal handler stored last. *)
Record Loop := MkLoop {
  accept_pending : bool;
  loop_running : bool;
  poll_pending : bool;
  g_last_signal : Z;
}.

(** [connections] are the Connection objects that exist, by address. *)
Record Server := MkServer {
  stopping_ : bool;
  loop : Loop;
  connections : gmap conn_id Connection;
  srv_aof : AofPersistence;
  srv_world : World;
}.

Definition accepting (s : Server) : bool := accept_pending (loop s).
Definition running (s : Server) : bool := loop_running (loop s).

Section Server.
Context (sc : ServerConfig).

Definition conn_config (id : conn_id) : ConnConfig :=
  MkConnConfig id (srv_has_aof sc) (srv_has_stats sc) (srv_has_broker sc) (srv_requirepass sc)
    (srv_max_request_bytes sc) (srv_idle_timeout_seconds sc) (srv_max_pending_write_bytes sc).

(** The idle timeout can be counted in nanoseconds. *)
Definition idle_countable : Prop := forall id, idle_timeout_ns (conn_config id) <> UB.

Definition with_loop (l : Loop) (s : Server) : Server :=
  MkServer (stopping_ s) l (connections s) (srv_aof s) (srv_world s).
Definition with_accepting (b : bool) (s : Server) : Server :=
  with_loop (MkLoop b (running s) (poll_pending (loop s)) (g_last_signal (loop s))) s.
Definition with_poll (b : bool) (s : Server) : Server :=
  with_loop (MkLoop (accepting s) (running s) b (g_last_signal (loop s))) s.
Definition with_world (w : World) (s : Server) : Server :=
  MkServer (stopping_ s) (loop s) (connections s) (srv_aof s) w.
Definition set_ready (b : bool) (w : World) : World :=
  let st := stats w in
  set_stats (MkStats (start_time st) (connected_clients st) (total_commands st) b (port st)
               (aof_enabled st)) w.

(** Start the next asynchronous accept. *)
Definition do_accept (s : Server) : Server := with_accepting true s.

Inductive accept_result :=
  | Accepted (id : conn_id) (peer_known : bool)
      (* a socket; [id] is where its Connection will be allocated, and [peer_known] tells
         whether remote_endpoint() succeeds or throws because the peer is gone *)
  | AcceptAborted               (* asio::error::operation_aborted *)
  | AcceptFailed.               (* any other error code *)

(** At the limit? The comparison is signed. *)
Definition at_capacity (s : Server) : bool :=
  srv_has_stats sc && (to_int64 (max_clients_ sc) <=? connected_clients (stats (srv_world s))).

(** The completion handler of async_accept, with what it writes to a refused client.
    [None]: the exception of remote_endpoint() leaves the handler. *)
Definition on_accept (r : accept_result) (s : Server) : option (Server * option bytes) :=
  let s := with_accepting false s in
  match r with
  | Accepted id peer_known =>
      if at_capacity s then
        Some (do_accept s, Some (serialize (RespError "ERR max number of clients reached"%b)))
      else if negb peer_known then None
      else
        let cfg := conn_config id in
        let c := start cfg (Connection_new cfg) in
        let w := if srv_has_stats sc then add_client 1 (srv_world s) else srv_world s in
        Some (do_accept (MkServer (stopping_ s) (loop s) (<[id := c]> (connections s))
                           (srv_aof s) w), None)
  | AcceptAborted => Some (s, None)
  | AcceptFailed => if stopping_ s then Some (s, None) else Some (do_accept s, None)
  end.

(** stop(): the acceptor is closed, the poll timer cancelled and the event loop ends. *)
Definition Server_stop (s : Server) : Server :=
  if stopping_ s then s
  else
    let w := if srv_has_stats sc then set_ready false (srv_world s) else srv_world s in
    MkServer true (MkLoop (accepting s) false false (g_last_signal (loop s)))
      (connections s) (srv_aof s) w.

(** The two signals the handler is installed for, numbered as on Linux. *)
Definition SIGINT : Z := 2.
Definition SIGTERM : Z := 15.

(** The signal handler: it may run between any two steps. *)
Definition vortek_signal_handler (signal_number : Z) (s : Server) : Server :=
  with_loop (MkLoop (accepting s) (running s) (poll_pending (loop s)) signal_number) s.

Definition poll_signal_flag (s : Server) : Server :=
  if stopping_ s then s
  else if negb (g_last_signal (loop s) =? 0) then Server_stop s
  else with_poll true s.

Inductive wait_result := WaitOver | WaitAborted | WaitFailed.

(** The completion handler of the poll timer; an error other than a cancellation is
    logged and the flag is not polled again. *)
Definition on_poll (r : wait_result) (s : Server) : Server :=
  let s := with_poll false s in
  match r with
  | WaitAborted => s
  | WaitFailed => s
  | WaitOver => if stopping_ s then s else poll_signal_flag s
  end.

(** [early] is the signal that arrives between the installation of the handlers and the
    first look at the flag, 0 for none. *)
Definition setup_signal_handlers (early : Z) (s : Server) : Server :=
  poll_signal_flag (vortek_signal_handler early (vortek_signal_handler 0 s)).

(** run() up to the event loop, which ends at once when stop() was called before. *)
Definition Server_run (early : Z) (s : Server) : Server :=
  let s := if srv_has_stats sc then with_world (set_ready true (srv_world s)) s else s in
  do_accept (setup_signal_handlers early s).

(** * The event loop *)

(** Who holds a shared_ptr to the connection: its pending asynchronous operations, the
    frames posted for it, and the callbacks registered with the broker. *)
Definition io_holds (c : Connection) : bool :=
  (0 <? reads_in_flight (socket_ c))%nat
  || (writes_done (socket_ c) <? length (writes_started (socket_ c)))%nat
  || timer_armed (socket_ c).

Definition posted_holds (id : conn_id) (w : World) : bool :=
  bool_decide (Exists (fun p => fst p = id) (posted w)).

Definition broker_holds (id : conn_id) (w : World) : Prop :=
  exists ch subs s, channels_ w !! ch = Some subs /\ s ∈ subs /\ wf_self (write s) = id.

(** Run a handler of connection [id] on the shared state. *)
Definition with_conn (id : conn_id) (c : Connection) (a : AofPersistence) (w : World) (s : Server)
    : Server :=
  MkServer (stopping_ s) (loop s) (<[id := c]> (connections s)) a w.

Context `{CxxRuntime} (handlers : gmap bytes HandlerFn).

(** The exception of a handler ends io_ctx_.run() and with it the program. *)
Inductive server_step : Server -> Server -> Prop :=
  | srv_accept r s s' reply :
      running s = true -> accepting s = true ->
      (forall id b, r = Accepted id b -> connections s !! id = None) ->
      (r = AcceptAborted -> stopping_ s = true) ->
      on_accept r s = Some (s', reply) -> server_step s s'
  | srv_accept_throws id s :
      running s = true -> accepting s = true -> on_accept (Accepted id false) s = None ->
      server_step s (with_loop (MkLoop false false (poll_pending (loop s)) (g_last_signal (loop s))) s)
  | srv_read id c result s s' :
      running s = true -> connections s !! id = Some c ->
      (0 < reads_in_flight (socket_ c))%nat ->
      (forall chunk, result = Some chunk -> (length chunk <= 4096)%nat) ->
      on_read (conn_config id) handlers result (MkCState c (srv_aof s) (srv_world s))
        = (Ret tt, s') ->
      server_step s (with_conn id (conn s') (aof s') (world s') s)
  | srv_write id c ec s :
      running s = true -> connections s !! id = Some c ->
      (writes_done (socket_ c) < length (writes_started (socket_ c)))%nat ->
      server_step s (with_conn id (on_write (conn_config id) ec (zlen (write_buf_ c)) c)
                       (srv_aof s) (srv_world s) s)
  | srv_idle id c aborted error s :
      running s = true -> connections s !! id = Some c ->
      aborted = true \/ timer_armed (socket_ c) = true ->
      server_step s (with_conn id (on_idle aborted error c) (srv_aof s) (srv_world s) s)
  | srv_posted id frame rest c s :
      running s = true -> posted (srv_world s) = (id, frame) :: rest ->
      connections s !! id = Some c ->
      server_step s
        (with_conn id (do_write (conn_config id) frame c) (srv_aof s)
           (MkWorld (data_ (srv_world s)) (tick (srv_world s)) (stats (srv_world s))
              (channels_ (srv_world s)) rest) s)
  | srv_destroy id c s w :
      connections s !! id = Some c -> io_holds c = false -> posted_holds id (srv_world s) = false ->
      ~ broker_holds id (srv_world s) ->
      Connection_destroy (conn_config id) c (srv_world s) = (Ret tt, w) ->
      server_step s (MkServer (stopping_ s) (loop s) (delete id (connections s)) (srv_aof s) w)
  | srv_poll r s :
      running s = true -> poll_pending (loop s) = true -> server_step s (on_poll r s)
  | srv_signal n s :
      n = SIGINT \/ n = SIGTERM -> server_step s (vortek_signal_handler n s).
End Server.
