(* ===== verification/ThreadsServer.v ===== *)
(** The whole program on two threads: replay of the append-only file and the event loop on
    the command thread, concurrently with the expiry thread. *)

From stdpp Require Import relations.
From S2P Require Import Prelude Cxx Charconv Resp RespParser World KvStore KvStoreFacts Command Demo.
From S2P Require Import Threads ThreadsFacts ThreadsSim ThreadsTheorems Threaded PubSubBroker.
From S2P Require Import Dispatcher ThreadsCmds Aof Connection Server.

Open Scope Z_scope.

(** * Replay *)

Section Replay.
Context `{RtOk : CxxRuntimeOk} `{FileSystem}.

Definition undefined_fst {A B} (r : Out A * B) : Prop := fst r = UB.

(** A command of the file: whatever it replies, the loop goes on. *)
Definition replayed (k : World -> Out (Z * bool) * RespParser * World) (p : RespParser)
    (o : Out RespValue) (w : World) : Out (Z * bool) * RespParser * World :=
  match o with
  | Ret _ | Exn _ => k w
  | UB => (UB, p, w)
  | NoFuel => (NoFuel, p, w)
  end.

#[export] Instance threaded_replay_loop fuel p chunk count :
  Threaded undefined_fst (fun Sch => replay_loop fuel (make_default true) p chunk count).
Proof.
  revert p chunk count. induction fuel as [|fuel IH]; intros p chunk count; cbn [replay_loop].
  { by apply (threaded_rest undefined_fst). }
  destruct (RespParser_feed p chunk) as [[[val|]|e| |] p'];
    try by apply (threaded_rest undefined_fst).
  destruct (parse_command val) as [cmd|]; [|apply IH].
  eapply (threaded_ext _ (fun Sch => and_then (dispatch (make_default true) cmd)
            (replayed (replay_loop fuel (make_default true) p' [] (count + 1)) p'))).
  { intros Sch w. unfold and_then. by destruct (dispatch _ cmd w) as [[] w']. }
  apply (threaded_then undefined); [by intros Sch r s ->|apply threaded_dispatch|].
  intros [r|e| |]; unfold replayed; [apply IH|apply IH|by apply (threaded_rest undefined_fst)..].
Defined.

(** The end of replay. *)
Definition replay_end (a : AofPersistence) (r : Out (Z * bool) * RespParser) (w : World)
    : Out Z * AofPersistence * World :=
  match r with
  | (Ret (count, parse_error), p) =>
      let trailing_bytes := length (buf_ p) in
      (Ret count, if parse_error || (0 <? trailing_bytes)%nat
                  then truncate_to (length (file_content a) - trailing_bytes) a
                  else reopen_append_stream a, w)
  | (Exn e, _) => (Exn e, a, w)
  | (UB, _) => (UB, a, w)
  | (NoFuel, _) => (NoFuel, a, w)
  end.

#[export] Instance threaded_replay a :
  Threaded undefined_fst (fun Sch => AofPersistence_replay (make_default true) a).
Proof.
  unfold AofPersistence_replay. destruct (negb _); [by apply (threaded_rest undefined_fst)|].
  case_decide; [by apply (threaded_rest undefined_fst)|].
  eapply (threaded_ext _ (fun Sch => and_then
    (replay_loop (replay_fuel (file_content a)) (make_default true) RespParser_new (file_content a) 0)
    (replay_end a))).
  { intros Sch w. unfold and_then. by destruct (replay_loop _ _ _ _ _ _) as [[[[]| | |] p] w']. }
  apply (threaded_then undefined_fst).
  - intros Sch [o p] w Ho. unfold undefined_fst in *. simpl in Ho. by subst o.
  - apply _.
  - intros [[[]|e| |] p]; by apply (threaded_rest undefined_fst).
Defined.
End Replay.

(** * One connection *)

#[export] Instance storing_CState : Storing CState :=
  fun n d s => MkCState (conn s) (aof s) (at_op n d (world s)).

(** Handlers that leave the store alone. *)
Definition storeless {St Res} `{!Storing St} (x : St -> Res * St) : Prop :=
  forall n d s, x (put_store n d s) = (fst (x s), put_store n d (snd (x s))).

Lemma storeless_bind {A B} (m : N A) (k : A -> N B) :
  storeless m -> (forall a, storeless (k a)) -> storeless (m ≫= k).
Proof.
  intros Hm Hk n d s. unfold mbind, N_bind. rewrite Hm. destruct (m s) as [[a|e| |] s'];
    cbn [fst snd]; try done. apply Hk.
Qed.

Lemma storeless_ret {A} (a : A) : storeless (mret a : N A).
Proof. done. Qed.

Lemma storeless_modify f : storeless (modify_conn f).
Proof. done. Qed.

Lemma storeless_world {A} (m : M A) : storeless m -> storeless (on_world m).
Proof.
  intros Hm n d s. unfold on_world. cbn [world put_store storing_CState]. unfold put_store in *.
  rewrite Hm. by destruct (m (world s)).
Qed.

Lemma storeless_subscribe ch sid fn : storeless (PubSubBroker_subscribe ch sid fn).
Proof. done. Qed.

Lemma storeless_unsubscribe ch sid : storeless (PubSubBroker_unsubscribe ch sid).
Proof.
  intros n d w. unfold PubSubBroker_unsubscribe. cbn.
  by destruct (channels_ w !! ch).
Qed.

Lemma storeless_unsubscribe_all `{CxxRuntime} sid : storeless (PubSubBroker_unsubscribe_all sid).
Proof.
  intros n d w. unfold PubSubBroker_unsubscribe_all. cbn.
  by destruct (unsubscribe_walk _ _ _ _).
Qed.

Create HintDb storeless.
#[export] Hint Resolve storeless_ret storeless_modify storeless_world storeless_subscribe
  storeless_unsubscribe storeless_unsubscribe_all : storeless.

Ltac storeless_step :=
  match goal with
  | |- storeless (mbind _ _) => apply storeless_bind; [|intros ?]
  | |- storeless (match ?x with _ => _ end) => destruct x
  | |- storeless _ => solve [eauto with storeless]
  end.
Ltac storeless := repeat storeless_step.

Section Connection.
Context `{RtOk : CxxRuntimeOk} (cfg : ConnConfig).

Lemma storeless_subscribe_loop chs replies : storeless (subscribe_loop cfg chs replies).
Proof. revert replies. induction chs as [|ch chs IH]; intros replies; cbn [subscribe_loop]; storeless. Qed.

Lemma storeless_unsubscribe_loop chs replies : storeless (unsubscribe_loop cfg chs replies).
Proof. revert replies. induction chs as [|ch chs IH]; intros replies; cbn [unsubscribe_loop]; storeless. Qed.

Lemma storeless_left_loop chs replies : storeless (left_loop chs replies).
Proof. revert replies. induction chs as [|ch chs IH]; intros replies; cbn [left_loop]; storeless. Qed.

#[local] Hint Resolve storeless_subscribe_loop storeless_unsubscribe_loop storeless_left_loop : storeless.

Lemma storeless_handle_subscribe cmd : storeless (handle_subscribe cfg cmd).
Proof. unfold handle_subscribe. storeless. Qed.

Lemma storeless_handle_unsubscribe cmd : storeless (handle_unsubscribe cfg cmd).
Proof. unfold handle_unsubscribe. storeless. Qed.

Lemma threaded_on_world {A} (m : Schedule -> M A) :
  Threaded undefined m -> Threaded undefined (fun Sch => on_world (m Sch)).
Proof.
  intros Hm.
  by apply (threaded_part undefined world (fun w s => MkCState (conn s) (aof s) w) m).
Defined.

(** The loop of handle_data with its responses and its outcome together. *)
Definition loop_result (r : bytes * (Out unit * CState)) : bytes * Out unit * CState :=
  let '(responses, (o, s)) := r in (responses, o, s).

Definition undefined_snd {A B} (r : A * Out B) : Prop := snd r = UB.

(** One round of the loop, cut where it reads the connection and where it runs a command;
    [next] is the rest of the loop. *)
Section Round.
Context (next : Schedule -> bytes -> CState -> bytes * Out unit * CState) (responses : bytes).

Definition after_subscription (Sch : Schedule) (o : Out unit) (s : CState)
    : bytes * Out unit * CState :=
  match o with
  | Ret _ => next Sch responses s
  | o => (responses, o, s)
  end.

Definition counted (s : CState) : CState :=
  if has_stats cfg then MkCState (conn s) (aof s) (count_command (world s)) else s.

Definition after_command (Sch : Schedule) (o : Out RespValue) (s : CState)
    : bytes * Out unit * CState :=
  match o with
  | Ret r =>
      next Sch (responses ++ serialize r) (counted s)
  | Exn e => (responses, Exn e, s)
  | UB => (responses, UB, s)
  | NoFuel => (responses, NoFuel, s)
  end.

Definition logged (cmd : Command) (s : CState) : CState :=
  if has_aof cfg then MkCState (conn s) (log_if_write cmd (aof s)) (world s) else s.

Definition authenticated_command (cmd : Command) (Sch : Schedule) (auth : bool) (s : CState)
    : bytes * Out unit * CState :=
  if negb auth then
    next Sch (responses ++ serialize (RespError "NOAUTH Authentication required."%b)) s
  else if decide (name cmd = "SUBSCRIBE"%b) then
    and_then (handle_subscribe cfg cmd) (after_subscription Sch) s
  else if decide (name cmd = "UNSUBSCRIBE"%b) then
    and_then (handle_unsubscribe cfg cmd) (after_subscription Sch) s
  else and_then (on_world (dispatch (make_default true) cmd)) (after_command Sch) (logged cmd s).

Definition on_command (cmd : Command) (Sch : Schedule) (s : CState) : bytes * Out unit * CState :=
  if decide (name cmd = "AUTH"%b) then
    (fun '(r, c) s => next Sch (responses ++ serialize r) (MkCState c (aof s) (world s)))
      (handle_auth cfg cmd (conn s)) s
  else authenticated_command cmd Sch (authenticated_ (conn s)) s.

Definition on_feed (Sch : Schedule) (fed : Out (option RespValue) * RespParser) (s : CState)
    : bytes * Out unit * CState :=
  let '(val, p) := fed in
  let s := MkCState (with_parser p (conn s)) (aof s) (world s) in
  match val with
  | Exn e => (responses, Exn e, s)
  | UB => (responses, UB, s)
  | NoFuel => (responses, NoFuel, s)
  | Ret None => (responses, Ret tt, s)
  | Ret (Some val) =>
      match parse_command val with
      | None =>
          loop_result
            (responses ++ serialize (RespError "ERR protocol error: expected command array"%b),
             modify_conn (fun c => with_parser (RespParser_reset (parser_ c)) c) s)
      | Some cmd => on_command cmd Sch s
      end
  end.

Context (Hnext : forall r, Threaded undefined_snd (fun Sch => next Sch r)).

Lemma threaded_subscription (x : N unit) :
  storeless x -> Threaded undefined_snd (fun Sch => and_then x (after_subscription Sch)).
Proof.
  intros Hx. apply (threaded_then undefined).
  - by intros Sch r s ->.
  - by apply threaded_rest.
  - intros [u|e| |]; unfold after_subscription; [apply Hnext|by apply (threaded_rest undefined_snd)..].
Defined.

Lemma threaded_after_command o : Threaded undefined_snd (fun Sch => after_command Sch o).
Proof.
  destruct o as [r|e| |]; unfold after_command; [|by apply (threaded_rest undefined_snd)..].
  apply (threaded_after undefined_snd counted (fun Sch => next Sch (responses ++ serialize r)));
    [|apply Hnext].
  intros n d s. unfold counted. by destruct (has_stats cfg).
Defined.

Lemma threaded_command cmd : Threaded undefined_snd (on_command cmd).
Proof.
  unfold on_command. destruct (decide (name cmd = "AUTH"%b)).
  - apply (threaded_read undefined_snd (fun s => handle_auth cfg cmd (conn s)) (fun Sch '(r, c) s =>
      next Sch (responses ++ serialize r) (MkCState c (aof s) (world s)))); [done|].
    intros [r c]. by apply (threaded_after undefined_snd (fun s => MkCState c (aof s) (world s))
      (fun Sch => next Sch (responses ++ serialize r))).
  - apply (threaded_read undefined_snd (fun s => authenticated_ (conn s)) (authenticated_command cmd));
      [done|].
    intros auth. unfold authenticated_command. destruct (negb auth); [apply Hnext|].
    destruct (decide _); [apply threaded_subscription, storeless_handle_subscribe|].
    destruct (decide _); [apply threaded_subscription, storeless_handle_unsubscribe|].
    apply (threaded_after undefined_snd (logged cmd) (fun Sch =>
      and_then (on_world (dispatch (make_default true) cmd)) (after_command Sch))).
    { intros ? ? s. unfold logged. by destruct (has_aof cfg). }
    apply (threaded_then undefined); [by intros Sch r s ->| |apply threaded_after_command].
    exact (threaded_on_world _ (threaded_dispatch true cmd)).
Defined.

Lemma threaded_feed fed : Threaded undefined_snd (fun Sch => on_feed Sch fed).
Proof.
  destruct fed as [val p]. unfold on_feed.
  apply (threaded_after undefined_snd
    (fun s => MkCState (with_parser p (conn s)) (aof s) (world s)) (fun Sch s =>
      match val with
      | Exn e => (responses, Exn e, s)
      | UB => (responses, UB, s)
      | NoFuel => (responses, NoFuel, s)
      | Ret None => (responses, Ret tt, s)
      | Ret (Some val) =>
          match parse_command val with
          | None => _
          | Some cmd => on_command cmd Sch s
          end
      end)); [done|].
  destruct val as [[val|]|e| |]; try by apply (threaded_rest undefined_snd).
  destruct (parse_command val) as [cmd|]; [apply threaded_command|].
  by apply (threaded_rest undefined_snd).
Defined.
End Round.

Definition looped (fuel : nat) (chunk : bytes) (Sch : Schedule) (responses : bytes) (s : CState)
    : bytes * Out unit * CState :=
  loop_result (data_loop cfg fuel (make_default true) chunk responses s).

(** The loop is made of rounds. *)
Lemma looped_round fuel chunk (Sch : Schedule) responses s :
  looped (S fuel) chunk Sch responses s =
  on_feed (looped fuel []) responses Sch (RespParser_feed (parser_ (conn s)) chunk) s.
Proof.
  unfold looped. cbn [data_loop]. unfold on_feed.
  destruct (RespParser_feed _ chunk) as [[[val|]|e| |] p]; try done.
  destruct (parse_command val) as [cmd|]; [|done].
  unfold on_command. cbn [conn aof world]. case_decide; [by destruct (handle_auth _ _ _)|].
  unfold authenticated_command. destruct (negb _); [done|].
  case_decide; [by unfold and_then; destruct (handle_subscribe _ _ _) as [[] ?]|].
  case_decide; [by unfold and_then; destruct (handle_unsubscribe _ _ _) as [[] ?]|].
  unfold and_then, logged. by destruct (on_world _ _) as [[] ?].
Qed.

Lemma threaded_loop fuel chunk responses :
  Threaded undefined_snd (fun Sch => looped fuel chunk Sch responses).
Proof.
  revert chunk responses. induction fuel as [|fuel IH]; intros chunk responses.
  { by apply (threaded_rest undefined_snd (fun s => (responses, NoFuel, s))). }
  eapply (threaded_ext _ (fun Sch s =>
    on_feed (looped fuel []) responses Sch (RespParser_feed (parser_ (conn s)) chunk) s)).
  { intros Sch s. by rewrite looped_round. }
  apply (threaded_read undefined_snd (fun s => RespParser_feed (parser_ (conn s)) chunk)
           (on_feed (looped fuel []) responses)); [done|].
  intros fed. apply threaded_feed. apply IH.
Defined.

(** The end of handle_data. *)
Definition data_end (r : bytes * Out unit) (s : CState) : Out unit * CState :=
  match r with
  | (responses, Ret _) => finish_data cfg responses s
  | (responses, Exn e) =>
      finish_data cfg (responses ++ serialize (RespError ("ERR "%b ++ what e)))
        (MkCState (with_parser (RespParser_reset (parser_ (conn s))) (conn s)) (aof s) (world s))
  | (_, UB) => (UB, s)
  | (_, NoFuel) => (NoFuel, s)
  end.

Definition sized_data (chunk : bytes) (Sch : Schedule) (c : Connection) (s : CState)
    : Out unit * CState :=
  if max_request_bytes_ cfg <? RespParser_buffered_size (parser_ c) + zlen chunk then
    put_conn (do_write cfg (serialize (RespError "ERR max request size exceeded"%b))
      (with_parser (RespParser_reset (parser_ c)) (with_close_after true c))) s
  else and_then (looped (data_fuel c chunk) chunk Sch []) data_end s.

Lemma handle_data_sized chunk (Sch : Schedule) s :
  handle_data cfg (make_default true) chunk s = sized_data chunk Sch (conn s) s.
Proof.
  unfold handle_data, sized_data. destruct (_ <? _); [done|]. unfold and_then, looped.
  by destruct (data_loop _ _ _ _ _ _) as [responses [[] s']].
Qed.

Lemma threaded_handle_data chunk :
  Threaded undefined (fun Sch => handle_data cfg (make_default true) chunk).
Proof.
  eapply (threaded_ext _ (fun Sch s => sized_data chunk Sch (conn s) s)).
  { intros Sch s. by rewrite (handle_data_sized chunk Sch). }
  apply (threaded_read undefined conn (sized_data chunk)); [done|]. intros c. unfold sized_data.
  destruct (_ <? _); [by apply (threaded_rest undefined)|].
  apply (threaded_then undefined_snd).
  - intros Sch [responses o] s Ho. unfold undefined_snd in Ho. simpl in Ho. by subst o.
  - apply threaded_loop.
  - intros [responses [u|e| |]]; by apply (threaded_rest undefined).
Defined.

Lemma threaded_on_read result :
  Threaded undefined (fun Sch => on_read cfg (make_default true) result).
Proof.
  set (g := fun s => MkCState (with_socket (end_read (socket_ (conn s)))
                       (with_reading false (conn s))) (aof s) (world s)).
  destruct result as [chunk|].
  - apply (threaded_after undefined (fun s => MkCState (reset_idle_timer cfg (conn (g s))) (aof s) (world s))
             (fun Sch => handle_data cfg (make_default true) chunk)); [done|apply threaded_handle_data].
  - apply (threaded_ext _ (fun _ s => (Ret tt, MkCState (close_socket (conn (g s))) (aof s) (world s))));
      [done|]. by apply (threaded_rest undefined).
Defined.
End Connection.
