(* ===== verification/ServerFacts.v ===== *)
(** What the handlers of a connection do to the shared state, and the invariants of the
    server. *)

From stdpp Require Import relations.
From S2P Require Import Prelude Cxx Charconv Resp RespParser World KvStore KvStoreFacts Command.
From S2P Require Import CmdSpec Demo StoreSim PubSubBroker GenericCmds StringCmds ListCmds.
From S2P Require Import SetCmds HashCmds Dispatcher HandlerSim Aof Histories BrokerSpec.
From S2P Require Import Connection ConnFacts ConnSteps Server.

Open Scope Z_scope.

(** * Commands leave metrics and channels alone *)

Record shared_kept (w w' : World) : Prop := {
  sk_stats : stats w' = stats w;
  sk_channels : channels_ w' = channels_ w;
}.

#[export] Instance shared_kept_preorder : PreOrder shared_kept.
Proof. split; [by intros w|]. intros w1 w2 w3 [] []. split; congruence. Qed.

Lemma pres_weaken {A} (P Q : World -> World -> Prop) (m : M A) :
  (forall w w', P w w' -> Q w w') -> pres P m -> pres Q m.
Proof. intros HPQ Hm w. apply HPQ, Hm. Qed.

Section Commands.
Context `{CxxRuntime} (Sch : Schedule) `{!ScheduleOk Sch}.

(** A relation that allows what the store's operations do. *)
Lemma writes_weaken W :
  PreOrder W -> (forall w w', unchanged_rest w w' -> W w w') -> StoreWrites Sch W.
Proof.
  intros HP Hw. pose proof (unchanged_rest_writes Sch).
  split; [split; [apply _|..]|..]; intros; (eapply pres_weaken; [exact Hw|]);
    eauto with pres typeclass_instances.
Qed.

Lemma del_loop_pres W `{!StoreWrites Sch W} keys count : pres W (@del_loop Sch keys count).
Proof. revert count. induction keys as [|key keys IH]; intros count; simpl; pres. Qed.

#[local] Hint Resolve del_loop_pres : pres.

(** All commands preserve it if PUBLISH does. *)
Lemma commands_tables W `{!StoreWrites Sch W} broker :
  (forall c, pres W (cmd_publish c)) ->
  tables_related (fun n f _ => forall c, pres W (f c))
    (@make_default _ Sch broker) (@make_default _ Sch broker).
Proof.
  intros Hpub. apply make_default_related; unfold lists_related;
    repeat (apply Forall2_cons_2 || apply Forall2_nil_2);
    (split; [reflexivity|]); cbn [fst snd]; intros c;
    first [ apply Hpub
          | solve [eauto with pres typeclass_instances]
          | unfold cmd_del, cmd_expire, cmd_persist, cmd_set, cmd_incr, cmd_decr, cmd_incrby,
              cmd_decrby, apply_delta, add_delta, cmd_lpush, cmd_rpush, push_list,
              get_or_create_list, cmd_lpop, cmd_rpop, store_list, cmd_sadd, get_or_create_set,
              cmd_srem, cmd_hset, get_or_create_hash, cmd_hdel; by pres ].
Qed.

Lemma dispatch_preserves W `{!StoreWrites Sch W} broker c :
  (forall c, pres W (cmd_publish c)) -> pres W (dispatch (@make_default _ Sch broker) c).
Proof.
  intros Hpub. pose proof (commands_tables W broker Hpub (name c)) as Ht. unfold dispatch.
  destruct (_ !! name c); simpl in Ht; [apply Ht|pres].
Qed.

#[export] Instance shared_kept_writes : StoreWrites Sch shared_kept.
Proof. apply writes_weaken; [apply _|by intros w w' []]. Qed.

Lemma dispatch_shared broker c : pres shared_kept (dispatch (@make_default _ Sch broker) c).
Proof.
  apply (dispatch_preserves shared_kept). intros c'.
  by apply cmd_publish_reads; [apply _|].
Qed.
End Commands.

(** * The shared state along a handler of a connection *)

Class BrokerOps `{CxxRuntime} (sid : conn_id) (W : World -> World -> Prop) : Prop := {
  bo_preorder :: PreOrder W;
  bo_subscribe : forall ch, pres W (PubSubBroker_subscribe ch sid (MkWriteFn sid ch));
  bo_unsubscribe : forall ch, pres W (PubSubBroker_unsubscribe ch sid);
  bo_unsubscribe_all : pres W (PubSubBroker_unsubscribe_all sid);
}.

Definition wpres {A} (W : World -> World -> Prop) (m : N A) : Prop :=
  forall s, W (world s) (world (snd (m s))).

Lemma wpres_bind {A B} W `{!PreOrder W} (m : N A) (k : A -> N B) :
  wpres W m -> (forall a, wpres W (k a)) -> wpres W (m ≫= k).
Proof.
  intros Hm Hk s. specialize (Hm s). unfold mbind, N_bind.
  destruct (m s) as [[a|e| |] u]; simpl in *; try done. etrans; [exact Hm|apply Hk].
Qed.

Lemma wpres_ret {A} W `{!PreOrder W} (a : A) : wpres W (mret a).
Proof. intros s. simpl. reflexivity. Qed.

Lemma wpres_modify W `{!PreOrder W} f : wpres W (modify_conn f).
Proof. intros s. simpl. reflexivity. Qed.

Lemma wpres_world {A} W (m : M A) : pres W m -> wpres W (on_world m).
Proof. intros Hm s. specialize (Hm (world s)). unfold on_world. by destruct (m (world s)). Qed.

Ltac wpres_step :=
  match goal with
  | |- wpres _ (mbind _ _) => eapply wpres_bind; [typeclasses eauto| |intros ?]
  | |- wpres _ (match ?x with _ => _ end) => destruct x
  | |- wpres _ (mret _) => apply wpres_ret; typeclasses eauto
  | |- wpres _ (modify_conn _) => apply wpres_modify; typeclasses eauto
  | |- wpres _ (on_world _) => apply wpres_world
  | |- wpres _ _ => solve [eauto]
  | |- pres _ (PubSubBroker_subscribe _ _ _) => eapply bo_subscribe
  | |- pres _ (PubSubBroker_unsubscribe _ _) => eapply bo_unsubscribe
  | |- pres _ (PubSubBroker_unsubscribe_all _) => eapply bo_unsubscribe_all
  end.
Ltac wpres := repeat wpres_step.

Section World.
Context `{CxxRuntime} (cfg : ConnConfig) (W : World -> World -> Prop) `{!BrokerOps (self cfg) W}.

Lemma subscribe_loop_wpres chs replies : wpres W (subscribe_loop cfg chs replies).
Proof. revert replies. induction chs as [|ch chs IH]; intros replies; simpl; wpres. Qed.

Lemma unsubscribe_loop_wpres chs replies : wpres W (unsubscribe_loop cfg chs replies).
Proof. revert replies. induction chs as [|ch chs IH]; intros replies; simpl; wpres. Qed.

Lemma left_loop_wpres chs replies : wpres W (left_loop chs replies).
Proof. revert replies. induction chs as [|ch chs IH]; intros replies; simpl; wpres. Qed.

#[local] Hint Resolve subscribe_loop_wpres unsubscribe_loop_wpres left_loop_wpres : core.

Lemma handle_subscribe_wpres cmd : wpres W (handle_subscribe cfg cmd).
Proof. unfold handle_subscribe. wpres. Qed.

Lemma handle_unsubscribe_wpres cmd : wpres W (handle_unsubscribe cfg cmd).
Proof. unfold handle_unsubscribe. wpres. Qed.

Context (handlers : gmap bytes HandlerFn) (Hdispatch : forall c, pres W (dispatch handlers c)).
Context (Hcount : forall w, W w (count_command w)).

Lemma data_loop_wpres fuel chunk responses s :
  W (world s) (world (snd (snd (data_loop cfg fuel handlers chunk responses s)))).
Proof.
  revert chunk responses s. induction fuel as [|fuel IH]; intros chunk responses s; cbn [data_loop].
  { simpl. reflexivity. }
  destruct (RespParser_feed _ chunk) as [val p].
  set (s1 := MkCState (with_parser p (conn s)) (aof s) (world s)).
  change (world s) with (world s1).
  destruct val as [[val|]|e| |]; try (simpl; reflexivity).
  destruct (parse_command val) as [cmd|]; [|simpl; reflexivity]. case_decide.
  { destruct (handle_auth cfg cmd (conn s1)) as [r c]. apply (IH _ _ (MkCState c _ _)). }
  destruct (negb _); [apply IH|]. case_decide.
  { pose proof (handle_subscribe_wpres cmd s1) as Hs.
    destruct (handle_subscribe cfg cmd s1) as [[u|e| |] s2]; cbn [snd] in *; try done.
    etrans; [exact Hs|apply IH]. }
  case_decide.
  { pose proof (handle_unsubscribe_wpres cmd s1) as Hs.
    destruct (handle_unsubscribe cfg cmd s1) as [[u|e| |] s2]; cbn [snd] in *; try done.
    etrans; [exact Hs|apply IH]. }
  set (s2 := if has_aof cfg then _ else s1).
  assert (world s2 = world s1) as Hw2 by (subst s2; by destruct (has_aof cfg)).
  pose proof (wpres_world W (dispatch handlers cmd) (Hdispatch cmd) s2) as Hd.
  rewrite <- Hw2. destruct (on_world (dispatch handlers cmd) s2) as [[r|e| |] s3];
    cbn [snd] in *; try done.
  etrans; [exact Hd|]. etrans; [|apply IH]. destruct (has_stats cfg); [apply Hcount|done].
Qed.

Lemma on_read_wpres result : wpres W (on_read cfg handlers result).
Proof.
  unfold on_read. apply wpres_bind; [apply _|apply wpres_modify; apply _|]. intros _.
  destruct result as [chunk|]; [|apply wpres_modify; apply _].
  apply wpres_bind; [apply _|apply wpres_modify; apply _|]. intros _ s.
  unfold handle_data. destruct (_ <? _); [simpl; reflexivity|].
  pose proof (data_loop_wpres (data_fuel (conn s) chunk) chunk [] s) as Hl.
  destruct (data_loop _ _ _ _ _ _) as [responses [[u|e| |] s']]; cbn [snd] in *; done.
Qed.
End World.

(** * The poll timer and the first steps of run() *)

Section Poll.
Context (sc : ServerConfig).

Lemma poll_cases s :
  (exists b, poll_signal_flag sc s = with_poll b s) \/
  (stopping_ s = false /\ g_last_signal (loop s) <> 0 /\ poll_signal_flag sc s = Server_stop sc s).
Proof.
  unfold poll_signal_flag. destruct (stopping_ s) eqn:Hs.
  { left. exists (poll_pending (loop s)). by destruct s as [? [] ? ? ?]. }
  destruct (Z.eqb_spec (g_last_signal (loop s)) 0); [left; by exists true|by right].
Qed.

Lemma on_poll_cases r s :
  (exists b, on_poll sc r s = with_poll b s) \/
  (stopping_ s = false /\ g_last_signal (loop s) <> 0 /\
   on_poll sc r s = Server_stop sc (with_poll false s)).
Proof.
  unfold on_poll. destruct r; [|left; by exists false..].
  destruct (stopping_ (with_poll false s)) eqn:Hs; [left; by exists false|].
  destruct (poll_cases (with_poll false s)) as [[b Hb]|Hstop]; [|by right].
  left. exists b. by rewrite Hb.
Qed.
End Poll.
