(* ===== verification/ServerTheorems.v ===== *)
(** Theorems on the server: the client limit, shutdown, and connections that are never
    released. *)

From stdpp Require Import relations.
From S2P Require Import Prelude Cxx Resp RespParser World KvStore KvStoreFacts Command CmdSpec.
From S2P Require Import Demo StoreSim PubSubBroker Dispatcher Aof Histories BrokerSpec Connection.
From S2P Require Import ConnFacts ConnSteps Server ServerFacts.

Open Scope Z_scope.

Definition clients (w : World) : Z := connected_clients (stats w).

(** A metric [f] is unchanged. *)
Definition stat_kept {A} (f : ServerStats -> A) (w w' : World) : Prop :=
  f (stats w') = f (stats w).

#[export] Instance stat_kept_preorder {A} (f : ServerStats -> A) : PreOrder (stat_kept f).
Proof. split; [by intros w|]. intros w1 w2 w3. unfold stat_kept. congruence. Qed.

Lemma unsubscribe_all_stats `{CxxRuntime} sid w :
  stats (snd (PubSubBroker_unsubscribe_all sid w)) = stats w.
Proof. unfold PubSubBroker_unsubscribe_all. by destruct (unsubscribe_walk _ _ _ _). Qed.

#[export] Instance stat_kept_broker `{CxxRuntime} {A} (f : ServerStats -> A) sid :
  BrokerOps sid (stat_kept f).
Proof.
  split; [apply _|..].
  - by intros ch w.
  - intros ch w. unfold PubSubBroker_unsubscribe. by destruct (channels_ w !! ch).
  - intros w. unfold stat_kept. by rewrite unsubscribe_all_stats.
Qed.

(** The handler of a read changes no metric but the number of commands. *)
Lemma on_read_stat `{CxxRuntime} (Sch : Schedule) `{!ScheduleOk Sch} broker
    {A} (f : ServerStats -> A) cfg result :
  (forall w, f (stats (count_command w)) = f (stats w)) ->
  wpres (stat_kept f) (on_read cfg (@make_default _ Sch broker) result).
Proof.
  intros Hf. apply (on_read_wpres cfg (stat_kept f)); [|by intros w; apply Hf].
  intros cmd. eapply pres_weaken; [|apply dispatch_shared; apply _].
  intros w w' [Heq _]. unfold stat_kept. by rewrite Heq.
Qed.

(** The destructor: one client fewer, and its channels left. *)
Lemma destroy_run `{CxxRuntime} cfg c w w' :
  Connection_destroy cfg c w = (Ret tt, w') ->
  data_ w' = data_ w /\ stats w' = stats (if has_stats cfg then add_client (-1) w else w).
Proof.
  unfold Connection_destroy, mbind, M_bind.
  destruct (has_stats cfg); cbn [modify mret M_ret];
    (destruct (_ && _); [|by intros [= <-]]);
    unfold PubSubBroker_unsubscribe_all; destruct (unsubscribe_walk _ _ _ _);
    by intros [= <-].
Qed.

Section Limit.
Context `{CxxRuntime} (Sch : Schedule) `{!ScheduleOk Sch} (sc : ServerConfig) (broker : bool).

Abbreviation step := (server_step sc (@make_default _ Sch broker)).

(** max_clients_ as it is compared: a limit from 2^63 on becomes negative and lets nobody
    in. *)
Definition client_cap : Z := Z.max 0 (to_int64 (max_clients_ sc)).

Lemma client_cap_range : 0 <= client_cap <= INT64_MAX.
Proof. unfold client_cap. pose proof (to_int64_range (max_clients_ sc)). unfold INT64_MAX in *. lia. Qed.

Record srv_inv (s : Server) : Prop := {
  si_clients : clients (srv_world s) = Z.of_nat (size (connections s));
  si_limit : Z.of_nat (size (connections s)) <= client_cap;
  si_accepting : running s = true -> accepting s = true;
}.

Lemma srv_inv_conn id c0 c a w s :
  connections s !! id = Some c0 -> clients w = clients (srv_world s) ->
  srv_inv s -> srv_inv (with_conn id c a w s).
Proof.
  intros Hid Hw [Hc Hl Ha].
  assert (size (<[id := c]> (connections s)) = size (connections s)) as Hsize.
  { by rewrite map_size_insert_Some. }
  split; simpl; [|by rewrite Hsize|done]. by rewrite Hw, Hsize.
Qed.

Lemma srv_inv_accept r s s' reply :
  srv_has_stats sc = true ->
  (forall id b, r = Accepted id b -> connections s !! id = None) ->
  (r = AcceptAborted -> stopping_ s = true) -> (stopping_ s = true -> running s = false) ->
  on_accept sc r s = Some (s', reply) -> srv_inv s -> srv_inv s'.
Proof.
  intros Hst Hfresh Hab Hstop Hacc [Hc Hl Ha]. unfold on_accept in Hacc.
  pose proof client_cap_range as Hcap.
  destruct r as [id known| |].
  - unfold at_capacity in Hacc. rewrite Hst in Hacc.
    cbn [andb srv_world with_accepting with_loop] in Hacc. fold (clients (srv_world s)) in Hacc.
    destruct (Z.leb_spec (to_int64 (max_clients_ sc)) (clients (srv_world s))) as [Hfull|Hroom].
    { injection Hacc as <- _. by split. }
    destruct known; [|done]. injection Hacc as <- _.
    assert (size (<[id := start (conn_config sc id) (Connection_new (conn_config sc id))]>
                    (connections s)) = S (size (connections s))) as Hsize.
    { by rewrite map_size_insert_None by by eapply Hfresh. }
    assert (Z.of_nat (size (connections s)) < client_cap) by (unfold client_cap; lia).
    split; simpl; [|rewrite Hsize; lia|done]. rewrite Hsize. unfold clients in *. simpl.
    rewrite Hc, to_int64_small; unfold INT64_MAX in *; lia.
  - injection Hacc as <- _. split; try done. intros Hrun.
    change (running s = true) in Hrun. rewrite Hstop in Hrun; [done|by apply Hab].
  - destruct (stopping_ _) eqn:Hs; injection Hacc as <- _; [|by split].
    split; try done. intros Hrun. change (running s = true) in Hrun. by rewrite Hstop in Hrun.
Qed.

(** A server that is stopping no longer runs handlers. *)
Definition stopped (s : Server) : Prop := stopping_ s = true -> running s = false.

Lemma stopped_step s s' : stopped s -> step s s' -> stopped s'.
Proof.
  intros Hs Hstep. destruct Hstep as [r s s' reply _ _ _ _ Hacc| | | | | | |r s Hr|]; try done.
  - unfold on_accept in Hacc. destruct r as [id known| |].
    + destruct (at_capacity _ _); [by injection Hacc as <- _|].
      destruct known; [|done]. by injection Hacc as <- _.
    + by injection Hacc as <- _.
    + destruct (stopping_ _); by injection Hacc as <- _.
  - destruct (on_poll_cases sc r s) as [[b ->]|(Hst & _ & ->)]; [done|].
    unfold Server_stop. cbn [stopping_ with_poll with_loop]. by rewrite Hst.
Qed.

Lemma srv_inv_step s s' :
  srv_has_stats sc = true -> stopped s -> srv_inv s -> step s s' -> srv_inv s'.
Proof.
  intros Hst Hs Hinv Hstep. pose proof client_cap_range as Hcap.
  destruct Hstep as [r s s' reply _ _ Hf Hab Hacc|id s _ _ _|id c res s s' _ Hid _ _ Hread
    |id c ec s _ Hid _|id c a e s _ Hid _|id frame rest c s _ _ Hid|id c s w Hid _ _ _ Hd|r s Hr|].
  - by eapply srv_inv_accept.
  - destruct Hinv. by split.
  - eapply srv_inv_conn; [done| |done].
    pose proof (on_read_stat Sch broker connected_clients (conn_config sc id) res
                  ltac:(by intros w) (MkCState c (srv_aof s) (srv_world s))) as Hw.
    rewrite Hread in Hw. exact Hw.
  - by eapply srv_inv_conn.
  - by eapply srv_inv_conn.
  - by eapply srv_inv_conn.
  - destruct Hinv as [Hc Hl Ha]. apply destroy_run in Hd as [_ Hd]. simpl in Hd. rewrite Hst in Hd.
    pose proof (map_size_delete_Some id (connections s) (ex_intro _ c Hid)) as Hsize.
    assert (0 < size (connections s))%nat as Hpos.
    { destruct (size (connections s)) eqn:Hz; [|lia]. apply map_size_empty_inv in Hz.
      rewrite Hz, lookup_empty in Hid. done. }
    split; simpl; [|rewrite Hsize; lia|done].
    unfold clients in *. rewrite Hd. simpl. rewrite Hc, Hsize, to_int64_small; unfold INT64_MAX in *; lia.
  - destruct Hinv. destruct (on_poll_cases sc r s) as [[b ->]|(Hst1 & _ & ->)]; [by split|].
    unfold Server_stop. cbn [stopping_ with_poll with_loop]. rewrite Hst1, Hst. by split.
  - destruct Hinv. by split.
Qed.

Lemma srv_inv_reachable early s0 s :
  srv_has_stats sc = true ->
  connections s0 = ∅ -> connected_clients (stats (srv_world s0)) = 0 -> stopping_ s0 = false ->
  rtc step (Server_run sc early s0) s -> srv_inv s /\ stopped s.
Proof.
  pose proof client_cap_range as Hcap. intros Hst Hconn Hc0 Hs0 Hrtc.
  assert (srv_inv (Server_run sc early s0) /\ stopped (Server_run sc early s0)) as Hinv.
  { unfold Server_run, setup_signal_handlers. rewrite Hst. set (s1 := vortek_signal_handler _ _).
    assert (stopping_ s1 = false) as Hs1 by done.
    assert (clients (srv_world s1) = 0 /\ connections s1 = ∅) as [Hc1 Hconn1] by done.
    destruct (poll_cases sc s1) as [[b ->]|(_ & _ & ->)]; [|unfold Server_stop; rewrite Hs1, Hst];
      (split; [split|]; simpl; [by rewrite Hconn, map_size_empty|rewrite Hconn, map_size_empty; lia
        |done|intros Hx; (done || (change (stopping_ s1 = true) in Hx; congruence))]). }
  induction Hrtc as [s|s1 s2 s3 Hstep _ IH]; [done|]. apply IH. destruct Hinv as [Hi Hstp].
  split; [by eapply srv_inv_step|by eapply stopped_step].
Qed.

(** * Shutdown *)

Record phase_inv (s : Server) : Prop := {
  ph_ready : ready (stats (srv_world s)) = negb (stopping_ s);
  ph_stopped : stopping_ s = true -> running s = false /\ poll_pending (loop s) = false;
}.

Lemma phase_conn id c a w s :
  ready (stats w) = ready (stats (srv_world s)) -> phase_inv s -> phase_inv (with_conn id c a w s).
Proof. intros Hw [Hr Hs]. split; [simpl; by rewrite Hw|done]. Qed.

Lemma phase_stop s : srv_has_stats sc = true -> phase_inv s -> phase_inv (Server_stop sc s).
Proof.
  intros Hst Hp. unfold Server_stop. destruct (stopping_ s); [done|]. rewrite Hst. by split.
Qed.

Lemma phase_poll b s : running s = true -> phase_inv s -> phase_inv (with_poll b s).
Proof. intros Hrun [Hr Hs]. split; [done|]. intros Hx. apply Hs in Hx as [? _]. congruence. Qed.

Lemma phase_step s s' : srv_has_stats sc = true -> phase_inv s -> step s s' -> phase_inv s'.
Proof.
  intros Hst Hinv Hstep.
  destruct Hstep as [r s s' reply Hrun _ _ _ Hacc|id s Hrun _ _|id c res s s' _ Hid _ _ Hread
    | | | |id c s w Hid _ _ _ Hd|r s Hr|].
  - assert (stopping_ s = false) as Hs.
    { destruct (stopping_ s) eqn:Hs; [|done]. destruct (ph_stopped s Hinv Hs). congruence. }
    destruct Hinv as [Hr _]. unfold on_accept in Hacc.
    destruct r as [id known| |]; [destruct (at_capacity _ _); [|destruct known; [|done]]|
      |destruct (stopping_ (with_accepting false s))]; injection Hacc as <- _;
      (split; [simpl; rewrite ?Hst; done|intros Hx; simpl in Hx; congruence]).
  - destruct Hinv as [Hr Hs]. split; [done|]. intros Hx. apply Hs in Hx as [? ?]. done.
  - apply phase_conn; [|done].
    pose proof (on_read_stat Sch broker ready (conn_config sc id) res
                  ltac:(by intros w) (MkCState c (srv_aof s) (srv_world s))) as Hw.
    rewrite Hread in Hw. exact Hw.
  - by apply phase_conn.
  - by apply phase_conn.
  - by apply phase_conn.
  - destruct Hinv as [Hr Hs]. split; [|done]. simpl. destruct (destroy_run _ _ _ _ Hd) as [_ ->]. simpl. by rewrite Hst.
  - destruct (on_poll_cases sc r s) as [[b ->]|(_ & _ & ->)]; [by apply phase_poll|].
    by apply phase_stop, phase_poll.
  - by destruct Hinv.
Qed.

Lemma phase_reachable early s0 s :
  srv_has_stats sc = true -> stopping_ s0 = false ->
  rtc step (Server_run sc early s0) s -> phase_inv s.
Proof.
  intros Hst Hs0 Hrtc. assert (phase_inv (Server_run sc early s0)) as H0; [|clear Hs0].
  - unfold Server_run, setup_signal_handlers. rewrite Hst. set (s1 := vortek_signal_handler _ _).
    assert (stopping_ s1 = false /\ ready (stats (srv_world s1)) = true) as [Hs1 Hr1] by done.
    unfold poll_signal_flag, Server_stop. rewrite Hs1, Hst. destruct (negb _); [by split|].
    split; [exact (eq_trans Hr1 (f_equal negb (eq_sym Hs1)))|].
    intros Hx. change (stopping_ s1 = true) in Hx. congruence.
  - induction Hrtc as [s|s1 s2 s3 Hstep _ IH]; [done|]. apply IH. by eapply phase_step.
Qed.

(** What cannot change any more once the event loop is over. *)
Record at_rest (s s' : Server) : Prop := {
  ar_running : running s' = false;
  ar_data : data_ (srv_world s') = data_ (srv_world s);
  ar_aof : srv_aof s' = srv_aof s;
}.

Lemma rest_step s s' : running s = false -> step s s' -> at_rest s s'.
Proof.
  intros Hrun Hstep.
  destruct Hstep as [| | | | | |id c s w Hid _ _ _ Hd| |]; try congruence.
  - split; [done| |done]. by destruct (destroy_run _ _ _ _ Hd).
  - done.
Qed.

Lemma rest_rtc s s' : running s = false -> rtc step s s' -> at_rest s s'.
Proof.
  intros Hrun Hrtc. induction Hrtc as [s|s1 s2 s3 Hstep _ IH]; [done|].
  destruct (rest_step s1 s2 Hrun Hstep) as [H1 H2 H3]. destruct (IH H1) as [G1 G2 G3].
  split; congruence.
Qed.

End Limit.

(** * Subscribed connections *)

(** Some channel holds a callback that owns connection [sid]. *)
Definition holds_sub (sid : conn_id) (w : World) : Prop :=
  exists ch s, s ∈ default [] (channels_ w !! ch) /\ id s = sid /\ wf_self (write s) = sid.

Definition sub_kept (sid : conn_id) (w w' : World) : Prop := holds_sub sid w -> holds_sub sid w'.

#[export] Instance sub_kept_preorder sid : PreOrder (sub_kept sid).
Proof. split; [by intros w Hw|]. intros w1 w2 w3 H1 H2 Hw. auto. Qed.

Lemma replace_sub_keeps sid fn subs subs' s :
  replace_sub sid fn subs = Some subs' -> s ∈ subs -> id s <> sid -> s ∈ subs'.
Proof.
  revert subs'. induction subs as [|s0 subs IH]; intros subs'; simpl; [done|].
  case_decide as Hs; [intros [= <-]; rewrite !elem_of_cons; intros [->|?]; by auto|].
  destruct (replace_sub sid fn subs) as [r|]; [|done]. intros [= <-].
  rewrite !elem_of_cons. intros [->|Hin] Hne; [by left|right]. by apply IH.
Qed.

Lemma sub_kept_removed sid sid' w w' :
  sid <> sid' ->
  (forall ch, channels_ w' !! ch = channels_ w !! ch \/
     channels_ w' !! ch
       = channels_ w !! ch ≫= (fun subs => keep_nonempty (remove_sub sid' subs))) ->
  sub_kept sid w w'.
Proof.
  intros Hne Hch (ch & s & Hs & Hid & Hwf). exists ch, s. split; [|done].
  destruct (Hch ch) as [-> | ->]; [done|]. destruct (channels_ w !! ch) as [subs|]; simpl in *; [|done].
  rewrite default_keep_nonempty. apply list_elem_of_filter. split; [congruence|done].
Qed.

Lemma sub_kept_broker `{RtOk : CxxRuntimeOk} sid sid' :
  sid <> sid' -> BrokerOps sid' (sub_kept sid).
Proof.
  intros Hne. split; [apply _|..].
  - intros ch w (ch' & s & Hs & Hid & Hwf). exists ch', s. split; [|done].
    rewrite subscribe_lookup. case_decide as Hch; [|done]. subst ch'. simpl.
    destruct (replace_sub _ _ _) as [subs'|] eqn:Hr.
    + eapply replace_sub_keeps; [exact Hr|done|congruence].
    + apply elem_of_app. by left.
  - intros ch w. apply (sub_kept_removed sid sid'); [done|]. intros ch'.
    rewrite unsubscribe_lookup. case_decide; [right; by subst|by left].
  - intros w. apply (sub_kept_removed sid sid'); [done|]. intros ch'. right.
    apply unsubscribe_all_lookup.
Qed.

Lemma destroy_sub_kept `{RtOk : CxxRuntimeOk} sid cfg c w w' :
  sid <> self cfg -> Connection_destroy cfg c w = (Ret tt, w') -> sub_kept sid w w'.
Proof.
  intros Hne Hd. pose proof (sub_kept_broker sid (self cfg) Hne) as Hops.
  unfold Connection_destroy in Hd.
  assert (pres (sub_kept sid) (if has_stats cfg then modify (add_client (-1)) else mret tt)) as H1.
  { destruct (has_stats cfg); intros u Hu; done. }
  assert (pres (sub_kept sid) (if has_broker cfg && bool_decide (subscribed_channels_ c <> ∅)
     then PubSubBroker_unsubscribe_all (self cfg);; mret tt else mret tt)) as H2.
  { destruct (_ && _); [|by apply pres_ret; apply _].
    apply pres_bind; [apply _|apply bo_unsubscribe_all|intros; apply pres_ret; apply _]. }
  pose proof (pres_bind (sub_kept sid) _ (fun _ => _) H1 (fun _ => H2) w) as Hk.
  unfold mbind in Hd, Hk. rewrite Hd in Hk. exact Hk.
Qed.

(** A closed connection no read will wake up again. *)
Definition dead (c : Connection) : Prop :=
  is_open (socket_ c) = false /\ reads_in_flight (socket_ c) = 0%nat.

Lemma dead_do_read c : dead c -> do_read c = c.
Proof. intros [Ho _]. unfold do_read. rewrite Ho. by rewrite orb_true_r. Qed.

Lemma dead_do_write cfg data c : dead c -> do_write cfg data c = c.
Proof. intros [Ho _]. unfold do_write. by rewrite Ho. Qed.

Lemma dead_reset cfg c : dead c -> reset_idle_timer cfg c = c.
Proof. intros [Ho _]. unfold reset_idle_timer. rewrite Ho. by rewrite orb_true_r. Qed.

Lemma dead_on_write cfg ec n c : dead c -> dead (on_write cfg ec n c).
Proof.
  intros Hd. unfold on_write. destruct ec; [by destruct Hd|].
  set (c1 := with_pending _ _). assert (dead c1) as H1 by by destruct Hd.
  destruct (write_queue_ c1) as [|front rest] eqn:Hq.
  - destruct (close_after_write_ _); [by destruct Hd|].
    assert (dead (with_writes (write_buf_ c1) [] false c1)) as H2 by by destruct Hd.
    by rewrite dead_reset, dead_do_read.
  - unfold flush_write_queue. rewrite Hq. destruct H1 as [Ho Hr].
    rewrite Ho. cbn [negb]. by split.
Qed.

Lemma dead_on_idle a e c : dead c -> dead (on_idle a e c).
Proof.
  intros [Ho Hr]. unfold on_idle. destruct a; [done|]. cbn [is_open socket_ with_socket cancel_timer].
  rewrite Ho. by split.
Qed.

Section Leak.
Context `{RtOk : CxxRuntimeOk} (Sch : Schedule) `{!ScheduleOk Sch}.
Context (sc : ServerConfig) (broker : bool).

Definition leaked (sid : conn_id) (s : Server) : Prop :=
  (exists c, connections s !! sid = Some c /\ dead c) /\ holds_sub sid (srv_world s).

Lemma leaked_conn sid sid' c' a w s :
  leaked sid s -> (sid' = sid -> dead c') -> sub_kept sid (srv_world s) w ->
  leaked sid (with_conn sid' c' a w s).
Proof.
  intros [(c & Hc & Hd) Hs] Hdead Hw. split; [|by apply Hw]. simpl.
  destruct (decide (sid' = sid)) as [->|Hne].
  - exists c'. rewrite lookup_insert_eq. by split; [|apply Hdead].
  - exists c. by rewrite lookup_insert_ne.
Qed.

Lemma leaked_dead sid c s : leaked sid s -> connections s !! sid = Some c -> dead c.
Proof. intros [(c0 & Hc0 & Hd) _] Hc. rewrite Hc in Hc0. by injection Hc0 as <-. Qed.

Lemma leaked_accept sid r s s' reply :
  (forall id b, r = Accepted id b -> connections s !! id = None) ->
  on_accept sc r s = Some (s', reply) -> leaked sid s -> leaked sid s'.
Proof.
  intros Hf Hacc Hl. unfold on_accept in Hacc. destruct r as [id known| |].
  - destruct (at_capacity _ _); [by injection Hacc as <- _|].
    destruct known; [|done]. injection Hacc as <- _.
    destruct Hl as [(c & Hc & Hd) Hs]. split; [|simpl; by destruct (srv_has_stats sc)].
    exists c. simpl. rewrite lookup_insert_ne; [done|]. intros ->.
    by rewrite (Hf sid true eq_refl) in Hc.
  - by injection Hacc as <- _.
  - destruct (stopping_ _); by injection Hacc as <- _.
Qed.

Lemma leaked_destroy sid id c s w a :
  connections s !! id = Some c -> ~ broker_holds id (srv_world s) ->
  Connection_destroy (conn_config sc id) c (srv_world s) = (Ret tt, w) -> leaked sid s ->
  leaked sid (MkServer (stopping_ s) a (delete id (connections s)) (srv_aof s) w).
Proof.
  intros Hid Hnb Hd [(c0 & Hc0 & Hd0) Hs]. assert (sid <> id) as Hne.
  { intros <-. apply Hnb. destruct Hs as (ch & s0 & Hin & _ & Hwf).
    destruct (channels_ (srv_world s) !! ch) as [subs|] eqn:Hch; simpl in Hin; [|set_solver].
    by exists ch, subs, s0. }
  split; [exists c0; simpl; by rewrite lookup_delete_ne|].
  by apply (destroy_sub_kept sid (conn_config sc id) c (srv_world s) w).
Qed.

Lemma leaked_step sid s s' :
  leaked sid s -> server_step sc (@make_default _ Sch broker) s s' -> leaked sid s'.
Proof.
  intros Hl Hstep.
  destruct Hstep as [r s s' reply _ _ Hf _ Hacc|id s _ _ _|id c res s s' _ Hid Hfl _ Hread
    |id c ec s _ Hid _|id c a e s _ Hid _|id frame rest c s _ _ Hid|id c s w Hid _ _ Hnb Hd|r s Hr|].
  - by eapply leaked_accept.
  - done.
  - assert (sid <> id) as Hne.
    { intros <-. destruct (leaked_dead _ _ _ Hl Hid) as [_ Hr0]. lia. }
    apply leaked_conn; [done|by intros <-|].
    pose proof (sub_kept_broker sid id Hne) as Hops.
    pose proof (on_read_wpres (conn_config sc id) (sub_kept sid) (@make_default _ Sch broker)) as Hw.
    specialize (Hw ltac:(intros cmd; eapply pres_weaken; [|apply dispatch_shared; apply _];
       intros w w' [_ Heq] Hh; unfold holds_sub; by rewrite Heq)).
    specialize (Hw ltac:(by intros w Hh) res (MkCState c (srv_aof s) (srv_world s))).
    rewrite Hread in Hw. exact Hw.
  - apply leaked_conn; [done| |by intros ?]. intros ->. by eapply dead_on_write, leaked_dead.
  - apply leaked_conn; [done| |by intros ?]. intros ->. by eapply dead_on_idle, leaked_dead.
  - apply leaked_conn; [done| |by intros ?]. intros ->.
    rewrite dead_do_write; by eapply leaked_dead.
  - by eapply leaked_destroy.
  - destruct Hl as [Hc Hs].
    destruct (on_poll_cases sc r s) as [[b ->]|(Hst & _ & ->)]; [done|].
    unfold Server_stop. cbn [stopping_ with_poll with_loop]. rewrite Hst. split; [done|]. simpl.
    by destruct (srv_has_stats sc).
  - done.
Qed.

(** C39. A subscriber that disconnects is never released: once its socket is closed and
    no read is pending, the callback it registered keeps its Connection object alive and
    on the channel in every later state, so its destructor, the only remaining place that
    would unsubscribe it and free its client slot, does not run. *)
Theorem closed_subscriber_leaks sid c s s' :
  connections s !! sid = Some c -> is_open (socket_ c) = false ->
  reads_in_flight (socket_ c) = 0%nat -> holds_sub sid (srv_world s) ->
  rtc (server_step sc (@make_default _ Sch broker)) s s' ->
  is_Some (connections s' !! sid) /\ holds_sub sid (srv_world s').
Proof.
  intros Hc Ho Hr Hs Hrtc. assert (leaked sid s) as Hl by (split; [by exists c|done]).
  clear Hc Ho Hr Hs. induction Hrtc as [s|s1 s2 s3 Hstep _ IH].
  - destruct Hl as [(c0 & -> & _) Hs]. by split; [eexists|].
  - apply IH. by eapply leaked_step.
Qed.
End Leak.

(** * Witnesses *)

#[local] Existing Instance demo_runtime.
#[local] Existing Instance demo_schedule.

Definition demo_server_cfg : ServerConfig := MkServerConfig [] 1048576 300 1 1048576 true true true.

Definition demo_server : Server :=
  MkServer false (MkLoop false true false 0) ∅ (MkAof [] true)
    (MkWorld ∅ 0 (MkStats 0 0 0 false 6379 true) ∅ []).

(** One client is accepted, the second one refused. *)
Definition one_client : Server :=
  match on_accept demo_server_cfg (Accepted 3 true) (Server_run demo_server_cfg 0 demo_server) with
  | Some (s, _) => s
  | None => demo_server
  end.


(** Connection 3 is closed and still subscribed. *)
Definition leaky_server : Server :=
  MkServer false (MkLoop true true true 15)
    {[3%nat := close_socket (Connection_new (conn_config demo_server_cfg 3))]} (MkAof [] true)
    (MkWorld ∅ 0 (MkStats 0 1 0 true 6379 true)
       {["news"%b := [MkSubscriber 3 (MkWriteFn 3 "news"%b)]]} []).

Lemma closed_subscriber_leaks_witness :
  is_Some (connections (on_poll demo_server_cfg WaitOver leaky_server) !! 3%nat).
Proof.
  destruct (closed_subscriber_leaks demo_schedule demo_server_cfg true 3
              (close_socket (Connection_new (conn_config demo_server_cfg 3)))
              leaky_server (on_poll demo_server_cfg WaitOver leaky_server)) as [H1 _].
  - reflexivity.
  - reflexivity.
  - reflexivity.
  - exists "news"%b, (MkSubscriber 3 (MkWriteFn 3 "news"%b)).
    split; [left|split; reflexivity].
  - apply rtc_once. apply srv_poll; reflexivity.
  - exact H1.
Defined.
