(* ===== verification/Delivery.v ===== *)
(** From the server to its connections and back: every connection of a running server
    behaves as its own transition system says, callbacks never refer to a destroyed
    connection, and published messages reach the subscribers' output. *)

From stdpp Require Import relations.
From S2P Require Import Prelude Cxx Resp RespParser RespParserFacts RespGrammar RespTheorems World.
From S2P Require Import KvStore KvStoreFacts Command CmdSpec Demo StoreSim PubSubBroker Dispatcher.
From S2P Require Import Aof Histories BrokerSpec Connection ConnFacts ConnSteps Server ServerFacts.
From S2P Require Import ServerTheorems.

Open Scope Z_scope.

(** * Connections of a server *)

Section Projection.
Context `{CxxRuntime} (sc : ServerConfig) (handlers : gmap bytes HandlerFn).

Abbreviation step := (server_step sc handlers).

(** Connection [id] with the state it shares with the rest of the server. *)
Definition seen_by (s : Server) (c : Connection) : CState := MkCState c (srv_aof s) (srv_world s).

Definition all_reachable (s : Server) : Prop :=
  forall id c, connections s !! id = Some c ->
    conn_reachable (conn_config sc id) handlers (seen_by s c).

Lemma reachable_step cfg s s' :
  conn_reachable cfg handlers s -> conn_step cfg handlers s s' -> conn_reachable cfg handlers s'.
Proof. intros (s0 & H0 & Hr) Hs. exists s0. split; [done|]. by eapply rtc_r. Qed.

Lemma reachable_shared cfg c a w a' w' :
  conn_reachable cfg handlers (MkCState c a w) -> conn_reachable cfg handlers (MkCState c a' w').
Proof.
  intros Hr. apply (reachable_step cfg _ _ Hr (step_others cfg handlers a' w' (MkCState c a w))).
Qed.

(** A server with the same connections, whatever happened to the shared state. *)
Lemma all_reachable_same s s' :
  connections s' = connections s -> all_reachable s -> all_reachable s'.
Proof. intros Hc Hs id c Hid. rewrite Hc in Hid. by eapply reachable_shared, Hs. Qed.

Lemma all_reachable_conn id c a w s :
  all_reachable s -> conn_reachable (conn_config sc id) handlers (MkCState c a w) ->
  all_reachable (with_conn id c a w s).
Proof.
  intros Hs Hc id' c' Hid. simpl in Hid. destruct (decide (id = id')) as [<-|Hne].
  - rewrite lookup_insert_eq in Hid. by injection Hid as <-.
  - rewrite lookup_insert_ne in Hid by done. by eapply reachable_shared, Hs.
Qed.

Lemma all_reachable_accept r s s' reply :
  on_accept sc r s = Some (s', reply) -> all_reachable s -> all_reachable s'.
Proof.
  intros Hacc Hs. unfold on_accept in Hacc. destruct r as [id known| |].
  - destruct (at_capacity _ _); [injection Hacc as <- _; by eapply all_reachable_same|].
    destruct known; [|done]. injection Hacc as <- _. intros id' c' Hid. simpl in Hid.
    destruct (decide (id = id')) as [<-|Hne].
    + rewrite lookup_insert_eq in Hid. injection Hid as <-.
      eexists. split; [|apply rtc_refl]. done.
    + rewrite lookup_insert_ne in Hid by done. by eapply reachable_shared, Hs.
  - injection Hacc as <- _. by eapply all_reachable_same.
  - destruct (stopping_ _); injection Hacc as <- _; by eapply all_reachable_same.
Qed.

Lemma all_reachable_step s s' : step s s' -> all_reachable s -> all_reachable s'.
Proof.
  intros Hstep Hs.
  destruct Hstep as [r s s' reply _ _ _ _ Hacc| |id c res s s' _ Hid Hfl Hlen Hread
    |id c ec s _ Hid Hfl|id c a e s _ Hid _|id frame rest c s _ _ Hid|id c s w _ _ _ _ _
    |r s _ _|]; try done.
  - by eapply all_reachable_accept.
  - apply all_reachable_conn; [done|]. apply (reachable_step _ (seen_by s c)); [by apply Hs|].
    destruct s' as [c' a' w']. destruct res as [chunk|].
    + by eapply step_read; [..|exact Hread]; [|apply Hlen].
    + by eapply step_read_error; [|exact Hread].
  - apply all_reachable_conn; [done|]. apply (reachable_step _ (seen_by s c)); [by apply Hs|].
    destruct ec; [by apply (step_write_error _ _ _ (seen_by s c))|].
    by apply (step_written _ _ (seen_by s c)).
  - apply all_reachable_conn; [done|]. apply (reachable_step _ (seen_by s c)); [by apply Hs|].
    apply (step_idle _ _ _ _ (seen_by s c)).
  - apply all_reachable_conn; [done|]. eapply reachable_shared.
    apply (reachable_step _ (seen_by s c)); [by apply Hs|]. apply (step_push _ _ _ (seen_by s c)).
  - intros id' c' Hid'. simpl in Hid'. apply lookup_delete_Some in Hid' as [_ Hid'].
    by eapply reachable_shared, Hs.
  - eapply all_reachable_same; [|exact Hs].
    destruct (on_poll_cases sc r s) as [[b ->]|(_ & _ & ->)]; [done|].
    unfold Server_stop. by destruct (stopping_ _).
Qed.

Lemma Server_run_connections early s : connections (Server_run sc early s) = connections s.
Proof.
  unfold Server_run, setup_signal_handlers. set (s1 := vortek_signal_handler _ _).
  assert (connections s1 = connections s) as Hc by by (subst s1; destruct (srv_has_stats sc)).
  destruct (poll_cases sc s1) as [[b ->]|(_ & _ & ->)]; [done|].
  unfold Server_stop. by destruct (stopping_ s1).
Qed.

Lemma all_reachable_rtc early s0 s :
  connections s0 = ∅ -> rtc step (Server_run sc early s0) s -> all_reachable s.
Proof.
  intros H0 Hrtc. assert (all_reachable (Server_run sc early s0)) as Hi.
  { intros id c Hid. rewrite Server_run_connections, H0 in Hid. done. }
  induction Hrtc as [|s1 s2 s3 Hstep _ IH]; [done|]. apply IH. by eapply all_reachable_step.
Qed.
End Projection.

(** ** Bounds over all connections *)

Definition total_over (f : Connection -> Z) (m : gmap conn_id Connection) : Z :=
  map_fold (fun _ c n => f c + n) 0 m.

Lemma total_over_bound f m b :
  (forall id c, m !! id = Some c -> f c <= b) -> total_over f m <= Z.of_nat (size m) * b.
Proof.
  unfold total_over. induction m as [|id c m Hid IH] using map_ind; intros Hb.
  { by rewrite map_fold_empty, map_size_empty. }
  rewrite map_fold_insert_L; [|intros; lia|done]. rewrite map_size_insert_None by done.
  assert (f c <= b) by (apply (Hb id); by rewrite lookup_insert_eq).
  rewrite Nat2Z.inj_succ, Z.mul_succ_l.
  enough (map_fold (fun _ c n => f c + n) 0 m <= Z.of_nat (size m) * b) by lia.
  apply IH. intros id' c' Hc'. apply (Hb id'). rewrite lookup_insert_ne; [done|]. congruence.
Qed.

Definition buffered (c : Connection) : Z := zlen (buf_ (parser_ c)).
Definition unsent (c : Connection) : Z := if is_open (socket_ c) then pending_write_bytes_ c else 0.

Lemma server_limits sc id :
  0 <= srv_max_pending_write_bytes sc -> 0 <= srv_max_request_bytes sc < 2 ^ 62 ->
  idle_countable sc -> limits_ok (conn_config sc id).
Proof. intros Hp Hr Hi. split; [done|]. split; [done|apply Hi]. Qed.

(** The server as a system of connections: each connection is in a state its own transition
    system reaches, so all that holds of connections holds of them; and what they buffer,
    all together, is bounded by the limit on clients times the limits of one connection. *)
Lemma memory_bounds `{CxxRuntime} (Sch : Schedule) `{!ScheduleOk Sch} sc broker early s0 s :
  srv_has_stats sc = true -> 0 <= srv_max_pending_write_bytes sc ->
  0 <= srv_max_request_bytes sc < 2 ^ 62 -> idle_countable sc ->
  connections s0 = ∅ -> connected_clients (stats (srv_world s0)) = 0 -> stopping_ s0 = false ->
  rtc (server_step sc (@make_default _ Sch broker)) (Server_run sc early s0) s ->
  total_over buffered (connections s) <= client_cap sc * srv_max_request_bytes sc /\
  total_over unsent (connections s) <= client_cap sc * srv_max_pending_write_bytes sc.
Proof.
  intros Hst Hpend Hreq Hidle H0 Hc0 Hs0 Hrtc.
  pose proof (all_reachable_rtc sc (@make_default _ Sch broker) early s0 s H0 Hrtc) as Hreach.
  destruct (srv_inv_reachable Sch sc broker early s0 s) as [[_ Hsize _] _]; try done.
  assert (forall id c, connections s !! id = Some c ->
    conn_inv (conn_config sc id) (seen_by s c)) as Hinv.
  { intros id c Hid.
    apply (conn_inv_reachable _ (@make_default _ Sch broker)); [by apply server_limits|by apply Hreach]. }
  split.
  - etrans; [apply (total_over_bound _ _ (srv_max_request_bytes sc))|nia].
    intros id c Hid. apply (conn_buffer _ _ (Hinv id c Hid)).
  - etrans; [apply (total_over_bound _ _ (srv_max_pending_write_bytes sc))|nia].
    intros id c Hid. unfold unsent. destruct (is_open _) eqn:Ho; [|done].
    apply (inv_pending _ _ (conn_io _ _ (Hinv id c Hid)) Ho).
Qed.

(** * References to connections *)

(** The callbacks of a channel; a callback or a posted frame refers to its connection. *)
Definition subs_of (w : World) (ch : bytes) : list Subscriber := default [] (channels_ w !! ch).

Definition refers (id : conn_id) (w : World) : Prop :=
  (exists ch s, s ∈ subs_of w ch /\ wf_self (write s) = id) \/ id ∈ map fst (posted w).

Lemma refers_empty w : channels_ w = ∅ -> posted w = [] -> forall id, ~ refers id w.
Proof.
  intros Hc Hp id [(ch & s & Hs & _)|Hin].
  - unfold subs_of in Hs. rewrite Hc, lookup_empty in Hs. by apply elem_of_nil in Hs.
  - rewrite Hp in Hin. by apply elem_of_nil in Hin.
Qed.

(** Posted bytes are message frames. *)
Definition is_message (frame : bytes) : Prop := exists ch msg, frame = make_message_frame ch msg.
Definition frames_ok (w : World) : Prop := Forall (fun p => is_message (snd p)) (posted w).

Record refs_kept (new : conn_id -> Prop) (w w' : World) : Prop := {
  rk_refers : forall id, refers id w' -> refers id w \/ new id;
  rk_frames : frames_ok w -> frames_ok w';
}.

#[export] Instance refs_kept_preorder new : PreOrder (refs_kept new).
Proof.
  split; [split; by auto|]. intros w1 w2 w3 [R1 F1] [R2 F2]. split; [|by auto].
  intros id Hid. destruct (R2 id Hid) as [Hid'|]; [by apply R1|by right].
Qed.

Lemma refs_subs new w w' :
  (forall ch s, s ∈ subs_of w' ch -> s ∈ subs_of w ch \/ new (wf_self (write s))) ->
  posted w' = posted w -> refs_kept new w w'.
Proof.
  intros Hs Hp. split; unfold frames_ok, refers; rewrite Hp; [|done].
  intros id [(ch & s & Hin & <-)|Hid]; [|by left; right].
  destruct (Hs ch s Hin); [left; left; by exists ch, s|by right].
Qed.

Lemma subs_removed w w' sid ch :
  channels_ w' !! ch = channels_ w !! ch \/
  channels_ w' !! ch = channels_ w !! ch ≫= (fun subs => keep_nonempty (remove_sub sid subs)) ->
  forall s, s ∈ subs_of w' ch -> s ∈ subs_of w ch.
Proof.
  unfold subs_of. intros [-> | ->] s; [done|]. destruct (channels_ w !! ch) as [subs|]; simpl; [|done].
  rewrite default_keep_nonempty. unfold remove_sub. by intros [_ Hs]%list_elem_of_filter.
Qed.

Section Refs.
Context `{RtOk : CxxRuntimeOk}.

Lemma unsubscribe_all_posted sid w : posted (snd (PubSubBroker_unsubscribe_all sid w)) = posted w.
Proof. unfold PubSubBroker_unsubscribe_all. by destruct (unsubscribe_walk _ _ _ _). Qed.

Lemma unsubscribe_all_refs new sid : pres (refs_kept new) (PubSubBroker_unsubscribe_all sid).
Proof.
  intros w. apply refs_subs; [|apply unsubscribe_all_posted]. intros ch s Hs. left. revert Hs.
  eapply subs_removed. right. apply unsubscribe_all_lookup.
Qed.

#[export] Instance refs_kept_broker sid : BrokerOps sid (refs_kept (eq sid)).
Proof.
  split; [apply _|..|apply unsubscribe_all_refs].
  - intros ch w. apply refs_subs; [|done]. intros ch' s. unfold subs_of.
    rewrite subscribe_lookup. case_decide as Hch; [|by left]. subst ch'. cbv zeta. simpl.
    destruct (replace_sub _ _ _) as [subs'|] eqn:Hr.
    + intros Hs. destruct (replace_sub_elem _ _ _ _ _ Hr Hs) as [?| ->]; [by left|by right].
    + rewrite elem_of_app. intros [Hs|Hs]; [by left|]. apply list_elem_of_singleton in Hs as ->.
      by right.
  - intros ch w. apply refs_subs.
    + intros ch' s Hs. left. revert Hs. apply (subs_removed _ _ sid). rewrite unsubscribe_lookup.
      case_decide; [right; by subst|by left].
    + unfold PubSubBroker_unsubscribe. by destruct (channels_ w !! ch).
Qed.

Lemma publish_refs new c : pres (refs_kept new) (cmd_publish c).
Proof.
  unfold cmd_publish. destruct (args c) as [|ch [|msg []]]; try (apply pres_ret; apply _).
  apply pres_bind; [apply _| |intros; apply pres_ret; apply _]. intros w. rewrite publish_run.
  cbn [snd]. split.
  - intros id [Hb|Hp]; [by left; left|]. left. unfold refers in *. cbn [posted add_posted] in Hp.
    rewrite map_app, elem_of_app, map_map in Hp. destruct Hp as [Hp|Hp]; [by right|].
    left. apply list_elem_of_fmap in Hp as (s & -> & Hs). exists ch, s. by split.
  - intros Hf. unfold frames_ok in *. cbn [posted add_posted]. apply Forall_app. split; [done|].
    apply Forall_fmap, Forall_true. intros s. by do 2 eexists.
Qed.

Lemma rest_refs new w w' : unchanged_rest w w' -> refs_kept new w w'.
Proof.
  intros [_ Hc Hp _]. apply refs_subs; [|done]. unfold subs_of. rewrite Hc. by left.
Qed.

#[export] Instance refs_kept_writes (Sch : Schedule) `{!ScheduleOk Sch} new :
  StoreWrites Sch (refs_kept new).
Proof. apply (writes_weaken Sch); [apply refs_kept_preorder|apply rest_refs]. Qed.

Lemma dispatch_refs (Sch : Schedule) `{!ScheduleOk Sch} new broker c :
  pres (refs_kept new) (dispatch (@make_default _ Sch broker) c).
Proof. apply (dispatch_preserves Sch (refs_kept new)). apply publish_refs. Qed.

Lemma on_read_refs (Sch : Schedule) `{!ScheduleOk Sch} broker cfg result :
  wpres (refs_kept (eq (self cfg))) (on_read cfg (@make_default _ Sch broker) result).
Proof.
  apply (on_read_wpres cfg (refs_kept (eq (self cfg)))).
  - intros c. apply (dispatch_refs Sch).
  - intros w. apply refs_subs; [by left|done].
Qed.
End Refs.

(** * Delivery *)

(** The frames posted for a connection, oldest first. *)
Definition frames_for (id : conn_id) (l : list (conn_id * bytes)) : list bytes :=
  map snd (filter (fun p => fst p = id) l).

Lemma frames_for_cons id p l :
  frames_for id (p :: l) = (if decide (fst p = id) then [snd p] else []) ++ frames_for id l.
Proof. unfold frames_for. rewrite filter_cons. by case_decide. Qed.

Lemma frames_for_messages id w : frames_ok w -> Forall is_message (frames_for id (posted w)).
Proof.
  unfold frames_ok, frames_for. intros Hf. apply Forall_forall. intros f Hin.
  apply list_elem_of_fmap in Hin as (p & -> & Hp). apply list_elem_of_filter in Hp as [_ Hp].
  by apply (proj1 (Forall_forall _ _) Hf).
Qed.

(** Running the handlers of posted frames on one connection. *)
Definition write_frames (cfg : ConnConfig) (fs : list bytes) (c : Connection) : Connection :=
  fold_left (fun c f => do_write cfg f c) fs c.

Lemma output_write_frames cfg fs c :
  io_inv cfg c -> is_open (socket_ c) = true ->
  pending_write_bytes_ c + zlen (concat fs) <= max_pending_write_bytes_ cfg ->
  output (write_frames cfg fs c) = output c ++ concat fs /\
  is_open (socket_ (write_frames cfg fs c)) = true.
Proof.
  revert c. induction fs as [|f fs IH]; intros c Hi Ho Hroom; simpl.
  { by rewrite app_nil_r. }
  cbn [concat] in Hroom. rewrite zlen_app in Hroom. pose proof (zlen_nonneg (concat fs)).
  pose proof (output_do_write cfg f c Hi Ho) as Hw. unfold written in Hw.
  rewrite (proj2 (Z.leb_le _ _)) in Hw by lia. destruct Hw as [Hw Ho'].
  destruct (IH (do_write cfg f c)) as [H1 H2]; [by apply io_inv_do_write|done| |].
  { rewrite do_write_pending; [lia|done|lia]. }
  split; [|done]. by rewrite H1, Hw, <- app_assoc.
Qed.

Section Messages.
Context `{RtOk : CxxRuntimeOk} (Sch : Schedule) `{!ScheduleOk Sch}.
Context (sc : ServerConfig) (broker : bool).

Abbreviation commands := (@make_default _ Sch broker).
Abbreviation step := (server_step sc commands).

Record refs_inv (s : Server) : Prop := {
  ri_alive : forall id, refers id (srv_world s) -> is_Some (connections s !! id);
  ri_frames : frames_ok (srv_world s);
}.

(** A step that keeps the objects and only lets [new], which exists, be referred to. *)
Lemma refs_inv_kept new s s' :
  refs_inv s -> refs_kept new (srv_world s) (srv_world s') ->
  (forall id, is_Some (connections s !! id) -> is_Some (connections s' !! id)) ->
  (forall id, new id -> is_Some (connections s' !! id)) -> refs_inv s'.
Proof.
  intros [Ha Hf] [Hr Hfr] Hc Hn. split; [|by apply Hfr]. intros id Hid.
  destruct (Hr id Hid) as [Hid'|Hid']; [by apply Hc, Ha|by apply Hn].
Qed.

Lemma insert_kept {A} (m : gmap conn_id A) id a x : is_Some (m !! x) -> is_Some (<[id := a]> m !! x).
Proof. intros Hx. destruct (decide (id = x)) as [->|]; [by rewrite lookup_insert_eq|by rewrite lookup_insert_ne]. Qed.

Lemma refs_none_same w w' :
  channels_ w' = channels_ w -> posted w' = posted w -> refs_kept (fun _ => False) w w'.
Proof. intros Hc Hp. apply refs_subs; [|done]. unfold subs_of. rewrite Hc. by left. Qed.

Lemma refs_inv_same s s' :
  refs_inv s -> channels_ (srv_world s') = channels_ (srv_world s) ->
  posted (srv_world s') = posted (srv_world s) ->
  (forall id, is_Some (connections s !! id) -> is_Some (connections s' !! id)) -> refs_inv s'.
Proof. intros Hs Hc Hp Hm. eapply refs_inv_kept; [done|by apply refs_none_same|done|done]. Qed.

Lemma refs_inv_accept r s s' reply :
  on_accept sc r s = Some (s', reply) -> refs_inv s -> refs_inv s'.
Proof.
  intros Hacc Hs. unfold on_accept in Hacc. destruct r as [id known| |].
  - destruct (at_capacity _ _); [injection Hacc as <- _; by eapply refs_inv_same|].
    destruct known; [|done]. injection Hacc as <- _.
    eapply refs_inv_same; [done|simpl; by destruct (srv_has_stats sc)..|].
    intros id'. apply insert_kept.
  - injection Hacc as <- _. by eapply refs_inv_same.
  - destruct (stopping_ _); injection Hacc as <- _; by eapply refs_inv_same.
Qed.

Lemma destroy_refs cfg c w w' :
  Connection_destroy cfg c w = (Ret tt, w') -> refs_kept (fun _ => False) w w'.
Proof.
  unfold Connection_destroy, mbind, M_bind.
  assert (forall w0, channels_ w0 = channels_ w -> posted w0 = posted w ->
    refs_kept (fun _ => False) w w0) as H0 by (intros; by apply refs_none_same).
  assert (forall w0, refs_kept (fun _ => False) w w0 ->
    refs_kept (fun _ => False) w (snd (PubSubBroker_unsubscribe_all (self cfg) w0))) as Hu.
  { intros w0 Hw. etrans; [exact Hw|apply unsubscribe_all_refs]. }
  destruct (has_stats cfg); cbn [modify mret M_ret];
    (destruct (_ && _); [|intros [= <-]; by apply H0]);
    match goal with |- context [PubSubBroker_unsubscribe_all _ ?w0] => specialize (Hu w0) end;
    unfold PubSubBroker_unsubscribe_all in *; destruct (unsubscribe_walk _ _ _ _);
    intros [= <-]; apply Hu; by apply H0.
Qed.

Lemma refs_inv_destroy id s w l :
  ~ refers id (srv_world s) -> refs_kept (fun _ => False) (srv_world s) w -> refs_inv s ->
  refs_inv (MkServer (stopping_ s) l (delete id (connections s)) (srv_aof s) w).
Proof.
  intros Hn [Hr Hf] [Ha Hfr]. split; [|by apply Hf]. intros id' Hid'. simpl.
  destruct (Hr id' Hid') as [Hold|[]]. rewrite lookup_delete_ne; [by apply Ha|].
  intros ->. done.
Qed.

(** An object that can be destroyed is not referred to. *)
Lemma unreferred id w : posted_holds id w = false -> ~ broker_holds id w -> ~ refers id w.
Proof.
  intros Hp Hb [(ch & s & Hs & Hid)|Hin].
  - apply Hb. unfold subs_of in Hs. destruct (channels_ w !! ch) as [subs|] eqn:Hc; [|simpl in Hs; set_solver].
    by exists ch, subs, s.
  - unfold posted_holds in Hp. apply bool_decide_eq_false in Hp. apply Hp.
    apply list_elem_of_fmap in Hin as (p & -> & Hp'). apply Exists_exists. by exists p.
Qed.

Lemma refs_inv_step s s' : step s s' -> refs_inv s -> refs_inv s'.
Proof.
  intros Hstep Hs.
  destruct Hstep as [r s s' reply _ _ _ _ Hacc|id s _ _ _|id c res s s' _ Hid Hfl Hlen Hread
    |id c ec s _ Hid Hfl|id c a e s _ Hid _|id frame rest c s _ Hpost Hid|id c s w _ _ Hp Hb Hd
    |r s _ _|].
  - by eapply refs_inv_accept.
  - by eapply refs_inv_same.
  - pose proof (on_read_refs Sch broker (conn_config sc id) res (seen_by s c)) as Hk.
    unfold seen_by in Hk. rewrite Hread in Hk.
    eapply refs_inv_kept; [exact Hs|exact Hk|intros id'; apply insert_kept|].
    intros id' <-. simpl. by rewrite lookup_insert_eq.
  - eapply refs_inv_same; [exact Hs|done|done|intros id'; apply insert_kept].
  - eapply refs_inv_same; [exact Hs|done|done|intros id'; apply insert_kept].
  - eapply (refs_inv_kept (fun _ => False)); [exact Hs| |intros id'; apply insert_kept|done].
    split; unfold frames_ok, refers; simpl; rewrite Hpost.
    + intros id' [Hb|Hin]; left; [by left|right]. simpl. set_solver.
    + by intros [_ ?]%Forall_cons.
  - apply refs_inv_destroy; [by apply unreferred|by eapply destroy_refs|done].
  - destruct (on_poll_cases sc r s) as [[b ->]|(_ & _ & ->)]; [by eapply refs_inv_same|].
    unfold Server_stop. destruct (stopping_ _); [by eapply refs_inv_same|].
    eapply refs_inv_same; [exact Hs|simpl; by destruct (srv_has_stats sc)..|done].
  - by eapply refs_inv_same.
Qed.
Lemma refs_inv_run early s : refs_inv s -> refs_inv (Server_run sc early s).
Proof.
  intros Hs. unfold Server_run, setup_signal_handlers. set (s1 := vortek_signal_handler _ _).
  assert (refs_inv s1) as H1.
  { eapply refs_inv_same; [exact Hs|subst s1; simpl; by destruct (srv_has_stats sc)..|].
    subst s1. by destruct (srv_has_stats sc). }
  destruct (poll_cases sc s1) as [[b ->]|(_ & _ & ->)]; [by eapply refs_inv_same|].
  unfold Server_stop. destruct (stopping_ _); [by eapply refs_inv_same|].
  eapply refs_inv_same; [exact H1|simpl; by destruct (srv_has_stats sc)..|done].
Qed.

Lemma refs_inv_rtc early s0 s :
  (forall id, ~ refers id (srv_world s0)) -> rtc step (Server_run sc early s0) s -> refs_inv s.
Proof.
  intros H0 Hrtc. assert (refs_inv (Server_run sc early s0)) as Hi.
  { apply refs_inv_run. split; [intros id Hid; by destruct (H0 id)|]. unfold frames_ok.
    destruct (posted (srv_world s0)) as [|[id f] l] eqn:Hp; [constructor|].
    destruct (H0 id). right. rewrite Hp. simpl. set_solver. }
  clear H0. induction Hrtc as [|s1 s2 s3 Hstep _ IH]; [done|]. apply IH. by eapply refs_inv_step.
Qed.

(** The event loop can always run the posted handlers to the last. *)
Lemma drain_posted l s :
  posted (srv_world s) = l -> running s = true -> refs_inv s ->
  exists s', rtc step s s' /\ posted (srv_world s') = [] /\
    forall id c, connections s !! id = Some c ->
      connections s' !! id = Some (write_frames (conn_config sc id) (frames_for id l) c).
Proof.
  revert s. induction l as [|[id f] l IH]; intros s Hp Hrun Hs.
  { exists s. split_and!; [apply rtc_refl|done|done]. }
  destruct (ri_alive s Hs id) as [c Hc].
  { right. rewrite Hp. simpl. set_solver. }
  pose proof (srv_posted sc commands id f l c s Hrun Hp Hc) as Hstep.
  pose proof (refs_inv_step _ _ Hstep Hs) as Hs1.
  set (s1 := with_conn id _ _ _ s) in *.
  destruct (IH s1 eq_refl Hrun Hs1) as (s' & Hrtc & Hp' & Hconn).
  exists s'. split_and!; [by eapply rtc_l|done|]. intros id' c' Hid'. rewrite frames_for_cons.
  cbn [fst snd]. destruct (decide (id = id')) as [<-|Hne].
  - rewrite Hc in Hid'. injection Hid' as <-. apply (Hconn id). simpl. by rewrite lookup_insert_eq.
  - apply Hconn. simpl. by rewrite lookup_insert_ne.
Qed.

(** C35. Messages reach their subscribers: in every state of the server, a connection that
    is subscribed to a channel or has frames posted for it still exists; and while the
    event loop runs it can always deliver everything that was posted, after which each
    connection whose socket is open and whose buffer has room has exactly the frames
    posted for it, all of them messages and in the order of publication, appended to its
    output. *)
Theorem messages_reach_subscribers early s0 s :
  connections s0 = ∅ -> (forall id, ~ refers id (srv_world s0)) ->
  0 <= srv_max_pending_write_bytes sc -> 0 <= srv_max_request_bytes sc < 2 ^ 62 ->
  idle_countable sc -> rtc step (Server_run sc early s0) s ->
  (forall id, refers id (srv_world s) -> is_Some (connections s !! id)) /\
  (running s = true ->
   exists s', rtc step s s' /\ posted (srv_world s') = [] /\
   forall id c, connections s !! id = Some c ->
     let frames := frames_for id (posted (srv_world s)) in
     exists c', connections s' !! id = Some c' /\ Forall is_message frames /\
     (is_open (socket_ c) = true ->
      pending_write_bytes_ c + zlen (concat frames) <= srv_max_pending_write_bytes sc ->
      output c' = output c ++ concat frames /\ is_open (socket_ c') = true)).
Proof.
  intros H0 Hr0 Hpend Hreq Hidle Hrtc. pose proof (refs_inv_rtc early s0 s Hr0 Hrtc) as Hs.
  pose proof (all_reachable_rtc sc commands early s0 s H0 Hrtc) as Hreach.
  split; [apply Hs|]. intros Hrun.
  destruct (drain_posted _ s eq_refl Hrun Hs) as (s' & Hrtc' & Hp & Hconn).
  exists s'. split_and!; [done..|]. intros id c Hid frames. eexists. split_and!.
  - by apply Hconn.
  - apply frames_for_messages, Hs.
  - intros Ho Hroom. apply output_write_frames; [|done|done].
    refine (conn_io _ _ (conn_inv_reachable (conn_config sc id) commands (seen_by s c) _ _)).
    + by apply server_limits.
    + by apply Hreach.
Qed.
End Messages.

(** * Witnesses *)

#[local] Existing Instance demo_runtime.
#[local] Existing Instance demo_schedule.

Definition demo_sc : ServerConfig := MkServerConfig [] 1048576 300 100 1048576 false true true.
Definition demo_server : Server :=
  MkServer false (MkLoop false true false 0) ∅ (MkAof [] false)
    (MkWorld ∅ 0 (MkStats 0 0 0 false 6379 false) ∅ []).

Definition demo_accept (id : conn_id) (s : Server) : Server :=
  match on_accept demo_sc (Accepted id true) s with Some (s, _) => s | None => s end.

Definition demo_read (id : conn_id) (cmd : Command) (s : Server) : Server :=
  match connections s !! id with
  | None => s
  | Some c =>
      let s' := snd (on_read (conn_config demo_sc id) (make_default true)
                       (Some (serialize (command_value cmd))) (seen_by s c)) in
      with_conn id (conn s') (aof s') (world s') s
  end.

(** Clients 3 and 4 connect; 3 subscribes, 4 publishes. *)
Definition demo_s1 : Server := demo_accept 3 (Server_run demo_sc 0 demo_server).
Definition demo_s2 : Server := demo_accept 4 demo_s1.
Definition demo_s3 : Server := demo_read 3 (MkCommand "SUBSCRIBE" ["news"])%b demo_s2.
Definition demo_s4 : Server := demo_read 4 (MkCommand "PUBLISH" ["news"; "hi"])%b demo_s3.

Lemma demo_accept_step id s s' :
  on_accept demo_sc (Accepted id true) s = Some (s', None) -> connections s !! id = None ->
  running s = true -> accepting s = true -> server_step demo_sc (make_default true) s s'.
Proof.
  intros Ha Hid Hr Hacc. apply (srv_accept _ _ (Accepted id true) _ s' None); try done.
  by intros id' b [= <- _].
Qed.

(** A read can complete with the bytes of the command. *)
Definition demo_readable (id : conn_id) (cmd : Command) (s : Server) : bool :=
  match connections s !! id with
  | None => false
  | Some c =>
      (0 <? reads_in_flight (socket_ c))%nat
      && (length (serialize (command_value cmd)) <=? 4096)%nat
      && match fst (on_read (conn_config demo_sc id) (make_default true)
                      (Some (serialize (command_value cmd))) (seen_by s c)) with
         | Ret _ => running s
         | _ => false
         end
  end.

Lemma demo_read_step id cmd s :
  demo_readable id cmd s = true ->
  server_step demo_sc (make_default true) s (demo_read id cmd s).
Proof.
  unfold demo_readable, demo_read. destruct (connections s !! id) as [c|] eqn:Hc; [|done].
  rewrite !andb_true_iff, Nat.ltb_lt, Nat.leb_le. intros [[Hf Hl] Ho].
  destruct (on_read (conn_config demo_sc id) (make_default true)
              (Some (serialize (command_value cmd))) (seen_by s c)) as [[[]|e| |] s'] eqn:Hr;
    try done.
  apply (srv_read _ _ id c (Some (serialize (command_value cmd))) s s'); try done.
  by intros chunk [= <-].
Qed.

Lemma demo_run :
  rtc (server_step demo_sc (make_default true)) (Server_run demo_sc 0 demo_server) demo_s4.
Proof.
  eapply rtc_l; [apply (demo_accept_step 3 _ demo_s1); vm_compute; reflexivity|].
  eapply rtc_l; [apply (demo_accept_step 4 _ demo_s2); vm_compute; reflexivity|].
  eapply rtc_l; [apply (demo_read_step 3 (MkCommand "SUBSCRIBE" ["news"])%b);
                 vm_compute; reflexivity|].
  apply rtc_once, (demo_read_step 4 (MkCommand "PUBLISH" ["news"; "hi"])%b).
  vm_compute. reflexivity.
Qed.

Lemma messages_reach_subscribers_witness :
  exists s' c c', rtc (server_step demo_sc (make_default true)) demo_s4 s' /\
    connections demo_s4 !! 3%nat = Some c /\ connections s' !! 3%nat = Some c' /\
    output c' = output c ++ make_message_frame "news"%b "hi"%b.
Proof.
  destruct (messages_reach_subscribers demo_schedule demo_sc true 0 demo_server demo_s4)
    as (_ & Hd).
  - reflexivity.
  - by apply refers_empty.
  - vm_compute. discriminate.
  - vm_compute. split; [discriminate|reflexivity].
  - intros id. vm_compute. discriminate.
  - exact demo_run.
  - destruct Hd as (s' & Hr & _ & Hc); [vm_compute; reflexivity|].
    destruct (connections demo_s4 !! 3%nat) as [c|] eqn:H3; [|vm_compute in H3; discriminate].
    destruct (Hc 3%nat c H3) as (c' & Hc' & _ & Ho).
    assert (frames_for 3 (posted (srv_world demo_s4)) = [make_message_frame "news"%b "hi"%b]) as Hf
      by (vm_compute; reflexivity).
    rewrite Hf in Ho. exists s', c, c'. split_and!; [exact Hr|reflexivity|exact Hc'|].
    assert (Some (true, 33) = (fun c => (is_open (socket_ c), pending_write_bytes_ c)) <$> Some c)
      as Hp by (rewrite <- H3; vm_compute; reflexivity).
    cbn in Hp. injection Hp as Hopen Hpend. rewrite <- Hpend in Ho.
    specialize (Ho (eq_sym Hopen) ltac:(vm_compute; discriminate)).
    rewrite (proj1 Ho). cbn [concat]. by rewrite app_nil_r.
Defined.
