(* ===== verification/Utils.v ===== *)
(** The logger, error codes and byte views (src/utils/logger.hpp, error.hpp,
    byte_view.hpp). *)

From S2P Require Import Prelude Cxx.

(** * Logger (logger.hpp)

    spdlog is a library: its default logger is a value of an abstract type, with the
    operations the wrapper calls and what can be observed of them. *)

Inductive level := level_debug | level_info | level_warn | level_err.

#[global] Instance level_eq_dec : EqDecision level.
Proof. solve_decision. Defined.

Definition severity (l : level) : nat :=
  match l with level_debug => 0 | level_info => 1 | level_warn => 2 | level_err => 3 end.

Class Spdlog := {
  logger : Type;
  spdlog_set_pattern : bytes -> logger -> logger;
  spdlog_set_level : level -> logger -> logger;
  spdlog_log : level -> bytes -> logger -> logger;   (* spdlog::debug, info, ...("{}", msg) *)
  sink : logger -> list (level * bytes);              (* the messages printed so far *)
  pattern : logger -> bytes;
  threshold : logger -> level;
}.

(** What the library documents: the setters take effect, and a message is printed exactly
    when its level is at least the logger's. *)
Class SpdlogOk (S : Spdlog) : Prop := {
  pattern_set : forall p g, pattern (spdlog_set_pattern p g) = p;
  pattern_kept : forall l g, pattern (spdlog_set_level l g) = pattern g;
  threshold_set : forall l g, threshold (spdlog_set_level l g) = l;
  pattern_log : forall l m g, pattern (spdlog_log l m g) = pattern g;
  threshold_log : forall l m g, threshold (spdlog_log l m g) = threshold g;
  sink_set : forall l g, sink (spdlog_set_level l g) = sink g;
  sink_pattern : forall p g, sink (spdlog_set_pattern p g) = sink g;
  sink_log : forall l m g,
    sink (spdlog_log l m g)
    = sink g ++ if (severity (threshold g) <=? severity l)%nat then [(l, m)] else [];
}.

Section Logger.
Context `{Spdlog}.

Definition log_debug (msg : bytes) : logger -> logger := spdlog_log level_debug msg.
Definition log_info (msg : bytes) : logger -> logger := spdlog_log level_info msg.
Definition log_warn (msg : bytes) : logger -> logger := spdlog_log level_warn msg.
Definition log_error (msg : bytes) : logger -> logger := spdlog_log level_err msg.

(** The two patterns; a double quote is written as its character code, 34. *)
Definition dquote : bytes := ["034"%char].
Definition json_pattern : bytes :=
  "{"%b ++ dquote ++ "ts"%b ++ dquote ++ ":"%b ++ dquote ++ "%Y-%m-%dT%H:%M:%S.%e"%b ++ dquote
  ++ ","%b ++ dquote ++ "level"%b ++ dquote ++ ":"%b ++ dquote ++ "%l"%b ++ dquote
  ++ ","%b ++ dquote ++ "msg"%b ++ dquote ++ ":"%b ++ dquote ++ "%v"%b ++ dquote ++ "}"%b.
Definition plain_pattern : bytes := "[%Y-%m-%d %H:%M:%S.%e] [%l] %v"%b.

Definition set_format (format : bytes) : logger -> logger :=
  if decide (format = "json"%b) then spdlog_set_pattern json_pattern
  else spdlog_set_pattern plain_pattern.

Definition set_level (lvl : bytes) : logger -> logger :=
  if decide (lvl = "debug"%b) then spdlog_set_level level_debug
  else if decide (lvl = "warn"%b) then spdlog_set_level level_warn
  else if decide (lvl = "error"%b) then spdlog_set_level level_err
  else spdlog_set_level level_info.
End Logger.

(** The level a name stands for, and the names [set_level] is documented for. *)
Definition level_named (lvl : bytes) : level :=
  match list_find (fun p => fst p = lvl)
          [("debug"%b, level_debug); ("info"%b, level_info); ("warn"%b, level_warn);
           ("error"%b, level_err)] with
  | Some (_, (_, l)) => l
  | None => level_info
  end.

Lemma set_level_named `{Spdlog} lvl g : set_level lvl g = spdlog_set_level (level_named lvl) g.
Proof.
  unfold set_level, level_named. cbn [list_find fst].
  repeat case_decide; simplify_eq/=; try congruence; done.
Qed.

(** After start-up's two calls exactly the messages of the configured level and above are
    printed, in the configured format. *)
Lemma configured_logger `{SpdlogOk} fmt lvl l m g :
  let g' := set_level lvl (set_format fmt g) in
  pattern g' = (if decide (fmt = "json"%b) then json_pattern else plain_pattern) /\
  threshold g' = level_named lvl /\ sink g' = sink g /\
  ((l, m) ∈ sink (spdlog_log l m g') <->
     (l, m) ∈ sink g \/ severity (level_named lvl) <= severity l)%nat.
Proof.
  cbv zeta. rewrite set_level_named. unfold set_format.
  assert (sink (spdlog_set_level (level_named lvl)
    ((if decide (fmt = "json"%b) then spdlog_set_pattern json_pattern
      else spdlog_set_pattern plain_pattern) g)) = sink g) as Hs
    by (rewrite sink_set; case_decide; apply sink_pattern).
  split_and!; [|apply threshold_set|done|].
  - rewrite pattern_kept. case_decide; apply pattern_set.
  - rewrite sink_log, threshold_set, Hs, elem_of_app.
    destruct (Nat.leb_spec (severity (level_named lvl)) (severity l)); set_solver by lia.
Qed.

(** * Error codes (error.hpp) *)

Inductive ErrorCode := Ok | WrongType | OutOfRange | NotFound | SyntaxError | IoError.

Record Error := MkError { code : ErrorCode; message : bytes }.

#[global] Instance ErrorCode_eq_dec : EqDecision ErrorCode.
Proof. solve_decision. Defined.

Definition Error_ok (e : Error) : bool := bool_decide (code e = Ok).
Definition Error_ok_result : Error := MkError Ok [].

Lemma Error_ok_result_ok : Error_ok Error_ok_result = true.
Proof. reflexivity. Qed.

(** * Byte views (byte_view.hpp) *)

Definition ByteView : Type := list Byte.byte.

(** The view has the characters' representations, in order. *)
Definition as_bytes (sv : bytes) : ByteView := map byte_of_ascii sv.

Lemma as_bytes_length sv : length (as_bytes sv) = length sv.
Proof. apply length_map. Qed.

Lemma as_bytes_chars sv : map ascii_of_byte (as_bytes sv) = sv.
Proof.
  unfold as_bytes. rewrite map_map. rewrite <- (map_id sv) at 2. apply map_ext.
  apply ascii_of_byte_of_ascii.
Qed.
