(* ===== verification/Config.v ===== *)
(** Configuration and start-up (src/utils/config.hpp, src/utils/config_loader.cpp,
    src/main.cpp). *)

From S2P Require Import Prelude Cxx Charconv World Command Dispatcher Aof Connection Server.

Open Scope Z_scope.

Record Config := MkConfig {
  cfg_port : Z;                       (* uint16_t *)
  cfg_aof_enabled : bool;
  cfg_aof_path : bytes;
  cfg_log_level : bytes;
  cfg_log_format : bytes;
  cfg_requirepass : bytes;
  cfg_max_request_bytes : Z;          (* std::size_t, as the three below *)
  cfg_idle_timeout_seconds : Z;
  cfg_max_clients : Z;
  cfg_max_pending_write_bytes : Z;
}.

Definition Config_default : Config :=
  MkConfig 6379 true "vortek.aof"%b "info"%b "plain"%b [] (1024 * 1024) 300 10000 (1024 * 1024).

Definition to_uint16 (z : Z) : Z := z mod 2 ^ 16.

(** * Field updates *)

Definition set_port (v : Z) (c : Config) : Config :=
  MkConfig v (cfg_aof_enabled c) (cfg_aof_path c) (cfg_log_level c) (cfg_log_format c)
    (cfg_requirepass c) (cfg_max_request_bytes c) (cfg_idle_timeout_seconds c)
    (cfg_max_clients c) (cfg_max_pending_write_bytes c).
Definition set_aof_enabled (v : bool) (c : Config) : Config :=
  MkConfig (cfg_port c) v (cfg_aof_path c) (cfg_log_level c) (cfg_log_format c)
    (cfg_requirepass c) (cfg_max_request_bytes c) (cfg_idle_timeout_seconds c)
    (cfg_max_clients c) (cfg_max_pending_write_bytes c).
Definition set_aof_path (v : bytes) (c : Config) : Config :=
  MkConfig (cfg_port c) (cfg_aof_enabled c) v (cfg_log_level c) (cfg_log_format c)
    (cfg_requirepass c) (cfg_max_request_bytes c) (cfg_idle_timeout_seconds c)
    (cfg_max_clients c) (cfg_max_pending_write_bytes c).
Definition set_log_level (v : bytes) (c : Config) : Config :=
  MkConfig (cfg_port c) (cfg_aof_enabled c) (cfg_aof_path c) v (cfg_log_format c)
    (cfg_requirepass c) (cfg_max_request_bytes c) (cfg_idle_timeout_seconds c)
    (cfg_max_clients c) (cfg_max_pending_write_bytes c).
Definition set_log_format (v : bytes) (c : Config) : Config :=
  MkConfig (cfg_port c) (cfg_aof_enabled c) (cfg_aof_path c) (cfg_log_level c) v
    (cfg_requirepass c) (cfg_max_request_bytes c) (cfg_idle_timeout_seconds c)
    (cfg_max_clients c) (cfg_max_pending_write_bytes c).
Definition set_requirepass (v : bytes) (c : Config) : Config :=
  MkConfig (cfg_port c) (cfg_aof_enabled c) (cfg_aof_path c) (cfg_log_level c)
    (cfg_log_format c) v (cfg_max_request_bytes c) (cfg_idle_timeout_seconds c)
    (cfg_max_clients c) (cfg_max_pending_write_bytes c).
Definition set_max_request_bytes (v : Z) (c : Config) : Config :=
  MkConfig (cfg_port c) (cfg_aof_enabled c) (cfg_aof_path c) (cfg_log_level c)
    (cfg_log_format c) (cfg_requirepass c) v (cfg_idle_timeout_seconds c)
    (cfg_max_clients c) (cfg_max_pending_write_bytes c).
Definition set_idle_timeout_seconds (v : Z) (c : Config) : Config :=
  MkConfig (cfg_port c) (cfg_aof_enabled c) (cfg_aof_path c) (cfg_log_level c)
    (cfg_log_format c) (cfg_requirepass c) (cfg_max_request_bytes c) v
    (cfg_max_clients c) (cfg_max_pending_write_bytes c).
Definition set_max_clients (v : Z) (c : Config) : Config :=
  MkConfig (cfg_port c) (cfg_aof_enabled c) (cfg_aof_path c) (cfg_log_level c)
    (cfg_log_format c) (cfg_requirepass c) (cfg_max_request_bytes c)
    (cfg_idle_timeout_seconds c) v (cfg_max_pending_write_bytes c).
Definition set_max_pending_write_bytes (v : Z) (c : Config) : Config :=
  MkConfig (cfg_port c) (cfg_aof_enabled c) (cfg_aof_path c) (cfg_log_level c)
    (cfg_log_format c) (cfg_requirepass c) (cfg_max_request_bytes c)
    (cfg_idle_timeout_seconds c) (cfg_max_clients c) v.

(** * Config files

    toml++ is a library: a parsed file is a table of sections, whose entries are read
    with [value<T>()]. *)
Class Toml := {
  toml_table : Type;
  toml_section : Type;
  parse_file : bytes -> bytes + toml_table;            (* parse_error's description *)
  as_table : toml_table -> bytes -> option toml_section;
  value_int : toml_section -> bytes -> option Z;
  value_string : toml_section -> bytes -> option bytes;
  value_bool : toml_section -> bytes -> option bool;
}.

(** [if (auto v = ...) cfg.field = *v]. *)
Definition update {A} (v : option A) (f : A -> Config -> Config) (c : Config) : Config :=
  match v with Some a => f a c | None => c end.

Definition load_config_file `{Toml} (path : bytes) (base : Config) : Out Config :=
  match parse_file path with
  | inl description =>
      Exn (runtime_error ("TOML parse error in '"%b ++ path ++ "': "%b ++ description))
  | inr tbl =>
      let cfg := base in
      let cfg :=
        match as_table tbl "server"%b with
        | None => cfg
        | Some server =>
            let cfg := update (value_int server "port"%b) (fun v => set_port (to_uint16 v)) cfg in
            let cfg := update (value_string server "log_level"%b) set_log_level cfg in
            let cfg := update (value_string server "log_format"%b) set_log_format cfg in
            let cfg := update (value_int server "max_request_bytes"%b)
                         (fun v => set_max_request_bytes (wrap64 v)) cfg in
            let cfg := update (value_int server "idle_timeout_seconds"%b)
                         (fun v => set_idle_timeout_seconds (wrap64 v)) cfg in
            let cfg := update (value_int server "max_clients"%b)
                         (fun v => set_max_clients (wrap64 v)) cfg in
            update (value_int server "max_pending_write_bytes"%b)
              (fun v => set_max_pending_write_bytes (wrap64 v)) cfg
        end in
      let cfg :=
        match as_table tbl "security"%b with
        | None => cfg
        | Some security => update (value_string security "requirepass"%b) set_requirepass cfg
        end in
      Ret
        match as_table tbl "persistence"%b with
        | None => cfg
        | Some persistence =>
            let cfg := update (value_bool persistence "aof_enabled"%b) set_aof_enabled cfg in
            update (value_string persistence "aof_path"%b) set_aof_path cfg
        end
  end.

(** * std::stoi and std::stoull *)

Definition is_space (c : ascii) : bool :=
  let n := N_of_ascii c in ((n =? 32) || ((9 <=? n) && (n <=? 13)))%N.

Fixpoint skip_spaces (s : bytes) : bytes :=
  match s with
  | c :: r => if is_space c then skip_spaces r else s
  | [] => []
  end.

(** An optional sign and the digits behind it; what follows them is ignored. *)
Definition strto_parts (s : bytes) : bool * bytes :=
  match skip_spaces s with
  | c :: r =>
      if Ascii.eqb c "-"%char then (true, take_digits r)
      else if Ascii.eqb c "+"%char then (false, take_digits r)
      else (false, take_digits (c :: r))
  | [] => (false, [])
  end.

Definition stoi (s : bytes) : Out Z :=
  let '(neg, ds) := strto_parts s in
  match ds with
  | [] => Exn (invalid_argument "stoi"%b)
  | _ =>
      let v := if neg then - digits_val ds else digits_val ds in
      if (- 2 ^ 31 <=? v) && (v <=? 2 ^ 31 - 1) then Ret v else Exn (out_of_range "stoi"%b)
  end.

(** [strtoull] negates modulo 2^64. *)
Definition stoull (s : bytes) : Out Z :=
  let '(neg, ds) := strto_parts s in
  match ds with
  | [] => Exn (invalid_argument "stoull"%b)
  | _ =>
      let m := digits_val ds in
      if m <? 2 ^ 64 then Ret (wrap64 (if neg then - m else m))
      else Exn (out_of_range "stoull"%b)
  end.

(** * Command line *)

(** The first pass: the last --config that has an argument. *)
Fixpoint find_config (argv : list bytes) (path : option bytes) : option bytes :=
  match argv with
  | [] => path
  | arg :: rest =>
      if decide (arg = "--config"%b) then
        match rest with
        | [] => path
        | p :: rest => find_config rest (Some p)
        end
      else find_config rest path
  end.

(** need_next() without a next argument. *)
Definition requires_argument {A} (arg : bytes) : Out A :=
  Exn (runtime_error (arg ++ " requires an argument"%b)).

(** The second pass; [inr tt] is --help, which exits. *)
Fixpoint apply_args (argv : list bytes) (cfg : Config) : Out (Config + unit) :=
  match argv with
  | [] => Ret (inl cfg)
  | arg :: rest =>
      if decide (arg = "--config"%b) then
        match rest with [] => Ret (inl cfg) | _ :: rest => apply_args rest cfg end
      else if decide (arg = "--port"%b) then
        match rest with
        | [] => requires_argument arg
        | v :: rest =>
            out_bind (stoi v) (fun n => apply_args rest (set_port (to_uint16 n) cfg))
        end
      else if decide (arg = "--aof"%b) then
        match rest with
        | [] => requires_argument arg
        | v :: rest => apply_args rest (set_aof_enabled true (set_aof_path v cfg))
        end
      else if decide (arg = "--no-aof"%b) then apply_args rest (set_aof_enabled false cfg)
      else if decide (arg = "--requirepass"%b) then
        match rest with
        | [] => requires_argument arg
        | v :: rest => apply_args rest (set_requirepass v cfg)
        end
      else if decide (arg = "--log-level"%b) then
        match rest with
        | [] => requires_argument arg
        | v :: rest => apply_args rest (set_log_level v cfg)
        end
      else if decide (arg = "--log-format"%b) then
        match rest with
        | [] => requires_argument arg
        | v :: rest => apply_args rest (set_log_format v cfg)
        end
      else if decide (arg = "--max-request-bytes"%b) then
        match rest with
        | [] => requires_argument arg
        | v :: rest => out_bind (stoull v) (fun n => apply_args rest (set_max_request_bytes n cfg))
        end
      else if decide (arg = "--idle-timeout-seconds"%b) then
        match rest with
        | [] => requires_argument arg
        | v :: rest =>
            out_bind (stoull v) (fun n => apply_args rest (set_idle_timeout_seconds n cfg))
        end
      else if decide (arg = "--max-clients"%b) then
        match rest with
        | [] => requires_argument arg
        | v :: rest => out_bind (stoull v) (fun n => apply_args rest (set_max_clients n cfg))
        end
      else if decide (arg = "--max-pending-write-bytes"%b) then
        match rest with
        | [] => requires_argument arg
        | v :: rest =>
            out_bind (stoull v) (fun n => apply_args rest (set_max_pending_write_bytes n cfg))
        end
      else if decide (arg = "--help"%b \/ arg = "-h"%b) then Ret (inr tt)
      else Exn (runtime_error ("unknown option: "%b ++ arg))
  end.

Definition parse_args `{Toml} (argv : list bytes) : Out (Config + unit) :=
  match find_config argv None with
  | None => apply_args argv Config_default
  | Some path => out_bind (load_config_file path Config_default) (apply_args argv)
  end.
