(* ===== verification/Startup.v ===== *)
(** Start-up (src/main.cpp) and the constructor of the server (src/server/server.cpp). *)

From S2P Require Import Prelude Cxx World Command Dispatcher Aof Connection Server Config Utils.

Open Scope Z_scope.

(** * The server's constructor

    The operating system decides whether the acceptor can be opened, bound to the port
    and put into listening mode, and whether its option can be set; asio's constructor
    throws a std::system_error with a text otherwise. *)
Class Network := { listen_error : Z -> option bytes }.

Definition Server_new `{Network} (cfg : Config) (has_aof : bool) (a : AofPersistence) (w : World)
    : Out (ServerConfig * Server) :=
  match listen_error (cfg_port cfg) with
  | Some msg => Exn (runtime_error msg)
  | None =>
      Ret (MkServerConfig (cfg_requirepass cfg) (cfg_max_request_bytes cfg)
             (cfg_idle_timeout_seconds cfg) (cfg_max_clients cfg)
             (cfg_max_pending_write_bytes cfg) has_aof true true,
           MkServer false (MkLoop false true false 0) ∅ a w)
  end.

(** The port can be listened on. *)
Definition listens `{Network} (cfg : Config) : Prop := listen_error (cfg_port cfg) = None.

(** * main *)

(** From the metrics to the server: store, broker, append-only file (dropped when it
    cannot be opened, replayed otherwise) and server. [on_disk] is the file's content and
    [start] the time the metrics are created. *)
Definition boot `{CxxRuntime} `{FileSystem} `{Network} `{Schedule} (cfg : Config)
    (on_disk : bytes) (start : Z) : Out (ServerConfig * Server) :=
  let st := MkStats start 0 0 false (cfg_port cfg) (cfg_aof_enabled cfg) in
  let w := MkWorld ∅ 0 st ∅ [] in
  if negb (cfg_aof_enabled cfg) then Server_new cfg false (MkAof on_disk false) w
  else
    let a := AofPersistence_new on_disk in
    if negb (AofPersistence_is_open a) then Server_new cfg false a w
    else
      match AofPersistence_replay (make_default true) a w with
      | (Ret _, a, w) => Server_new cfg true a w
      | (Exn e, _, _) => Exn e
      | (UB, _, _) => UB
      | (NoFuel, _, _) => NoFuel
      end.

Definition usage_text : list bytes :=
    [[];
     "Options:";
     "  --config <path>     Load settings from a TOML config file";
     "  --port <n>          TCP port to listen on        (default: 6379)";
     "  --aof <path>        Enable AOF and set file path (default: vortek.aof)";
     "  --no-aof            Disable AOF persistence";
     "  --requirepass <pw>  Require AUTH with this password";
     "  --log-level <lvl>   debug | info | warn | error  (default: info)";
     "  --log-format <fmt>  plain | json (default: plain)";
     "  --max-request-bytes <n>  Max buffered request bytes per connection";
     "  --idle-timeout-seconds <n>  Close idle connections after n seconds";
     "  --max-clients <n>   Maximum concurrent client connections";
     "  --max-pending-write-bytes <n>  Max buffered reply bytes per connection";
     "  --help              Show this help message";
     [];
     "CLI options override values from --config."]%b.

Definition print_usage (prog : bytes) : bytes :=
  "Usage1: "%b ++ prog ++ " [options]"%b ++ [LF]
  ++ concat (map (fun line => line ++ [LF]) usage_text).

(** What the program wrote itself; log lines go through spdlog. *)
Record Console := MkConsole { stdout : bytes; stderr : bytes }.

(** [Exit]: the program ended with the code. [Serve]: server.run() entered its event loop,
    with the logger as it was configured; when the loop ends main returns 0. *)
Inductive Started `{Spdlog} :=
  | Exit (code : Z)
  | Serve (log : logger) (sc : ServerConfig) (s : Server).

(** [argv] are the arguments behind the program's name, [disk] the content of the files
    by path, [log] the logger spdlog starts with and [early] the signal that arrives
    while the handlers are installed. An exception that leaves main is the outcome [Exn]:
    std::terminate ends the program. *)
Definition main `{CxxRuntime} `{FileSystem} `{Network} `{Schedule} `{Toml} `{Spdlog}
    (prog : bytes) (argv : list bytes) (disk : bytes -> bytes) (start : Z) (log : logger)
    (early : Z) : Console * Out Started :=
  match parse_args argv with
  | Exn ex =>
      (MkConsole (print_usage prog) ("error: "%b ++ what ex ++ [LF]), Ret (Exit 1))
  | Ret (inr tt) => (MkConsole (print_usage prog) [], Ret (Exit 0))
  | Ret (inl cfg) =>
      let log := set_format (cfg_log_format cfg) log in
      let log := set_level (cfg_log_level cfg) log in
      let log := log_info "Vortek v0.1.0 starting"%b log in
      (MkConsole [] [],
       out_bind (boot cfg (disk (cfg_aof_path cfg)) start) (fun '(sc, server) =>
       Ret (Serve log sc (Server_run sc early server))))
  | UB => (MkConsole [] [], UB)
  | NoFuel => (MkConsole [] [], NoFuel)
  end.
