(* ===== verification/ConfigTheorems.v ===== *)
(** The command line, limits that wrap around, and recovery at start-up. *)

From S2P Require Import Prelude Cxx Charconv Resp RespParserFacts World Command Demo Dispatcher.
From S2P Require Import Aof Histories AofTheorems Connection Server Config Startup.

Open Scope Z_scope.

(** * The command line as a list of options *)

Inductive CliOption :=
  | OptConfig (path : bytes)
  | OptPort (text : bytes)
  | OptAof (path : bytes)
  | OptNoAof
  | OptRequirepass (pw : bytes)
  | OptLogLevel (level : bytes)
  | OptLogFormat (fmt : bytes)
  | OptMaxRequestBytes (text : bytes)
  | OptIdleTimeout (text : bytes)
  | OptMaxClients (text : bytes)
  | OptMaxPending (text : bytes).

Definition render (o : CliOption) : list bytes :=
  match o with
  | OptConfig p => ["--config"%b; p]
  | OptPort s => ["--port"%b; s]
  | OptAof p => ["--aof"%b; p]
  | OptNoAof => ["--no-aof"%b]
  | OptRequirepass s => ["--requirepass"%b; s]
  | OptLogLevel s => ["--log-level"%b; s]
  | OptLogFormat s => ["--log-format"%b; s]
  | OptMaxRequestBytes s => ["--max-request-bytes"%b; s]
  | OptIdleTimeout s => ["--idle-timeout-seconds"%b; s]
  | OptMaxClients s => ["--max-clients"%b; s]
  | OptMaxPending s => ["--max-pending-write-bytes"%b; s]
  end.

(** What each option means for the configuration. *)
Definition apply_option (o : CliOption) (c : Config) : Out Config :=
  match o with
  | OptConfig _ => Ret c
  | OptPort s => out_bind (stoi s) (fun n => Ret (set_port (n mod 65536) c))
  | OptAof p => Ret (set_aof_enabled true (set_aof_path p c))
  | OptNoAof => Ret (set_aof_enabled false c)
  | OptRequirepass s => Ret (set_requirepass s c)
  | OptLogLevel s => Ret (set_log_level s c)
  | OptLogFormat s => Ret (set_log_format s c)
  | OptMaxRequestBytes s => out_bind (stoull s) (fun n => Ret (set_max_request_bytes n c))
  | OptIdleTimeout s => out_bind (stoull s) (fun n => Ret (set_idle_timeout_seconds n c))
  | OptMaxClients s => out_bind (stoull s) (fun n => Ret (set_max_clients n c))
  | OptMaxPending s => out_bind (stoull s) (fun n => Ret (set_max_pending_write_bytes n c))
  end.

Fixpoint apply_options (opts : list CliOption) (c : Config) : Out Config :=
  match opts with
  | [] => Ret c
  | o :: opts => out_bind (apply_option o c) (apply_options opts)
  end.

Definition config_path (o : CliOption) : option bytes :=
  match o with OptConfig p => Some p | _ => None end.

(** Only the path of a config file may itself read --config. *)
Definition unambiguous (o : CliOption) : bool :=
  match o with
  | OptConfig _ => true
  | _ => bool_decide ("--config"%b ∉ render o)
  end.

Lemma apply_args_render o rest c :
  apply_args (render o ++ rest) c = out_bind (apply_option o c) (apply_args rest).
Proof. destruct o; cbn [apply_option]; rewrite ?out_bind_assoc; reflexivity. Qed.

Lemma find_config_render o rest path :
  unambiguous o = true ->
  find_config (render o ++ rest) path =
  find_config rest (match config_path o with Some p => Some p | None => path end).
Proof.
  destruct o; cbn [unambiguous]; rewrite ?bool_decide_eq_true; intros Hu; cbn [render app config_path];
    try reflexivity;
    (cbn [find_config]; rewrite decide_False by done; rewrite decide_False by set_solver; done).
Qed.

Lemma apply_args_options opts c :
  apply_args (flat_map render opts) c = out_bind (apply_options opts c) (fun c => Ret (inl c)).
Proof.
  revert c. induction opts as [|o opts IH]; intros c; [done|]. cbn [flat_map apply_options].
  rewrite apply_args_render, out_bind_assoc. destruct (apply_option o c); simpl; [|done..].
  apply IH.
Qed.

(** The last config file named. *)
Definition last_config (opts : list CliOption) : option bytes := last (omap config_path opts).

Lemma find_config_options opts path :
  forallb unambiguous opts = true ->
  find_config (flat_map render opts) path =
  match last_config opts with Some p => Some p | None => path end.
Proof.
  revert path. induction opts as [|o opts IH]; intros path; [done|]. cbn [forallb flat_map].
  rewrite andb_true_iff. intros [Ho Hopts]. rewrite find_config_render, IH by done.
  unfold last_config. rewrite omap_cons. destruct (config_path o) as [p|]; [|done].
  rewrite last_cons. by destruct (last (omap config_path opts)).
Qed.

(** The command line: options are applied from left to right on top of the last
    config file named, wherever it stands, or of the defaults; numbers go through
    std::stoi and std::stoull, whose exceptions end the program, and a port is cut to 16
    bits. *)
Theorem parse_args_spec `{Toml} opts :
  forallb unambiguous opts = true ->
  parse_args (flat_map render opts) =
  out_bind (match last_config opts with
            | Some path => load_config_file path Config_default
            | None => Ret Config_default
            end) (fun base =>
  out_bind (apply_options opts base) (fun c => Ret (inl c))).
Proof.
  intros Hu. unfold parse_args. rewrite find_config_options by done.
  destruct (last_config opts) as [p|]; [|apply apply_args_options].
  destruct (load_config_file p Config_default); simpl; [apply apply_args_options|done..].
Qed.

(** A client limit from 2^63 on, which --max-clients -1 also gives, refuses every
    client: the limit is compared as a signed number. *)
Theorem huge_max_clients_refuses_all `{Toml} sc s :
  parse_args ["--max-clients"; "-1"]%b
    = Ret (inl (set_max_clients (2 ^ 64 - 1) Config_default)) /\
  (srv_has_stats sc = true -> 2 ^ 63 <= max_clients_ sc < 2 ^ 64 ->
   0 <= connected_clients (stats (srv_world s)) ->
   forall id known, exists s', on_accept sc (Accepted id known) s
     = Some (s', Some (serialize (RespError "ERR max number of clients reached"%b))) /\
     connections s' = connections s).
Proof.
  split; [reflexivity|]. intros Hst Hmax Hc id known. unfold on_accept, at_capacity.
  rewrite Hst. cbn [srv_world with_accepting with_loop andb].
  assert (to_int64 (max_clients_ sc) < 0) as Hneg.
  { unfold to_int64, INT64_MAX. rewrite Z.mod_small by lia.
    destruct (Z.leb_spec (max_clients_ sc) (2 ^ 63 - 1)); lia. }
  destruct (Z.leb_spec (to_int64 (max_clients_ sc)) (connected_clients (stats (srv_world s)))); [|lia].
  eexists. split; [reflexivity|done].
Qed.

(** Start-up after a crash: with the file cut anywhere, the program comes up with
    exactly the commands that were written completely re-executed on an empty store, and
    with the file cut back to them and logging. *)
Theorem boot_recovers `{CxxRuntime} `{FileSystem} `{Network} `{Schedule} cfg cmds n start :
  fs_grants -> listens cfg -> cfg_aof_enabled cfg = true ->
  Forall (fun c => cmd_wf c = true) cmds -> addressable (logged cmds) ->
  let w := MkWorld ∅ 0 (MkStats start 0 0 false (cfg_port cfg) true) ∅ [] in
  Forall settled (fst (run_history (make_default true) cmds w)) ->
  exists k sc server,
    boot cfg (take n (logged cmds)) start = Ret (sc, server) /\
    srv_has_aof sc = true /\ srv_aof server = MkAof (logged (take k cmds)) true /\
    srv_world server = snd (run_history (make_default true) (take k cmds) w) /\
    (length (logged (take k cmds)) <= n)%nat /\
    (length cmds <= k \/ n < length (logged (take (S k) cmds)))%nat.
Proof.
  intros Hfs Hnet Hen Hwf Ha w Hset.
  destruct (replay_torn (make_default true) cmds n w Hfs Hwf Ha Hset) as (k & Hlen & Hk & Hr).
  destruct Hfs as (Happ & _ & _). unfold boot, AofPersistence_new. rewrite Hen, Happ. cbn [negb].
  cbn [AofPersistence_is_open file_is_open negb]. unfold w in Hr. rewrite Hr. unfold Server_new. rewrite Hnet.
  do 3 eexists. split_and!; [reflexivity|done..].
Qed.

(** * Witnesses *)

(** A library whose every file is an empty table. *)
#[local] Instance empty_toml : Toml := {|
  toml_table := unit; toml_section := unit;
  parse_file := fun _ => inr tt; as_table := fun _ _ => None;
  value_int := fun _ _ => None; value_string := fun _ _ => None; value_bool := fun _ _ => None |}.

Lemma parse_args_spec_witness :
  parse_args ["--port"; "65616"; "--config"; "v.toml"; "--no-aof"]%b
  = Ret (inl (set_aof_enabled false (set_port 80 Config_default))).
Proof.
  pose proof (parse_args_spec [OptPort "65616"%b; OptConfig "v.toml"%b; OptNoAof]) as Hp.
  cbn [flat_map render app] in Hp. rewrite Hp; reflexivity.
Defined.

Lemma huge_max_clients_refuses_all_witness :
  exists s', on_accept (MkServerConfig [] 0 0 (2 ^ 64 - 1) 0 false true true) (Accepted 3 true)
      (MkServer false (MkLoop true true false 0) ∅ (MkAof [] true) demo_world)
    = Some (s', Some (serialize (RespError "ERR max number of clients reached"%b))).
Proof.
  destruct (proj2 (huge_max_clients_refuses_all
    (MkServerConfig [] 0 0 (2 ^ 64 - 1) 0 false true true)
    (MkServer false (MkLoop true true false 0) ∅ (MkAof [] true) demo_world))) with (id := 3%nat) (known := true)
    as (s' & Hs & _).
  - reflexivity.
  - vm_compute. split; [discriminate|reflexivity].
  - vm_compute. discriminate.
  - exists s'. exact Hs.
Defined.

#[local] Existing Instance demo_runtime.
#[local] Existing Instance demo_schedule.
#[local] Instance granting : FileSystem :=
  {| fs_open_append := true; fs_open_read := true; fs_resize := true |}.
#[local] Instance free_ports : Network := {| listen_error := fun _ => None |}.

Lemma boot_recovers_witness :
  exists k sc server,
    boot Config_default (take 30 (logged [MkCommand "SET" ["a"; "1"]; MkCommand "INCR" ["a"]]%b)) 0
      = Ret (sc, server) /\
    srv_aof server
      = MkAof (logged (take k [MkCommand "SET" ["a"; "1"]; MkCommand "INCR" ["a"]]%b)) true.
Proof.
  destruct (boot_recovers Config_default
              [MkCommand "SET" ["a"; "1"]; MkCommand "INCR" ["a"]]%b 30 0)
    as (k & sc & server & H1 & _ & H2 & _).
  - done.
  - reflexivity.
  - reflexivity.
  - repeat constructor.
  - vm_compute. reflexivity.
  - vm_compute. repeat constructor; discriminate.
  - exists k, sc, server. split; [exact H1|exact H2].
Defined.
