(* ===== verification/StartupTheorems.v ===== *)
(** Every run of main: which command lines end the program and with what code and texts,
    and the server the others start. *)

From S2P Require Import Prelude Cxx Charconv Resp RespParser World KvStore KvStoreFacts Command.
From S2P Require Import CmdSpec Demo StoreSim Dispatcher Aof Histories RespParserFacts AofTheorems.
From S2P Require Import Connection Server ServerFacts Delivery Config Utils Startup ConfigTheorems.

Open Scope Z_scope.

(** * Every command line *)

Definition valued_flags : list bytes :=
  ["--port"; "--aof"; "--requirepass"; "--log-level"; "--log-format"; "--max-request-bytes";
   "--idle-timeout-seconds"; "--max-clients"; "--max-pending-write-bytes"]%b.
Definition help_flags : list bytes := ["--help"; "-h"]%b.
Definition all_flags : list bytes := ["--config"; "--no-aof"]%b ++ valued_flags ++ help_flags.

(** How a command line ends behind its complete options. *)
Inductive Ending :=
  | EndDone
  | EndConfig                                (* --config without a path *)
  | EndMissing (flag : bytes)                (* an option without its value *)
  | EndHelp (flag : bytes) (rest : list bytes)
  | EndUnknown (arg : bytes) (rest : list bytes).

Definition ending_args (e : Ending) : list bytes :=
  match e with
  | EndDone => []
  | EndConfig => ["--config"%b]
  | EndMissing flag => [flag]
  | EndHelp flag rest => flag :: rest
  | EndUnknown arg rest => arg :: rest
  end.

Definition ending_wf (e : Ending) : Prop :=
  match e with
  | EndDone | EndConfig => True
  | EndMissing flag => flag ∈ valued_flags
  | EndHelp flag _ => flag ∈ help_flags
  | EndUnknown arg _ => arg ∉ all_flags
  end.

(** Each flag that takes a value makes an option with it. *)
Lemma valued_option_render flag v :
  flag ∈ valued_flags -> exists o, render o = [flag; v].
Proof.
  unfold valued_flags. rewrite !elem_of_cons, elem_of_nil.
  intros H. repeat destruct H as [-> |H]; try done;
    [exists (OptPort v)|exists (OptAof v)|exists (OptRequirepass v)|exists (OptLogLevel v)
    |exists (OptLogFormat v)|exists (OptMaxRequestBytes v)|exists (OptIdleTimeout v)
    |exists (OptMaxClients v)|exists (OptMaxPending v)]; done.
Qed.

(** A flag and the arguments behind it: one more option, or the end. *)
Lemma argv_head arg rest :
  (exists o rest', arg :: rest = render o ++ rest') \/
  (exists e, ending_wf e /\ arg :: rest = ending_args e).
Proof.
  destruct (decide (arg ∈ all_flags)) as [Hf|Hf]; [|right; by exists (EndUnknown arg rest)].
  unfold all_flags in Hf. rewrite !elem_of_app in Hf. destruct Hf as [Hf|[Hf|Hf]].
  - apply elem_of_cons in Hf as [-> |Hf].
    + destruct rest as [|p rest]; [right; by exists EndConfig|]. left. by exists (OptConfig p), rest.
    + apply list_elem_of_singleton in Hf as ->. left. by exists OptNoAof, rest.
  - destruct rest as [|v rest]; [right; by exists (EndMissing arg)|]. left.
    destruct (valued_option_render arg v Hf) as [o Ho]. exists o, rest. by rewrite Ho.
  - right. by exists (EndHelp arg rest).
Qed.

Lemma render_length o : (1 <= length (render o))%nat.
Proof. destruct o; simpl; lia. Qed.

Lemma argv_split argv :
  exists opts e, ending_wf e /\ argv = flat_map render opts ++ ending_args e.
Proof.
  induction argv as [argv IH] using (induction_ltof1 _ (@length _)). unfold ltof in IH.
  destruct argv as [|arg rest]; [by exists [], EndDone|].
  destruct (argv_head arg rest) as [(o & rest' & Heq)|(e & He & Heq)]; [|by exists [], e].
  destruct (IH rest') as (opts & e & He & Hr).
  { rewrite Heq, length_app. pose proof (render_length o). lia. }
  exists (o :: opts), e. split; [done|]. cbn [flat_map]. by rewrite Heq, Hr, app_assoc.
Qed.

Lemma apply_args_prefix opts rest c :
  apply_args (flat_map render opts ++ rest) c
  = out_bind (apply_options opts c) (apply_args rest).
Proof.
  revert c. induction opts as [|o opts IH]; intros c; [done|]. cbn [flat_map apply_options].
  rewrite <- app_assoc, apply_args_render, out_bind_assoc.
  destruct (apply_option o c); simpl; [|done..]. apply IH.
Qed.

(** What the ending means for a configuration. *)
Definition conclude (e : Ending) (c : Config) : Out (Config + unit) :=
  match e with
  | EndDone | EndConfig => Ret (inl c)
  | EndMissing flag => Exn (runtime_error (flag ++ " requires an argument"%b))
  | EndHelp _ _ => Ret (inr tt)
  | EndUnknown arg _ => Exn (runtime_error ("unknown option: "%b ++ arg))
  end.

Lemma apply_args_ending e c : ending_wf e -> apply_args (ending_args e) c = conclude e c.
Proof.
  destruct e as [| |flag|flag rest|arg rest]; cbn [ending_wf ending_args conclude]; intros He.
  - done.
  - done.
  - unfold valued_flags in He. rewrite !elem_of_cons, elem_of_nil in He.
    repeat destruct He as [-> |He]; done.
  - unfold help_flags in He. rewrite !elem_of_cons, elem_of_nil in He.
    repeat destruct He as [-> |He]; done.
  - unfold all_flags, valued_flags, help_flags in He. cbn [apply_args].
    repeat (rewrite decide_False by set_solver). done.
Qed.

(** The configuration the complete options give. *)
Definition settings `{Toml} (argv : list bytes) (opts : list CliOption) : Out Config :=
  out_bind (match find_config argv None with
            | Some path => load_config_file path Config_default
            | None => Ret Config_default
            end) (apply_options opts).

Lemma parse_args_all `{Toml} opts e argv :
  ending_wf e -> argv = flat_map render opts ++ ending_args e ->
  parse_args argv = out_bind (settings argv opts) (conclude e).
Proof.
  intros He Hargv. unfold parse_args, settings.
  assert (forall c, apply_args argv c = out_bind (apply_options opts c) (conclude e)) as Ha.
  { intros c. rewrite Hargv, apply_args_prefix. destruct (apply_options opts c); [|done..].
    simpl. by apply apply_args_ending. }
  destruct (find_config argv None) as [path|]; [|apply Ha].
  destruct (load_config_file path Config_default); [|done..]. apply Ha.
Qed.

(** Reading the settings returns or throws. *)
Definition decided {A} (o : Out A) : Prop := o <> UB /\ o <> NoFuel.

Lemma decided_bind {A B} (o : Out A) (f : A -> Out B) :
  decided o -> (forall a, decided (f a)) -> decided (out_bind o f).
Proof. destruct o; intros [] Hf; simpl; [apply Hf|done..]. Qed.

Lemma decided_stoi t : decided (stoi t).
Proof. unfold stoi. destruct (strto_parts t) as [neg [|d ds]]; [done|]. by destruct (_ && _). Qed.

Lemma decided_stoull t : decided (stoull t).
Proof. unfold stoull. destruct (strto_parts t) as [neg [|d ds]]; [done|]. by destruct (_ <? _). Qed.

Lemma decided_option o c : decided (apply_option o c).
Proof.
  destruct o; cbn [apply_option]; try done; apply decided_bind;
    done || apply decided_stoi || apply decided_stoull.
Qed.

Lemma decided_settings `{Toml} argv opts : decided (settings argv opts).
Proof.
  unfold settings. apply decided_bind.
  - destruct (find_config argv None) as [path|]; [|done]. unfold load_config_file.
    by destruct (parse_file path).
  - induction opts as [|o opts IH]; intros c; [done|]. cbn [apply_options].
    apply decided_bind; [apply decided_option|done].
Qed.

(** * The server that is started *)

(** Nobody is connected, nothing is stopping, and the limits are the configured ones. *)
Record fresh (cfg : Config) (sc : ServerConfig) (s : Server) : Prop := {
  fr_connections : connections s = ∅;
  fr_clients : connected_clients (stats (srv_world s)) = 0;
  fr_refs : forall id, ~ refers id (srv_world s);
  fr_ready : ready (stats (srv_world s)) = false;
  fr_running : stopping_ s = false /\ running s = true;
  fr_limits : srv_requirepass sc = cfg_requirepass cfg /\
    srv_max_request_bytes sc = cfg_max_request_bytes cfg /\
    srv_idle_timeout_seconds sc = cfg_idle_timeout_seconds cfg /\
    max_clients_ sc = cfg_max_clients cfg /\
    srv_max_pending_write_bytes sc = cfg_max_pending_write_bytes cfg;
  fr_aof : srv_has_aof sc = true -> cfg_aof_enabled cfg = true;
  fr_stats : srv_has_stats sc = true;
}.

Section Boot.
Context `{CxxRuntime} `{FileSystem} `{Network} (Sch : Schedule) `{!ScheduleOk Sch}.

Abbreviation commands := (@make_default _ Sch true).

(** What every command preserves, replay preserves. *)
Lemma replay_loop_pres W `{!PreOrder W} fuel p chunk count w :
  (forall c, pres W (dispatch commands c)) ->
  W w (snd (replay_loop fuel commands p chunk count w)).
Proof.
  intros HW. revert p chunk count w.
  induction fuel as [|fuel IH]; intros p chunk count w; [simpl; reflexivity|].
  cbn [replay_loop].
  destruct (RespParser_feed p chunk) as [[[v|]|e| |] p'];
    [|cbn [snd]; reflexivity..].
  destruct (parse_command v) as [cmd|]; [|apply IH]. pose proof (HW cmd w) as Hw.
  destruct (dispatch commands cmd w) as [[r|e| |] w']; cbn [snd] in *;
    [etrans; [exact Hw|apply IH]..|exact Hw|exact Hw].
Qed.

Lemma replay_pres W `{!PreOrder W} a w :
  (forall c, pres W (dispatch commands c)) -> W w (snd (AofPersistence_replay commands a w)).
Proof.
  intros HW. unfold AofPersistence_replay. destruct (negb _); [simpl; reflexivity|].
  case_decide; [simpl; reflexivity|].
  pose proof (replay_loop_pres W (replay_fuel (file_content a)) RespParser_new (file_content a) 0 w
                HW) as Hs.
  by destruct (replay_loop _ _ _ _ _ _) as [[[[count b]|e| |] p] w'].
Qed.

(** The start state of the shared world is as main makes it, apart from the store. *)
Definition untouched (w : World) : Prop :=
  connected_clients (stats w) = 0 /\ ready (stats w) = false /\ forall id, ~ refers id w.

Lemma replay_untouched a w :
  untouched w -> untouched (snd (AofPersistence_replay commands a w)).
Proof.
  intros (Hc & Hr & Hid).
  destruct (replay_pres shared_kept a w (dispatch_shared Sch true)) as [Hs _].
  assert (refs_kept (fun _ => False) w (snd (AofPersistence_replay commands a w))) as [Hk _].
  { apply (replay_pres (refs_kept (fun _ => False))). intros c. apply (dispatch_refs Sch). }
  unfold untouched. rewrite Hs. split_and!; [done..|]. intros id Hr'.
  destruct (Hk id Hr') as [Hx|[]]. by apply (Hid id).
Qed.

Lemma Server_new_fresh cfg has_aof a w sc s :
  untouched w -> (has_aof = true -> cfg_aof_enabled cfg = true) ->
  Server_new cfg has_aof a w = Ret (sc, s) -> fresh cfg sc s.
Proof.
  intros (Hc & Hr & Hid) Ha. unfold Server_new. destruct (listen_error _); [done|]. intros [= <- <-].
  by split.
Qed.

Lemma boot_fresh cfg disk t sc s : boot cfg disk t = Ret (sc, s) -> fresh cfg sc s.
Proof.
  unfold boot. set (w := MkWorld _ _ _ _ _). assert (untouched w) as Hw
    by (split_and!; [done..|by apply refers_empty]).
  destruct (cfg_aof_enabled cfg) eqn:Hen; cbn [negb]; [|by apply Server_new_fresh].
  destruct (negb _); [by apply Server_new_fresh|].
  pose proof (replay_untouched (AofPersistence_new disk) w Hw) as Hs.
  destruct (AofPersistence_replay _ _ w) as [[[n|e| |] a] w']; try done. cbn [snd] in Hs.
  by apply Server_new_fresh.
Qed.

End Boot.

Section Main.
Context `{CxxRuntime} `{FileSystem} `{Network} (Sch : Schedule) `{!ScheduleOk Sch}.
Context `{Toml} `{LogOk : SpdlogOk}.

(** The ways main ends at once. *)
Definition refused (prog msg : bytes) : Console * Out Started :=
  (MkConsole (print_usage prog) ("error: "%b ++ msg ++ [LF]), Ret (Exit 1)).
Definition helped (prog : bytes) : Console * Out Started :=
  (MkConsole (print_usage prog) [], Ret (Exit 0)).

(** The world before anything is replayed: an empty store, no subscriber, fresh counters. *)
Definition first_world (cfg : Config) (t : Z) : World :=
  MkWorld ∅ 0 (MkStats t 0 0 false (cfg_port cfg) (cfg_aof_enabled cfg)) ∅ [].

(** The server is made with file [a] and world [w]: it listens and runs with the configured
    limits, and the logger prints the configured levels in the configured format; or the
    port cannot be listened on and the exception says why. *)
Definition serves (cfg : Config) (has_aof : bool) (a : AofPersistence) (w : World) (early : Z)
    (o : Out Started) : Prop :=
  match listen_error (cfg_port cfg) with
  | Some msg => o = Exn (runtime_error msg)
  | None =>
      exists g sc s, o = Ret (Serve g sc (Server_run sc early s)) /\ fresh cfg sc s /\
        srv_has_aof sc = has_aof /\ srv_aof s = a /\ srv_world s = w /\
        threshold g = level_named (cfg_log_level cfg) /\
        pattern g = (if decide (cfg_log_format cfg = "json"%b) then json_pattern
                     else plain_pattern)
  end.

(** It goes on without printing anything. With an append-only file that can be opened, the
    file is replayed into the first world, and only a command in it whose time computation
    overflows keeps the server from being made; otherwise the server starts without a file
    and with an empty store. *)
Definition starts (cfg : Config) (disk : bytes) (t : Z) (early : Z)
    (r : Console * Out Started) : Prop :=
  fst r = MkConsole [] [] /\
  if cfg_aof_enabled cfg && fs_open_append
  then exists o a w,
    AofPersistence_replay (@make_default _ Sch true) (MkAof disk true) (first_world cfg t)
      = (o, a, w) /\
    match o with
    | Ret _ => serves cfg true a w early (snd r)
    | UB => snd r = UB /\ overflows (@make_default _ Sch true) (commands_in disk) w
    | Exn _ | NoFuel => False
    end
  else exists a, serves cfg false a (first_world cfg t) early (snd r).

Lemma first_untouched cfg t : untouched (first_world cfg t).
Proof. split_and!; [done..|]. by apply refers_empty. Qed.

Section Serves.
Variables (cfg : Config) (t early : Z) (g : logger).

(** The logger main sets up. *)
Definition main_logger : logger :=
  log_info "Vortek v0.1.0 starting"%b
    (set_level (cfg_log_level cfg) (set_format (cfg_log_format cfg) g)).

Lemma Server_new_serves has_aof a w :
  untouched w -> (has_aof = true -> cfg_aof_enabled cfg = true) ->
  serves cfg has_aof a w early
    (out_bind (Server_new cfg has_aof a w) (fun '(sc, server) =>
       Ret (Serve main_logger sc (Server_run sc early server)))).
Proof.
  intros Hw Ha. unfold serves. pose proof (Server_new_fresh cfg has_aof a w) as Hf.
  unfold Server_new in *. destruct (listen_error (cfg_port cfg)) as [msg|]; [done|].
  cbn [out_bind]. do 3 eexists. split; [reflexivity|].
  destruct (configured_logger (cfg_log_format cfg) (cfg_log_level cfg) level_info [] g)
    as (Hp & Ht & _). unfold main_logger, log_info. rewrite threshold_log, pattern_log.
  split_and!; [by apply Hf|done..].
Qed.

Lemma starts_boot disk :
  addressable disk ->
  starts cfg disk t early
    (MkConsole [] [], out_bind (boot cfg disk t) (fun '(sc, server) =>
       Ret (Serve main_logger sc (Server_run sc early server)))).
Proof.
  intros Haddr. split; [done|]. cbn [snd]. unfold boot, AofPersistence_new.
  change (MkWorld ∅ 0 _ ∅ []) with (first_world cfg t). pose proof (first_untouched cfg t) as Hw.
  destruct (cfg_aof_enabled cfg) eqn:Hen; cbn [negb andb];
    [|eexists; by apply Server_new_serves].
  destruct fs_open_append eqn:Happ; cbn [AofPersistence_is_open file_is_open negb];
    [|eexists; by apply Server_new_serves].
  pose proof (replay_outcome Sch true (MkAof disk true) (first_world cfg t) Haddr) as Ho.
  pose proof (replay_untouched Sch (MkAof disk true) _ Hw) as Hw'.
  destruct (AofPersistence_replay _ _ _) as [[[n|e| |] a] w]; try done; do 3 eexists;
    (split; [reflexivity|]); [by apply Server_new_serves|]. by destruct Ho.
Qed.
End Serves.

(** C37. Every run of main: whatever the arguments, they are complete options followed by
    nothing, by a --config without a path, by an option without its value, by --help or
    -h, or by something unknown. The program reads the config file first; an unreadable
    file, a number out of range, a missing value or an unknown option ends it with code 1,
    the reason on stderr and the usage on stdout, --help with code 0 and the usage, even
    when nonsense follows. Otherwise nothing is printed, the logger is configured, an
    append-only file that is enabled and can be opened is replayed into the empty store, and
    the server runs on the resulting world with the configured limits and no clients, logging
    exactly when the file was opened; the only other outcomes are the exception of a port
    that cannot be listened on, and undefined behaviour in the replay of a command in the
    file whose time computation overflows. *)
Theorem main_outcomes prog argv disk t g early :
  (forall path, addressable (disk path)) ->
  (exists opts e, ending_wf e /\ argv = flat_map render opts ++ ending_args e) /\
  forall opts e, ending_wf e -> argv = flat_map render opts ++ ending_args e ->
  let r := main prog argv disk t g early in
  match settings argv opts with
  | Exn ex => r = refused prog (what ex)
  | Ret cfg =>
      match e with
      | EndMissing flag => r = refused prog (flag ++ " requires an argument"%b)
      | EndUnknown arg _ => r = refused prog ("unknown option: "%b ++ arg)
      | EndHelp _ _ => r = helped prog
      | EndDone | EndConfig => starts cfg (disk (cfg_aof_path cfg)) t early r
      end
  | UB | NoFuel => False
  end.
Proof.
  intros Hdisk. split; [apply argv_split|]. intros opts e He Hargv.
  pose proof (decided_settings argv opts) as [Hub Hnf]. cbv zeta. unfold main.
  rewrite (parse_args_all opts e argv He Hargv).
  destruct (settings argv opts) as [cfg|ex| |]; try done. cbn [out_bind].
  destruct e; try done; by apply starts_boot.
Qed.
End Main.

(** * Usage *)

Definition flag_of (o : CliOption) : bytes := hd [] (render o).

(** Every option main understands is explained in a line of the usage. *)
Lemma usage_complete o :
  Exists (fun line => take (length (flag_of o)) (drop 2 line) = flag_of o) usage_text.
Proof.
  destruct o; by_evaluation.
Qed.

(** * Witness *)

#[local] Existing Instance demo_runtime.
#[local] Existing Instance demo_schedule.
Definition no_files : FileSystem :=
  {| fs_open_append := false; fs_open_read := false; fs_resize := false |}.
#[local] Instance granting_files : FileSystem :=
  {| fs_open_append := true; fs_open_read := true; fs_resize := true |}.
#[local] Instance high_ports : Network :=
  {| listen_error := fun p => if p <? 1024 then Some "bind: Permission denied"%b else None |}.
#[local] Instance no_toml : Toml := {|
  toml_table := unit; toml_section := unit;
  parse_file := fun _ => inl "File could not be opened"%b; as_table := fun _ _ => None;
  value_int := fun _ _ => None; value_string := fun _ _ => None; value_bool := fun _ _ => None |}.

(** A logger with its pattern, its level and the messages printed. *)
#[local] Instance list_logger : Spdlog := {|
  logger := bytes * level * list (level * bytes);
  spdlog_set_pattern := fun p '(_, l, ms) => (p, l, ms);
  spdlog_set_level := fun l '(p, _, ms) => (p, l, ms);
  spdlog_log := fun l m '(p, l0, ms) =>
    (p, l0, ms ++ if (severity l0 <=? severity l)%nat then [(l, m)] else []);
  sink := fun '(_, _, ms) => ms;
  pattern := fun '(p, _, _) => p;
  threshold := fun '(_, l, _) => l;
|}.

#[local] Instance list_logger_ok : SpdlogOk list_logger.
Proof. split; by intros ? [[] ?] || intros ? ? [[] ?]. Qed.

Definition new_logger : logger := (([] : bytes), level_info, ([] : list (level * bytes))).

(** An unknown option; a privileged port; a server on port 7000 that prints warnings and has
    the entry of its file. *)
Definition demo_disk (path : bytes) : bytes :=
  if decide (path = "vortek.aof"%b) then logged [MkCommand "SADD" ["s"; "x"]]%b else [].

Lemma demo_disk_addressable path : addressable (demo_disk path).
Proof. unfold demo_disk. by case_decide; vm_compute. Qed.

Lemma main_outcomes_witness :
  main "vortek"%b ["--no-aof"; "--prot"; "7000"]%b demo_disk 0 new_logger 0
    = refused "vortek"%b "unknown option: --prot"%b /\
  snd (main "vortek"%b ["--no-aof"; "--port"; "65616"]%b demo_disk 0 new_logger 0)
    = Exn (runtime_error "bind: Permission denied"%b) /\
  exists g sc s, snd (main "vortek"%b ["--port"; "7000"; "--log-level"; "warn"]%b demo_disk 0
                      new_logger 0) = Ret (Serve g sc (Server_run sc 0 s)) /\
    threshold g = level_warn /\ pattern g = plain_pattern /\
    data_ (srv_world s) = {["s"%b := MkEntry (SetValue {["x"%b]}) None]}.
Proof.
  split_and!.
  - exact (proj2 (main_outcomes demo_schedule "vortek"%b ["--no-aof"; "--prot"; "7000"]%b
             demo_disk 0 new_logger 0 demo_disk_addressable)
             [OptNoAof] (EndUnknown "--prot" ["7000"])%b ltac:(by_evaluation) eq_refl).
  - destruct (proj2 (main_outcomes demo_schedule "vortek"%b ["--no-aof"; "--port"; "65616"]%b
             demo_disk 0 new_logger 0 demo_disk_addressable)
             [OptNoAof; OptPort "65616"%b] EndDone I eq_refl) as (_ & a & Hs). exact Hs.
  - destruct (proj2 (main_outcomes demo_schedule "vortek"%b
      ["--port"; "7000"; "--log-level"; "warn"]%b demo_disk 0 new_logger 0 demo_disk_addressable)
      [OptPort "7000"; OptLogLevel "warn"]%b EndDone I eq_refl) as (_ & o & a & w & Hrep & Hs).
    assert (data_ w = {["s"%b := MkEntry (SetValue {["x"%b]}) None]} /\ o = Ret 1) as [Hw ->].
    { pose proof (f_equal (fun r => data_ (snd r)) Hrep) as Hd.
      pose proof (f_equal (fun r => fst (fst r)) Hrep) as Ho.
      cbn [fst snd] in Hd, Ho. rewrite <- Hd, <- Ho. split; vm_compute; reflexivity. }
    destruct Hs as (g' & sc & s & Hr & _ & _ & _ & Hsw & Ht & Hp). exists g', sc, s.
    split; [exact Hr|]. split; [exact Ht|]. split; [exact Hp|]. rewrite Hsw. exact Hw.
Defined.
