(* ===== verification/Program.v ===== *)
(** The program as a whole: what holds in every state a server started by main can reach,
    whatever the command line, the config file, the clients and the signals are. *)

From stdpp Require Import relations.
From S2P Require Import Prelude Cxx Charconv Resp World KvStore KvStoreFacts Command Demo Dispatcher.
From S2P Require Import Aof Connection ConnFacts ConnSteps Server ServerFacts ServerTheorems.
From S2P Require Import Delivery Config Utils Startup ConfigTheorems StartupTheorems.

Open Scope Z_scope.

(** * Configurations have the range of their types *)

Definition size_t (z : Z) : Prop := 0 <= z < 2 ^ 64.

Record config_typed (c : Config) : Prop := {
  ct_port : 0 <= cfg_port c < 2 ^ 16;
  ct_request : size_t (cfg_max_request_bytes c);
  ct_idle : size_t (cfg_idle_timeout_seconds c);
  ct_clients : size_t (cfg_max_clients c);
  ct_pending : size_t (cfg_max_pending_write_bytes c);
}.

Lemma wrap64_typed z : size_t (wrap64 z).
Proof. unfold size_t, wrap64. by apply Z.mod_pos_bound. Qed.

Lemma to_uint16_range z : 0 <= to_uint16 z < 2 ^ 16.
Proof. unfold to_uint16. by apply Z.mod_pos_bound. Qed.

Lemma stoull_typed t z : stoull t = Ret z -> size_t z.
Proof.
  unfold stoull. destruct (strto_parts t) as [neg [|d ds]]; [done|].
  destruct (_ <? _); [|done]. intros [= <-]. apply wrap64_typed.
Qed.

Create HintDb typed.
#[export] Hint Resolve wrap64_typed to_uint16_range stoull_typed : typed.

Lemma default_typed : config_typed Config_default.
Proof. by split; unfold size_t; cbn. Qed.

Section Typed.
Context `{Toml}.

Lemma update_typed {A} (v : option A) f c :
  config_typed c -> (forall a c, config_typed c -> config_typed (f a c)) ->
  config_typed (update v f c).
Proof. intros Hc Hf. destruct v; [by apply Hf|done]. Qed.

Lemma load_typed path base cfg :
  config_typed base -> load_config_file path base = Ret cfg -> config_typed cfg.
Proof.
  intros Hb. unfold load_config_file. destruct (parse_file path); [done|]. intros [= <-].
  repeat match goal with
    | |- config_typed (match ?x with _ => _ end) => destruct x
    | |- config_typed (update _ _ _) => apply update_typed; [|intros ? ? []; by split; cbn; auto with typed]
    end; done.
Qed.

Lemma option_typed o c c' : config_typed c -> apply_option o c = Ret c' -> config_typed c'.
Proof.
  intros [Hp Hr Hi Hc Hw]. destruct o; cbn [apply_option]; try (intros [= <-]; by split).
  all: match goal with |- out_bind ?x _ = _ -> _ => destruct x eqn:Hx; [|done..] end;
    cbn [out_bind]; intros [= <-]; split; cbn; eauto with typed.
Qed.

Lemma settings_typed argv opts cfg : settings argv opts = Ret cfg -> config_typed cfg.
Proof.
  unfold settings.
  assert (forall c, config_typed c -> apply_options opts c = Ret cfg -> config_typed cfg) as Ho.
  { induction opts as [|o opts IH]; intros c Hc; cbn [apply_options]; [by intros [= <-]|].
    destruct (apply_option o c) as [c'| | |] eqn:Hc'; [|done..]. cbn [out_bind]. apply IH.
    by eapply option_typed. }
  destruct (find_config argv None) as [path|]; [|apply Ho, default_typed].
  destruct (load_config_file path Config_default) as [c| | |] eqn:Hl; [|done..].
  cbn [out_bind]. apply Ho. eapply load_typed; [apply default_typed|done].
Qed.

Lemma parse_args_typed argv cfg : parse_args argv = Ret (inl cfg) -> config_typed cfg.
Proof.
  destruct (argv_split argv) as (opts & e & He & Hargv).
  rewrite (parse_args_all opts e argv He Hargv).
  destruct (settings argv opts) as [c| | |] eqn:Hs; [|done..]. cbn [out_bind].
  destruct e; cbn [conclude]; try done; intros [= <-]; by eapply settings_typed.
Qed.
End Typed.

(** * Every state of the server *)

Record healthy `{CxxRuntime} (handlers_ : gmap bytes HandlerFn) (cfg : Config) (sc : ServerConfig) (s : Server)
    : Prop := {
  (* the metric counts the connections, and there are never more than allowed *)
  he_clients : connected_clients (stats (srv_world s)) = Z.of_nat (size (connections s));
  he_limit : Z.of_nat (size (connections s)) <= Z.max 0 (to_int64 (cfg_max_clients cfg));
  (* READY is answered by a server that is not stopping; one that runs accepts clients *)
  he_ready : ready (stats (srv_world s)) = negb (stopping_ s);
  he_accepting : running s = true -> accepting s = true;
  he_stopped : stopping_ s = true -> running s = false;
  (* subscriptions and posted frames belong to connections that exist *)
  he_refs : forall id, refers id (srv_world s) -> is_Some (connections s !! id);
  (* each connection is in a state of its own transition system *)
  he_conns : forall id c, connections s !! id = Some c ->
    conn_reachable (conn_config sc id) handlers_ (MkCState c (srv_aof s) (srv_world s));
  (* memory *)
  he_memory : cfg_max_request_bytes cfg < 2 ^ 62 ->
    let n := Z.max 0 (to_int64 (cfg_max_clients cfg)) in
    total_over buffered (connections s) <= n * cfg_max_request_bytes cfg /\
    total_over unsent (connections s) <= n * cfg_max_pending_write_bytes cfg;
}.

Section Program.
Context `{RtOk : CxxRuntimeOk} `{FileSystem} `{Network} (Sch : Schedule) `{!ScheduleOk Sch}.
Context `{Toml} `{LogOk : SpdlogOk}.

Lemma main_serves prog argv disk t g early con g' sc s1 :
  main prog argv disk t g early = (con, Ret (Serve g' sc s1)) ->
  exists cfg s0, parse_args argv = Ret (inl cfg) /\ fresh cfg sc s0 /\
    s1 = Server_run sc early s0.
Proof.
  unfold main. destruct (parse_args argv) as [[cfg|[]]| | |]; try done. intros [= _ Hb].
  destruct (boot cfg (disk (cfg_aof_path cfg)) t) as [[sc' s0]| | |] eqn:Hboot; try done.
  injection Hb as _ <- <-. exists cfg, s0. split_and!; [done|by eapply boot_fresh|done].
Qed.

Lemma fresh_healthy cfg sc s0 early s :
  config_typed cfg -> fresh cfg sc s0 -> idle_countable sc ->
  rtc (server_step sc (make_default true)) (Server_run sc early s0) s ->
  healthy (make_default true) cfg sc s.
Proof.
  intros Hty [Hconn Hcl Hrefs _ [Hstop _] (_ & Hreq & _ & Hmax & Hpend) _ Hst] Hidle Hrtc.
  destruct (srv_inv_reachable Sch sc true early s0 s) as [[Hc Hl Ha] Hs]; [done..|].
  destruct (phase_reachable Sch sc true early s0 s) as [Hr _]; [done..|].
  unfold client_cap in Hl. rewrite Hmax in Hl. split; try done.
  - intros id. apply (ri_alive s (refs_inv_rtc Sch sc true early s0 s Hrefs Hrtc)).
  - by apply (all_reachable_rtc sc (make_default true) early s0 s Hconn Hrtc).
  - intros Hsmall. cbv zeta. rewrite <- Hmax, <- Hreq, <- Hpend in *.
    apply (memory_bounds Sch sc true early s0 s); try done;
      destruct Hty; unfold size_t in *; rewrite ?Hreq, ?Hpend in *; lia.
Qed.

(** C38. The program keeps its promises from the command line on: whenever main starts a
    server whose idle timeout can be counted in nanoseconds, the configuration has the range of its types, and in every state the server can
    reach - clients connecting and going, requests, failures of sockets and timers, signals,
    in any order - the connected_clients metric is the number of connections, which never
    exceeds the limit (compared as the signed number the code makes of it); READY is
    answered exactly until the server stops; a running server has an accept outstanding; no
    subscription or pending message refers to a destroyed connection; every connection is
    in a state its own transition system reaches; and the bytes buffered for requests and
    waiting to be sent stay below the limit of clients times the limits of one. *)
Theorem program_invariants prog argv disk t g early con g' sc s1 s :
  main prog argv disk t g early = (con, Ret (Serve g' sc s1)) -> idle_countable sc ->
  rtc (server_step sc (make_default true)) s1 s ->
  exists cfg, parse_args argv = Ret (inl cfg) /\ config_typed cfg /\
    healthy (make_default true) cfg sc s.
Proof.
  intros Hmain Hidle Hrtc. destruct (main_serves _ _ _ _ _ _ _ _ _ _ Hmain) as (cfg & s0 & Hp & Hf & ->).
  pose proof (parse_args_typed argv cfg Hp) as Hty.
  exists cfg. split_and!; [done..|]. by eapply fresh_healthy.
Qed.
End Program.

(** * Witness *)

#[local] Existing Instance demo_runtime.
#[local] Existing Instance demo_schedule.
#[local] Existing Instances no_files high_ports no_toml list_logger list_logger_ok.

(** Two clients are connected to a server that allows a hundred; one has subscribed to a
    channel and the other one's message is under way to it. *)
Lemma program_invariants_witness :
  connected_clients (stats (srv_world demo_s4)) = 2 /\
  ready (stats (srv_world demo_s4)) = true /\
  refers 3 (srv_world demo_s4) /\ is_Some (connections demo_s4 !! 3%nat) /\
  total_over buffered (connections demo_s4) <= 100 * (1024 * 1024).
Proof.
  destruct (program_invariants demo_schedule "vortek"%b ["--no-aof"; "--max-clients"; "100"]%b
    (fun _ => []) 0 new_logger 0 (MkConsole [] [])
    (log_info "Vortek v0.1.0 starting"%b (set_level "info"%b (set_format "plain"%b new_logger)))
    demo_sc (Server_run demo_sc 0 demo_server) demo_s4) as (cfg & Hp & _ & Hh).
  - vm_compute. reflexivity.
  - intros id. vm_compute. discriminate.
  - exact demo_run.
  - vm_compute in Hp. injection Hp as <-. destruct Hh as [Hc _ Hr _ _ Href _ Hm].
    destruct Hm as [Hb _]; [vm_compute; reflexivity|].
    assert (map fst (posted (srv_world demo_s4)) = [3%nat]) as Hp by (vm_compute; reflexivity).
    assert (refers 3 (srv_world demo_s4)) as H3 by (right; rewrite Hp; by constructor).
    split_and!; [rewrite Hc; vm_compute; reflexivity|rewrite Hr; vm_compute; reflexivity
      |exact H3|by apply Href|exact Hb].
Defined.
