(* ===== verification/ThreadsProgram.v ===== *)
(** The program as a whole on its two threads: main's start-up and every run of the event
    loop, concurrently with the expiry thread of the store. *)

From stdpp Require Import relations.
From S2P Require Import Prelude Cxx Charconv Resp RespParser World KvStore KvStoreFacts Command Demo.
From S2P Require Import Threads ThreadsFacts ThreadsSim ThreadsTheorems Threaded PubSubBroker.
From S2P Require Import Dispatcher ThreadsCmds Aof Connection Server ThreadsServer ServerFacts.
From S2P Require Import ServerTheorems Delivery Config Utils Startup StartupTheorems Program.

Open Scope Z_scope.

(** * The event loop, driven by events

    What happens next - which handler the loop calls, with what result - is the
    environment's choice; an event that cannot happen is skipped. *)

Inductive event :=
  | EvAccept (r : accept_result)
  | EvRead (id : conn_id) (result : option bytes)
  | EvWrite (id : conn_id) (ec : bool)
  | EvIdle (id : conn_id) (aborted error : bool)
  | EvPosted
  | EvDestroy (id : conn_id)
  | EvPoll (r : wait_result)
  | EvSignal (n : Z).

(** Does the broker hold the connection? *)
Definition broker_has (id : conn_id) (w : World) : bool :=
  bool_decide (map_Exists (fun _ subs => Exists (fun s => wf_self (write s) = id) subs) (channels_ w)).

Lemma broker_has_false id w : broker_has id w = false <-> ~ broker_holds id w.
Proof.
  unfold broker_has. rewrite bool_decide_eq_false. f_equiv. split.
  - intros (ch & subs & Hch & (s & Hs & Hid)%Exists_exists). by exists ch, subs, s.
  - intros (ch & subs & s & Hch & Hs & Hid). exists ch, subs. split; [done|].
    apply Exists_exists. by exists s.
Qed.

#[export] Instance storing_Server : Storing Server := fun n d s =>
  MkServer (stopping_ s) (loop s) (connections s) (srv_aof s) (at_op n d (srv_world s)).

(** Look at the parts of the server one by one. *)
Ltac by_parts :=
  intros n d [st lp cs a w]; unfold put_store, storing_Server, running, accepting; cbn;
  repeat (match goal with
    | |- context [match ?x with _ => _ end] =>
        lazymatch x with context [match _ with _ => _ end] => fail | _ => destruct x end
    end; cbn); try done.

Section Events.
Context `{RtOk : CxxRuntimeOk} (sc : ServerConfig).

(** The events that leave the store alone. *)
Definition accept_event (r : accept_result) (s : Server) : Server :=
  let unused := match r with Accepted id _ => bool_decide (connections s !! id = None) | _ => true end in
  let plausible := match r with AcceptAborted => stopping_ s | _ => true end in
  if running s && accepting s && unused && plausible then
    match on_accept sc r s with
    | Some (s', _) => s'
    | None => with_loop (MkLoop false false (poll_pending (loop s)) (g_last_signal (loop s))) s
    end
  else s.

Definition write_event (id : conn_id) (ec : bool) (s : Server) : Server :=
  match connections s !! id with
  | Some c =>
      if running s && (writes_done (socket_ c) <? length (writes_started (socket_ c)))%nat
      then with_conn id (on_write (conn_config sc id) ec (zlen (write_buf_ c)) c)
             (srv_aof s) (srv_world s) s
      else s
  | None => s
  end.

Definition idle_event (id : conn_id) (aborted error : bool) (s : Server) : Server :=
  match connections s !! id with
  | Some c =>
      if running s && (aborted || timer_armed (socket_ c))
      then with_conn id (on_idle aborted error c) (srv_aof s) (srv_world s) s
      else s
  | None => s
  end.

Definition posted_event (s : Server) : Server :=
  match posted (srv_world s) with
  | (id, frame) :: rest =>
      match connections s !! id with
      | Some c =>
          if running s
          then with_conn id (do_write (conn_config sc id) frame c) (srv_aof s)
                 (MkWorld (data_ (srv_world s)) (tick (srv_world s)) (stats (srv_world s))
                    (channels_ (srv_world s)) rest) s
          else s
      | None => s
      end
  | [] => s
  end.

Definition destroy_event (id : conn_id) (s : Server) : Server :=
  match connections s !! id with
  | Some c =>
      if io_holds c || posted_holds id (srv_world s) || broker_has id (srv_world s) then s
      else
        match Connection_destroy (conn_config sc id) c (srv_world s) with
        | (Ret _, w) => MkServer (stopping_ s) (loop s) (delete id (connections s)) (srv_aof s) w
        | _ => s
        end
  | None => s
  end.

Definition poll_event (r : wait_result) (s : Server) : Server :=
  if running s && poll_pending (loop s) then on_poll sc r s else s.

Definition signal_event (n : Z) (s : Server) : Server :=
  if (n =? SIGINT) || (n =? SIGTERM) then vortek_signal_handler n s else s.

(** The bytes of a client arrive: its connection's handler runs. *)
Definition readable (id : conn_id) (result : option bytes) (s : Server) : option Connection :=
  match connections s !! id with
  | Some c =>
      if running s && (0 <? reads_in_flight (socket_ c))%nat
         && match result with Some chunk => (length chunk <=? 4096)%nat | None => true end
      then Some c else None
  | None => None
  end.

Definition read_event `{Schedule} (id : conn_id) (result : option bytes) (o : option Connection)
    (s : Server) : Out unit * Server :=
  match o with
  | Some c =>
      on_part (fun s => MkCState c (srv_aof s) (srv_world s))
        (fun cs s => with_conn id (conn cs) (aof cs) (world cs) s)
        (on_read (conn_config sc id) (make_default true) result) s
  | None => (Ret tt, s)
  end.

Definition server_event `{Schedule} (e : event) (s : Server) : Out unit * Server :=
  match e with
  | EvAccept r => (Ret tt, accept_event r s)
  | EvRead id result => read_event id result (readable id result s) s
  | EvWrite id ec => (Ret tt, write_event id ec s)
  | EvIdle id aborted error => (Ret tt, idle_event id aborted error s)
  | EvPosted => (Ret tt, posted_event s)
  | EvDestroy id => (Ret tt, destroy_event id s)
  | EvPoll r => (Ret tt, poll_event r s)
  | EvSignal n => (Ret tt, signal_event n s)
  end.

Fixpoint server_events `{Schedule} (es : list event) (s : Server) : Out unit * Server :=
  match es with
  | [] => (Ret tt, s)
  | e :: es => and_then (server_event e) (go_on (fun _ => server_events es)) s
  end.

(** ** Events are steps of the server *)

Abbreviation step Sch := (server_step sc (@make_default _ Sch true)).

Lemma accept_event_step (Sch : Schedule) r s : rtc (step Sch) s (accept_event r s).
Proof.
  unfold accept_event. destruct (_ && _) eqn:Hen; [|done].
  rewrite !andb_true_iff in Hen. destruct Hen as [[[Hr Ha] Hf] Hp]. apply rtc_once.
  destruct (on_accept sc r s) as [[s' reply]|] eqn:Hacc.
  - eapply srv_accept; [done|done| | |exact Hacc].
    + intros id b ->. by apply bool_decide_eq_true in Hf.
    + by intros ->.
  - destruct r as [id known| |]; cbn in Hacc; try (by destruct (stopping_ s)); try done.
    destruct (at_capacity sc _) eqn:Hcap; [done|]. destruct known; [done|].
    apply (srv_accept_throws _ _ id); [done..|]. unfold on_accept. by rewrite Hcap.
Qed.

Lemma write_event_step (Sch : Schedule) id ec s : rtc (step Sch) s (write_event id ec s).
Proof.
  unfold write_event. destruct (connections s !! id) as [c|] eqn:Hid; [|done].
  destruct (_ && _) eqn:Hen; [|done]. apply andb_true_iff in Hen as [Hr Hw%Nat.ltb_lt].
  by apply rtc_once, srv_write.
Qed.

Lemma idle_event_step (Sch : Schedule) id a e s : rtc (step Sch) s (idle_event id a e s).
Proof.
  unfold idle_event. destruct (connections s !! id) as [c|] eqn:Hid; [|done].
  destruct (_ && _) eqn:Hen; [|done]. apply andb_true_iff in Hen as [Hr Ht%orb_true_iff].
  by apply rtc_once, srv_idle.
Qed.

Lemma posted_event_step (Sch : Schedule) s : rtc (step Sch) s (posted_event s).
Proof.
  unfold posted_event. destruct (posted (srv_world s)) as [|[id frame] rest] eqn:Hp; [done|].
  destruct (connections s !! id) as [c|] eqn:Hid; [|done]. destruct (running s) eqn:Hr; [|done].
  by apply rtc_once, srv_posted.
Qed.

Lemma destroy_event_step (Sch : Schedule) id s : rtc (step Sch) s (destroy_event id s).
Proof.
  unfold destroy_event. destruct (connections s !! id) as [c|] eqn:Hid; [|done].
  destruct (_ || _) eqn:Hh; [done|]. rewrite !orb_false_iff in Hh. destruct Hh as [[Hio Hp] Hb].
  destruct (Connection_destroy _ c _) as [[[]| | |] w] eqn:Hd; try done.
  apply rtc_once. by eapply srv_destroy; [..|apply broker_has_false|].
Qed.

Lemma poll_event_step (Sch : Schedule) r s : rtc (step Sch) s (poll_event r s).
Proof.
  unfold poll_event. destruct (_ && _) eqn:Hen; [|done]. apply andb_true_iff in Hen as [Hr Hp].
  by apply rtc_once, srv_poll.
Qed.

Lemma signal_event_step (Sch : Schedule) n s : rtc (step Sch) s (signal_event n s).
Proof.
  unfold signal_event. destruct (_ || _) eqn:Hn; [|done].
  apply orb_true_iff in Hn as [Hn%Z.eqb_eq|Hn%Z.eqb_eq]; apply rtc_once, srv_signal; auto.
Qed.

Lemma read_event_step (Sch : Schedule) id result s s' :
  read_event id result (readable id result s) s = (Ret tt, s') -> rtc (step Sch) s s'.
Proof.
  unfold readable. destruct (connections s !! id) as [c|] eqn:Hid; [|by intros [= <-]].
  destruct (_ && _) eqn:Hen; [|by intros [= <-]]. cbn [read_event]. unfold on_part.
  destruct (on_read _ _ result _) as [[[]| | |] cs] eqn:Hread; try done. intros [= <-].
  rewrite !andb_true_iff in Hen. destruct Hen as [[Hr Hf%Nat.ltb_lt] Hl].
  apply rtc_once. eapply srv_read; [done|done|done| |done].
  intros chunk ->. by apply Nat.leb_le.
Qed.

Lemma server_events_steps (Sch : Schedule) es s s' :
  server_events es s = (Ret tt, s') -> rtc (step Sch) s s'.
Proof.
  revert s. induction es as [|e es IH]; intros s; cbn [server_events]; [by intros [= <-]|].
  unfold and_then. destruct (server_event e s) as [[[]| | |] s1] eqn:He; cbn [go_on]; try done.
  intros Hes. etrans; [|by apply IH]. destruct e; cbn [server_event] in He;
    try (by eapply read_event_step); injection He as <-;
    auto using accept_event_step, write_event_step, idle_event_step, posted_event_step,
      destroy_event_step, poll_event_step, signal_event_step.
Qed.

(** Every step of the server is an event. *)
Lemma step_event (Sch : Schedule) s s' : step Sch s s' -> exists e, server_event e s = (Ret tt, s').
Proof.
  intros [r s1 s2 reply Hr Ha Hf Hab Hacc|id s1 Hr Ha Hacc|id c res s1 s2 Hr Hid Hfl Hlen Hread
    |id c ec s1 Hr Hid Hw|id c a e s1 Hr Hid Ht|id frame rest c s1 Hr Hp Hid
    |id c s1 w Hid Hio Hpo Hb Hd|r s1 Hr Hp|n s1 Hn].
  - exists (EvAccept r). cbn [server_event]. unfold accept_event. rewrite Hr, Ha, Hacc.
    destruct r as [id b| |]; [rewrite bool_decide_eq_true_2 by by eapply Hf|rewrite Hab by done|]; done.
  - pose proof (is_fresh (dom (connections s1))) as Hnew. set (id' := base.fresh _) in Hnew.
    apply not_elem_of_dom in Hnew.
    exists (EvAccept (Accepted id' false)). cbn [server_event]. unfold accept_event.
    rewrite Hr, Ha, bool_decide_eq_true_2 by done. unfold on_accept in *. cbn [andb].
    by destruct (at_capacity sc _).
  - exists (EvRead id res). cbn [server_event]. unfold readable. rewrite Hid, Hr.
    rewrite (proj2 (Nat.ltb_lt _ _) Hfl). cbn [andb].
    destruct res as [chunk|]; [rewrite (proj2 (Nat.leb_le _ _) (Hlen _ eq_refl))|];
      cbn [read_event]; unfold on_part; by rewrite Hread.
  - exists (EvWrite id ec). cbn [server_event]. unfold write_event.
    by rewrite Hid, Hr, (proj2 (Nat.ltb_lt _ _) Hw).
  - exists (EvIdle id a e). cbn [server_event]. unfold idle_event. rewrite Hid, Hr.
    by rewrite (proj2 (orb_true_iff _ _) Ht).
  - exists EvPosted. cbn [server_event]. unfold posted_event. by rewrite Hp, Hid, Hr.
  - exists (EvDestroy id). cbn [server_event]. unfold destroy_event.
    by rewrite Hid, Hio, Hpo, (proj2 (broker_has_false _ _) Hb), Hd.
  - exists (EvPoll r). cbn [server_event]. unfold poll_event. by rewrite Hr, Hp.
  - exists (EvSignal n). cbn [server_event]. unfold signal_event. by destruct Hn as [-> | ->].
Qed.

(** ** And programs of the command thread *)

(** A change of the server that leaves the store alone. *)
Lemma threaded_change (f : Server -> Server) :
  (forall n d s, f (put_store n d s) = put_store n d (f s)) ->
  Threaded undefined (fun _ s => (Ret tt, f s)).
Proof. intros Hf. apply (threaded_rest undefined). intros n d s. by rewrite Hf. Defined.

Lemma accept_event_rest r n d s : accept_event r (put_store n d s) = put_store n d (accept_event r s).
Proof. revert n d s. unfold accept_event, on_accept, at_capacity. by_parts. Qed.

Lemma write_event_rest id ec n d s :
  write_event id ec (put_store n d s) = put_store n d (write_event id ec s).
Proof. revert n d s. unfold write_event. by_parts. Qed.

Lemma idle_event_rest id ab er n d s :
  idle_event id ab er (put_store n d s) = put_store n d (idle_event id ab er s).
Proof. revert n d s. unfold idle_event. by_parts. Qed.

Lemma posted_event_rest n d s : posted_event (put_store n d s) = put_store n d (posted_event s).
Proof. revert n d s. unfold posted_event. by_parts. Qed.

Lemma poll_event_rest r n d s : poll_event r (put_store n d s) = put_store n d (poll_event r s).
Proof.
  revert n d s. unfold poll_event, on_poll, poll_signal_flag, Server_stop, running. by_parts.
Qed.

Lemma signal_event_rest m n d s : signal_event m (put_store n d s) = put_store n d (signal_event m s).
Proof. revert n d s. unfold signal_event. by_parts. Qed.

Lemma storeless_destroy cfg c : storeless (Connection_destroy cfg c).
Proof.
  intros n d w. unfold Connection_destroy, mbind, M_bind.
  destruct (has_stats cfg); cbn; (destruct (_ && _); [|done]);
    unfold PubSubBroker_unsubscribe_all; cbn; by destruct (unsubscribe_walk _ _ _ _).
Qed.

Lemma destroy_event_rest id n d s :
  destroy_event id (put_store n d s) = put_store n d (destroy_event id s).
Proof.
  unfold destroy_event. cbn [connections put_store storing_Server].
  destruct (connections s !! id) as [c|]; [|done]. change (srv_world (put_store n d s))
    with (put_store n d (srv_world s)).
  rewrite (storeless_destroy (conn_config sc id) c n d (srv_world s)).
  destruct (Connection_destroy (conn_config sc id) c (srv_world s)) as [o w].
  unfold put_store, storing_Server, storing_World. cbn. destruct (_ || _); [done|]. by destruct o.
Qed.

Lemma threaded_read_event id result :
  Threaded undefined (fun Sch s => read_event id result (readable id result s) s).
Proof.
  apply (threaded_read undefined (readable id result) (fun Sch => read_event id result)); [done|].
  intros [c|]; unfold read_event; [|by apply (threaded_rest undefined)].
  apply (threaded_part undefined (fun s => MkCState c (srv_aof s) (srv_world s))
    (fun cs s => with_conn id (conn cs) (aof cs) (world cs) s)
    (fun Sch => on_read (conn_config sc id) (make_default true) result)); [done|done|].
  apply threaded_on_read.
Defined.

Lemma threaded_event e : Threaded undefined (fun Sch => server_event e).
Proof.
  destruct e; cbn [server_event]; [|apply threaded_read_event|..]; apply threaded_change;
    auto using accept_event_rest, write_event_rest, idle_event_rest, posted_event_rest,
      destroy_event_rest, poll_event_rest, signal_event_rest.
Defined.

#[export] Instance threaded_events es : Threaded undefined (fun Sch => server_events es).
Proof.
  induction es as [|e es IH]; cbn [server_events]; [by apply (threaded_rest undefined)|].
  apply (threaded_then undefined); [by intros Sch r s ->|apply threaded_event|].
  intros o. by apply (threaded_go_on (fun Sch _ => server_events es)).
Defined.
End Events.
(** * main on two threads

    The store, and with it the expiry thread, exists before the file is replayed. *)

Section Program.
Context `{RtOk : CxxRuntimeOk} `{FileSystem} `{Network}.
Context (cfg : Config) (on_disk : bytes).

(** Is the append-only file used? *)
Definition uses_aof : bool :=
  cfg_aof_enabled cfg && AofPersistence_is_open (AofPersistence_new on_disk).

Definition boot_config : ServerConfig :=
  MkServerConfig (cfg_requirepass cfg) (cfg_max_request_bytes cfg) (cfg_idle_timeout_seconds cfg)
    (cfg_max_clients cfg) (cfg_max_pending_write_bytes cfg) uses_aof true true.

(** The server's members before the replay. *)
Definition boot_shell (start : Z) : Server :=
  MkServer false (MkLoop false true false 0) ∅
    (if cfg_aof_enabled cfg then AofPersistence_new on_disk else MkAof on_disk false)
    (MkWorld ∅ 0 (MkStats start 0 0 false (cfg_port cfg) (cfg_aof_enabled cfg)) ∅ []).

Definition replayed_into (r : Out Z * AofPersistence) (s : Server) : Out unit * Server :=
  (out_bind (fst r) (fun _ => Ret tt),
   MkServer (stopping_ s) (loop s) (connections s) (snd r) (srv_world s)).

Definition replay_with `{Schedule} (a : AofPersistence) (s : Server) : Out unit * Server :=
  and_then (on_part srv_world with_world (AofPersistence_replay (make_default true) a))
    replayed_into s.

Definition boot_replay `{Schedule} (s : Server) : Out unit * Server :=
  if uses_aof then replay_with (srv_aof s) s else (Ret tt, s).

(** boot is the replay and the constructor of the server. *)
Lemma boot_replayed `{Schedule} start :
  listens cfg ->
  boot cfg on_disk start =
  let '(o, s) := boot_replay (boot_shell start) in out_bind o (fun _ => Ret (boot_config, s)).
Proof.
  intros Hl. unfold listens in Hl.
  unfold boot, boot_replay, boot_shell, uses_aof, boot_config, uses_aof, Server_new.
  destruct (cfg_aof_enabled cfg); cbn [negb andb]; [|by rewrite Hl].
  destruct (AofPersistence_is_open _) eqn:Ho; cbn [negb]; [|by rewrite Hl].
  unfold replay_with, and_then, on_part. cbn [srv_world srv_aof].
  destruct (AofPersistence_replay _ _ _) as [[[n|e| |] a] w]; by rewrite ?Hl.
Qed.

(** Replay, start the server, serve the events. *)
Definition session `{Schedule} (early : Z) (es : list event) (s : Server) : Out unit * Server :=
  and_then boot_replay
    (go_on (fun _ s => server_events boot_config es (Server_run boot_config early s))) s.

Lemma Server_run_rest early n d s :
  Server_run boot_config early (put_store n d s) = put_store n d (Server_run boot_config early s).
Proof.
  revert n d s. unfold Server_run, setup_signal_handlers, poll_signal_flag, Server_stop. by_parts.
Qed.

Lemma threaded_boot_replay : Threaded undefined (fun Sch => boot_replay).
Proof.
  unfold boot_replay. destruct uses_aof; [|by apply (threaded_rest undefined)].
  apply (threaded_read undefined srv_aof (fun Sch => replay_with)); [done|]. intros a.
  apply (threaded_then undefined_fst).
  - intros Sch [o a'] s Ho. unfold undefined_fst in Ho. simpl in Ho. by subst o.
  - apply (threaded_part undefined_fst srv_world with_world
      (fun Sch => AofPersistence_replay (make_default true) a)); [done|done|apply _].
  - intros [o a']. by apply (threaded_rest undefined).
Defined.

#[export] Instance threaded_session early es : Threaded undefined (fun Sch => session early es).
Proof.
  apply (threaded_then undefined); [by intros Sch r s ->|apply threaded_boot_replay|].
  intros o. apply (threaded_go_on (fun Sch _ s =>
    server_events boot_config es (Server_run boot_config early s))).
  intros _. apply (threaded_after undefined (Server_run boot_config early)
    (fun Sch => server_events boot_config es)); [apply Server_run_rest|apply _].
Defined.

(** A session that got to its end is a run of the server boot started. *)
Lemma session_run (Sch : Schedule) early es start s :
  listens cfg -> session early es (boot_shell start) = (Ret tt, s) ->
  exists s0, boot cfg on_disk start = Ret (boot_config, s0) /\
    rtc (server_step boot_config (make_default true)) (Server_run boot_config early s0) s.
Proof.
  intros Hl. rewrite (boot_replayed start Hl). unfold session, and_then.
  destruct (boot_replay (boot_shell start)) as [[[]|e| |] s0]; cbn [go_on]; try done.
  intros Hes. exists s0. split; [done|]. by eapply server_events_steps.
Qed.
End Program.

(** * Every run *)

Section Main.
Context `{RtOk : CxxRuntimeOk} `{FileSystem} `{Network} `{Toml} `{LogOk : SpdlogOk}.
Context (prog : bytes) (argv : list bytes) (disk : bytes -> bytes) (start : Z) (g : logger).
Context (early : Z) (cfg : Config) (Hargs : parse_args argv = Ret (inl cfg)) (Hlisten : listens cfg).

Let on_disk : bytes := disk (cfg_aof_path cfg).

(** The command thread at the beginning of main's work on the store. *)
Definition program_start (es : list event) (t0 : Z) : machine (Out unit * Server) :=
  KvStore_start (client_of (fun Sch => session cfg on_disk early es) (boot_shell cfg on_disk start))
    ∅ t0.

Lemma main_session (Sch : Schedule) es s :
  session cfg on_disk early es (boot_shell cfg on_disk start) = (Ret tt, s) ->
  exists g' s1,
    main prog argv disk start g early
      = (MkConsole [] [], Ret (Serve g' (boot_config cfg on_disk) s1)) /\
    rtc (server_step (boot_config cfg on_disk) (make_default true)) s1 s.
Proof.
  intros Hs. destruct (session_run cfg on_disk Sch early es start s Hlisten Hs) as (s0 & Hb & Hr).
  eexists _, (Server_run (boot_config cfg on_disk) early s0). split; [|done].
  unfold main. rewrite Hargs. fold on_disk. by rewrite Hb.
Qed.

(** C10. The whole program on its two threads: for every command line that parses and
    whose idle timeout can be counted in nanoseconds, every file it finds and every sequence of events (connections, bytes, completions, timers,
    signals), the command thread replays the file and runs the event loop while the expiry
    thread runs concurrently, their steps interleaved in any way. When the command thread
    has worked the events off, the state it is in is one that main reaches in the sequential
    model under some schedule, with all the invariants of the program, and the data
    is that state's up to a last pass of the expiry thread; undefined behaviour is
    met only where the sequential model has it. *)
Theorem program_on_two_threads es t0 m :
  idle_countable (boot_config cfg on_disk) ->
  rtc machine_step (program_start es t0) m ->
  (forall o s', m_thread m = Idle (CRet (o, s')) ->
     exists (Sch : Schedule) n d, ScheduleOk Sch /\
       session cfg on_disk early es (boot_shell cfg on_disk start) = (o, put_store n d s') /\
       (o = Ret tt -> exists g' s1,
          main prog argv disk start g early
            = (MkConsole [] [], Ret (Serve g' (boot_config cfg on_disk) s1)) /\
          rtc (server_step (boot_config cfg on_disk) (make_default true)) s1 (put_store n d s') /\
          healthy (make_default true) cfg (boot_config cfg on_disk) (put_store n d s')) /\
       (m_lock m = Unlocked -> exists ts, m_data m = swept ts d)) /\
  (forall h k, m_thread m = InOp h Fault k ->
     exists Sch : Schedule, ScheduleOk Sch /\
       fst (session cfg on_disk early es (boot_shell cfg on_disk start)) = UB).
Proof.
  intros Hidle Hr. destruct (threaded_machine undefined (fun Sch => session cfg on_disk early es)
    (boot_shell cfg on_disk start) ∅ t0 m eq_refl Hr) as [Hi Hf].
  split; [|exact Hf]. intros o s' Hth. destruct (Hi o s' Hth) as (Sch & n & d & Hok & Hs & Hd).
  exists Sch, n, d. split_and!; [done|done| |done]. intros ->.
  destruct (main_session Sch es (put_store n d s') Hs) as (g' & s1 & Hm & Hrtc).
  exists g', s1. split_and!; [done|done|].
  destruct (main_serves _ _ _ _ _ _ _ _ _ _ _ Hm) as (cfg' & s0 & Hp & Hfr & ->).
  rewrite Hargs in Hp. injection Hp as <-.
  eapply fresh_healthy; [done|by eapply parse_args_typed|done|done|done].
Qed.
End Main.

(** * Witness *)

#[local] Existing Instance demo_runtime.
#[local] Existing Instances high_ports no_toml list_logger list_logger_ok.
#[local] Instance all_files : FileSystem :=
  {| fs_open_append := true; fs_open_read := true; fs_resize := true |}.

(** The file holds one SET; a client connects, sets a key for a second and reads it back. *)
Definition demo_file : bytes := serialize (command_value (MkCommand "SET" ["a"; "1"])%b).

Definition demo_events : list event :=
  [EvAccept (Accepted 3 true);
   EvRead 3 (Some (serialize (command_value (MkCommand "SET" ["k"; "v"; "EX"; "1"])%b)));
   EvWrite 3 false;
   EvRead 3 (Some (serialize (command_value (MkCommand "GET" ["k"])%b)))].

(** The expiry thread runs during the replay and in the middle of the client's SET, which
    has to wait for the lock. *)
Definition demo_interleaving : list choice :=
  replicate 6 RunThread ++ replicate 5 RunExpiry ++ replicate 9 RunThread
  ++ [RunExpiry; RunExpiry; RunExpiry; RunThread; RunThread] ++ replicate 4 RunExpiry
  ++ [Pass 1000] ++ replicate 10 RunThread.

Definition demo_program : machine (Out unit * Server) :=
  machine_run demo_interleaving
    (program_start (fun _ => demo_file) 0 0 Config_default demo_events 1000000000).

Definition demo_served : Server :=
  match m_thread demo_program with
  | Idle (CRet (_, s)) => s
  | _ => boot_shell Config_default demo_file 0
  end.

Lemma program_on_two_threads_witness :
  exists (Sch : Schedule) n d g' s1, ScheduleOk Sch /\
    main "vortek"%b [] (fun _ => demo_file) 0 new_logger 0
      = (MkConsole [] [], Ret (Serve g' (boot_config Config_default demo_file) s1)) /\
    rtc (server_step (boot_config Config_default demo_file) (make_default true)) s1
      (put_store n d demo_served) /\
    healthy (make_default true) Config_default (boot_config Config_default demo_file)
      (put_store n d demo_served) /\
    (exists ts, m_data demo_program = swept ts d) /\
    option_map (fun c => writes_started (socket_ c)) (connections demo_served !! 3%nat)
      = Some [serialize (RespSimpleString "OK"%b); serialize (RespBulkString "v"%b)].
Proof.
  destruct (program_on_two_threads "vortek"%b [] (fun _ => demo_file) 0 new_logger 0 Config_default
    eq_refl (eq_refl : @listens high_ports Config_default) demo_events 1000000000 demo_program)
    as [Hi _]; [intros id; vm_compute; discriminate|apply machine_run_rtc|].
  destruct (Hi (Ret tt) demo_served) as (Sch & n & d & Hok & _ & Hrun & Hd);
    [vm_compute; reflexivity|].
  destruct (Hrun eq_refl) as (g' & s1 & Hm & Hr & Hh).
  exists Sch, n, d, g', s1.
  split_and!; [done|exact Hm|exact Hr|exact Hh|apply Hd; vm_compute; reflexivity
    |vm_compute; reflexivity].
Defined.
