(* ===== verification/Durability.v ===== *)
(** Durability of the whole server: whatever its clients do, in whatever interleaving,
    the append-only file and the store agree, so a restart from the file brings the
    store back. *)

From stdpp Require Import relations.
From S2P Require Import Prelude Cxx Charconv Resp RespParser RespParserFacts RespGrammar.
From S2P Require Import World KvStore KvStoreFacts Command CmdSpec Demo StoreSim PubSubBroker.
From S2P Require Import Dispatcher Aof Histories HandlerTotal AofTheorems BrokerSpec Connection.
From S2P Require Import RespTheorems ConnFacts ConnSteps ConnServe Server ServerFacts.
From S2P Require Import ServerTheorems Config Startup.

Open Scope Z_scope.

(** * Commands read from the wire can be logged *)

Lemma wires_bulk_sizes `{CxxRuntime} l s :
  wires (map RespBulkString l) s -> Forall (fun b => zlen b <= INT64_MAX) l.
Proof.
  revert s. induction l as [|b l IH]; intros s Hw; [constructor|]. inversion Hw; subst.
  constructor; [|by eapply IH].
  match goal with Hb : wire (RespBulkString b) _ |- _ => inversion Hb; subst end.
  by match goal with Hz : parse_int64 _ = Some _ |- _ => apply parse_int64_range in Hz as [] end.
Qed.

Lemma wire_command_wf `{CxxRuntime} v s c :
  wire v s -> parse_command v = Some c -> cmd_wf c = true.
Proof.
  intros Hw Hc. destruct v as [ | | | | |[|[ | | | |n| ] elems]]; try done. simpl in Hc.
  destruct (parse_command_args elems) as [l|] eqn:Hl; [|done]. injection Hc as <-.
  apply parse_command_args_inv in Hl as ->. inversion Hw as [ | | | | | |ln vs t _ Hz Hr Hs]; subst.
  apply (wires_bulk_sizes (n :: l)) in Hs as [Hn Hl]%Forall_cons_1.
  apply parse_int64_range in Hz as [_ Hz]. unfold cmd_wf, command_value. cbn [name args].
  rewrite upper_idem, bool_decide_eq_true_2, andb_true_r by done. cbn [resp_wf name args].
  assert (zlen (RespBulkString (upper n) :: map RespBulkString l)
          = zlen (RespBulkString n :: map RespBulkString l)) as -> by done.
  unfold reserve in Hr. destruct (Z.ltb_spec vector_max_size
    (zlen (RespBulkString n :: map RespBulkString l))) as [|H1]; [done|].
  destruct (Z.ltb_spec alloc_limit (zlen (RespBulkString n :: map RespBulkString l))) as [|H2];
    [done|].
  rewrite !(proj2 (Z.leb_le _ _)) by done. cbn [andb forallb resp_wf].
  unfold upper, zlen in *. rewrite length_map, (proj2 (Z.leb_le _ _) Hn). cbn [andb].
  apply forallb_forall. intros x Hx%in_map_iff. destruct Hx as (b & <- & Hb). simpl.
  apply Z.leb_le. eapply Forall_forall in Hl; [exact Hl|]. by apply list_elem_of_In.
Qed.

(** * The file and the store agree *)

Lemma run_history_snoc d cmds c w :
  run_history d (cmds ++ [c]) w =
  (fst (run_history d cmds w) ++ [fst (dispatch d c (snd (run_history d cmds w)))],
   snd (dispatch d c (snd (run_history d cmds w)))).
Proof.
  revert w. induction cmds as [|c' cmds IH]; intros w.
  - exact (run_history_cons d c [] w).
  - cbn [app]. rewrite !run_history_cons, IH. done.
Qed.

Section Durable.
Context `{CxxRuntime} (S1 : Schedule) `{!ScheduleOk S1} (broker : bool).

Abbreviation commands := (@make_default _ S1 broker).

(** [w] holds what running the commands [cs] on an empty store gives, at any time,
    provided they set no deadline. *)
Record reproduces (cs : list Command) (w : World) : Prop := {
  rp_wf : Forall (fun c => cmd_wf c = true) cs;
  rp_data : Forall (fun c => ttl_free c = true) cs ->
    forall (S2 : Schedule) `{!ScheduleOk S2} w2, data_ w2 = ∅ ->
    let run := run_history (@make_default _ S2 broker) cs w2 in
    Forall settled (fst run) /\ same_data w (snd run);
}.

Definition agree (a : AofPersistence) (w : World) : Prop :=
  exists cs, a = MkAof (logged cs) true /\ reproduces cs w.

Lemma agree_data a w w' : data_ w' = data_ w -> agree a w -> agree a w'.
Proof.
  intros Hd (cs & Ha & [Hwf Hr]). exists cs. split; [done|]. split; [done|].
  intros Hf S2 HS2 w2 Hw2. destruct (Hr Hf S2 HS2 w2 Hw2) as [Hs [H1 H2]].
  split; [done|]. split; by rewrite Hd.
Qed.

Lemma agree_log c cs :
  AofPersistence_log c (MkAof (logged cs) true) = MkAof (logged (cs ++ [c])) true.
Proof.
  unfold AofPersistence_log, logged. cbn [file_is_open file_content].
  rewrite map_app, flat_map_app. cbn [map flat_map]. by rewrite app_nil_r.
Qed.

(** Logging a command and executing it keeps the agreement. *)
Lemma agree_dispatch c a w :
  cmd_wf c = true -> settled (fst (dispatch commands c w)) -> agree a w ->
  agree (log_if_write c a) (snd (dispatch commands c w)).
Proof.
  intros Hc Hset (cs & -> & [Hwf Hr]). unfold log_if_write.
  destruct (is_write_command (name c)) eqn:Hw.
  - rewrite agree_log. exists (cs ++ [c]). split; [done|].
    split; [apply Forall_app; by repeat constructor|].
    intros [Hf Hfc]%Forall_app S2 HS2 w2 Hw2. destruct (Hr Hf S2 HS2 w2 Hw2) as [Hs Hd].
    apply Forall_inv in Hfc. cbv zeta. rewrite run_history_snoc. cbn [fst snd].
    destruct (dispatch_related _ same_data _ _ c (any_clock_tables S1 S2 broker)
                (conj Hw Hfc) w _ Hd) as [Ho Hd']. split; [|done].
    apply Forall_app. split; [done|]. constructor; [by rewrite <- Ho|constructor].
  - exists cs. split; [done|]. split; [done|]. intros Hf S2 HS2 w2 Hw2.
    destruct (Hr Hf S2 HS2 w2 Hw2) as [Hs [H1 H2]]. split; [done|].
    split; by rewrite (unlogged_data S1 broker c w Hw H2).
Qed.

(** * A connection *)

Definition data_same (w w' : World) : Prop := data_ w' = data_ w.

#[local] Instance data_same_preorder : PreOrder data_same.
Proof. split; [by intros w|]. intros w1 w2 w3. unfold data_same. congruence. Qed.

#[local] Instance data_same_broker sid : BrokerOps sid data_same.
Proof.
  split; [apply _|..].
  - by intros ch w.
  - intros ch w. unfold PubSubBroker_unsubscribe. by destruct (channels_ w !! ch).
  - intros w. unfold PubSubBroker_unsubscribe_all. by destruct (unsubscribe_walk _ _ _ _).
Qed.

Definition aof_same (s s' : CState) : Prop := aof s' = aof s.

#[local] Instance aof_same_ops cfg : ConnOps cfg aof_same.
Proof.
  split; [|done..]. split; [by intros s|]. intros s1 s2 s3. unfold aof_same. congruence.
Qed.

Context (cfg : ConnConfig) (Haof : has_aof cfg = true).

Definition agrees (s : CState) : Prop := agree (aof s) (world s).

Lemma agrees_npres {A} (m : N A) s :
  npres aof_same m -> wpres data_same m -> agrees s -> agrees (snd (m s)).
Proof. intros Ha Hw Hs. unfold agrees. rewrite (Ha s). by eapply agree_data; [apply Hw|]. Qed.

Lemma data_loop_agrees fuel chunk responses s :
  addressable (buffer s ++ chunk) -> agrees s ->
  let r := data_loop cfg fuel commands chunk responses s in
  fst (snd r) <> UB -> fst (snd r) <> NoFuel -> agrees (snd (snd r)).
Proof.
  revert chunk responses s. induction fuel as [|fuel IH]; intros chunk responses s Ha Hs;
    cbn [data_loop]; [done|].
  pose proof (feed_cases (parser_ (conn s)) chunk Ha) as Hf.
  destruct (RespParser_feed _ chunk) as [val p].
  set (s1 := MkCState (with_parser p (conn s)) (aof s) (world s)).
  assert (agrees s1) as Hs1 by done. destruct val as [[val|]|e| |]; try done.
  destruct Hf as (t & Hwire & Ht & _). rewrite Ht in Ha. apply addressable_app_r in Ha.
  assert (forall r s2, parser_ (conn s2) = p -> agrees s2 ->
    let r := data_loop cfg fuel commands [] r s2 in
    fst (snd r) <> UB -> fst (snd r) <> NoFuel -> agrees (snd (snd r))) as Hrec.
  { intros r s2 Hp. apply IH. by rewrite Hp, app_nil_r. }
  destruct (parse_command val) as [cmd|] eqn:Hcmd; [|done]. case_decide.
  { pose proof (handle_auth_parser cfg cmd (conn s1)) as Hau.
    destruct (handle_auth cfg cmd (conn s1)) as [r c]. by apply Hrec. }
  destruct (negb _); [by apply Hrec|]. case_decide.
  { pose proof (handle_subscribe_pres cfg parser_kept cmd s1) as Hp.
    pose proof (agrees_npres _ s1 (handle_subscribe_pres cfg aof_same cmd)
                  (handle_subscribe_wpres cfg data_same cmd) Hs1) as Hag.
    destruct (handle_subscribe cfg cmd s1) as [[u|e| |] s2]; try done. by apply Hrec. }
  case_decide.
  { pose proof (handle_unsubscribe_pres cfg parser_kept cmd s1) as Hp.
    pose proof (agrees_npres _ s1 (handle_unsubscribe_pres cfg aof_same cmd)
                  (handle_unsubscribe_wpres cfg data_same cmd) Hs1) as Hag.
    destruct (handle_unsubscribe cfg cmd s1) as [[u|e| |] s2]; try done. by apply Hrec. }
  rewrite Haof. unfold on_world. cbn [world conn aof].
  pose proof (agree_dispatch cmd (aof s1) (world s1) (wire_command_wf _ _ _ Hwire Hcmd)) as Hd.
  destruct (dispatch commands cmd (world s1)) as [[r|e| |] w]; try done.
  - apply Hrec; [by destruct (has_stats cfg)|]. unfold agrees.
    destruct (has_stats cfg); cbn [aof world]; [apply (agree_data _ w); [done|]|]; by apply Hd.
  - intros _ _. by apply Hd.
Qed.

Lemma handle_data_agrees chunk s s' :
  max_request_bytes_ cfg < 2 ^ 62 -> agrees s ->
  handle_data cfg commands chunk s = (Ret tt, s') -> agrees s'.
Proof.
  intros Hmax Hs. unfold handle_data, RespParser_buffered_size.
  destruct (Z.ltb_spec (max_request_bytes_ cfg) (zlen (buffer s) + zlen chunk))
    as [|Hfit]; [by intros [= <-]|].
  assert (addressable (buffer s ++ chunk)) as Ha by (unfold addressable; zlen_lia).
  pose proof (data_loop_agrees (data_fuel (conn s) chunk) chunk [] s Ha Hs) as Hl.
  assert (forall responses u u', finish_data cfg responses u = (Ret tt, u') -> agrees u -> agrees u')
    as Hfin by (intros [] u u' [= <-]; done).
  destruct (data_loop _ _ _ _ _ _) as [responses [[u|e| |] s3]]; try done; intros Hr;
    (eapply Hfin; [exact Hr|]); by apply Hl.
Qed.

Lemma on_read_agrees result s s' :
  max_request_bytes_ cfg < 2 ^ 62 -> agrees s ->
  on_read cfg commands result s = (Ret tt, s') -> agrees s'.
Proof.
  intros Hmax Hs. destruct result as [chunk|]; [|by intros [= <-]].
  change (on_read cfg commands (Some chunk) s) with (handle_data cfg commands chunk
    (MkCState (reset_idle_timer cfg (with_socket (end_read (socket_ (with_reading false (conn s))))
                                       (with_reading false (conn s)))) (aof s) (world s))).
  by apply handle_data_agrees.
Qed.
End Durable.

(** * The server *)

Section Restart.
Context `{CxxRuntime} (S1 S2 : Schedule) `{!ScheduleOk S1} `{!ScheduleOk S2} `{FileSystem} `{Network}.

Definition srv_agree (s : Server) : Prop := agree true (srv_aof s) (srv_world s).

Lemma accept_agree sc r s s' reply :
  on_accept sc r s = Some (s', reply) -> srv_agree s -> srv_agree s'.
Proof.
  intros Hacc Hs. unfold on_accept in Hacc.
  destruct r as [id known| |]; [destruct (at_capacity _ _); [|destruct known; [|done]]|
    |destruct (stopping_ _)]; injection Hacc as <- _; try done.
  refine (agree_data true _ (srv_world s) _ _ Hs). simpl. by destruct (srv_has_stats sc).
Qed.

Lemma stop_agree sc s : srv_agree s -> srv_agree (Server_stop sc s).
Proof.
  intros Hs. unfold Server_stop. destruct (stopping_ s); [done|].
  refine (agree_data true _ (srv_world s) _ _ Hs). simpl. by destruct (srv_has_stats sc).
Qed.

Lemma server_step_agree sc s s' :
  srv_has_aof sc = true -> srv_max_request_bytes sc < 2 ^ 62 ->
  server_step sc (@make_default _ S1 true) s s' -> srv_agree s -> srv_agree s'.
Proof.
  intros Haof Hmax Hstep Hs.
  destruct Hstep as [r s s' reply _ _ _ _ Hacc| |id c res s s' _ _ _ _ Hread| | |id frame rest c s _ _ _|
    id c s w _ _ _ _ Hd|r s _|]; try done.
  - by eapply accept_agree.
  - by refine (on_read_agrees S1 true (conn_config sc id) Haof res
                 (MkCState c (srv_aof s) (srv_world s)) s' Hmax Hs _).
  - by refine (agree_data true _ (srv_world s) _ _ Hs).
  - refine (agree_data true _ (srv_world s) _ _ Hs). by destruct (destroy_run _ _ _ _ Hd).
  - destruct (on_poll_cases sc r s) as [[b ->]|(_ & _ & ->)]; [done|]. by apply stop_agree.
Qed.

Lemma server_agree sc early s0 s :
  srv_has_aof sc = true -> srv_max_request_bytes sc < 2 ^ 62 -> srv_agree s0 ->
  rtc (server_step sc (@make_default _ S1 true)) (Server_run sc early s0) s -> srv_agree s.
Proof.
  intros Haof Hmax Hs0 Hrtc. assert (srv_agree (Server_run sc early s0)) as Hrun.
  { unfold Server_run, setup_signal_handlers. set (s1 := vortek_signal_handler _ _).
    assert (srv_agree s1) as Hs1.
    { subst s1. destruct (srv_has_stats sc); [|done].
      by refine (agree_data true _ (srv_world s0) _ _ Hs0). }
    destruct (poll_cases sc s1) as [[b ->]|(_ & _ & ->)]; [done|by apply stop_agree]. }
  clear Hs0. induction Hrtc as [|s1 s2 s3 Hstep _ IH]; [done|].
  apply IH. by eapply server_step_agree.
Qed.

(** The store a program starts with from a complete log. *)
Lemma boot_agree cfg cs t w :
  fs_grants -> listens cfg -> cfg_aof_enabled cfg = true -> reproduces true cs w ->
  Forall (fun c => ttl_free c = true) cs -> addressable (logged cs) ->
  exists sc s, @boot _ _ _ S2 cfg (logged cs) t = Ret (sc, s) /\
    srv_aof s = MkAof (logged cs) true /\ data_ (srv_world s) = data_ w.
Proof.
  intros Hfs Hnet Hen [Hwf Hr] Hfree Ha.
  destruct (Hr Hfree S2 _ (MkWorld ∅ 0 (MkStats t 0 0 false (cfg_port cfg) true) ∅ []) eq_refl)
    as [Hset [Hdata _]].
  pose proof (replay_run (@make_default _ S2 true) (MkAof (logged cs) true)
    (MkWorld ∅ 0 (MkStats t 0 0 false (cfg_port cfg) true) ∅ []) cs [] Hfs) as Hrep.
  rewrite app_nil_r in Hrep. specialize (Hrep eq_refl eq_refl Hwf eq_refl Ha Hset).
  destruct Hfs as (Happ & _ & _). unfold boot, AofPersistence_new. rewrite Hen, Happ.
  cbn [negb AofPersistence_is_open file_is_open]. rewrite Hrep. unfold Server_new. rewrite Hnet. do 2 eexists. split; [reflexivity|]. by split.
Qed.

Lemma boot_empty cfg t sc s :
  fs_grants -> listens cfg -> cfg_aof_enabled cfg = true -> @boot _ _ _ S1 cfg [] t = Ret (sc, s) ->
  srv_has_aof sc = true /\ srv_max_request_bytes sc = cfg_max_request_bytes cfg /\ srv_agree s.
Proof.
  intros (Happ & Hread & _) Hnet Hen Hboot.
  unfold boot, AofPersistence_new, AofPersistence_replay in Hboot.
  rewrite Hen, Happ, Hread in Hboot. cbn in Hboot. unfold Server_new in Hboot.
  rewrite Hnet in Hboot. injection Hboot as <- <-. split_and!; [done..|].
  exists []. split; [done|]. split; [constructor|]. intros _ S HS w2 Hw2. split; [constructor|].
  split; simpl; [by rewrite Hw2|apply map_Forall_empty].
Qed.

(** The commands a file holds. *)
Definition log_commands (content : bytes) : list Command :=
  omap parse_command (stream_values content).

Lemma log_commands_logged cs :
  Forall (fun c => cmd_wf c = true) cs -> addressable (logged cs) -> log_commands (logged cs) = cs.
Proof.
  intros Hwf Ha. unfold log_commands, stream_values, logged.
  pose proof (drain_all_prefix (map command_value cs) [] (cmd_wf_values _ Hwf) eq_refl) as Hd.
  rewrite app_nil_r in Hd. rewrite (Hd Ha). by apply omap_commands.
Qed.

(** C6. End-to-end durability: start the program on an empty file and let it serve any
    clients, commands, subscriptions, errors, disconnects and signals in any
    interleaving. At every moment its file is exactly the log of the commands in it; and
    unless one of them sets a deadline, starting the program again on that file, at any
    time, gives a server with exactly the same store and the same file. *)
Theorem restart_restores_store cfg t0 t1 sc s0 early s :
  fs_grants -> listens cfg -> cfg_aof_enabled cfg = true -> cfg_max_request_bytes cfg < 2 ^ 62 ->
  @boot _ _ _ S1 cfg [] t0 = Ret (sc, s0) ->
  rtc (server_step sc (@make_default _ S1 true)) (Server_run sc early s0) s ->
  addressable (file_content (srv_aof s)) ->
  let cs := log_commands (file_content (srv_aof s)) in
  srv_aof s = MkAof (logged cs) true /\
  (Forall (fun c => ttl_free c = true) cs ->
   exists sc' s', @boot _ _ _ S2 cfg (file_content (srv_aof s)) t1 = Ret (sc', s') /\
     srv_aof s' = srv_aof s /\ data_ (srv_world s') = data_ (srv_world s)).
Proof.
  intros Hfs Hnet Hen Hmax Hboot Hrtc Haddr.
  destruct (boot_empty cfg t0 sc s0 Hfs Hnet Hen Hboot) as (Haof & Hreq & Hs0). rewrite <- Hreq in Hmax.
  destruct (server_agree sc early s0 s Haof Hmax Hs0 Hrtc) as (cs & Ha & Hr).
  rewrite Ha in Haddr |- *. cbn [file_content] in Haddr |- *.
  rewrite (log_commands_logged cs (rp_wf _ _ _ Hr) Haddr). split; [done|].
  intros Hfree. by apply boot_agree.
Qed.
End Restart.

(** * Witness *)

#[local] Existing Instance demo_runtime.
#[local] Existing Instance demo_schedule.
#[local] Instance granting_files : FileSystem :=
  {| fs_open_append := true; fs_open_read := true; fs_resize := true |}.
#[local] Instance all_ports_free : Network := {| listen_error := fun _ => None |}.

Definition fresh_sc : ServerConfig := MkServerConfig [] (1024 * 1024) 300 10000 (1024 * 1024)
  true true true.

Definition fresh_server : Server :=
  MkServer false (MkLoop false true false 0) ∅ (MkAof [] true)
    (MkWorld ∅ 0 (MkStats 0 0 0 false 6379 true) ∅ []).

(** A client is accepted and pushes two elements. *)
Definition accepted : Server :=
  match on_accept fresh_sc (Accepted 3 true) (Server_run fresh_sc 0 fresh_server) with
  | Some (s, _) => s
  | None => fresh_server
  end.

Definition lpush_bytes : bytes := serialize (command_value (MkCommand "lpush" ["l"; "a"; "b"])%b).

Definition served_state : CState :=
  snd (on_read (conn_config fresh_sc 3) (make_default true) (Some lpush_bytes)
         (MkCState (start (conn_config fresh_sc 3) (Connection_new (conn_config fresh_sc 3)))
            (srv_aof accepted) (srv_world accepted))).

Definition served : Server :=
  with_conn 3 (conn served_state) (aof served_state) (world served_state) accepted.

Lemma restart_restores_store_witness :
  exists sc' s',
    boot Config_default (logged [MkCommand "LPUSH" ["l"; "a"; "b"]]%b) 77 = Ret (sc', s') /\
    data_ (srv_world s') = data_ (srv_world served).
Proof.
  destruct (restart_restores_store demo_schedule demo_schedule Config_default 0 77 fresh_sc
              fresh_server 0 served) as (_ & Hr).
  - done.
  - reflexivity.
  - reflexivity.
  - vm_compute. reflexivity.
  - vm_compute. reflexivity.
  - eapply rtc_l; [apply (srv_accept _ _ (Accepted 3 true) _ accepted None)|].
    1, 2: reflexivity.
    { intros id b Hid. reflexivity. }
    { discriminate. }
    { vm_compute. reflexivity. }
    apply rtc_once.
    apply (srv_read _ _ 3 (start (conn_config fresh_sc 3) (Connection_new (conn_config fresh_sc 3)))
             (Some lpush_bytes) accepted served_state).
    + vm_compute. reflexivity.
    + vm_compute. reflexivity.
    + vm_compute. lia.
    + intros chunk [= <-]. vm_compute. lia.
    + vm_compute. reflexivity.
  - vm_compute. reflexivity.
  - assert (file_content (srv_aof served) = logged [MkCommand "LPUSH" ["l"; "a"; "b"]]%b) as Hf
      by (vm_compute; reflexivity).
    assert (log_commands (logged [MkCommand "LPUSH" ["l"; "a"; "b"]]%b)
            = [MkCommand "LPUSH" ["l"; "a"; "b"]]%b) as Hl by (vm_compute; reflexivity).
    rewrite Hf, Hl in Hr.
    destruct Hr as (sc' & s' & Hb & _ & Hd); [by repeat constructor|].
    exists sc', s'. split; [exact Hb|exact Hd].
Defined.
